(* ===== verification/_CoqProject ===== *)
-Q . S2P
Prelude.v
Random.v
Arena.v
SkipList.v
Port.v
Coding.v
Crc32cTables.v
Crc32c.v
Logging.v
Status.v
Comparator.v
Hash.v
Bloom.v
DbFormat.v
Env.v
FileName.v
LogWriter.v
LogReader.v
Options.v
BlockBuilder.v
Iterator.v
Block.v
TableFormat.v
FilterBlock.v
MemTable.v
IteratorWrapper.v
Merger.v
TwoLevelIterator.v
TableBuilder.v
Cache.v
LRUCache.v
LRUShard.v
ShardedCache.v
ShardedOwner.v
Table.v
TableCache.v
FileSystem.v
Kernel.v
PosixFile.v
PosixEnv.v
PosixRandom.v
PosixThreads.v
PosixLogger.v
ReadPath.v
Win32.v
WindowsFile.v
WindowsEnv.v
WindowsObjects.v
WindowsLogger.v
