(* ===== verification/Prelude.v ===== *)
(** * A verification of the storage engine's core

    The repository is a C++ port of LevelDB's storage layers.  This library
    models its code as Rocq functions and proves the properties that make the
    layers correct and fit together.

    ** The program and its model

    - Machine level: [Prelude] (bytes, machine integers, little-endian
      strings), [Port] (port/port_stdcxx.h), [Coding] (util/coding.h and .cpp),
      [Crc32cTables] and [Crc32c] (util/crc32c.h and .cpp), [Logging]
      (util/logging.h and .cpp), [Status] (status.h, status.cpp), [Hash]
      (util/hash.h and .cpp), [Random] (util/random.h).
    - Keys: [Comparator] (slice.h, comparator.h and .cpp), [Bloom]
      (filter_policy.h, bloom.cpp), [DbFormat] (db/dbformat.h and .cpp).
    - Files: [Env] (env.h, env.cpp), [FileName] (db/filename.h and .cpp).
    - The view of the file system that both operating systems are specified
      by: [FileSystem].
    - The POSIX environment: [Kernel] (the system calls and what they promise),
      [PosixFile] and [PosixEnv] (util/env_posix.cpp), [PosixRandom] (its random
      access files as the interface that tables are read through),
      [PosixThreads] (its limiter and background queue as interleavings),
      [PosixLogger] (util/posix_logger.h).
    - The Windows environment: [Win32] (the calls and what their documentation
      promises), [WindowsFile] and [WindowsEnv] (util/env_windows.cpp),
      [WindowsObjects] (which object owns which handle and view),
      [WindowsLogger] (util/windows_logger.h).
    - The log: [LogWriter] and [LogReader] (db/log_format.h, log_writer.h and
      .cpp, log_reader.h and .cpp).
    - The memtable: [Arena] (util/arena.h and .cpp), [SkipList]
      (db/skiplist.h), [MemTable] (db/memtable.h and .cpp).
    - Tables: [Options], [BlockBuilder], [Iterator], [Block], [TableFormat],
      [FilterBlock], [IteratorWrapper], [Merger], [TwoLevelIterator],
      [TableBuilder], [Table] (the files of table/ with those names).
    - The cache: [Cache] (cache.h, the interface), [LRUCache], [LRUShard] and
      [ShardedCache] (util/cache.cpp: the handle table and list of a shard, the
      shard against its specification, the sixteen shards together),
      [ShardedOwner] (which values it owns and when the deleter runs).
    - The table cache: [TableCache] (db/table_cache.h and .cpp), and [ReadPath],
      where everything a lookup runs through is put together.

    A write goes to the log and to the memtable, whose skip list lives in an
    arena; tables are sequences of blocks with a filter block and an index, and
    are read through the block cache by a two-level iterator; the table cache
    keeps tables and their files open, by file number; a merging iterator joins
    memtables and tables.  The repository stops there: it has no
    versions, compaction or DB class.

    ** How code is modelled

    A w-bit unsigned integer is a [Z] and every operation that can wrap is
    written with [u8], [u32] or [u64].  A buffer or slice is the list of its
    bytes; where the code looks at an address the address is an argument.  An
    object is a record, a method a function from the old state to the new
    one.  Linked nodes live in a finite map from addresses.  Interfaces
    (comparators, filter policies, files, environments, kernels, iterators,
    allocators, arenas, caches) are records or classes of operations, with a class of laws
    for what clients rely on; each client is proved against the laws and the
    implementations in this library are instances of them.  Code that is not
    part of the repository (the operating system, operator new, snappy,
    hardware crc32c) only occurs behind such classes.

    A loop is a [Fixpoint] on fuel.  The definitions start their loops with
    enough fuel, or the theorems name the fuel that suffices: one turn per
    remaining byte, entry or node.  Running out of fuel is a result of its
    own ([None]) wherever it could be mistaken for one of the code's.  The
    loops that retry interrupted system calls run once per byte and once per
    signal still to come, of which a kernel has finitely many.  The
    two-level iterator of a table starts its skip loops with one turn more than
    the index block has bytes, which bounds its entries.

    ** What is proved

    - Encodings: integers, internal keys, file names, block handles, footers
      and blocks read back as they were written; arbitrary input is read within
      its bounds; the unrolled and table-driven routines compute their
      reference definitions.
    - The log: the layout written, crash consistency under truncation, checked
      checksums, termination on every file.
    - The memtable: arena regions are disjoint; the skip list is a sorted set,
      and safe for a reader without a lock under every interleaving of its
      loads with a writer's stores (sequentially consistent, one store or load
      a step), in which it only grows, by the keys inserted; lookups see a snapshot; iteration is in internal-key order.
    - Tables: every iterator (block, memtable, merging, two-level, table)
      implements one interface, [IteratorOk], over an explicit list of entries;
      what a builder writes is what an opened table iterates over and looks up,
      with failing files, filters and any cache; pins are given back.
    - The cache: a shard's pointer code is an abstract LRU list with pins;
      every value is deleted exactly once; the cache keeps the interface that
      tables rely on.
    - The table cache: lookups and iterators by file number read what the file
      holds, for any number of tables that share both caches; files are closed
      exactly when the cache lets go of their tables.  [read_path_correct] has
      all the parts from [TableCache::Get] to the system calls in it, and only
      the kernel, the allocators and the checksum hardware as interfaces.
    - Environment: writing a file and switching CURRENT under failures of any
      operation, for any environment and, down to the system calls, for
      [PosixEnv], which is an instance of the environment's contract; buffered
      writes arrive in order and at most once under short writes, signals and
      errors; random access files read their file and give their resources
      back; locks, limiter and work queue under every sequence or interleaving
      of calls; log lines come out whole.  [WindowsEnv] keeps the same contract
      but for renames: a failed one may lose its target, and with it CURRENT;
      its handles and views are owned, each by one object, under every
      sequence of calls.

    Bounds in the statements: tables below 4 GB, whose offsets the block code
    keeps in 32 bits; keys and values below 2^32 bytes; fewer than 2^32 pins of
    the block cache at once, its counters having that width; cache capacities
    below 15 * 2^31 and charges in (0, 2^32); fewer than 2^64 openings of tables,
    each of which takes an id; file positions below 2^63; sequential
    reads of at most 0x7ffff000 bytes, and on Windows random reads and writes of
    fewer than 2^32; blocks stored uncompressed in
    the table theorems, because [ReadBlock] loses compressed ones.

    Assumed of the systems underneath, beyond what their interfaces say: reads
    of disk files are short only at the end of the file ([FullReads], in the
    theorems on reading, not in those on writing and switching CURRENT);
    successful writes on Windows are complete ([FullWrites]); closing an open
    descriptor or handle and unmapping a mapping release it.  A user comparator
    that is asked to separate two versions of one key must not answer with a
    greater key ([SeparatorOnEqual]), where such versions are separated.

    ** Not modelled

    The mutexes of the cache and of the lock table, whose methods hold them from
    begin to end; memory orders weaker than sequential consistency; thread
    creation and sleeping; [EnvWrapper], every method of which calls the same
    method of its target; the lock guard of mutexlock.h, the storage wrapper
    [NoDestructor] and the annotation macros, which have no logic; the tests.
    An operating system is used by one process, its paths are canonical, and
    sharing modes only show as calls that fail. *)

From Stdlib Require Export ZArith Lia Bool.
From Stdlib Require Import Sorted.
From Stdlib.Strings Require Export Byte.
From Stdlib.Strings Require String.
From stdpp Require Export base tactics numbers list strings gmap.

Open Scope Z_scope.

(** * Bytes and machine integers *)

Notation byte := Byte.byte.
Notation bytes := (list Byte.byte).

#[export] Instance byte_eq_dec : EqDecision byte := Byte.byte_eq_dec.

#[export] Instance byte_countable : Countable byte.
Proof. apply (inj_countable Byte.to_N Byte.of_N). apply Byte.of_to_N. Defined.

Definition ub (b : byte) : Z := Z.of_N (Byte.to_N b).

Definition bz (z : Z) : byte :=
  match Byte.of_N (Z.to_N (z mod 256)) with
  | Some b => b
  | None => Byte.x00
  end.

Definition sb (b : byte) : Z := if ub b <? 128 then ub b else ub b - 256.

Definition u8 (z : Z) : Z := z mod 2 ^ 8.
Definition u32 (z : Z) : Z := z mod 2 ^ 32.
Definition u64 (z : Z) : Z := z mod 2 ^ 64.

(** Conversions to [int] and to [off_t]. *)
Definition s32 (z : Z) : Z := (z + 2 ^ 31) mod 2 ^ 32 - 2 ^ 31.
Definition s64 (z : Z) : Z := (z + 2 ^ 63) mod 2 ^ 64 - 2 ^ 63.

Definition blen {A} (l : list A) : Z := Z.of_nat (length l).

Definition bytes_of_string (s : string) : bytes := String.list_byte_of_string s.

Lemma s32_small z : - 2 ^ 31 <= z < 2 ^ 31 -> s32 z = z.
Proof. intros Hz. unfold s32. rewrite Z.mod_small; lia. Qed.

Lemma s64_small z : 0 <= z < 2 ^ 63 -> s64 z = z.
Proof. intros Hz. unfold s64. rewrite Z.mod_small; lia. Qed.

Lemma ub_range b : 0 <= ub b < 256.
Proof.
  unfold ub. pose proof (Byte.to_N_bounded b). lia.
Qed.

Lemma ub_bz z : ub (bz z) = z mod 256.
Proof.
  unfold ub, bz.
  pose proof (Z.mod_pos_bound z 256 ltac:(lia)) as Hb.
  destruct (Byte.of_N (Z.to_N (z mod 256))) as [b|] eqn:E.
  - apply Byte.to_of_N in E. rewrite E. lia.
  - apply Byte.of_N_None_iff in E. lia.
Qed.

Lemma ub_inj a b : ub a = ub b -> a = b.
Proof.
  unfold ub. intros H%N2Z.inj.
  assert (Some a = Some b) as [= ->]; [|done].
  rewrite <- (Byte.of_to_N a), <- (Byte.of_to_N b). by rewrite H.
Qed.

Lemma bz_ub b : bz (ub b) = b.
Proof.
  apply ub_inj. rewrite ub_bz. apply Z.mod_small, ub_range.
Qed.

#[export] Instance ub_injective : Inj (=) (=) ub := ub_inj.

Lemma bz_mod z : bz (z mod 256) = bz z.
Proof. apply ub_inj. by rewrite !ub_bz, Zmod_mod. Qed.

Lemma ub_bz_small z : 0 <= z < 256 -> ub (bz z) = z.
Proof. intros. rewrite ub_bz. by apply Z.mod_small. Qed.

(** * Little-endian byte strings *)

Fixpoint le_split (n : nat) (v : Z) : bytes :=
  match n with
  | O => []
  | S n' => bz v :: le_split n' (Z.shiftr v 8)
  end.

Fixpoint le_combine (l : bytes) : Z :=
  match l with
  | [] => 0
  | b :: l' => Z.lor (ub b) (Z.shiftl (le_combine l') 8)
  end.

(** ** Bit-level reasoning *)

(** [testbit] of a value below a power of two vanishes above that power. *)
Lemma testbit_above n a i : 0 <= a < 2 ^ n -> n <= i -> Z.testbit a i = false.
Proof.
  intros Ha Hi. destruct (decide (0 <= n)) as [Hn|Hn].
  - rewrite <- (Z.mod_small a (2 ^ n)) by done. by apply Z.mod_pow2_bits_high.
  - rewrite Z.pow_neg_r in Ha by lia. lia.
Qed.

(** Bitwise operations on values below [2 ^ n] stay below [2 ^ n]. *)
Lemma bits_bounded n a :
  0 <= n -> 0 <= a -> (forall i, n <= i -> Z.testbit a i = false) -> 0 <= a < 2 ^ n.
Proof. intros Hn Ha Hb. by apply Z.bounded_iff_bits_nonneg'. Qed.

Lemma lor_range n a b :
  0 <= n -> 0 <= a < 2 ^ n -> 0 <= b < 2 ^ n -> 0 <= Z.lor a b < 2 ^ n.
Proof.
  intros Hn Ha Hb. apply bits_bounded; [done| |].
  - apply Z.lor_nonneg; lia.
  - intros i Hi. rewrite Z.lor_spec.
    by rewrite (testbit_above n a), (testbit_above n b).
Qed.

Lemma lxor_range n a b :
  0 <= n -> 0 <= a < 2 ^ n -> 0 <= b < 2 ^ n -> 0 <= Z.lxor a b < 2 ^ n.
Proof.
  intros Hn Ha Hb. apply bits_bounded; [done| |].
  - apply Z.lxor_nonneg; lia.
  - intros i Hi. rewrite Z.lxor_spec.
    by rewrite (testbit_above n a), (testbit_above n b).
Qed.

Lemma land_range_r n a b : 0 <= n -> 0 <= b < 2 ^ n -> 0 <= Z.land a b < 2 ^ n.
Proof.
  intros Hn Hb. apply bits_bounded; [done| |].
  - apply Z.land_nonneg; lia.
  - intros i Hi. rewrite Z.land_spec, (testbit_above n b) by done.
    apply andb_false_r.
Qed.

Lemma shiftr_range n m a :
  0 <= m -> 0 <= n -> 0 <= a < 2 ^ (n + m) -> 0 <= Z.shiftr a m < 2 ^ n.
Proof.
  intros Hm Hn Ha. rewrite Z.shiftr_div_pow2 by lia.
  rewrite Z.pow_add_r in Ha by lia.
  split; [apply Z.div_pos; lia|]. apply Z.div_lt_upper_bound; lia.
Qed.

(** A disjoint [lor] is an addition. *)
Lemma lor_shiftl_add a b n :
  0 <= n -> 0 <= a < 2 ^ n -> Z.lor a (Z.shiftl b n) = a + b * 2 ^ n.
Proof.
  intros Hn Ha. rewrite <- Z.shiftl_mul_pow2 by lia.
  symmetry. apply Z.add_nocarry_lor. apply Z.bits_inj_0. intros i.
  rewrite Z.land_spec. destruct (decide (i < 0)).
  { by rewrite Z.testbit_neg_r. }
  destruct (decide (i < n)).
  - rewrite Z.shiftl_spec_low by done. apply andb_false_r.
  - by rewrite (testbit_above n a) by lia.
Qed.

Lemma land_ones_mod a n : 0 <= n -> Z.land a (2 ^ n - 1) = a mod 2 ^ n.
Proof.
  intros. rewrite <- Z.land_ones by done. by rewrite Z.ones_equiv.
Qed.

(** Push [Z.testbit] through every operation the sources use. *)
#[export] Hint Rewrite Z.lor_spec Z.land_spec Z.lxor_spec Z.bits_0 : zbits.
#[export] Hint Rewrite Z.shiftr_spec Z.shiftl_spec Z.testbit_mod_pow2 using lia : zbits.

Ltac zbits :=
  apply Z.bits_inj'; let i := fresh "i" in let Hi := fresh "Hi" in
  intros i Hi; autorewrite with zbits.

(** ** Encoding and decoding are inverse *)

Lemma length_le_split n v : length (le_split n v) = n.
Proof. revert v. induction n; simpl; auto. Qed.

Lemma le_combine_range l : 0 <= le_combine l < 2 ^ (8 * blen l).
Proof.
  unfold blen. induction l as [|b l IH]; [done|]. cbn [le_combine length].
  pose proof (ub_range b). rewrite lor_shiftl_add by lia.
  rewrite Nat2Z.inj_succ, Z.mul_succ_r, Z.pow_add_r by lia. lia.
Qed.

Lemma le_combine_split n v : le_combine (le_split n v) = v mod 2 ^ (8 * Z.of_nat n).
Proof.
  revert v. induction n as [|n IH]; intros v; cbn [le_split le_combine].
  { by rewrite Z.mod_1_r. }
  rewrite IH, ub_bz, Nat2Z.inj_succ, Z.mul_succ_r.
  change 256 with (2 ^ 8). zbits.
  destruct (decide (i < 8)).
  - rewrite (proj2 (Z.ltb_lt i 8)) by lia.
    rewrite (Z.testbit_neg_r _ (i - 8)) by lia.
    rewrite (proj2 (Z.ltb_lt i _)) by lia. cbn. by rewrite andb_false_r, orb_false_r.
  - rewrite (proj2 (Z.ltb_ge i 8)) by lia. cbn.
    rewrite Z.shiftr_spec by lia. f_equal; [|f_equal; lia].
    apply eq_bool_prop_intro. rewrite !Is_true_true, !Z.ltb_lt. lia.
Qed.

Lemma le_split_combine l : le_split (length l) (le_combine l) = l.
Proof.
  induction l as [|b l IH]; [done|]. cbn [le_combine le_split length].
  pose proof (ub_range b). rewrite lor_shiftl_add by lia.
  f_equal.
  - apply ub_inj. rewrite ub_bz. change (2 ^ 8) with 256.
    rewrite Z_mod_plus_full. by apply Z.mod_small.
  - rewrite Z.shiftr_div_pow2, Z.div_add, Z.div_small by lia. apply IH.
Qed.

Lemma le_combine_split_small n v :
  0 <= v < 2 ^ (8 * Z.of_nat n) -> le_combine (le_split n v) = v.
Proof. intros. rewrite le_combine_split. by apply Z.mod_small. Qed.

(** ** Lengths as integers *)

Lemma blen_nonneg {A} (l : list A) : 0 <= blen l.
Proof. unfold blen. lia. Qed.

Lemma blen_nil {A} : blen (@nil A) = 0.
Proof. done. Qed.

Lemma blen_cons {A} (x : A) l : blen (x :: l) = 1 + blen l.
Proof. unfold blen. simpl. lia. Qed.

Lemma blen_app {A} (l k : list A) : blen (l ++ k) = blen l + blen k.
Proof. unfold blen. rewrite length_app. lia. Qed.

Lemma blen_take {A} n (l : list A) : blen (take n l) = Z.min (Z.of_nat n) (blen l).
Proof. unfold blen. rewrite length_take. lia. Qed.

Lemma blen_drop {A} n (l : list A) : blen (drop n l) = Z.max 0 (blen l - Z.of_nat n).
Proof. unfold blen. rewrite length_drop. lia. Qed.

Lemma blen_le_split n v : blen (le_split n v) = Z.of_nat n.
Proof. unfold blen. by rewrite length_le_split. Qed.

Lemma blen_replicate {A} n (x : A) : blen (replicate n x) = Z.of_nat n.
Proof. unfold blen. by rewrite length_replicate. Qed.

Lemma le_combine_app l k :
  le_combine (l ++ k) = Z.lor (le_combine l) (Z.shiftl (le_combine k) (8 * blen l)).
Proof.
  induction l as [|b l IH]; cbn [app le_combine].
  { by rewrite Z.shiftl_0_r. }
  rewrite IH, blen_cons, Z.shiftl_lor, Z.shiftl_shiftl, Z.lor_assoc
    by (pose proof (blen_nonneg l); lia).
  do 2 f_equal. lia.
Qed.

Lemma forallb_ext_elem {A} (f g : A -> bool) l :
  (forall x, x ∈ l -> f x = g x) -> forallb f l = forallb g l.
Proof.
  induction l as [|x l IH]; intros H; [done|]. cbn [forallb].
  rewrite H by left. f_equal. apply IH. intros. apply H. by right.
Qed.

Lemma filter_none {A} (P : A -> Prop) `{forall x, Decision (P x)} l :
  Forall (fun x => ~ P x) l -> filter P l = [].
Proof. induction 1; [done|]. by rewrite filter_cons, decide_False. Qed.

Lemma filter_all {A} (P : A -> Prop) `{forall x, Decision (P x)} l : Forall P l -> filter P l = l.
Proof. induction 1; [done|]. by rewrite filter_cons, decide_True by done; f_equal. Qed.

Lemma filter_swap {A} (P Q : A -> Prop) `{forall x, Decision (P x)} `{forall x, Decision (Q x)} (l : list A) :
  filter P (filter Q l) = filter Q (filter P l).
Proof.
  induction l as [|x l IH]; [done|]. rewrite !filter_cons.
  destruct (decide (P x)), (decide (Q x)); rewrite ?filter_cons; repeat case_decide; congruence.
Qed.

Lemma filter_ext_elem {A} (P Q : A -> Prop) `{forall x, Decision (P x)} `{forall x, Decision (Q x)} (l : list A) :
  (forall x, x ∈ l -> P x <-> Q x) -> filter P l = filter Q l.
Proof.
  induction l as [|x l IH]; intros HPQ; [done|]. rewrite !filter_cons, IH by (intros; apply HPQ; by right).
  apply decide_ext, HPQ. by left.
Qed.

(** A filter that is downward closed along a sorted list takes a prefix. *)
Lemma filter_sorted_split {A} (R : A -> A -> Prop) (P : A -> Prop) `{forall x, Decision (P x)} l :
  StronglySorted R l -> (forall x y, x ∈ l -> y ∈ l -> R x y -> P y -> P x) ->
  l = filter P l ++ filter (fun x => ~ P x) l.
Proof.
  induction 1 as [|x l Hs IH Hx]; intros HP; [done|]. rewrite !filter_cons.
  assert (l = filter P l ++ filter (fun x => ~ P x) l) as Hl.
  { apply IH. intros a b Ha Hb. apply HP; by right. }
  destruct (decide (P x)) as [Px|Px].
  - rewrite decide_False by tauto. cbn [app]. by rewrite <- Hl.
  - rewrite decide_True by done. rewrite (filter_none P) by
      (rewrite Forall_forall in *; intros y Hy Py; apply Px; eapply (HP x y); [left|by right|by apply Hx|done]).
    rewrite filter_all; [done|]. rewrite Forall_forall in *.
    intros y Hy Py. apply Px. eapply (HP x y); [left|by right|by apply Hx|done].
Qed.

(** [len] proves linear facts about list lengths, in [nat] or through [blen]. *)
Create HintDb len discriminated.
#[export] Hint Rewrite @length_nil @length_cons @length_app @length_take @length_drop
  @length_replicate @length_rev @length_fmap @length_insert length_le_split : len.

Ltac len := unfold blen in *; autorewrite with len in *; lia.

Lemma StronglySorted_lookup {A} (R : A -> A -> Prop) l :
  (forall i j a b, (i < j)%nat -> l !! i = Some a -> l !! j = Some b -> R a b) -> StronglySorted R l.
Proof.
  induction l as [|x l IH]; intros Hl; [constructor|]. constructor.
  - apply IH. intros i j a b Hij Ha Hb. apply (Hl (S i) (S j)); [lia|done|done].
  - apply Forall_lookup. intros j b Hb. by apply (Hl 0%nat (S j)); [lia|..].
Qed.

(** Distinct keys of a map are no more than its size. *)
Lemma length_le_size `{Countable K} {A} (m : gmap K A) (l : list K) :
  NoDup l -> (forall x, x ∈ l -> is_Some (m !! x)) -> (length l <= size m)%nat.
Proof.
  intros Hnd Hl. rewrite <- (size_list_to_set (C := gset K) l Hnd), <- (size_dom (D := gset K) m).
  apply subseteq_size. intros x Hx%elem_of_list_to_set. by apply elem_of_dom, Hl.
Qed.
