(* ===== verification/Random.v ===== *)
(** The pseudo-random generator of [util/random.h]: a multiplicative
    congruential generator whose reduction modulo [2^31 - 1] is done with
    shifts.  Proved: the reduction is the modulus, and the generator has full
    period. *)

From Stdlib Require Import Znumtheory Zpow_facts.
From S2P Require Import Prelude.

(** * The code *)

(** The state is [seed_]. *)
Definition Random_new (s : Z) : Z := Z.land s 0x7fffffff.

Definition random_M : Z := 2147483647.
Definition random_A : Z := 16807.

Definition Random_Next (seed_ : Z) : Z :=
  let product := u64 (seed_ * random_A) in
  let seed_ := u32 (u64 (Z.shiftr product 31 + Z.land product random_M)) in
  if random_M <? seed_ then u32 (seed_ - random_M) else seed_.

(** The methods return the value drawn and leave the new seed; [n] is an
    [int] that the comparison with a [uint32_t] converts. *)
Definition Random_Uniform (n seed_ : Z) : Z * Z :=
  let seed_ := Random_Next seed_ in (seed_ mod u32 n, seed_).

Definition Random_OneIn (n seed_ : Z) : bool * Z :=
  let seed_ := Random_Next seed_ in (seed_ mod u32 n =? 0, seed_).

Definition Random_Skewed (max_log seed_ : Z) : Z * Z :=
  let '(base, seed_) := Random_Uniform (max_log + 1) seed_ in
  Random_Uniform (Z.shiftl 1 base) seed_.

(** * The reduction is the modulus *)

Lemma Random_Next_mod s : 0 < s < random_M -> Random_Next s = (s * random_A) mod random_M.
Proof.
  unfold Random_Next, random_M, random_A, u64, u32. intros Hs.
  rewrite (Z.mod_small (s * 16807)) by lia. set (p := s * 16807).
  assert (Hland : Z.land p 2147483647 = p mod 2147483648) by apply (land_ones_mod p 31 ltac:(lia)).
  rewrite Hland, Z.shiftr_div_pow2 by lia. change (2 ^ 31) with 2147483648.
  pose proof (Z.div_mod p 2147483648 ltac:(lia)) as Hdm.
  pose proof (Z.mod_pos_bound p 2147483648 ltac:(lia)).
  set (q := p / 2147483648) in *. set (r := p mod 2147483648) in *.
  assert (0 <= q < 16807) by (unfold p in Hdm; lia).
  rewrite (Z.mod_small (q + r)), (Z.mod_small (q + r)) by lia.
  destruct (Z.ltb_spec 2147483647 (q + r)).
  - rewrite Z.mod_small by lia. apply (Z.mod_unique_pos _ _ (q + 1)); lia.
  - assert (q + r <> 2147483647).
    { intros Hqr. (* then [M] divides [s * A] *)
      assert (Hd : (2147483647 | 16807 * s)) by (exists (q + 1); fold p; lia).
      apply Gauss in Hd; [|apply Zgcd_1_rel_prime; reflexivity].
      apply Z.divide_pos_le in Hd; lia. }
    apply (Z.mod_unique_pos _ _ q); lia.
Qed.

(** * Full period *)

(** Any [k] with [A^k = 1] modulo [M] is a multiple of the order of [A]; such
    exponents are closed under remainders, hence under [gcd]. *)
Definition period (e : Z) : Prop := random_A ^ e mod random_M = 1.

Lemma period_mod e f : 0 < e -> 0 <= f -> period e -> period f -> period (f mod e).
Proof.
  unfold period. intros He Hf Pe Pf. pose proof (Z.mod_pos_bound f e He).
  rewrite (Z.div_mod f e), Z.pow_add_r, Z.pow_mul_r in Pf
    by (try apply Z.mul_nonneg_nonneg; try apply Z.div_pos; lia).
  rewrite Zmult_mod, Zpower_mod, Pe, Z.pow_1_l in Pf by (try apply Z.div_pos; done || lia).
  by rewrite Z.mul_1_l, Zmod_mod in Pf.
Qed.

Lemma period_gcd e f : 0 <= e -> 0 <= f -> period e -> period f -> period (Z.gcd e f).
Proof.
  intros He. revert f. pattern e. apply Z_lt_induction; [|done]. clear e He.
  intros e IH f Hf Pe Pf. destruct (decide (e <= 0)) as [Hle|Hgt].
  - destruct (decide (e = 0)) as [->|].
    + by rewrite Z.gcd_0_l, Z.abs_eq.
    + unfold period in Pe. by rewrite Z.pow_neg_r in Pe by lia.
  - rewrite <- Z.gcd_mod, Z.gcd_comm by lia. rewrite Z.gcd_comm.
    apply IH; [apply Z.mod_pos_bound; lia|lia| |done]. by apply period_mod; try lia.
Qed.

Definition is_prime (p : Z) : bool := (1 <? p) && forallb (fun n => Z.gcd n p =? 1) (seqZ 1 (p - 1)).

Lemma is_prime_spec p : is_prime p = true -> prime p.
Proof.
  unfold is_prime. rewrite andb_true_iff, forallb_forall, Z.ltb_lt. intros [Hp H].
  apply prime_intro; [done|]. intros n Hn. apply Zgcd_1_rel_prime.
  apply Z.eqb_eq, H. apply list_elem_of_In, elem_of_seqZ. lia.
Qed.

(** The prime factors of [M - 1 = 2 * 3 * 3 * 7 * 11 * 31 * 151 * 331]. *)
Definition period_factors : list Z := [2; 3; 3; 7; 11; 31; 151; 331].

Lemma rel_prime_factors q l :
  forallb is_prime l = true -> (forall p, p ∈ l -> ~ (p | q)) -> rel_prime q (fold_right Z.mul 1 l).
Proof.
  induction l as [|p l IH]; cbn [forallb fold_right].
  { intros _ _. apply rel_prime_sym, rel_prime_1. }
  rewrite andb_true_iff. intros [Hp Hl] Hq. apply rel_prime_mult.
  - apply rel_prime_sym, prime_rel_prime; [by apply is_prime_spec|]. apply Hq. by left.
  - apply IH; [done|]. intros x Hx. apply Hq. by right.
Qed.

#[local] Instance divide_decision a b : Decision (a | b) := Zdivide_dec a b.

(** No proper exponent below [M - 1] is a period. *)
Lemma period_minimal e : 0 < e < random_M - 1 -> ~ period e.
Proof.
  intros He Pe. remember (random_M - 1) as N eqn:EN.
  assert (HN : period N) by (subst N; unfold period; rewrite <- Zpow_mod_correct by done; by vm_compute).
  pose proof (period_gcd e N ltac:(lia) ltac:(lia) Pe HN) as Pg. set (g := Z.gcd e N) in *.
  assert (Hg0 : 0 < g) by (pose proof (Z.gcd_nonneg e N); assert (g <> 0) by (intros []%Z.gcd_eq_0; lia); lia).
  assert (Hge : g <= e) by (apply Z.divide_pos_le; [lia|apply Z.gcd_divide_l]).
  destruct (Z.gcd_divide_r e N) as [q Hq]. fold g in Hq.
  destruct (decide (Exists (fun p => (p | q)) period_factors)) as [Hex|Hno].
  - apply Exists_exists in Hex as (p & Hp & k & Hk).
    assert (period (N / p)) as Pp.
    { assert (0 < p).
      { assert (Forall (fun p => 0 < p) period_factors) as HF by (repeat constructor).
        rewrite Forall_forall in HF. by apply HF. }
      assert (N / p = k * g) as -> by (rewrite Hq, Hk; rewrite <- (Z.div_mul (k * g) p) by lia; f_equal; lia).
      assert (0 <= k) by (clear - Hg0 Hq Hk H He; nia).
      unfold period in *. rewrite Z.mul_comm, Z.pow_mul_r by lia. rewrite Zpower_mod by done.
      rewrite Pg, Z.pow_1_l by lia. reflexivity. }
    revert Pp. unfold period. rewrite <- Zpow_mod_correct by done.
    assert (Forall (fun p => Zpow_mod random_A (N / p) random_M <> 1) period_factors) as HF.
    { subst N. repeat constructor; by vm_compute. }
    rewrite Forall_forall in HF. by apply HF.
  - assert (rel_prime q N) as Hrel.
    { subst N. change (random_M - 1) with (fold_right Z.mul 1 period_factors). apply rel_prime_factors; [by vm_compute|].
      intros p Hp Hpq. apply Hno, Exists_exists. exists p. split; [exact Hp|exact Hpq]. }
    assert (Hq1 : (q | 1)).
    { apply (Gauss q N 1); [|done]. exists g. lia. }
    apply Z.divide_1_r_nonneg in Hq1; nia.
Qed.

Lemma Random_seed_coprime s : 0 < s < random_M -> 0 < (s * random_A) mod random_M < random_M.
Proof.
  intros Hs. pose proof (Z.mod_pos_bound (s * random_A) random_M ltac:(done)).
  assert ((s * random_A) mod random_M <> 0); [|lia]. intros Hd%Z.mod_divide; [|done].
  rewrite Z.mul_comm in Hd. apply Gauss in Hd; [|apply Zgcd_1_rel_prime; reflexivity].
  apply Z.divide_pos_le in Hd; lia.
Qed.

Lemma Random_iter k s : 0 < s < random_M ->
  Nat.iter k Random_Next s = (s * random_A ^ Z.of_nat k) mod random_M /\
  0 < Nat.iter k Random_Next s < random_M.
Proof.
  intros Hs. induction k as [|k [IH Hr]].
  - cbn [Nat.iter nat_rect]. rewrite Z.pow_0_r, Z.mul_1_r, Z.mod_small by lia. auto.
  - change (Nat.iter (S k) Random_Next s) with (Random_Next (Nat.iter k Random_Next s)).
    rewrite Random_Next_mod by done. split; [|by apply Random_seed_coprime].
    rewrite IH, Zmult_mod_idemp_l. f_equal. rewrite Nat2Z.inj_succ, Z.pow_succ_r by lia. lia.
Qed.

Lemma Random_iter_coprime k s : 0 < s < random_M -> rel_prime random_M s ->
  rel_prime random_M (Nat.iter k Random_Next s).
Proof.
  intros Hs Hrel. destruct (Random_iter k s Hs) as [-> _].
  apply rel_prime_sym, rel_prime_mod; [done|]. apply rel_prime_sym, rel_prime_mult, rel_prime_Zpower_r; [done| |].
  - lia.
  - apply Zgcd_1_rel_prime; reflexivity.
Qed.

(** Two equal states of one run are a period apart. *)
Lemma Random_iter_inj s i j : 0 < s < random_M -> rel_prime random_M s ->
  Z.of_nat j < random_M - 1 -> (i < j)%nat -> Nat.iter i Random_Next s <> Nat.iter j Random_Next s.
Proof.
  intros Hs Hrel Hj Hij Heq. destruct (Random_iter i s Hs) as [Hi Hri].
  replace j with ((j - i) + i)%nat in Heq by lia. rewrite Nat.iter_add in Heq.
  destruct (Random_iter (j - i) _ Hri) as [Hk _]. rewrite <- Heq in Hk.
  pose proof (Random_iter_coprime i s Hs Hrel) as Ht.
  set (t := Nat.iter i Random_Next s) in *. set (e := Z.of_nat (j - i)) in *.
  apply (period_minimal e); [unfold e; lia|]. unfold period.
  assert (Hd : (random_M | t * (random_A ^ e - 1))).
  { apply Z.mod_divide; [done|]. rewrite Z.mul_sub_distr_l, Z.mul_1_r, Zminus_mod, <- Hk.
    rewrite (Z.mod_small t) by lia. by rewrite Z.sub_diag. }
  apply Gauss in Hd; [|done]. destruct Hd as [c Hc].
  replace (random_A ^ e) with (1 + c * random_M) by lia. by rewrite Z_mod_plus_full.
Qed.

(** An injective map from [n] indices into [1 .. n] reaches all of it. *)
Lemma pigeonhole n (f : nat -> Z) y :
  (forall k, (k < n)%nat -> 1 <= f k <= Z.of_nat n) ->
  (forall i j, (i < j)%nat -> (j < n)%nat -> f i <> f j) ->
  1 <= y <= Z.of_nat n -> exists k, (k < n)%nat /\ f k = y.
Proof.
  intros Hr Hinj Hy.
  assert (Hin : List.In y (map f (seq 0 n))).
  { apply (NoDup_length_incl (l := map f (seq 0 n)) (l' := seqZ 1 (Z.of_nat n))).
    - apply NoDup_ListNoDup. apply NoDup_fmap_2_strong; [|apply NoDup_seq].
      intros i j Hi%elem_of_seq Hj%elem_of_seq Hf. destruct (lt_eq_lt_dec i j) as [[|]|]; [|done|].
      + exfalso. eapply (Hinj i j); [lia|lia|done].
      + exfalso. eapply (Hinj j i); [lia|lia|done].
    - rewrite length_seqZ, length_map, length_seq. lia.
    - intros x (k & <- & Hk)%in_map_iff. apply in_seq in Hk.
      apply list_elem_of_In, elem_of_seqZ. specialize (Hr k ltac:(lia)). lia.
    - apply list_elem_of_In, elem_of_seqZ. lia. }
  apply in_map_iff in Hin as (k & Hk & Hin). apply in_seq in Hin. exists k. split; [lia|done].
Qed.

Lemma Random_cycle_coprime s y : 0 < s < random_M -> rel_prime random_M s -> 0 < y < random_M ->
  exists k, Z.of_nat k < random_M - 1 /\ Nat.iter k Random_Next s = y.
Proof.
  intros Hs Hrel Hy. assert (HM : 0 < random_M) by done.
  destruct (pigeonhole (Z.to_nat (random_M - 1)) (fun k => Nat.iter k Random_Next s) y) as (k & Hk & Heq).
  - intros k Hk. destruct (Random_iter k s Hs). lia.
  - intros i j Hij Hj. apply Random_iter_inj; [done|done|lia|done].
  - lia.
  - exists k. split; [lia|done].
Qed.

(** Every number below [M] is a power of [A], so all are coprime to [M]. *)
Lemma random_M_coprime s : 0 < s < random_M -> rel_prime random_M s.
Proof.
  intros Hs. destruct (Random_cycle_coprime 1 s) as (k & _ & <-); [done| |done|].
  - apply rel_prime_sym, rel_prime_1.
  - apply Random_iter_coprime; [done|]. apply rel_prime_sym, rel_prime_1.
Qed.

(** The generator does what its comment says.  For a seed in [1, M - 1],
    [Next] is multiplication by [A] modulo [M = 2^31 - 1] although it never
    divides, its values stay in [1, M - 1], and the run cycles through every
    number in that range within [M - 1] steps. *)
Theorem Random_full_period (s y : Z) :
  0 < s < random_M -> 0 < y < random_M ->
  Random_Next s = (s * random_A) mod random_M /\ 0 < Random_Next s < random_M /\
  exists k, Z.of_nat k < random_M - 1 /\ Nat.iter k Random_Next s = y.
Proof.
  intros Hs Hy. split; [by apply Random_Next_mod|]. split.
  - destruct (Random_iter 1 s Hs) as [_ H]. exact H.
  - apply Random_cycle_coprime; [done|by apply random_M_coprime|done].
Qed.

Lemma Random_full_period_witness :
  Random_Next (Random_new 0xdeadbeef) = (Random_new 0xdeadbeef * random_A) mod random_M /\
  exists k, Nat.iter k Random_Next (Random_new 0xdeadbeef) = 1.
Proof.
  destruct (Random_full_period (Random_new 0xdeadbeef) 1) as (H1 & _ & k & _ & Hk); [by vm_compute|done|].
  split; [exact H1|]. exists k. exact Hk.
Defined.

(** Seeds that the constructor does not exclude: the generator is stuck. *)
Example Random_stuck : Random_Next (Random_new 0) = 0 /\ Random_Next (Random_new random_M) = random_M.
Proof. split; reflexivity. Qed.
