(* ===== verification/Arena.v ===== *)
(** The bump allocator of [util/arena.h] and [util/arena.cpp], over any
    [operator new] that returns fresh, aligned storage.

    [NodeArena] is what the skip list asks of an allocator; the arena keeps
    that promise. *)

From S2P Require Import Prelude.

(** * The heap *)

(** [new char[n]] on a heap state [H].  Addresses are not bounded above:
    exhaustion throws and is not modelled. *)
Class OperatorNew (H : Type) := { new_array : Z -> H -> Z * H }.

(** [allocated h x]: the byte at address [x] belongs to a live allocation. *)
Class OperatorNewOk (H : Type) `{!OperatorNew H} (allocated : H -> Z -> Prop) : Prop := {
  new_array_ok n h p h' : 0 <= n -> new_array n h = (p, h') ->
    0 < p /\ p mod 16 = 0 /\
    (forall x, p <= x < p + n -> ~ allocated h x) /\
    (forall x, allocated h x -> allocated h' x) /\ (forall x, p <= x < p + n -> allocated h' x);
}.

(** A heap that only grows: [h] units of 16 bytes are taken. *)
Definition BumpHeap := nat.

#[export] Instance BumpHeap_new : OperatorNew BumpHeap :=
  {| new_array n h := (16 * (Z.of_nat h + 1), (h + Z.to_nat ((n + 15) / 16))%nat) |}.

Definition bump_allocated (h : BumpHeap) (x : Z) : Prop :=
  exists n i, 0 <= i < 16 /\ x = 16 * (Z.of_nat n + 1) + i /\ (n < h)%nat.

(** * The arena *)

(** What the clients use: aligned storage for nodes and plain storage. *)
Class ArenaOps (A : Type) := {
  Allocate : Z -> A -> Z * A;
  AllocateAligned : Z -> A -> Z * A;
}.

(** [live a] is the invariant of the allocator's state, [used a x] says that
    the byte [x] has been handed out.  Storage is fresh and stays handed out. *)
Class ArenaOk (A : Type) `{!ArenaOps A} (live : A -> Prop) (used : A -> Z -> Prop) : Prop := {
  Allocate_ok n a p a' : live a -> 0 < n < 2 ^ 32 -> Allocate n a = (p, a') ->
    live a' /\ 0 < p /\ (forall x, used a x -> used a' x) /\
    (forall x, p <= x < p + n -> ~ used a x /\ used a' x);
  AllocateAligned_ok n a p a' : live a -> 0 < n < 2 ^ 32 -> AllocateAligned n a = (p, a') ->
    live a' /\ 0 < p /\ p mod 8 = 0 /\ (forall x, used a x -> used a' x) /\
    (forall x, p <= x < p + n -> ~ used a x /\ used a' x);
}.

Record Arena := mkArena {
  alloc_ptr_ : Z;
  alloc_bytes_remaining_ : Z;
  blocks_ : list Z;
  blocks_memory_ : Z;
}.

Definition kBlockSize : Z := 4096.

Definition Arena_new : Arena := mkArena 0 0 [] 0.

(** The arrays the destructor deletes. *)
Definition Arena_destroy (a : Arena) : list Z := blocks_ a.

(** [blocks_.capacity()] is up to the vector; it only depends on how many
    elements were pushed. *)
Definition MemoryUsage (capacity : nat -> Z) (a : Arena) : Z :=
  u64 (blocks_memory_ a + capacity (length (blocks_ a)) * 8).

Section arena.
Context {H : Type} `{!OperatorNew H}.

Definition AllocateNewBlock (block_bytes : Z) (s : Arena * H) : Z * (Arena * H) :=
  let '(a, h) := s in
  let '(result, h) := new_array block_bytes h in
  (result, (mkArena (alloc_ptr_ a) (alloc_bytes_remaining_ a) (blocks_ a ++ [result])
              (u64 (blocks_memory_ a + block_bytes)), h)).

Definition AllocateFallback (bytes : Z) (s : Arena * H) : Z * (Arena * H) :=
  if kBlockSize / 4 <? bytes then AllocateNewBlock bytes s
  else
    let '(ptr, (a, h)) := AllocateNewBlock kBlockSize s in
    (ptr, (mkArena (ptr + bytes) (kBlockSize - bytes) (blocks_ a) (blocks_memory_ a), h)).

Definition Arena_Allocate (bytes : Z) (s : Arena * H) : Z * (Arena * H) :=
  let '(a, h) := s in
  if bytes <=? alloc_bytes_remaining_ a then
    (alloc_ptr_ a, (mkArena (alloc_ptr_ a + bytes) (alloc_bytes_remaining_ a - bytes)
                      (blocks_ a) (blocks_memory_ a), h))
  else AllocateFallback bytes s.

(** [align] is 8 on every platform with pointers of at most 8 bytes. *)
Definition Arena_AllocateAligned (bytes : Z) (s : Arena * H) : Z * (Arena * H) :=
  let '(a, h) := s in
  let align := 8 in
  let current_mod := Z.land (alloc_ptr_ a) (align - 1) in
  let slop := if current_mod =? 0 then 0 else align - current_mod in
  let needed := u64 (bytes + slop) in
  if needed <=? alloc_bytes_remaining_ a then
    (alloc_ptr_ a + slop, (mkArena (alloc_ptr_ a + needed) (alloc_bytes_remaining_ a - needed)
                             (blocks_ a) (blocks_memory_ a), h))
  else AllocateFallback bytes s.

#[export] Instance Arena_ops : ArenaOps (Arena * H) :=
  {| Allocate := Arena_Allocate; AllocateAligned := Arena_AllocateAligned |}.

(** * Storage is fresh, aligned and accounted for *)

Context `{!OperatorNewOk H allocated}.

(** The free tail of the current block. *)
Definition in_tail (a : Arena) (x : Z) : Prop := alloc_ptr_ a <= x < alloc_ptr_ a + alloc_bytes_remaining_ a.

Definition arena_live (s : Arena * H) : Prop :=
  0 <= alloc_ptr_ s.1 /\ 0 <= alloc_bytes_remaining_ s.1 /\
  (0 < alloc_bytes_remaining_ s.1 -> 0 < alloc_ptr_ s.1) /\
  (forall x, in_tail s.1 x -> allocated s.2 x).

Definition arena_used (s : Arena * H) (x : Z) : Prop := allocated s.2 x /\ ~ in_tail s.1 x.

(** One allocation of [n] bytes at [p]: the bytes come out of nowhere or out
    of the tail, and nothing that was used becomes free again. *)
Definition hands_out (s s' : Arena * H) (p n : Z) : Prop :=
  arena_live s' /\ 0 < p /\ (forall x, arena_used s x -> arena_used s' x) /\
  (forall x, p <= x < p + n -> ~ arena_used s x /\ arena_used s' x).

Lemma hands_out_tail s q n m : arena_live s -> 0 < n -> 0 <= q -> q + n <= m -> m <= alloc_bytes_remaining_ s.1 ->
  hands_out s (mkArena (alloc_ptr_ s.1 + m) (alloc_bytes_remaining_ s.1 - m)
                 (blocks_ s.1) (blocks_memory_ s.1), s.2) (alloc_ptr_ s.1 + q) n.
Proof.
  destruct s as [a h]. intros (Hp & Hr & Hpos & Ht) Hn Hq Hm Hb. cbn [fst snd] in *.
  unfold hands_out, arena_live, arena_used, in_tail in *. cbn [fst snd alloc_ptr_ alloc_bytes_remaining_].
  split_and!; try lia.
  - intros x Hx. apply Ht. lia.
  - intros x [Hx Hnt]. split; [done|lia].
  - intros x Hx. split; [intros [_ []]; lia|]. split; [apply Ht; lia|lia].
Qed.

Lemma AllocateFallback_spec n s p s' : arena_live s -> 0 < n -> AllocateFallback n s = (p, s') ->
  hands_out s s' p n /\ p mod 8 = 0.
Proof.
  destruct s as [a h]. intros (Hp & Hr & Hpos & Ht) Hn. cbn [fst snd] in *.
  unfold AllocateFallback, AllocateNewBlock, kBlockSize.
  assert (Hmod : forall q, q mod 16 = 0 -> q mod 8 = 0) by (intros; Z.div_mod_to_equations; lia).
  destruct (Z.ltb_spec (4096 / 4) n) as [Hbig|Hsmall]; change (4096 / 4) with 1024 in *.
  - destruct (new_array n h) as [q h'] eqn:E. intros [= <- <-].
    apply new_array_ok in E as (Hq & Hq16 & Hfresh & Hold & Hall); [|lia].
    split; [|by apply Hmod]. unfold hands_out, arena_live, arena_used, in_tail in *.
    cbn [fst snd alloc_ptr_ alloc_bytes_remaining_] in *. split_and!; try done.
    + intros x Hx. apply Hold. by apply Ht.
    + intros x [Hx Hnt]. split; [by apply Hold|done].
    + intros x Hx. split; [intros [Hx' _]; by eapply Hfresh|].
      split; [by apply Hall|]. intros Hin. eapply Hfresh; [done|]. by apply Ht.
  - destruct (new_array 4096 h) as [q h'] eqn:E. intros [= <- <-].
    apply new_array_ok in E as (Hq & Hq16 & Hfresh & Hold & Hall); [|lia].
    split; [|by apply Hmod]. unfold hands_out, arena_live, arena_used, in_tail in *.
    cbn [fst snd alloc_ptr_ alloc_bytes_remaining_] in *. split_and!; try lia.
    + intros x Hx. apply Hall. lia.
    + intros x [Hx Hnt]. split; [by apply Hold|]. intros Hin. eapply (Hfresh x); [lia|done].
    + intros x Hx. split; [intros [Hx' _]; eapply (Hfresh x); [lia|done]|].
      split; [apply Hall; lia|lia].
Qed.

Lemma Arena_Allocate_spec n s p s' : arena_live s -> 0 < n -> Arena_Allocate n s = (p, s') -> hands_out s s' p n.
Proof.
  intros Hl Hn. pose proof (AllocateFallback_spec n s p s' Hl Hn) as Hf.
  unfold Arena_Allocate. destruct s as [a h].
  destruct (Z.leb_spec n (alloc_bytes_remaining_ a)); [|intros Hs; by apply Hf].
  intros [= <- <-]. pose proof (hands_out_tail (a, h) 0 n n Hl) as Ht. cbn [fst snd] in Ht.
  rewrite Z.add_0_r in Ht. apply Ht; lia.
Qed.

Lemma Arena_AllocateAligned_spec n s p s' : arena_live s -> 0 < n < 2 ^ 32 ->
  Arena_AllocateAligned n s = (p, s') -> hands_out s s' p n /\ p mod 8 = 0.
Proof.
  intros Hl Hn. pose proof (AllocateFallback_spec n s p s' Hl ltac:(lia)) as Hf.
  unfold Arena_AllocateAligned. destruct s as [a h].
  pose proof (land_ones_mod (alloc_ptr_ a) 3 ltac:(lia)) as Hm. change (2 ^ 3) with 8 in Hm. rewrite Hm.
  pose proof (Z.mod_pos_bound (alloc_ptr_ a) 8 ltac:(lia)).
  set (slop := if alloc_ptr_ a mod 8 =? 0 then 0 else 8 - alloc_ptr_ a mod 8).
  assert (0 <= slop < 8 /\ (alloc_ptr_ a + slop) mod 8 = 0) as [Hs Hal].
  { unfold slop. destruct (Z.eqb_spec (alloc_ptr_ a mod 8) 0); [rewrite Z.add_0_r; lia|].
    split; [lia|]. Z.div_mod_to_equations. lia. }
  unfold u64. rewrite Z.mod_small by lia.
  destruct (Z.leb_spec (n + slop) (alloc_bytes_remaining_ a)); [|intros E; by apply Hf].
  intros [= <- <-]. split; [|done].
  pose proof (hands_out_tail (a, h) slop n (n + slop) Hl) as Ht. cbn [fst snd] in Ht. apply Ht; lia.
Qed.

#[export] Instance Arena_ok : ArenaOk (Arena * H) arena_live arena_used.
Proof.
  split; cbn [Allocate AllocateAligned Arena_ops].
  - intros n a p a' Hl Hn (? & ? & ? & ?)%Arena_Allocate_spec; [done|done|lia].
  - intros n a p a' Hl Hn ((? & ? & ? & ?) & ?)%Arena_AllocateAligned_spec; done.
Qed.

(** ** Accounting *)

(** The bytes handed out of blocks, including those lost to alignment. *)
Definition spent (a : Arena) : Z := blocks_memory_ a - alloc_bytes_remaining_ a.

Definition accounted (a : Arena) : Prop := 0 <= alloc_bytes_remaining_ a <= blocks_memory_ a.

Lemma AllocateFallback_spent n s : accounted s.1 -> 0 < n -> blocks_memory_ s.1 + Z.max n kBlockSize < 2 ^ 64 ->
  let s' := (AllocateFallback n s).2 in
  accounted s'.1 /\ spent s.1 + n <= spent s'.1 /\ blocks_memory_ s'.1 <= blocks_memory_ s.1 + Z.max n kBlockSize.
Proof.
  destruct s as [a h]. unfold accounted, spent, AllocateFallback, AllocateNewBlock, kBlockSize, u64. cbn [fst snd].
  intros Ha Hn Hb. change (4096 / 4) with 1024. destruct (Z.ltb_spec 1024 n).
  - destruct (new_array n h) as [q h']. cbn. rewrite Z.mod_small by lia. lia.
  - destruct (new_array 4096 h) as [q h']. cbn. rewrite Z.mod_small by lia. lia.
Qed.

Lemma Allocate_spent (aligned : bool) n s : accounted s.1 -> 0 < n < 2 ^ 32 ->
  blocks_memory_ s.1 + Z.max n kBlockSize < 2 ^ 64 ->
  let s' := (if aligned then AllocateAligned n s else Allocate n s).2 in
  accounted s'.1 /\ spent s.1 + n <= spent s'.1 /\ blocks_memory_ s'.1 <= blocks_memory_ s.1 + Z.max n kBlockSize.
Proof.
  intros Ha Hn Hb. pose proof (AllocateFallback_spent n s Ha ltac:(lia) Hb) as Hf. destruct s as [a h].
  cbn [fst snd] in *. unfold accounted, spent, kBlockSize in *.
  destruct aligned; cbn [Allocate AllocateAligned Arena_ops].
  - unfold Arena_AllocateAligned.
    pose proof (land_range_r 3 (alloc_ptr_ a) (8 - 1) ltac:(lia) ltac:(lia)).
    set (m := Z.land (alloc_ptr_ a) (8 - 1)) in *. set (slop := if m =? 0 then 0 else 8 - m).
    assert (0 <= slop <= 8) by (unfold slop; destruct (m =? 0); lia).
    unfold u64. rewrite (Z.mod_small (n + slop)) by lia.
    destruct (Z.leb_spec (n + slop) (alloc_bytes_remaining_ a)); [cbn; lia|exact Hf].
  - unfold Arena_Allocate. destruct (Z.leb_spec n (alloc_bytes_remaining_ a)); [cbn; lia|exact Hf].
Qed.

(** ** Runs *)

(** A sequence of calls ([true] for [AllocateAligned]) with the addresses it
    returns. *)
Fixpoint allocations (calls : list (bool * Z)) (s : Arena * H) : list (bool * Z * Z) * (Arena * H) :=
  match calls with
  | [] => ([], s)
  | (aligned, n) :: calls =>
    let '(p, s) := if aligned : bool then AllocateAligned n s else Allocate n s in
    let '(regions, s) := allocations calls s in
    ((aligned, p, n) :: regions, s)
  end.

Definition disjoint_regions (r r' : bool * Z * Z) : Prop :=
  forall x, ~ (r.1.2 <= x < r.1.2 + r.2 /\ r'.1.2 <= x < r'.1.2 + r'.2).

Definition requested (calls : list (bool * Z)) : Z := fold_right (fun c t => c.2 + t) 0 calls.

Lemma allocations_fresh calls s : arena_live s -> Forall (fun c => 0 < c.2 < 2 ^ 32) calls ->
  let '(regions, s') := allocations calls s in
  ForallOrdPairs disjoint_regions regions /\
  Forall (fun r => (r.1.1 = true -> r.1.2 mod 8 = 0) /\
                   forall x, r.1.2 <= x < r.1.2 + r.2 -> ~ arena_used s x /\ allocated s'.2 x) regions /\
  (forall x, arena_used s x -> arena_used s' x).
Proof.
  revert s. induction calls as [|[al n] calls IH]; intros s Hl Hc; cbn [allocations].
  { split_and!; [constructor|constructor|done]. }
  apply Forall_cons in Hc as [Hn Hc]. cbn [snd] in Hn.
  destruct (if al then AllocateAligned n s else Allocate n s) as [p s1] eqn:E.
  assert (hands_out s s1 p n /\ (al = true -> p mod 8 = 0)) as [(Hl1 & Hp & Hold & Hnew) Hal].
  { destruct al; cbn [Allocate AllocateAligned Arena_ops] in E.
    - apply Arena_AllocateAligned_spec in E as [??]; auto.
    - apply Arena_Allocate_spec in E; [by split|done|lia]. }
  specialize (IH s1 Hl1 Hc). destruct (allocations calls s1) as [regions s2].
  destruct IH as (Hd & Hf & Hu). split_and!.
  - constructor; [|done]. eapply Forall_impl; [exact Hf|]. intros r [_ Hr] x [Hx1 Hx2]. cbn [fst snd] in *.
    eapply Hr; [exact Hx2|]. by apply Hnew.
  - constructor; cbn [fst snd].
    + split; [done|]. intros x Hx. split; [by apply Hnew|]. apply Hu. by apply Hnew.
    + eapply Forall_impl; [exact Hf|]. intros r [Ha Hr]. split; [done|]. intros x Hx.
      destruct (Hr x Hx) as [Hx1 Hx2]. split; [|done]. intros Hx3. by apply Hx1, Hold.
  - intros x Hx. by apply Hu, Hold.
Qed.

Lemma allocations_spent calls s : accounted s.1 -> Forall (fun c => 0 < c.2 < 2 ^ 32) calls ->
  blocks_memory_ s.1 + requested calls + kBlockSize * blen calls < 2 ^ 64 ->
  let s' := (allocations calls s).2 in
  accounted s'.1 /\ spent s.1 + requested calls <= spent s'.1 /\
  blocks_memory_ s'.1 <= blocks_memory_ s.1 + requested calls + kBlockSize * blen calls.
Proof.
  revert s. induction calls as [|[al n] calls IH]; intros s Ha Hc Hb; cbn [allocations requested fold_right] in *.
  { unfold blen. cbn. auto with lia. }
  apply Forall_cons in Hc as [Hn Hc]. cbn [fst snd] in *. rewrite blen_cons in *.
  pose proof (blen_nonneg calls). unfold kBlockSize in *.
  assert (0 <= requested calls).
  { clear - Hc. induction Hc; cbn [requested fold_right]; unfold requested in *; lia. }
  fold (requested calls) in *.
  pose proof (Allocate_spent al n s Ha Hn ltac:(unfold kBlockSize; lia)) as Hs. unfold kBlockSize in Hs.
  destruct (if al then AllocateAligned n s else Allocate n s) as [p s1]. cbn [fst snd] in Hs.
  destruct Hs as (Ha1 & Hs1 & Hb1). specialize (IH s1 Ha1 Hc ltac:(lia)).
  destruct (allocations calls s1) as [regions s2]. cbn [fst snd] in *. destruct IH as (? & ? & ?). split; [done|]. unfold spent in *. lia.
Qed.

(** C30: the arena hands out storage that belongs to the caller alone.  After
    any sequence of [Allocate] and [AllocateAligned] calls on a fresh arena,
    over any conforming [operator new], the regions returned are pairwise
    disjoint, lie in live allocations, are aligned where asked, and take no
    byte that was live before; and as long as the sizes stay below 2^64,
    [MemoryUsage] accounts for every byte requested. *)
Theorem Arena_regions (capacity : nat -> Z) (h : H) (calls : list (bool * Z)) :
  Forall (fun c => 0 < c.2 < 2 ^ 32) calls ->
  let '(regions, (a, h')) := allocations calls (Arena_new, h) in
  ForallOrdPairs disjoint_regions regions /\
  Forall (fun r => (r.1.1 = true -> r.1.2 mod 8 = 0) /\
    forall x, r.1.2 <= x < r.1.2 + r.2 -> ~ allocated h x /\ allocated h' x) regions /\
  (requested calls + kBlockSize * blen calls + 8 * capacity (length (blocks_ a)) < 2 ^ 64 ->
   0 <= capacity (length (blocks_ a)) -> requested calls <= MemoryUsage capacity a).
Proof.
  intros Hc. pose proof (allocations_fresh calls (Arena_new, h)) as Hf.
  pose proof (allocations_spent calls (Arena_new, h)) as Hs.
  destruct (allocations calls (Arena_new, h)) as [regions [a h']]. cbn [fst snd] in *.
  destruct Hf as (Hd & Hr & _).
  { unfold arena_live, in_tail. cbn. split_and!; try lia. }
  { done. }
  split_and!; [done| |].
  - eapply Forall_impl; [exact Hr|]. intros r [Ha Hx]. split; [done|]. intros x Hin.
    destruct (Hx x Hin) as [Hx1 Hx2]. split; [|done]. intros Hx3. apply Hx1. split; [done|].
    unfold in_tail. cbn. lia.
  - intros Hb Hcap. destruct Hs as ((Hs1 & Hs2) & Hs3 & Hs4); [unfold accounted; cbn; lia|done|cbn; lia|].
    unfold spent, MemoryUsage, u64 in *. cbn [blocks_memory_ alloc_bytes_remaining_ Arena_new] in *.
    rewrite Z.mod_small; lia.
Qed.

End arena.

#[export] Instance BumpHeap_ok : OperatorNewOk BumpHeap bump_allocated.
Proof.
  split. intros n h p h' Hn [= <- <-]. unfold bump_allocated. split_and!.
  - lia.
  - rewrite Z.mul_comm. by apply Z_mod_mult.
  - intros x Hx (m & i & Hi & -> & Hm). lia.
  - intros x (m & i & Hi & -> & Hm). exists m, i. split_and!; [lia|lia|done|lia].
  - intros x Hx. exists (Z.to_nat (x / 16 - 1)), (x mod 16).
    assert (Z.of_nat h + 1 <= x / 16) by (apply Z.div_le_lower_bound; lia).
    assert (x / 16 <= Z.of_nat h + (n + 15) / 16).
    { assert (n <= 16 * ((n + 15) / 16)) by (Z.div_mod_to_equations; lia).
      enough (x / 16 < Z.of_nat h + (n + 15) / 16 + 1) by lia. apply Z.div_lt_upper_bound; lia. }
    split; [apply Z.mod_pos_bound; lia|]. split; [|lia].
    rewrite Z2Nat.id by lia. pose proof (Z.div_mod x 16). lia.
Qed.

Lemma Arena_regions_witness :
  let '(regions, (a, h')) := allocations [(false, 3); (true, 24); (true, 4000); (false, 5)] (Arena_new, 7%nat : BumpHeap) in
  ForallOrdPairs disjoint_regions regions /\ 4032 <= MemoryUsage (fun n => Z.of_nat n) a.
Proof.
  pose proof (Arena_regions Z.of_nat (7%nat : BumpHeap) [(false, 3); (true, 24); (true, 4000); (false, 5)]
    ltac:(repeat constructor)) as H.
  vm_compute allocations in *. destruct H as (H1 & _ & H3). split; [exact H1|apply H3; done].
Defined.
