(* ===== verification/SkipList.v ===== *)
(** The skip list of [db/skiplist.h].

    Nodes live at the addresses the arena returned; a node's tower holds one
    link per level, [nullptr] is 0, and a link that has not been stored yet is
    [None].  Every memory access that the code could not make (a bad pointer,
    a level above the tower, an uninitialized link) makes the model return
    [None], so the theorems also show that no such access happens.

    Two results: sequentially the list refines a sorted set of keys; and under
    every interleaving of one inserting thread with a reader, the reader never
    makes a bad access and its answer is the right one for the keys in the
    list at the moment of its last load. *)

From Stdlib Require Import Sorted.
From S2P Require Import Prelude Random Arena.

(** * The code *)

Definition kMaxHeight : nat := 12.
Definition kBranching : Z := 4.

(** [sizeof(Node)] for the 8-byte keys the template is instantiated with. *)
Definition sizeof_Node : Z := 16.
Definition sizeof_atomic_ptr : Z := 8.

Record Node (Key : Type) := mkNode { node_key : Key; next_ : list (option Z) }.
#[global] Arguments mkNode {Key}.
#[global] Arguments node_key {Key}.
#[global] Arguments next_ {Key}.

Record SkipList (Key A : Type) := mkSkipList {
  arena_ : A;
  nodes : gmap Z (Node Key);
  head_ : Z;
  max_height_ : nat;
  rnd_ : Z;
}.
#[global] Arguments mkSkipList {Key A}.
#[global] Arguments arena_ {Key A}.
#[global] Arguments nodes {Key A}.
#[global] Arguments head_ {Key A}.
#[global] Arguments max_height_ {Key A}.
#[global] Arguments rnd_ {Key A}.

(** [while (height < kMaxHeight && (rnd_.Next() % kBranching) == 0) height++]
    with [fuel = kMaxHeight - height]. *)
Fixpoint RandomHeight_loop (fuel : nat) (height : nat) (rnd : Z) : nat * Z :=
  match fuel with
  | O => (height, rnd)
  | S fuel =>
    let rnd := Random_Next rnd in
    if rnd mod kBranching =? 0 then RandomHeight_loop fuel (S height) rnd else (height, rnd)
  end.

Definition RandomHeight (rnd : Z) : nat * Z := RandomHeight_loop (kMaxHeight - 1) 1 rnd.

Section skiplist.
Context {Key A : Type} `{!ArenaOps A} (compare_ : Key -> Key -> Z).
Implicit Types (s : SkipList Key A) (key : Key).

Definition set_nodes s (m : gmap Z (Node Key)) : SkipList Key A :=
  mkSkipList (arena_ s) m (head_ s) (max_height_ s) (rnd_ s).

(** [Node::Next] and [Node::NoBarrier_Next]. *)
Definition Node_Next s (x : Z) (n : nat) : option Z :=
  node ← nodes s !! x; mjoin (next_ node !! n).

(** [Node::SetNext] and [Node::NoBarrier_SetNext]. *)
Definition Node_SetNext s (x : Z) (n : nat) (v : Z) : option (SkipList Key A) :=
  node ← nodes s !! x;
  if decide (n < length (next_ node))%nat
  then Some (set_nodes s (<[x := mkNode (node_key node) (<[n := Some v]> (next_ node))]> (nodes s)))
  else None.

Definition NewNode s key (height : nat) : Z * SkipList Key A :=
  let '(x, a) := AllocateAligned (sizeof_Node + sizeof_atomic_ptr * (Z.of_nat height - 1)) (arena_ s) in
  (x, mkSkipList a (<[x := mkNode key (replicate height None)]> (nodes s)) (head_ s) (max_height_ s) (rnd_ s)).

(** [for (int i = from; i < from + n; i++)] over a fallible body. *)
Fixpoint for_levels {S : Type} (body : nat -> S -> option S) (n from : nat) (st : S) : option S :=
  match n with
  | O => Some st
  | Datatypes.S n => st ← body from st; for_levels body n (Datatypes.S from) st
  end.

(** The constructor; the head's key is never compared. *)
Definition SkipList_new (any_key : Key) (arena : A) : option (SkipList Key A) :=
  let s := mkSkipList arena ∅ 0 1 (Random_new 0xdeadbeef) in
  let '(head, s) := NewNode s any_key kMaxHeight in
  let s := mkSkipList (arena_ s) (nodes s) head 1 (rnd_ s) in
  for_levels (fun i s => Node_SetNext s head i 0) kMaxHeight 0 s.

Definition Equal (a b : Key) : bool := compare_ a b =? 0.

Definition node_key_at s (x : Z) : option Key := node_key <$> nodes s !! x.

Definition KeyIsAfterNode key s (n : Z) : option bool :=
  if n =? 0 then Some false else k ← node_key_at s n; Some (compare_ k key <? 0).

(** One turn of a search loop at node [x] and [level]: move right while the
    test on the next node holds, else go down a level.  [FindGreaterOrEqual],
    [FindLessThan] and [FindLast] have this loop with different tests; only
    the first records the path in [prev]. *)
Definition search_step (test : SkipList Key A -> Z -> option bool) s
    (st : Z * nat * option (list (option Z))) :
    option ((Z * nat * option (list (option Z))) + (Z * Z * option (list (option Z)))) :=
  let '(x, level, prev) := st in
  next ← Node_Next s x level;
  right ← test s next;
  if right : bool then Some (inl (next, level, prev))
  else
    let prev := (fun p => <[level := Some x]> p) <$> prev in
    match level with
    | O => Some (inr (x, next, prev))
    | S level => Some (inl (x, level, prev))
    end.

Fixpoint search (fuel : nat) (test : SkipList Key A -> Z -> option bool) s
    (st : Z * nat * option (list (option Z))) : option (Z * Z * option (list (option Z))) :=
  match fuel with
  | O => None
  | S fuel =>
    r ← search_step test s st;
    match r with
    | inl st => search fuel test s st
    | inr r => Some r
    end
  end.

(** Each turn passes a node or a level. *)
Definition search_fuel s : nat := (size (nodes s) + max_height_ s)%nat.

Definition search_start s (prev : option (list (option Z))) : Z * nat * option (list (option Z)) :=
  (head_ s, (max_height_ s - 1)%nat, prev).

Definition FindGreaterOrEqual s key (prev : option (list (option Z))) : option (Z * option (list (option Z))) :=
  '(_, next, prev) ← search (search_fuel s) (KeyIsAfterNode key) s (search_start s prev);
  Some (next, prev).

(** [next == nullptr || compare_(next->key, key) >= 0] stops. *)
Definition less_than_test key s (next : Z) : option bool :=
  if next =? 0 then Some false else k ← node_key_at s next; Some (negb (0 <=? compare_ k key)).

Definition FindLessThan s key : option Z :=
  '(x, _, _) ← search (search_fuel s) (less_than_test key) s (search_start s None); Some x.

Definition last_test s (next : Z) : option bool := Some (negb (next =? 0)).

Definition FindLast s : option Z :=
  '(x, _, _) ← search (search_fuel s) last_test s (search_start s None); Some x.

(** [if (height > GetMaxHeight()) ..]: the new levels start at the head. *)
Definition raise_height s (height : nat) (prev : list (option Z)) : list (option Z) * SkipList Key A :=
  if decide (max_height_ s < height)%nat then
    (foldl (fun p i => <[i := Some (head_ s)]> p) prev (seq (max_height_ s) (height - max_height_ s)),
     mkSkipList (arena_ s) (nodes s) (head_ s) height (rnd_ s))
  else (prev, s).

(** [x->NoBarrier_SetNext(i, prev[i]->NoBarrier_Next(i))] *)
Definition link_forward (x : Z) (prev : list (option Z)) (i : nat) s : option (SkipList Key A) :=
  p ← mjoin (prev !! i);
  n ← Node_Next s p i;
  Node_SetNext s x i n.

(** [prev[i]->SetNext(i, x)] *)
Definition link_publish (x : Z) (prev : list (option Z)) (i : nat) s : option (SkipList Key A) :=
  p ← mjoin (prev !! i);
  Node_SetNext s p i x.

(** Up to the loop that links the new node. *)
Definition Insert_prepare s key : option (Z * nat * list (option Z) * SkipList Key A) :=
  '(_, prev) ← FindGreaterOrEqual s key (Some (replicate kMaxHeight None));
  prev ← prev;
  let '(height, rnd) := RandomHeight (rnd_ s) in
  let s := mkSkipList (arena_ s) (nodes s) (head_ s) (max_height_ s) rnd in
  let '(prev, s) := raise_height s height prev in
  let '(x, s) := NewNode s key height in
  Some (x, height, prev, s).

Definition SkipList_Insert s key : option (SkipList Key A) :=
  '(x, height, prev, s) ← Insert_prepare s key;
  for_levels (fun i s => s ← link_forward x prev i s; link_publish x prev i s) height 0 s.

Definition SkipList_Contains s key : option bool :=
  '(x, _) ← FindGreaterOrEqual s key None;
  if x =? 0 then Some false else k ← node_key_at s x; Some (Equal key k).

(** ** The iterator: a node or [nullptr] *)

Definition Iter_Valid (node : Z) : bool := negb (node =? 0).
Definition Iter_key s (node : Z) : option Key := node_key_at s node.
Definition Iter_Next s (node : Z) : option Z := Node_Next s node 0.

Definition Iter_Prev s (node : Z) : option Z :=
  k ← node_key_at s node;
  x ← FindLessThan s k;
  Some (if x =? head_ s then 0 else x).

Definition Iter_Seek s (target : Key) : option Z := fst <$> FindGreaterOrEqual s target None.
Definition Iter_SeekToFirst s : option Z := Node_Next s (head_ s) 0.

Definition Iter_SeekToLast s : option Z :=
  x ← FindLast s; Some (if x =? head_ s then 0 else x).

(** * The shape of the list *)

(** [linked a] is the number of levels at which the node at [a] has been
    published; 0 for a node that is still being inserted.  [L] lists the nodes
    with their keys in list order, without the head. *)

(** The next node at level [i]: the first one linked above it. *)
Fixpoint first_linked (linked : Z -> nat) (i : nat) (q : list (Z * Key)) : Z :=
  match q with
  | [] => 0
  | (a, _) :: q => if decide (i < linked a)%nat then a else first_linked linked i q
  end.

(** The keys a reader can find. *)
Definition visible (linked : Z -> nat) (L : list (Z * Key)) : list (Z * Key) :=
  filter (fun ak => 0 < linked ak.1)%nat L.

Definition key_lt (a b : Z * Key) : Prop := compare_ a.2 b.2 < 0.

Context (live : A -> Prop) (used : A -> Z -> Prop) `{!ArenaOk A live used}.
Context (valid : Key -> Prop).

Record list_ok s (any_key : Key) (L : list (Z * Key)) (linked : Z -> nat) : Prop := {
  ok_nodup : NoDup (head_ s :: L.*1);
  ok_nonnull : 0 ∉ head_ s :: L.*1;
  ok_head : linked (head_ s) = kMaxHeight;
  ok_height : (1 <= max_height_ s <= kMaxHeight)%nat;
  ok_linked : Forall (fun ak => linked ak.1 <= max_height_ s)%nat L;
  ok_nodes : Forall (fun ak => node_key_at s ak.1 = Some ak.2) ((head_ s, any_key) :: L);
  ok_links : forall p b k q i, (head_ s, any_key) :: L = p ++ (b, k) :: q -> (i < linked b)%nat ->
    Node_Next s b i = Some (first_linked linked i q);
  ok_sorted : StronglySorted key_lt L;
  ok_valid : Forall (fun ak => valid ak.2) L;
  ok_live : live (arena_ s);
  ok_used : forall a, is_Some (nodes s !! a) -> used (arena_ s) a;
}.

Lemma first_linked_app linked i q r :
  first_linked linked i (q ++ r) =
  if decide (Exists (fun ak => i < linked ak.1)%nat q) then first_linked linked i q else first_linked linked i r.
Proof.
  induction q as [|[a k] q IH]; cbn [app first_linked].
  { rewrite decide_False; [done|]. intros HE. inversion HE. }
  destruct (decide (i < linked a)%nat).
  - rewrite decide_True; [done|]. by apply Exists_cons_hd.
  - rewrite IH. apply decide_ext. rewrite Exists_cons. cbn. intuition.
Qed.

Lemma first_linked_none linked i q r : Forall (fun ak => linked ak.1 <= i)%nat q ->
  first_linked linked i (q ++ r) = first_linked linked i r.
Proof.
  intros Hq. rewrite first_linked_app, decide_False; [done|].
  rewrite Exists_exists. intros (x & Hx & Hlt). rewrite Forall_forall in Hq. apply Hq in Hx. lia.
Qed.

(** Either the first linked node is in [q], or none of [q] is linked. *)
Lemma first_linked_cases linked i (q : list (Z * Key)) :
  (exists q1 a k q2, q = q1 ++ (a, k) :: q2 /\ (i < linked a)%nat /\
     Forall (fun ak => linked ak.1 <= i)%nat q1 /\ forall r, first_linked linked i (q ++ r) = a) \/
  Forall (fun ak => linked ak.1 <= i)%nat q.
Proof.
  induction q as [|[a k] q IH]; [by right|].
  destruct (decide (i < linked a)%nat) as [Hi|Hi].
  - left. exists [], a, k, q. split_and!; try done. intros r. cbn [app first_linked]. by rewrite decide_True.
  - destruct IH as [(q1 & b & kb & q2 & -> & Hb & Hq1 & Hf)|IH].
    + left. exists ((a, k) :: q1), b, kb, q2. split_and!; try done.
      * constructor; [cbn; lia|done].
      * intros r. cbn [app first_linked]. by rewrite decide_False.
    + right. constructor; [cbn; lia|done].
Qed.

Lemma first_linked_ext linked linked' i q :
  Forall (fun ak => (i < linked ak.1 <-> i < linked' ak.1))%nat q ->
  first_linked linked i q = first_linked linked' i q.
Proof.
  induction 1 as [|[a k] q Hak Hq IH]; [done|]. cbn [first_linked]. rewrite IH. by apply decide_ext.
Qed.

Lemma first_linked_0 linked q : first_linked linked 0 q = default 0 (fst <$> head (visible linked q)).
Proof.
  induction q as [|[a k] q IH]; [done|]. unfold visible in *. cbn [first_linked filter].
  rewrite filter_cons. cbn [fst]. by destruct (decide (0 < linked a)%nat).
Qed.

(** Where an element of [l1 ++ x :: l2] is. *)
Lemma split_around {T} (l1 l2 p q : list T) (x b : T) : l1 ++ x :: l2 = p ++ b :: q ->
  (exists q', l1 = p ++ b :: q' /\ q = q' ++ x :: l2) \/
  (p = l1 /\ b = x /\ q = l2) \/
  (exists p', p = l1 ++ x :: p' /\ l2 = p' ++ b :: q).
Proof.
  revert p. induction l1 as [|y l1 IH]; intros [|z p]; cbn; intros [= -> Heq].
  - right; left. auto.
  - right; right. by exists p.
  - left. by exists l1.
  - destruct (IH p Heq) as [(q' & -> & ->)|[(-> & -> & ->)|(p' & -> & ->)]].
    + left. by exists q'.
    + by right; left.
    + right; right. by exists p'.
Qed.

(** ** Searching *)

(** [y] is the last node of [head :: L1] that is linked at level [i]. *)
Definition pred_at s any_key (L1 : list (Z * Key)) (linked : Z -> nat) (i : nat) (y : Z) : Prop :=
  exists p k q, (head_ s, any_key) :: L1 = p ++ (y, k) :: q /\ (i < linked y)%nat /\
    Forall (fun ak => linked ak.1 <= i)%nat q.

(** The test of a search splits the list: true on [L1], false on [L2]. *)
Record splits (test : SkipList Key A -> Z -> option bool) s (L L1 L2 : list (Z * Key)) : Prop := {
  splits_app : L = L1 ++ L2;
  splits_null : test s 0 = Some false;
  splits_right : Forall (fun ak => test s ak.1 = Some true) L1;
  splits_down : Forall (fun ak => test s ak.1 = Some false) L2;
}.

Section searching.
Context (s : SkipList Key A) (any_key : Key) (L L1 L2 : list (Z * Key)) (linked : Z -> nat).
Context (test : SkipList Key A -> Z -> option bool).
Hypotheses (Hok : list_ok s any_key L linked) (Hsplit : splits test s L L1 L2).

Lemma first_linked_test i : test s (first_linked linked i L2) = Some false.
Proof.
  destruct (first_linked_cases linked i L2) as [(q1 & a & k & q2 & Hq & _ & _ & Hf)|Hq].
  - specialize (Hf []). rewrite app_nil_r in Hf. rewrite Hf.
    pose proof (splits_down _ _ _ _ _ Hsplit) as Hd. rewrite Hq, Forall_app, Forall_cons in Hd. by apply Hd.
  - pose proof (first_linked_none linked i L2 [] Hq) as Hf. rewrite app_nil_r in Hf. rewrite Hf.
    apply (splits_null _ _ _ _ _ Hsplit).
Qed.

Lemma search_step_ok p x k q level prev :
  (head_ s, any_key) :: L1 = p ++ (x, k) :: q -> (level < linked x)%nat ->
  (exists q1 a ka q2, q = q1 ++ (a, ka) :: q2 /\ (level < linked a)%nat /\
     search_step test s (x, level, prev) = Some (inl (a, level, prev))) \/
  (Forall (fun ak => linked ak.1 <= level)%nat q /\
   let prev' := (fun a => <[level := Some x]> a) <$> prev in
   search_step test s (x, level, prev) = Some (match level with
     | O => inr (x, first_linked linked 0 L2, prev')
     | S l => inl (x, l, prev')
     end)).
Proof.
  intros Hp Hl. unfold search_step.
  assert (Node_Next s x level = Some (first_linked linked level (q ++ L2))) as ->.
  { eapply (ok_links _ _ _ _ Hok p x k); [|done].
    rewrite (splits_app _ _ _ _ _ Hsplit), app_comm_cons, Hp, <- app_assoc. done. }
  cbn [mbind option_bind]. destruct (first_linked_cases linked level q) as [(q1 & a & ka & q2 & Hq & Ha & _ & Hf)|Hq].
  - left. exists q1, a, ka, q2. split_and!; [done|done|]. rewrite Hf.
    assert (test s a = Some true) as ->; [|done].
    pose proof (splits_right _ _ _ _ _ Hsplit) as Hr.
    assert ((a, ka) ∈ L1) as Hin.
    { destruct p as [|y p]; [injection Hp as _ _ Hp|injection Hp as _ Hp]; rewrite Hp, Hq; set_solver. }
    rewrite Forall_forall in Hr. apply (Hr _ Hin).
  - right. split; [done|]. cbn zeta. rewrite (first_linked_none linked level q L2 Hq), first_linked_test.
    cbn [mbind option_bind]. by destruct level.
Qed.

Lemma search_ok fuel p x k q level a :
  (head_ s, any_key) :: L1 = p ++ (x, k) :: q -> (level < linked x)%nat -> (length q + level < fuel)%nat ->
  exists x' a', search fuel test s (x, level, a) = Some (x', first_linked linked 0 L2, a') /\
    pred_at s any_key L1 linked 0 x' /\
    (a' = None <-> a = None) /\
    forall l, a = Some l -> exists l', a' = Some l' /\ length l' = length l /\
      (forall i, (i <= level < length l)%nat ->
         exists y, l' !! i = Some (Some y) /\ pred_at s any_key L1 linked i y) /\
      (forall i, (level < i)%nat -> l' !! i = l !! i).
Proof.
  revert p x k q level a. induction fuel as [|fuel IH]; intros p x k q level a Hp Hl Hf; [lia|].
  cbn [search]. destruct (search_step_ok p x k q level a Hp Hl)
    as [(q1 & b & kb & q2 & Hq & Hb & Hstep)|[Hq Hstep]]; rewrite Hstep; cbn [mbind option_bind].
  - apply (IH (p ++ (x, k) :: q1) b kb q2 level a); [|done|].
    + by rewrite Hp, Hq, <- app_assoc.
    + rewrite Hq, length_app in Hf. cbn in Hf. lia.
  - assert (pred_at s any_key L1 linked level x) as Hpred by (exists p, k, q; auto).
    destruct level as [|level].
    + exists x. eexists. split; [done|]. split; [done|]. split; [by destruct a|].
      intros l ->. eexists. split; [done|]. rewrite length_insert. split; [done|]. split.
      * intros i Hi. assert (i = 0)%nat as -> by lia. exists x. rewrite list_lookup_insert_eq by lia. done.
      * intros i Hi. rewrite list_lookup_insert_ne by lia. done.
    + destruct (IH p x k q level ((fun a => <[S level := Some x]> a) <$> a) Hp) as (x' & a' & -> & Hx' & Hn & Ha');
        [lia|lia|].
      exists x', a'. split; [done|]. split; [done|]. split; [rewrite Hn; by destruct a|].
      intros l ->. destruct (Ha' _ eq_refl) as (l' & -> & Hlen & Hlow & Hhigh). rewrite length_insert in *.
      exists l'. split; [done|]. split; [done|]. split.
      * intros i Hi. destruct (decide (i = S level)) as [->|]; [|apply Hlow; lia].
        exists x. split; [|done]. rewrite Hhigh, list_lookup_insert_eq by lia. done.
      * intros i Hi. rewrite Hhigh, list_lookup_insert_ne by lia. done.
Qed.

Lemma length_le_nodes : (length L < size (nodes s))%nat.
Proof.
  pose proof (ok_nodup _ _ _ _ Hok) as Hnd.
  assert (list_to_set (head_ s :: L.*1) ⊆@{gset Z} dom (nodes s)) as Hsub.
  { intros a Ha%elem_of_list_to_set. apply elem_of_dom. pose proof (ok_nodes _ _ _ _ Hok) as Hn.
    assert (exists k, (a, k) ∈ (head_ s, any_key) :: L) as [k Hk].
    { apply elem_of_cons in Ha as [->|Ha]; [exists any_key; left|].
      apply list_elem_of_fmap in Ha as ([a' k] & -> & Hin). exists k. by right. }
    rewrite Forall_forall in Hn. specialize (Hn _ Hk). unfold node_key_at in Hn. cbn in Hn.
    destruct (nodes s !! a); [done|]. discriminate. }
  apply subseteq_size in Hsub. rewrite size_list_to_set, size_dom in Hsub by done.
  cbn [length] in Hsub. rewrite length_fmap in Hsub. lia.
Qed.

(** A whole search from the head. *)
Lemma search_from_head a :
  exists x' a', search (search_fuel s) test s (search_start s a) = Some (x', first_linked linked 0 L2, a') /\
    pred_at s any_key L1 linked 0 x' /\ (a' = None <-> a = None) /\
    forall l, a = Some l -> exists l', a' = Some l' /\ length l' = length l /\
      forall i, (i < max_height_ s <= length l)%nat ->
        exists y, l' !! i = Some (Some y) /\ pred_at s any_key L1 linked i y.
Proof.
  pose proof (ok_height _ _ _ _ Hok). pose proof length_le_nodes as Hlen.
  rewrite (splits_app _ _ _ _ _ Hsplit), length_app in Hlen. unfold search_fuel, search_start.
  destruct (search_ok (size (nodes s) + max_height_ s) [] (head_ s) any_key L1 (max_height_ s - 1) a)
    as (x' & a' & Hs & Hp & Hn & Ha); [done|rewrite (ok_head _ _ _ _ Hok); lia|lia|].
  exists x', a'. split; [done|]. split; [done|]. split; [done|].
  intros l Hl. destruct (Ha l Hl) as (l' & -> & Hlen' & Hlow & _). exists l'. split; [done|]. split; [done|].
  intros i Hi. apply Hlow. lia.
Qed.

End searching.

(** ** Stores *)

Definition tower s (x : Z) : option nat := (fun n => length (next_ n)) <$> nodes s !! x.

(** [s'] differs from [s] in links only. *)
Record same_frame s s' : Prop := {
  frame_head : head_ s' = head_ s;
  frame_height : max_height_ s' = max_height_ s;
  frame_rnd : rnd_ s' = rnd_ s;
  frame_arena : arena_ s' = arena_ s;
  frame_key a : node_key_at s' a = node_key_at s a;
  frame_tower a : tower s' a = tower s a;
}.

Lemma same_frame_trans s1 s2 s3 : same_frame s1 s2 -> same_frame s2 s3 -> same_frame s1 s3.
Proof. intros [] []. split; intros; congruence. Qed.

Lemma is_Some_tower s a : is_Some (nodes s !! a) <-> is_Some (tower s a).
Proof. unfold tower. by rewrite fmap_is_Some. Qed.

Lemma Node_Next_tower s x i v : Node_Next s x i = Some v -> exists h, tower s x = Some h /\ (i < h)%nat.
Proof.
  unfold Node_Next, tower. destruct (nodes s !! x) as [node|]; cbn; [|done].
  destruct (next_ node !! i) eqn:E; [|done]. intros _. eexists. split; [done|]. by eapply lookup_lt_Some.
Qed.

Lemma Node_SetNext_ok s x n v h : tower s x = Some h -> (n < h)%nat ->
  exists s', Node_SetNext s x n v = Some s' /\ same_frame s s' /\
    forall y m, Node_Next s' y m = if decide (y = x /\ m = n) then Some v else Node_Next s y m.
Proof.
  unfold tower, Node_SetNext. destruct (nodes s !! x) as [node|] eqn:E; cbn [fmap option_map option_fmap]; [|done].
  intros [= <-] Hn. cbn [mbind option_bind]. rewrite decide_True by done. eexists. split; [done|]. split.
  - split; try done; intros a; unfold node_key_at, tower; cbn [nodes set_nodes];
      (destruct (decide (a = x)) as [->|]; [rewrite lookup_insert_eq, E|by rewrite lookup_insert_ne]); cbn; [done|].
    by rewrite length_insert.
  - intros y m. unfold Node_Next. cbn [nodes set_nodes]. destruct (decide (y = x)) as [->|].
    + rewrite lookup_insert_eq, E. cbn [mbind option_bind next_]. destruct (decide (m = n)) as [->|].
      * rewrite decide_True, list_lookup_insert_eq by done. done.
      * rewrite decide_False, list_lookup_insert_ne by naive_solver. done.
    + rewrite decide_False, lookup_insert_ne by naive_solver. done.
Qed.

Lemma list_ok_frame s s' any_key L linked linked' :
  list_ok s any_key L linked -> same_frame s s' -> linked' (head_ s) = kMaxHeight ->
  Forall (fun ak => linked' ak.1 <= max_height_ s)%nat L ->
  (forall p b k q i, (head_ s, any_key) :: L = p ++ (b, k) :: q -> (i < linked' b)%nat ->
    Node_Next s' b i = Some (first_linked linked' i q)) ->
  list_ok s' any_key L linked'.
Proof.
  intros [] [Hh Hm Hr Ha Hk Ht] Hhead Hlinked Hlinks.
  split; rewrite ?Hh, ?Hm, ?Ha; try done.
  - eapply Forall_impl; [exact ok_nodes0|]. intros ak. by rewrite Hk.
  - intros a. rewrite is_Some_tower, Ht, <- is_Some_tower. auto.
Qed.

Definition set_linked (linked : Z -> nat) (x : Z) (n : nat) (a : Z) : nat :=
  if decide (a = x) then n else linked a.

Lemma set_linked_eq linked x n : set_linked linked x n x = n.
Proof. unfold set_linked. by rewrite decide_True. Qed.

Lemma set_linked_ne linked x n a : a <> x -> set_linked linked x n a = linked a.
Proof. intros. unfold set_linked. by rewrite decide_False. Qed.

Lemma Forall_set_linked (P : nat -> Prop) linked x n (q : list (Z * Key)) : x ∉ q.*1 ->
  Forall (fun ak => P (set_linked linked x n ak.1)) q <-> Forall (fun ak => P (linked ak.1)) q.
Proof.
  intros Hx. rewrite !Forall_forall. split; intros H ak Hin; specialize (H ak Hin).
  - rewrite set_linked_ne in H; [done|]. intros <-. apply Hx. by apply list_elem_of_fmap_2.
  - rewrite set_linked_ne; [done|]. intros <-. apply Hx. by apply list_elem_of_fmap_2.
Qed.

Lemma first_linked_set linked x n i q : x ∉ q.*1 ->
  first_linked (set_linked linked x n) i q = first_linked linked i q.
Proof.
  intros Hx. apply first_linked_ext. rewrite Forall_forall. intros ak Hin.
  rewrite set_linked_ne; [done|]. intros <-. apply Hx. by apply list_elem_of_fmap_2.
Qed.

(** ** Linking a node at one level *)

Section linking.
Context (s : SkipList Key A) (any_key key : Key) (L1 L2 : list (Z * Key)) (linked : Z -> nat).
Context (x p : Z) (prev : list (option Z)) (i : nat).
Hypotheses (Hok : list_ok s any_key (L1 ++ (x, key) :: L2) linked) (Hx : linked x = i).
Hypotheses (Hprev : prev !! i = Some (Some p)) (Hpred : pred_at s any_key L1 linked i p).

Lemma linking_distinct : x <> head_ s /\ x ∉ L1.*1 /\ x ∉ L2.*1 /\ p <> x /\ p ∉ L2.*1 /\ NoDup (head_ s :: L1.*1).
Proof.
  pose proof (ok_nodup _ _ _ _ Hok) as Hnd. rewrite fmap_app, fmap_cons in Hnd. cbn [fst] in Hnd.
  rewrite app_comm_cons in Hnd. apply NoDup_app in Hnd as (Hnd1 & Hdis & Hnd2%NoDup_cons).
  destruct Hpred as (pp & k & qp & Hp & _).
  assert (p ∈ head_ s :: L1.*1) as Hin.
  { change (p ∈ ((head_ s, any_key) :: L1).*1). rewrite Hp, fmap_app, fmap_cons. set_solver. }
  split_and!; set_solver.
Qed.

Lemma pred_next : Node_Next s p i = Some (first_linked linked i L2).
Proof.
  destruct Hpred as (pp & k & qp & Hp & Hi & Hq).
  rewrite (ok_links _ _ _ _ Hok pp p k (qp ++ (x, key) :: L2) i); [|by rewrite app_comm_cons, Hp, <- app_assoc|done].
  rewrite first_linked_none by done. cbn [first_linked]. rewrite decide_False by lia. done.
Qed.

Lemma link_forward_ok h : tower s x = Some h -> (i < h)%nat ->
  exists s', link_forward x prev i s = Some s' /\ same_frame s s' /\
    list_ok s' any_key (L1 ++ (x, key) :: L2) linked /\ Node_Next s' x i = Some (first_linked linked i L2).
Proof.
  intros Ht Hh. unfold link_forward. rewrite Hprev. cbn [mjoin option_join mbind option_bind]. rewrite pred_next.
  cbn [mbind option_bind].
  destruct (Node_SetNext_ok s x i (first_linked linked i L2) h Ht Hh) as (s' & -> & Hfr & Hn).
  exists s'. split; [done|]. split; [done|]. split.
  - eapply list_ok_frame; [exact Hok|exact Hfr|apply Hok|apply Hok|].
    intros q b k r j Hq Hj. rewrite Hn, decide_False by (intros [-> ->]; lia).
    by eapply (ok_links _ _ _ _ Hok).
  - rewrite Hn, decide_True; done.
Qed.

Lemma first_linked_raise j q : j <> i ->
  first_linked (set_linked linked x (S i)) j q = first_linked linked j q.
Proof.
  intros Hj. apply first_linked_ext, Forall_true. intros [a k]. cbn. unfold set_linked.
  destruct (decide (a = x)) as [->|]; lia.
Qed.

Lemma first_linked_before q r : x ∉ q.*1 -> Exists (fun ak => i < linked ak.1)%nat q ->
  first_linked (set_linked linked x (S i)) i (q ++ r) = first_linked linked i (q ++ r).
Proof.
  intros Hq Hex. rewrite !first_linked_app, (decide_True (P := Exists (fun ak => i < linked ak.1)%nat q)) by done.
  rewrite decide_True, first_linked_set; [done|done|].
  apply Exists_exists in Hex as (ak & Hin & Hak). apply Exists_exists. exists ak. split; [done|].
  rewrite set_linked_ne; [done|]. intros Hakx. apply Hq. rewrite <- Hakx. by apply list_elem_of_fmap_2.
Qed.

(** The stores of [prev[i]->SetNext(i, x)] make exactly the links of the list
    in which [x] is linked one level higher. *)
Lemma publish_links s' pre b k q j :
  (forall y m, Node_Next s' y m = if decide (y = p /\ m = i) then Some x else Node_Next s y m) ->
  Node_Next s x i = Some (first_linked linked i L2) ->
  (head_ s, any_key) :: L1 ++ (x, key) :: L2 = pre ++ (b, k) :: q ->
  (j < set_linked linked x (S i) b)%nat ->
  Node_Next s' b j = Some (first_linked (set_linked linked x (S i)) j q).
Proof.
  intros Hn Hxn Heq Hj. rewrite Hn. clear Hn.
  destruct linking_distinct as (Hxh & Hx1 & Hx2 & Hpx & Hp2 & Hnd).
  assert (Hold : b <> x -> j <> i -> Node_Next s b j = Some (first_linked (set_linked linked x (S i)) j q)).
  { intros Hbx Hji. rewrite first_linked_raise by done. rewrite set_linked_ne in Hj by done.
    by eapply (ok_links _ _ _ _ Hok). }
  rewrite app_comm_cons in Heq. pose proof Heq as Hsplit.
  apply split_around in Hsplit as [(q' & Hq' & ->)|[(-> & [= -> ->] & ->)|(p' & -> & HL2)]].
  - assert (b <> x) as Hbx.
    { intros ->. assert (x ∈ ((head_ s, any_key) :: L1).*1) as Hin
        by (rewrite Hq', fmap_app, fmap_cons; set_solver). cbn in Hin. set_solver. }
    destruct (decide (j = i)) as [->|Hji]; [|rewrite decide_False by naive_solver; by apply Hold].
    rewrite set_linked_ne in Hj by done. destruct Hpred as (pp & kp & qp & Hp & Hip & Hqp).
    rewrite Hp in Hq'. apply split_around in Hq' as [(r & -> & ->)|[(-> & [= -> ->] & ->)|(r & -> & Hqp')]].
    + rewrite decide_False.
      * rewrite first_linked_before.
        -- eapply (ok_links _ _ _ _ Hok); [|done]. by rewrite app_comm_cons.
        -- assert (x ∉ ((head_ s, any_key) :: L1).*1) as Hni by set_solver.
           rewrite Hp, !fmap_app in Hni. set_solver.
        -- apply Exists_app. right. by apply Exists_cons_hd.
      * intros [-> _]. change (NoDup ((head_ s, any_key) :: L1).*1) in Hnd.
        rewrite Hp, !fmap_app in Hnd. cbn in Hnd. apply NoDup_app in Hnd as (_ & Hdis & _).
        eapply (Hdis p); set_solver.
    + rewrite decide_True by done. rewrite first_linked_none.
      * cbn [first_linked]. rewrite set_linked_eq, decide_True by lia. done.
      * apply (Forall_set_linked (fun n => n <= i)%nat); [|done].
        assert (x ∉ ((head_ s, any_key) :: L1).*1) as Hni by set_solver.
        rewrite Hp, !fmap_app in Hni. set_solver.
    + rewrite Hqp', Forall_app, Forall_cons in Hqp. cbn in Hqp. lia.
  - rewrite decide_False by naive_solver. rewrite set_linked_eq in Hj.
    rewrite first_linked_set by done. destruct (decide (j = i)) as [->|]; [done|].
    eapply (ok_links _ _ _ _ Hok); [exact Heq|lia].
  - assert (b ∈ L2.*1 /\ x ∉ q.*1) as [Hb Hxq].
    { rewrite HL2, fmap_app, fmap_cons in *. set_solver. }
    assert (b <> x) as Hbx by (intros ->; done). rewrite decide_False by (intros [-> _]; done).
    rewrite first_linked_set by done. rewrite set_linked_ne in Hj by done.
    by eapply (ok_links _ _ _ _ Hok).
Qed.

Lemma link_publish_ok : (i < max_height_ s)%nat -> Node_Next s x i = Some (first_linked linked i L2) ->
  exists s', link_publish x prev i s = Some s' /\ same_frame s s' /\
    list_ok s' any_key (L1 ++ (x, key) :: L2) (set_linked linked x (S i)).
Proof.
  intros Hi Hxn. unfold link_publish. rewrite Hprev. cbn [mjoin option_join mbind option_bind].
  destruct (Node_Next_tower s p i _ pred_next) as (h & Ht & Hh).
  destruct (Node_SetNext_ok s p i x h Ht Hh) as (s' & -> & Hfr & Hn).
  exists s'. split; [done|]. split; [done|].
  destruct linking_distinct as (Hxh & Hx1 & Hx2 & _).
  eapply list_ok_frame; [exact Hok|exact Hfr| | |].
  - rewrite set_linked_ne by done. apply Hok.
  - pose proof (ok_linked _ _ _ _ Hok) as Hl. rewrite Forall_app, Forall_cons in *. cbn [fst] in *.
    rewrite set_linked_eq. split; [|split; [lia|]].
    + apply (Forall_set_linked (fun n => n <= max_height_ s)%nat); [done|apply Hl].
    + apply (Forall_set_linked (fun n => n <= max_height_ s)%nat); [done|apply Hl].
  - intros. by eapply publish_links.
Qed.

End linking.

(** ** Splitting by a key *)

(** What the skip list needs of the comparator. *)
Class KeyOrder : Prop := {
  key_antisym a b : valid a -> valid b -> compare_ a b < 0 <-> 0 < compare_ b a;
  key_le_trans a b c : valid a -> valid b -> valid c ->
    compare_ a b <= 0 -> compare_ b c <= 0 -> compare_ a c <= 0;
}.

Context {korder : KeyOrder}.

Lemma key_lt_le_trans a b c : valid a -> valid b -> valid c ->
  compare_ a b < 0 -> compare_ b c <= 0 -> compare_ a c < 0.
Proof.
  intros Ha Hb Hc Hab Hbc. destruct (decide (compare_ a c < 0)) as [|Hge]; [done|exfalso].
  assert (compare_ c a <= 0) as Hca.
  { destruct (decide (0 < compare_ c a)) as [H|]; [|lia]. apply key_antisym in H; [lia|done|done]. }
  pose proof (key_le_trans b c a Hb Hc Ha Hbc Hca). apply key_antisym in Hab; [lia|done|done].
Qed.

Lemma key_compare_refl a : valid a -> compare_ a a = 0.
Proof. intros Ha. pose proof (key_antisym a a Ha Ha). lia. Qed.

Definition keys_before key (L : list (Z * Key)) : list (Z * Key) := filter (fun ak => compare_ ak.2 key < 0) L.
Definition keys_from key (L : list (Z * Key)) : list (Z * Key) := filter (fun ak => ~ compare_ ak.2 key < 0) L.

Lemma keys_split key L : valid key -> Forall (fun ak => valid ak.2) L -> StronglySorted key_lt L ->
  L = keys_before key L ++ keys_from key L.
Proof.
  intros Hk Hv Hs. apply (filter_sorted_split key_lt); [done|]. rewrite Forall_forall in Hv.
  intros a b Ha Hb Hab Hlt. eapply (key_lt_le_trans a.2 b.2); [by apply Hv|by apply Hv|done|done|lia].
Qed.

Lemma Forall_keys_before key L : Forall (fun ak => compare_ ak.2 key < 0) (keys_before key L).
Proof. apply Forall_forall. intros ak Hin%list_elem_of_filter. apply Hin. Qed.

Lemma Forall_keys_from key L : Forall (fun ak => 0 <= compare_ ak.2 key) (keys_from key L).
Proof. apply Forall_forall. intros ak Hin%list_elem_of_filter. destruct Hin. lia. Qed.

Lemma ok_key_at s any_key L linked a k : list_ok s any_key L linked -> (a, k) ∈ L ->
  node_key_at s a = Some k /\ a <> 0.
Proof.
  intros Hok Hin. pose proof (ok_nodes _ _ _ _ Hok) as Hn. apply Forall_cons in Hn as [_ Hn].
  rewrite Forall_forall in Hn. split; [apply (Hn _ Hin)|]. intros ->.
  apply (ok_nonnull _ _ _ _ Hok). right. change 0 with (0, k).1. by apply list_elem_of_fmap_2.
Qed.

Lemma ok_split s any_key L linked key : list_ok s any_key L linked -> valid key ->
  L = keys_before key L ++ keys_from key L.
Proof. intros Hok Hv. apply keys_split; [done|apply Hok|apply Hok]. Qed.

(** Both tests on a key split the list there. *)
Lemma splits_after s any_key L linked key : list_ok s any_key L linked -> valid key ->
  splits (KeyIsAfterNode key) s L (keys_before key L) (keys_from key L).
Proof.
  intros Hok Hv. split; [by eapply ok_split|done| |]; apply Forall_forall; intros [a k] Hin;
    pose proof Hin as [Hlt Hin']%list_elem_of_filter; cbn [fst snd] in *;
    destruct (ok_key_at _ _ _ _ _ _ Hok Hin') as [Hk Ha];
    unfold KeyIsAfterNode; rewrite (proj2 (Z.eqb_neq a 0) Ha), Hk; cbn [mbind option_bind]; f_equal.
  - by apply Z.ltb_lt.
  - apply Z.ltb_ge. lia.
Qed.

Lemma splits_less_than s any_key L linked key : list_ok s any_key L linked -> valid key ->
  splits (less_than_test key) s L (keys_before key L) (keys_from key L).
Proof.
  intros Hok Hv. split; [by eapply ok_split|done| |]; apply Forall_forall; intros [a k] Hin;
    pose proof Hin as [Hlt Hin']%list_elem_of_filter; cbn [fst snd] in *;
    destruct (ok_key_at _ _ _ _ _ _ Hok Hin') as [Hk Ha];
    unfold less_than_test; rewrite (proj2 (Z.eqb_neq a 0) Ha), Hk; cbn [mbind option_bind]; f_equal.
  - by rewrite (proj2 (Z.leb_gt 0 (compare_ k key))) by lia.
  - by rewrite (proj2 (Z.leb_le 0 (compare_ k key))) by lia.
Qed.

Lemma splits_last s any_key L linked : list_ok s any_key L linked -> splits last_test s L L [].
Proof.
  intros Hok. split; [by rewrite app_nil_r|done| |constructor]. apply Forall_forall. intros [a k] Hin.
  destruct (ok_key_at _ _ _ _ _ _ Hok Hin) as [_ Ha]. unfold last_test. cbn [fst].
  by rewrite (proj2 (Z.eqb_neq a 0) Ha).
Qed.

(** ** Inserting *)

Lemma RandomHeight_range rnd : (1 <= (RandomHeight rnd).1 <= kMaxHeight)%nat.
Proof.
  unfold RandomHeight. assert (forall fuel h r, (h <= (RandomHeight_loop fuel h r).1 <= h + fuel)%nat) as H.
  { induction fuel as [|fuel IH]; intros h r; cbn [RandomHeight_loop]; [cbn; lia|].
    destruct (_ =? 0); [|cbn; lia]. specialize (IH (S h) (Random_Next r)). lia. }
  specialize (H (kMaxHeight - 1)%nat 1%nat rnd). unfold kMaxHeight in *. lia.
Qed.

Lemma pred_at_ext s s' any_key L1 linked linked' i y :
  head_ s' = head_ s -> (forall a, a ∈ head_ s :: L1.*1 -> linked' a = linked a) ->
  pred_at s any_key L1 linked i y -> pred_at s' any_key L1 linked' i y.
Proof.
  intros Hh Hl (p & k & q & Hp & Hi & Hq). exists p, k, q. rewrite Hh. split; [done|].
  assert (forall ak, ak ∈ p ++ (y, k) :: q -> linked' ak.1 = linked ak.1) as Heq.
  { intros ak Hak. apply Hl. change (ak.1 ∈ ((head_ s, any_key) :: L1).*1). rewrite Hp.
    by apply list_elem_of_fmap_2. }
  split; [pose proof (Heq (y, k) ltac:(set_solver)) as Hy; cbn in Hy; by rewrite Hy|].
  rewrite Forall_forall in *. intros ak Hak. rewrite Heq by set_solver. by apply Hq.
Qed.

(** Above the height of the list the head precedes everything. *)
Lemma pred_at_head s any_key L L1 L2 linked i : list_ok s any_key L linked -> L = L1 ++ L2 ->
  (max_height_ s <= i < kMaxHeight)%nat -> pred_at s any_key L1 linked i (head_ s).
Proof.
  intros Hok -> Hi. exists [], any_key, L1. split; [done|]. rewrite (ok_head _ _ _ _ Hok). split; [lia|].
  pose proof (ok_linked _ _ _ _ Hok) as Hl. apply Forall_app in Hl as [Hl _].
  eapply Forall_impl; [exact Hl|]. cbn. lia.
Qed.

Lemma raise_height_prev (h0 : Z) (from n : nat) (prev : list (option Z)) i : (from + n <= length prev)%nat ->
  let prev' := foldl (fun p i => <[i := Some h0]> p) prev (seq from n) in
  length prev' = length prev /\
  prev' !! i = if decide (from <= i < from + n)%nat then Some (Some h0) else prev !! i.
Proof.
  revert from prev. induction n as [|n IH]; intros from prev Hlen; cbn [seq foldl].
  { rewrite decide_False by lia. done. }
  destruct (IH (S from) (<[from := Some h0]> prev)) as [Hl ->]; [rewrite length_insert; lia|].
  rewrite Hl, length_insert. split; [done|]. destruct (decide (i = from)) as [->|].
  - rewrite decide_False, decide_True by lia. by rewrite list_lookup_insert_eq by lia.
  - rewrite list_lookup_insert_ne by lia. apply decide_ext. lia.
Qed.

Lemma NoDup_splice (x : Z) l1 l2 : NoDup (l1 ++ l2) -> x ∉ l1 ++ l2 -> NoDup (l1 ++ x :: l2).
Proof. intros Hn Hx. rewrite <- Permutation_middle. by constructor. Qed.

Lemma sorted_splice (x : Z) key L1 L2 : StronglySorted key_lt (L1 ++ L2) ->
  Forall (fun ak => compare_ ak.2 key < 0) L1 -> Forall (fun ak => compare_ key ak.2 < 0) L2 ->
  StronglySorted key_lt (L1 ++ (x, key) :: L2).
Proof.
  intros Hs H1 H2. induction L1 as [|ak L IH]; cbn [app] in *; [by constructor|].
  apply StronglySorted_inv in Hs as [Hs Hf]. apply Forall_cons in H1 as [Hak H1].
  constructor; [by apply IH|]. apply Forall_app in Hf as [Hf1 Hf2]. apply Forall_app. split; [done|by constructor].
Qed.

(** A node that is linked nowhere is skipped at every level. *)
Lemma first_linked_splice linked x (key : Key) i q r : x ∉ q.*1 -> x ∉ r.*1 ->
  first_linked (set_linked linked x 0) i (q ++ (x, key) :: r) = first_linked linked i (q ++ r).
Proof.
  intros Hq Hr. rewrite <- (first_linked_set linked x 0) by (rewrite fmap_app; set_solver).
  rewrite !first_linked_app. cbn [first_linked]. rewrite set_linked_eq.
  by rewrite (decide_False (P := (i < 0)%nat)) by lia.
Qed.

Lemma list_ok_fresh s any_key L linked x : list_ok s any_key L linked -> nodes s !! x = None -> x ∉ head_ s :: L.*1.
Proof.
  intros Hok Hnone Hin. pose proof (ok_nodes _ _ _ _ Hok) as Hn.
  change (x ∈ ((head_ s, any_key) :: L).*1) in Hin.
  apply list_elem_of_fmap in Hin as (ak & -> & Hin). rewrite Forall_forall in Hn. specialize (Hn _ Hin).
  unfold node_key_at in Hn. by rewrite Hnone in Hn.
Qed.

(** A fresh node, linked nowhere, fits anywhere in the list. *)
Lemma NewNode_ok s any_key L1 L2 linked key h :
  list_ok s any_key (L1 ++ L2) linked -> valid key -> (1 <= h <= kMaxHeight)%nat ->
  Forall (fun ak => compare_ ak.2 key < 0) L1 -> Forall (fun ak => compare_ key ak.2 < 0) L2 ->
  let '(x, s') := NewNode s key h in
  list_ok s' any_key (L1 ++ (x, key) :: L2) (set_linked linked x 0) /\ tower s' x = Some h /\
  head_ s' = head_ s /\ max_height_ s' = max_height_ s /\ x ∉ head_ s :: (L1 ++ L2).*1.
Proof.
  intros Hok Hv Hh H1 H2. unfold NewNode.
  destruct (AllocateAligned _ (arena_ s)) as [x a] eqn:E.
  apply AllocateAligned_ok in E as (Hlive & Hx & _ & Hold & Hnew);
    [|apply Hok|unfold sizeof_Node, sizeof_atomic_ptr, kMaxHeight in *; lia].
  destruct (Hnew x) as [Hfresh Hused]; [unfold sizeof_Node, sizeof_atomic_ptr in *; lia|].
  assert (Hnone : nodes s !! x = None).
  { destruct (nodes s !! x) eqn:En; [|done]. destruct Hfresh. by apply (ok_used _ _ _ _ Hok); rewrite En. }
  pose proof (list_ok_fresh _ _ _ _ _ Hok Hnone) as Hout.
  set (s' := mkSkipList _ _ _ _ _). assert (Hkey : forall b, b <> x -> node_key_at s' b = node_key_at s b /\
    forall i, Node_Next s' b i = Node_Next s b i).
  { intros b Hb. unfold node_key_at, Node_Next. cbn [nodes s']. rewrite lookup_insert_ne by done. done. }
  split_and!; try done; [|by unfold tower; cbn [nodes s']; rewrite lookup_insert_eq; cbn; rewrite length_replicate].
  assert (Hne : forall ak, ak ∈ (head_ s, any_key) :: L1 ++ L2 -> ak.1 <> x).
  { intros ak Hak ->%eq_sym. apply Hout. change (ak.1 ∈ ((head_ s, any_key) :: L1 ++ L2).*1).
    by apply list_elem_of_fmap_2. }
  assert (Hne2 : x <> head_ s /\ x ∉ L1.*1 /\ x ∉ L2.*1) by (rewrite fmap_app in Hout; set_solver).
  destruct Hne2 as (Hxh & Hx1 & Hx2).
  destruct Hok. split; cbn [head_ max_height_ arena_ s']; try done.
  - rewrite fmap_app, fmap_cons. rewrite fmap_app in ok_nodup0, Hout. by apply (NoDup_splice x (head_ s :: L1.*1)).
  - rewrite fmap_app, fmap_cons in *. cbn [fst]. clear - ok_nonnull0 Hx. set_solver by lia.
  - rewrite set_linked_ne by done. done.
  - rewrite Forall_app, Forall_cons in *. cbn [fst]. rewrite set_linked_eq.
    rewrite !(Forall_set_linked (fun n => n <= max_height_ s)%nat) by done. split; [apply ok_linked0|split; [lia|apply ok_linked0]].
  - apply Forall_cons in ok_nodes0 as [Hn0 Hn]. apply Forall_app in Hn as [Hn1 Hn2].
    assert (Hlift : forall ak, ak.1 <> x -> node_key_at s ak.1 = Some ak.2 -> node_key_at s' ak.1 = Some ak.2).
    { intros ak Hak ?. by rewrite (proj1 (Hkey _ Hak)). }
    rewrite Forall_forall in Hn1, Hn2. apply Forall_cons. split; [apply Hlift; [cbn; congruence|done]|].
    apply Forall_app. split; [|apply Forall_cons; split].
    + apply Forall_forall. intros ak Hak. apply Hlift; [apply Hne; set_solver|by apply Hn1].
    + unfold node_key_at. cbn [nodes s']. by rewrite lookup_insert_eq.
    + apply Forall_forall. intros ak Hak. apply Hlift; [apply Hne; set_solver|by apply Hn2].
  - intros p b k q i Heq Hi. destruct (decide (b = x)) as [->|Hb].
    { rewrite set_linked_eq in Hi. lia. }
    rewrite (proj2 (Hkey b Hb)). rewrite set_linked_ne in Hi by done. rewrite app_comm_cons in Heq.
    apply split_around in Heq as [(q' & Hq' & ->)|[(_ & [= -> _] & _)|(p' & -> & HL2)]]; [|done|].
    + rewrite (ok_links0 p b k (q' ++ L2)); [|by rewrite app_comm_cons, Hq', <- app_assoc|done]. f_equal.
      assert (x ∉ q'.*1).
      { assert (x ∉ ((head_ s, any_key) :: L1).*1) as Hni by set_solver. rewrite Hq', fmap_app in Hni. set_solver. }
      by rewrite first_linked_splice.
    + rewrite (ok_links0 ((head_ s, any_key) :: L1 ++ p') b k q); [|by rewrite HL2, <- app_comm_cons, app_assoc|done].
      f_equal. symmetry. apply first_linked_set. rewrite HL2, fmap_app in Hx2. set_solver.
  - by apply sorted_splice.
  - rewrite Forall_app, Forall_cons in *. split; [apply ok_valid0|split; [done|apply ok_valid0]].
  - intros b [n Hn]. cbn [nodes s'] in Hn. destruct (decide (b = x)) as [->|]; [done|].
    rewrite lookup_insert_ne in Hn by done. apply Hold, ok_used0. by exists n.
Qed.

(** ** The inserting thread, one store at a time *)

(** Between two calls, about to store [x->next_[i]], or about to publish [x]
    at level [i]. *)
Inductive writer :=
  | WIdle
  | WForward (x : Z) (prev : list (option Z)) (i h : nat)
  | WPublish (x : Z) (prev : list (option Z)) (i h : nat).

Definition writer_after (x : Z) (prev : list (option Z)) (i h : nat) : writer :=
  if decide (S i < h)%nat then WForward x prev (S i) h else WIdle.

(** The keys [Insert] may be called with: nothing equal is in the list. *)
Definition insertable (L : list (Z * Key)) key : Prop :=
  valid key /\ Forall (fun ak => compare_ ak.2 key <> 0) L.

(** All other nodes are linked; [x] is linked below level [i], and [prev]
    holds its predecessors from there on. *)
Record linking_ok s any_key (L : list (Z * Key)) (linked : Z -> nat) (x : Z) (prev : list (option Z)) (i h : nat)
    (key : Key) (L1 L2 : list (Z * Key)) : Prop := {
  linking_list : L = L1 ++ (x, key) :: L2;
  linking_others : Forall (fun ak => 1 <= linked ak.1)%nat (L1 ++ L2);
  linking_x : linked x = i;
  linking_tower : tower s x = Some h;
  linking_height : (i < h <= max_height_ s)%nat;
  linking_prev j : (i <= j < h)%nat ->
    exists y, prev !! j = Some (Some y) /\ pred_at s any_key L1 linked j y;
}.

Definition writer_ok s any_key L linked (w : writer) : Prop :=
  match w with
  | WIdle => Forall (fun ak => 1 <= linked ak.1)%nat L
  | WForward x prev i h => exists key L1 L2, linking_ok s any_key L linked x prev i h key L1 L2
  | WPublish x prev i h => exists key L1 L2, linking_ok s any_key L linked x prev i h key L1 L2 /\
      Node_Next s x i = Some (first_linked linked i L2)
  end.

Lemma raise_height_ok s any_key L L1 L2 linked h prev :
  list_ok s any_key L linked -> L = L1 ++ L2 -> (1 <= h <= kMaxHeight)%nat -> length prev = kMaxHeight ->
  (forall i, (i < max_height_ s)%nat -> exists y, prev !! i = Some (Some y) /\ pred_at s any_key L1 linked i y) ->
  let '(prev', s') := raise_height s h prev in
  list_ok s' any_key L linked /\ (h <= max_height_ s')%nat /\ nodes s' = nodes s /\
  forall i, (i < h)%nat -> exists y, prev' !! i = Some (Some y) /\ pred_at s' any_key L1 linked i y.
Proof.
  intros Hok HL Hh Hlen Hprev. unfold raise_height.
  destruct (decide (max_height_ s < h)%nat) as [Hr|Hr]; cbn [max_height_ nodes].
  - split_and!; [|lia|done|].
    + destruct Hok. split; try done; cbn [max_height_]. eapply Forall_impl; [exact ok_linked0|]. cbn. lia.
    + intros i Hi. destruct (raise_height_prev (head_ s) (max_height_ s) (h - max_height_ s) prev i) as [_ Hlk]; [lia|].
      cbn zeta in Hlk. rewrite Hlk. destruct (decide _) as [Hi'|Hi'].
      * exists (head_ s). split; [done|].
        by eapply (pred_at_ext s); [done|done|eapply pred_at_head; [exact Hok|exact HL|lia]].
      * destruct (Hprev i) as (y & Hy & Hp); [lia|]. exists y. split; [done|]. by eapply (pred_at_ext s).
  - split_and!; [done|lia|done|]. intros i Hi. apply Hprev. lia.
Qed.

Lemma Insert_prepare_ok s any_key L linked key :
  list_ok s any_key L linked -> Forall (fun ak => 1 <= linked ak.1)%nat L -> insertable L key ->
  exists x h prev s', Insert_prepare s key = Some (x, h, prev, s') /\ head_ s' = head_ s /\ x ∉ head_ s :: L.*1 /\
    list_ok s' any_key (keys_before key L ++ (x, key) :: keys_from key L) (set_linked linked x 0) /\
    linking_ok s' any_key (keys_before key L ++ (x, key) :: keys_from key L) (set_linked linked x 0)
      x prev 0 h key (keys_before key L) (keys_from key L).
Proof.
  intros Hok Hl [Hv Hins]. unfold Insert_prepare, FindGreaterOrEqual.
  pose proof (ok_split _ _ _ _ key Hok Hv) as HL.
  destruct (search_from_head _ _ _ _ _ _ _ Hok (splits_after _ _ _ _ key Hok Hv) (Some (replicate kMaxHeight None)))
    as (x0 & a & -> & _ & _ & Ha). cbn [mbind option_bind].
  destruct (Ha _ eq_refl) as (prev & -> & Hlen & Hprev). cbn [mbind option_bind]. rewrite length_replicate in *.
  pose proof (RandomHeight_range (rnd_ s)) as Hh. destruct (RandomHeight (rnd_ s)) as [h rnd] eqn:Er. cbn [fst] in Hh.
  set (s1 := mkSkipList (arena_ s) (nodes s) (head_ s) (max_height_ s) rnd).
  assert (list_ok s1 any_key L linked) as Hok1 by (destruct Hok; split; done).
  pose proof (raise_height_ok s1 any_key L _ _ linked h prev Hok1 HL Hh Hlen) as Hraise.
  destruct (raise_height s1 h prev) as [prev2 s2] eqn:E2. destruct Hraise as (Hok2 & Hmax & Hn2 & Hprev2).
  { intros i Hi. destruct (Hprev i) as (y & Hy & Hp); [pose proof (ok_height _ _ _ _ Hok); cbn in Hi; lia|].
    exists y. split; [done|]. by eapply (pred_at_ext s). }
  assert (head_ s2 = head_ s) as Hhead.
  { unfold raise_height in E2. destruct (decide _) in E2; by injection E2 as _ <-. }
  rewrite HL in Hok2.
  pose proof (NewNode_ok s2 any_key _ _ linked key h Hok2 Hv Hh (Forall_keys_before key L)) as Hnew.
  destruct (NewNode s2 key h) as [x s3]. destruct Hnew as (Hok3 & Ht3 & Hh3 & Hm3 & Hx3).
  { pose proof (Forall_keys_from key L) as Hf. pose proof (ok_valid _ _ _ _ Hok) as Hval.
    rewrite HL, Forall_app in Hins, Hval. destruct Hins as [_ Hins], Hval as [_ Hval].
    rewrite Forall_forall in *. intros ak Hak.
    specialize (Hf ak Hak); specialize (Hins ak Hak); specialize (Hval ak Hak); cbn in *.
    apply key_antisym; [done|done|lia]. }
  exists x, h, prev2, s3. rewrite Hhead, <- HL in Hx3. split_and!; [done|congruence|done|done|].
  assert (Hx12 : x ∉ head_ s2 :: (keys_before key L).*1).
  { rewrite HL, fmap_app in Hx3. rewrite Hhead. set_solver. }
  split; [done| |by rewrite set_linked_eq|done|rewrite Hm3; lia|].
  - rewrite <- HL. apply (Forall_set_linked (fun n => 1 <= n)%nat); [|done]. set_solver.
  - intros j Hj. destruct (Hprev2 j) as (y & Hy & Hp); [lia|]. exists y. split; [done|].
    eapply (pred_at_ext s2); [done| |done]. intros b Hb. apply set_linked_ne. intros ->. done.
Qed.

Lemma writer_forward s any_key L linked x prev i h :
  list_ok s any_key L linked -> writer_ok s any_key L linked (WForward x prev i h) ->
  exists s', link_forward x prev i s = Some s' /\ same_frame s s' /\ list_ok s' any_key L linked /\
    writer_ok s' any_key L linked (WPublish x prev i h).
Proof.
  intros Hok (key & L1 & L2 & []). subst L. destruct (linking_prev0 i) as (y & Hy & Hp); [lia|].
  destruct (link_forward_ok s any_key key L1 L2 linked x y prev i Hok linking_x0 Hy Hp h)
    as (s' & Hs & Hfr & Hok' & Hn); [done|lia|].
  exists s'. split_and!; [done|done|done|]. exists key, L1, L2. split; [|done].
  destruct Hfr. split; try done; [congruence|congruence|]. intros j Hj. destruct (linking_prev0 j Hj) as (z & Hz & Hpz).
  exists z. split; [done|]. by eapply (pred_at_ext s).
Qed.

Lemma writer_publish s any_key L linked x prev i h :
  list_ok s any_key L linked -> writer_ok s any_key L linked (WPublish x prev i h) ->
  exists s', link_publish x prev i s = Some s' /\ same_frame s s' /\
    list_ok s' any_key L (set_linked linked x (S i)) /\
    writer_ok s' any_key L (set_linked linked x (S i)) (writer_after x prev i h) /\
    linked x = i.
Proof.
  intros Hok (key & L1 & L2 & [] & Hn). subst L. destruct (linking_prev0 i) as (y & Hy & Hp); [lia|].
  destruct (link_publish_ok s any_key key L1 L2 linked x y prev i Hok linking_x0 Hy Hp)
    as (s' & Hs & Hfr & Hok'); [lia|done|].
  destruct (linking_distinct s any_key key L1 L2 linked x y prev i Hok linking_x0 Hy Hp) as (Hxh & Hx1 & Hx2 & _).
  assert (Hoth : Forall (fun ak => 1 <= set_linked linked x (S i) ak.1)%nat (L1 ++ L2)).
  { apply (Forall_set_linked (fun n => 1 <= n)%nat); [|done]. rewrite fmap_app. set_solver. }
  exists s'. split_and!; [done|done|done| |done]. unfold writer_after.
  destruct (decide (S i < h)%nat) as [Hi|Hi]; cbn [writer_ok].
  - exists key, L1, L2. destruct Hfr. split; try done.
    + by rewrite set_linked_eq.
    + congruence.
    + rewrite frame_height0. lia.
    + intros j Hj. destruct (linking_prev0 j) as (z & Hz & Hpz); [lia|]. exists z. split; [done|].
      eapply (pred_at_ext s); [done| |exact Hpz]. intros b Hb. apply set_linked_ne. intros ->. set_solver.
  - apply Forall_app in Hoth as [??]. apply Forall_app. split; [done|]. constructor; [|done].
    cbn. rewrite set_linked_eq. lia.
Qed.

(** The loop of [Insert] is a run of these stores. *)
Lemma insert_loop_ok n s any_key L linked x prev i h : (i + n = h)%nat -> (0 < n)%nat ->
  list_ok s any_key L linked -> writer_ok s any_key L linked (WForward x prev i h) ->
  exists s' linked', for_levels (fun i s => s ← link_forward x prev i s; link_publish x prev i s) n i s = Some s' /\
    list_ok s' any_key L linked' /\ Forall (fun ak => 1 <= linked' ak.1)%nat L.
Proof.
  revert s linked i. induction n as [|n IH]; intros s linked i Hn Hpos Hok Hw; [lia|].
  cbn [for_levels]. destruct (writer_forward _ _ _ _ _ _ _ _ Hok Hw) as (s1 & -> & Hf1 & Hok1 & Hw1).
  cbn [mbind option_bind]. destruct (writer_publish _ _ _ _ _ _ _ _ Hok1 Hw1) as (s2 & -> & Hf2 & Hok2 & Hw2 & _).
  cbn [mbind option_bind]. unfold writer_after in Hw2. destruct (decide (S i < h)%nat) as [Hi|Hi].
  - eapply (IH s2 _ (S i)); [lia|lia|exact Hok2|exact Hw2].
  - assert (n = 0)%nat as -> by lia. exists s2, (set_linked linked x (S i)).
    split; [done|]. split; [exact Hok2|exact Hw2].
Qed.

(** ** What the list contains *)

(** Walking the lowest level. *)
Fixpoint walk (fuel : nat) s (a : Z) : option (list (Z * Key)) :=
  if a =? 0 then Some [] else
  match fuel with
  | O => None
  | S fuel => k ← node_key_at s a; n ← Node_Next s a 0; r ← walk fuel s n; Some ((a, k) :: r)
  end.

Definition contents s : option (list (Z * Key)) :=
  n ← Node_Next s (head_ s) 0; walk (size (nodes s)) s n.

Lemma visible_app linked L1 L2 : visible linked (L1 ++ L2) = visible linked L1 ++ visible linked L2.
Proof. apply filter_app. Qed.

Lemma visible_none linked L : Forall (fun ak => linked ak.1 <= 0)%nat L -> visible linked L = [].
Proof. intros Hl. apply filter_none. eapply Forall_impl; [exact Hl|]. cbn. lia. Qed.

Lemma visible_all linked L : Forall (fun ak => 1 <= linked ak.1)%nat L -> visible linked L = L.
Proof. intros Hl. apply filter_all. eapply Forall_impl; [exact Hl|]. cbn. lia. Qed.

Lemma walk_ok fuel s any_key L linked p b k q : list_ok s any_key L linked ->
  (head_ s, any_key) :: L = p ++ (b, k) :: q -> (length q <= fuel)%nat ->
  walk fuel s (first_linked linked 0 q) = Some (visible linked q).
Proof.
  intros Hok. revert p b k q. induction fuel as [|fuel IH]; intros p b k q Hp Hf.
  { by destruct q; [|cbn in Hf; lia]. }
  destruct (first_linked_cases linked 0 q) as [(q1 & a & ka & q2 & Hq & Ha & Hq1 & Hfl)|Hq].
  - specialize (Hfl []). rewrite app_nil_r in Hfl. rewrite Hfl.
    assert ((a, ka) ∈ L) as Hin.
    { destruct p as [|y p]; [injection Hp as _ _ ->|injection Hp as _ ->]; rewrite Hq; set_solver. }
    destruct (ok_key_at _ _ _ _ _ _ Hok Hin) as [Hk Ha0]. cbn [walk].
    rewrite (proj2 (Z.eqb_neq a 0) Ha0), Hk. cbn [mbind option_bind].
    assert (Hp' : (head_ s, any_key) :: L = (p ++ (b, k) :: q1) ++ (a, ka) :: q2)
      by by rewrite Hp, Hq, <- app_assoc.
    rewrite (ok_links _ _ _ _ Hok _ _ _ _ 0 Hp' Ha). cbn [mbind option_bind].
    rewrite (IH _ _ _ _ Hp') by (rewrite Hq, length_app in Hf; cbn in Hf; lia). cbn [mbind option_bind].
    rewrite Hq, visible_app, (visible_none linked q1) by done. unfold visible at 2. rewrite filter_cons.
    cbn [fst]. by rewrite decide_True.
  - pose proof (first_linked_none linked 0 q [] Hq) as Hfl. rewrite app_nil_r in Hfl. rewrite Hfl.
    by rewrite visible_none.
Qed.

Lemma contents_ok s any_key L linked : list_ok s any_key L linked -> contents s = Some (visible linked L).
Proof.
  intros Hok. unfold contents.
  rewrite (ok_links _ _ _ _ Hok [] (head_ s) any_key L 0) by (done || rewrite (ok_head _ _ _ _ Hok); unfold kMaxHeight; lia).
  cbn [mbind option_bind]. eapply (walk_ok _ s any_key L linked []); [done|done|].
  pose proof (length_le_nodes s any_key L linked Hok). lia.
Qed.

(** * Sequential behaviour *)

(** No insertion is under way, and the nodes are [L]. *)
Definition quiescent s (L : list (Z * Key)) : Prop :=
  exists any_key linked, list_ok s any_key L linked /\ Forall (fun ak => 1 <= linked ak.1)%nat L.

Lemma quiescent_contents s L : quiescent s L -> contents s = Some L.
Proof. intros (any_key & linked & Hok & Hl). rewrite (contents_ok _ _ _ _ Hok). by rewrite visible_all. Qed.

Lemma Insert_ok s L key : quiescent s L -> insertable L key ->
  exists s' x, SkipList_Insert s key = Some s' /\ quiescent s' (keys_before key L ++ (x, key) :: keys_from key L).
Proof.
  intros (any_key & linked & Hok & Hl) Hins.
  destruct (Insert_prepare_ok s any_key L linked key Hok Hl Hins) as (x & h & prev & s1 & Hprep & _ & _ & Hok1 & Hlk).
  pose proof (linking_height _ _ _ _ _ _ _ _ _ _ _ Hlk).
  destruct (insert_loop_ok h s1 any_key _ _ x prev 0 h eq_refl ltac:(lia) Hok1) as (s2 & linked2 & Hs2 & Hok2 & Hl2).
  { by exists key, (keys_before key L), (keys_from key L). }
  exists s2, x. unfold SkipList_Insert. rewrite Hprep. cbn [mbind option_bind]. split; [done|].
  by exists any_key, linked2.
Qed.

(** Another use of the shared arena. *)
Definition set_arena s (a : A) : SkipList Key A := mkSkipList a (nodes s) (head_ s) (max_height_ s) (rnd_ s).

Lemma quiescent_arena s L a : quiescent s L -> live a -> (forall x, used (arena_ s) x -> used a x) ->
  quiescent (set_arena s a) L.
Proof.
  intros (any_key & linked & Hok & Hl) Ha Hu. exists any_key, linked. split; [|done].
  destruct Hok. split; try done. intros b Hb. by apply Hu, ok_used0.
Qed.

Lemma new_loop_ok n i (x : Z) s h : tower s x = Some h -> (i + n <= h)%nat ->
  exists s', for_levels (fun i s => Node_SetNext s x i 0) n i s = Some s' /\ same_frame s s' /\
    forall j, Node_Next s' x j = if decide (i <= j < i + n)%nat then Some 0 else Node_Next s x j.
Proof.
  revert i s. induction n as [|n IH]; intros i s Ht Hi; cbn [for_levels].
  { exists s. split; [done|]. split; [done|]. intros j. by rewrite decide_False by lia. }
  destruct (Node_SetNext_ok s x i 0 h Ht) as (s1 & -> & Hfr & Hn); [lia|]. cbn [mbind option_bind].
  destruct (IH (S i) s1) as (s2 & -> & Hfr2 & Hn2); [destruct Hfr; congruence|lia|].
  exists s2. split; [done|]. split; [by eapply same_frame_trans|]. intros j. rewrite Hn2, Hn.
  destruct (decide (S i <= j < S i + n)%nat); [by rewrite decide_True by lia|].
  destruct (decide (j = i)) as [->|]; [by rewrite !decide_True by lia|].
  by rewrite !decide_False by naive_solver lia.
Qed.

Lemma SkipList_new_ok any_key arena : live arena ->
  exists s, SkipList_new any_key arena = Some s /\ quiescent s [].
Proof.
  intros Hlive. unfold SkipList_new, NewNode. cbn [arena_ nodes head_ max_height_ rnd_].
  destruct (AllocateAligned _ arena) as [x a] eqn:E.
  apply AllocateAligned_ok in E as (Hlive' & Hx & _ & Hold & Hnew); [|done|by unfold sizeof_Node, sizeof_atomic_ptr, kMaxHeight].
  cbn [arena_ nodes head_ max_height_ rnd_].
  set (s0 := mkSkipList a _ x 1 _). assert (Ht : tower s0 x = Some kMaxHeight).
  { unfold tower. cbn [nodes s0]. by rewrite lookup_insert_eq. }
  destruct (new_loop_ok kMaxHeight 0 x s0 kMaxHeight Ht ltac:(lia)) as (s & -> & Hfr & Hn).
  exists s. split; [done|]. destruct Hfr. exists any_key, (fun _ => kMaxHeight). split; [|constructor].
  split; rewrite ?frame_head0, ?frame_height0, ?frame_arena0; cbn [head_ max_height_ arena_ s0].
  - cbn. constructor; [set_solver|constructor].
  - cbn. set_solver by lia.
  - done.
  - unfold kMaxHeight. lia.
  - constructor.
  - constructor; [|constructor]. cbn [fst snd]. rewrite frame_key0. unfold node_key_at. cbn [nodes s0].
    by rewrite lookup_insert_eq.
  - intros p b k q i Heq Hi. destruct p as [|y p]; [|by destruct p]. injection Heq as -> -> <-.
    rewrite Hn, decide_True by lia. done.
  - constructor.
  - constructor.
  - done.
  - intros b. rewrite is_Some_tower, frame_tower0, <- is_Some_tower. cbn [nodes s0]. intros [n Hb].
    apply lookup_insert_Some in Hb as [[<- _]|[_ Hb]]; [|by rewrite lookup_empty in Hb].
    apply Hnew. unfold sizeof_Node, sizeof_atomic_ptr, kMaxHeight. lia.
Qed.

(** ** Positions *)

(** The address of the [n]-th node; 0 past the end. *)
Definition addr (L : list (Z * Key)) (n : nat) : Z := default 0 (fst <$> L !! n).

Lemma addr_app (L1 L2 : list (Z * Key)) : addr (L1 ++ L2) (length L1) = addr L2 0.
Proof. unfold addr. by rewrite lookup_app_r, Nat.sub_diag by lia. Qed.

Lemma first_linked_addr linked q : Forall (fun ak => 1 <= linked ak.1)%nat q -> first_linked linked 0 q = addr q 0.
Proof. intros Hq. rewrite first_linked_0, visible_all by done. by destruct q. Qed.

Lemma quiescent_next s L n : quiescent s L -> (n < length L)%nat -> Node_Next s (addr L n) 0 = Some (addr L (S n)).
Proof.
  intros (any_key & linked & Hok & Hl) Hn.
  destruct (lookup_lt_is_Some_2 L n Hn) as [[a k] Hak]. assert (addr L n = a) as -> by (unfold addr; by rewrite Hak).
  pose proof (take_drop_middle L n _ Hak) as HL.
  rewrite (ok_links _ _ _ _ Hok ((head_ s, any_key) :: take n L) a k (drop (S n) L) 0).
  - rewrite first_linked_addr by (by apply Forall_drop). unfold addr. rewrite lookup_drop, Nat.add_0_r. done.
  - cbn [app]. by rewrite HL.
  - rewrite Forall_forall in Hl. specialize (Hl (a, k)). cbn in Hl. apply list_elem_of_lookup_2 in Hak. specialize (Hl Hak). lia.
Qed.

Lemma quiescent_first s L : quiescent s L -> Node_Next s (head_ s) 0 = Some (addr L 0).
Proof.
  intros (any_key & linked & Hok & Hl).
  rewrite (ok_links _ _ _ _ Hok [] (head_ s) any_key L 0) by (done || rewrite (ok_head _ _ _ _ Hok); unfold kMaxHeight; lia).
  by rewrite first_linked_addr.
Qed.

(** The last node that is linked at all is the last one. *)
Lemma pred_at_last s any_key L1 linked x : Forall (fun ak => 1 <= linked ak.1)%nat L1 ->
  pred_at s any_key L1 linked 0 x ->
  x = match L1 with [] => head_ s | _ => addr L1 (length L1 - 1) end.
Proof.
  intros Hl (p & k & q & Hp & _ & Hq).
  assert (q = []) as ->.
  { destruct q as [|ak q]; [done|exfalso]. apply Forall_cons in Hq as [Hak _].
    assert (ak ∈ L1) as Hin.
    { destruct p as [|y p]; [injection Hp as _ _ ->|injection Hp as _ ->]; set_solver. }
    rewrite Forall_forall in Hl. specialize (Hl _ Hin). cbn in Hl. lia. }
  destruct p as [|y p]; [by injection Hp as -> _ ->|]. injection Hp as _ ->.
  destruct (p ++ [(x, k)]) eqn:E; [by destruct p|]. rewrite <- E. unfold addr. rewrite length_app. cbn [length].
  rewrite lookup_app_r by lia. by replace (length p + 1 - 1 - length p)%nat with 0%nat by lia.
Qed.

Lemma addr_head s L n : quiescent s L -> (n < length L)%nat -> addr L n <> head_ s /\ addr L n <> 0 /\
  exists k, L !! n = Some (addr L n, k) /\ node_key_at s (addr L n) = Some k.
Proof.
  intros (any_key & linked & Hok & Hl) Hn. destruct (lookup_lt_is_Some_2 L n Hn) as [[a k] Hak].
  unfold addr. rewrite Hak. cbn. pose proof (list_elem_of_lookup_2 _ _ _ Hak) as Hin.
  destruct (ok_key_at _ _ _ _ _ _ Hok Hin) as [Hk Ha]. split_and!; [|done|by exists k].
  intros ->. pose proof (ok_nodup _ _ _ _ Hok) as Hnd. apply NoDup_cons in Hnd as [Hnd _]. apply Hnd.
  change (head_ s) with (head_ s, k).1. by apply list_elem_of_fmap_2.
Qed.

Lemma keys_before_take L n k a : L !! n = Some (a, k) -> Forall (fun ak => valid ak.2) L -> StronglySorted key_lt L ->
  keys_before k L = take n L.
Proof.
  intros Hak Hv Hs. rewrite <- (take_drop_middle L n _ Hak) at 1. unfold keys_before. rewrite filter_app, filter_cons.
  assert (Hvk : valid k) by (rewrite Forall_forall in Hv; apply (Hv (a, k)); by eapply list_elem_of_lookup_2).
  rewrite <- (take_drop_middle L n _ Hak) in Hs, Hv. rewrite Forall_app, Forall_cons in Hv. cbn [snd] in *.
  rewrite decide_False by (rewrite key_compare_refl by done; lia).
  assert (Forall (fun ak => compare_ ak.2 k < 0) (take n L) /\ Forall (fun ak => compare_ k ak.2 < 0) (drop (S n) L)) as [H1 H2].
  { clear - Hs. induction (take n L) as [|b l IH]; cbn [app] in Hs.
    - apply StronglySorted_inv in Hs as [_ Hf]. split; [constructor|done].
    - apply StronglySorted_inv in Hs as [Hs Hf]. destruct (IH Hs). split; [|done]. constructor; [|done].
      apply Forall_app in Hf as [_ Hf]. by apply Forall_cons in Hf as [Hf _]. }
  rewrite filter_all by done. rewrite filter_none; [by rewrite app_nil_r|].
  destruct Hv as (_ & _ & Hv). rewrite Forall_forall in *. intros ak Hin Hlt. specialize (H2 _ Hin). cbn in *.
  apply key_antisym in H2; [lia|done|by apply (Hv _ Hin)].
Qed.

(** The iterator moves as an index into the sorted list does. *)
Lemma iterator_moves s L n target : quiescent s L ->
  Iter_SeekToFirst s = Some (addr L 0) /\
  Iter_SeekToLast s = Some (addr L (length L - 1)) /\
  (valid target -> Iter_Seek s target = Some (addr L (length (keys_before target L)))) /\
  ((n < length L)%nat ->
     Iter_Next s (addr L n) = Some (addr L (S n)) /\
     Iter_Prev s (addr L n) = Some (match n with O => 0 | S m => addr L m end)).
Proof.
  intros Hq. pose proof Hq as (any_key & linked & Hok & Hl).
  assert (Hback : forall L1 x, (exists L2, L = L1 ++ L2) -> pred_at s any_key L1 linked 0 x ->
    (if x =? head_ s then 0 else x) = match L1 with [] => 0 | _ => addr L (length L1 - 1) end).
  { intros L1 x [L2 HL] Hp. rewrite HL in Hl. apply Forall_app in Hl as [Hl1 _].
    apply pred_at_last in Hp; [|done]. destruct L1 as [|ak L1']; [subst x; by rewrite Z.eqb_refl|].
    set (m := (length (ak :: L1') - 1)%nat) in *. assert (m < length (ak :: L1'))%nat by (unfold m; cbn; lia).
    assert (addr (ak :: L1') m = addr L m) as Ha by (unfold addr; rewrite HL, lookup_app_l; [done|done]).
    rewrite Ha in Hp. destruct (addr_head s L m Hq) as [Hh _]; [rewrite HL, length_app; lia|].
    subst x. by rewrite (proj2 (Z.eqb_neq _ _) Hh). }
  split_and!.
  - by apply quiescent_first.
  - unfold Iter_SeekToLast, FindLast.
    destruct (search_from_head _ _ _ _ _ _ _ Hok (splits_last _ _ _ _ Hok) None) as (x & a & -> & Hp & _).
    cbn [mbind option_bind]. rewrite (Hback L x); [by destruct L|by exists []; rewrite app_nil_r|done].
  - intros Hv. unfold Iter_Seek, FindGreaterOrEqual. pose proof (splits_after _ _ _ _ target Hok Hv) as Hsp.
    destruct (search_from_head _ _ _ _ _ _ _ Hok Hsp None) as (x & a & -> & Hp & _).
    cbn [mbind option_bind fmap option_fmap option_map fst]. f_equal. pose proof (splits_app _ _ _ _ _ Hsp) as HL.
    rewrite HL, Forall_app in Hl. rewrite first_linked_addr by apply Hl.
    by rewrite <- (addr_app (keys_before target L)), <- HL.
  - intros Hn. split; [by apply quiescent_next|]. unfold Iter_Prev.
    destruct (addr_head s L n Hq Hn) as (_ & _ & k & Hak & ->). cbn [mbind option_bind]. unfold FindLessThan.
    assert (Hvk : valid k).
    { pose proof (ok_valid _ _ _ _ Hok) as Hval. rewrite Forall_forall in Hval. apply (Hval (addr L n, k)).
      by eapply list_elem_of_lookup_2. }
    destruct (search_from_head _ _ _ _ _ _ _ Hok (splits_less_than _ _ _ _ k Hok Hvk) None) as (x & a & -> & Hp & _).
    cbn [mbind option_bind]. rewrite (keys_before_take L n k _ Hak) in Hp by apply Hok.
    rewrite (Hback (take n L) x); [|exists (drop n L); by rewrite take_drop|done].
    destruct n as [|n]; [done|]. destruct (take (S n) L) eqn:E; [destruct L; [cbn in Hn; lia|done]|].
    rewrite <- E, length_take_le by lia. do 2 f_equal. lia.
Qed.

(** ** Refinement of a sorted set *)

Lemma Contains_ok s L key : quiescent s L -> valid key ->
  SkipList_Contains s key = Some (existsb (fun ak => Equal key ak.2) L).
Proof.
  intros Hq Hv. pose proof Hq as (any_key & linked & Hok & Hl).
  pose proof (splits_after _ _ _ _ key Hok Hv) as Hsp. pose proof (ok_valid _ _ _ _ Hok) as Hval.
  unfold SkipList_Contains, FindGreaterOrEqual.
  destruct (search_from_head _ _ _ _ _ _ _ Hok Hsp None) as (x & a & -> & _). cbn [mbind option_bind].
  pose proof (splits_app _ _ _ _ _ Hsp) as HL. pose proof (Forall_keys_before key L) as Hb.
  pose proof (Forall_keys_from key L) as Hf. pose proof (ok_sorted _ _ _ _ Hok) as Hs.
  rewrite HL in Hl, Hval, Hs. apply Forall_app in Hl as [_ Hl], Hval as [Hval1 Hval2].
  assert (Hno : forall l, Forall (fun ak : Z * Key => valid ak.2) l -> Forall (fun ak => compare_ ak.2 key <> 0) l ->
    existsb (fun ak : Z * Key => Equal key ak.2) l = false).
  { intros l Hvl Hl'. apply not_true_iff_false. rewrite existsb_exists. intros (ak & Hin & Heq).
    apply list_elem_of_In in Hin. rewrite Forall_forall in *. specialize (Hvl _ Hin). specialize (Hl' _ Hin). cbn in *.
    unfold Equal in Heq. apply Z.eqb_eq in Heq.
    pose proof (key_antisym key ak.2 Hv Hvl). pose proof (key_antisym ak.2 key Hvl Hv). lia. }
  replace (existsb (fun ak => Equal key ak.2) L)
    with (existsb (fun ak => Equal key ak.2) (keys_before key L ++ keys_from key L)) by by rewrite <- HL.
  rewrite existsb_app, (Hno (keys_before key L)); [|done|eapply Forall_impl; [exact Hb|cbn; lia]].
  cbn [orb]. rewrite first_linked_addr by done. destruct (keys_from key L) as [|[b k] l] eqn:E; [done|].
  change (addr ((b, k) :: l) 0) with b. destruct (ok_key_at _ _ _ _ b k Hok) as [-> Hb0]; [rewrite HL; set_solver|].
  rewrite (proj2 (Z.eqb_neq b 0) Hb0). cbn [mbind option_bind existsb snd].
  destruct (Equal key k) eqn:Ek; [done|]. cbn [orb]. rewrite Hno; [done|by apply Forall_cons in Hval2 as [_ ?]|].
  assert (StronglySorted key_lt ((b, k) :: l)) as Hsl.
  { clear - Hs. induction (keys_before key L) as [|y l' IH]; [done|]. apply StronglySorted_inv in Hs as [Hs _]. auto. }
  apply StronglySorted_inv in Hsl as [_ Hsl]. apply Forall_cons in Hf as [Hfk _], Hval2 as [Hvk Hval2].
  rewrite Forall_forall in *. intros ak Hin. specialize (Hsl _ Hin). specialize (Hval2 _ Hin). unfold key_lt in Hsl. cbn in *.
  unfold Equal in Ek. apply Z.eqb_neq in Ek.
  pose proof (key_antisym key k Hv Hvk). pose proof (key_antisym k key Hvk Hv).
  pose proof (key_lt_le_trans key k ak.2 Hv Hvk Hval2 ltac:(lia) ltac:(lia)) as Hlt.
  apply key_antisym in Hlt; [lia|done|done].
Qed.

Fixpoint insert_all s (keys : list Key) : option (SkipList Key A) :=
  match keys with
  | [] => Some s
  | key :: keys => s ← SkipList_Insert s key; insert_all s keys
  end.

Lemma insert_all_ok keys s L : quiescent s L -> Forall valid keys ->
  ForallOrdPairs (fun a b => compare_ a b <> 0) keys ->
  Forall (fun ak => Forall (fun k => compare_ ak.2 k <> 0) keys) L ->
  exists s' L', insert_all s keys = Some s' /\ quiescent s' L' /\ L'.*2 ≡ₚ L.*2 ++ keys.
Proof.
  revert s L. induction keys as [|key keys IH]; intros s L Hq Hv Hd Hne; cbn [insert_all].
  { exists s, L. by rewrite app_nil_r. }
  apply Forall_cons in Hv as [Hvk Hv]. inversion Hd as [|?? Hdk Hd']; subst.
  destruct (Insert_ok s L key Hq) as (s1 & x & -> & Hq1).
  { split; [done|]. eapply Forall_impl; [exact Hne|]. intros ak Hak. by apply Forall_cons in Hak as [? _]. }
  cbn [mbind option_bind].
  assert (HL : L = keys_before key L ++ keys_from key L).
  { destruct Hq as (? & ? & Hok & _). by eapply ok_split. }
  destruct (IH s1 _ Hq1 Hv Hd') as (s' & L' & -> & Hq' & HP).
  - assert (Forall (fun ak => Forall (fun k => compare_ ak.2 k <> 0) keys) L) as Hne'.
    { eapply Forall_impl; [exact Hne|]. intros ak Hak. by apply Forall_cons in Hak as [_ ?]. }
    rewrite HL in Hne'. apply Forall_app in Hne' as [??]. apply Forall_app. split; [done|]. by constructor.
  - exists s', L'. split; [done|]. split; [done|]. rewrite HP, fmap_app, fmap_cons. cbn [snd].
    rewrite HL at 3. rewrite fmap_app, <- !app_assoc. cbn [app]. by rewrite Permutation_middle.
Qed.

(** C16: sequentially, the skip list is a sorted set.  Inserting any keys that
    are pairwise different for the comparator into a new list succeeds without
    an access outside a node's tower; the list then holds exactly those keys
    in increasing order, and [Contains] answers for every key whether an equal
    one was inserted, whatever heights the random generator chose. *)
Theorem SkipList_refines_sorted_set (any_key : Key) (arena : A) (keys : list Key) (key : Key) :
  live arena -> Forall valid keys -> ForallOrdPairs (fun a b => compare_ a b <> 0) keys -> valid key ->
  exists s L, (SkipList_new any_key arena ≫= fun s => insert_all s keys) = Some s /\
    contents s = Some L /\ StronglySorted (fun a b => compare_ a b < 0) L.*2 /\ L.*2 ≡ₚ keys /\
    SkipList_Contains s key = Some (existsb (Equal key) keys).
Proof.
  intros Hlive Hv Hd Hk. destruct (SkipList_new_ok any_key arena Hlive) as (s0 & -> & Hq0). cbn [mbind option_bind].
  destruct (insert_all_ok keys s0 [] Hq0 Hv Hd) as (s & L & -> & Hq & HP); [constructor|].
  exists s, L. cbn [fmap list_fmap app] in HP. split_and!; [done|by apply quiescent_contents| |done|].
  - destruct Hq as (? & ? & Hok & _). pose proof (ok_sorted _ _ _ _ Hok) as Hs. clear - Hs.
    induction Hs as [|ak L Hs IH Hf]; cbn; constructor; [done|]. by apply Forall_fmap.
  - rewrite (Contains_ok s L key Hq Hk). f_equal. apply eq_true_iff_eq. rewrite !existsb_exists. split.
    + intros (ak & Hin & Heq). exists ak.2. split; [|done]. apply list_elem_of_In. rewrite <- HP.
      apply list_elem_of_fmap_2. by apply list_elem_of_In.
    + intros (k & Hin & Heq). apply list_elem_of_In in Hin. rewrite <- HP in Hin.
      apply list_elem_of_fmap in Hin as (ak & -> & Hin). exists ak. split; [by apply list_elem_of_In|done].
Qed.

(** * Readers concurrent with an insertion *)

(** One store of the inserting thread, labelled with the key of the [Insert]
    that it begins.  [Insert]'s precondition is on the keys in the list when it
    starts; until the first publication only private memory and the height of
    the list change. *)
Inductive writer_step : list Key -> SkipList Key A * writer -> SkipList Key A * writer -> Prop :=
  | writer_prepare s key V x h prev s' :
      contents s = Some V -> insertable V key -> Insert_prepare s key = Some (x, h, prev, s') ->
      writer_step [key] (s, WIdle) (s', WForward x prev 0 h)
  | writer_store s x prev i h s' :
      link_forward x prev i s = Some s' -> writer_step [] (s, WForward x prev i h) (s', WPublish x prev i h)
  | writer_release s x prev i h s' :
      link_publish x prev i s = Some s' -> writer_step [] (s, WPublish x prev i h) (s', writer_after x prev i h).

(** The list, the inserting thread, where the reader stands (a node and a
    level), and the keys of the insertions begun so far. *)
Definition system : Type := SkipList Key A * writer * (Z * nat) * list Key.

(** A reader searching for [target] can start a search at any time, and each
    turn of its loop is one load. *)
Inductive system_step (target : Key) : system -> system -> Prop :=
  | system_writer s w r ks began s' w' :
      writer_step began (s, w) (s', w') -> system_step target (s, w, r, ks) (s', w', r, ks ++ began)
  | system_start s w r ks : system_step target (s, w, r, ks) (s, w, (search_start s None).1, ks)
  | system_reader s w x level x' level' prev ks :
      search_step (KeyIsAfterNode target) s (x, level, None) = Some (inl (x', level', prev)) ->
      system_step target (s, w, (x, level), ks) (s, w, (x', level'), ks).

(** *** Running a schedule *)

(** Which thread moves next, and how. *)
Inductive move := InsertBegins (key : Key) | WriterStores | ReaderStarts | ReaderLoads.

Definition move_valid (m : move) : Prop := match m with InsertBegins key => valid key | _ => True end.

Definition run_move (target : Key) (m : move) (st : system) : option system :=
  let '(s, w, r, ks) := st in
  match m, w with
  | InsertBegins key, WIdle =>
    V ← contents s;
    if forallb (fun ak => negb (compare_ ak.2 key =? 0)) V
    then '(x, h, prev, s) ← Insert_prepare s key; Some (s, WForward x prev 0 h, r, ks ++ [key])
    else None
  | WriterStores, WForward x prev i h => s ← link_forward x prev i s; Some (s, WPublish x prev i h, r, ks)
  | WriterStores, WPublish x prev i h => s ← link_publish x prev i s; Some (s, writer_after x prev i h, r, ks)
  | ReaderStarts, _ => Some (s, w, (search_start s None).1, ks)
  | ReaderLoads, _ =>
    match search_step (KeyIsAfterNode target) s (r, None) with
    | Some (inl (r, _)) => Some (s, w, r, ks)
    | _ => None
    end
  | _, _ => None
  end.

Fixpoint run_moves (target : Key) (ms : list move) (st : system) : option system :=
  match ms with
  | [] => Some st
  | m :: ms => st ← run_move target m st; run_moves target ms st
  end.

Lemma run_move_step target m st st' : move_valid m -> run_move target m st = Some st' -> system_step target st st'.
Proof.
  destruct st as [[[s w] [x level]] ks]. intros Hm. unfold run_move.
  destruct m as [key| | |]; [destruct w as [|x' prev i h|x' prev i h]; [|done..]| destruct w as [|x' prev i h|x' prev i h]; [done|..]| |].
  - destruct (contents s) as [V|] eqn:HV; [|done]. cbn [mbind option_bind].
    destruct (forallb _ V) eqn:Hd; [|done].
    destruct (Insert_prepare s key) as [[[[y h] prev] s']|] eqn:Hp; [|done]. intros [= <-].
    apply system_writer. eapply writer_prepare; [exact HV|split; [exact Hm|]|exact Hp].
    rewrite forallb_forall in Hd. apply Forall_forall. intros ak Hak%list_elem_of_In%Hd.
    by apply negb_true_iff, Z.eqb_neq in Hak.
  - destruct (link_forward x' prev i s) as [s'|] eqn:Hf; [|done]. intros [= <-].
    rewrite <- (app_nil_r ks) at 2. by apply system_writer, writer_store.
  - destruct (link_publish x' prev i s) as [s'|] eqn:Hf; [|done]. intros [= <-].
    rewrite <- (app_nil_r ks) at 2. by apply system_writer, writer_release.
  - intros [= <-]. apply system_start.
  - destruct (search_step _ s _) as [[[[y l] prev]|]|] eqn:Hr; [|done..]. intros [= <-]. by eapply system_reader.
Qed.

Lemma run_moves_steps target ms st st' : Forall move_valid ms -> run_moves target ms st = Some st' ->
  rtc (system_step target) st st'.
Proof.
  intros Hms. revert st. induction Hms as [|m ms Hm _ IH]; intros st; cbn [run_moves]; [by intros [= <-]|].
  destruct (run_move target m st) as [st1|] eqn:E; [|done]. intros H. eapply rtc_l; [by apply run_move_step in E|].
  by apply IH.
Qed.

(** *** The invariant *)

Definition reader_ok s any_key (L : list (Z * Key)) (linked : Z -> nat) (target : Key) (r : Z * nat) : Prop :=
  exists k, (r.1, k) ∈ (head_ s, any_key) :: keys_before target L /\ (r.2 < linked r.1)%nat.

(** The writer only adds nodes and links. *)
Lemma writer_step_ok ks s any_key L linked w s' w' :
  list_ok s any_key L linked -> writer_ok s any_key L linked w -> writer_step ks (s, w) (s', w') ->
  exists L' linked', list_ok s' any_key L' linked' /\ writer_ok s' any_key L' linked' w' /\ head_ s' = head_ s /\
    (forall ak, ak ∈ L -> ak ∈ L') /\ L'.*2 ≡ₚ L.*2 ++ ks /\
    (forall ak, ak ∈ (head_ s, any_key) :: L -> linked ak.1 <= linked' ak.1)%nat.
Proof.
  intros Hok Hw Hstep. inversion Hstep as [? key V x h prev ? HV Hins Hp|? x prev i h ? Hf|? x prev i h ? Hf]; subst.
  - cbn [writer_ok] in Hw. rewrite (contents_ok _ _ _ _ Hok), visible_all in HV by done. injection HV as <-.
    destruct (Insert_prepare_ok s any_key L linked key Hok Hw Hins) as (x' & h' & prev' & s1 & Heq & Hh & Hx & Hok1 & Hlk).
    rewrite Heq in Hp. injection Hp as -> -> -> ->.
    eexists _, _. split; [exact Hok1|]. split; [by eexists key, _, _|]. split; [done|].
    pose proof (ok_split _ _ _ _ key Hok (proj1 Hins)) as HL. split_and!.
    + intros ak. rewrite HL at 1. set_solver.
    + rewrite HL at 3. rewrite !fmap_app, fmap_cons. solve_Permutation.
    + intros ak Hak. rewrite set_linked_ne; [lia|]. intros <-. apply Hx.
      change (ak.1 ∈ ((head_ s, any_key) :: L).*1). by apply list_elem_of_fmap_2.
  - destruct (writer_forward _ _ _ _ _ _ _ _ Hok Hw) as (s1 & Heq & Hfr & Hok1 & Hw1).
    rewrite Heq in Hf. injection Hf as ->. exists L, linked. destruct Hfr. rewrite app_nil_r. by split_and!.
  - destruct (writer_publish _ _ _ _ _ _ _ _ Hok Hw) as (s1 & Heq & Hfr & Hok1 & Hw1 & Hx).
    rewrite Heq in Hf. injection Hf as ->. exists L, (set_linked linked x (S i)). destruct Hfr. rewrite app_nil_r. split_and!; try done.
    intros ak _. unfold set_linked. destruct (decide (ak.1 = x)) as [->|]; lia.
Qed.

Lemma reader_start_ok s any_key L linked target : list_ok s any_key L linked ->
  reader_ok s any_key L linked target (search_start s None).1.
Proof.
  intros Hok. exists any_key. cbn. split; [by left|]. rewrite (ok_head _ _ _ _ Hok).
  pose proof (ok_height _ _ _ _ Hok). lia.
Qed.

(** A turn of the reader from where it may stand. *)
Lemma reader_step_ok s any_key L linked target x level :
  list_ok s any_key L linked -> valid target -> reader_ok s any_key L linked target (x, level) ->
  match search_step (KeyIsAfterNode target) s (x, level, None) with
  | None => False
  | Some (inl (x', level', _)) => reader_ok s any_key L linked target (x', level')
  | Some (inr (_, next, _)) => next = first_linked linked 0 (keys_from target L)
  end.
Proof.
  intros Hok Hv (k & Hin & Hl). cbn [fst snd] in *. apply list_elem_of_split in Hin as (p & q & Hp).
  destruct (search_step_ok _ _ _ _ _ _ _ Hok (splits_after _ _ _ _ target Hok Hv) p x k q level None Hp Hl)
    as [(q1 & a & ka & q2 & -> & Ha & ->)|[Hq ->]].
  - exists ka. split; [|done]. rewrite Hp. set_solver.
  - destruct level as [|level]; cbn [fmap option_fmap option_map]; [done|].
    exists k. cbn. split; [rewrite Hp; set_solver|lia].
Qed.

(** The nodes of [V0] are visible, and the keys are those of [K0] and of the
    insertions begun. *)
Definition system_inv (target : Key) (V0 : list (Z * Key)) (K0 : list Key) (st : system) : Prop :=
  let '(s, w, r, ks) := st in
  exists any_key L linked, list_ok s any_key L linked /\ writer_ok s any_key L linked w /\
    reader_ok s any_key L linked target r /\ V0 ⊆ visible linked L /\ L.*2 ≡ₚ K0 ++ ks.

Lemma system_inv_step target V0 K0 st st' : valid target -> system_step target st st' ->
  system_inv target V0 K0 st -> system_inv target V0 K0 st'.
Proof.
  intros Hv Hstep. destruct Hstep as [s w r ks began s' w' Hw|s w r ks|s w x level x' level' prev ks Hr];
    intros (any_key & L & linked & Hok & Hwr & Hrd & HV0 & HK).
  - destruct (writer_step_ok _ _ _ _ _ _ _ _ Hok Hwr Hw) as (L' & linked' & Hok' & Hwr' & Hh & HL & HK' & Hlk).
    exists any_key, L', linked'. split_and!; [done|done| | |by rewrite HK', HK, <- app_assoc].
    + destruct Hrd as (k & Hin & Hl). exists k. rewrite Hh. split.
      * apply elem_of_cons in Hin as [->|Hin]; [by left|right]. unfold keys_before in *.
        apply list_elem_of_filter in Hin as [Hlt Hin]. apply list_elem_of_filter. split; [done|by apply HL].
      * eapply Nat.lt_le_trans; [exact Hl|]. apply (Hlk (r.1, k)).
        apply elem_of_cons in Hin as [->|Hin]; [by left|right]. by apply list_elem_of_filter in Hin as [_ Hin].
    + intros ak Hak. apply HV0 in Hak. unfold visible in *. apply list_elem_of_filter in Hak as [Hpos Hin].
      apply list_elem_of_filter. split; [|by apply HL]. specialize (Hlk ak ltac:(by right)). lia.
  - exists any_key, L, linked. split_and!; [done|done|by apply reader_start_ok|done|done].
  - exists any_key, L, linked. split_and!; [done|done| |done|done].
    pose proof (reader_step_ok _ _ _ _ _ _ _ Hok Hv Hrd) as Hstep. by rewrite Hr in Hstep.
Qed.

Lemma system_inv_run target V0 K0 st st' : valid target -> rtc (system_step target) st st' ->
  system_inv target V0 K0 st -> system_inv target V0 K0 st'.
Proof. intros Hv. induction 1 as [|st1 st2 st3 H12 _ IH]; [done|]. intros H. by eapply IH, system_inv_step. Qed.

Lemma visible_sorted linked L : StronglySorted key_lt L -> StronglySorted key_lt (visible linked L).
Proof.
  intros Hs. unfold visible. induction Hs as [|ak L Hs IH Hf]; [constructor|]. rewrite filter_cons. destruct (decide _); [|done].
  constructor; [done|]. rewrite Forall_forall in *. intros b [_ Hb]%list_elem_of_filter. by apply Hf.
Qed.

(** What the invariant says to an observer; it holds again from there on for
    all that is visible. *)
Lemma system_inv_visible target V0 K0 s w r ks : system_inv target V0 K0 (s, w, r, ks) ->
  exists V, contents s = Some V /\ StronglySorted key_lt V /\ V0 ⊆ V /\ system_inv target V K0 (s, w, r, ks) /\
    V.*2 ⊆ K0 ++ ks /\ (w = WIdle -> V.*2 ≡ₚ K0 ++ ks).
Proof.
  intros (any_key & L & linked & Hok & Hwr & Hrd & HV0 & HK). exists (visible linked L). split_and!.
  - by eapply contents_ok.
  - apply visible_sorted, Hok.
  - done.
  - by exists any_key, L, linked.
  - intros k (ak & -> & [_ Hak]%list_elem_of_filter)%list_elem_of_fmap. rewrite <- HK. by apply list_elem_of_fmap_2.
  - intros ->. by rewrite visible_all.
Qed.

Lemma system_inv_reader target V0 K0 s w x level ks V : valid target ->
  system_inv target V0 K0 (s, w, (x, level), ks) -> contents s = Some V ->
  match search_step (KeyIsAfterNode target) s (x, level, None) with
  | None => False
  | Some (inl _) => True
  | Some (inr (_, next, _)) => next = addr (keys_from target V) 0
  end.
Proof.
  intros Hv (any_key & L & linked & Hok & _ & Hrd & _) HV. rewrite (contents_ok _ _ _ _ Hok) in HV. injection HV as <-.
  pose proof (reader_step_ok _ _ _ _ _ _ _ Hok Hv Hrd) as Hstep.
  destruct (search_step _ s (x, level, None)) as [[[[x' l'] p']|[[x' next] p']]|]; [done| |done].
  rewrite Hstep, first_linked_0. unfold addr, visible, keys_from.
  rewrite (filter_swap (fun ak : Z * Key => (0 < linked ak.1)%nat)). by rewrite head_lookup.
Qed.

(** C1: readers need no lock.  Start from any list with no insertion under way
    and let one thread insert keys, store by store, while another searches,
    interleaved in any way, and look at two states of the run, one after the
    other.  The list only grows: each node that was in it at the start, or at
    the first of them, is in it at the second; and what is in it was there at
    the start or has been passed to [Insert], all of it when no [Insert] is
    under way.  In every state the keys of the list are strictly sorted and the
    next load of the reader is inside a published node's tower; and when the
    reader's search ends, it returns the first node whose key is not less than
    the target among the keys in the list at that moment. *)
Theorem SkipList_concurrent_reads (s0 s1 s2 : SkipList Key A) (L0 : list (Z * Key)) (w1 w2 : writer)
    (target : Key) (r1 : Z * nat) (x : Z) (level : nat) (ks1 ks2 : list Key) :
  quiescent s0 L0 -> valid target ->
  rtc (system_step target) (s0, WIdle, (search_start s0 None).1, []) (s1, w1, r1, ks1) ->
  rtc (system_step target) (s1, w1, r1, ks1) (s2, w2, (x, level), ks2) ->
  exists V1 V2, contents s1 = Some V1 /\ contents s2 = Some V2 /\ L0 ⊆ V1 /\ V1 ⊆ V2 /\
    V2.*2 ⊆ L0.*2 ++ ks2 /\ (w2 = WIdle -> V2.*2 ≡ₚ L0.*2 ++ ks2) /\ StronglySorted key_lt V2 /\
    match search_step (KeyIsAfterNode target) s2 (x, level, None) with
    | None => False
    | Some (inl _) => True
    | Some (inr (_, next, _)) => next = addr (keys_from target V2) 0
    end.
Proof.
  intros (any0 & linked0 & Hok0 & Hl0) Hv Hrun1 Hrun2.
  assert (system_inv target L0 L0.*2 (s1, w1, r1, ks1)) as (V1 & HV1 & _ & HL0 & H1 & _)%system_inv_visible.
  { eapply system_inv_run; [exact Hv|exact Hrun1|]. exists any0, L0, linked0.
    split_and!; [done|done|by apply reader_start_ok|by rewrite visible_all|by rewrite app_nil_r]. }
  apply (system_inv_run target V1 L0.*2 _ _ Hv Hrun2) in H1.
  destruct (system_inv_visible _ _ _ _ _ _ _ H1) as (V2 & HV2 & Hs & HV & _ & Hks & Hidle).
  exists V1, V2. split_and!; try done. by eapply system_inv_reader.
Qed.

End skiplist.

(** * Instances *)

(** Integer keys, as in the tests of the skip list. *)
Definition int_compare (a b : Z) : Z := a - b.

#[export] Instance int_order : KeyOrder int_compare (fun _ => True).
Proof. unfold int_compare. split; intros; lia. Qed.

Definition test_arena : Arena * BumpHeap := (Arena_new, 0%nat).

Lemma test_arena_live : arena_live (allocated := bump_allocated) test_arena.
Proof. unfold arena_live, in_tail. cbn. split_and!; lia. Qed.

Lemma int_keys_distinct : ForallOrdPairs (fun a b => int_compare a b <> 0) [5; 1; 3].
Proof. unfold int_compare. repeat constructor; lia. Qed.

Lemma SkipList_refines_sorted_set_witness :
  exists s L, (SkipList_new 0 test_arena ≫= fun s => insert_all int_compare s [5; 1; 3]) = Some s /\
    contents s = Some L /\ StronglySorted (fun a b => int_compare a b < 0) L.*2 /\ L.*2 ≡ₚ [5; 1; 3] /\
    SkipList_Contains int_compare s 3 = Some true.
Proof.
  exact (SkipList_refines_sorted_set int_compare (arena_live (allocated := bump_allocated)) arena_used (fun _ => True)
    0 test_arena [5; 1; 3] 3 test_arena_live ltac:(by repeat constructor) int_keys_distinct I).
Defined.

(** A list of three keys, and a reader that looks for 4 while it is inserted:
    at the first state the new node is not yet published, at the second it
    is. *)
Definition test_list : option (SkipList Z (Arena * BumpHeap)) :=
  SkipList_new 0 test_arena ≫= fun s => insert_all int_compare s [5; 1; 3].

Definition moves_before : list (move (Key := Z)) := [ReaderLoads; InsertBegins 4; WriterStores; ReaderLoads].
Definition moves_after : list (move (Key := Z)) := [WriterStores; ReaderLoads].

Lemma moves_valid ms : Forall (move_valid (fun _ : Z => True)) ms.
Proof. apply Forall_forall. by intros []. Qed.

Lemma SkipList_concurrent_reads_witness :
  exists s0 s1 s2 w1 r1 x level V1 V2 next,
    test_list = Some s0 /\
    run_moves int_compare 4 moves_before (s0, WIdle, (search_start s0 None).1, []) = Some (s1, w1, r1, [4]) /\
    run_moves int_compare 4 moves_after (s1, w1, r1, [4]) = Some (s2, WIdle, (x, level), [4]) /\
    contents s1 = Some V1 /\ V1.*2 = [1; 3; 5] /\ contents s2 = Some V2 /\ V2.*2 = [1; 3; 4; 5] /\ V1 ⊆ V2 /\
    fmap (M := option) (sum_map (fun _ => ()) (fun r => r.1.2))
      (search_step (KeyIsAfterNode int_compare 4) s2 (x, level, None)) = Some (inr next) /\
    next = addr (keys_from int_compare 4 V2) 0 /\ node_key_at s2 next = Some 4.
Proof.
  destruct (SkipList_new_ok int_compare (arena_live (allocated := bump_allocated)) arena_used (fun _ => True)
    0 test_arena test_arena_live) as (s0 & E0 & Hq0).
  destruct (insert_all_ok int_compare (arena_live (allocated := bump_allocated)) arena_used (fun _ => True)
    [5; 1; 3] s0 [] Hq0 ltac:(by repeat constructor) int_keys_distinct ltac:(constructor)) as (s & L & E & Hq & _).
  assert (test_list = Some s) as Es by (unfold test_list; rewrite E0; exact E). clear E0 Hq0 E s0.
  vm_compute in Es. injection Es as <-.
  match type of Hq with quiescent _ _ _ _ ?s _ =>
    eassert (Hr1 : run_moves int_compare 4 moves_before (s, WIdle, (search_start s None).1, []) = _) by (vm_compute; reflexivity) end.
  match type of Hr1 with _ = Some ?st =>
    eassert (Hr2 : run_moves int_compare 4 moves_after st = _) by (vm_compute; reflexivity) end.
  destruct (SkipList_concurrent_reads int_compare (arena_live (allocated := bump_allocated)) arena_used (fun _ => True)
    _ _ _ L _ _ 4 _ _ _ _ _ Hq I (run_moves_steps int_compare (fun _ => True) 4 _ _ _ (moves_valid _) Hr1)
    (run_moves_steps int_compare (fun _ => True) 4 _ _ _ (moves_valid _) Hr2))
    as (V1 & V2 & HV1 & HV2 & _ & Hsub & _ & _ & _ & Hend).
  eexists _, _, _, _, _, _, _, V1, V2, _. split; [vm_compute; reflexivity|]. split; [exact Hr1|]. split; [exact Hr2|].
  split; [exact HV1|]. split; [vm_compute in HV1; by injection HV1 as <-|]. split; [exact HV2|].
  split; [vm_compute in HV2; by injection HV2 as <-|]. split; [exact Hsub|]. split; [vm_compute; reflexivity|].
  split; [vm_compute in Hend; exact Hend|vm_compute; reflexivity].
Defined.
