(* ===== verification/Port.v ===== *)
(** Port layer: the build-time constants and third-party routines of
    [port/port_stdcxx.h].  Endianness comes from the configured build; the
    snappy and crc32c libraries are linked in only when the build finds them,
    so they are fields of a class and every client is proved for all of them. *)

From S2P Require Import Prelude.

(** What [snappy.h] offers when the build has [HAVE_SNAPPY]. *)
Record SnappyLib := {
  RawCompress : bytes -> bytes;
  GetUncompressedLength : bytes -> option Z;
  RawUncompress : bytes -> option bytes;
}.

Class Port := {
  LEVELDB_IS_BIG_ENDIAN : bool;
  HAVE_CRC32C : option (Z -> bytes -> Z);
  HAVE_SNAPPY : option SnappyLib;
}.

Definition kLittleEndian `{Port} : bool := negb LEVELDB_IS_BIG_ENDIAN.

(** The bytes [memcpy] reads from an [n]-byte unsigned integer object. *)
Definition object_repr `{Port} (n : nat) (v : Z) : bytes :=
  if LEVELDB_IS_BIG_ENDIAN then rev (le_split n v) else le_split n v.

(** The integer [memcpy] leaves in an object whose bytes it writes. *)
Definition object_value `{Port} (l : bytes) : Z :=
  if LEVELDB_IS_BIG_ENDIAN then le_combine (rev l) else le_combine l.

Definition AcceleratedCRC32C `{Port} (crc : Z) (buf : bytes) : Z :=
  match HAVE_CRC32C with
  | Some extend => extend crc buf
  | None => 0
  end.

Definition Snappy_Compress `{Port} (input : bytes) : option bytes :=
  match HAVE_SNAPPY with
  | Some lib => Some (RawCompress lib input)
  | None => None
  end.

Definition Snappy_GetUncompressedLength `{Port} (input : bytes) : option Z :=
  match HAVE_SNAPPY with
  | Some lib => GetUncompressedLength lib input
  | None => None
  end.

Definition Snappy_Uncompress `{Port} (input : bytes) : option bytes :=
  match HAVE_SNAPPY with
  | Some lib => RawUncompress lib input
  | None => None
  end.

(** The two builds that occur without optional libraries. *)
Definition little_endian_port : Port :=
  {| LEVELDB_IS_BIG_ENDIAN := false; HAVE_CRC32C := None; HAVE_SNAPPY := None |}.

Definition big_endian_port : Port :=
  {| LEVELDB_IS_BIG_ENDIAN := true; HAVE_CRC32C := None; HAVE_SNAPPY := None |}.
