(* ===== verification/Coding.v ===== *)
(** Integer encodings of [util/coding.h] and [util/coding.cpp]: fixed-width
    little-endian integers, varints and length-prefixed slices, with their
    round trips, their lengths and the equivalence of the unrolled and the
    looping varint encoders. *)

From S2P Require Import Prelude Port.

Section coding.
Context {port : Port}.

(** * Fixed-width integers *)

Definition EncodeFixed32 (value : Z) : bytes :=
  if kLittleEndian then object_repr 4 value
  else [bz (Z.land value 0xff);
        bz (Z.land (Z.shiftr value 8) 0xff);
        bz (Z.land (Z.shiftr value 16) 0xff);
        bz (Z.land (Z.shiftr value 24) 0xff)].

Definition EncodeFixed64 (value : Z) : bytes :=
  if kLittleEndian then object_repr 8 value
  else [bz (Z.land value 0xff);
        bz (Z.land (Z.shiftr value 8) 0xff);
        bz (Z.land (Z.shiftr value 16) 0xff);
        bz (Z.land (Z.shiftr value 24) 0xff);
        bz (Z.land (Z.shiftr value 32) 0xff);
        bz (Z.land (Z.shiftr value 40) 0xff);
        bz (Z.land (Z.shiftr value 48) 0xff);
        bz (Z.land (Z.shiftr value 56) 0xff)].

Definition PutFixed32 (dst : bytes) (value : Z) : bytes := dst ++ EncodeFixed32 value.

Definition PutFixed64 (dst : bytes) (value : Z) : bytes := dst ++ EncodeFixed64 value.

(** The [i]-th byte a pointer refers to, as an unsigned value; every caller
    passes a buffer that is long enough. *)
Definition ptr_byte (ptr : bytes) (i : nat) : Z := ub (nth i ptr Byte.x00).

Definition DecodeFixed32 (ptr : bytes) : Z :=
  if kLittleEndian then object_value (take 4 ptr)
  else Z.lor (Z.lor (Z.lor (ptr_byte ptr 0)
                           (u32 (Z.shiftl (ptr_byte ptr 1) 8)))
                    (u32 (Z.shiftl (ptr_byte ptr 2) 16)))
             (u32 (Z.shiftl (ptr_byte ptr 3) 24)).

Definition DecodeFixed64 (ptr : bytes) : Z :=
  if kLittleEndian then object_value (take 8 ptr)
  else
    let lo := DecodeFixed32 ptr in
    let hi := DecodeFixed32 (drop 4 ptr) in
    Z.lor (u64 (Z.shiftl hi 32)) lo.

(** * Varints *)

Definition EncodeVarint32 (v : Z) : bytes :=
  let B := 128 in
  if v <? Z.shiftl 1 7 then [bz v]
  else if v <? Z.shiftl 1 14 then
    [bz (Z.lor v B); bz (Z.shiftr v 7)]
  else if v <? Z.shiftl 1 21 then
    [bz (Z.lor v B); bz (Z.lor (Z.shiftr v 7) B); bz (Z.shiftr v 14)]
  else if v <? Z.shiftl 1 28 then
    [bz (Z.lor v B); bz (Z.lor (Z.shiftr v 7) B); bz (Z.lor (Z.shiftr v 14) B);
     bz (Z.shiftr v 21)]
  else
    [bz (Z.lor v B); bz (Z.lor (Z.shiftr v 7) B); bz (Z.lor (Z.shiftr v 14) B);
     bz (Z.lor (Z.shiftr v 21) B); bz (Z.shiftr v 28)].

Definition PutVarint32 (dst : bytes) (v : Z) : bytes := dst ++ EncodeVarint32 v.

(** The [while (v >= B)] loop; a 64-bit value leaves it after at most nine
    turns ([EncodeVarint64_unfold]). *)
Fixpoint EncodeVarint64_loop (fuel : nat) (v : Z) : bytes :=
  match fuel with
  | O => []
  | S fuel =>
    if 128 <=? v
    then bz (Z.lor (Z.land v (128 - 1)) 128) :: EncodeVarint64_loop fuel (Z.shiftr v 7)
    else [bz v]
  end.

Definition EncodeVarint64 (v : Z) : bytes := EncodeVarint64_loop 10 v.

Definition PutVarint64 (dst : bytes) (v : Z) : bytes := dst ++ EncodeVarint64 v.

Definition PutLengthPrefixedSlice (dst value : bytes) : bytes :=
  PutVarint32 dst (u32 (blen value)) ++ value.

Fixpoint VarintLength_loop (fuel : nat) (v len : Z) : Z :=
  match fuel with
  | O => len
  | S fuel => if 128 <=? v then VarintLength_loop fuel (Z.shiftr v 7) (len + 1) else len
  end.

Definition VarintLength (v : Z) : Z := VarintLength_loop 10 v 1.

(** The pointer-based readers take the bytes of [[p, limit)] and return the
    value with the bytes from the advanced pointer on, or [None] for NULL. *)
Fixpoint GetVarint32PtrFallback_loop (p : bytes) (shift result : Z) : option (Z * bytes) :=
  if shift <=? 28 then
    match p with
    | [] => None
    | b :: p =>
      let byte := ub b in
      if negb (Z.land byte 128 =? 0)
      then GetVarint32PtrFallback_loop p (shift + 7)
             (Z.lor result (u32 (Z.shiftl (Z.land byte 127) shift)))
      else Some (Z.lor result (u32 (Z.shiftl byte shift)), p)
    end
  else None.

Definition GetVarint32PtrFallback (p : bytes) : option (Z * bytes) :=
  GetVarint32PtrFallback_loop p 0 0.

Definition GetVarint32Ptr (p : bytes) : option (Z * bytes) :=
  match p with
  | b :: p' =>
    let result := ub b in
    if Z.land result 128 =? 0 then Some (result, p') else GetVarint32PtrFallback p
  | [] => GetVarint32PtrFallback p
  end.

Fixpoint GetVarint64Ptr_loop (p : bytes) (shift result : Z) : option (Z * bytes) :=
  if shift <=? 63 then
    match p with
    | [] => None
    | b :: p =>
      let byte := ub b in
      if negb (Z.land byte 128 =? 0)
      then GetVarint64Ptr_loop p (shift + 7)
             (Z.lor result (u64 (Z.shiftl (Z.land byte 127) shift)))
      else Some (Z.lor result (u64 (Z.shiftl byte shift)), p)
    end
  else None.

Definition GetVarint64Ptr (p : bytes) : option (Z * bytes) :=
  GetVarint64Ptr_loop p 0 0.

(** The slice readers return the parsed value, if any, and the slice as they
    leave it. *)
Definition GetVarint32 (input : bytes) : option Z * bytes :=
  match GetVarint32Ptr input with
  | None => (None, input)
  | Some (value, q) => (Some value, q)
  end.

Definition GetVarint64 (input : bytes) : option Z * bytes :=
  match GetVarint64Ptr input with
  | None => (None, input)
  | Some (value, q) => (Some value, q)
  end.

Definition GetLengthPrefixedSlice (input : bytes) : option bytes * bytes :=
  match GetVarint32 input with
  | (Some len, input) =>
    if len <=? blen input
    then (Some (take (Z.to_nat len) input), drop (Z.to_nat len) input)
    else (None, input)
  | (None, input) => (None, input)
  end.

End coding.

(** * Fixed-width integers: both branches of the port agree *)

Section coding_facts.
Context {port : Port}.

Lemma bz_land_ff v : bz (Z.land v 0xff) = bz v.
Proof. change 0xff with (2 ^ 8 - 1). rewrite land_ones_mod by lia. apply bz_mod. Qed.

Lemma EncodeFixed32_le v : EncodeFixed32 v = le_split 4 v.
Proof.
  unfold EncodeFixed32, kLittleEndian, object_repr.
  destruct LEVELDB_IS_BIG_ENDIAN; cbn [negb]; [|done].
  rewrite !bz_land_ff. cbn [le_split]. by rewrite !Z.shiftr_shiftr by lia.
Qed.

Lemma EncodeFixed64_le v : EncodeFixed64 v = le_split 8 v.
Proof.
  unfold EncodeFixed64, kLittleEndian, object_repr.
  destruct LEVELDB_IS_BIG_ENDIAN; cbn [negb]; [|done].
  rewrite !bz_land_ff. cbn [le_split]. by rewrite !Z.shiftr_shiftr by lia.
Qed.

(** The four-byte value of a buffer that holds at least four bytes. *)
Lemma DecodeFixed32_le l : (4 <= length l)%nat -> DecodeFixed32 l = le_combine (take 4 l).
Proof.
  intros Hl. unfold DecodeFixed32, kLittleEndian, object_value.
  destruct LEVELDB_IS_BIG_ENDIAN; cbn [negb]; [|done].
  destruct l as [|a [|b [|c [|d l]]]]; simpl in Hl; try lia.
  cbn [take firstn le_combine ptr_byte nth]. unfold ptr_byte. cbn [nth].
  unfold u32. rewrite !Z.mod_small.
  - rewrite ?Z.shiftl_lor, ?Z.shiftl_shiftl, ?Z.shiftl_0_l, ?Z.lor_0_r by lia.
    by rewrite <- ?Z.lor_assoc.
  - pose proof (ub_range d). rewrite Z.shiftl_mul_pow2; lia.
  - pose proof (ub_range c). rewrite Z.shiftl_mul_pow2; lia.
  - pose proof (ub_range b). rewrite Z.shiftl_mul_pow2; lia.
Qed.

Lemma DecodeFixed64_le l : (8 <= length l)%nat -> DecodeFixed64 l = le_combine (take 8 l).
Proof.
  intros Hl. unfold DecodeFixed64.
  destruct kLittleEndian eqn:E.
  { unfold kLittleEndian in E. unfold object_value.
    by destruct LEVELDB_IS_BIG_ENDIAN. }
  rewrite !DecodeFixed32_le by (rewrite ?length_drop; lia).
  replace (take 8 l) with (take 4 l ++ take 4 (drop 4 l))
    by apply take_take_drop.
  rewrite le_combine_app.
  pose proof (le_combine_range (take 4 (drop 4 l))) as Hr.
  assert (blen (take 4 l) = 4) as -> by (unfold blen; rewrite length_take; lia).
  assert (blen (take 4 (drop 4 l)) = 4) as Hb
    by (unfold blen; rewrite length_take, length_drop; lia).
  rewrite Hb in Hr. rewrite Z.lor_comm. f_equal.
  unfold u64. apply Z.mod_small. rewrite Z.shiftl_mul_pow2; lia.
Qed.

(** Decoding what was encoded, with anything behind it. *)
Lemma DecodeFixed32_Encode v rest :
  0 <= v < 2 ^ 32 -> DecodeFixed32 (EncodeFixed32 v ++ rest) = v.
Proof.
  intros Hv. rewrite EncodeFixed32_le, DecodeFixed32_le
    by (rewrite length_app, length_le_split; lia).
  rewrite take_app_length' by (by rewrite length_le_split).
  by apply le_combine_split_small.
Qed.

Lemma DecodeFixed64_Encode v rest :
  0 <= v < 2 ^ 64 -> DecodeFixed64 (EncodeFixed64 v ++ rest) = v.
Proof.
  intros Hv. rewrite EncodeFixed64_le, DecodeFixed64_le
    by (rewrite length_app, length_le_split; lia).
  rewrite take_app_length' by (by rewrite length_le_split).
  by apply le_combine_split_small.
Qed.

Lemma length_EncodeFixed32 v : length (EncodeFixed32 v) = 4%nat.
Proof. rewrite EncodeFixed32_le. apply length_le_split. Qed.

Lemma length_EncodeFixed64 v : length (EncodeFixed64 v) = 8%nat.
Proof. rewrite EncodeFixed64_le. apply length_le_split. Qed.

(** Encoding what was decoded: four (eight) bytes determine, and are
    determined by, their value. *)
Lemma EncodeFixed32_Decode l : length l = 4%nat -> EncodeFixed32 (DecodeFixed32 l) = l.
Proof.
  intros Hl. rewrite EncodeFixed32_le, DecodeFixed32_le, take_ge by lia.
  rewrite <- Hl. apply le_split_combine.
Qed.

Lemma EncodeFixed64_Decode l : length l = 8%nat -> EncodeFixed64 (DecodeFixed64 l) = l.
Proof.
  intros Hl. rewrite EncodeFixed64_le, DecodeFixed64_le, take_ge by lia.
  rewrite <- Hl. apply le_split_combine.
Qed.

Lemma DecodeFixed32_range l : (4 <= length l)%nat -> 0 <= DecodeFixed32 l < 2 ^ 32.
Proof.
  intros Hl. rewrite DecodeFixed32_le by done.
  pose proof (le_combine_range (take 4 l)) as Hr.
  rewrite blen_take in Hr. unfold blen in Hr. by rewrite Z.min_l in Hr by lia.
Qed.

Lemma DecodeFixed64_range l : (8 <= length l)%nat -> 0 <= DecodeFixed64 l < 2 ^ 64.
Proof.
  intros Hl. rewrite DecodeFixed64_le by done.
  pose proof (le_combine_range (take 8 l)) as Hr.
  rewrite blen_take in Hr. unfold blen in Hr. by rewrite Z.min_l in Hr by lia.
Qed.


(** * Varints *)

(** One loop for both widths: [GetVarint32PtrFallback_loop] and
    [GetVarint64Ptr_loop] differ in the last shift and in the width. *)
Section varint_loop.
Variables last width : Z.

Fixpoint varint_loop (p : bytes) (shift result : Z) : option (Z * bytes) :=
  if shift <=? last then
    match p with
    | [] => None
    | b :: p =>
      let byte := ub b in
      if negb (Z.land byte 128 =? 0)
      then varint_loop p (shift + 7)
             (Z.lor result (Z.shiftl (Z.land byte 127) shift mod 2 ^ width))
      else Some (Z.lor result (Z.shiftl byte shift mod 2 ^ width), p)
    end
  else None.

End varint_loop.

Lemma GetVarint32PtrFallback_varint_loop p :
  GetVarint32PtrFallback p = varint_loop 28 32 p 0 0.
Proof. reflexivity. Qed.

Lemma GetVarint64Ptr_varint_loop p : GetVarint64Ptr p = varint_loop 63 64 p 0 0.
Proof. reflexivity. Qed.

(** The high bit of a byte is the varint continuation bit. *)
Lemma land_127_mod a : Z.land a 127 = a mod 128.
Proof. change 127 with (2 ^ 7 - 1). by rewrite land_ones_mod. Qed.

Lemma land_128_zero a : 0 <= a < 256 -> (Z.land a 128 =? 0) = (a <? 128).
Proof.
  intros Ha. apply eq_bool_prop_intro.
  rewrite !Is_true_true, Z.eqb_eq, Z.ltb_lt. split.
  - intros H. destruct (decide (a < 128)); [done|].
    assert (Z.testbit (Z.land a 128) 7 = true) as E; [|by rewrite H in E].
    rewrite Z.land_spec. change 128 with (2 ^ 7) at 1.
    replace a with ((a - 128) + 1 * 2 ^ 7) by lia.
    rewrite <- lor_shiftl_add by lia. by rewrite Z.lor_spec, orb_true_r.
  - intros H. apply Z.bits_inj_0. intros i. rewrite Z.land_spec.
    change 128 with (2 ^ 7). destruct (decide (i = 7)) as [->|].
    + by rewrite (testbit_above 7 a) by lia.
    + by rewrite Z.pow2_bits_false, andb_false_r.
Qed.

Lemma ub_continuation v : 0 <= v -> ub (bz (Z.lor (Z.land v (128 - 1)) 128)) = v mod 128 + 128.
Proof.
  intros Hv. change (128 - 1) with 127. rewrite land_127_mod.
  pose proof (Z.mod_pos_bound v 128 ltac:(lia)).
  change 128 with (Z.shiftl 1 7) at 2. rewrite lor_shiftl_add by lia.
  rewrite ub_bz_small; lia.
Qed.

(** Reading back a varint: the reader recovers [v], whatever follows it. *)
Lemma shiftl_mod_small width s x :
  0 <= s <= width -> 0 <= x < 2 ^ (width - s) -> Z.shiftl x s mod 2 ^ width = x * 2 ^ s.
Proof.
  intros Hs Hx. rewrite Z.shiftl_mul_pow2 by lia. apply Z.mod_small.
  replace (2 ^ width) with (2 ^ (width - s) * 2 ^ s)
    by (rewrite <- Z.pow_add_r by lia; f_equal; lia). nia.
Qed.

Lemma lor_shiftl_mod width s r x :
  0 <= s <= width -> 0 <= r < 2 ^ s -> 0 <= x < 2 ^ (width - s) ->
  Z.lor r (Z.shiftl x s mod 2 ^ width) = r + x * 2 ^ s.
Proof.
  intros Hs Hr Hx. rewrite shiftl_mod_small, <- Z.shiftl_mul_pow2 by lia.
  by rewrite lor_shiftl_add, Z.shiftl_mul_pow2 by lia.
Qed.

Lemma varint_loop_encode last width fuel v shift r rest :
  last < width -> width - last <= 7 -> 0 <= shift <= last -> (7 | last - shift) ->
  0 <= r < 2 ^ shift -> 0 <= v < 2 ^ (width - shift) ->
  (0 < fuel)%nat -> v < 2 ^ (7 * Z.of_nat fuel) ->
  varint_loop last width (EncodeVarint64_loop fuel v ++ rest) shift r
  = Some (r + v * 2 ^ shift, rest).
Proof.
  intros Hw Hwl. revert v shift r.
  induction fuel as [|fuel IH]; intros v shift r Hs [k Hk] Hr Hv Hf0 Hf; [lia|].
  cbn [EncodeVarint64_loop]. destruct (Z.leb_spec 128 v) as [Hge|Hlt];
    cbn [app varint_loop]; rewrite (proj2 (Z.leb_le shift last)) by lia.
  - pose proof (Z.mod_pos_bound v 128 ltac:(lia)) as Hm.
    rewrite ub_continuation, land_128_zero by lia.
    rewrite (proj2 (Z.ltb_ge _ _)) by lia. cbn [negb].
    rewrite land_127_mod, <- Z.add_mod_idemp_r, Z.add_0_r, Zmod_mod by lia.
    assert (7 < width - shift) as Hws by (apply (Z.pow_lt_mono_r_iff 2); lia).
    assert (v < 128 * 2 ^ (width - (shift + 7))) as Hv'.
    { change 128 with (2 ^ 7). rewrite <- Z.pow_add_r by lia.
      replace (7 + (width - (shift + 7))) with (width - shift) by lia. lia. }
    rewrite lor_shiftl_mod by lia.
    rewrite Nat2Z.inj_succ, Z.mul_succ_r, Z.pow_add_r in Hf by lia.
    assert (0 < fuel)%nat as Hf1 by (destruct fuel; [simpl in Hf|]; lia).
    change (2 ^ 7) with 128 in Hf. rewrite Z.shiftr_div_pow2 by lia.
    change (2 ^ 7) with 128.
    rewrite IH; [|lia|exists (k - 1); lia| |split| |]; [|rewrite Z.pow_add_r by lia; nia|
      apply Z.div_pos; lia|apply Z.div_lt_upper_bound; lia|done|
      apply Z.div_lt_upper_bound; lia].
    do 2 f_equal. rewrite Z.pow_add_r by lia. pose proof (Z.div_mod v 128). nia.
  - rewrite ub_bz_small, land_128_zero by lia.
    rewrite (proj2 (Z.ltb_lt _ _)) by lia. cbn [negb].
    by rewrite lor_shiftl_mod by lia.
Qed.

(** The encoder loop unfolds as the [while] loop does: ten turns of fuel are
    enough for every 64-bit value. *)
Lemma EncodeVarint64_loop_fuel n m v :
  (0 < n)%nat -> (0 < m)%nat ->
  0 <= v < 2 ^ (7 * Z.of_nat n) -> v < 2 ^ (7 * Z.of_nat m) ->
  EncodeVarint64_loop n v = EncodeVarint64_loop m v.
Proof.
  revert m v. induction n as [|n IH]; intros m v Hn Hm Hv Hv'; [lia|].
  destruct m as [|m]; [lia|]. cbn [EncodeVarint64_loop].
  destruct (Z.leb_spec 128 v) as [Hge|]; [|done]. f_equal.
  rewrite !Nat2Z.inj_succ, !Z.mul_succ_r, !Z.pow_add_r in Hv, Hv' by lia.
  change (2 ^ 7) with 128 in *. rewrite Z.shiftr_div_pow2 by lia.
  change (2 ^ 7) with 128. apply IH.
  - destruct n; [simpl in Hv|]; lia.
  - destruct m; [simpl in Hv'|]; lia.
  - split; [apply Z.div_pos|apply Z.div_lt_upper_bound]; lia.
  - apply Z.div_lt_upper_bound; lia.
Qed.

Lemma EncodeVarint64_loop_S n v :
  EncodeVarint64_loop (S n) v =
  if 128 <=? v
  then bz (Z.lor (Z.land v (128 - 1)) 128) :: EncodeVarint64_loop n (Z.shiftr v 7)
  else [bz v].
Proof. reflexivity. Qed.

Lemma EncodeVarint64_unfold v :
  0 <= v < 2 ^ 64 ->
  EncodeVarint64 v =
  if 128 <=? v
  then bz (Z.lor (Z.land v (128 - 1)) 128) :: EncodeVarint64 (Z.shiftr v 7)
  else [bz v].
Proof.
  intros Hv. unfold EncodeVarint64. rewrite EncodeVarint64_loop_S at 1.
  destruct (Z.leb_spec 128 v); [|done]. f_equal.
  pose proof (shiftr_range 57 7 v ltac:(lia) ltac:(lia) ltac:(simpl; lia)).
  apply EncodeVarint64_loop_fuel; simpl; lia.
Qed.

(** The unrolled 32-bit encoder writes what the loop writes. *)
Lemma bz_lor_128 v : bz (Z.lor v 128) = bz (Z.lor (Z.land v (128 - 1)) 128).
Proof.
  apply ub_inj. rewrite !ub_bz. change 256 with (2 ^ 8). change (128 - 1) with (Z.ones 7).
  change 128 with (2 ^ 7). zbits. destruct (Z.ltb_spec i 8); [|done].
  destruct (decide (i = 7)) as [->|]; cbn [andb].
  { by rewrite Z.pow2_bits_true, !orb_true_r. }
  by rewrite Z.ones_spec_low, andb_true_r by lia.
Qed.

Lemma EncodeVarint32_64 v : 0 <= v < 2 ^ 32 -> EncodeVarint32 v = EncodeVarint64 v.
Proof.
  intros Hv. unfold EncodeVarint64.
  rewrite (EncodeVarint64_loop_fuel 10 5) by (simpl; lia).
  unfold EncodeVarint32. cbn [EncodeVarint64_loop].
  rewrite <- !bz_lor_128. rewrite !Z.shiftr_shiftr by lia. cbn [Z.add Pos.add Pos.succ].
  rewrite !Z.shiftr_div_pow2 by lia.
  change (Z.shiftl 1 7) with (2 ^ 7). change (Z.shiftl 1 14) with (2 ^ 14).
  change (Z.shiftl 1 21) with (2 ^ 21). change (Z.shiftl 1 28) with (2 ^ 28).
  repeat match goal with
  | |- context [if ?a <? ?b then _ else _] => destruct (Z.ltb_spec a b)
  | |- context [if ?a <=? ?b then _ else _] => destruct (Z.leb_spec a b)
  end; try done; Z.div_mod_to_equations; lia.
Qed.

Lemma GetVarint64Ptr_Encode v rest :
  0 <= v < 2 ^ 64 -> GetVarint64Ptr (EncodeVarint64 v ++ rest) = Some (v, rest).
Proof.
  intros Hv. rewrite GetVarint64Ptr_varint_loop. unfold EncodeVarint64.
  rewrite varint_loop_encode; [do 2 f_equal; lia|lia|lia|lia|by exists 9|..]; simpl; lia.
Qed.

Lemma GetVarint32Ptr_Encode v rest :
  0 <= v < 2 ^ 32 -> GetVarint32Ptr (EncodeVarint32 v ++ rest) = Some (v, rest).
Proof.
  intros Hv.
  assert (GetVarint32PtrFallback (EncodeVarint32 v ++ rest) = Some (v, rest)) as Hf.
  { rewrite GetVarint32PtrFallback_varint_loop, EncodeVarint32_64 by done.
    unfold EncodeVarint64. rewrite varint_loop_encode;
      [do 2 f_equal; lia|lia|lia|lia|by exists 4|..]; simpl; lia. }
  revert Hf. destruct (EncodeVarint32 v ++ rest) as [|b p]; [done|].
  intros Hf. cbn [GetVarint32Ptr]. destruct (Z.land (ub b) 128 =? 0) eqn:E; [|done].
  revert Hf. unfold GetVarint32PtrFallback. cbn [GetVarint32PtrFallback_loop Z.leb Z.compare].
  rewrite E. cbn [negb]. unfold u32. rewrite Z.lor_0_l, Z.shiftl_0_r.
  pose proof (ub_range b). rewrite Z.mod_small by lia. done.
Qed.

Lemma GetVarint32_Encode v rest :
  0 <= v < 2 ^ 32 -> GetVarint32 (EncodeVarint32 v ++ rest) = (Some v, rest).
Proof. intros Hv. unfold GetVarint32. by rewrite GetVarint32Ptr_Encode. Qed.

Lemma GetVarint64_Encode v rest :
  0 <= v < 2 ^ 64 -> GetVarint64 (EncodeVarint64 v ++ rest) = (Some v, rest).
Proof. intros Hv. unfold GetVarint64. by rewrite GetVarint64Ptr_Encode. Qed.

(** Lengths: [VarintLength] predicts the encoder, and the stack buffers of
    [PutVarint32] (5 bytes) and [PutVarint64] (10 bytes) are large enough. *)
Lemma VarintLength_loop_spec fuel v len :
  (0 < fuel)%nat -> 0 <= v < 2 ^ (7 * Z.of_nat fuel) ->
  VarintLength_loop fuel v len = len - 1 + blen (EncodeVarint64_loop fuel v).
Proof.
  revert v len. induction fuel as [|fuel IH]; intros v len Hf Hv; [lia|].
  cbn [VarintLength_loop EncodeVarint64_loop].
  destruct (Z.leb_spec 128 v); [|rewrite blen_cons, blen_nil; lia].
  rewrite Nat2Z.inj_succ, Z.mul_succ_r, Z.pow_add_r in Hv by lia.
  rewrite blen_cons, IH; [lia| |].
  - destruct fuel; [simpl in Hv|]; lia.
  - rewrite Z.shiftr_div_pow2 by lia. change (2 ^ 7) with 128 in *.
    split; [apply Z.div_pos|apply Z.div_lt_upper_bound]; lia.
Qed.

Lemma VarintLength_spec v : 0 <= v < 2 ^ 64 -> VarintLength v = blen (EncodeVarint64 v).
Proof.
  intros Hv. unfold VarintLength, EncodeVarint64.
  rewrite VarintLength_loop_spec by (simpl; lia). lia.
Qed.

Lemma EncodeVarint64_loop_length fuel v : (length (EncodeVarint64_loop fuel v) <= fuel)%nat.
Proof.
  revert v. induction fuel as [|fuel IH]; intros v; simpl; [lia|].
  destruct (128 <=? v); simpl; [|lia]. specialize (IH (Z.shiftr v 7)). lia.
Qed.

Lemma EncodeVarint32_length v : (1 <= length (EncodeVarint32 v) <= 5)%nat.
Proof.
  unfold EncodeVarint32. repeat case_match; simpl; lia.
Qed.

Lemma EncodeVarint64_length v : (1 <= length (EncodeVarint64 v) <= 10)%nat.
Proof.
  pose proof (EncodeVarint64_loop_length 10 v). unfold EncodeVarint64 in *.
  split; [|done]. rewrite EncodeVarint64_loop_S.
  destruct (128 <=? v); cbn [length]; lia.
Qed.

(** A decoded value is in range and the reader stays inside its input. *)
Lemma varint_loop_range last width p shift r v q :
  0 <= width -> 0 <= shift -> 0 <= r < 2 ^ width ->
  varint_loop last width p shift r = Some (v, q) ->
  0 <= v < 2 ^ width /\ exists k, p = k ++ q /\ (1 <= length k)%nat /\
    shift + 7 * (blen k - 1) <= last.
Proof.
  intros Hw. revert shift r. induction p as [|b p IH]; intros shift r Hs Hr;
    cbn [varint_loop]; destruct (Z.leb_spec shift last); try done.
  assert (forall x, 0 <= Z.lor r (x mod 2 ^ width) < 2 ^ width) as Hor.
  { intros x. apply lor_range; [done..|]. apply Z.mod_pos_bound; lia. }
  case_match.
  - intros (Hv & k & -> & Hk & Hl)%IH; [|lia|done]. split; [done|].
    exists (b :: k). rewrite blen_cons. simpl. split_and!; [done|lia|lia].
  - intros [= <- <-]. split; [done|]. exists [b].
    unfold blen. simpl. split_and!; [done|lia|lia].
Qed.

Lemma GetVarint32Ptr_range p v q :
  GetVarint32Ptr p = Some (v, q) ->
  0 <= v < 2 ^ 32 /\ exists k, p = k ++ q /\ (1 <= length k <= 5)%nat.
Proof.
  intros Hg. assert (GetVarint32PtrFallback p = Some (v, q) \/
                     exists b, p = b :: q /\ v = ub b) as [Hf|(b & -> & ->)].
  { destruct p as [|b p]; [by left|]. cbn [GetVarint32Ptr] in Hg.
    destruct (_ =? _); [|by left]. injection Hg as <- <-. right. by exists b. }
  - apply varint_loop_range in Hf as (Hv & k & -> & Hk & Hl); [|lia..].
    split; [done|]. exists k. unfold blen in Hl. split; [done|lia].
  - pose proof (ub_range b). split; [lia|]. exists [b]. simpl. split; [done|lia].
Qed.

(** ** Length-prefixed slices *)

Lemma GetLengthPrefixedSlice_Put value rest :
  blen value < 2 ^ 32 ->
  GetLengthPrefixedSlice (PutLengthPrefixedSlice [] value ++ rest) = (Some value, rest).
Proof.
  intros Hv. pose proof (blen_nonneg value).
  unfold GetLengthPrefixedSlice, PutLengthPrefixedSlice, PutVarint32, u32.
  rewrite Z.mod_small by lia. cbn [app]. rewrite <- app_assoc, GetVarint32_Encode by lia.
  rewrite (proj2 (Z.leb_le _ _)) by len.
  unfold blen. rewrite Nat2Z.id. by rewrite take_app_length, drop_app_length.
Qed.

End coding_facts.

#[global] Arguments EncodeVarint64 : simpl never.
#[global] Arguments EncodeVarint32 : simpl never.
#[global] Arguments EncodeFixed32 : simpl never.
#[global] Arguments EncodeFixed64 : simpl never.
#[global] Arguments DecodeFixed32 : simpl never.
#[global] Arguments DecodeFixed64 : simpl never.

#[export] Hint Rewrite @length_EncodeFixed32 @length_EncodeFixed64 : len.

(** ** Arrays of fixed-width integers *)

Lemma length_encoded {port : Port} l : blen (concat (EncodeFixed32 <$> l)) = 4 * blen l.
Proof.
  induction l as [|x l IH]; [done|]. cbn [fmap list_fmap concat]. rewrite blen_app, IH, blen_cons. len.
Qed.

Lemma DecodeFixed32_concat {port : Port} l j v rest : l !! j = Some v -> 0 <= v < 2 ^ 32 ->
  DecodeFixed32 (drop (4 * j) (concat (EncodeFixed32 <$> l) ++ rest)) = v.
Proof.
  revert j. induction l as [|x l IH]; intros j Hj Hv; [done|].
  cbn [fmap list_fmap concat]. rewrite <- app_assoc. destruct j as [|j].
  - injection Hj as ->. change (4 * 0)%nat with 0%nat. rewrite drop_0. by apply DecodeFixed32_Encode.
  - replace (4 * S j)%nat with (length (EncodeFixed32 x) + 4 * j)%nat by (rewrite length_EncodeFixed32; lia).
    rewrite drop_app_add. by apply IH.
Qed.

Lemma fold_PutFixed32 {port : Port} l dst :
  fold_left PutFixed32 l dst = dst ++ concat (EncodeFixed32 <$> l).
Proof.
  revert dst. induction l as [|x l IH]; intros dst; cbn; [by rewrite app_nil_r|].
  rewrite IH. unfold PutFixed32. by rewrite <- app_assoc.
Qed.

(** * The properties of the component *)

Section coding_claims.
Context {port : Port}.

(** Fixed-width integers round trip in both directions on every port: the
    memcpy branch of a little-endian build and the shift branch of a
    big-endian build write the same little-endian bytes, [DecodeFixed32/64]
    recover every 32/64-bit value from them whatever follows in the buffer,
    and every four/eight bytes are the encoding of what they decode to. *)
Theorem Fixed_roundtrip (v w : Z) (l rest : bytes) :
  0 <= v < 2 ^ 32 -> 0 <= w < 2 ^ 64 -> blen l = 8 ->
  DecodeFixed32 (PutFixed32 [] v ++ rest) = v /\
  DecodeFixed64 (PutFixed64 [] w ++ rest) = w /\
  EncodeFixed32 v = @EncodeFixed32 little_endian_port v /\
  EncodeFixed64 w = @EncodeFixed64 little_endian_port w /\
  EncodeFixed64 (DecodeFixed64 l) = l /\
  EncodeFixed32 (DecodeFixed32 (take 4 l)) = take 4 l.
Proof.
  intros Hv Hw Hl. unfold PutFixed32, PutFixed64. split_and!.
  - by apply DecodeFixed32_Encode.
  - by apply DecodeFixed64_Encode.
  - by rewrite !EncodeFixed32_le.
  - by rewrite !EncodeFixed64_le.
  - apply EncodeFixed64_Decode. len.
  - apply EncodeFixed32_Decode. len.
Qed.

(** Varints round trip: [GetVarint32] and [GetVarint64] read back every
    32/64-bit value that [PutVarint32] and [PutVarint64] wrote and leave the
    input exactly behind it. *)
Theorem Varint_roundtrip (v w : Z) (rest : bytes) :
  0 <= v < 2 ^ 32 -> 0 <= w < 2 ^ 64 ->
  GetVarint32 (PutVarint32 [] v ++ rest) = (Some v, rest) /\
  GetVarint64 (PutVarint64 [] w ++ rest) = (Some w, rest).
Proof. intros Hv Hw. split; [by apply GetVarint32_Encode|by apply GetVarint64_Encode]. Qed.

(** The unrolled [EncodeVarint32] writes what the loop of [EncodeVarint64]
    writes; [VarintLength] is the number of bytes written, at most 5 and 10,
    the sizes of the stack buffers of [PutVarint32] and [PutVarint64]. *)
Theorem EncodeVarint_unrolled (v w : Z) :
  0 <= v < 2 ^ 32 -> 0 <= w < 2 ^ 64 ->
  EncodeVarint32 v = EncodeVarint64 v /\
  VarintLength v = blen (EncodeVarint32 v) /\ blen (EncodeVarint32 v) <= 5 /\
  VarintLength w = blen (EncodeVarint64 w) /\ blen (EncodeVarint64 w) <= 10.
Proof.
  intros Hv Hw. pose proof (EncodeVarint32_length v). pose proof (EncodeVarint64_length w).
  rewrite !VarintLength_spec, <- EncodeVarint32_64 by lia. split_and!; try done; len.
Qed.

(** [GetVarint32Ptr] and [GetLengthPrefixedSlice] are safe on arbitrary
    input: a successful read consumed one to five bytes of a prefix of the
    input and its value fits 32 bits; a slice read is the stretch of the input
    right behind its length, and every slice that [PutLengthPrefixedSlice]
    wrote is read back. *)
Theorem LengthPrefixed_reads (p value rest : bytes) :
  blen value < 2 ^ 32 ->
  (forall v q, GetVarint32Ptr p = Some (v, q) ->
     0 <= v < 2 ^ 32 /\ exists k, p = k ++ q /\ 1 <= blen k <= 5) /\
  (forall s q, GetLengthPrefixedSlice p = (Some s, q) ->
     exists k, p = k ++ s ++ q /\ GetVarint32 p = (Some (blen s), s ++ q)) /\
  GetLengthPrefixedSlice (PutLengthPrefixedSlice [] value ++ rest) = (Some value, rest).
Proof.
  intros Hv. split_and!.
  - intros v q (H & k & -> & Hk)%GetVarint32Ptr_range. split; [done|]. exists k.
    split; [done|]. len.
  - intros s q. unfold GetLengthPrefixedSlice, GetVarint32.
    destruct (GetVarint32Ptr p) as [[v q']|] eqn:E; [|done].
    apply GetVarint32Ptr_range in E as (Hr & k & -> & _).
    destruct (Z.leb_spec v (blen q')); [|done]. intros [= <- <-]. exists k.
    rewrite take_drop, blen_take. split; [done|]. do 2 f_equal. lia.
  - by apply GetLengthPrefixedSlice_Put.
Qed.

End coding_claims.

Lemma Fixed_roundtrip_witness :
  let P := big_endian_port in
  let l := bytes_of_string "8 bytes!" in
  DecodeFixed32 (PutFixed32 [] 0x01020304 ++ l) = 0x01020304 /\
  DecodeFixed64 (PutFixed64 [] 0xfedcba9876543210 ++ l) = 0xfedcba9876543210 /\
  EncodeFixed32 0x01020304 = @EncodeFixed32 little_endian_port 0x01020304 /\
  EncodeFixed64 0xfedcba9876543210 = @EncodeFixed64 little_endian_port 0xfedcba9876543210 /\
  EncodeFixed64 (DecodeFixed64 l) = l /\
  EncodeFixed32 (DecodeFixed32 (take 4 l)) = take 4 l.
Proof. intros P l. apply (Fixed_roundtrip (port := P)); [lia|lia|reflexivity]. Defined.

Lemma Varint_roundtrip_witness :
  GetVarint32 (PutVarint32 [] 300 ++ [Byte.xff]) = (Some 300, [Byte.xff]) /\
  GetVarint64 (PutVarint64 [] (2 ^ 64 - 1) ++ [Byte.xff]) = (Some (2 ^ 64 - 1), [Byte.xff]).
Proof. apply Varint_roundtrip; lia. Defined.

Lemma EncodeVarint_unrolled_witness :
  EncodeVarint32 16384 = EncodeVarint64 16384 /\
  VarintLength 16384 = blen (EncodeVarint32 16384) /\ blen (EncodeVarint32 16384) <= 5 /\
  VarintLength (2 ^ 63) = blen (EncodeVarint64 (2 ^ 63)) /\ blen (EncodeVarint64 (2 ^ 63)) <= 10.
Proof. apply EncodeVarint_unrolled; lia. Defined.

Lemma LengthPrefixed_reads_witness :
  let p := [Byte.x02; Byte.x61; Byte.x62; Byte.x63] in
  let value := bytes_of_string "value" in
  GetLengthPrefixedSlice p = (Some [Byte.x61; Byte.x62], [Byte.x63]) /\
  (forall v q, GetVarint32Ptr p = Some (v, q) ->
     0 <= v < 2 ^ 32 /\ exists k, p = k ++ q /\ 1 <= blen k <= 5) /\
  (forall s q, GetLengthPrefixedSlice p = (Some s, q) ->
     exists k, p = k ++ s ++ q /\ GetVarint32 p = (Some (blen s), s ++ q)) /\
  GetLengthPrefixedSlice (PutLengthPrefixedSlice [] value ++ p) = (Some value, p).
Proof.
  intros p value. split; [reflexivity|]. apply LengthPrefixed_reads. vm_compute. reflexivity.
Defined.
