(* ===== verification/Crc32c.v ===== *)
(** CRC-32C of [util/crc32c.h] and [util/crc32c.cpp]: the table-driven
    [Extend], which aligns the pointer, folds 16-byte swaths into four
    interleaved partial results and recombines them, is proved equal to the
    bit-serial shift register on every buffer, at every alignment and on every
    port. *)

From AAC_tactics Require Import AAC.
From S2P Require Import Prelude Port Coding Crc32cTables.

(** * The code *)

Definition kMaskDelta : Z := 0xa282ead8.

Definition kCRC32Xor : Z := 0xffffffff.

Definition Mask (crc : Z) : Z :=
  u32 (Z.lor (Z.shiftr crc 15) (u32 (Z.shiftl crc 17)) + kMaskDelta).

Definition Unmask (masked_crc : Z) : Z :=
  let rot := u32 (masked_crc - kMaskDelta) in
  Z.lor (Z.shiftr rot 17) (u32 (Z.shiftl rot 15)).

(** The smallest multiple of [N] at or above an address, in [uintptr_t]. *)
Definition RoundUp (N pointer : Z) : Z :=
  Z.land (u64 (pointer + (N - 1))) (u64 (Z.lnot (N - 1))).

(** Process one byte. *)
Definition STEP1 (l : Z) (b : byte) : Z :=
  let c := Z.lxor (Z.land l 0xff) (ub b) in
  Z.lxor (table_at kByteExtensionTable c) (Z.shiftr l 8).

(** Process one of the four strides, whose next word is [w]. *)
Definition STEP4 (w crc : Z) : Z :=
  Z.lxor (Z.lxor (Z.lxor (Z.lxor w
    (table_at kStrideExtensionTable3 (Z.land crc 0xff)))
    (table_at kStrideExtensionTable2 (Z.land (Z.shiftr crc 8) 0xff)))
    (table_at kStrideExtensionTable1 (Z.land (Z.shiftr crc 16) 0xff)))
    (table_at kStrideExtensionTable0 (Z.shiftr crc 24)).

(** Process four bytes that were already loaded into a word. *)
Definition STEP4W_round (w : Z) : Z :=
  Z.lxor (Z.shiftr w 8) (table_at kByteExtensionTable (Z.land w 0xff)).

Definition STEP4W (l w : Z) : Z := Nat.iter 4 STEP4W_round (Z.lxor w l).

(** The four partial results [crc0] .. [crc3]. *)
Record strides := { crc0 : Z; crc1 : Z; crc2 : Z; crc3 : Z }.

Section extend.
Context {port : Port}.

Definition ReadUint32LE (buffer : bytes) : Z := DecodeFixed32 buffer.

Definition STEP16 (c : strides) (p : bytes) : strides :=
  {| crc0 := STEP4 (ReadUint32LE p) (crc0 c);
     crc1 := STEP4 (ReadUint32LE (drop 4 p)) (crc1 c);
     crc2 := STEP4 (ReadUint32LE (drop 8 p)) (crc2 c);
     crc3 := STEP4 (ReadUint32LE (drop 12 p)) (crc3 c) |}.

(** [while ((e - p) >= 16) STEP16]; the fuel is the number of bytes left. *)
Fixpoint Extend_swaths (fuel : nat) (c : strides) (p : bytes) : strides * bytes :=
  match fuel with
  | O => (c, p)
  | S fuel =>
    if 16 <=? blen p then Extend_swaths fuel (STEP16 c p) (drop 16 p) else (c, p)
  end.

(** [while ((e - p) >= 4)]: one word, then rotate the strides. *)
Fixpoint Extend_words (fuel : nat) (c : strides) (p : bytes) : strides * bytes :=
  match fuel with
  | O => (c, p)
  | S fuel =>
    if 4 <=? blen p then
      let tmp := STEP4 (ReadUint32LE p) (crc0 c) in
      Extend_words fuel
        {| crc0 := crc1 c; crc1 := crc2 c; crc2 := crc3 c; crc3 := tmp |} (drop 4 p)
    else (c, p)
  end.

Definition CanAccelerateCRC32C : bool :=
  AcceleratedCRC32C 0 (bytes_of_string "TestCRCBuffer") =? 0xdcbc59fa.

(** The bytes processed one by one before the pointer is 4-byte aligned. *)
Definition Extend_head (addr n : Z) : nat :=
  let x := RoundUp 4 addr in
  if x <=? addr + n then Z.to_nat (x - addr) else 0%nat.

(** [if ((e - p) >= 16)]: the swath phase. *)
Definition Extend_strides (l : Z) (p : bytes) : Z * bytes :=
  if 16 <=? blen p then
    let c := {| crc0 := Z.lxor (ReadUint32LE p) l;
                crc1 := ReadUint32LE (drop 4 p);
                crc2 := ReadUint32LE (drop 8 p);
                crc3 := ReadUint32LE (drop 12 p) |} in
    let p := drop 16 p in
    let '(c, p) := Extend_swaths (length p) c p in
    let '(c, p) := Extend_words (length p) c p in
    (STEP4W (STEP4W (STEP4W (STEP4W 0 (crc0 c)) (crc1 c)) (crc2 c)) (crc3 c), p)
  else (l, p).

(** [addr] is the address of [data]: the code aligns its reads to it. *)
Definition Extend (addr crc : Z) (data : bytes) : Z :=
  if CanAccelerateCRC32C then AcceleratedCRC32C crc data
  else
    let l := Z.lxor crc kCRC32Xor in
    let head := Extend_head addr (blen data) in
    let l := fold_left STEP1 (take head data) l in
    let '(l, p) := Extend_strides l (drop head data) in
    let l := fold_left STEP1 p l in
    Z.lxor l kCRC32Xor.

Definition Value (addr : Z) (data : bytes) : Z := Extend addr 0 data.

End extend.

(** * The specification: the bit-serial register *)

Definition crc_byte (l : Z) (b : byte) : Z := crc_advance 8 (Z.lxor l (ub b)).

Definition crc32c_spec (crc : Z) (data : bytes) : Z :=
  Z.lxor (fold_left crc_byte data (Z.lxor crc kCRC32Xor)) kCRC32Xor.

(** What a linked crc32c library promises: it computes CRC-32C. *)
Class PortCrcOk (port : Port) : Prop :=
  HAVE_CRC32C_spec : forall extend crc data,
    @HAVE_CRC32C port = Some extend -> 0 <= crc < 2 ^ 32 -> extend crc data = crc32c_spec crc data.

#[export] Instance little_endian_crc_ok : PortCrcOk little_endian_port.
Proof. by intros ???. Qed.

#[export] Instance big_endian_crc_ok : PortCrcOk big_endian_port.
Proof. by intros ???. Qed.

(** * Linearity of the register *)

#[export] Instance lxor_aac_assoc : Associative eq Z.lxor.
Proof. intros x y z. symmetry. apply Z.lxor_assoc. Qed.

#[export] Instance lxor_aac_comm : Commutative eq Z.lxor.
Proof. intros x y. apply Z.lxor_comm. Qed.

#[export] Instance lxor_aac_unit : Unit eq Z.lxor 0.
Proof. split; intros x; [apply Z.lxor_0_l|apply Z.lxor_0_r]. Qed.

#[export] Instance lxor_aac_proper : Proper (eq ==> eq ==> eq) Z.lxor.
Proof. by repeat intros ? ? ->. Qed.

#[export] Instance eq_aac_lift {A} : AAC_lift (@eq A) (@eq A).
Proof. split; [apply _|]. by intros ?? -> ?? ->. Qed.

Lemma crc_bit_lxor a b : crc_bit (Z.lxor a b) = Z.lxor (crc_bit a) (crc_bit b).
Proof.
  unfold crc_bit. rewrite Z.shiftr_lxor, <- !Z.bit0_odd, Z.lxor_spec.
  destruct (Z.testbit a 0), (Z.testbit b 0); cbn [xorb];
    rewrite ?Z.lxor_0_r, ?Z.lxor_assoc; try done; [|aac_reflexivity].
  rewrite (Z.lxor_comm _ (Z.lxor (Z.shiftr b 1) _)), Z.lxor_assoc, Z.lxor_nilpotent.
  by rewrite Z.lxor_0_r.
Qed.

Lemma crc_advance_lxor n a b :
  crc_advance n (Z.lxor a b) = Z.lxor (crc_advance n a) (crc_advance n b).
Proof.
  unfold crc_advance. induction n as [|n IH]; [done|]. simpl. by rewrite IH, crc_bit_lxor.
Qed.

Lemma crc_advance_advance n m l : crc_advance n (crc_advance m l) = crc_advance (n + m) l.
Proof. unfold crc_advance. by rewrite Nat.iter_add. Qed.

(** Eight steps shift out a zero byte. *)
Lemma crc_advance_8_shiftl x : crc_advance 8 (Z.shiftl x 8) = x.
Proof.
  assert (forall y, crc_bit (2 * y) = y) as Hb.
  { intros y. unfold crc_bit.
    rewrite Z.odd_mul. cbn [Z.odd andb]. rewrite Z.lxor_0_r, Z.shiftr_div_pow2 by lia.
    change (2 ^ 1) with 2. by rewrite Z.mul_comm, Z.div_mul. }
  rewrite Z.shiftl_mul_pow2 by lia.
  replace (x * 2 ^ 8) with (2 * (2 * (2 * (2 * (2 * (2 * (2 * (2 * x)))))))) by lia.
  unfold crc_advance. simpl Nat.iter. by rewrite !Hb.
Qed.

(** A value splits into its low byte and the rest. *)
Lemma low_byte_split m : m = Z.lxor (Z.land m 0xff) (Z.shiftl (Z.shiftr m 8) 8).
Proof.
  zbits. change 0xff with (Z.ones 8). destruct (decide (i < 8)).
  - rewrite Z.ones_spec_low, (Z.testbit_neg_r _ (i - 8)) by lia.
    by rewrite andb_true_r, xorb_false_r.
  - rewrite Z.ones_spec_high, andb_false_r by lia.
    rewrite Z.shiftr_spec by lia. rewrite xorb_false_l. f_equal. lia.
Qed.

Lemma land_ff_range m : 0 <= Z.land m 0xff < 256.
Proof. apply (land_range_r 8); lia. Qed.

Lemma crc_advance_8 m :
  crc_advance 8 m = Z.lxor (table_at kByteExtensionTable (Z.land m 0xff)) (Z.shiftr m 8).
Proof.
  rewrite (low_byte_split m) at 1.
  rewrite crc_advance_lxor, crc_advance_8_shiftl, kByteExtensionTable_at; [done|].
  apply land_ff_range.
Qed.

Lemma STEP1_crc_byte l b : STEP1 l b = crc_byte l b.
Proof.
  unfold STEP1, crc_byte. rewrite crc_advance_8. pose proof (ub_range b) as Hb. f_equal.
  - f_equal. change 0xff with (Z.ones 8). zbits.
    destruct (decide (i < 8)).
    + by rewrite Z.ones_spec_low, !andb_true_r by lia.
    + rewrite Z.ones_spec_high, !andb_false_r by lia.
      by rewrite (testbit_above 8 (ub b)) by lia.
  - zbits. rewrite (testbit_above 8 (ub b)) by lia. by rewrite xorb_false_r.
Qed.

(** Feeding bytes one at a time is advancing the register over their
    little-endian value at once. *)
Lemma fold_crc_byte l bs :
  fold_left crc_byte bs l = crc_advance (8 * length bs) (Z.lxor l (le_combine bs)).
Proof.
  revert l. induction bs as [|b bs IH]; intros l; cbn [fold_left le_combine length].
  { by rewrite Z.lxor_0_r. }
  rewrite IH. unfold crc_byte. pose proof (ub_range b).
  replace (Z.lor (ub b) (Z.shiftl (le_combine bs) 8))
    with (Z.lxor (ub b) (Z.shiftl (le_combine bs) 8)).
  2:{ rewrite lor_shiftl_add, <- Z.shiftl_mul_pow2 by lia. symmetry.
      apply Z.add_nocarry_lxor. apply Z.bits_inj_0. intros i. rewrite Z.land_spec.
      destruct (decide (i < 8)).
      - rewrite Z.shiftl_spec_low by done. apply andb_false_r.
      - by rewrite (testbit_above 8 (ub b)) by lia. }
  rewrite <- Z.lxor_assoc.
  replace (8 * S (length bs))%nat with (8 * length bs + 8)%nat by lia.
  rewrite <- crc_advance_advance, (crc_advance_lxor 8 _ (Z.shiftl _ _)).
  by rewrite crc_advance_8_shiftl.
Qed.

Lemma crc_bit_range l : 0 <= l < 2 ^ 32 -> 0 <= crc_bit l < 2 ^ 32.
Proof.
  intros Hl. unfold crc_bit. apply lxor_range; [lia| |case_match; lia].
  pose proof (shiftr_range 32 1 l ltac:(lia) ltac:(lia)). lia.
Qed.

Lemma crc_advance_range n l : 0 <= l < 2 ^ 32 -> 0 <= crc_advance n l < 2 ^ 32.
Proof.
  intros Hl. unfold crc_advance. induction n as [|n IH]; [done|]. by apply crc_bit_range.
Qed.

Lemma fold_crc_byte_range l bs :
  0 <= l < 2 ^ 32 -> 0 <= fold_left crc_byte bs l < 2 ^ 32.
Proof.
  revert l. induction bs as [|b bs IH]; intros l Hl; [done|]. apply IH.
  apply crc_advance_range, lxor_range; [lia|done|]. pose proof (ub_range b). lia.
Qed.

Lemma crc_advance_0 n : crc_advance n 0 = 0.
Proof. unfold crc_advance. induction n as [|n IH]; [done|]. simpl. by rewrite IH. Qed.

(** * The strides *)

#[local] Opaque crc_advance.

Lemma word_split m :
  m = Z.lxor (Z.lxor (Z.lxor (Z.land m 0xff)
        (Z.shiftl (Z.land (Z.shiftr m 8) 0xff) 8))
        (Z.shiftl (Z.land (Z.shiftr m 16) 0xff) 16))
        (Z.shiftl (Z.shiftr m 24) 24).
Proof.
  rewrite (low_byte_split m) at 1. rewrite (low_byte_split (Z.shiftr m 8)) at 1.
  rewrite (low_byte_split (Z.shiftr (Z.shiftr m 8) 8)) at 1.
  rewrite !Z.shiftl_lxor, !Z.shiftl_shiftl, !Z.shiftr_shiftr by lia.
  change (8 + 8) with 16. change (8 + 16) with 24. change (16 + 8) with 24.
  aac_reflexivity.
Qed.

Lemma STEP4_spec w crc :
  0 <= crc < 2 ^ 32 -> STEP4 w crc = Z.lxor w (crc_advance 128 crc).
Proof.
  intros Hc. unfold STEP4.
  rewrite kStrideExtensionTable3_at, kStrideExtensionTable2_at, kStrideExtensionTable1_at
    by apply land_ff_range.
  rewrite kStrideExtensionTable0_at
    by (pose proof (shiftr_range 8 24 crc ltac:(lia) ltac:(lia)); lia).
  rewrite (word_split crc) at 5. rewrite !crc_advance_lxor. aac_reflexivity.
Qed.

Lemma STEP4W_spec l w : STEP4W l w = crc_advance 32 (Z.lxor w l).
Proof.
  assert (forall x, STEP4W_round x = crc_advance 8 x) as Hr.
  { intros x. unfold STEP4W_round. rewrite crc_advance_8. apply Z.lxor_comm. }
  change (STEP4W l w)
    with (STEP4W_round (STEP4W_round (STEP4W_round (STEP4W_round (Z.lxor w l))))).
  by rewrite !Hr, !crc_advance_advance.
Qed.

(** Equalities between xors of advanced registers: distribute, add up the
    step counts and reorder. *)
Ltac xor_linear :=
  rewrite ?crc_advance_lxor, ?crc_advance_advance, ?crc_advance_lxor, ?crc_advance_0;
  simpl Nat.add; aac_reflexivity.

(** The register the four partial results stand for. *)
Definition combine4 (c : strides) : Z :=
  STEP4W (STEP4W (STEP4W (STEP4W 0 (crc0 c)) (crc1 c)) (crc2 c)) (crc3 c).

Definition strides_ok (c : strides) : Prop :=
  0 <= crc0 c < 2 ^ 32 /\ 0 <= crc1 c < 2 ^ 32 /\
  0 <= crc2 c < 2 ^ 32 /\ 0 <= crc3 c < 2 ^ 32.

Lemma combine4_spec c :
  combine4 c = Z.lxor (Z.lxor (Z.lxor (crc_advance 128 (crc0 c)) (crc_advance 96 (crc1 c)))
                 (crc_advance 64 (crc2 c))) (crc_advance 32 (crc3 c)).
Proof.
  unfold combine4. rewrite !STEP4W_spec. xor_linear.
Qed.

Section strides.
Context {port : Port}.

Lemma ReadUint32LE_le p : (4 <= length p)%nat -> ReadUint32LE p = le_combine (take 4 p).
Proof. apply DecodeFixed32_le. Qed.

Lemma ReadUint32LE_range p : (4 <= length p)%nat -> 0 <= ReadUint32LE p < 2 ^ 32.
Proof. apply DecodeFixed32_range. Qed.

(** One word through the byte-wise register. *)
Lemma fold_word l p :
  (4 <= length p)%nat ->
  fold_left crc_byte (take 4 p) l = crc_advance 32 (Z.lxor l (ReadUint32LE p)).
Proof.
  intros Hp. rewrite fold_crc_byte, ReadUint32LE_le by done.
  by rewrite length_take, Nat.min_l by lia.
Qed.

Lemma fold_16 l p :
  (16 <= length p)%nat ->
  fold_left crc_byte (take 16 p) l =
  Z.lxor (Z.lxor (Z.lxor (Z.lxor (crc_advance 128 l) (crc_advance 128 (ReadUint32LE p)))
    (crc_advance 96 (ReadUint32LE (drop 4 p)))) (crc_advance 64 (ReadUint32LE (drop 8 p))))
    (crc_advance 32 (ReadUint32LE (drop 12 p))).
Proof.
  intros Hp.
  replace (take 16 p) with
    (take 4 p ++ take 4 (drop 4 p) ++ take 4 (drop 8 p) ++ take 4 (drop 12 p)).
  2:{ rewrite !app_assoc.
      rewrite (take_take_drop p 4 4). simpl Nat.add.
      rewrite (take_take_drop p 8 4). simpl Nat.add. apply take_take_drop. }
  rewrite !fold_left_app, !fold_word by len.
  xor_linear.
Qed.

(** A swath, and a rotated word, advance the combined register over exactly
    the bytes they consume. *)
Lemma STEP16_combine c p :
  (16 <= length p)%nat -> strides_ok c ->
  combine4 (STEP16 c p) = fold_left crc_byte (take 16 p) (combine4 c).
Proof.
  intros Hp (H0 & H1 & H2 & H3). rewrite fold_16, !combine4_spec by done.
  unfold STEP16. cbn [crc0 crc1 crc2 crc3]. rewrite !STEP4_spec by done. xor_linear.
Qed.

Lemma STEP4_range w crc :
  0 <= w < 2 ^ 32 -> 0 <= crc < 2 ^ 32 -> 0 <= STEP4 w crc < 2 ^ 32.
Proof.
  intros Hw Hc. rewrite STEP4_spec by done.
  apply lxor_range; [lia|done|]. by apply crc_advance_range.
Qed.

Lemma STEP16_ok c p : (16 <= length p)%nat -> strides_ok c -> strides_ok (STEP16 c p).
Proof.
  intros Hp (H0 & H1 & H2 & H3). unfold STEP16. split_and!; cbn [crc0 crc1 crc2 crc3];
    (apply STEP4_range; [apply ReadUint32LE_range; len|done]).
Qed.

Lemma Extend_swaths_spec fuel c p c' p' :
  strides_ok c -> Extend_swaths fuel c p = (c', p') ->
  strides_ok c' /\ fold_left crc_byte p' (combine4 c') = fold_left crc_byte p (combine4 c).
Proof.
  revert c p. induction fuel as [|fuel IH]; intros c p Hc; cbn [Extend_swaths].
  { by intros [= <- <-]. }
  destruct (Z.leb_spec 16 (blen p)); [|by intros [= <- <-]].
  assert (16 <= length p)%nat by len.
  intros [Hc' Hf]%IH; [|by apply STEP16_ok]. split; [done|].
  by rewrite Hf, STEP16_combine, <- fold_left_app, take_drop.
Qed.

Lemma Extend_words_spec fuel c p c' p' :
  strides_ok c -> Extend_words fuel c p = (c', p') ->
  fold_left crc_byte p' (combine4 c') = fold_left crc_byte p (combine4 c).
Proof.
  revert c p. induction fuel as [|fuel IH]; intros c p Hc; cbn [Extend_words].
  { by intros [= <- <-]. }
  destruct (Z.leb_spec 4 (blen p)); [|by intros [= <- <-]].
  assert (4 <= length p)%nat as Hl by len. destruct Hc as (Hc0 & Hc1 & Hc2 & Hc3).
  intros Hf%IH.
  - rewrite Hf. rewrite <- (take_drop 4 p) at 3. rewrite fold_left_app. f_equal.
    rewrite fold_word, !combine4_spec by done. cbn [crc0 crc1 crc2 crc3].
    rewrite STEP4_spec by done. xor_linear.
  - pose proof (STEP4_range _ _ (ReadUint32LE_range p Hl) Hc0).
    unfold strides_ok. cbn [crc0 crc1 crc2 crc3]. lia.
Qed.

Lemma fold_STEP1 l p : fold_left STEP1 p l = fold_left crc_byte p l.
Proof.
  revert l. induction p as [|b p IH]; intros l; [done|]. simpl. by rewrite STEP1_crc_byte.
Qed.

(** The swath phase, from its first load to the recombination. *)
Lemma Extend_load_spec l p :
  0 <= l < 2 ^ 32 -> (16 <= length p)%nat ->
  let c := {| crc0 := Z.lxor (ReadUint32LE p) l; crc1 := ReadUint32LE (drop 4 p);
              crc2 := ReadUint32LE (drop 8 p); crc3 := ReadUint32LE (drop 12 p) |} in
  strides_ok c /\ combine4 c = fold_left crc_byte (take 16 p) l.
Proof.
  intros Hl Hp c. split.
  - unfold strides_ok, c. cbn [crc0 crc1 crc2 crc3].
    split; [|split; [|split]]; try (apply ReadUint32LE_range; len).
    apply lxor_range; [lia| |done]. apply ReadUint32LE_range; lia.
  - rewrite combine4_spec, fold_16 by done. unfold c. cbn [crc0 crc1 crc2 crc3]. xor_linear.
Qed.

Lemma Extend_strides_spec l p l' p' :
  0 <= l < 2 ^ 32 -> Extend_strides l p = (l', p') ->
  fold_left crc_byte p' l' = fold_left crc_byte p l.
Proof.
  intros Hl. unfold Extend_strides.
  destruct (Z.leb_spec 16 (blen p)); [|by intros [= <- <-]].
  assert (16 <= length p)%nat as Hp by len.
  destruct (Extend_load_spec l p Hl Hp) as [Hok Hcomb].
  destruct (Extend_swaths _ _ _) as [c1 p1] eqn:E1.
  apply Extend_swaths_spec in E1 as [Hok1 E1]; [|done].
  destruct (Extend_words _ _ _) as [c2 p2] eqn:E2.
  apply Extend_words_spec in E2; [|done].
  intros [= <- <-]. change (fold_left crc_byte p2 (combine4 c2) = fold_left crc_byte p l).
  by rewrite E2, E1, Hcomb, <- fold_left_app, take_drop.
Qed.

Lemma Extend_software addr crc data :
  CanAccelerateCRC32C = false -> 0 <= crc < 2 ^ 32 ->
  Extend addr crc data = crc32c_spec crc data.
Proof.
  intros Ha Hc. unfold Extend, crc32c_spec. rewrite Ha.
  destruct (Extend_strides _ _) as [l' p'] eqn:E. rewrite !fold_STEP1 in *.
  apply Extend_strides_spec in E.
  - by rewrite E, <- fold_left_app, take_drop.
  - apply fold_crc_byte_range, lxor_range; unfold kCRC32Xor; lia.
Qed.

(** The result every caller relies on, at any alignment and on any port. *)
Lemma Extend_spec `{!PortCrcOk port} addr crc data :
  0 <= crc < 2 ^ 32 -> Extend addr crc data = crc32c_spec crc data.
Proof.
  intros Hc. destruct CanAccelerateCRC32C eqn:E; [|by apply Extend_software].
  unfold Extend. rewrite E. unfold CanAccelerateCRC32C, AcceleratedCRC32C in *.
  destruct HAVE_CRC32C as [extend|] eqn:Eh; [|done]. by apply HAVE_CRC32C_spec.
Qed.

End strides.

#[local] Transparent crc_advance.

(** * The interface of the header *)

Lemma crc32c_spec_range crc data : 0 <= crc < 2 ^ 32 -> 0 <= crc32c_spec crc data < 2 ^ 32.
Proof.
  intros Hc. unfold crc32c_spec, kCRC32Xor. apply lxor_range; [lia| |lia].
  apply fold_crc_byte_range, lxor_range; lia.
Qed.

(** The crc of a concatenation is obtained by extending the crc of its head. *)
Lemma crc32c_spec_app crc A B : crc32c_spec (crc32c_spec crc A) B = crc32c_spec crc (A ++ B).
Proof.
  unfold crc32c_spec. rewrite (Z.lxor_assoc _ kCRC32Xor kCRC32Xor), Z.lxor_nilpotent, Z.lxor_0_r.
  by rewrite fold_left_app.
Qed.

Lemma Mask_range crc : 0 <= Mask crc < 2 ^ 32.
Proof. unfold Mask, u32. apply Z.mod_pos_bound. lia. Qed.

(** A 32-bit rotation written with shifts, as a quotient and a remainder. *)
Lemma rotate_right_eq n m x :
  0 < n -> 0 < m -> n + m = 32 -> 0 <= x < 2 ^ 32 ->
  Z.lor (Z.shiftr x n) (u32 (Z.shiftl x m)) = x / 2 ^ n + (x mod 2 ^ n) * 2 ^ m.
Proof.
  intros Hn Hm Hnm Hx. unfold u32.
  assert (2 ^ 32 = 2 ^ n * 2 ^ m) as E by (rewrite <- Z.pow_add_r by lia; by f_equal).
  assert (Z.shiftl x m mod 2 ^ 32 = Z.shiftl (x mod 2 ^ n) m) as ->.
  { rewrite !Z.shiftl_mul_pow2, E by lia. apply Z.mul_mod_distr_r; apply Z.pow_nonzero; lia. }
  rewrite Z.shiftr_div_pow2 by lia. apply lor_shiftl_add; [lia|].
  split; [apply Z.div_pos; lia|apply Z.div_lt_upper_bound; lia].
Qed.

Lemma Unmask_Mask_small crc : 0 <= crc < 2 ^ 32 -> Unmask (Mask crc) = crc.
Proof.
  intros Hc. unfold Unmask, Mask. cbv zeta. rewrite (rotate_right_eq 15 17) by lia.
  pose proof (Z.mod_pos_bound crc (2 ^ 15) ltac:(lia)) as Hm.
  pose proof (Z.div_mod crc (2 ^ 15) ltac:(lia)) as Hd.
  set (q := crc / 2 ^ 15) in *. set (r := crc mod 2 ^ 15) in *.
  assert (u32 (u32 (q + r * 2 ^ 17 + kMaskDelta) - kMaskDelta) = q + r * 2 ^ 17) as ->.
  { unfold u32. rewrite Zminus_mod_idemp_l, Z.add_simpl_r. apply Z.mod_small. lia. }
  rewrite (rotate_right_eq 17 15) by lia.
  rewrite Z.div_add, Z_mod_plus_full, Z.div_small, Z.mod_small by lia. lia.
Qed.

(** C18: the software path of [Extend] computes CRC-32C: whatever the address
    of the buffer, and so however it splits it into a head, 16-byte swaths,
    words and a tail, the result is that of the bit-serial shift register, a
    32-bit value; and [Extend(Value(A), B)] is the crc of the concatenation. *)
Theorem Extend_computes_crc32c {port : Port} (addrA addrB crc : Z) (A B : bytes) :
  CanAccelerateCRC32C = false -> 0 <= crc < 2 ^ 32 ->
  Extend addrA crc A = crc32c_spec crc A /\
  0 <= Extend addrA crc A < 2 ^ 32 /\
  Extend addrB (Extend addrA crc A) B = Extend addrA crc (A ++ B) /\
  Extend addrB (Value addrA A) B = Value addrA (A ++ B).
Proof.
  intros Ha Hc. unfold Value.
  pose proof (crc32c_spec_range crc A Hc). pose proof (crc32c_spec_range 0 A ltac:(lia)).
  rewrite !Extend_software; rewrite ?Extend_software by (done || lia); try (done || lia).
  by rewrite !crc32c_spec_app.
Qed.

(** The RFC 3720 test vector of 32 zero bytes, at an unaligned address. *)
Lemma Extend_computes_crc32c_witness :
  let A := replicate 32 Byte.x00 in
  let B := bytes_of_string "hello world" in
  let P := little_endian_port in
  Value 1003 A = 0x8a9136aa /\
  Extend 1003 0 A = crc32c_spec 0 A /\
  0 <= Extend 1003 0 A < 2 ^ 32 /\
  Extend 2002 (Extend 1003 0 A) B = Extend 1003 0 (A ++ B) /\
  Extend 2002 (Value 1003 A) B = Value 1003 (A ++ B).
Proof.
  intros A B P. split; [vm_compute; reflexivity|].
  apply (Extend_computes_crc32c (port := P)); [vm_compute; reflexivity|lia].
Defined.

(** Masking is reversible: [Unmask(Mask(crc))] is [crc] for every 32-bit
    crc, although [Mask] wraps when it adds its constant. *)
Theorem Unmask_Mask (crc : Z) :
  0 <= crc < 2 ^ 32 -> Unmask (Mask crc) = crc /\ 0 <= Mask crc < 2 ^ 32.
Proof. intros Hc. split; [by apply Unmask_Mask_small|apply Mask_range]. Qed.

Lemma Unmask_Mask_witness :
  Unmask (Mask 0xffffffff) = 0xffffffff /\ 0 <= Mask 0xffffffff < 2 ^ 32.
Proof. apply Unmask_Mask. lia. Defined.
