(* ===== verification/Logging.v ===== *)
(** Text formatting of [util/logging.cpp], with the [printf] conversions the
    sources use.  The decimal reader is proved against the value of a digit
    string, including its overflow behaviour. *)

From S2P Require Import Prelude.

(** * The conversions of [snprintf] that occur in the sources *)

Definition digit (d : Z) : byte := bz (48 + d).

(** [%llu]; twenty digits hold every 64-bit value. *)
Fixpoint print_u64_loop (fuel : nat) (n : Z) (acc : bytes) : bytes :=
  match fuel with
  | O => acc
  | S fuel =>
    let acc := digit (n mod 10) :: acc in
    if n / 10 =? 0 then acc else print_u64_loop fuel (n / 10) acc
  end.

Definition print_u64 (n : Z) : bytes := print_u64_loop 20 n [].

(** [%d] *)
Definition print_int (n : Z) : bytes :=
  if n <? 0 then bz 45 :: print_u64 (- n) else print_u64 n.

(** [%06llu] *)
Definition print_u64_06 (n : Z) : bytes :=
  let s := print_u64 n in replicate (6 - length s) (digit 0) ++ s.

(** [%02x] of a byte *)
Definition hex_digit (d : Z) : byte := if d <? 10 then bz (48 + d) else bz (97 + (d - 10)).

Definition print_hex2 (n : Z) : bytes := [hex_digit (n / 16); hex_digit (n mod 16)].

(** * The code *)

Definition AppendNumberTo (str : bytes) (num : Z) : bytes := str ++ print_u64 num.

(** [char] is signed: bytes from 0x80 up compare below the space. *)
Definition escape_char (c : byte) : bytes :=
  if (32 <=? sb c) && (sb c <=? 126) then [c]
  else bytes_of_string "\x" ++ print_hex2 (Z.land (sb c) 0xff).

Definition AppendEscapedStringTo (str value : bytes) : bytes :=
  fold_left (fun str c => str ++ escape_char c) value str.

Definition NumberToString (num : Z) : bytes := AppendNumberTo [] num.

Definition EscapeString (value : bytes) : bytes := AppendEscapedStringTo [] value.

Definition kMaxUint64 : Z := u64 (Z.lnot 0).

(** The [while (!in->empty())] loop: [inl] is the early [return false] with
    the slice as it was left, [inr] the value, the digit count and the rest. *)
Fixpoint ConsumeDecimalNumber_loop (i : bytes) (v digits : Z) : bytes + (Z * Z * bytes) :=
  match i with
  | [] => inr (v, digits, [])
  | c :: rest =>
    if (48 <=? sb c) && (sb c <=? 57) then
      let digits := digits + 1 in
      let delta := sb c - 48 in
      if (kMaxUint64 / 10 <? v) ||
         ((v =? kMaxUint64 / 10) && (kMaxUint64 mod 10 <? delta))
      then inl i
      else ConsumeDecimalNumber_loop rest (u64 (v * 10 + delta)) digits
    else inr (v, digits, i)
  end.

(** Returns the boolean result, the slice as it is left and [*val] when it
    was assigned. *)
Definition ConsumeDecimalNumber (i : bytes) : bool * bytes * option Z :=
  match ConsumeDecimalNumber_loop i 0 0 with
  | inl rest => (false, rest, None)
  | inr (v, digits, rest) => (0 <? digits, rest, Some v)
  end.

(** * Digit strings *)

Definition is_digit (c : byte) : bool := (48 <=? sb c) && (sb c <=? 57).

Definition digits_value (acc : Z) (l : bytes) : Z :=
  fold_left (fun v c => v * 10 + (sb c - 48)) l acc.

Lemma sb_digit d : 0 <= d < 10 -> sb (digit d) = 48 + d.
Proof.
  intros Hd. unfold sb, digit. rewrite ub_bz_small by lia.
  by rewrite (proj2 (Z.ltb_lt _ _)) by lia.
Qed.

Lemma is_digit_digit d : 0 <= d < 10 -> is_digit (digit d) = true.
Proof.
  intros Hd. unfold is_digit. rewrite sb_digit by done.
  apply andb_true_iff. rewrite !Z.leb_le. lia.
Qed.

Lemma digits_value_app acc l k : digits_value acc (l ++ k) = digits_value (digits_value acc l) k.
Proof. apply fold_left_app. Qed.

Lemma digits_value_mono acc l :
  0 <= acc -> Forall (fun c => is_digit c = true) l -> acc <= digits_value acc l.
Proof.
  intros Ha Hl. revert acc Ha. induction Hl as [|c l Hc Hl IH]; intros acc Ha; [done|].
  unfold is_digit in Hc. rewrite andb_true_iff, !Z.leb_le in Hc.
  cbn [digits_value fold_left]. specialize (IH (acc * 10 + (sb c - 48))).
  unfold digits_value in IH. lia.
Qed.

(** The printer writes a digit string of the right value. *)
Lemma print_u64_loop_spec fuel n acc :
  0 <= n < 10 ^ Z.of_nat fuel -> (0 < fuel)%nat ->
  exists l, print_u64_loop fuel n acc = l ++ acc /\ l <> [] /\
    Forall (fun c => is_digit c = true) l /\ digits_value 0 l = n.
Proof.
  revert n acc. induction fuel as [|fuel IH]; intros n acc Hn Hf; [lia|].
  cbn [print_u64_loop]. pose proof (Z.mod_pos_bound n 10 ltac:(lia)) as Hm.
  assert (digits_value (n / 10) [digit (n mod 10)] = n) as Hv.
  { unfold digits_value. cbn [fold_left]. rewrite sb_digit by lia.
    pose proof (Z.div_mod n 10). lia. }
  destruct (Z.eqb_spec (n / 10) 0) as [E|E].
  - exists [digit (n mod 10)]. rewrite E in Hv. split_and!; try done.
    constructor; [by apply is_digit_digit|constructor].
  - rewrite Nat2Z.inj_succ, Z.pow_succ_r in Hn by lia.
    assert (0 < fuel)%nat as Hf'.
    { destruct fuel; [|lia]. exfalso. apply E, Z.div_small. simpl in Hn. lia. }
    destruct (IH (n / 10) (digit (n mod 10) :: acc)) as (l & Hl & Hne & Hd & Hlv);
      [|done|].
    { split; [apply Z.div_pos; lia|apply Z.div_lt_upper_bound; lia]. }
    exists (l ++ [digit (n mod 10)]). rewrite <- app_assoc. split_and!.
    + done.
    + by intros [_ ?]%app_eq_nil.
    + apply Forall_app. split; [done|].
      constructor; [by apply is_digit_digit|constructor].
    + by rewrite digits_value_app, Hlv.
Qed.

Lemma print_u64_spec n :
  0 <= n < 2 ^ 64 ->
  print_u64 n <> [] /\ Forall (fun c => is_digit c = true) (print_u64 n) /\
  digits_value 0 (print_u64 n) = n.
Proof.
  intros Hn. destruct (print_u64_loop_spec 20 n []) as (l & Hl & ?); [simpl; lia|lia|].
  unfold print_u64. by rewrite Hl, app_nil_r.
Qed.

(** Reading a digit string: its value if it fits 64 bits, else the overflow
    return. *)
Lemma kMaxUint64_eq : kMaxUint64 = 2 ^ 64 - 1.
Proof. reflexivity. Qed.

Lemma ConsumeDecimalNumber_loop_fits l rest v digits :
  Forall (fun c => is_digit c = true) l ->
  (match rest with c :: _ => is_digit c = false | [] => True end) ->
  0 <= v -> digits_value v l < 2 ^ 64 ->
  ConsumeDecimalNumber_loop (l ++ rest) v digits =
  inr (digits_value v l, digits + blen l, rest).
Proof.
  intros Hl Hr. revert v digits. induction Hl as [|c l Hc Hl IH]; intros v digits Hv Hfit.
  - cbn [app]. rewrite blen_nil, Z.add_0_r. destruct rest as [|c rest]; [done|].
    cbn [ConsumeDecimalNumber_loop]. unfold is_digit in Hr. by rewrite Hr.
  - cbn [app ConsumeDecimalNumber_loop]. unfold is_digit in Hc. rewrite Hc.
    rewrite andb_true_iff, !Z.leb_le in Hc.
    cbn [digits_value fold_left] in *. fold (digits_value (v * 10 + (sb c - 48)) l) in *.
    pose proof (digits_value_mono (v * 10 + (sb c - 48)) l ltac:(lia) Hl) as Hm.
    rewrite kMaxUint64_eq. change ((2 ^ 64 - 1) / 10) with 1844674407370955161.
    change ((2 ^ 64 - 1) mod 10) with 5.
    rewrite (proj2 (Z.ltb_ge _ _)) by lia. cbn [orb].
    replace ((v =? 1844674407370955161) && (5 <? sb c - 48)) with false
      by (symmetry; apply andb_false_iff; rewrite Z.eqb_neq, Z.ltb_ge; lia).
    unfold u64. rewrite Z.mod_small by lia. rewrite IH by lia.
    rewrite blen_cons. do 3 f_equal. lia.
Qed.

Lemma ConsumeDecimalNumber_loop_overflow l rest v digits :
  Forall (fun c => is_digit c = true) l ->
  0 <= v < 2 ^ 64 -> 2 ^ 64 <= digits_value v l ->
  exists i, ConsumeDecimalNumber_loop (l ++ rest) v digits = inl i.
Proof.
  intros Hl. revert v digits. induction Hl as [|c l Hc Hl IH]; intros v digits Hv Hbig.
  - unfold digits_value in Hbig. simpl in Hbig. lia.
  - cbn [app ConsumeDecimalNumber_loop]. unfold is_digit in Hc. rewrite Hc.
    rewrite andb_true_iff, !Z.leb_le in Hc.
    cbn [digits_value fold_left] in Hbig. fold (digits_value (v * 10 + (sb c - 48)) l) in Hbig.
    rewrite kMaxUint64_eq. change ((2 ^ 64 - 1) / 10) with 1844674407370955161.
    change ((2 ^ 64 - 1) mod 10) with 5. case_match eqn:Eo; [eauto|].
    rewrite orb_false_iff, Z.ltb_ge, andb_false_iff, Z.eqb_neq, Z.ltb_ge in Eo.
    unfold u64. rewrite Z.mod_small by lia. apply IH; [lia|done].
Qed.

(** The longest digit prefix and what follows it. *)
Fixpoint digit_prefix (i : bytes) : bytes * bytes :=
  match i with
  | [] => ([], [])
  | c :: rest =>
    if is_digit c then let '(l, r) := digit_prefix rest in (c :: l, r) else ([], i)
  end.

Lemma digit_prefix_spec i l r :
  digit_prefix i = (l, r) ->
  i = l ++ r /\ Forall (fun c => is_digit c = true) l /\
  match r with c :: _ => is_digit c = false | [] => True end.
Proof.
  revert l r. induction i as [|c i IH]; intros l r; cbn [digit_prefix].
  { by intros [= <- <-]. }
  destruct (is_digit c) eqn:Ec; [|by intros [= <- <-]].
  destruct (digit_prefix i) as [l' r']. intros [= <- <-].
  destruct (IH l' r' eq_refl) as (-> & Hl & Hr). split_and!; [done|by constructor|done].
Qed.

Lemma digit_prefix_app l r :
  Forall (fun c => is_digit c = true) l ->
  match r with c :: _ => is_digit c = false | [] => True end ->
  digit_prefix (l ++ r) = (l, r).
Proof.
  intros Hl Hr. induction Hl as [|c l Hc Hl IH]; cbn [app digit_prefix].
  - destruct r as [|c r]; [done|]. cbn [digit_prefix]. by rewrite Hr.
  - by rewrite Hc, IH.
Qed.

(** [ConsumeDecimalNumber] on every input. *)
Lemma ConsumeDecimalNumber_digits i l r :
  digit_prefix i = (l, r) ->
  if decide (digits_value 0 l < 2 ^ 64)
  then ConsumeDecimalNumber i = (0 <? blen l, r, Some (digits_value 0 l))
  else exists rest, ConsumeDecimalNumber i = (false, rest, None).
Proof.
  intros (-> & Hl & Hr)%digit_prefix_spec. unfold ConsumeDecimalNumber. case_decide.
  - by rewrite ConsumeDecimalNumber_loop_fits.
  - destruct (ConsumeDecimalNumber_loop_overflow l r 0 0 Hl) as [rest ->]; [lia..|]. eauto.
Qed.

Lemma ConsumeDecimalNumber_print n rest :
  0 <= n < 2 ^ 64 -> match rest with c :: _ => is_digit c = false | [] => True end ->
  ConsumeDecimalNumber (print_u64 n ++ rest) = (true, rest, Some n).
Proof.
  intros Hn Hr. destruct (print_u64_spec n Hn) as (Hne & Hd & Hv).
  pose proof (ConsumeDecimalNumber_digits _ _ _ (digit_prefix_app _ _ Hd Hr)) as H.
  rewrite Hv, decide_True in H by lia. rewrite H.
  destruct (print_u64 n); [done|]. by rewrite blen_cons, (proj2 (Z.ltb_lt _ _)) by len.
Qed.

(** [ConsumeDecimalNumber] on every input: it takes the longest run of
    digits, returns its value and the rest when the run is not empty and the
    value fits 64 bits, reports failure with value 0 on an empty run, and
    fails without assigning the value on overflow. *)
Theorem ConsumeDecimalNumber_correct (i : bytes) :
  let '(l, r) := digit_prefix i in
  if decide (digits_value 0 l < 2 ^ 64)
  then ConsumeDecimalNumber i = (negb (bool_decide (l = [])), r, Some (digits_value 0 l))
  else exists rest, ConsumeDecimalNumber i = (false, rest, None).
Proof.
  destruct (digit_prefix i) as [l r] eqn:E.
  pose proof (ConsumeDecimalNumber_digits i l r E) as H. case_decide; [|done].
  rewrite H. do 2 f_equal. destruct l as [|c l]; [done|].
  rewrite blen_cons. rewrite bool_decide_eq_false_2 by done. apply Z.ltb_lt. len.
Qed.

(** Printing a 64-bit number and reading it back gives the number and
    leaves what followed it, provided that does not start with a digit. *)
Theorem NumberToString_roundtrip (n : Z) (rest : bytes) :
  0 <= n < 2 ^ 64 -> fst (digit_prefix rest) = [] ->
  ConsumeDecimalNumber (NumberToString n ++ rest) = (true, rest, Some n).
Proof.
  intros Hn Hr. unfold NumberToString, AppendNumberTo. cbn [app].
  apply ConsumeDecimalNumber_print; [done|]. destruct rest as [|c rest]; [done|].
  cbn [digit_prefix] in Hr. destruct (is_digit c); [|done].
  by destruct (digit_prefix rest).
Qed.

Lemma NumberToString_roundtrip_witness :
  ConsumeDecimalNumber (NumberToString (2 ^ 64 - 1) ++ bytes_of_string ".log")
  = (true, bytes_of_string ".log", Some (2 ^ 64 - 1)).
Proof. apply NumberToString_roundtrip; [lia|reflexivity]. Defined.
