(* ===== verification/Status.v ===== *)
(** Operation results of [include/leveldb/status.h] and [util/status.cpp].

    [Status] is the value clients see: a code and a message.  [StatusRep] is
    the object the code builds: NULL, or a heap array holding the length, the
    code and the message.  The refinement says when the array represents the
    value; the constructor's 8-byte copy of a [size_t] into the 4-byte length
    field makes the array too small for messages of fewer than three bytes. *)

From S2P Require Import Prelude Port Coding Logging.

(** * The value *)

Inductive Code :=
  | kOk | kNotFound | kCorruption | kNotSupported | kInvalidArgument | kIOError.

#[export] Instance Code_eq_dec : EqDecision Code.
Proof. solve_decision. Defined.

Definition code_value (c : Code) : Z :=
  match c with
  | kOk => 0 | kNotFound => 1 | kCorruption => 2
  | kNotSupported => 3 | kInvalidArgument => 4 | kIOError => 5
  end.

Record Status := mkStatus { code : Code; message : bytes }.

#[export] Instance Status_eq_dec : EqDecision Status.
Proof. solve_decision. Defined.

Definition OK : Status := mkStatus kOk [].

(** The text a constructor stores for its two message parts. *)
Definition join_messages (msg msg2 : bytes) : bytes :=
  match msg2 with
  | [] => msg
  | _ => msg ++ bytes_of_string ": " ++ msg2
  end.

Definition NotFound (msg msg2 : bytes) : Status := mkStatus kNotFound (join_messages msg msg2).
Definition Corruption (msg msg2 : bytes) : Status :=
  mkStatus kCorruption (join_messages msg msg2).
Definition NotSupported (msg msg2 : bytes) : Status :=
  mkStatus kNotSupported (join_messages msg msg2).
Definition InvalidArgument (msg msg2 : bytes) : Status :=
  mkStatus kInvalidArgument (join_messages msg msg2).
Definition IOError (msg msg2 : bytes) : Status := mkStatus kIOError (join_messages msg msg2).

Definition ok (s : Status) : bool := bool_decide (code s = kOk).
Definition IsNotFound (s : Status) : bool := bool_decide (code s = kNotFound).
Definition IsCorruption (s : Status) : bool := bool_decide (code s = kCorruption).
Definition IsIOError (s : Status) : bool := bool_decide (code s = kIOError).

(** * The object *)

(** [state_]: NULL, or the [new[]] array. *)
Definition StatusRep := option bytes.

(** [memcpy(dst + off, src, ...)] into a heap array; [None] is a write past
    its end. *)
Definition array_write (dst : bytes) (off : nat) (src : bytes) : option bytes :=
  if (off + length src <=? length dst)%nat
  then Some (take off dst ++ src ++ drop (off + length src) dst)
  else None.

Section status_rep.
Context {port : Port}.

(** [Status(Code, const Slice&, const Slice&)].  [fresh] is the content
    [new char[size + 5]] happens to have; [sizeof(size)] is 8. *)
Definition StatusRep_new (fresh : nat -> bytes) (c : Code) (msg msg2 : bytes)
    : option StatusRep :=
  let len1 := length msg in
  let len2 := length msg2 in
  let size := (len1 + (if decide (len2 = 0%nat) then 0 else 2 + len2))%nat in
  let result := fresh (size + 5)%nat in
  result ← array_write result 0 (object_repr 8 (Z.of_nat size));
  result ← array_write result 4 [bz (code_value c)];
  result ← array_write result 5 msg;
  result ← (if decide (len2 = 0%nat) then Some result
            else
              result ← array_write result (5 + len1) [bz 58];
              result ← array_write result (6 + len1) [bz 32];
              array_write result (7 + len1) msg2);
  Some (Some result).

(** [CopyState]: read the length, copy that many bytes plus the header. *)
Definition StatusRep_CopyState (state : bytes) : bytes :=
  let size := object_value (take 4 state) in
  take (Z.to_nat size + 5) state.

Definition StatusRep_copy (s : StatusRep) : StatusRep :=
  match s with
  | None => None
  | Some state => Some (StatusRep_CopyState state)
  end.

(** [code()]: 0 for NULL, else the signed char at offset 4. *)
Definition StatusRep_code (s : StatusRep) : Z :=
  match s with
  | None => 0
  | Some state => sb (nth 4 state Byte.x00)
  end.

Definition StatusRep_ToString (s : StatusRep) : bytes :=
  match s with
  | None => bytes_of_string "OK"
  | Some state =>
    let type :=
      match StatusRep_code s with
      | 0 => bytes_of_string "OK"
      | 1 => bytes_of_string "NotFound: "
      | 2 => bytes_of_string "Corruption: "
      | 3 => bytes_of_string "Not implemented: "
      | 4 => bytes_of_string "Invalid argument: "
      | 5 => bytes_of_string "IO error: "
      | c => bytes_of_string "Unknown code(" ++ print_int c ++ bytes_of_string "): "
      end in
    let length := object_value (take 4 state) in
    type ++ take (Z.to_nat length) (drop 5 state)
  end.

End status_rep.

(** * Refinement *)

(** The array [state] represents the error status [s]. *)
Definition represents `{Port} (rep : StatusRep) (s : Status) : Prop :=
  match rep with
  | None => s = OK
  | Some state =>
    code s <> kOk /\
    state = object_repr 4 (blen (message s)) ++ bz (code_value (code s)) :: message s
  end.

Definition code_text (c : Code) : bytes :=
  match c with
  | kOk => bytes_of_string "OK"
  | kNotFound => bytes_of_string "NotFound: "
  | kCorruption => bytes_of_string "Corruption: "
  | kNotSupported => bytes_of_string "Not implemented: "
  | kInvalidArgument => bytes_of_string "Invalid argument: "
  | kIOError => bytes_of_string "IO error: "
  end.

Definition Status_ToString (s : Status) : bytes := code_text (code s) ++ message s.

Lemma length_join_messages msg msg2 :
  length (join_messages msg msg2) =
  (length msg + (if decide (length msg2 = 0%nat) then 0 else 2 + length msg2))%nat.
Proof.
  destruct msg2 as [|b msg2]; [simpl; lia|]. unfold join_messages.
  change (bytes_of_string ": ") with [Byte.x3a; Byte.x20].
  rewrite decide_False by done. rewrite !length_app. simpl. lia.
Qed.

Lemma sb_code c : sb (bz (code_value c)) = code_value c.
Proof. by destruct c. Qed.

Section facts.
Context {port : Port}.

Lemma length_object_repr n v : length (object_repr n v) = n.
Proof. unfold object_repr. case_match; len. Qed.

Lemma object_value_repr n v :
  0 <= v < 2 ^ (8 * Z.of_nat n) -> object_value (object_repr n v) = v.
Proof.
  intros Hv. unfold object_value, object_repr. destruct LEVELDB_IS_BIG_ENDIAN;
    rewrite ?rev_involutive; by apply le_combine_split_small.
Qed.

(** Writing the header and the message piece by piece. *)
Lemma array_write_eq dst off src :
  (off + length src <= length dst)%nat ->
  array_write dst off src = Some (take off dst ++ src ++ drop (off + length src) dst).
Proof. intros. unfold array_write. by rewrite (proj2 (Nat.leb_le _ _)). Qed.

Lemma array_write_app l m r off src :
  off = length l -> length m = length src ->
  array_write (l ++ m ++ r) off src = Some (l ++ src ++ r).
Proof.
  intros -> Hm. rewrite array_write_eq by len. rewrite take_app_length.
  rewrite <- Hm, (app_assoc l m r), drop_app_length' by len. done.
Qed.

(** A fresh array of the right size, cut into the pieces the code fills. *)
Lemma split_pieces (l : bytes) n :
  (n <= length l)%nat -> exists a b, l = a ++ b /\ length a = n.
Proof. intros. exists (take n l), (drop n l). rewrite take_drop. split; [done|len]. Qed.

Lemma le_split_8_small v :
  0 <= v < 2 ^ 32 -> le_split 8 v = le_split 4 v ++ replicate 4 (bz 0).
Proof.
  intros Hv. cbn [le_split app replicate]. rewrite !Z.shiftr_shiftr by lia.
  do 4 f_equal. rewrite !Z.shiftr_div_pow2 by lia.
  by rewrite !Z.div_small by (change (2 ^ 32) with 4294967296 in Hv; simpl; lia).
Qed.

Lemma StatusRep_new_eq fresh c msg msg2 :
  (forall n, length (fresh n) = n) -> LEVELDB_IS_BIG_ENDIAN = false ->
  3 <= blen (join_messages msg msg2) < 2 ^ 32 ->
  StatusRep_new fresh c msg msg2 =
  Some (Some (object_repr 4 (blen (join_messages msg msg2)) ++
              bz (code_value c) :: join_messages msg msg2)).
Proof.
  intros Hfresh Hend Hsize. unfold StatusRep_new, object_repr. rewrite Hend.
  unfold blen in *. cbv zeta. rewrite <- length_join_messages.
  pose proof (length_join_messages msg msg2) as Hjoin.
  set (size := length (join_messages msg msg2)) in *.
  destruct (split_pieces (fresh (size + 5)%nat) 8) as (a & b & E & Ha).
  { rewrite Hfresh. lia. }
  pose proof (Hfresh (size + 5)%nat) as Hlen. rewrite E in Hlen |- *.
  rewrite (array_write_app [] a b) by len. cbn [mbind option_bind app].
  rewrite le_split_8_small by lia. rewrite <- app_assoc. cbn [replicate app].
  rewrite (array_write_app (le_split 4 _) [bz 0] (bz 0 :: bz 0 :: bz 0 :: b)) by len.
  cbn [mbind option_bind].
  destruct (split_pieces (bz 0 :: bz 0 :: bz 0 :: b) (length msg)) as (m & r & E2 & Hm).
  { len. }
  pose proof (f_equal length E2) as Hr. rewrite length_app in Hr. simpl in Hr. rewrite E2.
  rewrite (app_assoc _ [bz (code_value c)] (m ++ r)), array_write_app by len.
  cbn [mbind option_bind]. rewrite (app_assoc _ msg r).
  assert (length a + length b = size + 5)%nat as Hb by len. clear E E2 Hlen.
  destruct (decide (length msg2 = 0%nat)) as [Hz|Hz].
  { apply nil_length_inv in Hz as ->. cbn [mbind option_bind].
    destruct r; [|simpl in *; lia]. by rewrite app_nil_r, <- app_assoc. }
  assert (join_messages msg msg2 = msg ++ [bz 58; bz 32] ++ msg2) as Hj by (by destruct msg2).
  destruct r as [|r1 [|r2 r]]; simpl in Hr; [lia..|].
  rewrite (array_write_app _ [r1] (r2 :: r)) by len. cbn [mbind option_bind].
  rewrite (app_assoc _ [bz 58] (r2 :: r)), (array_write_app _ [r2] r) by len.
  cbn [mbind option_bind]. rewrite (app_assoc _ [bz 32] r).
  rewrite <- (app_nil_r r), (array_write_app _ r []) by (simpl in *; len).
  cbn [mbind option_bind]. by rewrite app_nil_r, Hj, <- !app_assoc.
Qed.

(** What the accessors read back from a represented status. *)
Lemma StatusRep_accessors rep s :
  represents rep s -> blen (message s) < 2 ^ 32 ->
  StatusRep_code rep = code_value (code s) /\
  StatusRep_ToString rep = Status_ToString s /\ StatusRep_copy rep = rep.
Proof.
  intros Hrep Hlen. destruct rep as [state|]; [|by rewrite Hrep].
  destruct Hrep as [Hc ->]. set (n := blen (message s)) in *.
  assert (object_value (object_repr 4 n) = n) as Hn.
  { apply object_value_repr. unfold n in *. len. }
  set (h := object_repr 4 n) in *. assert (length h = 4%nat) as Hh by apply length_object_repr.
  assert (take 4 (h ++ bz (code_value (code s)) :: message s) = h) as Ht
    by (apply take_app_length'; done).
  assert (StatusRep_code (Some (h ++ bz (code_value (code s)) :: message s))
          = code_value (code s)) as Hcode.
  { cbn [StatusRep_code]. rewrite app_nth2, Hh by lia. apply sb_code. }
  split_and!; [done| |].
  - unfold StatusRep_ToString. rewrite Hcode, Ht, Hn.
    rewrite (app_assoc h [_] (message s) : h ++ bz _ :: message s = _).
    rewrite drop_app_length' by len. unfold n, blen. rewrite Nat2Z.id, take_ge by lia.
    unfold Status_ToString. by destruct (code s).
  - cbn [StatusRep_copy]. unfold StatusRep_CopyState. rewrite Ht, Hn. f_equal.
    apply take_ge. unfold n in *. len.
Qed.

(** The array a [Status] constructor builds on a little-endian host
    represents the status value it was asked for, whenever the message has
    at least three bytes (and fits the 32-bit length field): the constructor
    stays inside its allocation, and [code()], [ToString()] and the copy
    constructor all agree with the value. *)
Theorem StatusRep_refines (fresh : nat -> bytes) (c : Code) (msg msg2 : bytes) :
  (forall n, length (fresh n) = n) -> LEVELDB_IS_BIG_ENDIAN = false -> c <> kOk ->
  3 <= blen (join_messages msg msg2) < 2 ^ 32 ->
  let s := mkStatus c (join_messages msg msg2) in
  exists rep, StatusRep_new fresh c msg msg2 = Some rep /\ represents rep s /\
    StatusRep_code rep = code_value c /\
    StatusRep_ToString rep = Status_ToString s /\ StatusRep_copy rep = rep.
Proof.
  intros Hf He Hc Hs s. eexists. rewrite StatusRep_new_eq by done. split; [done|].
  match goal with |- represents ?r s /\ _ => assert (represents r s) as Hr by done end.
  split; [done|]. apply (StatusRep_accessors _ s Hr). simpl. lia.
Qed.

Lemma array_write_ok dst off src :
  (off + length src <= length dst)%nat ->
  exists dst', array_write dst off src = Some dst' /\ length dst' = length dst.
Proof.
  intros. rewrite array_write_eq by done. eexists. split; [done|]. len.
Qed.

(** C34: The constructor copies all eight bytes of its [size_t] length into
    the array of [size + 5] bytes, so it writes past the end of its
    allocation exactly when the message has fewer than three bytes (such as
    the empty message of [Status::NotFound(Slice())]), on every port. *)
Theorem StatusRep_new_short_overflow (fresh : nat -> bytes) (c : Code) (msg msg2 : bytes) :
  (forall n, length (fresh n) = n) ->
  StatusRep_new fresh c msg msg2 = None <-> blen (join_messages msg msg2) < 3.
Proof.
  intros Hfresh. unfold blen. rewrite length_join_messages.
  unfold StatusRep_new. cbv zeta. set (size := (length msg + _)%nat).
  pose proof (Hfresh (size + 5)%nat) as Hl. split.
  - intros Hnone. destruct (decide (size < 3)%nat); [lia|]. exfalso. revert Hnone.
    assert (size = length msg + if decide (length msg2 = 0%nat) then 0 else 2 + length msg2)%nat
      as Hsize by done.
    destruct (array_write_ok (fresh (size + 5)%nat) 0 (object_repr 8 (Z.of_nat size)))
      as (d1 & -> & H1); [rewrite length_object_repr; lia|].
    destruct (array_write_ok d1 4 [bz (code_value c)]) as (d2 & E2 & H2); [simpl; lia|].
    destruct (array_write_ok d2 5 msg) as (d3 & E3 & H3); [case_decide; lia|].
    cbn [mbind option_bind]. rewrite E2. cbn [mbind option_bind]. rewrite E3.
    cbn [mbind option_bind]. case_decide; [done|].
    destruct (array_write_ok d3 (5 + length msg) [bz 58]) as (d4 & -> & H4); [simpl; lia|].
    destruct (array_write_ok d4 (6 + length msg) [bz 32]) as (d5 & E5 & H5); [simpl; lia|].
    destruct (array_write_ok d5 (7 + length msg) msg2) as (d6 & E6 & H6); [lia|].
    cbn [mbind option_bind]. rewrite E5. cbn [mbind option_bind]. by rewrite E6.
  - intros Hlt.
    assert (array_write (fresh (size + 5)%nat) 0 (object_repr 8 (Z.of_nat size)) = None) as ->;
      [|done].
    unfold array_write. rewrite length_object_repr, Hl.
    by rewrite (proj2 (Nat.leb_gt _ _)) by lia.
Qed.

End facts.

Lemma StatusRep_refines_witness :
  let s := mkStatus kNotFound (bytes_of_string "f: gone") in
  exists rep, @StatusRep_new little_endian_port (fun n => replicate n (bz 0)) kNotFound
                (bytes_of_string "f") (bytes_of_string "gone") = Some rep /\
    @represents little_endian_port rep s /\ StatusRep_code rep = 1 /\
    @StatusRep_ToString little_endian_port rep = Status_ToString s /\
    @StatusRep_copy little_endian_port rep = rep.
Proof.
  apply (@StatusRep_refines little_endian_port (fun n => replicate n (bz 0)) kNotFound
           (bytes_of_string "f") (bytes_of_string "gone")).
  - intros n. apply length_replicate.
  - reflexivity.
  - discriminate.
  - vm_compute. split; [discriminate|reflexivity].
Defined.

Lemma StatusRep_new_short_overflow_witness :
  @StatusRep_new little_endian_port (fun n => replicate n (bz 0)) kNotFound [] [] = None.
Proof.
  apply (@StatusRep_new_short_overflow little_endian_port (fun n => replicate n (bz 0))
           kNotFound [] []).
  - intros n. apply length_replicate.
  - reflexivity.
Defined.
