(* ===== verification/Comparator.v ===== *)
(** Keys and their order: the slice comparison of [include/leveldb/slice.h],
    the [Comparator] interface of [include/leveldb/comparator.h] and the
    bytewise comparator of [util/comparator.cpp].

    The interface is a record of operations with a class of laws.  Clients
    (internal keys, blocks, tables, the memtable) are proved against the laws;
    the bytewise comparator is an instance. *)

From S2P Require Import Prelude.

(** * Slices *)

(** [memcmp] over the first [n] bytes; C fixes only the sign. *)
Fixpoint memcmp (n : nat) (a b : bytes) : Z :=
  match n, a, b with
  | S n, x :: a, y :: b =>
    if ub x <? ub y then -1 else if ub y <? ub x then 1 else memcmp n a b
  | _, _, _ => 0
  end.

Definition Slice_compare (a b : bytes) : Z :=
  let min_len := if blen a <? blen b then length a else length b in
  let r := memcmp min_len a b in
  if r =? 0 then
    if blen a <? blen b then -1
    else if blen b <? blen a then 1 else r
  else r.

Definition Slice_eq (x y : bytes) : bool :=
  (blen x =? blen y) && (memcmp (length x) x y =? 0).

Definition Slice_starts_with (s x : bytes) : bool :=
  (blen x <=? blen s) && (memcmp (length x) s x =? 0).

Definition Slice_remove_prefix (s : bytes) (n : Z) : bytes := drop (Z.to_nat n) s.

(** * The comparator interface *)

Record Comparator := {
  Name : bytes;
  Compare : bytes -> bytes -> Z;
  FindShortestSeparator : bytes -> bytes -> bytes;
  FindShortSuccessor : bytes -> bytes;
}.

(** The laws, on the keys the comparator is defined for. *)
Class ComparatorOk (cmp : Comparator) (valid : bytes -> Prop) : Prop := {
  Compare_refl a : valid a -> Compare cmp a a = 0;
  Compare_antisym a b : valid a -> valid b -> Compare cmp a b < 0 <-> 0 < Compare cmp b a;
  Compare_le_trans a b c : valid a -> valid b -> valid c ->
    Compare cmp a b <= 0 -> Compare cmp b c <= 0 -> Compare cmp a c <= 0;
  FindShortestSeparator_ok start limit : valid start -> valid limit ->
    Compare cmp start limit < 0 ->
    valid (FindShortestSeparator cmp start limit) /\
    Compare cmp start (FindShortestSeparator cmp start limit) <= 0 /\
    Compare cmp (FindShortestSeparator cmp start limit) limit < 0;
  FindShortSuccessor_ok key : valid key ->
    valid (FindShortSuccessor cmp key) /\ Compare cmp key (FindShortSuccessor cmp key) <= 0;
}.

(** * The bytewise comparator *)

(** The [while] loop that counts equal leading bytes. *)
Fixpoint common_prefix (a b : bytes) : nat :=
  match a, b with
  | x :: a, y :: b => if decide (x = y) then S (common_prefix a b) else 0%nat
  | _, _ => 0%nat
  end.

Definition Bytewise_FindShortestSeparator (start limit : bytes) : bytes :=
  let min_length := Nat.min (length start) (length limit) in
  let diff_index := common_prefix start limit in
  if (min_length <=? diff_index)%nat then start
  else
    let diff_byte := ub (nth diff_index start Byte.x00) in
    if (diff_byte <? 0xff) && (diff_byte + 1 <? ub (nth diff_index limit Byte.x00))
    then take diff_index start ++ [bz (diff_byte + 1)]
    else start.

(** The [for] loop over the key, with the bytes already passed. *)
Fixpoint Bytewise_FindShortSuccessor_loop (passed key : bytes) : option bytes :=
  match key with
  | [] => None
  | b :: key =>
    let byte := ub b in
    if negb (byte =? 0xff) then Some (passed ++ [bz (byte + 1)])
    else Bytewise_FindShortSuccessor_loop (passed ++ [b]) key
  end.

Definition Bytewise_FindShortSuccessor (key : bytes) : bytes :=
  match Bytewise_FindShortSuccessor_loop [] key with
  | Some key' => key'
  | None => key
  end.

Definition BytewiseComparator : Comparator := {|
  Name := bytes_of_string "leveldb.BytewiseComparator";
  Compare := Slice_compare;
  FindShortestSeparator := Bytewise_FindShortestSeparator;
  FindShortSuccessor := Bytewise_FindShortSuccessor;
|}.

(** * Slice comparison is lexicographic *)

(** The abstract order on byte strings. *)
Inductive lex_lt : bytes -> bytes -> Prop :=
  | lex_lt_nil b l : lex_lt [] (b :: l)
  | lex_lt_head a b l k : ub a < ub b -> lex_lt (a :: l) (b :: k)
  | lex_lt_tail a l k : lex_lt l k -> lex_lt (a :: l) (a :: k).

#[export] Hint Constructors lex_lt : core.

Lemma Slice_compare_nil_nil : Slice_compare [] [] = 0.
Proof. done. Qed.

Lemma Slice_compare_nil_l b l : Slice_compare [] (b :: l) = -1.
Proof. unfold Slice_compare. rewrite blen_cons. by rewrite (proj2 (Z.ltb_lt _ _)) by len. Qed.

Lemma Slice_compare_nil_r b l : Slice_compare (b :: l) [] = 1.
Proof.
  unfold Slice_compare. rewrite blen_cons. rewrite (proj2 (Z.ltb_ge _ _)) by len.
  simpl. by rewrite (proj2 (Z.ltb_lt _ _)) by len.
Qed.

Lemma Slice_compare_cons a b l k :
  Slice_compare (a :: l) (b :: k) =
  if ub a <? ub b then -1 else if ub b <? ub a then 1 else Slice_compare l k.
Proof.
  unfold Slice_compare. rewrite !blen_cons.
  replace (1 + blen l <? 1 + blen k) with (blen l <? blen k)
    by (apply eq_bool_prop_intro; rewrite !Is_true_true, !Z.ltb_lt; lia).
  replace (1 + blen k <? 1 + blen l) with (blen k <? blen l)
    by (apply eq_bool_prop_intro; rewrite !Is_true_true, !Z.ltb_lt; lia).
  replace (if blen l <? blen k then length (a :: l) else length (b :: k))
    with (S (if blen l <? blen k then length l else length k)) by (by case_match).
  cbn [memcmp]. destruct (ub a <? ub b); [done|]. by destruct (ub b <? ub a).
Qed.

Lemma Slice_compare_spec a b :
  (Slice_compare a b = -1 /\ lex_lt a b) \/
  (Slice_compare a b = 0 /\ a = b) \/
  (Slice_compare a b = 1 /\ lex_lt b a).
Proof.
  revert b. induction a as [|x a IH]; intros [|y b].
  - by right; left.
  - left. by rewrite Slice_compare_nil_l.
  - right; right. by rewrite Slice_compare_nil_r.
  - rewrite Slice_compare_cons. destruct (Z.ltb_spec (ub x) (ub y)).
    { left. auto. }
    destruct (Z.ltb_spec (ub y) (ub x)).
    { right; right. auto. }
    assert (x = y) as -> by (apply ub_inj; lia).
    destruct (IH b) as [[-> ?]|[[-> ->]|[-> ?]]]; auto.
Qed.

Lemma lex_lt_irrefl a : ~ lex_lt a a.
Proof. induction a as [|x a IH]; inversion 1; subst; [lia|]. auto. Qed.

Lemma lex_lt_trans a b c : lex_lt a b -> lex_lt b c -> lex_lt a c.
Proof.
  intros Hab. revert c. induction Hab as [y l|x y l k Hxy|x l k Hlk IH];
    intros c Hbc; inversion Hbc; subst; auto.
  apply lex_lt_head. lia.
Qed.

Lemma Slice_compare_lt a b : Slice_compare a b < 0 <-> lex_lt a b.
Proof.
  destruct (Slice_compare_spec a b) as [[-> ?]|[[-> ->]|[-> Hba]]].
  - done.
  - split; [lia|]. by intros ?%lex_lt_irrefl.
  - split; [lia|]. intros Hab. by destruct (lex_lt_irrefl a (lex_lt_trans _ _ _ Hab Hba)).
Qed.

Lemma Slice_compare_gt a b : 0 < Slice_compare a b <-> lex_lt b a.
Proof.
  destruct (Slice_compare_spec a b) as [[-> Hab]|[[-> ->]|[-> Hba]]].
  - split; [lia|]. intros Hba. by destruct (lex_lt_irrefl a (lex_lt_trans _ _ _ Hab Hba)).
  - split; [lia|]. by intros ?%lex_lt_irrefl.
  - done.
Qed.

Lemma Slice_compare_eq a b : Slice_compare a b = 0 <-> a = b.
Proof.
  split.
  - destruct (Slice_compare_spec a b) as [[-> ?]|[[-> ?]|[-> ?]]]; done.
  - intros ->. destruct (Slice_compare_spec b b) as [[_ H]|[[-> _]|[_ H]]]; [|done|];
      by destruct (lex_lt_irrefl _ H).
Qed.

Lemma Slice_compare_le a b : Slice_compare a b <= 0 <-> ~ lex_lt b a.
Proof. rewrite <- Slice_compare_gt. lia. Qed.

Lemma memcmp_zero n a b : memcmp n a b = 0 -> (n <= length a)%nat -> (n <= length b)%nat ->
  take n a = take n b.
Proof.
  revert a b. induction n as [|n IH]; intros [|x a] [|y b]; cbn [memcmp length]; try lia; [done..|].
  destruct (Z.ltb_spec (ub x) (ub y)); [done|].
  destruct (Z.ltb_spec (ub y) (ub x)); [done|]. intros H1 H2 H3. simpl.
  f_equal; [apply ub_inj; lia|]. apply IH; [done|lia..].
Qed.

Lemma memcmp_same n a b : take n a = take n b -> memcmp n a b = 0.
Proof.
  revert a b. induction n as [|n IH]; intros [|x a] [|y b]; try done.
  intros [= -> H]. cbn [memcmp]. rewrite Z.ltb_irrefl. auto.
Qed.

Lemma Slice_eq_spec x y : Slice_eq x y = bool_decide (x = y).
Proof.
  apply eq_bool_prop_intro. rewrite Is_true_true, bool_decide_spec. unfold Slice_eq.
  rewrite andb_true_iff, !Z.eqb_eq. split.
  - intros [Hl Hm]. apply memcmp_zero in Hm; [|len..]. by rewrite !take_ge in Hm by len.
  - intros ->. split; [done|]. by apply memcmp_same.
Qed.

Lemma Slice_starts_with_spec s x : Slice_starts_with s x = true <-> exists k, s = x ++ k.
Proof.
  unfold Slice_starts_with. rewrite andb_true_iff, Z.leb_le, Z.eqb_eq. split.
  - intros [Hl Hm]. apply memcmp_zero in Hm; [|len..].
    exists (drop (length x) s). rewrite <- (take_drop (length x) s) at 1. f_equal.
    rewrite Hm. apply take_ge. lia.
  - intros [k ->]. split; [len|]. apply memcmp_same. rewrite take_app_length. by rewrite take_ge.
Qed.

(** * The separators of the bytewise comparator *)

Lemma lex_lt_app p a b : lex_lt (p ++ a) (p ++ b) <-> lex_lt a b.
Proof.
  induction p as [|x p IH]; [done|]. cbn [app]. rewrite <- IH. split; [|auto].
  inversion 1; subst; [lia|done].
Qed.

Lemma common_prefix_spec a b :
  exists p a' b', a = p ++ a' /\ b = p ++ b' /\ length p = common_prefix a b /\
    match a', b' with x :: _, y :: _ => x <> y | _, _ => True end.
Proof.
  revert b. induction a as [|x a IH]; intros [|y b]; cbn [common_prefix];
    [by exists [], [], []|by exists [], [], (y :: b)|by exists [], (x :: a), []|].
  case_decide as Hxy; [|by exists [], (x :: a), (y :: b)].
  subst y. destruct (IH b) as (p & a' & b' & -> & -> & Hl & Hd).
  exists (x :: p), a', b'. simpl. by rewrite Hl.
Qed.

(** The separator is [start] itself or a shorter key strictly between. *)
Lemma Bytewise_FindShortestSeparator_cases start limit :
  let k := Bytewise_FindShortestSeparator start limit in
  k = start \/ (lex_lt start k /\ lex_lt k limit /\ (length k <= length start)%nat).
Proof.
  cbv zeta. unfold Bytewise_FindShortestSeparator.
  destruct (common_prefix_spec start limit) as (p & a & b & Ha & Hb & Hp & Hd).
  rewrite <- Hp. destruct (_ <=? _)%nat eqn:El; [by left|]. apply Nat.leb_gt in El.
  destruct (_ && _) eqn:Ec; [|by left]. right. subst start limit.
  rewrite !length_app in El. destruct a as [|x a], b as [|y b]; simpl in El; try lia.
  rewrite (nth_middle p a), (nth_middle p b) in Ec. rewrite (nth_middle p a). rewrite andb_true_iff, !Z.ltb_lt in Ec.
  pose proof (ub_range x). pose proof (ub_range y).
  rewrite take_app_length, !lex_lt_app. split_and!; [| |len];
    apply lex_lt_head; rewrite ub_bz_small; lia.
Qed.

Lemma Bytewise_FindShortSuccessor_loop_spec passed key k :
  Bytewise_FindShortSuccessor_loop passed key = Some k ->
  lex_lt (passed ++ key) k /\ (length k <= length passed + length key)%nat.
Proof.
  revert passed. induction key as [|b key IH]; intros passed;
    cbn [Bytewise_FindShortSuccessor_loop]; [done|].
  destruct (Z.eqb_spec (ub b) 0xff) as [|Hb]; cbn [negb].
  - intros [Hlt Hlen]%IH. rewrite <- app_assoc in Hlt. split; [done|].
    rewrite length_app in Hlen. simpl in *. lia.
  - intros [= <-]. pose proof (ub_range b). rewrite lex_lt_app. split; [|len].
    apply lex_lt_head. rewrite ub_bz_small; lia.
Qed.

Lemma Bytewise_FindShortSuccessor_cases key :
  let k := Bytewise_FindShortSuccessor key in
  k = key \/ (lex_lt key k /\ (length k <= length key)%nat).
Proof.
  cbv zeta. unfold Bytewise_FindShortSuccessor.
  destruct (Bytewise_FindShortSuccessor_loop [] key) as [k|] eqn:E; [|by left].
  right. by apply Bytewise_FindShortSuccessor_loop_spec in E.
Qed.

#[export] Instance BytewiseComparator_ok : ComparatorOk BytewiseComparator (fun _ => True).
Proof.
  split; cbn [Compare FindShortestSeparator FindShortSuccessor BytewiseComparator].
  - intros a _. by apply Slice_compare_eq.
  - intros a b _ _. by rewrite Slice_compare_lt, Slice_compare_gt.
  - intros a b c _ _ _. rewrite !Slice_compare_le. intros Hab Hbc Hca.
    destruct (Slice_compare_spec a b) as [[_ H]|[[_ ->]|[_ H]]]; [|done..].
    apply Hbc. by apply (lex_lt_trans _ a).
  - intros start limit _ _ Hlt. split; [done|].
    destruct (Bytewise_FindShortestSeparator_cases start limit) as [->|(H1 & H2 & _)].
    + by rewrite (proj2 (Slice_compare_eq start start)).
    + rewrite <- Slice_compare_lt in H1, H2. lia.
  - intros key _. split; [done|].
    destruct (Bytewise_FindShortSuccessor_cases key) as [->|[H _]].
    + by rewrite (proj2 (Slice_compare_eq key key)).
    + rewrite <- Slice_compare_lt in H. lia.
Qed.

(** * Consequences of the laws *)

Section laws.
Context {cmp : Comparator} {valid : bytes -> Prop} `{!ComparatorOk cmp valid}.

Lemma Compare_lt_le_trans a b c : valid a -> valid b -> valid c ->
  Compare cmp a b < 0 -> Compare cmp b c <= 0 -> Compare cmp a c < 0.
Proof.
  intros Va Vb Vc Hab Hbc. apply Compare_antisym; [done..|].
  destruct (Z_le_gt_dec (Compare cmp c a) 0) as [Hca|]; [|lia].
  pose proof (Compare_le_trans b c a Vb Vc Va Hbc Hca).
  apply Compare_antisym in Hab; [lia|done..].
Qed.

Lemma Compare_le_lt_trans a b c : valid a -> valid b -> valid c ->
  Compare cmp a b <= 0 -> Compare cmp b c < 0 -> Compare cmp a c < 0.
Proof.
  intros Va Vb Vc Hab Hbc. apply Compare_antisym; [done..|].
  destruct (Z_le_gt_dec (Compare cmp c a) 0) as [Hca|]; [|lia].
  pose proof (Compare_le_trans c a b Vc Va Vb Hca Hab).
  apply Compare_antisym in Hbc; [lia|done..].
Qed.

Lemma Compare_lt_trans a b c : valid a -> valid b -> valid c ->
  Compare cmp a b < 0 -> Compare cmp b c < 0 -> Compare cmp a c < 0.
Proof. intros. eapply Compare_lt_le_trans with b; try done. lia. Qed.

Lemma Compare_ge_iff a b : valid a -> valid b -> 0 <= Compare cmp a b <-> Compare cmp b a <= 0.
Proof. intros Va Vb. pose proof (Compare_antisym a b Va Vb). lia. Qed.

Lemma Compare_gt_iff a b : valid a -> valid b -> 0 < Compare cmp a b <-> Compare cmp b a < 0.
Proof. intros Va Vb. by rewrite (Compare_antisym b a). Qed.

Lemma Compare_eq_iff a b : valid a -> valid b -> Compare cmp a b = 0 <-> Compare cmp b a = 0.
Proof.
  intros Va Vb. pose proof (Compare_antisym a b Va Vb).
  pose proof (Compare_antisym b a Vb Va). lia.
Qed.

End laws.

(** [Slice::compare] is the lexicographic order on bytes read as unsigned
    values: its result is negative exactly when the first slice precedes the
    second, zero exactly on equal slices, and the order is total. *)
Theorem Slice_compare_lexicographic (a b : bytes) :
  (Slice_compare a b < 0 <-> lex_lt a b) /\
  (Slice_compare a b = 0 <-> a = b) /\
  (Slice_compare a b > 0 <-> lex_lt b a).
Proof.
  pose proof (Slice_compare_gt a b). split_and!;
    [apply Slice_compare_lt|apply Slice_compare_eq|rewrite <- Slice_compare_gt; lia].
Qed.

(** [FindShortestSeparator] returns its argument or a no longer key that
    lies strictly between [start] and [limit], so that for [start < limit]
    the separator [k] satisfies [start <= k < limit]; [FindShortSuccessor]
    returns a no longer key [>=] its argument. *)
Theorem Bytewise_separators (start limit : bytes) :
  Slice_compare start limit < 0 ->
  let k := Bytewise_FindShortestSeparator start limit in
  let s := Bytewise_FindShortSuccessor start in
  Slice_compare start k <= 0 /\ Slice_compare k limit < 0 /\ blen k <= blen start /\
  Slice_compare start s <= 0 /\ blen s <= blen start.
Proof.
  intros Hlt k s.
  destruct (FindShortestSeparator_ok (cmp := BytewiseComparator) start limit) as (_ & H1 & H2);
    [done..|].
  destruct (FindShortSuccessor_ok (cmp := BytewiseComparator) start) as [_ H3]; [done|].
  split_and!; [exact H1|exact H2| |exact H3|].
  - destruct (Bytewise_FindShortestSeparator_cases start limit) as [E|(_ & _ & ?)];
      subst k; [rewrite E|]; len.
  - destruct (Bytewise_FindShortSuccessor_cases start) as [E|(_ & ?)];
      subst s; [rewrite E|]; len.
Qed.

Lemma Bytewise_separators_witness :
  let start := bytes_of_string "the quick brown fox" in
  let limit := bytes_of_string "the who" in
  let k := Bytewise_FindShortestSeparator start limit in
  let s := Bytewise_FindShortSuccessor start in
  k = bytes_of_string "the r" /\
  Slice_compare start k <= 0 /\ Slice_compare k limit < 0 /\ blen k <= blen start /\
  Slice_compare start s <= 0 /\ blen s <= blen start.
Proof.
  split; [vm_compute; reflexivity|]. apply Bytewise_separators. vm_compute. reflexivity.
Defined.
