(* ===== verification/Hash.v ===== *)
(** The murmur-like hash of [util/hash.cpp]. *)

From S2P Require Import Prelude Port Coding.

Section hash.
Context {port : Port}.

Definition hash_m : Z := 0xc6a4a793.
Definition hash_r : Z := 24.

(** One turn of [while (data + 4 <= limit)]. *)
Definition Hash_word (h w : Z) : Z :=
  let h := u32 (h + w) in
  let h := u32 (h * hash_m) in
  Z.lxor h (Z.shiftr h 16).

(** The [case 1] tail every non-empty remainder falls through to. *)
Definition Hash_last (h : Z) (d0 : byte) : Z :=
  let h := u32 (h + ub d0) in
  let h := u32 (h * hash_m) in
  Z.lxor h (Z.shiftr h hash_r).

(** Words first, then the [switch] over the remaining bytes. *)
Fixpoint Hash_loop (h : Z) (data : bytes) : Z :=
  match data with
  | d0 :: d1 :: d2 :: d3 :: rest => Hash_loop (Hash_word h (DecodeFixed32 data)) rest
  | [d0; d1; d2] =>
    let h := u32 (h + Z.shiftl (ub d2) 16) in
    let h := u32 (h + Z.shiftl (ub d1) 8) in
    Hash_last h d0
  | [d0; d1] =>
    let h := u32 (h + Z.shiftl (ub d1) 8) in
    Hash_last h d0
  | [d0] => Hash_last h d0
  | [] => h
  end.

Definition Hash (data : bytes) (seed : Z) : Z :=
  Hash_loop (u32 (Z.lxor seed (u64 (blen data * hash_m)))) data.

(** * Range *)

Lemma u32_range z : 0 <= u32 z < 2 ^ 32.
Proof. unfold u32. apply Z.mod_pos_bound. lia. Qed.

Lemma lxor_shiftr_u32_range h n :
  0 <= n -> 0 <= h < 2 ^ 32 -> 0 <= Z.lxor h (Z.shiftr h n) < 2 ^ 32.
Proof.
  intros Hn Hh. apply lxor_range; [lia|done|].
  rewrite Z.shiftr_div_pow2 by done. split; [apply Z.div_pos; lia|].
  apply Z.le_lt_trans with h; [|lia]. apply Z.div_le_upper_bound; [lia|].
  assert (1 <= 2 ^ n) by (apply (Z.pow_le_mono_r 2 0 n); lia). nia.
Qed.

Lemma Hash_loop_range data h : 0 <= h < 2 ^ 32 -> 0 <= Hash_loop h data < 2 ^ 32.
Proof.
  assert (forall n h data, (length data <= n)%nat -> 0 <= h < 2 ^ 32 ->
            0 <= Hash_loop h data < 2 ^ 32) as Hn; [|eauto].
  clear h data. intros n. induction n as [|n IH]; intros h [|d0 [|d1 [|d2 [|d3 rest]]]] Hl Hh;
    simpl in Hl; try lia; cbn [Hash_loop]; try done;
    try (unfold Hash_last; apply lxor_shiftr_u32_range; [done|apply u32_range]).
  apply IH; [lia|]. unfold Hash_word. apply lxor_shiftr_u32_range; [lia|apply u32_range].
Qed.

Lemma Hash_range data seed : 0 <= Hash data seed < 2 ^ 32.
Proof. apply Hash_loop_range, u32_range. Qed.

End hash.
