(* ===== verification/Bloom.v ===== *)
(** Filter policies: the interface of [include/leveldb/filter_policy.h] and
    the bloom filter of [util/bloom.cpp].  A policy promises that a key put
    into a filter always matches it; the filter block is proved against that
    promise, and the bloom filter keeps it for every parameter. *)

From Stdlib Require SpecFloat.
From S2P Require Import Prelude Port Coding Hash.

(** * The interface *)

Record FilterPolicy := {
  Policy_Name : bytes;
  CreateFilter : list bytes -> bytes -> bytes;
  KeyMayMatch : bytes -> bytes -> bool;
}.

(** [CreateFilter] appends a filter, and the filter has no false negatives.
    The key count is passed as an [int]. *)
Class FilterPolicyOk (policy : FilterPolicy) : Prop := {
  CreateFilter_appends keys dst :
    blen keys < 2 ^ 31 ->
    CreateFilter policy keys dst = dst ++ CreateFilter policy keys [];
  CreateFilter_matches keys key :
    blen keys < 2 ^ 31 -> key ∈ keys ->
    KeyMayMatch policy key (CreateFilter policy keys []) = true;
}.

(** * The code *)

Section bloom.
Context {port : Port}.

Definition BloomHash (key : bytes) : Z := Hash key 0xbc9f1d34.

(** [static_cast<size_t>(bits_per_key * 0.69)]: the product in IEEE double
    precision, truncated.  0.69 is the double 0x1.6147ae147ae14p-1. *)
Definition double_069 : SpecFloat.spec_float :=
  SpecFloat.S754_finite false 0x16147ae147ae14 (-53).

Definition double_of_int (n : Z) : SpecFloat.spec_float :=
  SpecFloat.binary_normalize 53 1024 n 0 false.

Definition size_of_double (x : SpecFloat.spec_float) : Z :=
  match x with
  | SpecFloat.S754_finite false m e => Z.shiftl (Z.pos m) e
  | _ => 0
  end.

Record BloomFilterPolicy := { bits_per_key_ : Z; k_ : Z }.

Definition BloomFilterPolicy_new (bits_per_key : Z) : BloomFilterPolicy :=
  let k := size_of_double (SpecFloat.SFmul 53 1024 (double_of_int bits_per_key) double_069) in
  let k := if k <? 1 then 1 else k in
  let k := if 30 <? k then 30 else k in
  {| bits_per_key_ := u64 bits_per_key; k_ := k |}.

(** [array[bitpos / 8] |= (1 << (bitpos % 8))] *)
Definition set_bit (array : bytes) (bitpos : Z) : bytes :=
  alter (fun b => bz (Z.lor (ub b) (Z.shiftl 1 (bitpos mod 8)))) (Z.to_nat (bitpos / 8)) array.

(** The double-hashing step. *)
Definition bloom_delta (h : Z) : Z := Z.lor (Z.shiftr h 17) (u32 (Z.shiftl h 15)).

(** [for (size_t j = 0; j < k_; j++)] *)
Fixpoint CreateFilter_probes (k : nat) (array : bytes) (h delta bits : Z) : bytes :=
  match k with
  | O => array
  | S k => CreateFilter_probes k (set_bit array (u32 (h mod bits))) (u32 (h + delta)) delta bits
  end.

Definition CreateFilter_key (k bits : Z) (array key : bytes) : bytes :=
  let h := BloomHash key in
  CreateFilter_probes (Z.to_nat k) array h (bloom_delta h) bits.

(** The size computation: the number of bytes of the bit array. *)
Definition bloom_bytes (p : BloomFilterPolicy) (n : Z) : Z :=
  let bits := u64 (n * bits_per_key_ p) in
  let bits := if bits <? 64 then 64 else bits in
  u64 (bits + 7) / 8.

Definition Bloom_CreateFilter (p : BloomFilterPolicy) (keys : list bytes) (dst : bytes) : bytes :=
  let bytes := bloom_bytes p (blen keys) in
  let bits := u64 (bytes * 8) in
  let array := replicate (Z.to_nat bytes) (bz 0) in
  let array := fold_left (CreateFilter_key (k_ p) bits) keys array in
  dst ++ array ++ [bz (k_ p)].

Fixpoint KeyMayMatch_probes (k : nat) (array : bytes) (h delta bits : Z) : bool :=
  match k with
  | O => true
  | S k =>
    let bitpos := u32 (h mod bits) in
    if Z.land (ub (nth (Z.to_nat (bitpos / 8)) array Byte.x00)) (Z.shiftl 1 (bitpos mod 8)) =? 0
    then false
    else KeyMayMatch_probes k array (u32 (h + delta)) delta bits
  end.

Definition Bloom_KeyMayMatch (key bloom_filter : bytes) : bool :=
  let len := blen bloom_filter in
  if len <? 2 then false
  else
    let bits := (len - 1) * 8 in
    let k := u64 (sb (nth (Z.to_nat (len - 1)) bloom_filter Byte.x00)) in
    if 30 <? k then true
    else
      let h := BloomHash key in
      KeyMayMatch_probes (Z.to_nat k) bloom_filter h (bloom_delta h) bits.

Definition NewBloomFilterPolicy (bits_per_key : Z) : FilterPolicy :=
  let p := BloomFilterPolicy_new bits_per_key in {|
    Policy_Name := bytes_of_string "leveldb.BuiltinBloomFilter2";
    CreateFilter := Bloom_CreateFilter p;
    KeyMayMatch := Bloom_KeyMayMatch;
  |}.

(** * No false negatives *)

(** The bit positions one key probes. *)
Fixpoint probes (k : nat) (h delta bits : Z) : list Z :=
  match k with
  | O => []
  | S k => u32 (h mod bits) :: probes k (u32 (h + delta)) delta bits
  end.

Definition key_probes (k bits : Z) (key : bytes) : list Z :=
  let h := BloomHash key in probes (Z.to_nat k) h (bloom_delta h) bits.

Definition bit_is_set (array : bytes) (bitpos : Z) : bool :=
  negb (Z.land (ub (nth (Z.to_nat (bitpos / 8)) array Byte.x00)) (Z.shiftl 1 (bitpos mod 8)) =? 0).

Lemma CreateFilter_probes_fold k array h delta bits :
  CreateFilter_probes k array h delta bits = fold_left set_bit (probes k h delta bits) array.
Proof. revert array h. induction k; intros; cbn; auto. Qed.

Lemma KeyMayMatch_probes_forallb k array h delta bits :
  KeyMayMatch_probes k array h delta bits = forallb (bit_is_set array) (probes k h delta bits).
Proof.
  revert h. induction k as [|k IH]; intros h; [done|].
  cbn [KeyMayMatch_probes probes forallb]. rewrite <- IH. unfold bit_is_set at 1.
  by destruct (_ =? 0).
Qed.

Lemma probes_range k h delta bits p :
  0 < bits -> 0 <= h < 2 ^ 32 -> p ∈ probes k h delta bits -> 0 <= p < bits.
Proof.
  intros Hb. revert h. induction k as [|k IH]; intros h Hh; cbn [probes]; [by inversion 1|].
  rewrite elem_of_cons. intros [->|Hp]; [|by eapply (IH _ (u32_range _))].
  pose proof (Z.mod_pos_bound h bits Hb). pose proof (Z.mod_le h bits ltac:(lia) Hb).
  unfold u32. rewrite Z.mod_small; lia.
Qed.

Lemma length_set_bit array p : length (set_bit array p) = length array.
Proof. apply length_alter. Qed.

Lemma length_fold_set_bit ps array : length (fold_left set_bit ps array) = length array.
Proof. revert array. induction ps as [|p ps IH]; intros; [done|]. cbn. by rewrite IH, length_set_bit. Qed.

(** The bit mask, as a test of one bit. *)
Lemma land_bit_test a n : 0 <= n -> negb (Z.land a (Z.shiftl 1 n) =? 0) = Z.testbit a n.
Proof.
  intros Hn. rewrite Z.shiftl_1_l. apply eq_true_iff_eq. rewrite negb_true_iff, Z.eqb_neq.
  split.
  - intros H. destruct (Z.testbit a n) eqn:E; [done|]. destruct H. apply Z.bits_inj_0. intros i.
    rewrite Z.land_spec, Z.pow2_bits_eqb by done.
    destruct (Z.eqb_spec n i) as [<-|]; [by rewrite E|apply andb_false_r].
  - intros E H. assert (Z.testbit (Z.land a (2 ^ n)) n = true) as E'; [|by rewrite H, Z.bits_0 in E'].
    by rewrite Z.land_spec, Z.pow2_bits_true, E.
Qed.

Lemma bit_is_set_testbit array p :
  bit_is_set array p = Z.testbit (ub (nth (Z.to_nat (p / 8)) array Byte.x00)) (p mod 8).
Proof. apply land_bit_test. apply Z.mod_pos_bound. lia. Qed.

Lemma ub_lor_bit b n : 0 <= n < 8 ->
  ub (bz (Z.lor (ub b) (Z.shiftl 1 n))) = Z.lor (ub b) (2 ^ n).
Proof.
  intros Hn. rewrite Z.shiftl_1_l. apply ub_bz_small, (lor_range 8); [lia|apply ub_range|].
  split; [lia|]. apply Z.pow_lt_mono_r; lia.
Qed.

Lemma nth_set_bit array p i :
  nth i (set_bit array p) Byte.x00 =
  if decide (i = Z.to_nat (p / 8) /\ (i < length array)%nat)
  then bz (Z.lor (ub (nth i array Byte.x00)) (Z.shiftl 1 (p mod 8))) else nth i array Byte.x00.
Proof.
  rewrite !nth_lookup. unfold set_bit. case_decide as Hd.
  - destruct Hd as [-> Hl]. rewrite list_lookup_alter_eq.
    by destruct (lookup_lt_is_Some_2 _ _ Hl) as [x ->].
  - destruct (decide (i = Z.to_nat (p / 8))) as [->|]; [|by rewrite list_lookup_alter_ne].
    rewrite list_lookup_alter_eq. by rewrite lookup_ge_None_2 by lia.
Qed.

Lemma bit_is_set_mono array p q : bit_is_set array q = true -> bit_is_set (set_bit array p) q = true.
Proof.
  rewrite !bit_is_set_testbit, nth_set_bit. intros H. case_decide; [|done].
  rewrite ub_lor_bit by (apply Z.mod_pos_bound; lia). by rewrite Z.lor_spec, H.
Qed.

Lemma bit_is_set_set array p : 0 <= p < 8 * blen array -> bit_is_set (set_bit array p) p = true.
Proof.
  intros Hp. rewrite bit_is_set_testbit, nth_set_bit, decide_True.
  - pose proof (Z.mod_pos_bound p 8 ltac:(lia)).
    rewrite ub_lor_bit by done. by rewrite Z.lor_spec, Z.pow2_bits_true, orb_true_r by lia.
  - split; [done|]. pose proof (Z.div_lt_upper_bound p 8 (blen array) ltac:(lia) ltac:(lia)).
    pose proof (Z.div_pos p 8). len.
Qed.

Lemma fold_set_bit_mono ps array q :
  bit_is_set array q = true -> bit_is_set (fold_left set_bit ps array) q = true.
Proof. revert array. induction ps; intros; cbn; auto using bit_is_set_mono. Qed.

Lemma fold_set_bit_set ps array q :
  (forall p, p ∈ ps -> 0 <= p < 8 * blen array) -> q ∈ ps ->
  bit_is_set (fold_left set_bit ps array) q = true.
Proof.
  revert array. induction ps as [|p ps IH]; intros array Hr Hq; [by inversion Hq|]. cbn.
  apply elem_of_cons in Hq as [->|Hq].
  - apply fold_set_bit_mono, bit_is_set_set, Hr. left.
  - apply IH; [|done]. intros p' Hp'. unfold blen. rewrite length_set_bit. apply Hr. by right.
Qed.

(** All keys at once: the array is the fold of [set_bit] over every probe. *)
Lemma CreateFilter_keys_fold k bits keys array :
  fold_left (CreateFilter_key k bits) keys array =
  fold_left set_bit (concat (key_probes k bits <$> keys)) array.
Proof.
  revert array. induction keys as [|key keys IH]; intros array; [done|].
  cbn [fold_left fmap list_fmap concat]. rewrite IH, fold_left_app. unfold CreateFilter_key.
  by rewrite CreateFilter_probes_fold.
Qed.

Lemma key_probes_in_range k bits key p : 0 < bits -> p ∈ key_probes k bits key -> 0 <= p < bits.
Proof. intros Hb. apply probes_range; [done|apply Hash_range]. Qed.

(** ** Sizes *)

Lemma k_range b : 1 <= k_ (BloomFilterPolicy_new b) <= 30.
Proof.
  unfold BloomFilterPolicy_new. cbn [k_]. set (k := size_of_double _).
  destruct (Z.ltb_spec k 1) as [H1|H1].
  - change (30 <? 1) with false. lia.
  - destruct (Z.ltb_spec 30 k); lia.
Qed.

Lemma bloom_bytes_eq b n : 0 <= b < 2 ^ 31 -> 0 <= n < 2 ^ 31 ->
  bloom_bytes (BloomFilterPolicy_new b) n = (Z.max 64 (n * b) + 7) / 8.
Proof.
  intros Hb Hn. unfold bloom_bytes, BloomFilterPolicy_new. cbn [bits_per_key_].
  unfold u64. rewrite (Z.mod_small b), (Z.mod_small (n * b)) by nia.
  destruct (Z.ltb_spec (n * b) 64).
  - rewrite Z.mod_small by lia. f_equal. lia.
  - rewrite Z.mod_small by nia. f_equal. lia.
Qed.

Lemma bloom_bytes_range b n : 0 <= b < 2 ^ 31 -> 0 <= n < 2 ^ 31 ->
  8 <= bloom_bytes (BloomFilterPolicy_new b) n < 2 ^ 60.
Proof.
  intros Hb Hn. rewrite bloom_bytes_eq by done.
  split; [apply Z.div_le_lower_bound; lia|apply Z.div_lt_upper_bound; nia].
Qed.

(** The filter as the probes leave it. *)
Lemma Bloom_CreateFilter_eq b keys dst : 0 <= b < 2 ^ 31 -> blen keys < 2 ^ 31 ->
  let p := BloomFilterPolicy_new b in
  let n := bloom_bytes p (blen keys) in
  Bloom_CreateFilter p keys dst =
  dst ++ fold_left set_bit (concat (key_probes (k_ p) (n * 8) <$> keys))
           (replicate (Z.to_nat n) (bz 0)) ++ [bz (k_ p)].
Proof.
  intros Hb Hk p n. unfold Bloom_CreateFilter. fold p n.
  pose proof (bloom_bytes_range b (blen keys) Hb ltac:(pose proof (blen_nonneg keys); lia)) as Hn.
  fold p n in Hn. unfold u64. rewrite (Z.mod_small (n * 8)) by lia. by rewrite CreateFilter_keys_fold.
Qed.

Lemma sb_small z : 0 <= z < 128 -> sb (bz z) = z.
Proof. intros Hz. unfold sb. rewrite ub_bz_small by lia. by rewrite (proj2 (Z.ltb_lt z 128)) by lia. Qed.

Lemma nth_last_byte array k : nth (Z.to_nat (blen (array ++ [k]) - 1)) (array ++ [k]) Byte.x00 = k.
Proof.
  replace (Z.to_nat _) with (length array) by len. rewrite app_nth2 by lia.
  by rewrite Nat.sub_diag.
Qed.

(** What [KeyMayMatch] computes on an array followed by its probe count. *)
Lemma Bloom_KeyMayMatch_eq array k key :
  1 <= blen array -> 1 <= k <= 30 ->
  Bloom_KeyMayMatch key (array ++ [bz k]) =
  forallb (bit_is_set array) (key_probes k (blen array * 8) key).
Proof.
  intros Ha Hk. unfold Bloom_KeyMayMatch. rewrite nth_last_byte, sb_small by lia.
  unfold u64. rewrite (Z.mod_small k) by lia.
  assert (blen (array ++ [bz k]) = blen array + 1) as -> by len.
  rewrite (proj2 (Z.ltb_ge _ 2)), (proj2 (Z.ltb_ge _ k)) by lia.
  rewrite KeyMayMatch_probes_forallb, Z.add_simpl_r.
  apply forallb_ext_elem. intros p Hp. apply key_probes_in_range in Hp; [|lia].
  rewrite !bit_is_set_testbit, app_nth1; [done|].
  pose proof (Z.div_lt_upper_bound p 8 (blen array) ltac:(lia) ltac:(lia)).
  pose proof (Z.div_pos p 8). len.
Qed.

Lemma Bloom_matches b keys key :
  0 <= b < 2 ^ 31 -> blen keys < 2 ^ 31 -> key ∈ keys ->
  Bloom_KeyMayMatch key (Bloom_CreateFilter (BloomFilterPolicy_new b) keys []) = true.
Proof.
  intros Hb Hk Hin. rewrite Bloom_CreateFilter_eq by done. cbn [app].
  set (p := BloomFilterPolicy_new b). set (n := bloom_bytes p (blen keys)).
  pose proof (k_range b). pose proof (bloom_bytes_range b (blen keys) Hb
    ltac:(pose proof (blen_nonneg keys); lia)) as Hn. fold p n in Hn.
  set (ps := concat _).
  assert (blen (fold_left set_bit ps (replicate (Z.to_nat n) (bz 0))) = n) as Hl
    by (unfold blen; rewrite length_fold_set_bit, length_replicate; lia).
  rewrite Bloom_KeyMayMatch_eq by (subst p; lia). rewrite Hl.
  apply forallb_forall. intros q Hq%list_elem_of_In. apply fold_set_bit_set.
  - intros q' Hq'. rewrite blen_replicate, Z2Nat.id, Z.mul_comm by lia.
    apply list_elem_of_In, in_concat in Hq' as (l & (key' & -> & _)%list_elem_of_In%list_elem_of_fmap & Hq').
    apply list_elem_of_In, key_probes_in_range in Hq'; lia.
  - apply list_elem_of_In, in_concat. exists (key_probes (k_ p) (n * 8) key). split.
    + by apply list_elem_of_In, list_elem_of_fmap_2.
    + by apply list_elem_of_In.
Qed.

Lemma NewBloomFilterPolicy_ok b : 0 <= b < 2 ^ 31 -> FilterPolicyOk (NewBloomFilterPolicy b).
Proof.
  intros Hb. split; cbn [CreateFilter KeyMayMatch NewBloomFilterPolicy].
  - intros keys dst Hk. by rewrite !Bloom_CreateFilter_eq.
  - intros. by apply Bloom_matches.
Qed.

(** C33: the bloom filter has no false negatives and the promised size.  For
    every non-negative [bits_per_key] that is an [int] and every key list an
    [int] can count, [CreateFilter] appends to [dst] a filter of
    [max (64, n * bits_per_key)] bits rounded up to bytes, plus the probe
    count, and every key it was built from matches. *)
Theorem Bloom_no_false_negatives (b : Z) (keys : list bytes) (dst key : bytes) :
  0 <= b < 2 ^ 31 -> blen keys < 2 ^ 31 ->
  let policy := NewBloomFilterPolicy b in
  exists filter,
    CreateFilter policy keys dst = dst ++ filter /\
    blen filter = (Z.max 64 (blen keys * b) + 7) / 8 + 1 /\
    (key ∈ keys -> KeyMayMatch policy key filter = true).
Proof.
  intros Hb Hk policy. pose proof (blen_nonneg keys).
  exists (CreateFilter policy keys []). destruct (NewBloomFilterPolicy_ok b Hb) as [H1 H2 _].
  split_and!; [by apply H1| |by apply H2].
  cbn [CreateFilter policy NewBloomFilterPolicy]. rewrite Bloom_CreateFilter_eq by done.
  pose proof (bloom_bytes_range b (blen keys) Hb ltac:(lia)).
  cbn [app]. rewrite blen_app. unfold blen at 1. rewrite length_fold_set_bit, length_replicate.
  rewrite <- bloom_bytes_eq by lia. unfold blen at 2. cbn [length]. lia.
Qed.

End bloom.

Lemma Bloom_no_false_negatives_witness :
  let keys := [bytes_of_string "hello"; bytes_of_string "world"] in
  let policy := NewBloomFilterPolicy (port := little_endian_port) 10 in
  KeyMayMatch policy (bytes_of_string "x") (CreateFilter policy keys []) = false /\
  exists filter,
    CreateFilter policy keys [] = [] ++ filter /\
    blen filter = (Z.max 64 (blen keys * 10) + 7) / 8 + 1 /\
    (bytes_of_string "world" ∈ keys -> KeyMayMatch policy (bytes_of_string "world") filter = true).
Proof.
  split; [vm_compute; reflexivity|].
  apply Bloom_no_false_negatives; [lia|vm_compute; reflexivity].
Defined.
