(* ===== verification/DbFormat.v ===== *)
(** Internal keys: [db/dbformat.h] and [db/dbformat.cpp].  An internal key is
    a user key followed by a 64-bit tag (sequence number and value type).  The
    internal comparator and the internal filter policy wrap user-supplied
    ones; both are proved to keep the interface laws of what they wrap. *)

From S2P Require Import Prelude Port Coding Logging Comparator Bloom.

(** * Constants and data *)

Module config.
Definition kNumLevels : Z := 7.
Definition kL0_CompactionTrigger : Z := 4.
Definition kL0_SlowdownWritesTrigger : Z := 8.
Definition kL0_StopWritesTrigger : Z := 12.
Definition kMaxMemCompactLevel : Z := 2.
Definition kReadBytesPeriod : Z := 1048576.
End config.

Inductive ValueType := kTypeDeletion | kTypeValue.

#[export] Instance ValueType_eq_dec : EqDecision ValueType.
Proof. solve_decision. Defined.

Definition ValueType_num (t : ValueType) : Z :=
  match t with kTypeDeletion => 0x0 | kTypeValue => 0x1 end.

(** The enumerator an unsigned char names, if any. *)
Definition ValueType_of (c : Z) : option ValueType :=
  if c =? 0x0 then Some kTypeDeletion else if c =? 0x1 then Some kTypeValue else None.

Definition kValueTypeForSeek : ValueType := kTypeValue.

Definition kMaxSequenceNumber : Z := Z.shiftl 0x1 56 - 1.

Record ParsedInternalKey := {
  user_key : bytes;
  sequence : Z;
  type : ValueType;
}.

(** * The operations *)

Section dbformat.
Context {port : Port}.

Definition InternalKeyEncodingLength (key : ParsedInternalKey) : Z := blen (user_key key) + 8.

Definition PackSequenceAndType (seq : Z) (t : ValueType) : Z :=
  Z.lor (u64 (Z.shiftl seq 8)) (ValueType_num t).

Definition AppendInternalKey (result : bytes) (key : ParsedInternalKey) : bytes :=
  PutFixed64 (result ++ user_key key) (PackSequenceAndType (sequence key) (type key)).

(** [Slice(internal_key.data(), internal_key.size() - 8)] and the eight bytes
    behind it; the callers have checked that the key is long enough. *)
Definition ExtractUserKey (internal_key : bytes) : bytes :=
  take (length internal_key - 8) internal_key.

Definition ExtractTag (internal_key : bytes) : Z :=
  DecodeFixed64 (drop (length internal_key - 8) internal_key).

Definition ExtractValueType (internal_key : bytes) : option ValueType :=
  ValueType_of (Z.land (ExtractTag internal_key) 0xff).

(** [None] is the [false] result, which leaves [*result] unspecified. *)
Definition ParseInternalKey (internal_key : bytes) : option ParsedInternalKey :=
  if blen internal_key <? 8 then None
  else
    let num := ExtractTag internal_key in
    let c := Z.land num 0xff in
    match ValueType_of c with
    | Some t => Some {| user_key := ExtractUserKey internal_key;
                        sequence := Z.shiftr num 8; type := t |}
    | None => None
    end.

Definition ParsedInternalKey_DebugString (key : ParsedInternalKey) : bytes :=
  bytes_of_string "'" ++ EscapeString (user_key key) ++
  bytes_of_string "' @ " ++ print_u64 (sequence key) ++
  bytes_of_string " : " ++ print_int (ValueType_num (type key)).

(** ** [InternalKey], whose only field is [rep_] *)

Definition InternalKey_new (user_key : bytes) (s : Z) (t : ValueType) : bytes :=
  AppendInternalKey [] {| user_key := user_key; sequence := s; type := t |}.

Definition InternalKey_SetFrom (p : ParsedInternalKey) : bytes := AppendInternalKey [] p.

Definition InternalKey_DebugString (rep : bytes) : bytes :=
  match ParseInternalKey rep with
  | Some parsed => ParsedInternalKey_DebugString parsed
  | None => bytes_of_string "(bad)" ++ EscapeString rep
  end.

(** ** [InternalKeyComparator] *)

Definition Internal_Compare (user : Comparator) (akey bkey : bytes) : Z :=
  let r := Compare user (ExtractUserKey akey) (ExtractUserKey bkey) in
  if r =? 0 then
    let anum := ExtractTag akey in
    let bnum := ExtractTag bkey in
    if bnum <? anum then -1 else if anum <? bnum then 1 else r
  else r.

Definition Internal_FindShortestSeparator (user : Comparator) (start limit : bytes) : bytes :=
  let user_start := ExtractUserKey start in
  let user_limit := ExtractUserKey limit in
  let tmp := FindShortestSeparator user user_start user_limit in
  if (blen tmp <? blen user_start) && (Compare user user_start tmp <? 0)
  then PutFixed64 tmp (PackSequenceAndType kMaxSequenceNumber kValueTypeForSeek)
  else start.

Definition Internal_FindShortSuccessor (user : Comparator) (key : bytes) : bytes :=
  let user_key := ExtractUserKey key in
  let tmp := FindShortSuccessor user user_key in
  if (blen tmp <? blen user_key) && (Compare user user_key tmp <? 0)
  then PutFixed64 tmp (PackSequenceAndType kMaxSequenceNumber kValueTypeForSeek)
  else key.

Definition InternalKeyComparator (user : Comparator) : Comparator := {|
  Name := bytes_of_string "leveldb.InternalKeyComparator";
  Compare := Internal_Compare user;
  FindShortestSeparator := Internal_FindShortestSeparator user;
  FindShortSuccessor := Internal_FindShortSuccessor user;
|}.

(** ** [InternalFilterPolicy] *)

(** The loop overwrites the caller's slices in place; the second component is
    the key array as it is left. *)
Definition Internal_CreateFilter (user : FilterPolicy) (keys : list bytes) (dst : bytes)
    : bytes * list bytes :=
  let mkey := ExtractUserKey <$> keys in
  (CreateFilter user mkey dst, mkey).

Definition InternalFilterPolicy (user : FilterPolicy) : FilterPolicy := {|
  Policy_Name := Policy_Name user;
  CreateFilter keys dst := fst (Internal_CreateFilter user keys dst);
  KeyMayMatch key f := KeyMayMatch user (ExtractUserKey key) f;
|}.

(** ** [LookupKey] *)

(** The bytes of [[start_, end_)], the offset of [kstart_], and the size of
    the buffer they were written to: [space_] or a [new char[needed]]. *)
Record LookupKey := { lk_bytes : bytes; lk_kstart : Z; lk_capacity : Z }.

Definition LookupKey_new (user_key : bytes) (s : Z) : LookupKey :=
  let usize := blen user_key in
  let needed := usize + 13 in
  let capacity := if needed <=? 200 then 200 else needed in
  let klength := EncodeVarint32 (u32 (usize + 8)) in
  {| lk_bytes := klength ++ user_key ++ EncodeFixed64 (PackSequenceAndType s kValueTypeForSeek);
     lk_kstart := blen klength;
     lk_capacity := capacity |}.

Definition memtable_key (k : LookupKey) : bytes := lk_bytes k.

Definition internal_key (k : LookupKey) : bytes := drop (Z.to_nat (lk_kstart k)) (lk_bytes k).

Definition LookupKey_user_key (k : LookupKey) : bytes :=
  let s := drop (Z.to_nat (lk_kstart k)) (lk_bytes k) in take (length s - 8) s.

End dbformat.

(** * Internal keys decompose into a user key and a tag *)

Section facts.
Context {port : Port}.

Lemma ExtractUserKey_app u v : ExtractUserKey (u ++ EncodeFixed64 v) = u.
Proof.
  unfold ExtractUserKey. rewrite length_app, length_EncodeFixed64, Nat.add_sub.
  by apply take_app_length'.
Qed.

Lemma ExtractTag_app u v : 0 <= v < 2 ^ 64 -> ExtractTag (u ++ EncodeFixed64 v) = v.
Proof.
  intros Hv. unfold ExtractTag. rewrite length_app, length_EncodeFixed64, Nat.add_sub.
  rewrite drop_app_length' by done. rewrite <- (app_nil_r (EncodeFixed64 v)).
  by apply DecodeFixed64_Encode.
Qed.

Lemma internal_key_split k :
  8 <= blen k -> k = ExtractUserKey k ++ EncodeFixed64 (ExtractTag k).
Proof.
  intros Hk. unfold ExtractUserKey, ExtractTag.
  rewrite EncodeFixed64_Decode by len. by rewrite take_drop.
Qed.

Lemma ExtractTag_range k : 8 <= blen k -> 0 <= ExtractTag k < 2 ^ 64.
Proof. intros Hk. apply DecodeFixed64_range. len. Qed.

Lemma PackSequenceAndType_eq seq t :
  0 <= seq <= kMaxSequenceNumber -> PackSequenceAndType seq t = seq * 256 + ValueType_num t.
Proof.
  unfold kMaxSequenceNumber. intros Hs. change (Z.shiftl 1 56) with (2 ^ 56) in Hs.
  assert (0 <= ValueType_num t < 2 ^ 8) by (destruct t; done).
  unfold PackSequenceAndType, u64.
  rewrite Z.mod_small by (rewrite Z.shiftl_mul_pow2 by lia; lia).
  rewrite Z.lor_comm, lor_shiftl_add by done. lia.
Qed.

Lemma PackSequenceAndType_range seq t :
  0 <= seq <= kMaxSequenceNumber -> 0 <= PackSequenceAndType seq t < 2 ^ 64.
Proof.
  intros Hs. rewrite PackSequenceAndType_eq by done.
  unfold kMaxSequenceNumber in Hs. change (Z.shiftl 1 56) with (2 ^ 56) in Hs.
  assert (0 <= ValueType_num t < 2 ^ 8) by (destruct t; done). lia.
Qed.

Lemma ValueType_of_num t : ValueType_of (ValueType_num t) = Some t.
Proof. by destruct t. Qed.

Lemma ValueType_of_Some c t : ValueType_of c = Some t -> c = ValueType_num t.
Proof.
  unfold ValueType_of. destruct (Z.eqb_spec c 0); [by intros [= <-]|].
  destruct (Z.eqb_spec c 1); [by intros [= <-]|done].
Qed.

Lemma Pack_type seq t : 0 <= seq <= kMaxSequenceNumber ->
  Z.land (PackSequenceAndType seq t) 0xff = ValueType_num t.
Proof.
  intros Hs. rewrite PackSequenceAndType_eq by done. change 0xff with (2 ^ 8 - 1).
  rewrite land_ones_mod by lia. change (2 ^ 8) with 256. rewrite Z.add_comm, Z_mod_plus_full.
  by destruct t.
Qed.

Lemma Pack_sequence seq t : 0 <= seq <= kMaxSequenceNumber ->
  Z.shiftr (PackSequenceAndType seq t) 8 = seq.
Proof.
  intros Hs. rewrite PackSequenceAndType_eq, Z.shiftr_div_pow2 by lia.
  change (2 ^ 8) with 256. rewrite Z.add_comm, Z.div_add by lia. by destruct t.
Qed.

Lemma AppendInternalKey_eq r key :
  AppendInternalKey r key =
  r ++ user_key key ++ EncodeFixed64 (PackSequenceAndType (sequence key) (type key)).
Proof. unfold AppendInternalKey, PutFixed64. by rewrite app_assoc. Qed.

Lemma ParseInternalKey_Append key :
  0 <= sequence key <= kMaxSequenceNumber -> ParseInternalKey (AppendInternalKey [] key) = Some key.
Proof.
  intros Hs. unfold ParseInternalKey. rewrite AppendInternalKey_eq. cbn [app].
  rewrite (proj2 (Z.ltb_ge _ _)) by len.
  rewrite ExtractTag_app by (by apply PackSequenceAndType_range).
  rewrite Pack_type, ValueType_of_num, ExtractUserKey_app, Pack_sequence by done.
  by destruct key.
Qed.

Lemma ParseInternalKey_Some k key :
  ParseInternalKey k = Some key ->
  AppendInternalKey [] key = k /\ 0 <= sequence key <= kMaxSequenceNumber.
Proof.
  unfold ParseInternalKey. destruct (Z.ltb_spec (blen k) 8) as [|Hk]; [done|].
  destruct (ValueType_of _) as [t|] eqn:Et; [|done]. intros [= <-].
  apply ValueType_of_Some in Et. pose proof (ExtractTag_range k Hk) as Hr.
  pose proof (shiftr_range 56 8 (ExtractTag k) ltac:(lia) ltac:(lia) ltac:(exact Hr)) as Hq.
  cbn [sequence]. assert (0 <= Z.shiftr (ExtractTag k) 8 <= kMaxSequenceNumber) as Hs.
  { unfold kMaxSequenceNumber. change (Z.shiftl 1 56) with (2 ^ 56). lia. }
  split; [|done]. rewrite AppendInternalKey_eq. cbn [app user_key sequence type].
  rewrite PackSequenceAndType_eq, <- Et by done. change 0xff with (2 ^ 8 - 1).
  rewrite land_ones_mod, Z.shiftr_div_pow2 by lia. change (2 ^ 8) with 256.
  rewrite Z.mul_comm, <- Z.div_mod by lia. symmetry. by apply internal_key_split.
Qed.

(** * The internal comparator keeps the comparator laws *)

(** [FindShortestSeparator] is also called on two versions of one user key.
    The interface says nothing about equal arguments, so that this is no law of
    [ComparatorOk]: it is asked for only where two versions are separated.  The
    bytewise comparator has it. *)
Class SeparatorOnEqual (cmp : Comparator) (valid : bytes -> Prop) : Prop :=
  FindShortestSeparator_equal start limit : valid start -> valid limit ->
    Compare cmp start limit = 0 ->
    valid (FindShortestSeparator cmp start limit) /\
    Compare cmp (FindShortestSeparator cmp start limit) start <= 0.

#[export] Instance Bytewise_SeparatorOnEqual :
  SeparatorOnEqual BytewiseComparator (fun _ => True).
Proof.
  intros start limit _ _ He. split; [done|]. cbn [Compare FindShortestSeparator BytewiseComparator] in *.
  apply Slice_compare_eq in He as ->. apply Slice_compare_le.
  destruct (Bytewise_FindShortestSeparator_cases limit limit) as [->|(H1 & H2 & _)].
  - apply lex_lt_irrefl.
  - by destruct (lex_lt_irrefl _ (lex_lt_trans _ _ _ H1 H2)).
Qed.

Section comparator.
Context {user : Comparator} {valid : bytes -> Prop} `{!ComparatorOk user valid}.

Definition internal_valid (k : bytes) : Prop := 8 <= blen k /\ valid (ExtractUserKey k).

Lemma Internal_Compare_lt a b :
  Internal_Compare user a b < 0 <->
  Compare user (ExtractUserKey a) (ExtractUserKey b) < 0 \/
  Compare user (ExtractUserKey a) (ExtractUserKey b) = 0 /\ ExtractTag b < ExtractTag a.
Proof.
  unfold Internal_Compare. destruct (Z.eqb_spec (Compare user (ExtractUserKey a) (ExtractUserKey b)) 0);
    [|lia]. destruct (Z.ltb_spec (ExtractTag b) (ExtractTag a)); [lia|].
  destruct (Z.ltb_spec (ExtractTag a) (ExtractTag b)); lia.
Qed.

Lemma Internal_Compare_gt a b :
  0 < Internal_Compare user a b <->
  0 < Compare user (ExtractUserKey a) (ExtractUserKey b) \/
  Compare user (ExtractUserKey a) (ExtractUserKey b) = 0 /\ ExtractTag a < ExtractTag b.
Proof.
  unfold Internal_Compare. destruct (Z.eqb_spec (Compare user (ExtractUserKey a) (ExtractUserKey b)) 0);
    [|lia]. destruct (Z.ltb_spec (ExtractTag b) (ExtractTag a)); [lia|].
  destruct (Z.ltb_spec (ExtractTag a) (ExtractTag b)); lia.
Qed.

Lemma Internal_Compare_le a b :
  Internal_Compare user a b <= 0 <->
  Compare user (ExtractUserKey a) (ExtractUserKey b) < 0 \/
  Compare user (ExtractUserKey a) (ExtractUserKey b) = 0 /\ ExtractTag b <= ExtractTag a.
Proof. pose proof (Internal_Compare_gt a b). lia. Qed.

Lemma Internal_Compare_le_trans a b c :
  internal_valid a -> internal_valid b -> internal_valid c ->
  Internal_Compare user a b <= 0 -> Internal_Compare user b c <= 0 ->
  Internal_Compare user a c <= 0.
Proof.
  intros [_ Va] [_ Vb] [_ Vc]. rewrite !Internal_Compare_le. intros [Hab|[Hab Tab]] [Hbc|[Hbc Tbc]].
  - left. by apply (Compare_lt_trans _ (ExtractUserKey b)).
  - left. apply (Compare_lt_le_trans _ (ExtractUserKey b)); [done..|lia].
  - left. apply (Compare_le_lt_trans _ (ExtractUserKey b)); [done..|lia|done].
  - right. split; [|lia].
    pose proof (Compare_le_trans (cmp := user) _ _ _ Va Vb Vc ltac:(lia) ltac:(lia)).
    apply Compare_eq_iff in Hab, Hbc; [|done..].
    pose proof (Compare_le_trans (cmp := user) _ _ _ Vc Vb Va ltac:(lia) ltac:(lia)).
    pose proof (Compare_ge_iff (ExtractUserKey a) (ExtractUserKey c) Va Vc). lia.
Qed.

(** A shortened user key with the tag that sorts first. *)
Lemma seek_tag_valid u :
  valid u -> internal_valid (PutFixed64 u (PackSequenceAndType kMaxSequenceNumber kValueTypeForSeek)).
Proof.
  intros Hu. unfold internal_valid, PutFixed64. rewrite ExtractUserKey_app. split; [len|done].
Qed.

Lemma Internal_separator_ok start limit :
  Compare user (ExtractUserKey start) (ExtractUserKey limit) <> 0 \/ SeparatorOnEqual user valid ->
  internal_valid start -> internal_valid limit -> Internal_Compare user start limit < 0 ->
  internal_valid (Internal_FindShortestSeparator user start limit) /\
  Internal_Compare user start (Internal_FindShortestSeparator user start limit) <= 0 /\
  Internal_Compare user (Internal_FindShortestSeparator user start limit) limit < 0.
Proof.
  intros Hse Vs Vl Hlt. unfold Internal_FindShortestSeparator. destruct (_ && _) eqn:E.
  - apply andb_true_iff in E as [_ E%Z.ltb_lt]. set (tmp := FindShortestSeparator _ _ _) in *.
    assert (valid tmp /\ Compare user tmp (ExtractUserKey limit) < 0) as [Vt Ht].
    { destruct Vs as [_ Vs], Vl as [_ Vl]. apply Internal_Compare_lt in Hlt as [Hlt|[He _]].
      - destruct (FindShortestSeparator_ok (cmp := user) _ _ Vs Vl Hlt) as (? & _ & ?). done.
      - destruct Hse as [?|Hse]; [done|]. destruct (FindShortestSeparator_equal (cmp := user) _ _ Vs Vl He) as [Vt Hle].
        apply Compare_antisym in E; [|done..]. unfold tmp in E. lia. }
    split; [by apply seek_tag_valid|]. unfold PutFixed64.
    split; [apply Z.lt_le_incl|]; apply Internal_Compare_lt; left; by rewrite ExtractUserKey_app.
  - split; [done|]. split; [|done]. apply Internal_Compare_le. right.
    split; [apply Compare_refl, Vs|done].
Qed.

Lemma Internal_successor_ok key :
  internal_valid key ->
  internal_valid (Internal_FindShortSuccessor user key) /\
  Internal_Compare user key (Internal_FindShortSuccessor user key) <= 0.
Proof.
  intros Vk. unfold Internal_FindShortSuccessor. destruct (_ && _) eqn:E.
  - apply andb_true_iff in E as [_ E%Z.ltb_lt].
    destruct (FindShortSuccessor_ok (cmp := user) _ (proj2 Vk)) as [Vt _].
    split; [by apply seek_tag_valid|]. apply Internal_Compare_le. left.
    unfold PutFixed64. by rewrite ExtractUserKey_app.
  - split; [done|]. apply Internal_Compare_le. right. split; [apply Compare_refl, Vk|done].
Qed.

Lemma Internal_Compare_antisym a b : internal_valid a -> internal_valid b ->
  Internal_Compare user a b < 0 <-> 0 < Internal_Compare user b a.
Proof.
  intros [_ Va] [_ Vb]. rewrite Internal_Compare_lt, Internal_Compare_gt.
  by rewrite (Compare_antisym _ _ Va Vb), (Compare_eq_iff _ _ Va Vb).
Qed.

Lemma Internal_Compare_eq a b : Internal_Compare user a b = 0 <->
  Compare user (ExtractUserKey a) (ExtractUserKey b) = 0 /\ ExtractTag a = ExtractTag b.
Proof. pose proof (Internal_Compare_gt a b). pose proof (Internal_Compare_le a b). pose proof (Internal_Compare_lt a b). lia. Qed.

#[export] Instance InternalKeyComparator_ok `{!SeparatorOnEqual user valid} :
  ComparatorOk (InternalKeyComparator user) internal_valid.
Proof.
  split; cbn [Compare FindShortestSeparator FindShortSuccessor InternalKeyComparator].
  - intros a [_ Va]. apply Internal_Compare_eq. by rewrite Compare_refl.
  - exact Internal_Compare_antisym.
  - exact Internal_Compare_le_trans.
  - intros start limit. apply Internal_separator_ok. by right.
  - exact Internal_successor_ok.
Qed.

End comparator.
#[global] Arguments internal_valid : clear implicits.

(** * The internal filter policy keeps the filter promise *)

#[export] Instance InternalFilterPolicy_ok (user : FilterPolicy) :
  FilterPolicyOk user -> FilterPolicyOk (InternalFilterPolicy user).
Proof.
  intros Hu. split; cbn [CreateFilter KeyMayMatch InternalFilterPolicy fst Internal_CreateFilter].
  - intros keys dst Hk. apply CreateFilter_appends. unfold blen in *. by rewrite length_fmap.
  - intros keys key Hk Hin. apply CreateFilter_matches.
    + unfold blen in *. by rewrite length_fmap.
    + by apply list_elem_of_fmap_2.
Qed.

End facts.

(** * The properties of the component *)

Section claims.
Context {port : Port}.

Definition seq_ok (s : Z) : Prop := 0 <= s <= kMaxSequenceNumber.

Lemma Internal_Compare_tag_lt user k1 k2 :
  seq_ok (sequence k1) -> seq_ok (sequence k2) ->
  let r := Compare user (user_key k1) (user_key k2) in
  Internal_Compare user (AppendInternalKey [] k1) (AppendInternalKey [] k2) < 0 <->
  r < 0 \/ r = 0 /\ (sequence k2 < sequence k1 \/
    sequence k2 = sequence k1 /\ ValueType_num (type k2) < ValueType_num (type k1)).
Proof.
  intros H1 H2 r. rewrite Internal_Compare_lt, !AppendInternalKey_eq. cbn [app].
  rewrite !ExtractUserKey_app, !ExtractTag_app by (by apply PackSequenceAndType_range).
  rewrite !PackSequenceAndType_eq by done. unfold r.
  assert (forall t, 0 <= ValueType_num t <= 1) as Ht by (by intros []).
  pose proof (Ht (type k1)). pose proof (Ht (type k2)). lia.
Qed.

Lemma LookupKey_internal_key u s :
  internal_key (LookupKey_new u s) = InternalKey_new u s kValueTypeForSeek.
Proof.
  unfold internal_key, LookupKey_new, InternalKey_new. cbn [lk_bytes lk_kstart].
  rewrite AppendInternalKey_eq. unfold blen. rewrite Nat2Z.id. by rewrite drop_app_length.
Qed.

(** Internal keys round trip: [ParseInternalKey] recovers every key that
    [AppendInternalKey] wrote with a sequence number of at most 56 bits; it
    accepts a byte string only when it is the serialization of its result, and
    rejects it exactly when it is shorter than a tag or its type byte names no
    [ValueType]; the length is [InternalKeyEncodingLength]. *)
Theorem InternalKey_roundtrip (key : ParsedInternalKey) (k : bytes) :
  0 <= sequence key <= kMaxSequenceNumber ->
  ParseInternalKey (AppendInternalKey [] key) = Some key /\
  blen (AppendInternalKey [] key) = InternalKeyEncodingLength key /\
  (forall key', ParseInternalKey k = Some key' ->
     AppendInternalKey [] key' = k /\ 0 <= sequence key' <= kMaxSequenceNumber) /\
  (ParseInternalKey k = None <->
     blen k < 8 \/ 1 < Z.land (DecodeFixed64 (drop (length k - 8) k)) 0xff).
Proof.
  intros Hs. split_and!.
  - by apply ParseInternalKey_Append.
  - rewrite AppendInternalKey_eq. unfold InternalKeyEncodingLength. len.
  - apply ParseInternalKey_Some.
  - unfold ParseInternalKey, ValueType_of. fold (ExtractTag k).
    destruct (Z.ltb_spec (blen k) 8); [tauto|].
    pose proof (land_range_r 8 (ExtractTag k) 0xff ltac:(lia) ltac:(lia)).
    destruct (Z.eqb_spec (Z.land (ExtractTag k) 0xff) 0); [split; [done|lia]|].
    destruct (Z.eqb_spec (Z.land (ExtractTag k) 0xff) 1); [split; [done|lia]|].
    split; [lia|done].
Qed.

(** C29: the internal comparator totally preorders the internal keys whenever the
    user comparator does so for the user keys: by increasing user key, then
    decreasing sequence number, then decreasing type; it is antisymmetric and
    transitive, and two keys are equal exactly when their user keys compare
    equal and their tags are the same.  Its successor keeps the law of the
    interface ([key <= successor]); its separator does ([start <= separator <
    limit]) for two different user keys, and for two versions of one user key
    if the user comparator, asked to separate two equal keys, does not answer
    with a greater one, which the interface leaves open. *)
Theorem InternalKeyComparator_order (user : Comparator) (valid : bytes -> Prop)
    (k1 k2 : ParsedInternalKey) (start mid limit : bytes) :
  ComparatorOk user valid -> seq_ok (sequence k1) -> seq_ok (sequence k2) ->
  internal_valid valid start -> internal_valid valid mid -> internal_valid valid limit ->
  let cmp := InternalKeyComparator user in
  let r := Compare user (user_key k1) (user_key k2) in
  (Compare cmp (AppendInternalKey [] k1) (AppendInternalKey [] k2) < 0 <->
   r < 0 \/ r = 0 /\ (sequence k2 < sequence k1 \/
     sequence k2 = sequence k1 /\ ValueType_num (type k2) < ValueType_num (type k1))) /\
  (Compare cmp start limit < 0 <-> 0 < Compare cmp limit start) /\
  (Compare cmp start limit = 0 <->
   Compare user (ExtractUserKey start) (ExtractUserKey limit) = 0 /\ ExtractTag start = ExtractTag limit) /\
  (Compare cmp start mid <= 0 -> Compare cmp mid limit <= 0 -> Compare cmp start limit <= 0) /\
  (Compare cmp start limit < 0 ->
   Compare user (ExtractUserKey start) (ExtractUserKey limit) <> 0 \/ SeparatorOnEqual user valid ->
   Compare cmp start (FindShortestSeparator cmp start limit) <= 0 /\
   Compare cmp (FindShortestSeparator cmp start limit) limit < 0) /\
  Compare cmp start (FindShortSuccessor cmp start) <= 0.
Proof.
  intros Hc H1 H2 Vs Vm Vl cmp r. split_and!.
  - by apply Internal_Compare_tag_lt.
  - by apply Internal_Compare_antisym.
  - apply Internal_Compare_eq.
  - by apply Internal_Compare_le_trans.
  - intros Hlt Hse. by apply Internal_separator_ok.
  - by apply Internal_successor_ok.
Qed.

(** A [LookupKey] fits its buffer (the conservative estimate of
    [usize + 13], or the 200 bytes of [space_]), its memtable form is the
    length-prefixed internal key, its user key is the one it was built from,
    and in internal-key order it stands exactly before the versions of the
    user key that are visible at its sequence number. *)
Theorem LookupKey_seeks_snapshot (user : Comparator) (u : bytes) (s s' : Z) (t : ValueType) :
  blen u + 8 < 2 ^ 32 -> seq_ok s -> seq_ok s' -> Compare user u u = 0 ->
  let lk := LookupKey_new u s in
  blen (memtable_key lk) <= lk_capacity lk /\
  memtable_key lk = PutLengthPrefixedSlice [] (internal_key lk) /\
  LookupKey_user_key lk = u /\
  ParseInternalKey (internal_key lk) =
    Some {| user_key := u; sequence := s; type := kValueTypeForSeek |} /\
  (Internal_Compare user (InternalKey_new u s' t) (internal_key lk) < 0 <-> s < s').
Proof.
  intros Hu Hs Hs' Hr lk. pose proof (EncodeVarint32_length (u32 (blen u + 8))).
  assert (internal_key lk = InternalKey_new u s kValueTypeForSeek) as Ei by apply LookupKey_internal_key.
  split_and!.
  - unfold lk, LookupKey_new, memtable_key. cbn [lk_bytes lk_capacity].
    destruct (Z.leb_spec (blen u + 13) 200); len.
  - rewrite Ei. unfold InternalKey_new. rewrite AppendInternalKey_eq. cbn [app user_key sequence type].
    unfold PutLengthPrefixedSlice, PutVarint32, memtable_key, lk, LookupKey_new. cbn [lk_bytes app].
    do 3 f_equal. len.
  - change (LookupKey_user_key lk) with (ExtractUserKey (internal_key lk)).
    rewrite Ei. unfold InternalKey_new. rewrite AppendInternalKey_eq. apply ExtractUserKey_app.
  - rewrite Ei. by apply ParseInternalKey_Append.
  - rewrite Ei. unfold InternalKey_new. rewrite Internal_Compare_tag_lt by done.
    cbn [user_key sequence type]. unfold kValueTypeForSeek. destruct t; cbn; lia.
Qed.

(** The internal filter policy ignores tags and keeps the promise of the
    policy it wraps: a filter built from internal keys matches every internal
    key whose user key is one of theirs, whatever its version. *)
Theorem InternalFilterPolicy_versions (user : FilterPolicy) (keys : list bytes) (dst k k' : bytes) :
  FilterPolicyOk user -> blen keys < 2 ^ 31 ->
  k ∈ keys -> ExtractUserKey k' = ExtractUserKey k ->
  exists filter, CreateFilter (InternalFilterPolicy user) keys dst = dst ++ filter /\
    KeyMayMatch (InternalFilterPolicy user) k' filter = true.
Proof.
  intros Hu Hk Hin He. exists (CreateFilter (InternalFilterPolicy user) keys []).
  split; [by apply CreateFilter_appends|].
  cbn [KeyMayMatch InternalFilterPolicy]. rewrite He.
  by apply (CreateFilter_matches (policy := InternalFilterPolicy user)).
Qed.

End claims.

(** A comparator that keeps all that the interface promises, but answers with a
    greater key when it is to separate two equal ones. *)
Definition odd_comparator : Comparator :=
  {| Compare := Slice_compare; Name := bytes_of_string "odd";
     FindShortestSeparator := fun start limit =>
       if Slice_compare start limit =? 0 then [Byte.xff] else Bytewise_FindShortestSeparator start limit;
     FindShortSuccessor := Bytewise_FindShortSuccessor |}.

Lemma odd_comparator_ok : ComparatorOk odd_comparator (fun _ => True).
Proof.
  destruct BytewiseComparator_ok as [H1 H2 H3 H4 H5]. split; try done. intros start limit Vs Vl Hlt.
  cbn [FindShortestSeparator Compare odd_comparator] in *. destruct (Z.eqb_spec (Slice_compare start limit) 0); [lia|]. by apply H4.
Qed.

(** With it the separator of two versions of a key is past the second one, and
    the assertions in [FindShortestSeparator] fail. *)
Lemma Internal_separator_past_limit :
  let P := little_endian_port in
  let start := InternalKey_new (bytes_of_string "foo") 2 kTypeValue in
  let limit := InternalKey_new (bytes_of_string "foo") 1 kTypeValue in
  Internal_Compare odd_comparator start limit < 0 /\
  0 < Internal_Compare odd_comparator (Internal_FindShortestSeparator odd_comparator start limit) limit.
Proof. split; vm_compute; reflexivity. Qed.

Lemma InternalKey_roundtrip_witness :
  let P := little_endian_port in
  let key := {| user_key := bytes_of_string "foo"; sequence := 2 ^ 56 - 1; type := kTypeValue |} in
  let k := bytes_of_string "bar" in
  ParseInternalKey (AppendInternalKey [] key) = Some key /\
  blen (AppendInternalKey [] key) = InternalKeyEncodingLength key /\
  (forall key', ParseInternalKey k = Some key' ->
     AppendInternalKey [] key' = k /\ 0 <= sequence key' <= kMaxSequenceNumber) /\
  (ParseInternalKey k = None <->
     blen k < 8 \/ 1 < Z.land (DecodeFixed64 (drop (length k - 8) k)) 0xff).
Proof. intros P key k. apply (InternalKey_roundtrip (port := P)). vm_compute. split; discriminate. Defined.

Lemma InternalKeyComparator_order_witness :
  let P := little_endian_port in
  let k1 := {| user_key := bytes_of_string "foo"; sequence := 101; type := kTypeValue |} in
  let k2 := {| user_key := bytes_of_string "foo"; sequence := 100; type := kTypeValue |} in
  let start := AppendInternalKey [] k1 in
  let mid := AppendInternalKey [] k2 in
  let limit := InternalKey_new (bytes_of_string "hello") 200 kTypeValue in
  let cmp := InternalKeyComparator BytewiseComparator in
  let r := Slice_compare (user_key k1) (user_key k2) in
  Compare cmp start mid < 0 /\ Compare cmp mid limit < 0 /\ Compare cmp start limit < 0 /\
  FindShortestSeparator cmp start limit = InternalKey_new (bytes_of_string "g") kMaxSequenceNumber kTypeValue /\
  (Compare cmp start mid < 0 <->
   r < 0 \/ r = 0 /\ (sequence k2 < sequence k1 \/
     sequence k2 = sequence k1 /\ ValueType_num (type k2) < ValueType_num (type k1))) /\
  Compare cmp (FindShortestSeparator cmp start limit) limit < 0.
Proof.
  intros P k1 k2 start mid limit cmp r. split; [vm_compute; reflexivity|]. split; [vm_compute; reflexivity|].
  assert (Compare cmp start limit < 0) as Hlt by (vm_compute; reflexivity).
  split; [exact Hlt|]. split; [vm_compute; reflexivity|].
  destruct (InternalKeyComparator_order (port := P) BytewiseComparator (fun _ => True) k1 k2 start mid limit)
    as (H1 & _ & _ & _ & H2 & _);
    [apply _|vm_compute; split; discriminate|vm_compute; split; discriminate|(split; [vm_compute; discriminate|exact I])..|].
  split; [exact H1|]. apply H2; [exact Hlt|]. left. vm_compute. discriminate.
Defined.

Lemma LookupKey_seeks_snapshot_witness :
  let P := little_endian_port in
  let u := bytes_of_string "key" in
  let lk := LookupKey_new u 7 in
  blen (memtable_key lk) <= lk_capacity lk /\
  memtable_key lk = PutLengthPrefixedSlice [] (internal_key lk) /\
  LookupKey_user_key lk = u /\
  ParseInternalKey (internal_key lk) =
    Some {| user_key := u; sequence := 7; type := kValueTypeForSeek |} /\
  (Internal_Compare BytewiseComparator (InternalKey_new u 9 kTypeDeletion) (internal_key lk) < 0 <-> 7 < 9).
Proof.
  intros P u lk. apply (LookupKey_seeks_snapshot (port := P));
    vm_compute; try reflexivity; split; discriminate.
Defined.

Lemma InternalFilterPolicy_versions_witness :
  let P := little_endian_port in
  let user := NewBloomFilterPolicy 10 in
  let k := InternalKey_new (bytes_of_string "a") 1 kTypeValue in
  let k' := InternalKey_new (bytes_of_string "a") 9 kTypeDeletion in
  exists filter, CreateFilter (InternalFilterPolicy user) [k] [] = [] ++ filter /\
    KeyMayMatch (InternalFilterPolicy user) k' filter = true.
Proof.
  intros P user k k'. apply (InternalFilterPolicy_versions user [k] [] k k').
  - apply NewBloomFilterPolicy_ok. lia.
  - vm_compute. reflexivity.
  - apply list_elem_of_here.
  - vm_compute. reflexivity.
Defined.
