(* ===== verification/Env.v ===== *)
(** The environment interface of [include/leveldb/env.h] and the utilities of
    [util/env.cpp].

    Files are handles into a state that every operation threads; the
    operations are class fields, and what the code relies on is stated by the
    [..Ok] classes.  Operations may fail at any time: the laws say what a
    success means and which files a failure may have touched.  [MemEnv] is an
    in-memory file system with scheduled faults that keeps all the laws. *)

From S2P Require Import Prelude Status.

(** * A state monad *)

Definition State (S A : Type) : Type := S -> A * S.

#[export] Instance State_ret S : MRet (State S) := fun A x s => (x, s).
#[export] Instance State_bind S : MBind (State S) :=
  fun A B f m s => let '(x, s) := m s in f x s.

(** * Files *)

Class WritableFileOps (H S : Type) := {
  Append : H -> bytes -> State S Status;
  Close : H -> State S Status;
  Flush : H -> State S Status;
  Sync : H -> State S Status;
}.

(** [written h s] is everything appended through [h]. *)
Class WritableFileOk (H S : Type) `{!WritableFileOps H S} (written : H -> S -> bytes) : Prop := {
  Append_ok h d s st s' : Append h d s = (st, s') -> ok st = true ->
    written h s' = written h s ++ d;
  Flush_ok h s st s' : Flush h s = (st, s') -> ok st = true -> written h s' = written h s;
}.

(** A file whose operations do not fail. *)
Class WritableFileReliable (H S : Type) `{!WritableFileOps H S} : Prop := {
  Append_reliable h d s : ok (Append h d s).1 = true;
  Flush_reliable h s : ok (Flush h s).1 = true;
}.

(** [Read] returns a slice: its address (in [scratch] or elsewhere) and its
    bytes. *)
Class SequentialFileOps (H S : Type) := {
  Read : H -> Z -> Z -> State S (Status * (Z * bytes));
  Skip : H -> Z -> State S Status;
}.

(** [remaining h s] is what is left to read.  Reads are full: fewer than [n]
    bytes come back only at the end of the file.  The interface says "up to n
    bytes", but its client [log::Reader] takes a short read for the end of the
    file, so that this is what it needs of an implementation.  File positions
    are signed 64-bit integers, and a read is of at most 0x7ffff000 bytes, the
    most that one system call transfers. *)
Class SequentialFileOk (H S : Type) `{!SequentialFileOps H S} (remaining : H -> S -> bytes) : Prop := {
  Read_ok h n scratch s st a d s' : 0 <= n <= 0x7ffff000 ->
    Read h n scratch s = (st, (a, d), s') -> ok st = true ->
    d = take (Z.to_nat n) (remaining h s) /\ remaining h s' = drop (Z.to_nat n) (remaining h s);
  Skip_ok h n s st s' : 0 <= n < 2 ^ 63 ->
    Skip h n s = (st, s') -> ok st = true -> remaining h s' = drop (Z.to_nat n) (remaining h s);
}.

(** A file whose operations do not fail. *)
Class SequentialFileReliable (H S : Type) `{!SequentialFileOps H S} : Prop := {
  Read_reliable h n scratch s : ok (Read h n scratch s).1.1 = true;
  Skip_reliable h n s : ok (Skip h n s).1 = true;
}.

Class RandomAccessFileOps (H S : Type) := {
  ReadAt : H -> Z -> Z -> Z -> State S (Status * (Z * bytes));
}.

(** [reads h s c]: in the state [s], [h] reads the file content [c]. *)
Class RandomAccessFileOk (H S : Type) `{!RandomAccessFileOps H S} (reads : H -> S -> bytes -> Prop) : Prop := {
  ReadAt_ok h c offset n scratch s st a d s' : reads h s c -> 0 <= offset -> 0 <= n -> offset + n < 2 ^ 64 ->
    ReadAt h offset n scratch s = (st, (a, d), s') -> ok st = true ->
    d = take (Z.to_nat n) (drop (Z.to_nat offset) c);
  ReadAt_reads h c offset n scratch s : reads h s c -> 0 <= offset -> 0 <= n -> offset + n < 2 ^ 64 ->
    reads h (ReadAt h offset n scratch s).2 c;
}.

(** A file whose reads within its content do not fail. *)
Class RandomAccessFileReliable (H S : Type) `{!RandomAccessFileOps H S} (reads : H -> S -> bytes -> Prop) : Prop :=
  ReadAt_reliable h c offset n scratch s : reads h s c -> 0 <= offset -> 0 <= n -> offset + n <= blen c ->
    ok (ReadAt h offset n scratch s).1.1 = true.

(** The part of an environment that opens files for random access. *)
Class RandomAccessEnv (H S : Type) := {
  env_random :: RandomAccessFileOps H S;
  NewRandomAccessFile : bytes -> State S (Status * option H);
  delete_random_access : H -> State S unit;
}.

(** [opens fs s p]: in the state [s] the files are those of [fs], and [p] lists
    the random access files that were opened and not deleted, with what they
    read.  [names] are the names the environment answers for.  Operations may
    fail at any time, but a failure to open leaves nothing open. *)
Class RandomAccessEnvOk (H S : Type) `{!RandomAccessEnv H S} (names : bytes -> Prop)
    (opens : (bytes -> option bytes) -> S -> list (H * bytes) -> Prop) : Prop := {
  opens_perm fs s p q : p ≡ₚ q -> opens fs s p -> opens fs s q;
  opens_same fs s p h c c' : opens fs s p -> (h, c) ∈ p -> (h, c') ∈ p -> c = c';
  NewRandomAccessFile_opens fs s p f : names f -> opens fs s p ->
    let '((st, r), s') := NewRandomAccessFile f s in
    match r with
    | Some h => ok st = true /\ exists c, fs f = Some c /\ opens fs s' ((h, c) :: p)
    | None => ok st = false /\ opens fs s' p
    end;
  delete_opens fs s p h c : opens fs s ((h, c) :: p) -> opens fs (delete_random_access h s).2 p;
  ReadAt_opens fs s p h c offset n scratch : opens fs s p -> (h, c) ∈ p ->
    0 <= offset -> 0 <= n -> offset + n < 2 ^ 64 ->
    let '((st, (_, d)), s') := ReadAt h offset n scratch s in
    opens fs s' p /\ (ok st = true -> d = take (Z.to_nat n) (drop (Z.to_nat offset) c));
}.

(** An environment that opens every file there is and reads it. *)
Class RandomAccessEnvReliable (H S : Type) `{!RandomAccessEnv H S} (names : bytes -> Prop)
    (opens : (bytes -> option bytes) -> S -> list (H * bytes) -> Prop) : Prop := {
  NewRandomAccessFile_reliable fs s p f : names f -> opens fs s p -> is_Some (fs f) ->
    ok (NewRandomAccessFile f s).1.1 = true;
  ReadAt_opens_reliable fs s p h c offset n scratch : opens fs s p -> (h, c) ∈ p ->
    0 <= offset -> 0 <= n -> offset + n <= blen c -> ok (ReadAt h offset n scratch s).1.1 = true;
}.

(** An open file of such an environment. *)
Definition opened_file {H S : Type} (opens : (bytes -> option bytes) -> S -> list (H * bytes) -> Prop)
    (fs : bytes -> option bytes) (p : list (H * bytes)) (h : H) (s : S) (c : bytes) : Prop :=
  opens fs s p /\ (h, c) ∈ p.

#[export] Instance opened_file_ok (H S : Type) `{!RandomAccessEnv H S} names opens `{!RandomAccessEnvOk H S names opens} fs p :
  RandomAccessFileOk H S (opened_file opens fs p).
Proof.
  split.
  - intros h c offset n scratch s st a d s' [Ho Hin] H1 H2 H3 E Hok.
    pose proof (ReadAt_opens fs s p h c offset n scratch Ho Hin H1 H2 H3) as Hr. rewrite E in Hr. by apply Hr.
  - intros h c offset n scratch s [Ho Hin] H1 H2 H3.
    pose proof (ReadAt_opens fs s p h c offset n scratch Ho Hin H1 H2 H3) as Hr.
    destruct (ReadAt h offset n scratch s) as [[st [a d]] s']. by split; [apply Hr|].
Qed.

#[export] Instance opened_file_reliable (H S : Type) `{!RandomAccessEnv H S} names opens
  `{!RandomAccessEnvReliable H S names opens} fs p : RandomAccessFileReliable H S (opened_file opens fs p).
Proof. intros h c offset n scratch s [Ho Hin]. by eapply ReadAt_opens_reliable. Qed.

(** * The environment *)

Class Env (W : Type) := {
  WritableFile : Type;
  SequentialFile : Type;
  env_writable :: WritableFileOps WritableFile W;
  env_sequential :: SequentialFileOps SequentialFile W;
  NewWritableFile : bytes -> State W (Status * option WritableFile);
  NewSequentialFile : bytes -> State W (Status * option SequentialFile);
  delete_writable : WritableFile -> State W unit;
  delete_sequential : SequentialFile -> State W unit;
  DeleteFile : bytes -> State W Status;
  RenameFile : bytes -> bytes -> State W Status;
}.

Section util.
Context {W : Type} `{!Env W}.

(** [Env::NewAppendableFile], the default of the base class. *)
Definition NewAppendableFile (fname : bytes) : State W (Status * option WritableFile) :=
  mret (NotSupported (bytes_of_string "NewAppendableFile") fname, None).

Definition DoWriteStringToFile (data fname : bytes) (should_sync : bool) : State W Status :=
  '(s, file) ← NewWritableFile fname;
  match file with
  | Some file =>
    if negb (ok s) then mret s
    else
      s ← Append file data;
      s ← (if ok s && should_sync then Sync file else mret s);
      s ← (if ok s then Close file else mret s);
      _ ← delete_writable file;
      if negb (ok s) then _ ← DeleteFile fname; mret s else mret s
  | None => mret s
  end.

Definition WriteStringToFile (data fname : bytes) : State W Status :=
  DoWriteStringToFile data fname false.

Definition WriteStringToFileSync (data fname : bytes) : State W Status :=
  DoWriteStringToFile data fname true.

Definition kBufferSize : Z := 8192.

(** The [while (true)] loop; [None] when the turns run out. *)
Fixpoint ReadFileToString_loop (fuel : nat) (file : SequentialFile) (space : Z) (data : bytes)
    (w : W) : option (Status * bytes * W) :=
  match fuel with
  | O => None
  | S fuel =>
    let '((s, (_, fragment)), w) := Read file kBufferSize space w in
    if negb (ok s) then Some (s, data, w)
    else
      let data := data ++ fragment in
      match fragment with
      | [] => Some (s, data, w)
      | _ => ReadFileToString_loop fuel file space data w
      end
  end.

Definition ReadFileToString (fuel : nat) (space : Z) (fname : bytes) (w : W)
    : option (Status * bytes * W) :=
  let data := [] in
  let '((s, file), w) := NewSequentialFile fname w in
  match file with
  | Some file =>
    if negb (ok s) then Some (s, data, w)
    else
      match ReadFileToString_loop fuel file space data w with
      | Some (s, data, w) => let '(_, w) := delete_sequential file w in Some (s, data, w)
      | None => None
      end
  | None => Some (s, data, w)
  end.

End util.

(** ** What the environment promises *)

(** The file is gone, or has got another name. *)
Definition lost (f : bytes) (m m' : gmap bytes bytes) : Prop :=
  m' = delete f m \/ exists other d, m !! f = Some d /\ m !! other = None /\ m' = <[other := d]> (delete f m).

(** [files w] is the file system.  [path_ok f]: the string is a path the
    system can name; [fits d]: the data can go into one [Append]; [torn]: a rename that fails
    may lose its target; [inv w]: the world is well formed; [live h w]: the object
    behind the handle exists and [wname h] is the one name of the file it
    writes.  Handles stay live across their own operations. *)
Class EnvOk (W : Type) `{!Env W} (path_ok fits : bytes -> Prop) (torn : Prop) (files : W -> gmap bytes bytes)
    (inv : W -> Prop) (wname : WritableFile -> bytes) (live : WritableFile -> W -> Prop)
    (written : WritableFile -> W -> bytes) (remaining : SequentialFile -> W -> bytes) : Prop := {
  Append_fits h d w s w' : live h w -> fits d -> Append h d w = (s, w') -> ok s = true ->
    written h w' = written h w ++ d;
  live_inv h w : live h w -> inv w;
  NewWritableFile_ok f w s file w' : path_ok f -> inv w ->
    NewWritableFile f w = (s, file, w') -> ok s = true ->
    exists h, file = Some h /\ wname h = f /\ live h w' /\ written h w' = [];
  NewWritableFile_inv f w : path_ok f -> inv w -> inv (NewWritableFile f w).2;
  Append_live h d w : live h w -> live h (Append h d w).2;
  Sync_live h w : live h w -> live h (Sync h w).2;
  Close_live h w : live h w -> live h (Close h w).2;
  delete_writable_inv h w : live h w -> inv (delete_writable h w).2;
  DeleteFile_inv f w : path_ok f -> inv w -> inv (DeleteFile f w).2;
  (** Operations through a handle, and creating it, touch only its file. *)
  NewWritableFile_frame f w g : path_ok f -> inv w -> g <> f ->
    files (NewWritableFile f w).2 !! g = files w !! g;
  Append_frame h d w g : live h w -> g <> wname h -> files (Append h d w).2 !! g = files w !! g;
  Sync_frame h w g : live h w -> g <> wname h -> files (Sync h w).2 !! g = files w !! g;
  Close_frame h w g : live h w -> g <> wname h -> files (Close h w).2 !! g = files w !! g;
  delete_writable_frame h w g : live h w -> g <> wname h ->
    files (delete_writable h w).2 !! g = files w !! g;
  DeleteFile_frame f w g : path_ok f -> g <> f -> files (DeleteFile f w).2 !! g = files w !! g;
  (** A successful [Close] leaves everything written in the file. *)
  Sync_written h w s w' : live h w -> Sync h w = (s, w') -> ok s = true -> written h w' = written h w;
  Close_ok h w s w' : live h w -> Close h w = (s, w') -> ok s = true ->
    files w' !! wname h = Some (written h w);
  delete_closed h w s w' : live h w -> Close h w = (s, w') -> ok s = true ->
    files (delete_writable h w').2 = files w';
  RenameFile_ok src target d w s w' : path_ok src -> path_ok target -> inv w ->
    files w !! src = Some d -> RenameFile src target w = (s, w') -> ok s = true ->
    files w' = <[target := d]> (delete src (files w)) /\ inv w';
  RenameFile_fail src target w s w' : path_ok src -> path_ok target -> RenameFile src target w = (s, w') -> ok s = false -> inv w ->
    (files w' = files w \/ torn /\ lost target (files w) (files w')) /\ inv w';
  (** A directory can be opened, but not read. *)
  NewSequentialFile_ok f w s file w' : path_ok f -> NewSequentialFile f w = (s, file, w') ->
    ok s = true ->
    exists h, file = Some h /\
      (files w !! f = Some (remaining h w') \/ forall n scratch, ok (Read h n scratch w').1.1 = false);
}.

(** * The utilities under faults *)

Section util_facts.
Context {W : Type} `{EnvOk W path_ok fits torn files inv wname live written remaining}.

(** One operation on a live handle: it stays live and other files stay. *)
Lemma live_step (op : State W Status) h w s w' :
  (live h w -> live h (op w).2) ->
  (live h w -> forall g, g <> wname h -> files (op w).2 !! g = files w !! g) ->
  live h w -> op w = (s, w') ->
  live h w' /\ forall g, g <> wname h -> files w' !! g = files w !! g.
Proof. intros Hl Hf Hh E. rewrite E in Hl, Hf. auto. Qed.

Lemma DoWriteStringToFile_spec data f sync w s w' : path_ok f -> fits data -> inv w ->
  DoWriteStringToFile data f sync w = (s, w') ->
  inv w' /\ (forall g, g <> f -> files w' !! g = files w !! g) /\
  (ok s = true -> files w' !! f = Some data).
Proof.
  intros Hf Hfit Hi. unfold DoWriteStringToFile, mbind, State_bind, mret, State_ret.
  pose proof (NewWritableFile_frame f w) as F0. pose proof (NewWritableFile_inv f w Hf Hi) as I0.
  destruct (NewWritableFile f w) as [[s0 file] w0] eqn:E0. cbn [snd] in F0, I0.
  destruct (ok s0) eqn:Hs0; cbn [negb].
  2:{ destruct file; intros [= <- <-]; (split_and!; [done|by intros; apply F0|congruence]). }
  destruct (NewWritableFile_ok _ _ _ _ _ Hf Hi E0 Hs0) as (h & -> & <- & L0 & Hw0).
  destruct (Append h data w0) as [s1 w1] eqn:E1.
  destruct (live_step (Append h data) h w0 s1 w1) as [L1 F1];
    [apply Append_live|intros; by apply Append_frame|done|done|].
  destruct ((if ok s1 && sync then Sync h else fun w => (s1, w)) w1) as [s2 w2] eqn:E2.
  destruct (live_step (if ok s1 && sync then Sync h else fun w => (s1, w)) h w1 s2 w2) as [L2 F2];
    [destruct (ok s1 && sync); [apply Sync_live|done]
    |destruct (ok s1 && sync); [intros; by apply Sync_frame|done]|done|done|].
  destruct ((if ok s2 then Close h else fun w => (s2, w)) w2) as [s3 w3] eqn:E3.
  destruct (live_step (if ok s2 then Close h else fun w => (s2, w)) h w2 s3 w3) as [L3 F3];
    [destruct (ok s2); [apply Close_live|done]
    |destruct (ok s2); [intros; by apply Close_frame|done]|done|done|].
  pose proof (delete_writable_frame h w3) as F4. pose proof (delete_writable_inv h w3 L3) as I4.
  destruct (delete_writable h w3) as [[] w4] eqn:E4. cbn [snd] in F4, I4.
  destruct (ok s3) eqn:Hs3; cbn [negb].
  - intros [= <- <-]. split_and!; [done|intros g Hg; by rewrite F4, F3, F2, F1, F0|]. intros _.
    destruct (ok s2) eqn:Hs2; [|congruence].
    pose proof (Close_ok _ _ _ _ L2 E3 Hs3) as Hc. pose proof (delete_closed _ _ _ _ L2 E3 Hs3) as Hd.
    rewrite E4 in Hd. cbn [snd] in Hd. rewrite Hd, Hc. f_equal.
    destruct (ok s1) eqn:Hs1; [|injection E2 as <- <-; congruence].
    pose proof (Append_fits _ _ _ _ _ L0 Hfit E1 Hs1) as Ha. rewrite Hw0 in Ha.
    destruct sync; cbn [andb] in E2; [|by injection E2 as <- <-].
    by rewrite (Sync_written _ _ _ _ L1 E2 Hs2).
  - pose proof (DeleteFile_frame (wname h) w4) as F5. pose proof (DeleteFile_inv (wname h) w4 Hf I4) as I5.
    destruct (DeleteFile (wname h) w4) as [s5 w5]. cbn [snd] in F5, I5. intros [= <- <-].
    split_and!; [done|intros g Hg; by rewrite F5, F4, F3, F2, F1, F0|congruence].
Qed.

(** The read loop ends once the bytes that remain are consumed. *)
Context `{!SequentialFileOk SequentialFile W remaining}.

Lemma ReadFileToString_loop_spec fuel file space data w :
  (length (remaining file w) < fuel)%nat ->
  exists s d w', ReadFileToString_loop fuel file space data w = Some (s, d, w') /\
    (ok s = true -> d = data ++ remaining file w).
Proof.
  revert data w. induction fuel as [|fuel IH]; intros data w Hf; [lia|].
  cbn [ReadFileToString_loop]. destruct (Read file kBufferSize space w) as [[s [a d]] w'] eqn:E.
  destruct (ok s) eqn:Hs; cbn [negb].
  2:{ eexists _, _, _. split; [done|congruence]. }
  apply Read_ok in E as [Hd Hr]; [|done|done].
  destruct d as [|b d].
  - eexists _, _, _. split; [done|]. intros _. f_equal.
    destruct (remaining file w); [done|]. by unfold kBufferSize in Hd.
  - destruct (IH (data ++ b :: d) w') as (s' & d' & w'' & E' & Hd').
    { rewrite Hr, length_drop. assert (length (b :: d) <= length (remaining file w))%nat
        by (rewrite Hd, length_take; lia). unfold kBufferSize. simpl in *. lia. }
    eexists _, _, _. split; [exact E'|]. intros Hok. rewrite (Hd' Hok), <- app_assoc. f_equal.
    by rewrite Hd, Hr, take_drop.
Qed.

(** [WriteStringToFile] and [WriteStringToFileSync], on an environment any
    of whose operations may fail: they never touch another file, when they
    report success the named file holds exactly the data, and the world stays
    well formed. *)
Theorem WriteStringToFile_correct (data f g : bytes) (sync : bool) (w : W) :
  path_ok f -> fits data -> inv w ->
  let '(s, w') := DoWriteStringToFile data f sync w in
  (ok s = true -> files w' !! f = Some data) /\
  (g <> f -> files w' !! g = files w !! g) /\ inv w'.
Proof.
  intros Hf Hfit Hi. destruct (DoWriteStringToFile data f sync w) as [s w'] eqn:E.
  apply DoWriteStringToFile_spec in E as (Hi' & Hfr & Hd); auto.
Qed.

(** [ReadFileToString] returns: its loop ends after at most one turn per
    byte of the file and one more, and a successful result is the whole
    content of the file, in whatever pieces it was read. *)
Theorem ReadFileToString_correct (f : bytes) (w : W) (space : Z) :
  path_ok f ->
  exists fuel s d w', ReadFileToString fuel space f w = Some (s, d, w') /\
    (ok s = true -> files w !! f = Some d).
Proof.
  intros Hf. unfold ReadFileToString.
  destruct (NewSequentialFile f w) as [[s file] w0] eqn:E.
  destruct (ok s) eqn:Hs; cbn [negb].
  2:{ exists 0%nat. destruct file; (eexists _, _, _; split; [done|congruence]). }
  destruct (NewSequentialFile_ok _ _ _ _ _ Hf E Hs) as (h & -> & [Hh|Hbad]).
  - destruct (ReadFileToString_loop_spec (S (length (remaining h w0))) h space [] w0)
      as (s' & d & w' & El & Hd); [lia|].
    exists (S (length (remaining h w0))). rewrite El.
    destruct (delete_sequential h w') as [[] w'']. eexists _, _, _. split; [done|].
    intros Hok. by rewrite Hh, Hd.
  - exists 1%nat. cbn [ReadFileToString_loop]. specialize (Hbad kBufferSize space).
    destruct (Read h kBufferSize space w0) as [[s1 [a d]] w1]. cbn [fst] in Hbad. rewrite Hbad. cbn [negb].
    destruct (delete_sequential h w1) as [[] w'']. eexists _, _, _. split; [done|]. by rewrite Hbad.
Qed.

End util_facts.

(** * An in-memory environment with scheduled faults *)

Module MemEnv.

Record World := {
  fs : gmap bytes bytes;
  open_reads : list bytes;
  faults : list bool;
}.

(** Run an operation, or fail without effect when a fault is due. *)
Definition guard {A} (failed : A) (op : State World A) : State World A := fun w =>
  let w' := {| fs := fs w; open_reads := open_reads w; faults := tail (faults w) |} in
  match faults w with
  | true :: _ => (failed, w')
  | _ => op w'
  end.

Definition fault : Status := IOError (bytes_of_string "injected fault") [].

Definition set_fs (m : gmap bytes bytes) (w : World) : World :=
  {| fs := m; open_reads := open_reads w; faults := faults w |}.

Definition set_read (h : nat) (d : bytes) (w : World) : World :=
  {| fs := fs w; open_reads := <[h := d]> (open_reads w); faults := faults w |}.

Definition written (h : bytes) (w : World) : bytes := default [] (fs w !! h).

Definition remaining (h : nat) (w : World) : bytes := default [] (open_reads w !! h).

#[global] Instance mem_writable : WritableFileOps bytes World := {
  Append h d := guard fault (fun w => (OK, set_fs (<[h := written h w ++ d]> (fs w)) w));
  Close h := guard fault (fun w => match fs w !! h with Some _ => (OK, w) | None => (fault, w) end);
  Flush h := guard fault (fun w => (OK, w));
  Sync h := guard fault (fun w => (OK, w));
}.

#[global] Instance mem_sequential : SequentialFileOps nat World := {
  Read h n scratch := guard (fault, (scratch, [])) (fun w =>
    let d := remaining h w in
    ((OK, (scratch, take (Z.to_nat n) d)), set_read h (drop (Z.to_nat n) d) w));
  Skip h n := guard fault (fun w => (OK, set_read h (drop (Z.to_nat n) (remaining h w)) w));
}.

#[global] Instance mem_env : Env World := {
  WritableFile := bytes;
  SequentialFile := nat;
  NewWritableFile f := guard (fault, None) (fun w => ((OK, Some f), set_fs (<[f := []]> (fs w)) w));
  NewSequentialFile f := guard (fault, None) (fun w =>
    match fs w !! f with
    | Some d => ((OK, Some (length (open_reads w))),
                 {| fs := fs w; open_reads := open_reads w ++ [d]; faults := faults w |})
    | None => ((NotFound f [], None), w)
    end);
  delete_writable h w := (tt, w);
  delete_sequential h w := (tt, w);
  DeleteFile f := guard fault (fun w => (OK, set_fs (delete f (fs w)) w));
  RenameFile src target := guard fault (fun w =>
    match fs w !! src with
    | Some d => (OK, set_fs (<[target := d]> (delete src (fs w))) w)
    | None => (NotFound src [], w)
    end);
}.

Lemma guard_cases {A} (failed : A) op w :
  let w' := {| fs := fs w; open_reads := open_reads w; faults := tail (faults w) |} in
  guard failed op w = (failed, w') \/ guard failed op w = op w'.
Proof. cbv zeta. unfold guard. destruct (faults w) as [|[] ?]; auto. Qed.

(** Consider both outcomes of the guarded operation in sight. *)
Ltac guarded :=
  repeat match goal with
  | |- context [guard ?x ?op ?w] => destruct (guard_cases x op w) as [->| ->]
  | H : guard ?x ?op ?w = _ |- _ =>
    destruct (guard_cases x op w) as [Hg|Hg]; rewrite Hg in H; clear Hg
  end; cbn [fs open_reads faults set_fs set_read snd fst] in *.

Lemma remaining_set_read h n w : remaining h (set_read h (drop n (remaining h w)) w) = drop n (remaining h w).
Proof.
  unfold remaining. cbn. rewrite list_lookup_insert. case_decide as Hd; [done|].
  destruct (open_reads w !! h) eqn:E; [apply lookup_lt_Some in E; tauto|by cbn; rewrite drop_nil].
Qed.

#[global] Instance mem_sequential_ok : SequentialFileOk nat World remaining.
Proof. split; cbn -[set_read]; intros; guarded; simplify_eq; try done; by rewrite remaining_set_read. Qed.

#[global] Instance mem_env_ok : EnvOk World (fun _ => True) (fun _ => True) False fs (fun _ => True) (fun h => h)
  (fun _ _ => True) written remaining.
Proof.
  split; cbn; try done.
  - intros. guarded; simplify_eq; try done.
    unfold written at 1. cbn. by rewrite lookup_insert_eq.
  - intros f w s file w' _ _ E Hs. guarded; simplify_eq; try done. exists f.
    unfold written. cbn. by rewrite lookup_insert_eq.
  - intros. guarded; [done|]. by rewrite lookup_insert_ne.
  - intros. guarded; [done|]. by rewrite lookup_insert_ne.
  - intros. by guarded.
  - intros. guarded; [done|]. by case_match.
  - intros. guarded; [done|]. by rewrite lookup_delete_ne.
  - intros. guarded; by simplify_eq.
  - intros h w s w' _ E Hs. guarded; try (by simplify_eq). unfold written.
    destruct (fs w !! h) eqn:Ef; simplify_eq; try done.
  - intros src target d w s w' _ _ _ Hd E Hs. guarded; try (by simplify_eq). rewrite Hd in E.
    by simplify_eq.
  - intros src target w s w' _ _ E Hs _. split; [|done]. left. guarded; try (by simplify_eq).
    destruct (fs w !! src) as [d|] eqn:Ef; by simplify_eq.
  - intros f w s file w' _ E Hs. guarded; try (by simplify_eq).
    destruct (fs w !! f) as [d|] eqn:Ef; simplify_eq; try done.
    eexists. split; [done|]. left. unfold remaining. cbn. by rewrite list_lookup_middle.
Qed.

End MemEnv.

(** A write that survives, and one whose [Sync] fails. *)
Lemma WriteStringToFile_correct_witness :
  let f := bytes_of_string "a" in
  let g := bytes_of_string "b" in
  let w l := {| MemEnv.fs := {[ g := bytes_of_string "old" ]}; MemEnv.open_reads := [];
                MemEnv.faults := l |} in
  ok (DoWriteStringToFile g f true (w [])).1 = true /\
  ok (DoWriteStringToFile g f true (w [false; false; true])).1 = false /\
  (let '(s, w') := DoWriteStringToFile g f true (w [false; false; true]) in
   (ok s = true -> MemEnv.fs w' !! f = Some g) /\
   (g <> f -> MemEnv.fs w' !! g = MemEnv.fs (w [false; false; true]) !! g) /\ True).
Proof.
  intros f g w. split; [vm_compute; reflexivity|]. split; [vm_compute; reflexivity|].
  exact (WriteStringToFile_correct (files := MemEnv.fs) g f g true (w [false; false; true]) I I I).
Defined.

Lemma ReadFileToString_correct_witness :
  let f := bytes_of_string "a" in
  let w := {| MemEnv.fs := {[ f := bytes_of_string "hello" ]}; MemEnv.open_reads := [];
              MemEnv.faults := [] |} in
  exists fuel s d w', ReadFileToString fuel 0 f w = Some (s, d, w') /\
    (ok s = true -> MemEnv.fs w !! f = Some d).
Proof.
  intros f w. exact (ReadFileToString_correct (files := MemEnv.fs) f w 0 I).
Defined.

(** A single in-memory file that does not fail: its state is what was written,
    or what is left to read. *)
Module MemFile.

#[global] Instance dest : WritableFileOps unit bytes := {
  Append _ d s := (OK, s ++ d);
  Close _ s := (OK, s);
  Flush _ s := (OK, s);
  Sync _ s := (OK, s);
}.

#[global] Instance source : SequentialFileOps unit bytes := {
  Read _ n scratch s := ((OK, (scratch, take (Z.to_nat n) s)), drop (Z.to_nat n) s);
  Skip _ n s := (OK, drop (Z.to_nat n) s);
}.

#[global] Instance random : RandomAccessFileOps unit bytes := {
  ReadAt _ offset n scratch s :=
    ((OK, (scratch, take (Z.to_nat n) (drop (Z.to_nat offset) s))), s);
}.

#[global] Instance dest_ok : WritableFileOk unit bytes (fun _ s => s).
Proof. split; cbn; intros; by simplify_eq. Qed.

#[global] Instance dest_reliable : WritableFileReliable unit bytes.
Proof. done. Qed.

#[global] Instance source_ok : SequentialFileOk unit bytes (fun _ s => s).
Proof. split; cbn; intros; by simplify_eq. Qed.

#[global] Instance source_reliable : SequentialFileReliable unit bytes.
Proof. done. Qed.

#[global] Instance random_ok : RandomAccessFileOk unit bytes (fun _ s c => s = c).
Proof. split; cbn; intros; by simplify_eq. Qed.

#[global] Instance random_reliable : RandomAccessFileReliable unit bytes (fun _ s c => s = c).
Proof. done. Qed.

End MemFile.
