(* ===== verification/FileName.v ===== *)
(** File names of [db/filename.h] and [db/filename.cpp]: building and parsing
    the names of database files, and switching CURRENT to a new descriptor. *)

From S2P Require Import Prelude Logging Status Comparator Env.

Inductive FileType :=
  | kLogFile | kDBLockFile | kTableFile | kDescriptorFile | kCurrentFile | kTempFile | kInfoLogFile.

#[export] Instance FileType_eq_dec : EqDecision FileType.
Proof. solve_decision. Defined.

Notation str := bytes_of_string.

(** * Names *)

(** The longest text, of a 20-digit number, fits [buf[100]]
    ([MakeFileName_fits]). *)
Definition MakeFileName (name : bytes) (number : Z) (suffix : bytes) : bytes :=
  name ++ str "/" ++ print_u64_06 number ++ str "." ++ suffix.

Definition LogFileName (name : bytes) (number : Z) : bytes := MakeFileName name number (str "log").
Definition TableFileName (name : bytes) (number : Z) : bytes := MakeFileName name number (str "ldb").
Definition SSTTableFileName (name : bytes) (number : Z) : bytes := MakeFileName name number (str "sst").

Definition DescriptorFileName (dbname : bytes) (number : Z) : bytes :=
  dbname ++ str "/MANIFEST-" ++ print_u64_06 number.

Definition CurrentFileName (dbname : bytes) : bytes := dbname ++ str "/CURRENT".
Definition LockFileName (dbname : bytes) : bytes := dbname ++ str "/LOCK".
Definition TempFileName (dbname : bytes) (number : Z) : bytes := MakeFileName dbname number (str "dbtmp").
Definition InfoLogFileName (dbname : bytes) : bytes := dbname ++ str "/LOG".
Definition OldInfoLogFileName (dbname : bytes) : bytes := dbname ++ str "/LOG.old".

(** [None] is the [false] result. *)
Definition ParseFileName (fname : bytes) : option (Z * FileType) :=
  let rest := fname in
  if Slice_eq rest (str "CURRENT") then Some (0, kCurrentFile)
  else if Slice_eq rest (str "LOCK") then Some (0, kDBLockFile)
  else if Slice_eq rest (str "LOG") || Slice_eq rest (str "LOG.old") then Some (0, kInfoLogFile)
  else if Slice_starts_with rest (str "MANIFEST-") then
    let rest := Slice_remove_prefix rest (blen (str "MANIFEST-")) in
    match ConsumeDecimalNumber rest with
    | (true, [], Some num) => Some (num, kDescriptorFile)
    | _ => None
    end
  else
    match ConsumeDecimalNumber rest with
    | (true, suffix, Some num) =>
      if Slice_eq suffix (str ".log") then Some (num, kLogFile)
      else if Slice_eq suffix (str ".sst") || Slice_eq suffix (str ".ldb") then Some (num, kTableFile)
      else if Slice_eq suffix (str ".dbtmp") then Some (num, kTempFile)
      else None
    | _ => None
    end.

(** * Switching CURRENT *)

Definition newline : bytes := [bz 10].

Section current.
Context {W : Type} `{!Env W}.

Definition SetCurrentFile (dbname : bytes) (descriptor_number : Z) : State W Status :=
  let manifest := DescriptorFileName dbname descriptor_number in
  let contents := Slice_remove_prefix manifest (blen dbname + 1) in
  let tmp := TempFileName dbname descriptor_number in
  s ← WriteStringToFileSync (contents ++ newline) tmp;
  s ← (if ok s then RenameFile tmp (CurrentFileName dbname) else mret s);
  if negb (ok s) then _ ← DeleteFile tmp; mret s else mret s.

End current.

(** * Numbers in names *)

Lemma digits_value_zeros n l : digits_value 0 (replicate n (digit 0) ++ l) = digits_value 0 l.
Proof.
  induction n as [|n IH]; [done|]. cbn [replicate app digits_value fold_left].
  rewrite sb_digit by lia. exact IH.
Qed.

Lemma print_u64_06_spec n : 0 <= n < 2 ^ 64 ->
  print_u64_06 n <> [] /\ Forall (fun c => is_digit c = true) (print_u64_06 n) /\
  digits_value 0 (print_u64_06 n) = n.
Proof.
  intros Hn. destruct (print_u64_spec n Hn) as (Hne & Hd & Hv). unfold print_u64_06. split_and!.
  - by intros [_ ?]%app_nil.
  - apply Forall_app. split; [|done]. by apply Forall_replicate, is_digit_digit.
  - by rewrite digits_value_zeros.
Qed.

Lemma ConsumeDecimalNumber_06 n rest :
  0 <= n < 2 ^ 64 -> match rest with c :: _ => is_digit c = false | [] => True end ->
  ConsumeDecimalNumber (print_u64_06 n ++ rest) = (true, rest, Some n).
Proof.
  intros Hn Hr. destruct (print_u64_06_spec n Hn) as (Hne & Hd & Hv).
  pose proof (ConsumeDecimalNumber_digits _ _ _ (digit_prefix_app _ _ Hd Hr)) as H.
  rewrite Hv, decide_True in H by lia. rewrite H.
  destruct (print_u64_06 n); [done|]. by rewrite blen_cons, (proj2 (Z.ltb_lt _ _)) by len.
Qed.

(** A successful read took a non-empty run of digits off the input. *)
Lemma ConsumeDecimalNumber_true i r n :
  ConsumeDecimalNumber i = (true, r, Some n) ->
  exists l, i = l ++ r /\ l <> [] /\ Forall (fun c => is_digit c = true) l /\
    digits_value 0 l = n /\ n < 2 ^ 64.
Proof.
  intros H. destruct (digit_prefix i) as [l r'] eqn:E.
  pose proof (ConsumeDecimalNumber_digits i l r' E) as H'.
  apply digit_prefix_spec in E as (-> & Hl & _). case_decide as Hv.
  - rewrite H in H'. injection H' as Hn -> ->. exists l. split_and!; try done.
    intros ->. done.
  - destruct H' as [rest H']. congruence.
Qed.

(** A name that starts with a digit is none of the fixed names. *)
Lemma ParseFileName_digit c rest : is_digit c = true ->
  ParseFileName (c :: rest) =
  match ConsumeDecimalNumber (c :: rest) with
  | (true, suffix, Some num) =>
    if Slice_eq suffix (str ".log") then Some (num, kLogFile)
    else if Slice_eq suffix (str ".sst") || Slice_eq suffix (str ".ldb") then Some (num, kTableFile)
    else if Slice_eq suffix (str ".dbtmp") then Some (num, kTempFile)
    else None
  | _ => None
  end.
Proof.
  intros Hc. unfold ParseFileName.
  rewrite (Slice_eq_spec _ (str "CURRENT")), (Slice_eq_spec _ (str "LOCK")),
    (Slice_eq_spec _ (str "LOG")), (Slice_eq_spec _ (str "LOG.old")).
  rewrite !bool_decide_eq_false_2 by (intros [= -> _]; done). cbn [orb].
  destruct (Slice_starts_with _ _) eqn:E; [|done].
  apply Slice_starts_with_spec in E as (k & [= -> _]). done.
Qed.

Lemma ParseFileName_numbered n suffix : 0 <= n < 2 ^ 64 ->
  ParseFileName (print_u64_06 n ++ str "." ++ suffix) =
  if Slice_eq (str "." ++ suffix) (str ".log") then Some (n, kLogFile)
  else if Slice_eq (str "." ++ suffix) (str ".sst") || Slice_eq (str "." ++ suffix) (str ".ldb")
    then Some (n, kTableFile)
  else if Slice_eq (str "." ++ suffix) (str ".dbtmp") then Some (n, kTempFile)
  else None.
Proof.
  intros Hn. destruct (print_u64_06_spec n Hn) as (Hne & Hd & _).
  pose proof (ConsumeDecimalNumber_06 n (str "." ++ suffix) Hn eq_refl) as Hc.
  destruct (print_u64_06 n) as [|c l]; [done|]. apply Forall_cons in Hd as [Hd _].
  cbn [app] in *. by rewrite ParseFileName_digit, Hc.
Qed.

Lemma ParseFileName_manifest n : 0 <= n < 2 ^ 64 ->
  ParseFileName (str "MANIFEST-" ++ print_u64_06 n) = Some (n, kDescriptorFile).
Proof.
  intros Hn. unfold ParseFileName.
  rewrite (Slice_eq_spec _ (str "CURRENT")), (Slice_eq_spec _ (str "LOCK")),
    (Slice_eq_spec _ (str "LOG")), (Slice_eq_spec _ (str "LOG.old")).
  rewrite !bool_decide_eq_false_2 by done. cbn [orb].
  rewrite (proj2 (Slice_starts_with_spec _ _)) by eauto.
  unfold Slice_remove_prefix. rewrite (drop_app_length' (str "MANIFEST-")) by done.
  rewrite <- (app_nil_r (print_u64_06 n)). by rewrite ConsumeDecimalNumber_06.
Qed.

(** The name inside its directory. *)
Definition basename (dbname fname : bytes) : bytes := drop (length dbname + 1) fname.

Lemma basename_app dbname s : basename dbname (dbname ++ str "/" ++ s) = s.
Proof. unfold basename. rewrite drop_app_add. done. Qed.

Lemma print_u64_loop_length fuel n acc :
  (length (print_u64_loop fuel n acc) <= fuel + length acc)%nat.
Proof.
  revert n acc. induction fuel as [|fuel IH]; intros n acc; [done|]. cbn [print_u64_loop].
  case_match; [simpl; lia|]. etrans; [apply IH|]. simpl. lia.
Qed.

Lemma print_u64_06_length n : (length (print_u64_06 n) <= 20)%nat.
Proof.
  unfold print_u64_06. pose proof (print_u64_loop_length 20 n []) as Hl. fold (print_u64 n) in Hl.
  change (length []) with 0%nat in Hl. rewrite length_app, length_replicate. lia.
Qed.

(** ** The fixed names *)

(** Every name the database builds parses back to its number and type
    (inside its directory, for every 64-bit number), and the text [snprintf]
    formats for it fits the 100-byte buffer. *)
Theorem FileName_roundtrip (db : bytes) (n : Z) :
  0 <= n < 2 ^ 64 ->
  ParseFileName (basename db (LogFileName db n)) = Some (n, kLogFile) /\
  ParseFileName (basename db (TableFileName db n)) = Some (n, kTableFile) /\
  ParseFileName (basename db (SSTTableFileName db n)) = Some (n, kTableFile) /\
  ParseFileName (basename db (DescriptorFileName db n)) = Some (n, kDescriptorFile) /\
  ParseFileName (basename db (TempFileName db n)) = Some (n, kTempFile) /\
  ParseFileName (basename db (CurrentFileName db)) = Some (0, kCurrentFile) /\
  ParseFileName (basename db (LockFileName db)) = Some (0, kDBLockFile) /\
  ParseFileName (basename db (InfoLogFileName db)) = Some (0, kInfoLogFile) /\
  ParseFileName (basename db (OldInfoLogFileName db)) = Some (0, kInfoLogFile) /\
  blen (TempFileName db n) - blen db < 100 /\ blen (DescriptorFileName db n) - blen db < 100.
Proof.
  intros Hn. pose proof (print_u64_06_length n).
  assert (forall s, length (str s) = String.length s) as Hl.
  { intros s. unfold bytes_of_string, String.list_byte_of_string. rewrite length_map.
    induction s as [|c s IH]; simpl; [done|by f_equal]. }
  unfold LogFileName, TableFileName, SSTTableFileName, TempFileName, MakeFileName.
  split_and!; try (rewrite basename_app, ParseFileName_numbered by done; reflexivity).
  - change (DescriptorFileName db n) with (db ++ str "/" ++ str "MANIFEST-" ++ print_u64_06 n).
    rewrite basename_app. by apply ParseFileName_manifest.
  - exact (f_equal ParseFileName (basename_app db (str "CURRENT"))).
  - exact (f_equal ParseFileName (basename_app db (str "LOCK"))).
  - exact (f_equal ParseFileName (basename_app db (str "LOG"))).
  - exact (f_equal ParseFileName (basename_app db (str "LOG.old"))).
  - unfold blen. rewrite !length_app, !Hl. cbn [String.length]. lia.
  - unfold DescriptorFileName, blen. rewrite !length_app, !Hl. cbn [String.length]. lia.
Qed.

Lemma FileName_roundtrip_witness :
  let db := str "/tmp/db" in
  LogFileName db 7 = str "/tmp/db/000007.log" /\
  ParseFileName (basename db (LogFileName db (2 ^ 64 - 1))) = Some (2 ^ 64 - 1, kLogFile).
Proof.
  intros db. split; [vm_compute; reflexivity|]. apply (FileName_roundtrip db (2 ^ 64 - 1)). lia.
Defined.

(** The names of each type. *)
Definition names_of (t : FileType) (n : Z) (f : bytes) : Prop :=
  let numbered pre post := exists ds, f = pre ++ ds ++ post /\ ds <> [] /\
    Forall (fun c => is_digit c = true) ds /\ digits_value 0 ds = n in
  match t with
  | kCurrentFile => f = str "CURRENT" /\ n = 0
  | kDBLockFile => f = str "LOCK" /\ n = 0
  | kInfoLogFile => (f = str "LOG" \/ f = str "LOG.old") /\ n = 0
  | kDescriptorFile => numbered (str "MANIFEST-") []
  | kLogFile => numbered [] (str ".log")
  | kTableFile => numbered [] (str ".sst") \/ numbered [] (str ".ldb")
  | kTempFile => numbered [] (str ".dbtmp")
  end.

(** [ParseFileName] accepts nothing but the names of its types: when it
    returns a number and a type, the name is the fixed name of that type with
    number 0, or a run of digits with that value and the prefix or suffix of
    the type; a number that does not fit 64 bits is rejected. *)
Theorem ParseFileName_sound (f : bytes) (n : Z) (t : FileType) :
  ParseFileName f = Some (n, t) -> names_of t n f /\ 0 <= n < 2 ^ 64.
Proof.
  unfold ParseFileName. rewrite !Slice_eq_spec.
  case_bool_decide; [by intros [= <- <-]|]. case_bool_decide; [by intros [= <- <-]|].
  destruct (_ || _) eqn:El.
  { rewrite orb_true_iff, !bool_decide_eq_true in El. by intros [= <- <-]. }
  destruct (Slice_starts_with f _) eqn:Es.
  - apply Slice_starts_with_spec in Es as [k ->]. unfold Slice_remove_prefix.
    rewrite (drop_app_length' (str "MANIFEST-")) by done.
    destruct (ConsumeDecimalNumber k) as [[[] [|c r]] [num|]] eqn:E; try done. intros [= <- <-].
    apply ConsumeDecimalNumber_true in E as (l & -> & Hne & Hd & Hv & Hlt).
    pose proof (digits_value_mono 0 l ltac:(lia) Hd). split; [|lia]. by exists l.
  - destruct (ConsumeDecimalNumber f) as [[[] r] [num|]] eqn:E; try done.
    apply ConsumeDecimalNumber_true in E as (l & -> & Hne & Hd & Hv & Hlt).
    pose proof (digits_value_mono 0 l ltac:(lia) Hd). clear El. rewrite !Slice_eq_spec.
    case_bool_decide as E1; cbn [orb]; [intros [= <- <-]; subst r; split; [by exists l|lia]|].
    case_bool_decide as E2; cbn [orb]; [intros [= <- <-]; subst r; split; [left; by exists l|lia]|].
    case_bool_decide as E3; cbn [orb]; [intros [= <- <-]; subst r; split; [right; by exists l|lia]|].
    case_bool_decide as E4; [intros [= <- <-]; subst r; split; [by exists l|lia]|done].
Qed.

Lemma ParseFileName_sound_witness :
  names_of kDescriptorFile 2 (str "MANIFEST-2") /\ 0 <= 2 < 2 ^ 64.
Proof. apply ParseFileName_sound. vm_compute. reflexivity. Defined.

Section current_facts.
Context {W : Type} `{EnvOk W path_ok fits torn files inv wname live written remaining}.

Lemma lost_gone (f : bytes) (m m' : gmap bytes bytes) : lost f m m' -> m' !! f = None.
Proof.
  intros [->|(other & d & Hf & Ho & ->)]; [apply lookup_delete_eq|]. rewrite lookup_insert_ne by congruence. apply lookup_delete_eq.
Qed.

Lemma lost_other (f : bytes) (m m' : gmap bytes bytes) (g : bytes) : lost f m m' -> g <> f -> m' !! g = m !! g \/ m !! g = None.
Proof.
  intros [->|(other & d & Hf & Ho & ->)] Hg; [left; by rewrite lookup_delete_ne|].
  destruct (decide (other = g)) as [<-|]; [by right|left]. by rewrite lookup_insert_ne, lookup_delete_ne.
Qed.

Lemma TempFileName_not_current db n : 0 <= n < 2 ^ 64 -> TempFileName db n <> CurrentFileName db.
Proof.
  intros Hn. destruct (print_u64_06_spec n Hn) as (Hne & Hd & _).
  unfold TempFileName, MakeFileName, CurrentFileName. intros [= E]%app_inv_head.
  destruct (print_u64_06 n) as [|c l]; [done|]. apply Forall_cons in Hd as [Hc _].
  injection E as -> _. done.
Qed.

Lemma SetCurrentFile_contents (db : bytes) (n : Z) :
  Slice_remove_prefix (DescriptorFileName db n) (blen db + 1) = str "MANIFEST-" ++ print_u64_06 n.
Proof.
  unfold Slice_remove_prefix, DescriptorFileName.
  replace (Z.to_nat _) with (length db + 1)%nat by len. by rewrite drop_app_add.
Qed.

(** What [SetCurrentFile] leaves, whichever operations fail; where a failed
    rename may lose its target, CURRENT may be gone. *)
Lemma SetCurrentFile_spec (db g : bytes) (n : Z) (w : W) :
  0 <= n < 2 ^ 64 -> path_ok (TempFileName db n) -> path_ok (CurrentFileName db) ->
  fits (str "MANIFEST-" ++ print_u64_06 n ++ newline) -> inv w ->
  let '(s, w') := SetCurrentFile db n w in
  (ok s = true ->
     files w' !! CurrentFileName db = Some (str "MANIFEST-" ++ print_u64_06 n ++ newline) /\
     files w' !! TempFileName db n = None) /\
  (ok s = false -> files w' !! CurrentFileName db = files w !! CurrentFileName db \/
     torn /\ files w' !! CurrentFileName db = None) /\
  (g <> CurrentFileName db -> g <> TempFileName db n ->
     files w' !! g = files w !! g \/ torn /\ files w !! g = None) /\
  inv w'.
Proof.
  intros Hn Hpt Hpc Hfit Hi. pose proof (TempFileName_not_current db n Hn) as Hne.
  unfold SetCurrentFile, mbind, State_bind, mret, State_ret, WriteStringToFileSync.
  rewrite SetCurrentFile_contents, <- app_assoc. set (data := str "MANIFEST-" ++ _). set (tmp := TempFileName db n) in *.
  destruct (DoWriteStringToFile data tmp true w) as [s1 w1] eqn:E1.
  apply DoWriteStringToFile_spec in E1 as (I1 & F1 & D1); [|done..].
  destruct (ok s1) eqn:Hs1.
  - destruct (RenameFile tmp (CurrentFileName db) w1) as [s2 w2] eqn:E2.
    destruct (ok s2) eqn:Hs2; cbn [negb].
    + destruct (RenameFile_ok _ _ _ _ _ _ Hpt Hpc I1 (D1 eq_refl) E2 Hs2) as [-> I2].
      rewrite Hs2. split_and!; [intros _|done| |done].
      * rewrite lookup_insert_eq, lookup_insert_ne, lookup_delete_eq by done. done.
      * intros Hg1 Hg2. left. rewrite lookup_insert_ne, lookup_delete_ne by done. auto.
    + destruct (RenameFile_fail _ _ _ _ _ Hpt Hpc E2 Hs2 I1) as [Ef I2].
      pose proof (DeleteFile_frame tmp w2) as Fd. pose proof (DeleteFile_inv tmp w2 Hpt I2) as I3.
      destruct (DeleteFile tmp w2) as [s3 w3]. cbn [snd] in Fd, I3. rewrite Hs2 in *.
      split_and!; [done|intros _|intros Hg1 Hg2|done]; rewrite Fd by done.
      * destruct Ef as [->|[Ht Hl]]; [rewrite F1 by done; by left|right; split; [done|]]. by apply lost_gone in Hl.
      * destruct Ef as [->|[Ht Hl]]; [rewrite F1 by done; by left|]. rewrite <- (F1 g) by done.
        destruct (lost_other _ _ _ g Hl Hg1) as [H1|H1]; auto.
  - cbn [negb]. rewrite Hs1. cbn [negb]. pose proof (DeleteFile_frame tmp w1) as Fd.
    pose proof (DeleteFile_inv tmp w1 Hpt I1) as I3.
    destruct (DeleteFile tmp w1) as [s3 w3]. cbn [snd] in Fd, I3. rewrite Hs1.
    split_and!; [done|intros _; left|intros ??; left|done]; rewrite Fd by done; auto.
Qed.

(** Switching CURRENT is atomic under faults: whichever environment
    operations fail, CURRENT afterwards holds either the name of the new
    descriptor and a newline (exactly when [SetCurrentFile] reports success,
    and then the temporary file is gone) or what it held before; no third file
    is touched and the world stays well formed. *)
Theorem SetCurrentFile_atomic (db g : bytes) (n : Z) (w : W) :
  0 <= n < 2 ^ 64 -> path_ok (TempFileName db n) -> path_ok (CurrentFileName db) ->
  fits (str "MANIFEST-" ++ print_u64_06 n ++ newline) -> ~ torn -> inv w ->
  let '(s, w') := SetCurrentFile db n w in
  (ok s = true ->
     files w' !! CurrentFileName db = Some (str "MANIFEST-" ++ print_u64_06 n ++ newline) /\
     files w' !! TempFileName db n = None) /\
  (ok s = false -> files w' !! CurrentFileName db = files w !! CurrentFileName db) /\
  (g <> CurrentFileName db -> g <> TempFileName db n -> files w' !! g = files w !! g) /\
  inv w'.
Proof.
  intros Hn Ht Hc Hf Hnt Hi. pose proof (SetCurrentFile_spec db g n w Hn Ht Hc Hf Hi) as H0.
  destruct (SetCurrentFile db n w) as [s w']. destruct H0 as (H1 & H2 & H3 & H4).
  split_and!; [done|intros Hs; destruct (H2 Hs); tauto|intros Ha Hb; destruct (H3 Ha Hb); tauto|done].
Qed.

End current_facts.

(** The rename (the fifth operation) fails: CURRENT stays. *)
Lemma SetCurrentFile_atomic_witness :
  let db := str "db" in
  let w := {| MemEnv.fs := {[ CurrentFileName db := str "MANIFEST-000001" ]};
              MemEnv.open_reads := []; MemEnv.faults := [false; false; false; false; true] |} in
  ok (SetCurrentFile db 5 w).1 = false /\
  (let '(s, w') := SetCurrentFile db 5 w in
   (ok s = true ->
     MemEnv.fs w' !! CurrentFileName db = Some (str "MANIFEST-" ++ print_u64_06 5 ++ newline) /\
     MemEnv.fs w' !! TempFileName db 5 = None) /\
   (ok s = false -> MemEnv.fs w' !! CurrentFileName db = MemEnv.fs w !! CurrentFileName db) /\
   (db <> CurrentFileName db -> db <> TempFileName db 5 ->
     MemEnv.fs w' !! db = MemEnv.fs w !! db) /\ True).
Proof.
  intros db w. split; [vm_compute; reflexivity|].
  exact (SetCurrentFile_atomic (files := MemEnv.fs) db db 5 w ltac:(lia) I I I (fun x => x) I).
Defined.
