(* ===== verification/LogWriter.v ===== *)
(** The log writer: [db/log_format.h], [db/log_writer.h] and
    [db/log_writer.cpp].  A log is a sequence of 32 KB blocks; a record is
    split into fragments so that none crosses a block boundary.  The layout is
    the inductive relation [log_frags], which the writer is proved to produce
    and the reader (in LogReader) to parse. *)

From S2P Require Import Prelude Port Coding Crc32c Status Env.

(** * Format *)

Inductive RecordType := kZeroType | kFullType | kFirstType | kMiddleType | kLastType.

#[export] Instance RecordType_eq_dec : EqDecision RecordType.
Proof. solve_decision. Defined.

Definition RecordType_num (t : RecordType) : Z :=
  match t with
  | kZeroType => 0 | kFullType => 1 | kFirstType => 2 | kMiddleType => 3 | kLastType => 4
  end.

Definition kMaxRecordType : Z := RecordType_num kLastType.
Definition kBlockSize : Z := 32768.
Definition kHeaderSize : Z := 4 + 2 + 1.

(** * The writer *)

(** [dest_] is a handle; the bytes live in the state the file threads. *)
Record Writer (H : Type) := mkWriter {
  dest_ : H;
  block_offset_ : Z;
  type_crc_ : list Z;
}.
#[global] Arguments mkWriter {H}.
#[global] Arguments dest_ {H}.
#[global] Arguments block_offset_ {H}.
#[global] Arguments type_crc_ {H}.

Section writer.
Context {port : Port} {H S : Type} `{!WritableFileOps H S}.

(** [t_addr] is the address of the local [t]. *)
Definition InitTypeCrc (t_addr : Z) : list Z :=
  (fun i => Value t_addr [bz (Z.of_nat i)]) <$> seq 0 (Z.to_nat (kMaxRecordType + 1)).

Definition Writer_new (t_addr : Z) (dest : H) : Writer H :=
  mkWriter dest 0 (InitTypeCrc t_addr).

Definition Writer_new_at (t_addr : Z) (dest : H) (dest_length : Z) : Writer H :=
  mkWriter dest (dest_length mod kBlockSize) (InitTypeCrc t_addr).

Definition set_block_offset (w : Writer H) (o : Z) : Writer H := mkWriter (dest_ w) o (type_crc_ w).

(** [ptr] is the address of the payload [data]. *)
Definition EmitPhysicalRecord (w : Writer H) (t : RecordType) (ptr : Z) (data : bytes) (s : S)
    : Status * Writer H * S :=
  let n := blen data in
  let crc := Extend ptr (nth (Z.to_nat (RecordType_num t)) (type_crc_ w) 0) data in
  let crc := Mask crc in
  let buf := EncodeFixed32 crc ++
    [bz (Z.land n 0xff); bz (Z.shiftr n 8); bz (RecordType_num t)] in
  let '(st, s) := Append (dest_ w) buf s in
  let '(st, s) :=
    if ok st then
      let '(st, s) := Append (dest_ w) data s in
      if ok st then Flush (dest_ w) s else (st, s)
    else (st, s) in
  (st, set_block_offset w (block_offset_ w + (kHeaderSize + n)), s).

(** Switch to a new block when the header does not fit; the status of the
    trailer's [Append] is discarded. *)
Definition AddRecord_switch (w : Writer H) (s : S) : Writer H * S :=
  let leftover := kBlockSize - block_offset_ w in
  if leftover <? kHeaderSize then
    let s := if 0 <? leftover
             then snd (Append (dest_ w) (take (Z.to_nat leftover) (replicate 6 (bz 0))) s)
             else s in
    (set_block_offset w 0, s)
  else (w, s).

(** The [do .. while (s.ok() && left > 0)] loop; [slice] is what is left. *)
Fixpoint AddRecord_loop (fuel : nat) (w : Writer H) (ptr : Z) (slice : bytes) (begin_ : bool) (s : S)
    : option (Status * Writer H * S) :=
  match fuel with
  | O => None
  | Datatypes.S fuel =>
    let '(w, s) := AddRecord_switch w s in
    let left := blen slice in
    let avail := kBlockSize - block_offset_ w - kHeaderSize in
    let fragment_length := if left <? avail then left else avail in
    let end_ := left =? fragment_length in
    let type :=
      if begin_ && end_ then kFullType
      else if begin_ then kFirstType
      else if end_ then kLastType
      else kMiddleType in
    let '(st, w, s) := EmitPhysicalRecord w type ptr (take (Z.to_nat fragment_length) slice) s in
    let ptr := ptr + fragment_length in
    let slice := drop (Z.to_nat fragment_length) slice in
    if ok st && (0 <? blen slice) then AddRecord_loop fuel w ptr slice false s
    else Some (st, w, s)
  end.

(** A turn that writes no payload is followed by one at the start of a block,
    so two turns more than the record has bytes are enough
    ([AddRecord_total]). *)
Definition AddRecord (w : Writer H) (ptr : Z) (slice : bytes) (s : S)
    : option (Status * Writer H * S) :=
  AddRecord_loop (length slice + 2) w ptr slice true s.

End writer.

(** * The layout of a log *)

(** A physical record: checksum of type and payload, length, type, payload. *)
Definition phys (t : RecordType) (data : bytes) : bytes :=
  le_split 4 (Mask (crc32c_spec 0 (bz (RecordType_num t) :: data))) ++
  le_split 2 (blen data) ++ [bz (RecordType_num t)] ++ data.

Definition first_type (begin_ end_ : bool) : RecordType :=
  match begin_, end_ with
  | true, true => kFullType | true, false => kFirstType
  | false, true => kLastType | false, false => kMiddleType
  end.

(** [log_frags begin off data enc off']: the fragments of the rest [data] of
    a record, from block offset [off] on, are the bytes [enc] and end at block
    offset [off']. *)
Inductive log_frags : bool -> Z -> bytes -> bytes -> Z -> Prop :=
  | frags_trailer begin_ off data enc off' :
      off <= kBlockSize < off + kHeaderSize ->
      log_frags begin_ 0 data enc off' ->
      log_frags begin_ off data (replicate (Z.to_nat (kBlockSize - off)) (bz 0) ++ enc) off'
  | frags_end begin_ off data :
      0 <= off -> off + kHeaderSize + blen data <= kBlockSize ->
      log_frags begin_ off data (phys (first_type begin_ true) data) (off + kHeaderSize + blen data)
  | frags_more begin_ off d1 d2 enc off' :
      0 <= off -> off + kHeaderSize + blen d1 = kBlockSize -> d2 <> [] ->
      log_frags false kBlockSize d2 enc off' ->
      log_frags begin_ off (d1 ++ d2) (phys (first_type begin_ false) d1 ++ enc) off'.

(** A log: its records, from block offset [off] to [off']. *)
Inductive log_file : Z -> list bytes -> bytes -> Z -> Prop :=
  | log_nil off : log_file off [] [] off
  | log_cons off off1 off2 r rs enc encs :
      log_frags true off r enc off1 -> log_file off1 rs encs off2 ->
      log_file off (r :: rs) (enc ++ encs) off2.

#[export] Hint Constructors log_frags log_file : core.

Lemma length_phys t data : length (phys t data) = (7 + length data)%nat.
Proof. unfold phys. rewrite !length_app, !length_le_split. simpl. lia. Qed.

#[export] Hint Rewrite length_phys : len.

Section writer_facts.
Context {port : Port} `{!PortCrcOk port}.
Context {H S : Type} `{WritableFileOk H S written} `{!WritableFileReliable H S}.

Definition writer_ok (w : Writer H) : Prop :=
  0 <= block_offset_ w <= kBlockSize /\ exists a, type_crc_ w = InitTypeCrc a.

Lemma InitTypeCrc_nth a t :
  nth (Z.to_nat (RecordType_num t)) (InitTypeCrc a) 0 = crc32c_spec 0 [bz (RecordType_num t)].
Proof. destruct t; apply (Extend_spec a 0); lia. Qed.

(** A reliable file, one operation at a time. *)
Lemma Append_spec h d s st s' :
  Append h d s = (st, s') -> ok st = true /\ written h s' = written h s ++ d.
Proof.
  intros E. pose proof (Append_reliable h d s) as R. rewrite E in R. cbn [fst] in R.
  split; [done|]. by apply (Append_ok h d s st s').
Qed.

Lemma Flush_spec h s st s' : Flush h s = (st, s') -> ok st = true /\ written h s' = written h s.
Proof.
  intros E. pose proof (Flush_reliable h s) as R. rewrite E in R. cbn [fst] in R.
  split; [done|]. by apply (Flush_ok h s st s').
Qed.

(** The header the code formats is that of the layout. *)
Lemma header_length_bytes n : 0 <= n < 2 ^ 16 ->
  [bz (Z.land n 0xff); bz (Z.shiftr n 8)] = le_split 2 n.
Proof. intros Hn. by rewrite bz_land_ff. Qed.

Lemma EmitPhysicalRecord_spec w t ptr data s st w' s' :
  (exists a, type_crc_ w = InitTypeCrc a) -> blen data < 2 ^ 16 ->
  EmitPhysicalRecord w t ptr data s = (st, w', s') ->
  ok st = true /\ w' = set_block_offset w (block_offset_ w + (kHeaderSize + blen data)) /\
  written (dest_ w) s' = written (dest_ w) s ++ phys t data.
Proof.
  intros [a Ha] Hn. unfold EmitPhysicalRecord. rewrite Ha, InitTypeCrc_nth.
  rewrite Extend_spec by (apply crc32c_spec_range; lia). rewrite crc32c_spec_app. cbn [app].
  rewrite EncodeFixed32_le.
  destruct (Append (dest_ w) _ s) as [st1 s1] eqn:E1.
  apply Append_spec in E1 as [-> E1].
  destruct (Append (dest_ w) data s1) as [st2 s2] eqn:E2.
  apply Append_spec in E2 as [-> E2].
  destruct (Flush (dest_ w) s2) as [st3 s3] eqn:E3.
  apply Flush_spec in E3 as [R3 E3]. intros [= <- <- <-]. split_and!; [done..|].
  rewrite E3, E2, E1. unfold phys. rewrite <- header_length_bytes by (pose proof (blen_nonneg data); lia).
  by rewrite <- !app_assoc.
Qed.

Lemma AddRecord_switch_spec w s w' s' :
  writer_ok w -> AddRecord_switch w s = (w', s') ->
  writer_ok w' /\ dest_ w' = dest_ w /\ block_offset_ w' + kHeaderSize <= kBlockSize /\
  exists pad, written (dest_ w) s' = written (dest_ w) s ++ pad /\
    (forall b data enc off', log_frags b (block_offset_ w') data enc off' ->
       log_frags b (block_offset_ w) data (pad ++ enc) off') /\
    (block_offset_ w' = block_offset_ w \/ block_offset_ w' = 0).
Proof.
  intros [Ho Ht]. unfold AddRecord_switch. destruct (Z.ltb_spec (kBlockSize - block_offset_ w) kHeaderSize) as [Hl|Hl].
  - intros [= <- <-]. cbn [set_block_offset dest_ block_offset_].
    split_and!; [split; [unfold kBlockSize; cbn; lia|exact Ht]|done|unfold kBlockSize, kHeaderSize; lia|].
    exists (replicate (Z.to_nat (kBlockSize - block_offset_ w)) (bz 0)).
    split_and!; [|intros; constructor; [lia|done]|by right].
    destruct (Z.ltb_spec 0 (kBlockSize - block_offset_ w)) as [Hp|Hp].
    + destruct (Append (dest_ w) _ s) as [st1 s1] eqn:E1. cbn [snd].
      apply Append_spec in E1 as [_ E1]. rewrite E1. f_equal.
      unfold kHeaderSize in Hl. change [bz 0; bz 0; bz 0; bz 0; bz 0; bz 0] with (replicate 6 (bz 0)).
      rewrite take_replicate. f_equal. lia.
    + replace (Z.to_nat (kBlockSize - block_offset_ w)) with 0%nat by lia. by rewrite app_nil_r.
  - intros [= <- <-]. split_and!; [by split|done|lia|].
    exists []. rewrite app_nil_r. split_and!; [done|done|by left].
Qed.

Lemma AddRecord_loop_spec fuel w ptr slice begin_ s :
  writer_ok w ->
  (length slice + (if decide (block_offset_ w = kBlockSize - kHeaderSize)%Z then 2 else 1) <= fuel)%nat ->
  exists st w' s' enc, AddRecord_loop fuel w ptr slice begin_ s = Some (st, w', s') /\
    ok st = true /\ writer_ok w' /\ dest_ w' = dest_ w /\
    written (dest_ w) s' = written (dest_ w) s ++ enc /\
    log_frags begin_ (block_offset_ w) slice enc (block_offset_ w').
Proof.
  revert w ptr slice begin_ s. induction fuel as [|fuel IH]; intros w ptr slice begin_ s Hw Hf.
  { case_decide; lia. }
  cbn [AddRecord_loop]. destruct (AddRecord_switch w s) as [w1 s1] eqn:E1.
  apply AddRecord_switch_spec in E1 as (Hw1 & Hd1 & Ho1 & pad & Hpad & Hfrag & Hoff); [|done].
  set (avail := kBlockSize - block_offset_ w1 - kHeaderSize).
  set (n := if blen slice <? avail then blen slice else avail).
  assert (0 <= n <= blen slice /\ n <= avail /\ (n < blen slice -> n = avail)) as (Hn & Hna & Hne).
  { pose proof (blen_nonneg slice). unfold n. destruct (Z.ltb_spec (blen slice) avail); lia. }
  destruct (EmitPhysicalRecord w1 _ ptr _ s1) as [[st w2] s2] eqn:E2.
  assert (blen (take (Z.to_nat n) slice) = n) as Hlen by (rewrite blen_take; lia).
  pose proof Hw1 as [Hb1 Ht1].
  apply EmitPhysicalRecord_spec in E2 as (Hst & -> & Hwr);
    [|done|rewrite Hlen; unfold avail, kBlockSize, kHeaderSize in *; lia].
  rewrite Hlen in *. rewrite Hst. cbn [andb]. rewrite Hd1 in *.
  rewrite blen_drop. destruct (Z.ltb_spec 0 (Z.max 0 (blen slice - Z.of_nat (Z.to_nat n)))) as [Hmore|Hend].
  - rewrite (proj2 (Z.eqb_neq (blen slice) n)) in Hwr by lia.
    set (w2 := set_block_offset w1 _) in *.
    assert (block_offset_ w2 = kBlockSize) as Hw2 by (cbn; unfold avail in *; lia).
    destruct (IH w2 (ptr + n) (drop (Z.to_nat n) slice) false s2) as (st' & w' & s' & enc & -> & Hok & Hw' & Hd' & Hwr' & Hfr).
    + split; [rewrite Hw2; unfold kBlockSize; lia|exact Ht1].
    + rewrite Hw2, decide_False by (unfold kHeaderSize; lia). rewrite length_drop.
      revert Hf. case_decide as Hc; intros Hf; [len|].
      assert (0 < avail) by (unfold avail, kBlockSize, kHeaderSize in *; lia). len.
    + change (dest_ w2) with (dest_ w1) in *. rewrite Hd1 in *.
      eexists _, _, _, (pad ++ phys (first_type begin_ false) (take (Z.to_nat n) slice) ++ enc).
      split_and!; [done..| |].
      * rewrite Hwr', Hwr, Hpad, <- !app_assoc. by destruct begin_.
      * apply Hfrag. rewrite <- (take_drop (Z.to_nat n) slice) at 1.
        constructor; [lia|unfold avail in *; lia| |by rewrite <- Hw2].
        intros Hnil. apply (f_equal (@length byte)) in Hnil. rewrite length_drop in Hnil. simpl in Hnil. len.
  - assert (n = blen slice) as Hnn by lia. rewrite (proj2 (Z.eqb_eq (blen slice) n)) in Hwr by lia.
    rewrite take_ge in Hwr by (unfold blen in *; lia).
    eexists _, _, _, (pad ++ phys (first_type begin_ true) slice).
    split_and!; [done|done| |done| |].
    + split; [cbn; unfold avail, kBlockSize, kHeaderSize in *; lia|exact Ht1].
    + rewrite Hwr, Hpad, <- app_assoc. by destruct begin_.
    + apply Hfrag. cbn [set_block_offset block_offset_]. rewrite Hnn, Z.add_assoc.
      constructor; [lia|unfold avail in *; lia].
Qed.

Lemma AddRecord_spec w ptr slice s :
  writer_ok w ->
  exists st w' s' enc, AddRecord w ptr slice s = Some (st, w', s') /\
    ok st = true /\ writer_ok w' /\ dest_ w' = dest_ w /\
    written (dest_ w) s' = written (dest_ w) s ++ enc /\
    log_frags true (block_offset_ w) slice enc (block_offset_ w').
Proof. intros Hw. apply AddRecord_loop_spec; [done|]. case_decide; lia. Qed.

End writer_facts.

(** [AddRecord] writes a log.  On a file that does not fail it returns
    (its loop ends after at most [length + 2] turns) with success, and what it
    appends is the block layout of the record from the writer's block offset
    on: fragments with the right types, lengths and checksums, none crossing a
    block boundary, and zero trailers where a header does not fit; the
    writer's offset is the one the layout ends at. *)
Theorem AddRecord_layout {port : Port} {H S : Type} `{!PortCrcOk port}
    `{WritableFileOk H S written} `{!WritableFileReliable H S}
    (w : Writer H) (ptr : Z) (slice : bytes) (s : S) :
  writer_ok w ->
  exists st w' s' enc, AddRecord w ptr slice s = Some (st, w', s') /\ ok st = true /\
    written (dest_ w) s' = written (dest_ w) s ++ enc /\
    log_frags true (block_offset_ w) slice enc (block_offset_ w') /\
    writer_ok w' /\ dest_ w' = dest_ w.
Proof.
  intros Hw. destruct (AddRecord_spec w ptr slice s Hw)
    as (st & w' & s' & enc & ? & ? & ? & ? & ? & ?). eauto 10.
Qed.

Lemma AddRecord_layout_witness :
  let P := little_endian_port in
  let w := Writer_new_at 0 tt 32760 in
  let slice := bytes_of_string "hello" in
  (exists w' s', AddRecord w 0 slice [] = Some (OK, w', s') /\
     s' = phys kFirstType (bytes_of_string "h") ++ phys kLastType (bytes_of_string "ello")) /\
  exists st w' s' enc, AddRecord w 0 slice [] = Some (st, w', s') /\ ok st = true /\
    s' = [] ++ enc /\ log_frags true (block_offset_ w) slice enc (block_offset_ w') /\
    writer_ok w' /\ dest_ w' = dest_ w.
Proof.
  intros P w slice. split; [eexists _, _; split; vm_compute; reflexivity|].
  refine (AddRecord_layout (port := P) (written := fun _ s => s) w 0 slice [] _).
  split; [vm_compute; split; discriminate|exists 0; reflexivity].
Defined.
