(* ===== verification/LogReader.v ===== *)
(** The log reader: [db/log_reader.h] and [db/log_reader.cpp].  It reads one
    block at a time, checks and reassembles the fragments, and reports what it
    has to drop.  Proved: it returns on every input; and from any truncation
    of a log (a crash of its writer at any byte) it returns exactly the
    records that were written completely, with no corruption report. *)

From S2P Require Import Prelude Port Coding Crc32c Logging Status Env LogWriter.

(** * State *)

(** [buffer_] is a slice: its address and its bytes.  [reports] collects the
    calls of [reporter_->Corruption]. *)
Record Reader (H : Type) := mkReader {
  file_ : H;
  has_reporter_ : bool;
  checksum_ : bool;
  backing_store_ : Z;
  buffer_data_ : Z;
  buffer_ : bytes;
  eof_ : bool;
  last_record_offset_ : Z;
  end_of_buffer_offset_ : Z;
  initial_offset_ : Z;
  resyncing_ : bool;
  reports : list (Z * Status);
}.
#[global] Arguments mkReader {H}.
#[global] Arguments file_ {H}.
#[global] Arguments has_reporter_ {H}.
#[global] Arguments checksum_ {H}.
#[global] Arguments backing_store_ {H}.
#[global] Arguments buffer_data_ {H}.
#[global] Arguments buffer_ {H}.
#[global] Arguments eof_ {H}.
#[global] Arguments last_record_offset_ {H}.
#[global] Arguments end_of_buffer_offset_ {H}.
#[global] Arguments initial_offset_ {H}.
#[global] Arguments resyncing_ {H}.
#[global] Arguments reports {H}.

Definition kEof : Z := kMaxRecordType + 1.
Definition kBadRecord : Z := kMaxRecordType + 2.

Section reader.
Context {port : Port} {H S : Type} `{!SequentialFileOps H S}.
Implicit Types (r : Reader H) (s : S).

Definition Reader_new (file : H) (reporter checksum : bool) (backing_store initial_offset : Z)
    : Reader H :=
  {| file_ := file; has_reporter_ := reporter; checksum_ := checksum;
     backing_store_ := backing_store; buffer_data_ := 0; buffer_ := []; eof_ := false;
     last_record_offset_ := 0; end_of_buffer_offset_ := 0; initial_offset_ := initial_offset;
     resyncing_ := 0 <? initial_offset; reports := [] |}.

(** Assignments to single fields. *)
Definition set_buffer r (data : Z) (b : bytes) : Reader H :=
  mkReader (file_ r) (has_reporter_ r) (checksum_ r) (backing_store_ r) data b (eof_ r)
    (last_record_offset_ r) (end_of_buffer_offset_ r) (initial_offset_ r) (resyncing_ r) (reports r).
Definition clear_buffer r : Reader H := set_buffer r (buffer_data_ r) [].
Definition set_eof r : Reader H :=
  mkReader (file_ r) (has_reporter_ r) (checksum_ r) (backing_store_ r) (buffer_data_ r) (buffer_ r) true
    (last_record_offset_ r) (end_of_buffer_offset_ r) (initial_offset_ r) (resyncing_ r) (reports r).
Definition set_last_record_offset r (o : Z) : Reader H :=
  mkReader (file_ r) (has_reporter_ r) (checksum_ r) (backing_store_ r) (buffer_data_ r) (buffer_ r) (eof_ r)
    o (end_of_buffer_offset_ r) (initial_offset_ r) (resyncing_ r) (reports r).
Definition set_end_of_buffer_offset r (o : Z) : Reader H :=
  mkReader (file_ r) (has_reporter_ r) (checksum_ r) (backing_store_ r) (buffer_data_ r) (buffer_ r) (eof_ r)
    (last_record_offset_ r) o (initial_offset_ r) (resyncing_ r) (reports r).
Definition stop_resyncing r : Reader H :=
  mkReader (file_ r) (has_reporter_ r) (checksum_ r) (backing_store_ r) (buffer_data_ r) (buffer_ r) (eof_ r)
    (last_record_offset_ r) (end_of_buffer_offset_ r) (initial_offset_ r) false (reports r).
Definition add_report r (bytes : Z) (st : Status) : Reader H :=
  mkReader (file_ r) (has_reporter_ r) (checksum_ r) (backing_store_ r) (buffer_data_ r) (buffer_ r) (eof_ r)
    (last_record_offset_ r) (end_of_buffer_offset_ r) (initial_offset_ r) (resyncing_ r)
    (reports r ++ [(bytes, st)]).

(** ** Reporting *)

Definition ReportDrop r (bytes : Z) (reason : Status) : Reader H :=
  if has_reporter_ r &&
     (initial_offset_ r <=? u64 (end_of_buffer_offset_ r - blen (buffer_ r) - bytes))
  then add_report r bytes reason else r.

Definition ReportCorruption r (bytes : Z) (reason : string) : Reader H :=
  ReportDrop r bytes (Corruption (bytes_of_string reason) []).

(** ** Reading *)

(** The boolean result with the reader and the file state. *)
Definition SkipToInitialBlock r s : bool * Reader H * S :=
  let offset_in_block := initial_offset_ r mod kBlockSize in
  let block_start_location := initial_offset_ r - offset_in_block in
  let block_start_location :=
    if kBlockSize - 6 <? offset_in_block then u64 (block_start_location + kBlockSize)
    else block_start_location in
  let r := set_end_of_buffer_offset r block_start_location in
  if 0 <? block_start_location then
    let '(skip_status, s) := Skip (file_ r) block_start_location s in
    if negb (ok skip_status)
    then (false, ReportDrop r block_start_location skip_status, s)
    else (true, r, s)
  else (true, r, s).

(** One header-and-payload parse of [ReadPhysicalRecord], once the buffer
    holds a header: the record type and [*result], as it is left. *)
Definition ParsePhysicalRecord (fragment : bytes) r : Z * bytes * Reader H :=
  let header := buffer_ r in
  let a := Z.land (ptr_byte header 4) 0xff in
  let b := Z.land (ptr_byte header 5) 0xff in
  let type := u32 (sb (nth 6 header Byte.x00)) in
  let length := Z.lor a (Z.shiftl b 8) in
  if blen (buffer_ r) <? kHeaderSize + length then
    let drop_size := blen (buffer_ r) in
    let r := clear_buffer r in
    if negb (eof_ r)
    then (kBadRecord, fragment, ReportCorruption r drop_size "bad record length")
    else (kEof, fragment, r)
  else if (type =? RecordType_num kZeroType) && (length =? 0) then
    (kBadRecord, fragment, clear_buffer r)
  else
    let expected_crc := Unmask (DecodeFixed32 header) in
    let actual_crc := Value (buffer_data_ r + 6) (take (Z.to_nat (1 + length)) (drop 6 header)) in
    if checksum_ r && negb (actual_crc =? expected_crc) then
      let drop_size := blen (buffer_ r) in
      let r := clear_buffer r in
      (kBadRecord, fragment, ReportCorruption r drop_size "checksum mismatch")
    else
      let r := set_buffer r (buffer_data_ r + (kHeaderSize + length))
                 (drop (Z.to_nat (kHeaderSize + length)) (buffer_ r)) in
      if u64 (end_of_buffer_offset_ r - blen (buffer_ r) - kHeaderSize - length) <? initial_offset_ r
      then (kBadRecord, [], r)
      else (type, take (Z.to_nat length) (drop (Z.to_nat kHeaderSize) header), r).

(** The [while (true)] loop: fill the buffer or parse.  A block that is read
    holds a header or is the last one, so the loop has at most two turns
    ([ReadPhysicalRecord_total]). *)
Fixpoint ReadPhysicalRecord_loop (fuel : nat) (fragment : bytes) r s
    : option (Z * bytes * Reader H * S) :=
  match fuel with
  | O => None
  | Datatypes.S fuel =>
    if blen (buffer_ r) <? kHeaderSize then
      if negb (eof_ r) then
        let r := clear_buffer r in
        let '((status, (data, block)), s) := Read (file_ r) kBlockSize (backing_store_ r) s in
        let r := set_buffer r data block in
        let r := set_end_of_buffer_offset r (u64 (end_of_buffer_offset_ r + blen (buffer_ r))) in
        if negb (ok status) then
          let r := clear_buffer r in
          let r := ReportDrop r kBlockSize status in
          Some (kEof, fragment, set_eof r, s)
        else
          let r := if blen (buffer_ r) <? kBlockSize then set_eof r else r in
          ReadPhysicalRecord_loop fuel fragment r s
      else Some (kEof, fragment, clear_buffer r, s)
    else
      let '(type, fragment, r) := ParsePhysicalRecord fragment r in
      Some (type, fragment, r, s)
  end.

Definition ReadPhysicalRecord (fragment : bytes) r s : option (Z * bytes * Reader H * S) :=
  ReadPhysicalRecord_loop 2 fragment r s.

(** The locals of [ReadRecord]. *)
Record locals := mkLocals {
  scratch : bytes;
  in_fragmented_record : bool;
  prospective_record_offset : Z;
}.

(** The [switch (record_type)]: [inl] returns from [ReadRecord] ([Some record]
    for [true]), [inr] goes on with the loop. *)
Definition ReadRecord_switch (record_type : Z) (fragment : bytes) (physical_record_offset : Z)
    (l : locals) r : (option bytes * Reader H) + (locals * Reader H) :=
  if record_type =? RecordType_num kFullType then
    let r :=
      if in_fragmented_record l then
        match scratch l with
        | [] => r
        | _ => ReportCorruption r (blen (scratch l)) "partial record without end(1)"
        end
      else r in
    inl (Some fragment, set_last_record_offset r physical_record_offset)
  else if record_type =? RecordType_num kFirstType then
    let r :=
      if in_fragmented_record l then
        match scratch l with
        | [] => r
        | _ => ReportCorruption r (blen (scratch l)) "partial record without end(2)"
        end
      else r in
    inr ({| scratch := fragment; in_fragmented_record := true;
            prospective_record_offset := physical_record_offset |}, r)
  else if record_type =? RecordType_num kMiddleType then
    if negb (in_fragmented_record l) then
      inr (l, ReportCorruption r (blen fragment) "missing start of fragmented record(1)")
    else
      inr (mkLocals (scratch l ++ fragment) true (prospective_record_offset l), r)
  else if record_type =? RecordType_num kLastType then
    if negb (in_fragmented_record l) then
      inr (l, ReportCorruption r (blen fragment) "missing start of fragmented record(2)")
    else
      inl (Some (scratch l ++ fragment), set_last_record_offset r (prospective_record_offset l))
  else if record_type =? kEof then inl (None, r)
  else if record_type =? kBadRecord then
    if in_fragmented_record l then
      inr (mkLocals [] false (prospective_record_offset l),
           ReportCorruption r (blen (scratch l)) "error in middle of record")
    else inr (l, r)
  else
    let buf := bytes_of_string "unknown record type " ++ print_u64 record_type in
    let bytes := blen fragment + (if in_fragmented_record l then blen (scratch l) else 0) in
    inr (mkLocals [] false (prospective_record_offset l), ReportDrop r bytes (Corruption buf [])).

(** The [while (true)] loop of [ReadRecord]. *)
Fixpoint ReadRecord_loop (fuel : nat) (fragment : bytes) (l : locals) r s
    : option (option bytes * Reader H * S) :=
  match fuel with
  | O => None
  | Datatypes.S fuel =>
    match ReadPhysicalRecord fragment r s with
    | None => None
    | Some (record_type, fragment, r, s) =>
      let physical_record_offset :=
        u64 (end_of_buffer_offset_ r - blen (buffer_ r) - kHeaderSize - blen fragment) in
      if resyncing_ r && (record_type =? RecordType_num kMiddleType) then
        ReadRecord_loop fuel fragment l r s
      else if resyncing_ r && (record_type =? RecordType_num kLastType) then
        ReadRecord_loop fuel fragment l (stop_resyncing r) s
      else
        let r := if resyncing_ r then stop_resyncing r else r in
        match ReadRecord_switch record_type fragment physical_record_offset l r with
        | inl (record, r) => Some (record, r, s)
        | inr (l, r) => ReadRecord_loop fuel fragment l r s
        end
    end
  end.

(** [Some record] is the [true] result; the outer option runs out of turns. *)
Definition ReadRecord (fuel : nat) r s : option (option bytes * Reader H * S) :=
  let '(go_on, r, s) :=
    if last_record_offset_ r <? initial_offset_ r then SkipToInitialBlock r s else (true, r, s) in
  if negb go_on then Some (None, r, s)
  else
    ReadRecord_loop fuel []
      {| scratch := []; in_fragmented_record := false; prospective_record_offset := 0 |} r s.

Definition LastRecordOffset r : Z := last_record_offset_ r.

(** The loop of a client: read until the end of the log. *)
Fixpoint ReadRecords (calls fuel : nat) r s : option (list bytes * Reader H * S) :=
  match calls with
  | O => None
  | Datatypes.S calls =>
    match ReadRecord fuel r s with
    | None => None
    | Some (None, r, s) => Some ([], r, s)
    | Some (Some record, r, s) =>
      match ReadRecords calls fuel r s with
      | None => None
      | Some (records, r, s) => Some (record :: records, r, s)
      end
    end
  end.

End reader.

(** * The reader returns on every input *)

Section reader_total.
Context {port : Port} {H S : Type} `{SequentialFileOk H S remaining}.
Implicit Types (r : Reader H) (s : S).

(** The bytes the reader has not parsed yet. *)
Definition unread r s : nat := (length (buffer_ r) + length (remaining (file_ r) s))%nat.

Lemma ReportDrop_keeps r b st :
  buffer_ (ReportDrop r b st) = buffer_ r /\ file_ (ReportDrop r b st) = file_ r /\
  eof_ (ReportDrop r b st) = eof_ r.
Proof. unfold ReportDrop. by case_match. Qed.

Lemma ReportCorruption_keeps r b m :
  buffer_ (ReportCorruption r b m) = buffer_ r /\ file_ (ReportCorruption r b m) = file_ r /\
  eof_ (ReportCorruption r b m) = eof_ r.
Proof. apply ReportDrop_keeps. Qed.

Lemma ParsePhysicalRecord_shrinks frag r t frag' r' :
  kHeaderSize <= blen (buffer_ r) -> ParsePhysicalRecord frag r = (t, frag', r') ->
  (length (buffer_ r') < length (buffer_ r))%nat /\ file_ r' = file_ r.
Proof.
  unfold kHeaderSize. intros Hb. unfold ParsePhysicalRecord.
  set (len := Z.lor _ _). set (type := u32 _).
  assert (0 <= len) as Hlen by (apply Z.lor_nonneg; split; [|rewrite Z.shiftl_nonneg];
    apply Z.land_nonneg; right; lia).
  assert (forall b m, buffer_ (ReportCorruption (clear_buffer r) b m) = [] /\
                 file_ (ReportCorruption (clear_buffer r) b m) = file_ r) as Hrep
    by (intros b m; by destruct (ReportCorruption_keeps (clear_buffer r) b m) as (-> & -> & _)).
  destruct (_ <? _); [destruct (negb _)|destruct (_ && _); [|destruct (_ && _);
    [|destruct (_ <? _)]]]; intros [= <- <- <-]; rewrite ?(proj1 (Hrep _ _)), ?(proj2 (Hrep _ _));
    cbn [clear_buffer set_buffer buffer_ file_ length]; (split; [|done]); rewrite ?length_drop;
    unfold blen, kHeaderSize in *; lia.
Qed.

Lemma ReadPhysicalRecord_progress frag r s :
  exists t frag' r' s', ReadPhysicalRecord frag r s = Some (t, frag', r', s') /\
    (t = kEof \/ (unread r' s' < unread r s)%nat).
Proof.
  unfold ReadPhysicalRecord. cbn [ReadPhysicalRecord_loop].
  destruct (Z.ltb_spec (blen (buffer_ r)) kHeaderSize) as [Hb|Hb].
  - destruct (eof_ r) eqn:Ee; cbn [negb]; [by eauto 10|].
    cbn [file_ clear_buffer set_buffer backing_store_].
    destruct (Read (file_ r) kBlockSize (backing_store_ r) s) as [[st [a d]] s'] eqn:Er.
    destruct (ok st) eqn:Eok; cbn [negb]; [|by eauto 10].
    apply Read_ok in Er as [Hdt Hrem]; [|done|done].
    assert (length d + length (remaining (file_ r) s') = length (remaining (file_ r) s))%nat as Hl
      by (rewrite Hdt, Hrem, length_take, length_drop; lia).
    clear Hdt Hrem. set (r1 := set_end_of_buffer_offset _ _).
    assert (buffer_ (if blen (buffer_ r1) <? kBlockSize then set_eof r1 else r1) = d /\
            file_ (if blen (buffer_ r1) <? kBlockSize then set_eof r1 else r1) = file_ r) as [-> Hfile]
      by (by case_match).
    destruct (Z.ltb_spec (blen d) kHeaderSize) as [Hd|Hd].
    + change (buffer_ r1) with d. rewrite (proj2 (Z.ltb_lt (blen d) kBlockSize))
        by (unfold kHeaderSize, kBlockSize in *; lia).
      cbn [set_eof eof_ negb]. by eauto 10.
    + destruct (ParsePhysicalRecord frag _) as [[t frag'] r2] eqn:Ep. eexists _, _, _, _.
      split; [done|]. right. apply ParsePhysicalRecord_shrinks in Ep as [Hlt Hf].
      2:{ by case_match. }
      rewrite Hfile in Hf. assert (length (buffer_ r2) < length d)%nat by (revert Hlt; by case_match).
      unfold unread. rewrite Hf. lia.
  - destruct (ParsePhysicalRecord frag r) as [[t frag'] r2] eqn:Ep. eexists _, _, _, _.
    split; [done|]. right. apply ParsePhysicalRecord_shrinks in Ep as [Hlt Hf]; [|done].
    unfold unread. rewrite Hf. lia.
Qed.

Lemma ReadRecord_switch_unread t frag o l r l' r' s :
  ReadRecord_switch t frag o l r = inr (l', r') -> unread r' s = unread r s /\ t <> kEof.
Proof.
  assert (forall b m, unread (ReportCorruption r b m) s = unread r s) as Hc.
  { intros b m. unfold unread. by destruct (ReportCorruption_keeps r b m) as (-> & -> & _). }
  assert (forall b m, unread (ReportDrop r b m) s = unread r s) as Hd.
  { intros b m. unfold unread. destruct (ReportDrop_keeps r b m) as (-> & -> & _). done. }
  unfold ReadRecord_switch.
  destruct (Z.eqb_spec t (RecordType_num kFullType)); [done|].
  destruct (Z.eqb_spec t (RecordType_num kFirstType)) as [->|].
  { intros [= _ <-]. split; [|done]. destruct (in_fragmented_record l), (scratch l); rewrite ?Hc; done. }
  destruct (Z.eqb_spec t (RecordType_num kMiddleType)) as [->|].
  { destruct (in_fragmented_record l); intros [= _ <-]; rewrite ?Hc; done. }
  destruct (Z.eqb_spec t (RecordType_num kLastType)) as [->|].
  { destruct (in_fragmented_record l); [done|]. intros [= _ <-]; rewrite ?Hc; done. }
  destruct (Z.eqb_spec t kEof); [done|].
  destruct (Z.eqb_spec t kBadRecord) as [->|].
  { destruct (in_fragmented_record l); intros [= _ <-]; rewrite ?Hc; done. }
  intros [= _ <-]. by rewrite Hd.
Qed.

Lemma ReadRecord_loop_total fuel frag l r s :
  (unread r s < fuel)%nat -> is_Some (ReadRecord_loop fuel frag l r s).
Proof.
  revert frag l r s. induction fuel as [|fuel IH]; intros frag l r s Hf; [lia|].
  cbn [ReadRecord_loop].
  destruct (ReadPhysicalRecord_progress frag r s) as (t & frag' & r' & s' & -> & Hp).
  destruct (resyncing_ r' && (t =? RecordType_num kMiddleType)) eqn:E1.
  { apply andb_true_iff in E1 as [_ ->%Z.eqb_eq]. destruct Hp as [|Hp]; [done|].
    apply IH. lia. }
  destruct (resyncing_ r' && (t =? RecordType_num kLastType)) eqn:E2.
  { apply andb_true_iff in E2 as [_ ->%Z.eqb_eq]. destruct Hp as [|Hp]; [done|].
    apply IH. change (unread (stop_resyncing r') s') with (unread r' s'). lia. }
  set (r'' := if resyncing_ r' then stop_resyncing r' else r').
  assert (unread r'' s' = unread r' s') as Hu by (unfold r''; by case_match).
  destruct (ReadRecord_switch _ _ _ _ _) as [[rec r3]|[l3 r3]] eqn:Es; [done|].
  apply (ReadRecord_switch_unread _ _ _ _ _ _ _ s') in Es as [Hs Hne].
  destruct Hp as [|Hp]; [done|]. apply IH. lia.
Qed.

End reader_total.
#[global] Arguments unread {H S} remaining r s.

(** * Reading a log back *)

Section roundtrip.
Context {port : Port} `{!PortCrcOk port}.
Context {H S : Type} `{SequentialFileOk H S remaining} `{!SequentialFileReliable H S}.
Implicit Types (r : Reader H) (s : S).

(** ** Parsing one physical record *)

Definition quiet r : Prop :=
  initial_offset_ r = 0 /\ resyncing_ r = false /\ reports r = [] /\ 0 <= last_record_offset_ r.

Lemma land_ub_ff b : Z.land (ub b) 0xff = ub b.
Proof.
  change 0xff with (2 ^ 8 - 1). rewrite land_ones_mod by lia. apply Z.mod_small, ub_range.
Qed.

(** The header fields of a buffer that starts like a physical record. *)
Lemma header_fields t d rest buffer lost :
  blen d < 2 ^ 16 -> (7 <= length buffer)%nat -> buffer ++ lost = phys t d ++ rest ->
  ptr_byte buffer 4 = ub (bz (blen d)) /\ ptr_byte buffer 5 = ub (bz (Z.shiftr (blen d) 8)) /\
  nth 6 buffer Byte.x00 = bz (RecordType_num t).
Proof.
  intros Hd Hl E. unfold phys in E. rewrite <- !app_assoc in E. cbn [le_split app] in E.
  destruct buffer as [|? [|? [|? [|? [|b4 [|b5 [|b6 buffer]]]]]]]; simpl in Hl; try lia.
  cbn [app] in E. injection E as _ _ _ _ -> -> -> _. done.
Qed.

Lemma header_length n : 0 <= n < 2 ^ 16 ->
  Z.lor (Z.land (ub (bz n)) 0xff) (Z.shiftl (Z.land (ub (bz (Z.shiftr n 8))) 0xff) 8) = n.
Proof.
  intros Hn. rewrite !land_ub_ff. transitivity (le_combine (le_split 2 n)).
  - cbn [le_split le_combine]. by rewrite Z.shiftl_0_l, Z.lor_0_r.
  - by apply le_combine_split_small.
Qed.

Lemma type_byte t : u32 (sb (bz (RecordType_num t))) = RecordType_num t.
Proof. by destruct t. Qed.

Lemma drop_6_phys t d rest :
  take (Z.to_nat (1 + blen d)) (drop 6 (phys t d ++ rest)) = bz (RecordType_num t) :: d.
Proof.
  unfold phys. rewrite <- !app_assoc. cbn [le_split app drop].
  replace (Z.to_nat (1 + blen d)) with (Datatypes.S (length d)) by len.
  cbn [take]. f_equal. by rewrite take_app_length.
Qed.

Lemma drop_7_phys t d rest : drop 7 (phys t d ++ rest) = d ++ rest.
Proof. unfold phys. by rewrite <- !app_assoc. Qed.

Lemma ParsePhysicalRecord_full frag r t d rest :
  t <> kZeroType -> blen d < 2 ^ 16 -> initial_offset_ r = 0 -> buffer_ r = phys t d ++ rest ->
  ParsePhysicalRecord frag r =
  (RecordType_num t, d, set_buffer r (buffer_data_ r + (kHeaderSize + blen d)) rest).
Proof.
  intros Ht Hd Hi Hb. pose proof (blen_nonneg d).
  destruct (header_fields t d rest (buffer_ r) []) as (E4 & E5 & E6);
    [done|rewrite Hb; len|by rewrite app_nil_r|].
  unfold ParsePhysicalRecord. rewrite E4, E5, E6, header_length, type_byte, Hb by lia.
  rewrite (proj2 (Z.ltb_ge _ _)) by (unfold kHeaderSize; len).
  rewrite (proj2 (Z.eqb_neq (RecordType_num t) _)) by (by destruct t). cbn [andb].
  rewrite drop_6_phys. unfold Value. rewrite Extend_spec by lia.
  assert (DecodeFixed32 (phys t d ++ rest) = Mask (crc32c_spec 0 (bz (RecordType_num t) :: d))) as ->.
  { unfold phys. rewrite <- !app_assoc, <- EncodeFixed32_le.
    apply DecodeFixed32_Encode, Mask_range. }
  rewrite Unmask_Mask_small by (apply crc32c_spec_range; lia). rewrite Z.eqb_refl, andb_false_r.
  cbn [set_buffer initial_offset_]. rewrite Hi, (proj2 (Z.ltb_ge _ 0))
    by (unfold u64; apply Z.mod_pos_bound; lia).
  change (Z.to_nat kHeaderSize) with 7%nat. rewrite drop_7_phys.
  replace (Z.to_nat (blen d)) with (length d) by len. rewrite take_app_length.
  replace (Z.to_nat (kHeaderSize + blen d)) with (length (phys t d)) by (unfold kHeaderSize; len).
  by rewrite drop_app_length.
Qed.

Lemma ParsePhysicalRecord_truncated frag r t d rest lost :
  blen d < 2 ^ 16 -> eof_ r = true -> (7 <= length (buffer_ r))%nat ->
  buffer_ r ++ lost = phys t d ++ rest -> blen (buffer_ r) < kHeaderSize + blen d ->
  ParsePhysicalRecord frag r = (kEof, frag, clear_buffer r).
Proof.
  intros Hd He Hl E Hlt. pose proof (blen_nonneg d).
  destruct (header_fields t d rest (buffer_ r) lost Hd Hl E) as (E4 & E5 & _).
  unfold ParsePhysicalRecord. rewrite E4, E5, header_length by lia.
  rewrite (proj2 (Z.ltb_lt _ _)) by done. cbn [clear_buffer set_buffer eof_]. by rewrite He.
Qed.

(** ** The reader's position in a (truncated) log *)

(** [position r s off rest]: the unparsed bytes of the file are [rest], which
    start at block offset [off]. *)
Inductive position r s : Z -> bytes -> Prop :=
  | pos_block off rest :
      eof_ r = false -> 0 <= off -> off + blen (buffer_ r) = kBlockSize ->
      rest = buffer_ r ++ remaining (file_ r) s -> position r s off rest
  | pos_next rest :
      eof_ r = false -> blen (buffer_ r) < kHeaderSize ->
      rest = remaining (file_ r) s -> position r s 0 rest
  | pos_last off rest :
      eof_ r = true -> 0 <= off -> off + blen (buffer_ r) < kBlockSize ->
      rest = buffer_ r -> position r s off rest.

(** Nothing more will be parsed. *)
Definition finished r : Prop := eof_ r = true /\ blen (buffer_ r) < kHeaderSize.

Lemma position_trailer r s off rest z lost enc :
  position r s off rest -> z = replicate (Z.to_nat (kBlockSize - off)) (bz 0) ->
  off <= kBlockSize < off + kHeaderSize -> rest ++ lost = z ++ enc ->
  (exists rest', rest = z ++ rest' /\ rest' ++ lost = enc /\ position r s 0 rest') \/
  (finished r /\ blen rest < blen z).
Proof.
  intros Hp -> Hoff E. assert (blen (replicate (Z.to_nat (kBlockSize - off)) (bz 0)) = kBlockSize - off) as Hz
    by (rewrite blen_replicate; lia).
  destruct Hp as [off rest He Ho Hb ->|rest He Hb ->|off rest He Ho Hb ->].
  - left. rewrite <- app_assoc in E. apply app_inj_1 in E as [E E'];
      [|unfold blen in *; lia].
    exists (remaining (file_ r) s). rewrite E. split_and!; [done|done|].
    apply pos_next; [done|lia|done].
  - unfold kBlockSize, kHeaderSize in *. lia.
  - right. split; [split; [done|lia]|lia].
Qed.

(** What a read leaves unchanged. *)
Definition same_reader r r' : Prop :=
  file_ r' = file_ r /\ checksum_ r' = checksum_ r /\
  initial_offset_ r' = initial_offset_ r /\ resyncing_ r' = resyncing_ r /\
  reports r' = reports r /\ last_record_offset_ r' = last_record_offset_ r.

#[local] Instance same_reader_trans : Transitive same_reader.
Proof. intros r1 r2 r3 (?&?&?&?&?&?) (?&?&?&?&?&?). unfold same_reader. split_and!; congruence. Qed.

Lemma same_reader_quiet r r' : quiet r -> same_reader r r' -> quiet r'.
Proof. intros (?&?&?&?) (?&?&?&?&?&?). unfold quiet. split_and!; congruence. Qed.

(** The outcome of reading the physical record that [rest] starts with. *)
Definition reads_physical fuel frag r s off t d rest : Prop :=
  (exists r' s' rest', ReadPhysicalRecord_loop fuel frag r s = Some (RecordType_num t, d, r', s') /\
     rest = phys t d ++ rest' /\ position r' s' (off + kHeaderSize + blen d) rest' /\ same_reader r r') \/
  (exists r' s', ReadPhysicalRecord_loop fuel frag r s = Some (kEof, frag, r', s') /\
     blen rest < kHeaderSize + blen d /\ finished r' /\ same_reader r r').

Lemma parse_position frag r s off t d rest lost more :
  t <> kZeroType -> initial_offset_ r = 0 -> 0 <= off -> off + kHeaderSize + blen d <= kBlockSize ->
  kHeaderSize <= blen (buffer_ r) ->
  ((eof_ r = false /\ off + blen (buffer_ r) = kBlockSize /\
     rest = buffer_ r ++ remaining (file_ r) s) \/
   (eof_ r = true /\ off + blen (buffer_ r) < kBlockSize /\ rest = buffer_ r)) ->
  rest ++ lost = phys t d ++ more ->
  (exists r' rest', ParsePhysicalRecord frag r = (RecordType_num t, d, r') /\
     rest = phys t d ++ rest' /\ position r' s (off + kHeaderSize + blen d) rest' /\ same_reader r r') \/
  (ParsePhysicalRecord frag r = (kEof, frag, clear_buffer r) /\
     blen rest < kHeaderSize + blen d /\ eof_ r = true).
Proof.
  intros Ht Hi Ho Hd Hh Hpos E. pose proof (blen_nonneg d). assert (kHeaderSize = 7) as H7 by done.
  assert (blen d < 2 ^ 16) as Hd16 by (unfold kBlockSize, kHeaderSize in *; lia).
  destruct (decide (blen (buffer_ r) < kHeaderSize + blen d)) as [Hlt|Hge].
  - destruct Hpos as [(_ & Hb & _)|(He & Hb & ->)]; [lia|]. right.
    split; [|done]. eapply ParsePhysicalRecord_truncated; try done. unfold kHeaderSize in *. len.
  - left. assert (exists tail, buffer_ r = phys t d ++ tail) as [tail Htail].
    { assert (exists k, buffer_ r ++ k = phys t d ++ more) as [k Ek].
      { destruct Hpos as [(_ & _ & ->)|(_ & _ & ->)]; [rewrite <- app_assoc in E|]; eauto. }
      exists (drop (length (phys t d)) (buffer_ r)).
      rewrite <- (take_drop (length (phys t d)) (buffer_ r)) at 1. f_equal.
      apply (f_equal (take (length (phys t d)))) in Ek.
      rewrite take_app_length, take_app_le in Ek by (unfold kHeaderSize in *; len). done. }
    rewrite (ParsePhysicalRecord_full frag r t d tail) by done.
    rewrite Htail in *. rewrite blen_app in Hpos.
    assert (blen (phys t d) = kHeaderSize + blen d) as Hp by (unfold kHeaderSize; len).
    destruct Hpos as [(He & Hb & ->)|(He & Hb & ->)].
    + eexists _, (tail ++ remaining (file_ r) s). split_and!; [done|by rewrite <- app_assoc| |done].
      apply pos_block; cbn; [done|lia|lia|done].
    + eexists _, tail. split_and!; [done|done| |done]. apply pos_last; cbn; [done|lia|lia|done].
Qed.

(** With the block in the buffer, one turn of the loop. *)
Lemma read_buffered n frag r s off t d rest lost more :
  t <> kZeroType -> initial_offset_ r = 0 -> 0 <= off -> off + kHeaderSize + blen d <= kBlockSize ->
  ((eof_ r = false /\ off + blen (buffer_ r) = kBlockSize /\
     rest = buffer_ r ++ remaining (file_ r) s) \/
   (eof_ r = true /\ off + blen (buffer_ r) < kBlockSize /\ rest = buffer_ r)) ->
  rest ++ lost = phys t d ++ more ->
  reads_physical (Datatypes.S n) frag r s off t d rest.
Proof.
  intros Ht Hi Ho Hd Hpos E. pose proof (blen_nonneg d). assert (kHeaderSize = 7) as H7 by done.
  unfold reads_physical. cbn [ReadPhysicalRecord_loop].
  destruct (Z.ltb_spec (blen (buffer_ r)) kHeaderSize) as [Hlt|Hge].
  - destruct Hpos as [(_ & Hb & _)|(He & Hb & ->)]; [lia|]. rewrite He. cbn [negb]. right.
    eexists _, _. split_and!; [done|lia| |done]. split; [exact He|]. cbn. unfold blen. cbn. lia.
  - destruct (parse_position frag r s off t d rest lost more) as [(r' & rest' & -> & -> & Hp & Hs)|(-> & Hl & He)];
      [done..| |].
    + left. eauto 10.
    + right. eexists _, _. split_and!; [done|done| |done]. split; [exact He|]. cbn. unfold blen. cbn. lia.
Qed.

Lemma read_position frag r s off t d rest lost more :
  position r s off rest -> t <> kZeroType -> initial_offset_ r = 0 ->
  off + kHeaderSize + blen d <= kBlockSize -> rest ++ lost = phys t d ++ more ->
  reads_physical 2 frag r s off t d rest.
Proof.
  intros Hp Ht Hi Hd E. destruct Hp as [off rest He Ho Hb ->|rest He Hb Hr|off rest He Ho Hb ->];
    [eapply read_buffered; eauto; tauto| |eapply read_buffered; eauto; tauto].
  unfold reads_physical. cbn [ReadPhysicalRecord_loop].
  rewrite (proj2 (Z.ltb_lt _ _)), He by done. cbn [negb clear_buffer set_buffer file_ backing_store_].
  destruct (Read (file_ r) kBlockSize (backing_store_ r) s) as [[st [a blk]] s'] eqn:Er.
  pose proof (Read_reliable (file_ r) kBlockSize (backing_store_ r) s) as Hok. rewrite Er in Hok.
  cbn [fst] in Hok. rewrite Hok. cbn [negb].
  apply Read_ok in Er as [Hblk Hrem]; [|done|done]. rewrite <- Hr in Hblk, Hrem.
  assert (rest = blk ++ remaining (file_ r) s') as Hrest by (by rewrite Hblk, Hrem, take_drop).
  assert (blen blk = kBlockSize \/ blen blk < kBlockSize /\ blk = rest) as Hlen.
  { rewrite Hblk at 1 2. rewrite blen_take.
    destruct (decide (blen rest < kBlockSize)) as [Hs|Hs]; [right|left; unfold kBlockSize in *; lia].
    split; [unfold kBlockSize in *; lia|]. rewrite Hblk. apply take_ge. unfold blen in Hs. lia. }
  clear Hblk Hrem Hr.
  set (r1 := if blen _ <? kBlockSize then _ else _).
  assert (same_reader r r1 /\ buffer_ r1 = blk) as [Hsame Hb1] by (unfold r1; by case_match).
  assert (reads_physical 1 frag r1 s' 0 t d rest) as Hrd.
  { pose proof Hsame as (Hf & _ & Hi1 & _). eapply read_buffered; eauto; [congruence|lia|].
    rewrite Hb1. destruct Hlen as [Hlen|[Hlen ->]].
    - left. rewrite Hf. split_and!; [|lia|done]. unfold r1. cbn [set_end_of_buffer_offset buffer_ set_buffer].
      by rewrite Hlen, Z.ltb_irrefl.
    - right. split_and!; [|lia|done]. unfold r1. cbn [set_end_of_buffer_offset buffer_ set_buffer].
      by rewrite (proj2 (Z.ltb_lt _ _)). }
  destruct Hrd as [(r' & s'' & rest' & ? & ? & ? & ?)|(r' & s'' & ? & ? & ? & ?)]; [left|right].
  - eexists _, _, _. split_and!; [done..|by etrans].
  - eexists _, _. split_and!; [done..|by etrans].
Qed.

(** At the end of the file. *)
Lemma read_end frag r s :
  (eof_ r = true \/ remaining (file_ r) s = []) -> blen (buffer_ r) < kHeaderSize ->
  exists r' s', ReadPhysicalRecord frag r s = Some (kEof, frag, r', s') /\ same_reader r r'.
Proof.
  intros He Hb. unfold ReadPhysicalRecord. cbn [ReadPhysicalRecord_loop].
  rewrite (proj2 (Z.ltb_lt _ _)) by done. destruct (eof_ r) eqn:Ee; cbn [negb].
  { eexists _, _. by split. }
  destruct He as [|He]; [done|]. cbn [clear_buffer set_buffer file_ backing_store_].
  destruct (Read (file_ r) kBlockSize (backing_store_ r) s) as [[st [a blk]] s'] eqn:Er.
  pose proof (Read_reliable (file_ r) kBlockSize (backing_store_ r) s) as Hok. rewrite Er in Hok.
  cbn [fst] in Hok. rewrite Hok. cbn [negb].
  apply Read_ok in Er as [Hblk _]; [|done|done]. rewrite He, take_nil in Hblk. subst blk.
  cbn [set_end_of_buffer_offset buffer_ set_buffer].
  change (blen [] <? kBlockSize) with true. cbn [set_eof buffer_ eof_ negb].
  change (blen [] <? kHeaderSize) with true. cbn iota. eexists _, _. by split.
Qed.

Lemma position_end r s off :
  position r s off [] -> (eof_ r = true \/ remaining (file_ r) s = []) /\ blen (buffer_ r) < kHeaderSize.
Proof.
  intros Hp. inversion Hp as [? ? He Ho Hb Hr|? He Hb Hr|? ? He Ho Hb Hr]; subst.
  - symmetry in Hr. apply app_nil in Hr as [-> ->]. split; [by right|done].
  - split; [by right|done].
  - split; [by left|]. by rewrite <- Hr.
Qed.

(** ** Reassembling one record *)

Lemma switch_end b d o l r :
  in_fragmented_record l = negb b -> (b = true -> scratch l = []) ->
  ReadRecord_switch (RecordType_num (first_type b true)) d o l r =
  inl (Some (scratch l ++ d), set_last_record_offset r (if b then o else prospective_record_offset l)).
Proof.
  intros Hi Hs. destruct b; unfold ReadRecord_switch; cbn [first_type RecordType_num].
  - rewrite Hi, Hs by done. done.
  - by rewrite Hi.
Qed.

Lemma switch_more b d o l r :
  in_fragmented_record l = negb b -> (b = true -> scratch l = []) ->
  ReadRecord_switch (RecordType_num (first_type b false)) d o l r =
  inr (mkLocals (scratch l ++ d) true (if b then o else prospective_record_offset l), r).
Proof.
  intros Hi Hs. destruct b; unfold ReadRecord_switch; cbn [first_type RecordType_num].
  - rewrite Hi, Hs by done. done.
  - by rewrite Hi.
Qed.

Lemma first_type_nonzero b e : first_type b e <> kZeroType.
Proof. by destruct b, e. Qed.

(** End of file inside or before a record: [ReadRecord] returns [false]. *)
Lemma loop_eof n frag l r s r' s' :
  ReadPhysicalRecord frag r s = Some (kEof, frag, r', s') -> resyncing_ r' = false ->
  ReadRecord_loop (Datatypes.S n) frag l r s = Some (None, r', s').
Proof. intros E Hr. cbn [ReadRecord_loop]. rewrite E, Hr. done. Qed.

Definition reads_record fuel frag l r s data enc off' rest : Prop :=
  (exists r' s' rest', ReadRecord_loop fuel frag l r s = Some (Some (scratch l ++ data), r', s') /\
     rest = enc ++ rest' /\ position r' s' off' rest' /\ quiet r') \/
  (exists r' s', ReadRecord_loop fuel frag l r s = Some (None, r', s') /\
     blen rest < blen enc /\ reports r' = []).

Lemma ReadRecord_loop_frags b off data enc off' :
  log_frags b off data enc off' ->
  forall fuel frag l r s rest lost more,
  position r s off rest -> quiet r -> rest ++ lost = enc ++ more ->
  in_fragmented_record l = negb b -> (b = true -> scratch l = []) ->
  0 <= prospective_record_offset l -> (length rest < fuel)%nat ->
  reads_record fuel frag l r s data enc off' rest.
Proof.
  assert (forall a, 0 <= u64 a) as Hu by (intros a; unfold u64; apply Z.mod_pos_bound; lia).
  assert (kHeaderSize = 7) as H7 by done.
  induction 1 as [b off data enc off' Ho Hf IH|b off data Ho Hfit|b off d1 d2 enc off' Ho Hfit Hne Hf IH];
    intros [|fuel] frag l r s rest lost more Hp Hq E Hi Hs Hpr Hfuel; try lia;
    unfold reads_record in *.
  - rewrite <- app_assoc in E.
    destruct (position_trailer r s off rest _ lost _ Hp eq_refl Ho E)
      as [(rest' & -> & E' & Hp')|[[He Hb] Hl]].
    + destruct (IH (Datatypes.S fuel) frag l r s rest' lost more)
        as [(r' & s' & rest'' & -> & -> & Hp'' & Hq')|(r' & s' & -> & Hl & Hrep)]; try done.
      * rewrite length_app in Hfuel. lia.
      * left. eexists _, _, _. split_and!; [done|by rewrite app_assoc|done|done].
      * right. eexists _, _. split_and!; [done| |done]. rewrite !blen_app. lia.
    + right. destruct (read_end frag r s) as (r' & s' & E1 & Hsame); [by left|done|].
      pose proof (same_reader_quiet _ _ Hq Hsame) as (_ & Hrs & Hrep & _).
      rewrite (loop_eof fuel frag l r s r' s') by done. eexists _, _. split_and!; [done| |done].
      rewrite blen_app. pose proof (blen_nonneg enc). lia.
  - destruct (read_position frag r s off (first_type b true) data rest lost more)
      as [(r' & s' & rest' & E1 & -> & Hp' & Hsame)|(r' & s' & E1 & Hl & _ & Hsame)];
      [done|apply first_type_nonzero|apply Hq|done|done| |];
      pose proof (same_reader_quiet _ _ Hq Hsame) as Hq'; pose proof Hq' as (Hi0 & Hrs & Hrep & _).
    + left. cbn [ReadRecord_loop]. unfold ReadPhysicalRecord. rewrite E1, Hrs. cbn [andb].
      rewrite switch_end by done. eexists _, _, _. split_and!; [done|done| |].
      * inversion Hp'; [by apply pos_block|by apply pos_next|by apply pos_last].
      * split_and!; try done. cbn. destruct b; [apply Hu|done].
    + right. rewrite (loop_eof fuel frag l r s r' s') by done. eexists _, _.
      split_and!; [done| |done]. len.
  - rewrite <- app_assoc in E.
    destruct (read_position frag r s off (first_type b false) d1 rest lost (enc ++ more))
      as [(r' & s' & rest' & E1 & -> & Hp' & Hsame)|(r' & s' & E1 & Hl & _ & Hsame)];
      [done|apply first_type_nonzero|apply Hq|lia|done| |];
      pose proof (same_reader_quiet _ _ Hq Hsame) as Hq'; pose proof Hq' as (Hi0 & Hrs & Hrep & _).
    + cbn [ReadRecord_loop]. unfold ReadPhysicalRecord. rewrite E1, Hrs. cbn [andb].
      rewrite switch_more by done. rewrite Hfit in Hp'.
      rewrite <- app_assoc in E. apply app_inv_head in E.
      set (l' := mkLocals _ _ _).
      destruct (IH fuel d1 l' r' s' rest' lost more) as [(r2 & s2 & rest2 & E2 & -> & Hp2 & Hq2)|(r2 & s2 & E2 & Hl & Hrep2)];
        try done.
      * cbn. destruct b; [apply Hu|done].
      * rewrite length_app, length_phys in Hfuel. lia.
      * left. eexists _, _, _. split_and!; [|by rewrite app_assoc|done|done].
        rewrite E2. cbn [l' scratch]. by rewrite <- app_assoc.
      * right. eexists _, _. split_and!; [exact E2| |done]. rewrite !blen_app. lia.
    + right. rewrite (loop_eof fuel frag l r s r' s') by done. eexists _, _.
      split_and!; [done| |done]. rewrite blen_app. pose proof (blen_nonneg enc). len.
Qed.

(** ** Reading the whole log *)

Lemma ReadRecords_truncated off records enc off' :
  log_file off records enc off' ->
  forall calls fuel r s rest lost,
  position r s off rest -> quiet r -> rest ++ lost = enc ->
  (length rest < fuel)%nat -> (length records < calls)%nat ->
  exists k r' s', ReadRecords calls fuel r s = Some (take k records, r', s') /\ reports r' = [] /\
    (k <= length records)%nat /\
    (exists enck offk, log_file off (take k records) enck offk /\ blen enck <= blen rest) /\
    ((k < length records)%nat -> exists enck offk,
       log_file off (take (Datatypes.S k) records) enck offk /\ blen rest < blen enck).
Proof.
  induction 1 as [off|off off1 off2 rec rs enc encs Hf Hl IH];
    intros [|calls] [|fuel] r s rest lost Hp Hq E Hfuel Hcalls; try (simpl in *; lia);
    cbn [ReadRecords]; unfold ReadRecord; pose proof Hq as (Hi & Hrs & Hrep & Hlast);
    rewrite Hi, (proj2 (Z.ltb_ge _ _)) by done; cbn [negb].
  - apply app_nil in E as [-> ->]. apply position_end in Hp as [He Hb].
    destruct (read_end [] r s He Hb) as (r' & s' & E1 & Hsame).
    pose proof (same_reader_quiet _ _ Hq Hsame) as (_ & Hrs' & Hrep' & _).
    rewrite (loop_eof fuel _ _ r s r' s') by done. exists 0%nat. eexists _, _.
    split_and!; [done|done|done| |simpl; lia]. eexists _, _. split; [constructor|done].
  - destruct (ReadRecord_loop_frags _ _ _ _ _ Hf (Datatypes.S fuel) [] (mkLocals [] false 0) r s rest lost encs)
      as [(r' & s' & rest' & -> & -> & Hp' & Hq')|(r' & s' & -> & Hlt & Hrep')]; try done.
    + cbn [scratch app]. rewrite <- app_assoc in E. apply app_inv_head in E.
      destruct (IH calls (Datatypes.S fuel) r' s' rest' lost) as (k & r2 & s2 & -> & Hrep2 & Hk & Hin & Hout);
        [done|done|done|len|simpl in Hcalls; lia|].
      exists (Datatypes.S k). eexists _, _. split_and!; [done|done|simpl; lia| |].
      * destruct Hin as (enck & offk & ? & ?). exists (enc ++ enck), offk.
        split; [by econstructor|rewrite !blen_app; lia].
      * intros Hlt. destruct Hout as (enck & offk & ? & ?); [simpl in Hlt; lia|].
        exists (enc ++ enck), offk. split; [by econstructor|rewrite !blen_app; lia].
    + exists 0%nat. eexists _, _. split_and!; [done|done|lia| |].
      * eexists _, _. split; [constructor|]. rewrite blen_nil. apply blen_nonneg.
      * intros _. exists (enc ++ []), off1. split; [by econstructor|]. by rewrite app_nil_r.
Qed.

End roundtrip.

(** * Writer and reader together *)

(** The layout is a function of the records and the starting offset. *)
Lemma log_frags_fun b off data enc off' enc2 off2 :
  log_frags b off data enc off' -> log_frags b off data enc2 off2 -> enc = enc2 /\ off' = off2.
Proof.
  intros H1. revert enc2 off2. assert (kHeaderSize = 7) as H7 by done.
  induction H1 as [b off data enc off' Ho Hf IH|b off data Ho Hfit|b off d1 d2 enc off' Ho Hfit Hne Hf IH];
    intros enc2 off2 H2; inversion H2 as [? ? ? e ? Ho2 Hf2|? ? ? Ho2 Hfit2|? ? e1 e2 e ? Ho2 Hfit2 Hne2 Hf2];
    subst; try (unfold blen in *; lia).
  - destruct (IH _ _ Hf2) as [-> ->]. done.
  - done.
  - rewrite blen_app in Hfit. destruct e2; [done|]. len.
  - rewrite blen_app in Hfit2. destruct d2; [done|]. len.
  - match goal with E : _ ++ _ = _ ++ _ |- _ =>
      apply app_inj_1 in E as [-> ->]; [|unfold blen in *; lia] end.
    destruct (IH _ _ Hf2) as [-> ->]. done.
Qed.

Lemma log_file_fun off records enc off' enc2 off2 :
  log_file off records enc off' -> log_file off records enc2 off2 -> enc = enc2 /\ off' = off2.
Proof.
  intros H1. revert enc2 off2. induction H1 as [|off off1 off2' r rs enc encs Hf Hl IH];
    intros enc2 off2 H2; inversion H2 as [|? o1 ? ? ? e es Hf2 Hl2]; subst; [done|].
  destruct (log_frags_fun _ _ _ _ _ _ _ Hf Hf2) as [-> ->]. destruct (IH _ _ Hl2) as [-> ->]. done.
Qed.

Lemma log_file_mono records off a b ea oa eb ob :
  (a <= b)%nat -> log_file off (take a records) ea oa -> log_file off (take b records) eb ob ->
  (length ea <= length eb)%nat.
Proof.
  revert off a b ea eb. induction records as [|r rs IH]; intros off a b ea eb Hab Ha Hb.
  - rewrite !take_nil in *. by destruct (log_file_fun _ _ _ _ _ _ Ha Hb) as [-> _].
  - destruct a as [|a]; [inversion Ha; simpl; lia|]. destruct b as [|b]; [lia|]. simpl in Ha, Hb.
    inversion Ha as [|? ? ? ? ? e1 e2 Hf1 Hl1]. inversion Hb as [|? ? ? ? ? f1 f2 Hf2 Hl2]. subst.
    destruct (log_frags_fun _ _ _ _ _ _ _ Hf1 Hf2) as [-> ->].
    pose proof (IH _ a b _ _ ltac:(lia) Hl1 Hl2). rewrite !length_app. lia.
Qed.

(** The loop of a client: add records as long as it succeeds. *)
Fixpoint AddRecords {port : Port} {H S : Type} `{!WritableFileOps H S}
    (w : Writer H) (ptr : Z) (records : list bytes) (s : S) : option (Status * Writer H * S) :=
  match records with
  | [] => Some (OK, w, s)
  | r :: rs =>
    match AddRecord w ptr r s with
    | Some (st, w, s) => if ok st then AddRecords w ptr rs s else Some (st, w, s)
    | None => None
    end
  end.

Lemma AddRecords_spec {port : Port} {H S : Type} `{!PortCrcOk port}
    `{WritableFileOk H S written} `{!WritableFileReliable H S} ptr records :
  forall (w : Writer H) (s : S), writer_ok w ->
  exists w' s' enc, AddRecords w ptr records s = Some (OK, w', s') /\
    written (dest_ w) s' = written (dest_ w) s ++ enc /\
    log_file (block_offset_ w) records enc (block_offset_ w').
Proof.
  induction records as [|r rs IH]; intros w s Hw; cbn [AddRecords].
  { exists w, s, []. rewrite app_nil_r. auto. }
  destruct (AddRecord_spec w ptr r s Hw) as (st & w1 & s1 & enc & -> & -> & Hw1 & Hd & Hwr & Hf).
  destruct (IH w1 s1 Hw1) as (w2 & s2 & encs & -> & Hwr2 & Hl). rewrite Hd, Hwr in Hwr2.
  exists w2, s2, (enc ++ encs). rewrite Hwr2, app_assoc. eauto.
Qed.

(** C7: crash consistency of the log.  Write any list of records to an empty
    file with [log::Writer], truncate the file at any byte, and read it with
    [log::Reader] from the start, with or without checksums: the calls of
    [ReadRecord] return, in order, exactly the records whose last byte lies
    within the truncation, then [false], and no corruption is reported.
    Without a truncation all records come back. *)
Theorem log_crash_consistent {port : Port} `{!PortCrcOk port}
    {HW SW : Type} `{WritableFileOk HW SW written} `{!WritableFileReliable HW SW}
    {HR SR : Type} `{SequentialFileOk HR SR remaining} `{!SequentialFileReliable HR SR}
    (dest : HW) (sw : SW) (file : HR) (sr : SR) (records : list bytes) (n : nat)
    (t_addr ptr backing : Z) (reporter checksum : bool) :
  written dest sw = [] ->
  let w := Writer_new t_addr dest in
  exists w' sw', AddRecords w ptr records sw = Some (OK, w', sw') /\
  (remaining file sr = take n (written dest sw') ->
   let fuel := Datatypes.S (length (written dest sw')) in
   exists k r' sr',
     ReadRecords (Datatypes.S (length records)) fuel (Reader_new file reporter checksum backing 0) sr
       = Some (take k records, r', sr') /\
     reports r' = [] /\ (k <= length records)%nat /\
     (forall j wj sj, (j <= length records)%nat ->
        AddRecords w ptr (take j records) sw = Some (OK, wj, sj) ->
        (j <= k)%nat <-> (length (written dest sj) <= Nat.min n (length (written dest sw')))%nat)).
Proof.
  intros Hempty w.
  assert (writer_ok w) as Hw by (split; [done|by eexists]).
  destruct (AddRecords_spec ptr records w sw Hw) as (w' & sw' & enc & E & Hwr & Hl).
  exists w', sw'. split; [done|]. intros Hrem fuel. change (dest_ w) with dest in *.
  rewrite Hempty in Hwr. cbn [app] in Hwr. rewrite Hwr in *.
  destruct (ReadRecords_truncated _ _ _ _ Hl (Datatypes.S (length records)) fuel
    (Reader_new file reporter checksum backing 0) sr (take n enc) (drop n enc))
    as (k & r' & sr' & Er & Hrep & Hk & (ek & ok_ & Hlk & Hek) & Hout).
  - by apply pos_next.
  - done.
  - apply take_drop.
  - unfold fuel. rewrite Hwr, length_take. lia.
  - lia.
  - exists k, r', sr'. split_and!; [done..|]. intros j wj sj Hj Ej.
    destruct (AddRecords_spec ptr (take j records) w sw Hw) as (w2 & s2 & ej & E2 & Hwj & Hlj).
    rewrite Ej in E2. injection E2 as <- <-. change (dest_ w) with dest in Hwj.
    rewrite Hempty in Hwj. cbn [app] in Hwj. rewrite Hwj.
    rewrite blen_take in *. split; intros Hle.
    + pose proof (log_file_mono _ _ _ _ _ _ _ _ Hle Hlj Hlk). unfold blen in *. lia.
    + destruct (decide (j <= k)%nat) as [|Hjk]; [done|]. destruct Hout as (es & os & Hls & Hes); [lia|].
      pose proof (log_file_mono _ _ (Datatypes.S k) j _ _ _ _ ltac:(lia) Hls Hlj). unfold blen in *. lia.
Qed.

(** Two records, the second torn in its payload. *)
Lemma log_crash_consistent_witness :
  let P := little_endian_port in
  let records := [bytes_of_string "foo"; bytes_of_string "barbaz"] in
  let w := Writer_new 0 tt in
  exists w' sw', AddRecords w 0 records [] = Some (OK, w', sw') /\ length sw' = 23%nat /\
   exists k r' sr',
     ReadRecords 3 24 (Reader_new tt true true 0 0) (take 20 sw') = Some (take k records, r', sr') /\
     reports r' = [] /\ k = 1%nat.
Proof.
  intros P records w.
  destruct (log_crash_consistent (port := P) (written := fun _ s => s) (remaining := fun _ s => s)
    tt [] tt (take 20 (phys kFullType (bytes_of_string "foo") ++ phys kFullType (bytes_of_string "barbaz")))
    records 20 0 0 0 true true eq_refl) as (w' & sw' & E & Hr).
  assert (sw' = phys kFullType (bytes_of_string "foo") ++ phys kFullType (bytes_of_string "barbaz")) as ->
    by (vm_compute in E; vm_compute; congruence).
  destruct (Hr eq_refl) as (k & r' & sr' & Er & Hrep & _ & _).
  eexists _, _. split; [exact E|]. split; [vm_compute; reflexivity|].
  exists k, r', sr'. split; [exact Er|]. split; [exact Hrep|].
  vm_compute in Er. destruct k as [|[|[|k]]]; vm_compute in Er; congruence.
Defined.

Section claims.
Context {port : Port} {H S : Type} `{SequentialFileOk H S remaining}.

(** C31: [ReadRecord] returns on every file content and in every reader state,
    corrupt input, read errors and resynchronization included: one turn of its
    loop per unread byte, and one more, always suffices. *)
Theorem ReadRecord_returns (r : Reader H) (s : S) :
  0 <= initial_offset_ r < 2 ^ 62 ->
  exists record r' s', ReadRecord (Datatypes.S (unread remaining r s)) r s = Some (record, r', s').
Proof.
  intros Hi. assert (forall r' s', (unread remaining r' s' <= unread remaining r s)%nat -> forall frag l,
    exists record r2 s2, ReadRecord_loop (Datatypes.S (unread remaining r s)) frag l r' s' = Some (record, r2, s2)) as Hl.
  { intros r' s' Hle frag l.
    destruct (ReadRecord_loop_total (Datatypes.S (unread remaining r s)) frag l r' s') as [[[rec r2] s2] E]; [lia|].
    eauto. }
  unfold ReadRecord. destruct (_ <? _); [|by apply Hl]. unfold SkipToInitialBlock.
  set (bsl := if kBlockSize - 6 <? _ then _ else _). cbn [set_end_of_buffer_offset file_].
  destruct (Z.ltb_spec 0 bsl) as [Hb|Hb]; [|by apply Hl].
  destruct (Skip (file_ r) bsl s) as [st s'] eqn:E. destruct (ok st) eqn:Hok; cbn [negb]; [|by eauto].
  apply Skip_ok in E; [apply Hl; unfold unread; cbn; rewrite E, length_drop; lia| |done].
  split; [lia|]. pose proof (Z.mod_pos_bound (initial_offset_ r) kBlockSize ltac:(done)).
  subst bsl. unfold u64, kBlockSize in *. case_match; [rewrite Z.mod_small by lia|]; lia.
Qed.

End claims.

Lemma ReadRecord_returns_witness :
  let P := little_endian_port in
  let r := Reader_new tt true true 0 100 in
  let s := replicate 50 (bz 255) in
  exists record r' s', ReadRecord (Datatypes.S (unread (fun _ s => s) r s)) r s
    = Some (record, r', s').
Proof.
  intros P r s. apply (ReadRecord_returns (port := P) (remaining := fun _ s => s) r s). cbn. lia.
Defined.

(** C32: a fragment is accepted only with its checksum.  When the reader
    verifies checksums and a parse yields neither end-of-file nor a bad
    record, the buffer started with a six-byte header part, the type byte and
    the returned fragment, the stored crc unmasks to the CRC-32C of type and
    fragment, the stored length is the fragment's, and the buffer is left
    right behind it. *)
Theorem ParsePhysicalRecord_checked {port : Port} {H : Type} `{!PortCrcOk port}
    (frag : bytes) (r : Reader H) (t : Z) (d : bytes) (r' : Reader H) :
  checksum_ r = true -> kHeaderSize <= blen (buffer_ r) ->
  ParsePhysicalRecord frag r = (t, d, r') -> t <> kEof -> t <> kBadRecord ->
  exists crc len tb, buffer_ r = crc ++ len ++ tb :: d ++ buffer_ r' /\
    blen crc = 4 /\ Unmask (DecodeFixed32 crc) = crc32c_spec 0 (tb :: d) /\
    len = le_split 2 (blen d) /\ t = u32 (sb tb) /\ reports r' = reports r.
Proof.
  intros Hc Hh. unfold ParsePhysicalRecord. rewrite Hc. cbn [andb].
  unfold kHeaderSize in Hh. destruct (buffer_ r) as [|c0 [|c1 [|c2 [|c3 [|b4 [|b5 [|b6 buf]]]]]]] eqn:Eb;
    try (unfold blen in Hh; simpl in Hh; lia).
  assert (DecodeFixed32 (c0 :: c1 :: c2 :: c3 :: b4 :: b5 :: b6 :: buf) = DecodeFixed32 [c0; c1; c2; c3]) as ->
    by (rewrite !DecodeFixed32_le by (simpl; lia); done).
  unfold ptr_byte. cbn [nth drop]. rewrite !land_ub_ff.
  assert (Z.lor (ub b4) (Z.shiftl (ub b5) 8) = le_combine [b4; b5]) as ->
    by (cbn [le_combine]; by rewrite Z.shiftl_0_l, Z.lor_0_r).
  pose proof (le_combine_range [b4; b5]) as Hr. set (n := le_combine [b4; b5]) in *.
  destruct (Z.ltb_spec (blen (c0 :: c1 :: c2 :: c3 :: b4 :: b5 :: b6 :: buf)) (kHeaderSize + n)) as [|Hn].
  { by destruct (negb _); intros [= <- _ _]. }
  destruct (_ && _); [by intros [= <- _ _]|].
  destruct (Z.eqb_spec (Value (buffer_data_ r + 6) (take (Z.to_nat (1 + n)) (b6 :: buf)))
              (Unmask (DecodeFixed32 [c0; c1; c2; c3]))) as [Ecrc|]; cbn [negb]; [|by intros [= <- _ _]].
  destruct (_ <? _); [by intros [= <- _ _]|]. intros [= <- <- <-] _ _.
  change (Z.to_nat kHeaderSize) with 7%nat. cbn [drop set_buffer buffer_ reports].
  replace (Z.to_nat (kHeaderSize + n)) with (7 + Z.to_nat n)%nat by (unfold kHeaderSize; lia).
  rewrite <- drop_drop. cbn [drop].
  assert (blen (take (Z.to_nat n) buf) = n) as Hlen.
  { rewrite blen_take. unfold kHeaderSize, blen in *. simpl in Hn. lia. }
  exists [c0; c1; c2; c3], [b4; b5], b6. rewrite drop_0, take_drop, Hlen. split_and!; [done|done| | |done|done].
  - rewrite <- Ecrc. unfold Value. rewrite Extend_spec by lia.
    by replace (Z.to_nat (1 + n)) with (Datatypes.S (Z.to_nat n)) by lia.
  - symmetry. apply (le_split_combine [b4; b5]).
Qed.

Lemma ParsePhysicalRecord_checked_witness :
  let P := little_endian_port in
  let d := bytes_of_string "foo" in
  let r := set_buffer (Reader_new tt true true 0 0) 0 (phys kFullType d) in
  exists crc len tb, buffer_ r = crc ++ len ++ tb :: d ++ [] /\
    blen crc = 4 /\ Unmask (DecodeFixed32 crc) = crc32c_spec 0 (tb :: d) /\
    len = le_split 2 (blen d) /\ 1 = u32 (sb tb) /\ [] = reports r.
Proof.
  intros P d r.
  exact (ParsePhysicalRecord_checked (port := P) [] r 1 d (set_buffer r 10 [])
    eq_refl ltac:(vm_compute; discriminate) ltac:(vm_compute; reflexivity)
    ltac:(discriminate) ltac:(discriminate)).
Defined.
