(* ===== verification/Options.v ===== *)
(** The option structures of [include/leveldb/options.h] and the defaults of
    [util/options.cpp].  The environment, the info log and the block cache are
    objects of other components; a client that needs them takes them as
    arguments. *)

From S2P Require Import Prelude Comparator Bloom.

Inductive CompressionType := kNoCompression | kSnappyCompression.

#[export] Instance CompressionType_eq_dec : EqDecision CompressionType.
Proof. solve_decision. Defined.

Definition CompressionType_num (t : CompressionType) : Z :=
  match t with kNoCompression => 0x0 | kSnappyCompression => 0x1 end.

Record Options := {
  comparator : Comparator;
  create_if_missing : bool;
  error_if_exists : bool;
  paranoid_checks : bool;
  write_buffer_size : Z;
  max_open_files : Z;
  block_size : Z;
  block_restart_interval : Z;
  max_file_size : Z;
  compression : CompressionType;
  reuse_logs : bool;
  filter_policy : option FilterPolicy;
}.

Definition Options_new : Options := {|
  comparator := BytewiseComparator;
  create_if_missing := false;
  error_if_exists := false;
  paranoid_checks := false;
  write_buffer_size := Z.shiftl 4 20;
  max_open_files := 1000;
  block_size := 4096;
  block_restart_interval := 16;
  max_file_size := Z.shiftl 2 20;
  compression := kSnappyCompression;
  reuse_logs := false;
  filter_policy := None;
|}.

Record ReadOptions := { verify_checksums : bool; fill_cache : bool }.

Definition ReadOptions_new : ReadOptions := {| verify_checksums := false; fill_cache := true |}.

Record WriteOptions := { sync : bool }.

Definition WriteOptions_new : WriteOptions := {| sync := false |}.
