(* ===== verification/BlockBuilder.v ===== *)
(** The block builder of [table/block_builder.h] and [table/block_builder.cpp].
    A block is a run of prefix-compressed entries followed by the offsets of
    its restart points.  The layout ([items_ok]) is what the builder is proved
    to maintain and what the block iterator (in Block) relies on. *)

From S2P Require Import Prelude Port Coding Comparator Options.

(** * The builder *)

Record BlockBuilder := mkBlockBuilder {
  buffer_ : bytes;
  restarts_ : list Z;
  counter_ : Z;
  finished_ : bool;
  last_key_ : bytes;
}.

(** The constructor; [Reset] re-establishes the same state. *)
Definition BlockBuilder_new : BlockBuilder :=
  {| buffer_ := []; restarts_ := [0]; counter_ := 0; finished_ := false; last_key_ := [] |}.

Definition Reset (b : BlockBuilder) : BlockBuilder :=
  {| buffer_ := []; restarts_ := [0]; counter_ := 0; finished_ := false; last_key_ := [] |}.

Definition CurrentSizeEstimate (b : BlockBuilder) : Z :=
  blen (buffer_ b) + blen (restarts_ b) * 4 + 4.

Definition BlockBuilder_empty (b : BlockBuilder) : bool := bool_decide (buffer_ b = []).

Section builder.
Context {port : Port}.

Definition Finish (b : BlockBuilder) : bytes * BlockBuilder :=
  let buffer := fold_left PutFixed32 (restarts_ b) (buffer_ b) in
  let buffer := PutFixed32 buffer (u32 (blen (restarts_ b))) in
  (buffer, mkBlockBuilder buffer (restarts_ b) (counter_ b) true (last_key_ b)).

End builder.

(** [restarts_.push_back(buffer_.size())] narrows to 32 bits. *)
Definition Add (options : Options) (b : BlockBuilder) (key value : bytes) : BlockBuilder :=
  let last_key_piece := last_key_ b in
  let compress := counter_ b <? block_restart_interval options in
  let shared := if compress then common_prefix last_key_piece key else 0%nat in
  let restarts := if compress then restarts_ b else restarts_ b ++ [u32 (blen (buffer_ b))] in
  let counter := if compress then counter_ b else 0 in
  let non_shared := blen key - Z.of_nat shared in
  let buffer := PutVarint32 (buffer_ b) (u32 (Z.of_nat shared)) in
  let buffer := PutVarint32 buffer (u32 non_shared) in
  let buffer := PutVarint32 buffer (u32 (blen value)) in
  let buffer := buffer ++ drop shared key in
  let buffer := buffer ++ value in
  let last_key := take shared (last_key_ b) ++ drop shared key in
  {| buffer_ := buffer; restarts_ := restarts; counter_ := counter + 1;
     finished_ := finished_ b; last_key_ := last_key |}.

(** * The layout of a block *)

Record item := { it_restart : bool; it_shared : nat; it_key : bytes; it_value : bytes }.

Definition item_bytes (it : item) : bytes :=
  EncodeVarint32 (Z.of_nat (it_shared it)) ++
  EncodeVarint32 (blen (it_key it) - Z.of_nat (it_shared it)) ++
  EncodeVarint32 (blen (it_value it)) ++
  drop (it_shared it) (it_key it) ++ it_value it.

Definition items_bytes (its : list item) : bytes := concat (item_bytes <$> its).

(** Each entry's shared prefix is one of the previous key; a restart point
    shares nothing. *)
Fixpoint items_ok (last : bytes) (its : list item) : Prop :=
  match its with
  | [] => True
  | it :: its =>
    (it_shared it <= length (it_key it))%nat /\
    (it_shared it <= length last)%nat /\
    take (it_shared it) (it_key it) = take (it_shared it) last /\
    (it_restart it = true -> it_shared it = 0%nat) /\
    items_ok (it_key it) its
  end.

(** The offsets of the restart points, for entries that start at [off]. *)
Fixpoint restart_offsets (off : Z) (its : list item) : list Z :=
  match its with
  | [] => []
  | it :: its =>
    let rest := restart_offsets (off + blen (item_bytes it)) its in
    if it_restart it then off :: rest else rest
  end.

(** What [restarts_] holds: the first entry is always a restart point, and an
    empty block has one at offset 0. *)
Definition block_restarts (its : list item) : list Z :=
  match its with [] => [0] | _ => restart_offsets 0 its end.

Definition first_restarts (its : list item) : Prop :=
  match its with [] => True | it :: _ => it_restart it = true end.

(** The key/value pairs a block stores. *)
Definition it_entry (it : item) : bytes * bytes := (it_key it, it_value it).

(** * The builder keeps the layout *)

Definition last_key_of (prev : bytes) (its : list item) : bytes :=
  match last its with Some it => it_key it | None => prev end.

Lemma items_bytes_app l k : items_bytes (l ++ k) = items_bytes l ++ items_bytes k.
Proof. unfold items_bytes. by rewrite fmap_app, concat_app. Qed.

Lemma items_bytes_cons it l : items_bytes (it :: l) = item_bytes it ++ items_bytes l.
Proof. done. Qed.

Lemma last_key_of_cons prev it its : last_key_of prev (it :: its) = last_key_of (it_key it) its.
Proof.
  unfold last_key_of. rewrite last_cons. by destruct (last its).
Qed.

Lemma items_ok_snoc prev its it :
  items_ok prev (its ++ [it]) <-> items_ok prev its /\ items_ok (last_key_of prev its) [it].
Proof.
  revert prev. induction its as [|it' its IH]; intros prev; cbn [app items_ok].
  - unfold last_key_of. cbn. tauto.
  - rewrite IH, last_key_of_cons. cbn [items_ok]. tauto.
Qed.

Lemma restart_offsets_snoc off its it :
  restart_offsets off (its ++ [it]) =
  restart_offsets off its ++ (if it_restart it then [off + blen (items_bytes its)] else []).
Proof.
  revert off. induction its as [|it' its IH]; intros off; cbn [app restart_offsets].
  - change (items_bytes []) with (@nil byte). rewrite blen_nil, Z.add_0_r. by destruct (it_restart it).
  - rewrite IH, items_bytes_cons, blen_app, Z.add_assoc. by destruct (it_restart it').
Qed.

Lemma common_prefix_take a b :
  (common_prefix a b <= length a)%nat /\ (common_prefix a b <= length b)%nat /\
  take (common_prefix a b) b = take (common_prefix a b) a.
Proof.
  destruct (common_prefix_spec a b) as (p & a' & b' & Ha & Hb & Hl & _).
  rewrite <- Hl, Ha, Hb, !take_app_length, !length_app. split_and!; [lia..|done].
Qed.

(** The state between calls: [its] is what was added since [Reset]. *)
Record builder_ok (b : BlockBuilder) (its : list item) : Prop := {
  bo_buffer : buffer_ b = items_bytes its;
  bo_restarts : restarts_ b = block_restarts its;
  bo_items : items_ok [] its;
  bo_first : first_restarts its;
  bo_last : last_key_ b = last_key_of [] its;
  bo_counter : 0 <= counter_ b /\ (its = [] -> counter_ b = 0);
  bo_finished : finished_ b = false;
}.

Lemma builder_ok_new : builder_ok BlockBuilder_new [].
Proof. by split. Qed.

Lemma builder_ok_Reset b : builder_ok (Reset b) [].
Proof. by split. Qed.

(** The entry [Add] appends. *)
Definition new_item (options : Options) (b : BlockBuilder) (key value : bytes) : item :=
  let compress := counter_ b <? block_restart_interval options in
  {| it_restart := negb compress || bool_decide (buffer_ b = []);
     it_shared := if compress then common_prefix (last_key_ b) key else 0%nat;
     it_key := key; it_value := value |}.

Lemma Add_buffer options b key value :
  blen key < 2 ^ 32 -> blen value < 2 ^ 32 ->
  buffer_ (Add options b key value) = buffer_ b ++ item_bytes (new_item options b key value).
Proof.
  intros Hk Hv. unfold Add, item_bytes, new_item, PutVarint32. cbn [buffer_ it_shared it_key it_value].
  set (shared := if counter_ b <? _ then _ else _).
  assert (shared <= length key)%nat as Hs.
  { unfold shared. destruct (_ <? _); [apply common_prefix_take|lia]. }
  pose proof (blen_nonneg value). unfold u32. rewrite !Z.mod_small by (unfold blen in *; lia).
  by rewrite <- !app_assoc.
Qed.

Lemma items_bytes_nil its : items_bytes its = [] -> its = [].
Proof.
  destruct its as [|it its]; [done|]. rewrite items_bytes_cons. unfold item_bytes.
  pose proof (EncodeVarint32_length (Z.of_nat (it_shared it))).
  intros E%(f_equal (@length byte)). rewrite !length_app in E. simpl in E. lia.
Qed.

Lemma last_key_of_snoc prev its it : last_key_of prev (its ++ [it]) = it_key it.
Proof. unfold last_key_of. by rewrite last_snoc. Qed.

Lemma builder_ok_Add options b its key value :
  builder_ok b its -> 1 <= block_restart_interval options ->
  blen key < 2 ^ 32 -> blen value < 2 ^ 32 -> blen (buffer_ b) < 2 ^ 32 ->
  builder_ok (Add options b key value) (its ++ [new_item options b key value]).
Proof.
  intros [Hbuf Hres Hits Hfirst Hlast [Hc0 Hc] Hfin] Hi Hk Hv Hsz.
  set (it := new_item options b key value).
  assert (its = [] -> (counter_ b <? block_restart_interval options) = true) as Hcomp.
  { intros ->. apply Z.ltb_lt. rewrite Hc by done. lia. }
  assert (its = [] <-> buffer_ b = []) as Hemp.
  { rewrite Hbuf. split; [by intros ->|apply items_bytes_nil]. }
  assert (take (it_shared it) (last_key_ b) ++ drop (it_shared it) key = key) as Hkey.
  { unfold it, new_item. cbn [it_shared]. destruct (_ <? _); [|done].
    destruct (common_prefix_take (last_key_ b) key) as (_ & _ & <-). apply take_drop. }
  split.
  - rewrite Add_buffer, items_bytes_app, Hbuf by done. unfold items_bytes at 2. cbn. by rewrite app_nil_r.
  - cbn [Add restarts_]. rewrite Hres.
    destruct (counter_ b <? block_restart_interval options) eqn:Ec.
    + destruct its as [|it0 its'].
      * cbn [block_restarts app restart_offsets]. unfold it, new_item. cbn [it_restart].
        by rewrite bool_decide_eq_true_2, orb_true_r by (by apply Hemp).
      * assert (it_restart it = false) as Hr.
        { unfold it, new_item. cbn [it_restart]. rewrite Ec, bool_decide_eq_false_2; [done|]. by rewrite <- Hemp. }
        change (block_restarts ((it0 :: its') ++ [it])) with (restart_offsets 0 ((it0 :: its') ++ [it])).
        by rewrite restart_offsets_snoc, Hr, app_nil_r.
    + assert (it_restart it = true) as Hr by (unfold it, new_item; cbn [it_restart]; by rewrite Ec).
      destruct its as [|it0 its']; [by discriminate Hcomp|].
      change (block_restarts ((it0 :: its') ++ [it])) with (restart_offsets 0 ((it0 :: its') ++ [it])).
      rewrite restart_offsets_snoc, Hr, <- Hbuf. unfold u32. rewrite Z.mod_small; [done|].
      pose proof (blen_nonneg (buffer_ b)). lia.
  - apply items_ok_snoc. split; [done|]. rewrite <- Hlast. cbn [items_ok].
    assert (it_restart it = true -> it_shared it = 0%nat) as Hsh.
    { unfold it, new_item. cbn [it_restart it_shared]. destruct (_ <? _); [|done]. cbn [negb orb].
      intros Hb%bool_decide_eq_true. apply Hemp in Hb as ->. rewrite Hlast. done. }
    unfold it, new_item in *. cbn [it_shared it_key] in *. destruct (_ <? _); [|split_and!; (done || lia)].
    destruct (common_prefix_take (last_key_ b) key) as (? & ? & ?). done.
  - destruct its as [|it0 its']; [|exact Hfirst]. cbn. unfold it, new_item. cbn [it_restart].
    by rewrite bool_decide_eq_true_2, orb_true_r by (by apply Hemp).
  - rewrite last_key_of_snoc. exact Hkey.
  - cbn [Add counter_]. split; [destruct (_ <? _); lia|]. by intros [? ?]%app_nil.
  - done.
Qed.

(** All entries, in order. *)
Definition AddAll (options : Options) (b : BlockBuilder) (kvs : list (bytes * bytes)) : BlockBuilder :=
  fold_left (fun b kv => Add options b kv.1 kv.2) kvs b.

Lemma Add_buffer_mono options b key value : blen (buffer_ b) <= blen (buffer_ (Add options b key value)).
Proof. unfold Add, PutVarint32. cbn [buffer_]. len. Qed.

Lemma AddAll_buffer_mono options b kvs : blen (buffer_ b) <= blen (buffer_ (AddAll options b kvs)).
Proof.
  revert b. induction kvs as [|[k v] kvs IH]; intros b; [done|]. cbn.
  etrans; [apply (Add_buffer_mono options b k v)|apply IH].
Qed.

(** Without a shared prefix the whole key is in the buffer. *)
Lemma Add_unshared_le o b key value :
  (counter_ b <? block_restart_interval o = true -> last_key_ b = []) ->
  blen key + blen value <= blen (buffer_ (Add o b key value)).
Proof.
  intros Hl. unfold Add, PutVarint32. cbn [buffer_]. destruct (counter_ b <? _); [rewrite Hl by done; cbn [common_prefix]|];
    rewrite !blen_app; cbn [drop]; rewrite ?drop_0;
    repeat match goal with |- context [EncodeVarint32 ?v] => pose proof (blen_nonneg (EncodeVarint32 v)); generalize dependent (EncodeVarint32 v); intros end;
    pose proof (blen_nonneg (buffer_ b)); lia.
Qed.

(** An index block has a restart point at every entry. *)
Lemma AddAll_unshared_le o b kvs : block_restart_interval o = 1 -> 0 <= counter_ b -> (counter_ b = 0 -> last_key_ b = []) ->
  Forall (fun kv => blen kv.1 + blen kv.2 <= blen (buffer_ (AddAll o b kvs))) kvs.
Proof.
  intros Ho. revert b. induction kvs as [|[k v] kvs IH]; intros b Hc Hl; [constructor|].
  cbn [AddAll fold_left fst snd]. change (fold_left _ kvs ?x) with (AddAll o x kvs). constructor.
  - cbn [fst snd]. etrans; [apply (Add_unshared_le o b)|apply AddAll_buffer_mono].
    rewrite Ho, Z.ltb_lt. intros. apply Hl. lia.
  - apply IH; cbn [Add counter_]; destruct (_ <? _) eqn:E; try lia.
Qed.

Definition small_kv (kv : bytes * bytes) : Prop := blen kv.1 < 2 ^ 32 /\ blen kv.2 < 2 ^ 32.

Lemma AddAll_ok options b its kvs :
  builder_ok b its -> 1 <= block_restart_interval options -> Forall small_kv kvs ->
  blen (buffer_ (AddAll options b kvs)) < 2 ^ 32 ->
  exists its', builder_ok (AddAll options b kvs) (its ++ its') /\ it_entry <$> its' = kvs.
Proof.
  intros Hb Hi Hkvs. revert b its Hb. induction Hkvs as [|[k v] kvs [Hk Hv] Hkvs IH]; intros b its Hb Hsz.
  { exists []. by rewrite app_nil_r. }
  cbn [AddAll fold_left fst snd] in *. change (fold_left _ kvs ?x) with (AddAll options x kvs) in *.
  pose proof (AddAll_buffer_mono options (Add options b k v) kvs).
  pose proof (Add_buffer_mono options b k v).
  destruct (IH _ _ (builder_ok_Add options b its k v Hb Hi Hk Hv ltac:(lia)) Hsz) as (its' & Hok & He).
  exists (new_item options b k v :: its'). split; [|cbn; by rewrite He].
  by rewrite <- app_assoc in Hok.
Qed.

(** The finished block. *)
Definition block_bytes {port : Port} (its : list item) : bytes :=
  items_bytes its ++ concat (EncodeFixed32 <$> block_restarts its) ++
  EncodeFixed32 (blen (block_restarts its)).

Lemma Finish_bytes {port : Port} b its :
  builder_ok b its -> blen (block_restarts its) < 2 ^ 32 -> (Finish b).1 = block_bytes its.
Proof.
  intros Hb Hn. unfold Finish, block_bytes. cbn [fst].
  rewrite fold_PutFixed32, (bo_buffer _ _ Hb), (bo_restarts _ _ Hb). unfold PutFixed32, u32.
  rewrite Z.mod_small by (pose proof (blen_nonneg (block_restarts its)); lia). by rewrite <- app_assoc.
Qed.

(** [CurrentSizeEstimate] is exact: it is the size of the block that
    [Finish] returns, for every builder state. *)
Theorem CurrentSizeEstimate_exact {port : Port} (b : BlockBuilder) :
  blen (Finish b).1 = CurrentSizeEstimate b.
Proof.
  unfold Finish, CurrentSizeEstimate. cbn [fst]. rewrite fold_PutFixed32. unfold PutFixed32.
  rewrite !blen_app. rewrite length_encoded. len.
Qed.
