(* ===== verification/Iterator.v ===== *)
(** The iterator interface of [include/leveldb/iterator.h] and the base class
    of [table/iterator.cpp].

    An iterator is a state with operations; [IteratorOk] says that it walks a
    given list of entries.  Block iterators keep the promise, and iterators
    built from iterators are proved against it. *)

From Stdlib Require Import Sorted.
From S2P Require Import Prelude Status.

Class IteratorOps (I : Type) := {
  Valid : I -> bool;
  SeekToFirst : I -> I;
  SeekToLast : I -> I;
  Seek : bytes -> I -> I;
  Next : I -> I;
  Prev : I -> I;
  iter_key : I -> bytes;
  iter_value : I -> bytes;
  status : I -> Status;
}.

(** The number of leading entries before [target]: the index [Seek] finds. *)
Fixpoint seek_index (Compare : bytes -> bytes -> Z) (target : bytes) (entries : list (bytes * bytes)) : nat :=
  match entries with
  | [] => 0%nat
  | (k, _) :: entries => if Compare k target <? 0 then S (seek_index Compare target entries) else 0%nat
  end.

Lemma seek_index_split cmp target l1 l2 :
  Forall (fun kv => cmp kv.1 target < 0) l1 -> Forall (fun kv => ~ cmp kv.1 target < 0) l2 ->
  seek_index cmp target (l1 ++ l2) = length l1.
Proof.
  intros H1 H2. induction H1 as [|[k v] l1 Hk _ IH]; cbn [app seek_index length fst] in *.
  - destruct H2 as [|[k v] l2 Hk _]; [done|]. cbn [seek_index fst] in *. by rewrite (proj2 (Z.ltb_ge _ _)) by lia.
  - rewrite (proj2 (Z.ltb_lt _ _)) by done. by rewrite IH.
Qed.

Lemma seek_index_spec cmp target l :
  Forall (fun kv => cmp kv.1 target < 0) (take (seek_index cmp target l) l) /\
  (forall x, l !! seek_index cmp target l = Some x -> ~ cmp x.1 target < 0).
Proof.
  induction l as [|[k v] l [IH1 IH2]]; cbn [seek_index]; [split; [constructor|done]|].
  destruct (Z.ltb_spec (cmp k target) 0); cbn [take]; [by split; [constructor|]|].
  split; [constructor|]. intros x [= <-]. cbn. lia.
Qed.

Lemma seek_index_app_lt cmp target l1 l2 : Forall (fun kv => cmp kv.1 target < 0) l1 ->
  seek_index cmp target (l1 ++ l2) = (length l1 + seek_index cmp target l2)%nat.
Proof.
  induction 1 as [|[k v] l1 Hk _ IH]; cbn [app seek_index length fst] in *; [done|].
  by rewrite (proj2 (Z.ltb_lt _ _)), IH.
Qed.

Lemma seek_index_app_ge cmp target l1 l2 : Forall (fun kv => ~ cmp kv.1 target < 0) l2 ->
  seek_index cmp target (l1 ++ l2) = seek_index cmp target l1.
Proof.
  intros H2. induction l1 as [|[k v] l1 IH]; cbn [app seek_index].
  - destruct H2 as [|[k v] l2 Hk _]; [done|]. cbn [seek_index fst] in *. by rewrite (proj2 (Z.ltb_ge _ _)) by lia.
  - by rewrite IH.
Qed.

Lemma seek_index_mono c l k k' : (forall a, a ∈ l -> c a.1 k < 0 -> c a.1 k' < 0) ->
  (seek_index c k l <= seek_index c k' l)%nat.
Proof.
  induction l as [|[x v] l IH]; intros Hl; cbn [seek_index]; [done|].
  destruct (Z.ltb_spec (c x k) 0) as [Hlt|]; [|lia]. apply (Hl (x, v)) in Hlt; [|by left]. cbn in Hlt.
  rewrite (proj2 (Z.ltb_lt _ _)) by done. apply le_n_S, IH. intros a Ha. apply Hl. by right.
Qed.

Lemma seek_index_found c l k v : (forall a, a ∈ l -> c a.1 a.1 = 0) ->
  StronglySorted (fun a b => c a.1 b.1 < 0) l -> (k, v) ∈ l -> l !! seek_index c k l = Some (k, v).
Proof.
  intros Hrefl Hs. induction Hs as [|[k' v'] l Hs IH Hx]; intros Hin; [by inversion Hin|]. cbn [seek_index].
  apply elem_of_cons in Hin as [[= <- <-]|Hin].
  - rewrite (proj2 (Z.ltb_ge _ _)); [done|]. pose proof (Hrefl (k, v) ltac:(by left)). cbn in *. lia.
  - rewrite Forall_forall in Hx. specialize (Hx _ Hin). cbn in Hx. rewrite (proj2 (Z.ltb_lt _ _)) by done.
    apply IH; [|done]. intros a Ha. apply Hrefl. by right.
Qed.

(** [at_ it n]: [it] stands at entry [n]; [n = length entries] is the invalid
    position.  [inv] is what every operation keeps, [seekable] the targets
    [Seek] may be called with. *)
Class IteratorOk {I : Type} `{!IteratorOps I} (Compare : bytes -> bytes -> Z) (seekable : bytes -> Prop)
    (entries : list (bytes * bytes)) (inv : I -> Prop) (at_ : I -> nat -> Prop) : Prop := {
  at_inv it n : at_ it n -> inv it;
  at_range it n : at_ it n -> (n <= length entries)%nat;
  Valid_at it n : at_ it n -> Valid it = true <-> (n < length entries)%nat;
  entry_at it n k v : at_ it n -> entries !! n = Some (k, v) -> iter_key it = k /\ iter_value it = v;
  status_at it n : at_ it n -> ok (status it) = true;
  SeekToFirst_at it : inv it -> at_ (SeekToFirst it) 0%nat;
  SeekToLast_at it : inv it -> at_ (SeekToLast it) (length entries - 1)%nat;
  Seek_at it target : inv it -> seekable target -> at_ (Seek target it) (seek_index Compare target entries);
  Next_at it n : at_ it n -> (n < length entries)%nat -> at_ (Next it) (S n);
  Prev_at it n : at_ it n -> (n < length entries)%nat ->
    at_ (Prev it) (match n with O => length entries | S m => m end);
}.

(** * The base class: cleanups *)

(** [cleanup_] is embedded in the iterator; further nodes hang off its [next]
    in a singly linked list.  A cleanup is named by the call it makes. *)
Record Cleanups (C : Type) := mkCleanups { cleanup_function : option C; cleanup_next : list C }.
#[global] Arguments mkCleanups {C}.
#[global] Arguments cleanup_function {C}.
#[global] Arguments cleanup_next {C}.

Section cleanup.
Context {C : Type}.

Definition Iterator_new : Cleanups C := mkCleanups None [].

Definition RegisterCleanup (c : Cleanups C) (func : C) : Cleanups C :=
  match cleanup_function c with
  | None => mkCleanups (Some func) (cleanup_next c)
  | Some _ => mkCleanups (cleanup_function c) (func :: cleanup_next c)
  end.

(** The calls the destructor makes, in order. *)
Definition Iterator_destroy (c : Cleanups C) : list C :=
  match cleanup_function c with
  | None => []
  | Some f => f :: cleanup_next c
  end.

Lemma RegisterCleanup_fold fs f l :
  fold_left RegisterCleanup fs (mkCleanups (Some f) l) = mkCleanups (Some f) (rev fs ++ l).
Proof.
  revert l. induction fs as [|g fs IH]; intros l; cbn; [done|]. rewrite IH. by rewrite <- app_assoc.
Qed.

(** Every registered cleanup runs exactly once when the iterator is
    destroyed: the first one first, the others in reverse order of their
    registration. *)
Theorem RegisterCleanup_runs_once (f : C) (fs : list C) :
  Iterator_destroy (fold_left RegisterCleanup (f :: fs) Iterator_new) = f :: rev fs /\
  Iterator_destroy (fold_left RegisterCleanup (f :: fs) Iterator_new) ≡ₚ f :: fs.
Proof.
  assert (Iterator_destroy (fold_left RegisterCleanup (f :: fs) Iterator_new) = f :: rev fs) as ->.
  { cbn [fold_left]. unfold RegisterCleanup at 2. cbn. rewrite RegisterCleanup_fold. cbn. by rewrite app_nil_r. }
  split; [done|]. by rewrite <- Permutation_rev.
Qed.

End cleanup.

(** * The empty iterator *)

Record EmptyIterator := { empty_status : Status }.

Definition NewEmptyIterator : EmptyIterator := {| empty_status := OK |}.
Definition NewErrorIterator (s : Status) : EmptyIterator := {| empty_status := s |}.

(** [Next], [Prev], [key] and [value] assert that they are not called. *)
#[export] Instance EmptyIterator_ops : IteratorOps EmptyIterator := {
  Valid _ := false;
  SeekToFirst it := it;
  SeekToLast it := it;
  Seek _ it := it;
  Next it := it;
  Prev it := it;
  iter_key _ := [];
  iter_value _ := [];
  status := empty_status;
}.

#[export] Instance NewEmptyIterator_ok cmp seekable :
  IteratorOk cmp seekable [] (fun it => it = NewEmptyIterator)
    (fun it n => it = NewEmptyIterator /\ n = 0%nat).
Proof.
  split; cbn; try (by intros ?? [-> ->]); try (by intros ? ->); try (intros; lia).
  - by intros it n k v [-> ->] ?.
  - by intros it target ->.
Qed.

(** * The reference iterator *)

(** A list and an index into it: what every iterator is compared with. *)
Record ListIterator := mkListIterator {
  li_compare : bytes -> bytes -> Z;
  li_entries : list (bytes * bytes);
  li_index : nat;
}.

Definition li_move (it : ListIterator) (n : nat) : ListIterator :=
  mkListIterator (li_compare it) (li_entries it) n.

#[export] Instance ListIterator_ops : IteratorOps ListIterator := {
  Valid it := bool_decide (li_index it < length (li_entries it))%nat;
  SeekToFirst it := li_move it 0;
  SeekToLast it := li_move it (length (li_entries it) - 1);
  Seek t it := li_move it (seek_index (li_compare it) t (li_entries it));
  Next it := li_move it (S (li_index it));
  Prev it := li_move it (match li_index it with O => length (li_entries it) | S m => m end);
  iter_key it := default [] (fst <$> li_entries it !! li_index it);
  iter_value it := default [] (snd <$> li_entries it !! li_index it);
  status _ := OK;
}.

Lemma seek_index_le cmp t entries : (seek_index cmp t entries <= length entries)%nat.
Proof. induction entries as [|[k v] l IH]; cbn [seek_index length]; [lia|]. destruct (_ <? 0); lia. Qed.

#[export] Instance ListIterator_ok cmp seekable entries :
  IteratorOk cmp seekable entries
    (fun it => li_compare it = cmp /\ li_entries it = entries)
    (fun it n => (li_compare it = cmp /\ li_entries it = entries) /\ li_index it = n /\ (n <= length entries)%nat).
Proof.
  split; cbn.
  - by intros it n (? & _).
  - by intros it n (_ & _ & ?).
  - intros it n ((_ & ->) & -> & _). by rewrite bool_decide_eq_true.
  - intros it n k v ((_ & ->) & -> & _) ->. done.
  - done.
  - intros it (-> & ->). split_and!; try done. lia.
  - intros it (-> & ->). split_and!; try done. lia.
  - intros it t (-> & ->) _. split_and!; try done. apply seek_index_le.
  - intros it n ((-> & ->) & -> & _) Hn. by split_and!.
  - intros it n ((-> & ->) & -> & _) Hn. split_and!; try done. destruct n; lia.
Qed.

(** * Walking an iterator *)

Section walk.
Context {I : Type} `{!IteratorOps I}.

Fixpoint collect (fuel : nat) (it : I) : list (bytes * bytes) :=
  match fuel with
  | O => []
  | S fuel => if Valid it then (iter_key it, iter_value it) :: collect fuel (Next it) else []
  end.

Fixpoint collect_back (fuel : nat) (it : I) : list (bytes * bytes) :=
  match fuel with
  | O => []
  | S fuel => if Valid it then (iter_key it, iter_value it) :: collect_back fuel (Prev it) else []
  end.

Context `{!IteratorOk Compare seekable entries inv at_}.

Lemma Valid_at_true it n : at_ it n -> (n < length entries)%nat -> Valid it = true.
Proof. intros Ha. by apply (Valid_at it n). Qed.

Lemma Valid_at_false it : at_ it (length entries) -> Valid it = false.
Proof.
  intros Ha. pose proof (Valid_at it _ Ha) as H. destruct (Valid it); [|done].
  destruct H as [H _]. specialize (H eq_refl). lia.
Qed.

Lemma collect_at fuel it n : at_ it n -> (length entries - n < fuel)%nat -> collect fuel it = drop n entries.
Proof.
  revert it n. induction fuel as [|fuel IH]; intros it n Ha Hf; [lia|]. cbn [collect].
  pose proof (at_range it n Ha). destruct (decide (n = length entries)) as [->|].
  - by rewrite Valid_at_false, drop_all.
  - destruct (lookup_lt_is_Some_2 entries n) as [[k v] Hkv]; [lia|].
    rewrite (Valid_at_true it n) by (done || lia).
    destruct (entry_at it n k v Ha Hkv) as [-> ->]. erewrite drop_S by done. f_equal.
    apply IH; [|lia]. apply Next_at; [done|lia].
Qed.

Lemma collect_back_at fuel it n : at_ it n -> (n < length entries)%nat -> (n + 1 < fuel)%nat ->
  collect_back fuel it = rev (take (S n) entries).
Proof.
  revert it n. induction fuel as [|fuel IH]; intros it n Ha Hn Hf; [lia|]. cbn [collect_back].
  destruct (lookup_lt_is_Some_2 entries n Hn) as [[k v] Hkv].
  rewrite (Valid_at_true it n) by done. destruct (entry_at it n k v Ha Hkv) as [-> ->].
  erewrite take_S_r by done. rewrite rev_app_distr. cbn [rev app]. f_equal.
  pose proof (Prev_at it n Ha Hn) as Hp. destruct n as [|n].
  - destruct fuel as [|fuel]; [lia|]. cbn. by rewrite Valid_at_false.
  - apply IH; [done|lia|lia].
Qed.

End walk.

(** A promise kept for every [x] that satisfies [P]. *)
Lemma IteratorOk_exists {I X : Type} `{!IteratorOps I} cmp seekable entries (P : X -> Prop)
    (inv : X -> I -> Prop) (at_ : X -> I -> nat -> Prop) :
  (forall x, P x -> IteratorOk cmp seekable entries (inv x) (at_ x)) ->
  IteratorOk cmp seekable entries (fun it => exists x, P x /\ inv x it) (fun it n => exists x, P x /\ at_ x it n).
Proof.
  intros Hok. split.
  - intros it n (x & Hx & Ha). exists x. split; [done|]. specialize (Hok x Hx). by eapply at_inv.
  - intros it n (x & Hx & Ha). specialize (Hok x Hx). by eapply at_range.
  - intros it n (x & Hx & Ha). specialize (Hok x Hx). by eapply Valid_at.
  - intros it n k v (x & Hx & Ha). specialize (Hok x Hx). by eapply entry_at.
  - intros it n (x & Hx & Ha). specialize (Hok x Hx). by eapply status_at.
  - intros it (x & Hx & Hi). exists x. split; [done|]. specialize (Hok x Hx). by apply SeekToFirst_at.
  - intros it (x & Hx & Hi). exists x. split; [done|]. specialize (Hok x Hx). by apply SeekToLast_at.
  - intros it t (x & Hx & Hi) Ht. exists x. split; [done|]. specialize (Hok x Hx). by apply Seek_at.
  - intros it n (x & Hx & Ha) Hn. exists x. split; [done|]. specialize (Hok x Hx). by apply Next_at.
  - intros it n (x & Hx & Ha) Hn. exists x. split; [done|]. specialize (Hok x Hx). by apply Prev_at.
Qed.

(** * Virtual calls *)

(** [R k j]: every call on [k], an object of a dynamic type [K], goes to the
    iterator [j] inside it. *)
Class Dispatches {J K : Type} `{!IteratorOps J} `{!IteratorOps K} (R : K -> J -> Prop) : Prop := {
  dispatch_Valid k j : R k j -> Valid k = Valid j;
  dispatch_SeekToFirst k j : R k j -> R (SeekToFirst k) (SeekToFirst j);
  dispatch_SeekToLast k j : R k j -> R (SeekToLast k) (SeekToLast j);
  dispatch_Seek t k j : R k j -> R (Seek t k) (Seek t j);
  dispatch_Next k j : R k j -> R (Next k) (Next j);
  dispatch_Prev k j : R k j -> R (Prev k) (Prev j);
  dispatch_key k j : R k j -> iter_key k = iter_key j;
  dispatch_value k j : R k j -> iter_value k = iter_value j;
  dispatch_status k j : R k j -> status k = status j;
}.

Definition lift_inv {J K : Type} (R : K -> J -> Prop) (inv : J -> Prop) (k : K) : Prop := exists j, R k j /\ inv j.
Definition lift_at {J K : Type} (R : K -> J -> Prop) (at_ : J -> nat -> Prop) (k : K) (n : nat) : Prop :=
  exists j, R k j /\ at_ j n.

(** The object keeps the promise of the iterator inside it. *)
Lemma dispatch_ok {J K : Type} `{!IteratorOps J} `{!IteratorOps K} (R : K -> J -> Prop) `{!Dispatches R}
    cmp seekable entries inv at_ : IteratorOk cmp seekable entries inv at_ ->
  IteratorOk cmp seekable entries (lift_inv R inv) (lift_at R at_).
Proof.
  intros Hok. split.
  - intros k n (j & HR & Ha). exists j. split; [done|]. by eapply at_inv.
  - intros k n (j & HR & Ha). by eapply at_range.
  - intros k n (j & HR & Ha). rewrite (dispatch_Valid k j HR). by apply Valid_at.
  - intros k n key v (j & HR & Ha). rewrite (dispatch_key k j HR), (dispatch_value k j HR). by apply entry_at.
  - intros k n (j & HR & Ha). rewrite (dispatch_status k j HR). by eapply status_at.
  - intros k (j & HR & Hi). eexists. split; [by apply dispatch_SeekToFirst|]. by apply SeekToFirst_at.
  - intros k (j & HR & Hi). eexists. split; [by apply dispatch_SeekToLast|]. by apply SeekToLast_at.
  - intros k t (j & HR & Hi) Ht. eexists. split; [by apply dispatch_Seek|]. by apply Seek_at.
  - intros k n (j & HR & Ha) Hn. eexists. split; [by apply dispatch_Next|]. by apply Next_at.
  - intros k n (j & HR & Ha) Hn. eexists. split; [by apply dispatch_Prev|]. by apply Prev_at.
Qed.

(** An object of one of two types. *)
#[export] Instance sum_ops {A B : Type} `{!IteratorOps A} `{!IteratorOps B} : IteratorOps (A + B) := {
  Valid it := match it with inl a => Valid a | inr b => Valid b end;
  SeekToFirst it := match it with inl a => inl (SeekToFirst a) | inr b => inr (SeekToFirst b) end;
  SeekToLast it := match it with inl a => inl (SeekToLast a) | inr b => inr (SeekToLast b) end;
  Seek t it := match it with inl a => inl (Seek t a) | inr b => inr (Seek t b) end;
  Next it := match it with inl a => inl (Next a) | inr b => inr (Next b) end;
  Prev it := match it with inl a => inl (Prev a) | inr b => inr (Prev b) end;
  iter_key it := match it with inl a => iter_key a | inr b => iter_key b end;
  iter_value it := match it with inl a => iter_value a | inr b => iter_value b end;
  status it := match it with inl a => status a | inr b => status b end;
}.

#[export] Instance inr_dispatches {A B : Type} `{!IteratorOps A} `{!IteratorOps B} :
  Dispatches (fun (it : A + B) b => it = inr b).
Proof. split; by intros; subst. Qed.
