(* ===== verification/Block.v ===== *)
(** Blocks and their iterators: [table/block.h] and [table/block.cpp].  On
    every block the builder produces, the iterator is proved to walk exactly
    the entries that were added, in both directions, and its [Seek] (a binary
    search over the restart points, then a linear scan) to find the first
    entry at or past the target. *)

From Stdlib Require Import Sorted.
From S2P Require Import Prelude Port Coding Status Comparator Options BlockBuilder Iterator.

(** * Blocks *)

(** [contents] are the bytes behind [data_]; [size_ = 0] marks an error. *)
Record Block := { data_ : bytes; size_ : Z; restart_offset_ : Z }.

Section block.
Context {port : Port}.

(** [NumRestarts] of a block whose size is [size]. *)
Definition NumRestarts (data : bytes) (size : Z) : Z := DecodeFixed32 (drop (Z.to_nat (size - 4)) data).

Definition Block_new (contents : bytes) : Block :=
  let size := blen contents in
  if size <? 4 then {| data_ := contents; size_ := 0; restart_offset_ := 0 |}
  else
    let max_restarts_allowed := (size - 4) / 4 in
    if max_restarts_allowed <? NumRestarts contents size
    then {| data_ := contents; size_ := 0; restart_offset_ := 0 |}
    else {| data_ := contents; size_ := size;
            restart_offset_ := u32 (size - (1 + NumRestarts contents size) * 4) |}.

(** The bytes from [p] to the limit; the result has the three lengths and the
    bytes from the key delta on.  The sum of the lengths wraps at 32 bits. *)
Definition DecodeEntry (p : bytes) : option (Z * Z * Z * bytes) :=
  if blen p <? 3 then None
  else
    let shared := ptr_byte p 0 in
    let non_shared := ptr_byte p 1 in
    let value_length := ptr_byte p 2 in
    match
      (if Z.lor (Z.lor shared non_shared) value_length <? 128
       then Some (shared, non_shared, value_length, drop 3 p)
       else
         '(shared, p) ← GetVarint32Ptr p;
         '(non_shared, p) ← GetVarint32Ptr p;
         '(value_length, p) ← GetVarint32Ptr p;
         Some (shared, non_shared, value_length, p))
    with
    | None => None
    | Some (shared, non_shared, value_length, p) =>
      if u32 (blen p) <? u32 (non_shared + value_length) then None
      else Some (shared, non_shared, value_length, p)
    end.

(** * The iterator *)

(** [value_] is a slice of the block: its offset and its length.  After
    [value_.clear()] it is not read before the next positioning. *)
Record Iter := mkIter {
  comparator_ : Comparator;
  iter_data_ : bytes;
  restarts_ : Z;
  num_restarts_ : Z;
  current_ : Z;
  restart_index_ : Z;
  key_ : bytes;
  value_offset_ : Z;
  value_size_ : Z;
  status_ : Status;
}.

Definition Iter_new (comparator : Comparator) (data : bytes) (restarts num_restarts : Z) : Iter :=
  {| comparator_ := comparator; iter_data_ := data; restarts_ := restarts;
     num_restarts_ := num_restarts; current_ := restarts; restart_index_ := num_restarts;
     key_ := []; value_offset_ := 0; value_size_ := 0; status_ := OK |}.

Definition set_position (it : Iter) (current restart_index : Z) : Iter :=
  mkIter (comparator_ it) (iter_data_ it) (restarts_ it) (num_restarts_ it) current restart_index
    (key_ it) (value_offset_ it) (value_size_ it) (status_ it).

Definition set_entry (it : Iter) (key : bytes) (offset size : Z) : Iter :=
  mkIter (comparator_ it) (iter_data_ it) (restarts_ it) (num_restarts_ it) (current_ it)
    (restart_index_ it) key offset size (status_ it).

Definition set_status (it : Iter) (s : Status) : Iter :=
  mkIter (comparator_ it) (iter_data_ it) (restarts_ it) (num_restarts_ it) (current_ it)
    (restart_index_ it) (key_ it) (value_offset_ it) (value_size_ it) s.

Definition NextEntryOffset (it : Iter) : Z := u32 (value_offset_ it + value_size_ it).

Definition GetRestartPoint (it : Iter) (index : Z) : Z :=
  DecodeFixed32 (drop (Z.to_nat (restarts_ it + index * 4)) (iter_data_ it)).

Definition SeekToRestartPoint (it : Iter) (index : Z) : Iter :=
  set_entry (set_position it (current_ it) index) [] (GetRestartPoint it index) 0.

(** The bytes of [[data_ + offset, data_ + restarts_)]. *)
Definition entry_region (it : Iter) (offset : Z) : bytes :=
  take (Z.to_nat (restarts_ it - offset)) (drop (Z.to_nat offset) (iter_data_ it)).

Definition mark_invalid (it : Iter) : Iter := set_position it (restarts_ it) (num_restarts_ it).

Definition CorruptionError (it : Iter) : Iter :=
  set_entry (set_status (mark_invalid it) (Corruption (bytes_of_string "bad entry in block") []))
    [] 0 0.

(** [while (restart_index_ + 1 < num_restarts_ && ...) ++restart_index_] *)
Fixpoint advance_restart_index (fuel : nat) (it : Iter) : Iter :=
  match fuel with
  | O => it
  | S fuel =>
    if (restart_index_ it + 1 <? num_restarts_ it) &&
       (GetRestartPoint it (restart_index_ it + 1) <? current_ it)
    then advance_restart_index fuel (set_position it (current_ it) (restart_index_ it + 1))
    else it
  end.

(** On a corrupt entry that passes the check of [DecodeEntry] because the sum
    wraps, the code reads on past the limit; here the key delta ends there. *)
Definition ParseNextKey (it : Iter) : bool * Iter :=
  let it := set_position it (NextEntryOffset it) (restart_index_ it) in
  if restarts_ it <=? current_ it then (false, mark_invalid it)
  else
    match DecodeEntry (entry_region it (current_ it)) with
    | None => (false, CorruptionError it)
    | Some (shared, non_shared, value_length, p) =>
      if blen (key_ it) <? shared then (false, CorruptionError it)
      else
        let key := take (Z.to_nat shared) (key_ it) ++ take (Z.to_nat non_shared) p in
        let it := set_entry it key (restarts_ it - blen p + non_shared) value_length in
        (true, advance_restart_index (Z.to_nat (num_restarts_ it)) it)
    end.

(** Every entry takes at least three bytes, so no scan has more turns than the
    block has bytes. *)
Definition scan_fuel (it : Iter) : nat := S (length (iter_data_ it)).

(** [do {} while (ParseNextKey() && NextEntryOffset() < limit)] *)
Fixpoint scan_before (fuel : nat) (limit : Z) (it : Iter) : Iter :=
  match fuel with
  | O => it
  | S fuel =>
    let '(more, it) := ParseNextKey it in
    if more && (NextEntryOffset it <? limit) then scan_before fuel limit it else it
  end.

(** The [while (true)] of [Seek]. *)
Fixpoint scan_to (fuel : nat) (target : bytes) (it : Iter) : Iter :=
  match fuel with
  | O => it
  | S fuel =>
    let '(more, it) := ParseNextKey it in
    if negb more then it
    else if 0 <=? Compare (comparator_ it) (key_ it) target then it
    else scan_to fuel target it
  end.

(** [while (GetRestartPoint(restart_index_) >= original)]: [None] when there
    are no more entries. *)
Fixpoint restart_before (fuel : nat) (it : Iter) (original index : Z) : option Z :=
  match fuel with
  | O => None
  | S fuel =>
    if original <=? GetRestartPoint it index then
      if index =? 0 then None else restart_before fuel it original (index - 1)
    else Some index
  end.

Definition Block_Prev (it : Iter) : Iter :=
  let original := current_ it in
  match restart_before (S (Z.to_nat (restart_index_ it))) it original (restart_index_ it) with
  | None => mark_invalid it
  | Some index => scan_before (scan_fuel it) original (SeekToRestartPoint it index)
  end.

(** The binary search: [None] is the corruption return.  Each turn halves
    [right - left]. *)
Fixpoint search_restarts (fuel : nat) (it : Iter) (target : bytes) (left right : Z) : option Z :=
  match fuel with
  | O => Some left
  | S fuel =>
    if left <? right then
      let mid := u32 (left + right + 1) / 2 in
      let region_offset := GetRestartPoint it mid in
      match DecodeEntry (entry_region it region_offset) with
      | None => None
      | Some (shared, non_shared, value_length, key_ptr) =>
        if negb (shared =? 0) then None
        else
          let mid_key := take (Z.to_nat non_shared) key_ptr in
          if Compare (comparator_ it) mid_key target <? 0
          then search_restarts fuel it target mid right
          else search_restarts fuel it target left (mid - 1)
      end
    else Some left
  end.

Definition Block_Seek (target : bytes) (it : Iter) : Iter :=
  match search_restarts (Z.to_nat (num_restarts_ it)) it target 0 (num_restarts_ it - 1) with
  | None => CorruptionError it
  | Some left_ => scan_to (scan_fuel it) target (SeekToRestartPoint it left_)
  end.

Definition Block_SeekToFirst (it : Iter) : Iter := snd (ParseNextKey (SeekToRestartPoint it 0)).

Definition Block_SeekToLast (it : Iter) : Iter :=
  scan_before (scan_fuel it) (restarts_ it) (SeekToRestartPoint it (num_restarts_ it - 1)).

#[export] Instance Iter_ops : IteratorOps Iter := {
  Valid it := current_ it <? restarts_ it;
  SeekToFirst := Block_SeekToFirst;
  SeekToLast := Block_SeekToLast;
  Seek := Block_Seek;
  Next it := snd (ParseNextKey it);
  Prev := Block_Prev;
  iter_key := key_;
  iter_value it := take (Z.to_nat (value_size_ it)) (drop (Z.to_nat (value_offset_ it)) (iter_data_ it));
  status := status_;
}.

(** [inl] is an empty or error iterator. *)
Definition Block_NewIterator (b : Block) (cmp : Comparator) : EmptyIterator + Iter :=
  if size_ b <? 4 then inl (NewErrorIterator (Corruption (bytes_of_string "bad block contents") []))
  else
    let num_restarts := NumRestarts (data_ b) (size_ b) in
    if num_restarts =? 0 then inl NewEmptyIterator
    else inr (Iter_new cmp (data_ b) (restart_offset_ b) num_restarts).

End block.

(** * Decoding one entry *)

Lemma lor_lt_128 a b c : 0 <= a -> 0 <= b -> 0 <= c ->
  Z.lor (Z.lor a b) c < 128 -> a < 128 /\ b < 128 /\ c < 128.
Proof.
  intros Ha Hb Hc Hl.
  assert (forall x, 0 <= x -> (forall i, 7 <= i -> Z.testbit x i = false) -> x < 128) as Hx
    by (intros x Hx Hi; apply (bits_bounded 7 x); [lia|done|done]).
  assert (forall i, 7 <= i -> Z.testbit a i = false /\ Z.testbit b i = false /\ Z.testbit c i = false) as Hbits.
  { intros i Hi. assert (Z.testbit (Z.lor (Z.lor a b) c) i = false) as E.
    { apply (testbit_above 7); [split; [rewrite !Z.lor_nonneg; auto|exact Hl]|done]. }
    rewrite !Z.lor_spec, !orb_false_iff in E. tauto. }
  split_and!; apply Hx; try done; apply Hbits.
Qed.

Lemma GetVarint32Ptr_one_byte b p : ub b < 128 -> GetVarint32Ptr (b :: p) = Some (ub b, p).
Proof.
  intros Hb. cbn [GetVarint32Ptr]. assert (Z.land (ub b) 128 = 0) as ->; [|done].
  apply Z.bits_inj_0. intros i. rewrite Z.land_spec. destruct (Z.eqb_spec i 7) as [->|Hi].
  - rewrite (testbit_above 7); [done|split; [apply ub_range|done]|lia].
  - change 128 with (2 ^ 7). rewrite Z.pow2_bits_false by lia. apply andb_false_r.
Qed.

(** The fast path for three short lengths reads what the three varints hold. *)
Lemma DecodeEntry_lengths p q r rest s n v :
  GetVarint32Ptr p = Some (s, q) -> GetVarint32Ptr q = Some (n, r) -> GetVarint32Ptr r = Some (v, rest) ->
  DecodeEntry p = if u32 (blen rest) <? u32 (n + v) then None else Some (s, n, v, rest).
Proof.
  intros Hp Hq Hr. unfold DecodeEntry. destruct (GetVarint32Ptr_range _ _ _ Hp) as (_ & k1 & Ep & L1).
  destruct (GetVarint32Ptr_range _ _ _ Hq) as (_ & k2 & Eq & L2), (GetVarint32Ptr_range _ _ _ Hr) as (_ & k3 & Er & L3).
  assert (3 <= length p)%nat as Hl by (rewrite Ep, Eq, Er, !length_app; lia).
  rewrite (proj2 (Z.ltb_ge _ 3)) by (unfold blen; lia). destruct (Z.ltb_spec (Z.lor (Z.lor (ptr_byte p 0) (ptr_byte p 1)) (ptr_byte p 2)) 128) as [Hfast|Hslow].
  - destruct p as [|b0 [|b1 [|b2 p]]]; [cbn in Hl; lia..|]. unfold ptr_byte in *. cbn [nth drop] in *. rewrite drop_0.
    apply lor_lt_128 in Hfast as (H0 & H1 & H2); try (apply ub_range). clear Ep Eq Er.
    rewrite GetVarint32Ptr_one_byte in Hp by done. injection Hp as <- <-.
    rewrite GetVarint32Ptr_one_byte in Hq by done. injection Hq as <- <-.
    rewrite GetVarint32Ptr_one_byte in Hr by done. by injection Hr as <- <-.
  - rewrite Hp. cbn [mbind option_bind]. rewrite Hq. cbn [mbind option_bind]. by rewrite Hr.
Qed.

Definition small_item (it : item) : Prop :=
  (it_shared it <= length (it_key it))%nat /\ blen (it_key it) < 2 ^ 32.

Lemma DecodeEntry_item it rest : small_item it -> blen (item_bytes it ++ rest) < 2 ^ 32 ->
  DecodeEntry (item_bytes it ++ rest) =
  Some (Z.of_nat (it_shared it), blen (it_key it) - Z.of_nat (it_shared it), blen (it_value it),
        drop (it_shared it) (it_key it) ++ it_value it ++ rest).
Proof.
  intros [Hs Hk] Hlen. unfold item_bytes in *. rewrite <- !app_assoc in *.
  set (s := Z.of_nat (it_shared it)) in *. set (n := blen (it_key it) - s) in *.
  set (v := blen (it_value it)) in *. set (tail := drop _ _ ++ it_value it ++ rest) in *.
  assert (n + v <= blen tail) as Htail by (unfold tail, n, v, s; len).
  assert (blen tail < 2 ^ 32) as Hts by (revert Hlen; rewrite !blen_app; pose proof (@blen_nonneg byte); intros;
    pose proof (blen_nonneg (EncodeVarint32 s)); pose proof (blen_nonneg (EncodeVarint32 n));
    pose proof (blen_nonneg (EncodeVarint32 v)); lia).
  assert (0 <= s < 2 ^ 32 /\ 0 <= n < 2 ^ 32 /\ 0 <= v < 2 ^ 32 /\ n + v < 2 ^ 32) as (Hs' & Hn & Hv & Hnv)
    by (unfold s, n, v, blen in *; lia).
  rewrite (DecodeEntry_lengths _ (EncodeVarint32 n ++ EncodeVarint32 v ++ tail) (EncodeVarint32 v ++ tail) tail s n v)
    by (by apply GetVarint32Ptr_Encode).
  unfold u32. rewrite !Z.mod_small by lia. by rewrite (proj2 (Z.ltb_ge _ _)).
Qed.

(** * The geometry of a built block *)

Definition item_offset (its : list item) (i : nat) : Z := blen (items_bytes (take i its)).

Lemma item_offset_0 its : item_offset its 0 = 0.
Proof. done. Qed.

Lemma item_offset_length its : item_offset its (length its) = blen (items_bytes its).
Proof. unfold item_offset. by rewrite take_ge. Qed.

Lemma item_offset_S its i it :
  its !! i = Some it -> item_offset its (S i) = item_offset its i + blen (item_bytes it).
Proof.
  intros Hi. unfold item_offset. erewrite take_S_r by done.
  rewrite items_bytes_app, blen_app. unfold items_bytes at 2. cbn. by rewrite app_nil_r.
Qed.

Lemma item_bytes_length it : 3 <= blen (item_bytes it).
Proof.
  unfold item_bytes. pose proof (EncodeVarint32_length (Z.of_nat (it_shared it))).
  pose proof (EncodeVarint32_length (blen (it_key it) - Z.of_nat (it_shared it))).
  pose proof (EncodeVarint32_length (blen (it_value it))). len.
Qed.

Lemma item_offset_lt its i j :
  (i < j <= length its)%nat -> item_offset its i + 3 * (Z.of_nat j - Z.of_nat i) <= item_offset its j.
Proof.
  intros [Hij Hj]. induction j as [|j IH]; [lia|].
  destruct (lookup_lt_is_Some_2 its j) as [it Hit]; [lia|]. rewrite (item_offset_S _ _ _ Hit).
  pose proof (item_bytes_length it). destruct (decide (i = j)) as [->|]; [lia|].
  specialize (IH ltac:(lia) ltac:(lia)). lia.
Qed.

Lemma item_offset_lt_iff its i j : (i <= length its)%nat -> (j <= length its)%nat ->
  item_offset its i < item_offset its j <-> (i < j)%nat.
Proof.
  intros Hi Hj. split; intros H.
  - destruct (decide (i < j)%nat) as [|Hn]; [done|]. destruct (decide (i = j)) as [->|]; [lia|].
    pose proof (item_offset_lt its j i ltac:(lia)). lia.
  - pose proof (item_offset_lt its i j ltac:(lia)). lia.
Qed.

(** Every restart offset is the offset of a restart entry. *)
Lemma restart_offsets_lookup all i j p :
  restart_offsets (item_offset all i) (drop i all) !! j = Some p ->
  exists r it, all !! r = Some it /\ p = item_offset all r /\ it_restart it = true.
Proof.
  remember (drop i all) as its eqn:E. revert i j E.
  induction its as [|it its IH]; intros i j E; cbn [restart_offsets]; [done|].
  assert (all !! i = Some it) as Hi by (rewrite <- (Nat.add_0_r i), <- lookup_drop, <- E; done).
  assert (its = drop (S i) all) as E'.
  { rewrite <- (Nat.add_1_r i), <- drop_drop, <- E. done. }
  rewrite <- (item_offset_S _ _ _ Hi). destruct (it_restart it) eqn:Er; [|by apply IH].
  destruct j as [|j]; [|by apply IH]. intros [= <-]. eauto.
Qed.

Lemma block_restarts_lookup its j p : items_ok [] its -> first_restarts its ->
  block_restarts its !! j = Some p ->
  exists r, (r <= length its)%nat /\ p = item_offset its r /\
    (forall it, its !! r = Some it -> it_restart it = true) /\
    (r < length its \/ its = [])%nat.
Proof.
  intros Hok Hfirst. destruct its as [|it0 its'].
  - destruct j; [|done]. intros [= <-]. exists 0%nat. split_and!; try done. by right.
  - cbn [block_restarts]. set (its := it0 :: its'). change 0 with (item_offset its 0).
    rewrite <- (drop_0 its) at 2. intros (r & it & Hr & -> & Hres)%restart_offsets_lookup.
    pose proof (lookup_lt_Some _ _ _ Hr). exists r. split_and!; [lia|done|congruence|by left].
Qed.

Lemma block_restarts_head its : first_restarts its -> block_restarts its !! 0%nat = Some 0.
Proof. destruct its as [|it its]; [done|]. cbn. by intros ->. Qed.

Lemma block_restarts_count its : (1 <= length (block_restarts its) <= S (length its))%nat \/ ~ first_restarts its.
Proof.
  assert (forall off, (length (restart_offsets off its) <= length its)%nat) as Hle.
  { induction its as [|it its IH]; intros off; cbn [restart_offsets]; [done|].
    specialize (IH (off + blen (item_bytes it))). destruct (it_restart it); simpl; lia. }
  destruct its as [|it its']; [left; simpl; lia|].
  destruct (it_restart it) eqn:E; [left|right; cbn; congruence].
  specialize (Hle 0). cbn [block_restarts]. split; [|lia]. cbn [restart_offsets]. rewrite E. simpl. lia.
Qed.

Definition prev_key (its : list item) (i : nat) : bytes :=
  match i with O => [] | S j => match its !! j with Some it => it_key it | None => [] end end.

Lemma items_ok_lookup its i it : items_ok [] its -> its !! i = Some it ->
  (it_shared it <= length (it_key it))%nat /\ (it_shared it <= length (prev_key its i))%nat /\
  take (it_shared it) (it_key it) = take (it_shared it) (prev_key its i) /\
  (it_restart it = true -> it_shared it = 0%nat).
Proof.
  assert (forall prev, items_ok prev its -> its !! i = Some it ->
    let p := match i with O => prev | S _ => prev_key its i end in
    (it_shared it <= length (it_key it))%nat /\ (it_shared it <= length p)%nat /\
    take (it_shared it) (it_key it) = take (it_shared it) p /\
    (it_restart it = true -> it_shared it = 0%nat)) as Hgen.
  { revert i. induction its as [|x its IH]; intros i prev Hok Hi; [done|]. cbn [items_ok] in Hok.
    destruct Hok as (H1 & H2 & H3 & H4 & H5). destruct i as [|i]; [by injection Hi as <-|].
    specialize (IH i _ H5 Hi). by destruct i. }
  intros Hok Hi. specialize (Hgen [] Hok Hi). by destruct i.
Qed.

Lemma items_bytes_split its i : items_bytes its = items_bytes (take i its) ++ items_bytes (drop i its).
Proof. by rewrite <- items_bytes_app, take_drop. Qed.

Section iter_facts.
Context {port : Port} {cmp : Comparator} (its : list item).
Hypothesis Hok : items_ok [] its.
Hypothesis Hfirst : first_restarts its.
Hypothesis Hsmall : Forall (fun it => blen (it_key it) < 2 ^ 32) its.
Hypothesis Hsize : blen (block_bytes its) < 2 ^ 32.

Let R : Z := blen (items_bytes its).
Let N : Z := blen (block_restarts its).

Lemma R_range : 0 <= R < 2 ^ 32.
Proof.
  unfold R. unfold block_bytes in Hsize. rewrite !blen_app in Hsize. pose proof (blen_nonneg (items_bytes its)).
  pose proof (blen_nonneg (concat (EncodeFixed32 <$> block_restarts its))).
  pose proof (blen_nonneg (EncodeFixed32 (blen (block_restarts its)))). lia.
Qed.

Lemma item_offset_range i : (i <= length its)%nat -> 0 <= item_offset its i <= R.
Proof.
  intros Hi. unfold item_offset, R. split; [apply blen_nonneg|].
  rewrite (items_bytes_split its i), blen_app. pose proof (blen_nonneg (items_bytes (drop i its))). lia.
Qed.

Lemma N_pos : 1 <= N.
Proof. unfold N. destruct (block_restarts_count its) as [H|]; [len|done]. Qed.

Lemma N_range : N < 2 ^ 30.
Proof.
  unfold N. unfold block_bytes in Hsize. rewrite !blen_app, length_encoded in Hsize.
  pose proof (blen_nonneg (items_bytes its)).
  pose proof (blen_nonneg (EncodeFixed32 (blen (block_restarts its)))). lia.
Qed.

(** ** Reading the block *)

Definition frame (it : Iter) : Prop :=
  comparator_ it = cmp /\ iter_data_ it = block_bytes its /\ restarts_ it = R /\
  num_restarts_ it = N /\ status_ it = OK.

(** A restart point, as an entry of the block. *)
Lemma restart_point it j : frame it -> 0 <= j < N ->
  exists r, GetRestartPoint it j = item_offset its r /\ (r <= length its)%nat /\
    (r < length its \/ its = [])%nat /\
    (forall x, its !! r = Some x -> it_shared x = 0%nat) /\ (j = 0 -> r = 0%nat).
Proof.
  intros (_ & Hd & HR & _ & _) Hj. unfold GetRestartPoint. rewrite Hd, HR. unfold block_bytes.
  replace (Z.to_nat (R + j * 4)) with (length (items_bytes its) + 4 * Z.to_nat j)%nat
    by (unfold R, blen; lia).
  rewrite drop_app_add. destruct (lookup_lt_is_Some_2 (block_restarts its) (Z.to_nat j)) as [p Hp].
  { unfold N, blen in Hj. lia. }
  destruct (block_restarts_lookup its (Z.to_nat j) p Hok Hfirst Hp) as (r & Hr & -> & Hres & Hr').
  pose proof (item_offset_range r Hr). pose proof R_range.
  exists r. rewrite (DecodeFixed32_concat _ _ (item_offset its r)) by (done || lia). split_and!; try done.
  - intros x Hx. apply (items_ok_lookup its r x Hok Hx). by apply Hres.
  - intros ->. change (Z.to_nat 0) with 0%nat in Hp. rewrite block_restarts_head in Hp by done.
    injection Hp as Hp. destruct (decide (r = 0%nat)) as [|Hne]; [done|].
    pose proof (item_offset_lt its 0 r ltac:(lia)) as Hlt. rewrite item_offset_0 in Hlt. lia.
Qed.

Lemma region_at it i : frame it -> (i <= length its)%nat ->
  entry_region it (item_offset its i) = items_bytes (drop i its).
Proof.
  intros (_ & Hd & HR & _ & _) Hi. unfold entry_region. rewrite Hd, HR. unfold block_bytes.
  rewrite (items_bytes_split its i). rewrite <- app_assoc.
  replace (Z.to_nat (item_offset its i)) with (length (items_bytes (take i its)))
    by (unfold item_offset, blen; lia).
  rewrite drop_app_length. apply take_app_length'.
  unfold R. rewrite (items_bytes_split its i), blen_app. unfold item_offset, blen. lia.
Qed.

Lemma small_item_at i x : its !! i = Some x -> small_item x.
Proof.
  intros Hx. split; [apply (items_ok_lookup its i x Hok Hx)|].
  by apply (Forall_lookup_1 _ _ _ _ Hsmall Hx).
Qed.

Lemma decode_at it i x : frame it -> its !! i = Some x ->
  DecodeEntry (entry_region it (item_offset its i)) =
  Some (Z.of_nat (it_shared x), blen (it_key x) - Z.of_nat (it_shared x), blen (it_value x),
        drop (it_shared x) (it_key x) ++ it_value x ++ items_bytes (drop (S i) its)).
Proof.
  intros Hf Hx. pose proof (lookup_lt_Some _ _ _ Hx).
  rewrite region_at by (done || lia). erewrite (drop_S its) by done. rewrite items_bytes_cons.
  apply DecodeEntry_item; [by eapply small_item_at|].
  rewrite <- items_bytes_cons. erewrite <- (drop_S its) by done.
  pose proof R_range. unfold R in *. rewrite (items_bytes_split its i), blen_app in *.
  pose proof (blen_nonneg (items_bytes (take i its))). lia.
Qed.

(** ** Positions *)

(** The iterator stands at entry [n]; at [length its] it is not valid. *)
Inductive block_at (it : Iter) : nat -> Prop :=
  | block_at_entry n x :
      frame it -> its !! n = Some x -> current_ it = item_offset its n -> key_ it = it_key x ->
      value_offset_ it = item_offset its (S n) - blen (it_value x) ->
      value_size_ it = blen (it_value x) -> 0 <= restart_index_ it < N -> block_at it n
  | block_at_end : frame it -> current_ it = R -> block_at it (length its).

(** The next [ParseNextKey] parses entry [i]. *)
Record ready (it : Iter) (i : nat) : Prop := {
  ready_frame : frame it;
  ready_index : (i <= length its)%nat;
  ready_offset : value_offset_ it + value_size_ it = item_offset its i;
  ready_restart : 0 <= restart_index_ it < N;
  ready_key x : its !! i = Some x ->
    (it_shared x <= length (key_ it))%nat /\
    take (it_shared x) (it_key x) = take (it_shared x) (key_ it);
}.

Lemma block_at_ready it n : block_at it n -> (n < length its)%nat -> ready it (S n).
Proof.
  intros Ha Hn. destruct Ha as [n x Hf Hx Hc Hk Ho Hs Hr|]; [|lia]. split; [done|lia|lia|done|].
  intros y Hy. destruct (items_ok_lookup its (S n) y Hok Hy) as (_ & H1 & H2 & _).
  cbn [prev_key] in H1, H2. rewrite Hx in H1, H2. by rewrite Hk.
Qed.

Lemma seek_restart_ready it j r : frame it -> 0 <= j < N -> GetRestartPoint it j = item_offset its r ->
  (r <= length its)%nat -> (forall x, its !! r = Some x -> it_shared x = 0%nat) ->
  ready (SeekToRestartPoint it j) r.
Proof.
  intros Hf Hj Hp Hr Hs. split; [exact Hf|done|cbn; lia|exact Hj|].
  intros x Hx. rewrite (Hs x Hx). cbn. split; [lia|done].
Qed.

Lemma advance_restart_index_keeps fuel it : 0 <= restart_index_ it < num_restarts_ it ->
  exists ri, advance_restart_index fuel it = set_position it (current_ it) ri /\ 0 <= ri < num_restarts_ it.
Proof.
  revert it. induction fuel as [|fuel IH]; intros it Hr; cbn [advance_restart_index].
  { exists (restart_index_ it). by destruct it. }
  destruct (_ && _) eqn:E; [|exists (restart_index_ it); by destruct it].
  apply andb_true_iff in E as [E%Z.ltb_lt _].
  destruct (IH (set_position it (current_ it) (restart_index_ it + 1))) as (ri & -> & Hri); [cbn; lia|].
  by exists ri.
Qed.

Lemma NextEntryOffset_ready it i : ready it i -> NextEntryOffset it = item_offset its i.
Proof.
  intros [Hf Hi Ho _ _]. unfold NextEntryOffset, u32. rewrite Ho.
  pose proof (item_offset_range i Hi). pose proof R_range. apply Z.mod_small. lia.
Qed.

Lemma parse_ready it i : ready it i -> (i < length its)%nat ->
  exists it', ParseNextKey it = (true, it') /\ block_at it' i.
Proof.
  intros Hrd Hi. pose proof (NextEntryOffset_ready _ _ Hrd) as Hn.
  destruct Hrd as [Hf _ Ho Hr Hk]. pose proof Hf as (Hcmp & Hd & HR & HN & Hst).
  destruct (lookup_lt_is_Some_2 its i Hi) as [x Hx]. destruct (Hk x Hx) as [Hl Ht].
  destruct (items_ok_lookup its i x Hok Hx) as (Hsx & _).
  pose proof (item_offset_lt its i (length its) ltac:(lia)) as Hlt. rewrite item_offset_length in Hlt.
  unfold ParseNextKey. cbn [set_position current_ restarts_ key_]. rewrite Hn, HR.
  rewrite (proj2 (Z.leb_gt _ _)) by (unfold R; lia).
  rewrite (decode_at (set_position it (item_offset its i) (restart_index_ it)) i x) by done.
  rewrite (proj2 (Z.ltb_ge (blen (key_ it)) _)) by (unfold blen; lia).
  set (it1 := set_entry _ _ _ _). destruct (advance_restart_index_keeps (Z.to_nat (num_restarts_ it1)) it1) as (ri & E & Hri).
  { change (num_restarts_ it1) with (num_restarts_ it). rewrite HN. exact Hr. }
  cbn [set_entry set_position num_restarts_]. eexists. split; [by f_equal|]. rewrite E.
  apply block_at_entry with x; [done|done|done| | |done|cbn in Hri; by rewrite <- HN].
  - cbn. rewrite Nat2Z.id, <- Ht. rewrite take_app_length' by (unfold blen; rewrite length_drop; lia).
    apply take_drop.
  - cbn. rewrite (item_offset_S its i x) by done.
    rewrite !blen_app, blen_drop. unfold R. rewrite (items_bytes_split its i). erewrite (drop_S its) by done.
    rewrite items_bytes_cons, !blen_app. unfold item_offset. unfold blen in *. lia.
Qed.

Lemma parse_end it : ready it (length its) ->
  exists it', ParseNextKey it = (false, it') /\ block_at it' (length its).
Proof.
  intros Hrd. pose proof (NextEntryOffset_ready _ _ Hrd) as Hn. rewrite item_offset_length in Hn.
  destruct Hrd as [Hf _ _ _ _]. pose proof Hf as (_ & _ & HR & _ & _).
  unfold ParseNextKey. cbn [set_position current_ restarts_]. rewrite Hn, HR. fold R.
  rewrite Z.leb_refl. eexists. split; [done|]. apply block_at_end; [exact Hf|exact HR].
Qed.

(** ** Scans *)

Lemma scan_before_ok fuel it i n : ready it i -> (i < n <= length its)%nat -> (n - i <= fuel)%nat ->
  block_at (scan_before fuel (item_offset its n) it) (n - 1).
Proof.
  revert it i. induction fuel as [|fuel IH]; intros it i Hrd Hi Hf; [lia|]. cbn [scan_before].
  destruct (parse_ready it i Hrd) as (it' & -> & Ha); [lia|]. cbn [andb].
  pose proof (block_at_ready it' i Ha ltac:(lia)) as Hrd'.
  rewrite (NextEntryOffset_ready _ _ Hrd').
  destruct (Z.ltb_spec (item_offset its (S i)) (item_offset its n)) as [Hlt|Hge].
  - apply item_offset_lt_iff in Hlt; [|lia..]. by apply (IH it' (S i)); [|lia..].
  - assert (n = S i) as ->; [|by rewrite Nat.sub_1_r].
    destruct (decide (S i < n)%nat) as [Hlt|]; [|lia]. pose proof (item_offset_lt its (S i) n ltac:(lia)). lia.
Qed.

Lemma scan_to_ok fuel target it i : ready it i -> (length its - i < fuel)%nat ->
  block_at (scan_to fuel target it)
    (i + seek_index (Compare cmp) target (it_entry <$> drop i its)).
Proof.
  revert it i. induction fuel as [|fuel IH]; intros it i Hrd Hf; [lia|]. cbn [scan_to].
  pose proof (ready_index _ _ Hrd). destruct (decide (i = length its)) as [->|Hi].
  - rewrite drop_all. cbn. rewrite Nat.add_0_r. by destruct (parse_end it Hrd) as (it' & -> & Ha).
  - destruct (lookup_lt_is_Some_2 its i) as [x Hx]; [lia|]. erewrite (drop_S its) by done.
    cbn [fmap list_fmap seek_index it_entry].
    destruct (parse_ready it i Hrd) as (it' & -> & Ha); [lia|]. cbn [negb].
    pose proof Ha as Ha'. inversion Ha' as [? x' Hf' Hx' _ Hk _ _ _|]; [|lia].
    assert (x' = x) as -> by congruence. subst. destruct Hf' as (-> & _). rewrite Hk.
    destruct (Z.leb_spec 0 (Compare cmp (it_key x) target)) as [Hge|Hlt].
    + rewrite (proj2 (Z.ltb_ge _ _)) by done. by rewrite Nat.add_0_r.
    + rewrite (proj2 (Z.ltb_lt _ _)) by done. rewrite <- Nat.add_succ_comm.
      apply IH; [by apply block_at_ready; [|lia]|lia].
Qed.

Lemma scan_fuel_enough it : frame it -> (length its < scan_fuel it)%nat.
Proof.
  intros (_ & Hd & _). unfold scan_fuel. rewrite Hd. unfold block_bytes. rewrite length_app.
  assert (3 * length its <= length (items_bytes its))%nat as H.
  { destruct (decide (length its = 0)%nat); [lia|].
    pose proof (item_offset_lt its 0 (length its) ltac:(lia)) as Hlt.
    rewrite item_offset_0, item_offset_length in Hlt. unfold blen in Hlt. lia. }
  lia.
Qed.

(** ** The operations *)

Lemma block_at_frame it n : block_at it n -> frame it.
Proof. by destruct 1. Qed.

Lemma SeekToFirst_ok it : frame it -> block_at (Block_SeekToFirst it) 0.
Proof.
  intros Hf. pose proof N_pos. destruct (restart_point it 0 Hf ltac:(lia)) as (r & Hp & Hr & Hr' & Hs & Hr0).
  rewrite (Hr0 eq_refl) in *. unfold Block_SeekToFirst.
  pose proof (seek_restart_ready it 0 0 Hf ltac:(lia) Hp Hr Hs) as Hrd.
  destruct (decide (length its = 0)%nat) as [H0|H0].
  - rewrite <- H0 in Hrd |- *. by destruct (parse_end _ Hrd) as (it' & -> & Ha).
  - by destruct (parse_ready _ 0 Hrd ltac:(lia)) as (it' & -> & Ha).
Qed.

Lemma SeekToLast_ok it : frame it -> block_at (Block_SeekToLast it) (length its - 1).
Proof.
  intros Hf. pose proof Hf as (_ & _ & HR & HN & _). pose proof N_pos.
  destruct (restart_point it (N - 1) Hf ltac:(lia)) as (r & Hp & Hr & Hr' & Hs & _).
  unfold Block_SeekToLast. rewrite HN, HR.
  pose proof (seek_restart_ready it (N - 1) r Hf ltac:(lia) Hp Hr Hs) as Hrd.
  pose proof (scan_fuel_enough it Hf). destruct Hr' as [Hlt|Hnil].
  - unfold R. rewrite <- item_offset_length. apply (scan_before_ok _ _ r); [done|lia|lia].
  - assert (r = length its) as -> by (rewrite Hnil in *; simpl in *; lia).
    destruct (scan_fuel it) as [|fuel]; [lia|]. cbn [scan_before].
    destruct (parse_end _ Hrd) as (it' & -> & Ha). cbn [andb].
    replace (length its - 1)%nat with (length its) by (rewrite Hnil; done). exact Ha.
Qed.

Lemma Next_ok it n : block_at it n -> (n < length its)%nat -> block_at (ParseNextKey it).2 (S n).
Proof.
  intros Ha Hn. pose proof (block_at_ready it n Ha Hn) as Hrd.
  destruct (decide (S n = length its)) as [He|].
  - rewrite He in *. by destruct (parse_end _ Hrd) as (it' & -> & Ha').
  - by destruct (parse_ready _ _ Hrd ltac:(lia)) as (it' & -> & Ha').
Qed.

Lemma restart_before_spec it fuel original index :
  frame it -> 0 <= index < N -> (Z.to_nat index < fuel)%nat ->
  (exists j, restart_before fuel it original index = Some j /\ 0 <= j < N /\ GetRestartPoint it j < original) \/
  (restart_before fuel it original index = None /\ original <= GetRestartPoint it 0).
Proof.
  intros Hf. revert index. induction fuel as [|fuel IH]; intros index Hi Hfu; [lia|].
  cbn [restart_before]. destruct (Z.leb_spec original (GetRestartPoint it index)) as [Hle|Hgt].
  - destruct (Z.eqb_spec index 0) as [->|]; [by right|]. apply IH; lia.
  - left. eauto.
Qed.

Lemma Prev_ok it n : block_at it n -> (n < length its)%nat ->
  block_at (Block_Prev it) (match n with O => length its | S m => m end).
Proof.
  intros Ha Hn. pose proof (block_at_frame _ _ Ha) as Hf. pose proof N_pos.
  inversion Ha as [? x _ Hx Hc _ _ _ Hri|]; [subst n0|lia]. unfold Block_Prev. rewrite Hc.
  destruct (restart_point it 0 Hf ltac:(lia)) as (r0 & Hp0 & _ & _ & _ & Hr0). rewrite (Hr0 eq_refl) in Hp0.
  destruct (restart_before_spec it (S (Z.to_nat (restart_index_ it))) (item_offset its n) (restart_index_ it))
    as [(j & -> & Hj & Hlt)|[-> Hge]]; [done|done|lia| |].
  - destruct (restart_point it j Hf Hj) as (r & Hp & Hr & _ & Hs & _). rewrite Hp in Hlt.
    apply item_offset_lt_iff in Hlt; [|lia..]. destruct n as [|n]; [lia|].
    pose proof (scan_fuel_enough it Hf).
    pose proof (scan_before_ok (scan_fuel it) (SeekToRestartPoint it j) r (S n)
      (seek_restart_ready it j r Hf Hj Hp Hr Hs) ltac:(lia) ltac:(lia)) as Hok'.
    by rewrite Nat.sub_1_r in Hok'.
  - rewrite Hp0 in Hge. destruct n as [|n].
    + apply block_at_end; [exact Hf|]. by destruct Hf as (_ & _ & HR & _).
    + pose proof (item_offset_lt its 0 (S n) ltac:(lia)). lia.
Qed.

(** ** Seek *)

Lemma seek_index_skip target l r :
  (forall i kv, (i < r)%nat -> l !! i = Some kv -> Compare cmp kv.1 target < 0) -> (r <= length l)%nat ->
  seek_index (Compare cmp) target l = (r + seek_index (Compare cmp) target (drop r l))%nat.
Proof.
  revert r. induction l as [|[k v] l IH]; intros r Hlt Hr.
  { simpl in Hr. by assert (r = 0)%nat as -> by lia. }
  destruct r as [|r]; [done|]. cbn [seek_index drop].
  rewrite (proj2 (Z.ltb_lt _ _)) by (apply (Hlt 0%nat (k, v)); [lia|done]).
  rewrite (IH r); [done| |simpl in Hr; lia]. intros i kv Hi Hl. apply (Hlt (S i)); [lia|done].
Qed.

Section seek.
Variable target : bytes.

(** The entries before [target] form a prefix. *)
Hypothesis Hmono : forall i j x y, (i < j)%nat -> its !! i = Some x -> its !! j = Some y ->
  Compare cmp (it_key y) target < 0 -> Compare cmp (it_key x) target < 0.

(** Everything before restart point [j] precedes the target. *)
Definition restart_precedes (it : Iter) (j : Z) : Prop :=
  j = 0 \/ exists r x, GetRestartPoint it j = item_offset its r /\ its !! r = Some x /\
    Compare cmp (it_key x) target < 0.

Lemma search_restarts_ok it fuel left_ right_ :
  frame it -> 0 <= left_ <= right_ -> right_ < N -> (Z.to_nat (right_ - left_) <= fuel)%nat ->
  restart_precedes it left_ ->
  exists j, search_restarts fuel it target left_ right_ = Some j /\ 0 <= j < N /\ restart_precedes it j.
Proof.
  intros Hf. revert left_ right_. induction fuel as [|fuel IH]; intros left_ right_ Hl Hr Hfu Hp.
  { exists left_. cbn. split_and!; [done|lia|lia|done]. }
  cbn [search_restarts]. destruct (Z.ltb_spec left_ right_) as [Hlt|Hge].
  2:{ exists left_. split_and!; [done|lia|lia|done]. }
  pose proof N_range. assert (u32 (left_ + right_ + 1) = left_ + right_ + 1) as ->
    by (unfold u32; apply Z.mod_small; lia).
  set (mid := (left_ + right_ + 1) / 2).
  assert (left_ < mid <= right_) as Hmid by (unfold mid;
    pose proof (Z.div_mod (left_ + right_ + 1) 2); pose proof (Z.mod_pos_bound (left_ + right_ + 1) 2); lia).
  destruct (restart_point it mid Hf ltac:(lia)) as (r & Hpt & _ & Hr' & Hs & _).
  assert (r < length its)%nat as Hri.
  { destruct Hr' as [|Hnil]; [done|]. assert (N = 1) by (unfold N; by rewrite Hnil). lia. }
  destruct (lookup_lt_is_Some_2 its r Hri) as [x Hx]. rewrite Hpt, (decode_at it r x Hf Hx).
  rewrite (Hs x Hx). cbn [Z.of_nat negb Z.eqb]. rewrite Z.sub_0_r, drop_0.
  rewrite take_app_length' by (unfold blen; lia). pose proof Hf as (-> & _).
  destruct (Z.ltb_spec (Compare cmp (it_key x) target) 0) as [Hc|Hc].
  - apply IH; [lia|lia|lia|]. right. eauto.
  - apply IH; [lia|lia|lia|done].
Qed.

Lemma Seek_ok it : frame it ->
  block_at (Block_Seek target it) (seek_index (Compare cmp) target (it_entry <$> its)).
Proof.
  intros Hf. pose proof Hf as (_ & _ & _ & HN & _). pose proof N_pos. unfold Block_Seek. rewrite HN.
  destruct (search_restarts_ok it (Z.to_nat N) 0 (N - 1) Hf) as (j & -> & Hj & Hpre);
    [lia|lia|lia|by left|].
  destruct (restart_point it j Hf Hj) as (r & Hp & Hr & _ & Hs & Hr0).
  rewrite (seek_index_skip target _ r).
  - rewrite <- fmap_drop. apply scan_to_ok; [by apply seek_restart_ready|].
    pose proof (scan_fuel_enough it Hf). lia.
  - intros i kv Hi. rewrite list_lookup_fmap_Some. intros (x & -> & Hx).
    destruct Hpre as [->|(r' & y & Hp' & Hy & Hlt)]; [specialize (Hr0 eq_refl); lia|].
    assert (r' = r) as ->.
    { pose proof (lookup_lt_Some _ _ _ Hy). rewrite Hp in Hp'.
      destruct (Nat.lt_trichotomy r r') as [Hlt'|[|Hlt']]; [|done|];
        apply (item_offset_lt_iff its) in Hlt'; lia. }
    by apply (Hmono i r x y).
  - by rewrite length_fmap.
Qed.

End seek.

End iter_facts.

(** * The block iterator implements the interface *)

Definition sorted_by (cmp : Comparator) (kvs : list (bytes * bytes)) : Prop :=
  StronglySorted (fun a b => Compare cmp a.1 b.1 < 0) kvs.

Lemma sorted_by_lookup cmp kvs i j a b : sorted_by cmp kvs -> (i < j)%nat ->
  kvs !! i = Some a -> kvs !! j = Some b -> Compare cmp a.1 b.1 < 0.
Proof.
  intros Hs. revert i j. induction Hs as [|x l Hs IH Hx]; intros i j Hij Hi Hj; [done|].
  destruct i as [|i], j as [|j]; try lia.
  - injection Hi as <-. by apply (Forall_lookup_1 _ _ _ _ Hx Hj).
  - by apply (IH i j); [lia|..].
Qed.

Lemma item_value_at {port : Port} its n x : its !! n = Some x ->
  take (Z.to_nat (blen (it_value x)))
    (drop (Z.to_nat (item_offset its (S n) - blen (it_value x))) (block_bytes its)) = it_value x.
Proof.
  intros Hx. rewrite (item_offset_S its n x) by done. unfold item_offset, block_bytes.
  rewrite (items_bytes_split its n). erewrite (drop_S its) by done. rewrite items_bytes_cons.
  unfold item_bytes.
  set (pre := EncodeVarint32 (Z.of_nat (it_shared x)) ++ _).
  assert (exists q, pre = q ++ it_value x) as [q Hq].
  { unfold pre. eexists. by rewrite !(app_assoc _ _ (it_value x)). }
  rewrite Hq, <- !app_assoc. rewrite (app_assoc (items_bytes (take n its)) q).
  rewrite drop_app_length' by (rewrite length_app; rewrite !blen_app; unfold blen; lia).
  apply take_app_length'. unfold blen. lia.
Qed.

Section block_iterator.
Context {port : Port} {cmp : Comparator} {valid : bytes -> Prop} `{!ComparatorOk cmp valid}.
Context (options : Options) (kvs : list (bytes * bytes)).

(** What the builder requires of its callers: keys in increasing order, and a
    block that 32-bit offsets can address. *)
Record buildable : Prop := {
  bu_interval : 1 <= block_restart_interval options;
  bu_small : Forall small_kv kvs;
  bu_valid : Forall (fun kv => valid kv.1) kvs;
  bu_sorted : sorted_by cmp kvs;
  bu_size : blen (Finish (AddAll options BlockBuilder_new kvs)).1 < 2 ^ 32;
}.

Lemma Finish_buffer_le b : blen (buffer_ b) + 4 * blen (BlockBuilder.restarts_ b) <= blen (Finish b).1.
Proof.
  unfold Finish. cbn [fst]. rewrite fold_PutFixed32. unfold PutFixed32.
  rewrite !blen_app, length_encoded. pose proof (blen_nonneg (EncodeFixed32 (u32 (blen (BlockBuilder.restarts_ b))))). lia.
Qed.

(** The items of the block that was built. *)
Lemma build_items : buildable ->
  exists its, items_ok [] its /\ first_restarts its /\
    Forall (fun it => blen (it_key it) < 2 ^ 32) its /\ it_entry <$> its = kvs /\
    (Finish (AddAll options BlockBuilder_new kvs)).1 = block_bytes its /\ blen (block_bytes its) < 2 ^ 32.
Proof.
  intros [Hi Hs _ _ Hz]. pose proof (Finish_buffer_le (AddAll options BlockBuilder_new kvs)) as Hle.
  pose proof (blen_nonneg (BlockBuilder.restarts_ (AddAll options BlockBuilder_new kvs))).
  destruct (AddAll_ok options BlockBuilder_new [] kvs builder_ok_new Hi Hs) as (its & Hb & He); [lia|].
  cbn [app] in Hb. pose proof (bo_restarts _ _ Hb) as Hr.
  pose proof (blen_nonneg (buffer_ (AddAll options BlockBuilder_new kvs))).
  assert ((Finish (AddAll options BlockBuilder_new kvs)).1 = block_bytes its) as Hf.
  { apply Finish_bytes; [done|]. rewrite <- Hr. lia. }
  exists its. split_and!; [apply Hb|apply Hb| |done|done|by rewrite <- Hf].
  rewrite <- He in Hs. rewrite Forall_fmap in Hs. eapply Forall_impl; [exact Hs|]. by intros x [? _].
Qed.

(** Opening the block. *)
Lemma Block_new_bytes its : first_restarts its -> blen (block_bytes its) < 2 ^ 32 ->
  let b := Block_new (block_bytes its) in
  data_ b = block_bytes its /\ size_ b = blen (block_bytes its) /\
  restart_offset_ b = blen (items_bytes its) /\ NumRestarts (data_ b) (size_ b) = blen (block_restarts its).
Proof.
  intros Hfirst Hsize b. pose proof (R_range its Hsize) as HR. pose proof (N_pos its Hfirst).
  pose proof (N_range its Hsize).
  assert (blen (block_bytes its) = blen (items_bytes its) + 4 * blen (block_restarts its) + 4) as Hl.
  { unfold block_bytes. rewrite !blen_app, length_encoded. len. }
  assert (NumRestarts (block_bytes its) (blen (block_bytes its)) = blen (block_restarts its)) as Hn.
  { unfold NumRestarts. rewrite Hl. unfold block_bytes. rewrite app_assoc.
    rewrite drop_app_length'.
    - rewrite <- (app_nil_r (EncodeFixed32 _)). apply DecodeFixed32_Encode. lia.
    - pose proof (length_encoded (block_restarts its)). rewrite length_app. unfold blen in *. lia. }
  assert (b = {| data_ := block_bytes its; size_ := blen (block_bytes its);
                 restart_offset_ := blen (items_bytes its) |}) as ->; [|done].
  unfold b, Block_new. rewrite Hn, (proj2 (Z.ltb_ge _ 4)), (proj2 (Z.ltb_ge _ _)).
  - f_equal. rewrite Hl. unfold u32. rewrite Z.mod_small; lia.
  - rewrite Hl. apply Z.div_le_lower_bound; lia.
  - lia.
Qed.

Lemma Block_NewIterator_frame its : first_restarts its -> blen (block_bytes its) < 2 ^ 32 ->
  exists it, Block_NewIterator (Block_new (block_bytes its)) cmp = inr it /\ frame (cmp := cmp) its it.
Proof.
  intros Hfirst Hsize. destruct (Block_new_bytes its Hfirst Hsize) as (Hd & Hs & Hr & Hn).
  pose proof (N_pos its Hfirst). unfold Block_NewIterator. rewrite Hn, Hs.
  rewrite (proj2 (Z.ltb_ge _ 4)), (proj2 (Z.eqb_neq _ 0)) by
    (unfold block_bytes; rewrite ?blen_app; pose proof (blen_nonneg (items_bytes its));
     pose proof (blen_nonneg (concat (EncodeFixed32 <$> block_restarts its))); len).
  eexists. split; [done|]. by rewrite Hd, Hr.
Qed.

Lemma Iter_ok its :
  items_ok [] its -> first_restarts its -> Forall (fun it => blen (it_key it) < 2 ^ 32) its ->
  blen (block_bytes its) < 2 ^ 32 -> sorted_by cmp (it_entry <$> its) ->
  Forall (fun it => valid (it_key it)) its ->
  IteratorOk (Compare cmp) valid (it_entry <$> its) (frame (cmp := cmp) its) (block_at (cmp := cmp) its).
Proof.
  intros Hok Hfirst Hsm Hsz Hsort Hval. pose proof (R_range its Hsz).
  split; cbn [Iter_ops Valid SeekToFirst SeekToLast Seek Next Prev iter_key iter_value status];
    rewrite ?length_fmap.
  - intros it n. apply block_at_frame.
  - intros it n [? ? _ ?%lookup_lt_Some _ _ _ _ _|]; lia.
  - intros it n Ha. destruct Ha as [n x (_ & _ & HR & _) Hx Hc _ _ _ _|(_ & _ & HR & _) Hc];
      rewrite HR, Hc, Z.ltb_lt; [|lia].
    pose proof (lookup_lt_Some _ _ _ Hx). rewrite <- item_offset_length, item_offset_lt_iff; lia.
  - intros it n k v Ha Hkv. apply list_lookup_fmap_Some in Hkv as (x & [= -> ->] & Hx).
    destruct Ha as [n x' (_ & Hd & _) Hx' _ Hk Ho Hs _|]; [|by rewrite lookup_ge_None_2 in Hx].
    assert (x' = x) as -> by congruence. split; [done|]. rewrite Hd, Hs, Ho.
    by apply item_value_at.
  - by intros it n [? ? (_ & _ & _ & _ & ->) _ _ _ _ _ _|(_ & _ & _ & _ & ->) _].
  - intros it. by apply SeekToFirst_ok.
  - intros it. by apply SeekToLast_ok.
  - intros it target Hf Ht. apply Seek_ok; try done.
    intros i j x y Hij Hx Hy Hlt.
    pose proof (Forall_lookup_1 _ _ _ _ Hval Hx). pose proof (Forall_lookup_1 _ _ _ _ Hval Hy).
    apply (Compare_lt_trans _ (it_key y)); try done.
    apply (sorted_by_lookup cmp (it_entry <$> its) i j (it_entry x) (it_entry y)); [done|done|..];
      rewrite list_lookup_fmap; by simplify_option_eq.
  - intros it n. by apply Next_ok.
  - intros it n. by apply Prev_ok.
Qed.

(** ** Iterators of a given block *)

(** The items a block was built from. *)
Definition built (its : list item) : Prop :=
  buildable /\ items_ok [] its /\ first_restarts its /\ Forall (fun it => blen (it_key it) < 2 ^ 32) its /\
  it_entry <$> its = kvs /\ blen (block_bytes its) < 2 ^ 32.

Definition built_inv (it : Iter) : Prop := exists its, built its /\ frame (cmp := cmp) its it.
Definition built_at (it : Iter) (n : nat) : Prop := exists its, built its /\ block_at (cmp := cmp) its it n.

#[export] Instance built_ok : IteratorOk (Compare cmp) valid kvs built_inv built_at.
Proof.
  apply (IteratorOk_exists _ _ _ built). intros its (Hb & Hok & Hfirst & Hsm & He & Hsz).
  pose proof (bu_sorted Hb) as Hsort. pose proof (bu_valid Hb) as Hval.
  rewrite <- He in Hsort, Hval |- *. apply Iter_ok; try done. rewrite Forall_fmap in Hval. exact Hval.
Qed.

Lemma built_iterator : buildable ->
  exists it, Block_NewIterator (Block_new (Finish (AddAll options BlockBuilder_new kvs)).1) cmp = inr it /\ built_inv it.
Proof.
  intros Hb. destruct (build_items Hb) as (its & Hok & Hfirst & Hsm & He & -> & Hsz).
  destruct (Block_NewIterator_frame its Hfirst Hsz) as (it & Hit & Hf). exists it. split; [done|]. by exists its.
Qed.

(** Every entry takes at least three bytes. *)
Lemma block_entries_le : buildable ->
  3 * blen kvs <= blen (Block.data_ (Block_new (Finish (AddAll options BlockBuilder_new kvs)).1)).
Proof.
  intros Hb. destruct (build_items Hb) as (its & Hok & Hfirst & Hsm & <- & -> & Hsz).
  destruct (Block_new_bytes its Hfirst Hsz) as (-> & _). unfold block_bytes. rewrite !blen_app.
  pose proof (blen_nonneg (concat (EncodeFixed32 <$> block_restarts its))).
  pose proof (blen_nonneg (EncodeFixed32 (blen (block_restarts its)))).
  enough (3 * blen (it_entry <$> its) <= blen (items_bytes its)) by lia. clear.
  induction its as [|it its IH]; [done|]. rewrite items_bytes_cons, fmap_cons, blen_app, blen_cons.
  pose proof (item_bytes_length it). lia.
Qed.

(** A built block is accepted with its size. *)
Lemma block_size_range : buildable ->
  0 < Block.size_ (Block_new (Finish (AddAll options BlockBuilder_new kvs)).1) < 2 ^ 32.
Proof.
  intros Hb. destruct (build_items Hb) as (its & Hok & Hfirst & Hsm & <- & -> & Hsz).
  destruct (Block_new_bytes its Hfirst Hsz) as (_ & -> & _). split; [|done]. unfold block_bytes. rewrite !blen_app.
  pose proof (blen_nonneg (items_bytes its)). pose proof (blen_nonneg (concat (EncodeFixed32 <$> block_restarts its))). len.
Qed.

End block_iterator.

(** C9: a built block is a faithful map.  For entries with increasing keys
    added to a fresh builder (any restart interval, a block below 4 GB), the
    block that [Finish] returns opens, and its iterator implements the
    iterator interface over exactly those entries: [SeekToFirst],
    [SeekToLast], [Next], [Prev], [key], [value] and [Seek] (which lands on
    the first entry at or past the target) from every state it can reach,
    with an ok status throughout. *)
Theorem block_iterator_refines {port : Port} (cmp : Comparator) (valid : bytes -> Prop)
    (options : Options) (kvs : list (bytes * bytes)) :
  ComparatorOk cmp valid -> buildable (cmp := cmp) (valid := valid) options kvs ->
  exists it inv at_,
    Block_NewIterator (Block_new (Finish (AddAll options BlockBuilder_new kvs)).1) cmp = inr it /\
    inv it /\ IteratorOk (I := Iter) (Compare cmp) valid kvs inv at_.
Proof.
  intros Hc Hb. destruct (built_iterator options kvs Hb) as (it & Hit & Hf). exists it. eexists _, _. split; [done|].
  split; [exact Hf|apply built_ok].
Qed.

(** Building and iterating are inverse: walking the iterator of a built
    block forwards from [SeekToFirst] yields the added entries in order,
    walking it backwards from [SeekToLast] yields them in reverse, and walking
    it from [Seek target] yields the entries from the first key that is not
    less than the target on. *)
Theorem block_roundtrip {port : Port} (cmp : Comparator) (valid : bytes -> Prop)
    (options : Options) (kvs : list (bytes * bytes)) (target : bytes) :
  ComparatorOk cmp valid -> buildable (cmp := cmp) (valid := valid) options kvs -> valid target ->
  exists it,
    Block_NewIterator (Block_new (Finish (AddAll options BlockBuilder_new kvs)).1) cmp = inr it /\
    collect (S (length kvs)) (SeekToFirst it) = kvs /\
    collect_back (S (length kvs)) (SeekToLast it) = rev kvs /\
    collect (S (length kvs)) (Seek target it) = drop (seek_index (Compare cmp) target kvs) kvs.
Proof.
  intros Hc Hb Ht. destruct (built_iterator options kvs Hb) as (it & Hit & Hf).
  exists it. split; [done|]. split_and!.
  - rewrite (collect_at _ _ 0 (SeekToFirst_at it Hf)) by lia. done.
  - pose proof (SeekToLast_at it Hf) as Hl. destruct kvs as [|kv kvs'].
    + cbn [collect_back length rev]. by rewrite (Valid_at_false (entries := []) _ Hl).
    + erewrite (collect_back_at _ _ _ Hl) by (simpl; lia). f_equal. apply take_ge. simpl. lia.
  - pose proof (Seek_at it target Hf Ht) as Hs. by rewrite (collect_at _ _ _ Hs) by lia.
Qed.

Definition witness_options : Options := {|
  comparator := BytewiseComparator; create_if_missing := false; error_if_exists := false;
  paranoid_checks := false; write_buffer_size := 0; max_open_files := 0; block_size := 4096;
  block_restart_interval := 2; max_file_size := 0; compression := kNoCompression;
  reuse_logs := false; filter_policy := None |}.

Definition witness_kvs : list (bytes * bytes) :=
  (fun kv => (bytes_of_string kv.1, bytes_of_string kv.2)) <$>
  [("apple", "1"); ("applesauce", "2"); ("apply", "3"); ("banana", "4"); ("band", "5")]%string.

Lemma witness_buildable :
  buildable (port := little_endian_port) (cmp := BytewiseComparator) (valid := fun _ => True)
    witness_options witness_kvs.
Proof.
  split; [vm_compute; discriminate|repeat constructor|repeat constructor|repeat constructor|].
  vm_compute. reflexivity.
Defined.

Lemma block_iterator_refines_witness :
  let P := little_endian_port in
  exists it inv at_,
    Block_NewIterator (Block_new (Finish (AddAll witness_options BlockBuilder_new witness_kvs)).1)
      BytewiseComparator = inr it /\
    inv it /\ IteratorOk (I := Iter) Slice_compare (fun _ => True) witness_kvs inv at_.
Proof.
  intros P. exact (block_iterator_refines (port := P) BytewiseComparator (fun _ => True)
    witness_options witness_kvs BytewiseComparator_ok witness_buildable).
Defined.

Lemma block_roundtrip_witness :
  let P := little_endian_port in
  let target := bytes_of_string "applet" in
  exists it,
    Block_NewIterator (Block_new (Finish (AddAll witness_options BlockBuilder_new witness_kvs)).1)
      BytewiseComparator = inr it /\
    collect 6 (SeekToFirst it) = witness_kvs /\
    collect_back 6 (SeekToLast it) = rev witness_kvs /\
    collect 6 (Seek target it) = drop 2 witness_kvs.
Proof.
  intros P target. exact (block_roundtrip (port := P) BytewiseComparator (fun _ => True)
    witness_options witness_kvs target BytewiseComparator_ok witness_buildable I).
Defined.

(** C40: the bounds check of [DecodeEntry] wraps.  Let the three varints at the
    start of an entry be anything, and [rest] what follows them up to the limit.
    The entry is accepted exactly when the low 32 bits of the sum of the two
    lengths are no more than the bytes left.  So it is accepted although key
    delta and value reach past the limit exactly when that sum is 2^32 or more,
    by no more than the bytes left; one of the two then reaches past the limit
    by itself as soon as fewer than 2^31 bytes are left. *)
Theorem DecodeEntry_check_wraps (p q r rest : bytes) (shared non_shared value_length : Z) :
  GetVarint32Ptr p = Some (shared, q) -> GetVarint32Ptr q = Some (non_shared, r) ->
  GetVarint32Ptr r = Some (value_length, rest) -> blen rest < 2 ^ 32 ->
  let sum := non_shared + value_length in
  DecodeEntry p = (if blen rest <? sum mod 2 ^ 32 then None else Some (shared, non_shared, value_length, rest)) /\
  (is_Some (DecodeEntry p) /\ blen rest < sum <-> 2 ^ 32 <= sum <= 2 ^ 32 + blen rest) /\
  (is_Some (DecodeEntry p) -> blen rest < sum -> blen rest < 2 ^ 31 ->
     blen rest < non_shared \/ blen rest < value_length).
Proof.
  intros Hp Hq Hr Hlen sum. rewrite (DecodeEntry_lengths _ _ _ _ _ _ _ Hp Hq Hr).
  destruct (GetVarint32Ptr_range _ _ _ Hq) as [Hn _], (GetVarint32Ptr_range _ _ _ Hr) as [Hv _].
  pose proof (blen_nonneg rest). unfold u32. rewrite (Z.mod_small (blen rest)) by lia. fold sum. split; [done|].
  assert (sum mod 2 ^ 32 = if sum <? 2 ^ 32 then sum else sum - 2 ^ 32) as ->.
  { unfold sum. destruct (Z.ltb_spec (non_shared + value_length) (2 ^ 32)); [by rewrite Z.mod_small by lia|].
    replace (non_shared + value_length) with (non_shared + value_length - 2 ^ 32 + 1 * 2 ^ 32) at 1 by lia.
    rewrite Z.mod_add, Z.mod_small; lia. }
  rewrite is_Some_alt. destruct (Z.ltb_spec sum (2 ^ 32)).
  - destruct (Z.ltb_spec (blen rest) sum); lia.
  - destruct (Z.ltb_spec (blen rest) (sum - 2 ^ 32)); split; intuition lia.
Qed.

(** Seven bytes of a corrupt block: one byte more than 2^32 - 1 wraps to 0. *)
Lemma DecodeEntry_check_wraps_witness :
  let p := EncodeVarint32 0 ++ EncodeVarint32 (2 ^ 32 - 1) ++ EncodeVarint32 1 in
  DecodeEntry p = Some (0, 2 ^ 32 - 1, 1, []) /\
  (is_Some (DecodeEntry p) /\ 0 < 2 ^ 32 - 1 + 1 <-> 2 ^ 32 <= 2 ^ 32 - 1 + 1 <= 2 ^ 32 + 0).
Proof.
  intros p.
  destruct (DecodeEntry_check_wraps p (EncodeVarint32 (2 ^ 32 - 1) ++ EncodeVarint32 1) (EncodeVarint32 1) [] 0 (2 ^ 32 - 1) 1)
    as (H1 & H2 & _); [vm_compute; reflexivity..|]. split; [exact H1|exact H2].
Defined.
