(* ===== verification/TableFormat.v ===== *)
(** The table file format of [table/format.h] and [table/format.cpp]: block
    handles, the footer, and reading a checksummed block from a file. *)

From S2P Require Import Prelude Port Coding Crc32c Status Env Options.

(** * Block handles *)

Record BlockHandle := { offset_ : Z; size_ : Z }.

Definition BlockHandle_new : BlockHandle := {| offset_ := u64 (Z.lnot 0); size_ := u64 (Z.lnot 0) |}.

Definition kMaxEncodingLength : Z := 10 + 10.

Definition BlockHandle_EncodeTo (h : BlockHandle) (dst : bytes) : bytes :=
  PutVarint64 (PutVarint64 dst (offset_ h)) (size_ h).

(** The status, the handle and the input as they are left. *)
Definition BlockHandle_DecodeFrom (h : BlockHandle) (input : bytes) : Status * BlockHandle * bytes :=
  let bad := Corruption (bytes_of_string "bad block handle") [] in
  match GetVarint64 input with
  | (None, input) => (bad, h, input)
  | (Some offset, input) =>
    let h := {| offset_ := offset; size_ := size_ h |} in
    match GetVarint64 input with
    | (None, input) => (bad, h, input)
    | (Some size, input) => (OK, {| offset_ := offset; size_ := size |}, input)
    end
  end.

(** * The footer *)

Record Footer := { metaindex_handle_ : BlockHandle; index_handle_ : BlockHandle }.

Definition kTableMagicNumber : Z := 0xdb4775248b80fb57.

Definition kEncodedLength : Z := 2 * kMaxEncodingLength + 8.

(** [std::string::resize]: cut, or fill with zeros. *)
Definition string_resize (s : bytes) (n : nat) : bytes := take n s ++ replicate (n - length s) (bz 0).

Section footer.
Context {port : Port}.

(** The padding resizes the whole destination, so it has to start empty. *)
Definition Footer_EncodeTo (f : Footer) (dst : bytes) : bytes :=
  let dst := BlockHandle_EncodeTo (metaindex_handle_ f) dst in
  let dst := BlockHandle_EncodeTo (index_handle_ f) dst in
  let dst := string_resize dst (Z.to_nat (2 * kMaxEncodingLength)) in
  let dst := PutFixed32 dst (u32 (Z.land kTableMagicNumber 0xffffffff)) in
  PutFixed32 dst (u32 (Z.shiftr kTableMagicNumber 32)).

Definition Footer_DecodeFrom (f : Footer) (input : bytes) : Status * Footer * bytes :=
  let magic_ptr := drop (Z.to_nat (kEncodedLength - 8)) input in
  let magic_lo := DecodeFixed32 magic_ptr in
  let magic_hi := DecodeFixed32 (drop 4 magic_ptr) in
  let magic := Z.lor (u64 (Z.shiftl magic_hi 32)) magic_lo in
  if negb (magic =? kTableMagicNumber)
  then (Corruption (bytes_of_string "not an sstable (bad magic number)") [], f, input)
  else
    let '(result, m, rest) := BlockHandle_DecodeFrom (metaindex_handle_ f) input in
    if ok result then
      let '(result, i, rest) := BlockHandle_DecodeFrom (index_handle_ f) rest in
      if ok result
      then (result, {| metaindex_handle_ := m; index_handle_ := i |}, drop 8 magic_ptr)
      else (result, {| metaindex_handle_ := m; index_handle_ := i |}, rest)
    else (result, {| metaindex_handle_ := m; index_handle_ := index_handle_ f |}, rest).

End footer.

(** * Reading a block *)

Definition kBlockTrailerSize : Z := 5.

Record BlockContents := { contents_data : bytes; cacheable : bool; heap_allocated : bool }.

Section read_block.
Context {port : Port} {H S : Type} `{!RandomAccessFileOps H S}.

(** [buf] is the address of the read buffer, [fresh n] the content a new
    buffer of [n] bytes happens to have.  The snappy branch decompresses into
    [buf], not into the buffer it returns. *)
Definition ReadBlock (file : H) (options : ReadOptions) (handle : BlockHandle)
    (buf : Z) (fresh : Z -> bytes) (s : S) : Status * BlockContents * S :=
  let empty := {| contents_data := []; cacheable := false; heap_allocated := false |} in
  let corruption msg := Corruption (bytes_of_string msg) [] in
  let n := size_ handle in
  let '((st, (data, contents)), s) := ReadAt file (offset_ handle) (u64 (n + kBlockTrailerSize)) buf s in
  if negb (ok st) then (st, empty, s)
  else if negb (blen contents =? u64 (n + kBlockTrailerSize)) then
    (corruption "truncated block read"%string, empty, s)
  else
    let crc := Unmask (DecodeFixed32 (drop (Z.to_nat (n + 1)) contents)) in
    let actual := Value data (take (Z.to_nat (n + 1)) contents) in
    if verify_checksums options && negb (actual =? crc) then
      (corruption "block checksum mismatch"%string, empty, s)
    else
      let type := sb (nth (Z.to_nat n) contents Byte.x00) in
      let raw := take (Z.to_nat n) contents in
      if type =? CompressionType_num kNoCompression then
        if negb (data =? buf)
        then (OK, {| contents_data := raw; cacheable := false; heap_allocated := false |}, s)
        else (OK, {| contents_data := raw; cacheable := true; heap_allocated := true |}, s)
      else if type =? CompressionType_num kSnappyCompression then
        match Snappy_GetUncompressedLength raw with
        | None => (corruption "corrupted compressed block contents"%string, empty, s)
        | Some ulength =>
          let ubuf := fresh ulength in
          match Snappy_Uncompress raw with
          | None => (corruption "corrupted compressed block contents"%string, empty, s)
          | Some _ => (OK, {| contents_data := ubuf; cacheable := true; heap_allocated := true |}, s)
          end
        end
      else (corruption "bad block type"%string, empty, s).

End read_block.

(** * Properties *)

Definition handle_ok (h : BlockHandle) : Prop := 0 <= offset_ h < 2 ^ 64 /\ 0 <= size_ h < 2 ^ 64.

Lemma BlockHandle_DecodeFrom_Encode h h0 rest : handle_ok h ->
  BlockHandle_DecodeFrom h0 (BlockHandle_EncodeTo h [] ++ rest) = (OK, h, rest).
Proof.
  intros [Ho Hs]. unfold BlockHandle_DecodeFrom, BlockHandle_EncodeTo, PutVarint64. cbn [app].
  rewrite <- app_assoc, GetVarint64_Encode, GetVarint64_Encode by done. by destruct h.
Qed.

Lemma BlockHandle_EncodeTo_app h dst : BlockHandle_EncodeTo h dst = dst ++ BlockHandle_EncodeTo h [].
Proof. unfold BlockHandle_EncodeTo, PutVarint64. cbn [app]. by rewrite app_assoc. Qed.

Lemma BlockHandle_EncodeTo_length h : (length (BlockHandle_EncodeTo h []) <= 20)%nat.
Proof.
  unfold BlockHandle_EncodeTo, PutVarint64. cbn [app].
  pose proof (EncodeVarint64_length (offset_ h)). pose proof (EncodeVarint64_length (size_ h)). len.
Qed.

Lemma Footer_Decode_Encode {port : Port} (f f0 : Footer) (rest : bytes) :
  handle_ok (metaindex_handle_ f) -> handle_ok (index_handle_ f) ->
  blen (Footer_EncodeTo f []) = kEncodedLength /\
  Footer_DecodeFrom f0 (Footer_EncodeTo f [] ++ rest) = (OK, f, rest).
Proof.
  intros Hm Hi.
  pose proof (BlockHandle_EncodeTo_length (metaindex_handle_ f)) as Lm.
  pose proof (BlockHandle_EncodeTo_length (index_handle_ f)) as Li.
  unfold Footer_EncodeTo. rewrite (BlockHandle_EncodeTo_app (index_handle_ f)).
  set (m := BlockHandle_EncodeTo (metaindex_handle_ f) []) in *.
  set (i := BlockHandle_EncodeTo (index_handle_ f) []) in *.
  change (Z.to_nat (2 * kMaxEncodingLength)) with 40%nat. unfold string_resize.
  rewrite take_ge by (rewrite length_app; lia). set (pad := replicate _ _).
  set (magic := EncodeFixed32 (u32 (Z.land kTableMagicNumber 0xffffffff)) ++
                EncodeFixed32 (u32 (Z.shiftr kTableMagicNumber 32))).
  assert (PutFixed32 (PutFixed32 ((m ++ i) ++ pad) (u32 (Z.land kTableMagicNumber 0xffffffff)))
           (u32 (Z.shiftr kTableMagicNumber 32)) = (m ++ i ++ pad) ++ magic) as ->
    by (unfold PutFixed32, magic; by rewrite <- !app_assoc).
  assert (length (m ++ i ++ pad) = 40%nat) as L40
    by (unfold pad; rewrite !length_app, length_replicate; lia).
  split; [unfold blen, magic, kEncodedLength, kMaxEncodingLength; rewrite length_app, L40; len|].
  unfold Footer_DecodeFrom. change (Z.to_nat (kEncodedLength - 8)) with 40%nat.
  rewrite <- (app_assoc _ magic), drop_app_length' by done. unfold magic.
  rewrite <- (app_assoc _ _ rest), DecodeFixed32_Encode by (vm_compute; split; [discriminate|reflexivity]).
  rewrite (drop_app_length' (EncodeFixed32 _)) by (by rewrite length_EncodeFixed32).
  rewrite DecodeFixed32_Encode by (vm_compute; split; [discriminate|reflexivity]).
  match goal with |- context [negb ?b] => change (negb b) with false end. cbn iota.
  rewrite <- !app_assoc. unfold m at 1. rewrite BlockHandle_DecodeFrom_Encode by done.
  cbn [ok OK]. change (ok OK) with true. cbn iota.
  unfold i at 1. rewrite BlockHandle_DecodeFrom_Encode by done. change (ok OK) with true. cbn iota.
  rewrite (app_assoc (EncodeFixed32 _)), drop_app_length' by (rewrite length_app, !length_EncodeFixed32; lia).
  by destruct f.
Qed.

(** The footer round trips: for handles within 64 bits, [EncodeTo] fills
    exactly [kEncodedLength] bytes of an empty destination, and [DecodeFrom]
    recovers both handles and leaves the input right behind the footer. *)
Theorem Footer_roundtrip {port : Port} (f f0 : Footer) (rest : bytes) :
  handle_ok (metaindex_handle_ f) -> handle_ok (index_handle_ f) ->
  blen (Footer_EncodeTo f []) = kEncodedLength /\
  Footer_DecodeFrom f0 (Footer_EncodeTo f [] ++ rest) = (OK, f, rest).
Proof. apply Footer_Decode_Encode. Qed.

Lemma Footer_roundtrip_witness :
  let P := big_endian_port in
  let f := {| metaindex_handle_ := {| offset_ := 300; size_ := 5 |};
              index_handle_ := {| offset_ := 2 ^ 40; size_ := 77 |} |} in
  let f0 := {| metaindex_handle_ := BlockHandle_new; index_handle_ := BlockHandle_new |} in
  blen (Footer_EncodeTo f []) = kEncodedLength /\
  Footer_DecodeFrom f0 (Footer_EncodeTo f [] ++ [Byte.x00]) = (OK, f, [Byte.x00]).
Proof.
  intros P f f0. apply (Footer_roundtrip (port := P)); split; vm_compute; (split; [discriminate|reflexivity]).
Defined.

(** ** Blocks on disk *)

(** What a table stores for a block: its bytes, the compression type and the
    masked crc of both. *)
Definition stored_block {port : Port} (data : bytes) (t : CompressionType) : bytes :=
  data ++ [bz (CompressionType_num t)] ++
  EncodeFixed32 (Mask (crc32c_spec 0 (data ++ [bz (CompressionType_num t)]))).

Section read_facts.
Context {port : Port} `{!PortCrcOk port} {H S : Type} `{RandomAccessFileOk H S reads}.

(** [ReadBlock] once the bytes are in. *)
Lemma ReadBlock_stored file options h buf fresh s data t pre post :
  reads file s (pre ++ stored_block data t ++ post) -> offset_ h = blen pre -> size_ h = blen data ->
  offset_ h + blen data + 5 < 2 ^ 64 ->
  ok (ReadAt file (offset_ h) (u64 (size_ h + kBlockTrailerSize)) buf s).1.1 = true ->
  exists a s', ReadBlock file options h buf fresh s =
    match t with
    | kNoCompression =>
      (OK, {| contents_data := data; cacheable := a =? buf; heap_allocated := a =? buf |}, s')
    | kSnappyCompression =>
      match Snappy_GetUncompressedLength data, Snappy_Uncompress data with
      | Some ulength, Some _ =>
        (OK, {| contents_data := fresh ulength; cacheable := true; heap_allocated := true |}, s')
      | _, _ =>
        (Corruption (bytes_of_string "corrupted compressed block contents") [],
         {| contents_data := []; cacheable := false; heap_allocated := false |}, s')
      end
    end.
Proof.
  intros Hc Ho Hs Hsz Hrd. pose proof (blen_nonneg data). pose proof (blen_nonneg pre).
  assert (u64 (size_ h + kBlockTrailerSize) = blen data + 5) as Hn
    by (unfold u64, kBlockTrailerSize; rewrite Hs; apply Z.mod_small; lia).
  unfold ReadBlock. rewrite Hn in *.
  destruct (ReadAt file (offset_ h) (blen data + 5) buf s) as [[st [a d]] s'] eqn:E. cbn [fst] in Hrd.
  apply (ReadAt_ok file _ _ _ _ _ _ _ _ _ Hc) in E; [|lia|lia|lia|done].
  assert (d = stored_block data t) as ->.
  { rewrite E, Ho. replace (Z.to_nat (blen pre)) with (length pre) by len.
    rewrite drop_app_length. apply take_app_length'. unfold stored_block. len. }
  assert (blen (stored_block data t) = blen data + 5) as Hl by (unfold stored_block; len).
  exists a, s'. rewrite Hrd, Hl, Z.eqb_refl, Hs. cbn [negb].
  set (tb := bz (CompressionType_num t)) in *.
  assert (stored_block data t = (data ++ [tb]) ++ EncodeFixed32 (Mask (crc32c_spec 0 (data ++ [tb])))) as Hst
    by (unfold stored_block; by rewrite <- app_assoc).
  assert (Unmask (DecodeFixed32 (drop (Z.to_nat (blen data + 1)) (stored_block data t))) =
          crc32c_spec 0 (data ++ [tb])) as ->.
  { rewrite Hst, drop_app_length' by (rewrite length_app; unfold blen; simpl; lia).
    rewrite <- (app_nil_r (EncodeFixed32 _)), DecodeFixed32_Encode by apply Mask_range.
    apply Unmask_Mask_small, crc32c_spec_range. lia. }
  assert (take (Z.to_nat (blen data + 1)) (stored_block data t) = data ++ [tb]) as ->
    by (rewrite Hst; apply take_app_length'; rewrite length_app; unfold blen; simpl; lia).
  unfold Value. rewrite Extend_spec by lia. rewrite Z.eqb_refl, andb_false_r.
  replace (Z.to_nat (blen data)) with (length data) by len.
  unfold stored_block. rewrite take_app_length, app_nth2, Nat.sub_diag by lia. cbn [app nth]. fold tb.
  destruct t; unfold tb; cbn [CompressionType_num].
  - change (sb (bz 0) =? 0) with true. cbn iota. by destruct (a =? buf).
  - change (sb (bz 1) =? 0) with false. change (sb (bz 1) =? 1) with true. cbn iota.
    destruct (Snappy_GetUncompressedLength data); [|done]. by destruct (Snappy_Uncompress data).
Qed.

(** [ReadBlock] returns what was stored: for an uncompressed block with
    its type byte and checksum at the handle's extent, a successful read
    yields exactly the block's bytes, with checksum verification on or off. *)
Theorem ReadBlock_roundtrip (file : H) (options : ReadOptions) (h : BlockHandle) (buf : Z)
    (fresh : Z -> bytes) (s : S) (data pre post : bytes) :
  reads file s (pre ++ stored_block data kNoCompression ++ post) ->
  offset_ h = blen pre -> size_ h = blen data -> offset_ h + blen data + 5 < 2 ^ 64 ->
  ok (ReadAt file (offset_ h) (u64 (size_ h + kBlockTrailerSize)) buf s).1.1 = true ->
  exists c s', ReadBlock file options h buf fresh s = (OK, c, s') /\ contents_data c = data.
Proof.
  intros Hc Ho Hs Hsz Hrd.
  destruct (ReadBlock_stored file options h buf fresh s data kNoCompression pre post Hc Ho Hs Hsz Hrd)
    as (a & s' & ->). eauto.
Qed.

(** C39: [ReadBlock] loses snappy blocks: whenever the library accepts a stored
    compressed block, the result is the initial content of a newly allocated
    buffer, whatever the block decompresses to; the decompressed bytes went to
    the read buffer, which is freed. *)
Theorem ReadBlock_snappy_garbage (file : H) (options : ReadOptions) (h : BlockHandle) (buf : Z)
    (fresh : Z -> bytes) (s : S) (data pre post plain : bytes) (ulength : Z) :
  reads file s (pre ++ stored_block data kSnappyCompression ++ post) ->
  offset_ h = blen pre -> size_ h = blen data -> offset_ h + blen data + 5 < 2 ^ 64 ->
  ok (ReadAt file (offset_ h) (u64 (size_ h + kBlockTrailerSize)) buf s).1.1 = true ->
  Snappy_GetUncompressedLength data = Some ulength -> Snappy_Uncompress data = Some plain ->
  exists c s', ReadBlock file options h buf fresh s = (OK, c, s') /\ contents_data c = fresh ulength.
Proof.
  intros Hc Ho Hs Hsz Hrd Hu Hp.
  destruct (ReadBlock_stored file options h buf fresh s data kSnappyCompression pre post Hc Ho Hs Hsz Hrd)
    as (a & s' & ->). rewrite Hu, Hp. eauto.
Qed.

End read_facts.

Lemma ReadBlock_roundtrip_witness :
  let P := little_endian_port in
  let data := bytes_of_string "block" in
  let h := {| offset_ := 3; size_ := 5 |} in
  let s := bytes_of_string "abc" ++ stored_block data kNoCompression ++ bytes_of_string "z" in
  exists c s', ReadBlock tt {| verify_checksums := true; fill_cache := true |} h 1000 (fun _ => []) s
    = (OK, c, s') /\ contents_data c = data.
Proof.
  intros P data h s.
  apply (ReadBlock_roundtrip (port := P) (reads := fun _ s c => s = c) tt _ h 1000 (fun _ => []) s data
    (bytes_of_string "abc") (bytes_of_string "z")); reflexivity.
Defined.

(** A snappy library that stores blocks verbatim behind a marker byte. *)
Definition marker_snappy : SnappyLib := {|
  RawCompress x := Byte.x00 :: x;
  GetUncompressedLength x := Some (blen x - 1);
  RawUncompress x := Some (tail x);
|}.

Definition snappy_port : Port :=
  {| LEVELDB_IS_BIG_ENDIAN := false; HAVE_CRC32C := None; HAVE_SNAPPY := Some marker_snappy |}.

#[export] Instance snappy_port_crc_ok : PortCrcOk snappy_port.
Proof. by intros ???. Qed.

Lemma ReadBlock_snappy_garbage_witness :
  let P := snappy_port in
  let data := RawCompress marker_snappy (bytes_of_string "abc") in
  let h := {| offset_ := 0; size_ := 4 |} in
  let fresh n := replicate (Z.to_nat n) Byte.xff in
  exists c s', ReadBlock tt {| verify_checksums := true; fill_cache := true |} h 1000 fresh
      (stored_block data kSnappyCompression) = (OK, c, s') /\ contents_data c = fresh 3.
Proof.
  intros P data h fresh.
  apply (ReadBlock_snappy_garbage (port := P) (reads := fun _ s c => s = c) tt _ h 1000 fresh
    (stored_block data kSnappyCompression) data [] [] (bytes_of_string "abc") 3);
    reflexivity.
Defined.
