(* ===== verification/FilterBlock.v ===== *)
(** Filter blocks: [table/filter_block.h] and [table/filter_block.cpp].  One
    filter per 2 KB of table offsets, built from the keys of the data blocks
    that start there.  Against any filter policy that keeps its promise, the
    reader never rejects a key that was added for a block. *)

From Stdlib Require Import Sorted.
From S2P Require Import Prelude Port Coding Bloom.

Definition kFilterBaselg : Z := 11.
Definition kFilterBase : Z := Z.shiftl 1 kFilterBaselg.

(** * The builder *)

Record FilterBlockBuilder := mkFilterBlockBuilder {
  policy_ : FilterPolicy;
  keys_ : bytes;
  start_ : list Z;
  result_ : bytes;
  filter_offsets_ : list Z;
}.

Definition FilterBlockBuilder_new (policy : FilterPolicy) : FilterBlockBuilder :=
  mkFilterBlockBuilder policy [] [] [] [].

(** [tmp_keys_[i]]: the slices between consecutive starts. *)
Fixpoint tmp_keys (keys : bytes) (start : list Z) : list bytes :=
  match start with
  | s0 :: (s1 :: _) as rest =>
    take (Z.to_nat (s1 - s0)) (drop (Z.to_nat s0) keys) :: tmp_keys keys rest
  | _ => []
  end.

(** [filter_offsets_.push_back(result_.size())] narrows to 32 bits. *)
Definition GenerateFilter (b : FilterBlockBuilder) : FilterBlockBuilder :=
  let offsets := filter_offsets_ b ++ [u32 (blen (result_ b))] in
  match start_ b with
  | [] => mkFilterBlockBuilder (policy_ b) (keys_ b) (start_ b) (result_ b) offsets
  | _ =>
    let start := start_ b ++ [blen (keys_ b)] in
    let result := CreateFilter (policy_ b) (tmp_keys (keys_ b) start) (result_ b) in
    mkFilterBlockBuilder (policy_ b) [] [] result offsets
  end.

(** [while (filter_index > filter_offsets_.size()) GenerateFilter()] *)
Fixpoint StartBlock_loop (fuel : nat) (filter_index : Z) (b : FilterBlockBuilder) : FilterBlockBuilder :=
  match fuel with
  | O => b
  | S fuel =>
    if blen (filter_offsets_ b) <? filter_index
    then StartBlock_loop fuel filter_index (GenerateFilter b) else b
  end.

Definition StartBlock (block_offset : Z) (b : FilterBlockBuilder) : FilterBlockBuilder :=
  let filter_index := block_offset / kFilterBase in
  StartBlock_loop (Z.to_nat filter_index) filter_index b.

Definition AddKey (key : bytes) (b : FilterBlockBuilder) : FilterBlockBuilder :=
  mkFilterBlockBuilder (policy_ b) (keys_ b ++ key) (start_ b ++ [blen (keys_ b)])
    (result_ b) (filter_offsets_ b).

Section filter_block.
Context {port : Port}.

Definition Finish (b : FilterBlockBuilder) : bytes :=
  let b := match start_ b with [] => b | _ => GenerateFilter b end in
  let array_offset := u32 (blen (result_ b)) in
  let result := fold_left PutFixed32 (filter_offsets_ b) (result_ b) in
  PutFixed32 result array_offset ++ [bz kFilterBaselg].

(** * The reader *)

(** [data_] and [offset_] point into the contents: [offset_] is an index;
    both are only used when [num_] is not 0. *)
Record FilterBlockReader := mkFilterBlockReader {
  reader_policy_ : FilterPolicy;
  data_ : bytes;
  offset_ : Z;
  num_ : Z;
  base_lg_ : Z;
}.

Definition FilterBlockReader_new (policy : FilterPolicy) (contents : bytes) : FilterBlockReader :=
  let n := blen contents in
  if n <? 5 then mkFilterBlockReader policy [] 0 0 0
  else
    let base_lg := u64 (sb (nth (Z.to_nat (n - 1)) contents Byte.x00)) in
    let last_word := DecodeFixed32 (drop (Z.to_nat (n - 5)) contents) in
    if n - 5 <? last_word then mkFilterBlockReader policy [] 0 0 base_lg
    else mkFilterBlockReader policy contents last_word ((n - 5 - last_word) / 4) base_lg.

Definition FilterBlock_KeyMayMatch (r : FilterBlockReader) (block_offset : Z) (key : bytes) : bool :=
  let index := Z.shiftr block_offset (base_lg_ r) in
  if index <? num_ r then
    let start := DecodeFixed32 (drop (Z.to_nat (offset_ r + index * 4)) (data_ r)) in
    let limit := DecodeFixed32 (drop (Z.to_nat (offset_ r + index * 4 + 4)) (data_ r)) in
    if (start <=? limit) && (limit <=? offset_ r) then
      KeyMayMatch (reader_policy_ r) key (take (Z.to_nat (limit - start)) (drop (Z.to_nat start) (data_ r)))
    else if start =? limit then false
    else true
  else true.

End filter_block.

(** * Flattened lists *)

(** The offsets of the pieces of a flattened list. *)
Fixpoint running (off : Z) (ls : list bytes) : list Z :=
  match ls with
  | [] => []
  | l :: ls => off :: running (off + blen l) ls
  end.

Lemma length_running off ls : length (running off ls) = length ls.
Proof. revert off. induction ls; intros; cbn; auto. Qed.

Lemma running_app off ls ks :
  running off (ls ++ ks) = running off ls ++ running (off + blen (concat ls)) ks.
Proof.
  revert off. induction ls as [|l ls IH]; intros off; cbn [app running concat].
  { by rewrite blen_nil, Z.add_0_r. }
  by rewrite IH, blen_app, Z.add_assoc.
Qed.

Lemma running_range off ls i v : running off ls !! i = Some v -> off <= v <= off + blen (concat ls).
Proof.
  revert off i. induction ls as [|l ls IH]; intros off [|i]; cbn [running concat]; try done.
  - intros [= <-]. pose proof (blen_nonneg (l ++ concat ls)). lia.
  - intros H%(IH (off + blen l) i). rewrite blen_app. pose proof (blen_nonneg l). lia.
Qed.

Lemma tmp_keys_cons2 keys s0 s1 rest :
  tmp_keys keys (s0 :: s1 :: rest) =
  take (Z.to_nat (s1 - s0)) (drop (Z.to_nat s0) keys) :: tmp_keys keys (s1 :: rest).
Proof. done. Qed.

(** Cutting at the offsets recovers the pieces. *)
Lemma tmp_keys_running pre ls suf :
  tmp_keys (pre ++ concat ls ++ suf) (running (blen pre) ls ++ [blen pre + blen (concat ls)]) = ls.
Proof.
  revert pre. induction ls as [|l ls IH]; intros pre; [done|].
  assert (exists rest, running (blen pre + blen l) ls ++ [blen pre + blen (concat (l :: ls))] =
                       (blen pre + blen l) :: rest) as [rest Hr].
  { destruct ls; cbn [running concat app]; rewrite ?app_nil_r; eauto. }
  cbn [running app]. rewrite Hr, tmp_keys_cons2, <- Hr. f_equal.
  - replace (Z.to_nat (blen pre)) with (length pre) by len. rewrite drop_app_length. cbn [concat].
    rewrite <- app_assoc. apply take_app_length'. unfold blen. lia.
  - specialize (IH (pre ++ l)). rewrite blen_app in IH. cbn [concat]. rewrite blen_app, Z.add_assoc.
    rewrite <- !app_assoc in *. exact IH.
Qed.

Lemma tmp_keys_lookup keys start i a b :
  start !! i = Some a -> start !! S i = Some b ->
  tmp_keys keys start !! i = Some (take (Z.to_nat (b - a)) (drop (Z.to_nat a) keys)).
Proof.
  revert i. induction start as [|s0 start IH]; intros i Ha Hb; [done|].
  destruct start as [|s1 rest]; [done|]. rewrite tmp_keys_cons2.
  destruct i as [|i]; [|by apply IH]. by injection Ha as ->; injection Hb as ->.
Qed.

(** * The builder's state *)

Section builder_facts.
Context {policy : FilterPolicy} `{!FilterPolicyOk policy}.

(** The bytes of a filter; no keys, no bytes. *)
Definition filter_bytes (ks : list bytes) : bytes :=
  match ks with [] => [] | _ => CreateFilter policy ks [] end.

(** [filters] are the key lists of the generated filters, [pending] the keys
    added since. *)
Record filter_inv (b : FilterBlockBuilder) (filters : list (list bytes)) (pending : list bytes) : Prop := {
  fi_policy : policy_ b = policy;
  fi_keys : keys_ b = concat pending;
  fi_start : start_ b = running 0 pending;
  fi_result : result_ b = concat (filter_bytes <$> filters);
  fi_offsets : filter_offsets_ b = u32 <$> running 0 (filter_bytes <$> filters);
  fi_count : Forall (fun ks => blen ks < 2 ^ 31) filters;
}.

Lemma filter_inv_new : filter_inv (FilterBlockBuilder_new policy) [] [].
Proof. by split. Qed.

Lemma filter_inv_AddKey b filters pending key :
  filter_inv b filters pending -> filter_inv (AddKey key b) filters (pending ++ [key]).
Proof.
  intros [Hp Hk Hs Hr Ho Hc]. split; cbn; try done.
  - by rewrite Hk, concat_app, concat_cons, concat_nil, app_nil_r.
  - by rewrite Hs, Hk, running_app.
Qed.

Lemma filter_inv_Generate b filters pending :
  filter_inv b filters pending -> blen pending < 2 ^ 31 ->
  filter_inv (GenerateFilter b) (filters ++ [pending]) [].
Proof.
  intros [Hp Hk Hs Hr Ho Hc] Hn.
  assert (Forall (fun ks => blen ks < 2 ^ 31) (filters ++ [pending])) as Hcount
    by (apply Forall_app; split; [done|by apply Forall_singleton]).
  assert (filter_offsets_ b ++ [u32 (blen (result_ b))] =
          u32 <$> running 0 (filter_bytes <$> (filters ++ [pending]))) as Hoff.
  { by rewrite !fmap_app, running_app, fmap_app, <- Ho, Hr. }
  unfold GenerateFilter. rewrite Hs. destruct pending as [|k ks].
  - split; cbn; try done. by rewrite Hr, fmap_app, concat_app, app_nil_r.
  - cbn [running]. split; cbn [policy_ keys_ start_ result_ filter_offsets_]; try done.
    rewrite Hk, Hp. change (0 :: running (0 + blen k) ks) with (running (blen (@nil byte)) (k :: ks)).
    pose proof (tmp_keys_running [] (k :: ks) []) as Ht. rewrite app_nil_r in Ht. cbn [app] in Ht.
    rewrite blen_nil, Z.add_0_l in *. rewrite Ht, CreateFilter_appends, Hr by done.
    rewrite fmap_app, concat_app. f_equal. cbn. by rewrite app_nil_r.
Qed.

(** A key of a block is in the filter of the block's offset, or waiting for
    it. *)
Definition covered (filters : list (list bytes)) (pending : list bytes) (block_offset : Z) (key : bytes) : Prop :=
  let i := Z.to_nat (block_offset / kFilterBase) in
  (exists ks, filters !! i = Some ks /\ key ∈ ks) \/ (i = length filters /\ key ∈ pending).

Lemma covered_Generate filters pending off key :
  covered filters pending off key -> covered (filters ++ [pending]) [] off key.
Proof.
  intros [(ks & Hks & Hk)|[Hi Hk]]; left.
  - exists ks. split; [|done]. by apply lookup_app_l_Some.
  - exists pending. split; [|done]. rewrite Hi. by apply list_lookup_middle.
Qed.

Lemma StartBlock_loop_spec fuel index b filters pending :
  filter_inv b filters pending -> blen pending < 2 ^ 31 ->
  blen filters <= index -> (Z.to_nat (index - blen filters) <= fuel)%nat ->
  exists filters' pending', filter_inv (StartBlock_loop fuel index b) filters' pending' /\
    blen filters' = index /\ blen pending' <= blen pending /\
    (forall off key, covered filters pending off key -> covered filters' pending' off key).
Proof.
  revert b filters pending. induction fuel as [|fuel IH]; intros b filters pending Hi Hn Hle Hf; cbn [StartBlock_loop].
  { exists filters, pending. split_and!; [done|lia|lia|done]. }
  assert (blen (filter_offsets_ b) = blen filters) as ->.
  { rewrite (fi_offsets _ _ _ Hi). unfold blen. by rewrite length_fmap, length_running, length_fmap. }
  destruct (Z.ltb_spec (blen filters) index) as [Hlt|Hge].
  2:{ exists filters, pending. split_and!; [done|lia|lia|done]. }
  destruct (IH (GenerateFilter b) (filters ++ [pending]) []) as (f' & p' & Hi' & Hl & Hp' & Hc).
  - by apply filter_inv_Generate.
  - done.
  - len.
  - len.
  - exists f', p'. split_and!; [done|done| |].
    + rewrite blen_nil in Hp'. pose proof (blen_nonneg pending). lia.
    + intros off key Hck. by apply Hc, covered_Generate.
Qed.

(** The calls a table builder makes for its data blocks. *)
Definition add_block (b : FilterBlockBuilder) (blk : Z * list bytes) : FilterBlockBuilder :=
  fold_left (fun b k => AddKey k b) blk.2 (StartBlock blk.1 b).

Definition key_count (blocks : list (Z * list bytes)) : Z := blen (concat (snd <$> blocks)).

Lemma AddKeys_spec ks b filters pending off :
  filter_inv b filters pending -> Z.to_nat (off / kFilterBase) = length filters ->
  filter_inv (fold_left (fun b k => AddKey k b) ks b) filters (pending ++ ks) /\
  (forall o key, covered filters pending o key -> covered filters (pending ++ ks) o key) /\
  (forall key, key ∈ ks -> covered filters (pending ++ ks) off key).
Proof.
  intros Hi Hoff. split_and!.
  - revert b pending Hi. induction ks as [|k ks IH]; intros b pending Hi; [by rewrite app_nil_r|].
    cbn. replace (pending ++ k :: ks) with ((pending ++ [k]) ++ ks) by (by rewrite <- app_assoc).
    by apply IH, filter_inv_AddKey.
  - intros o key [H|[Hi' Hk]]; [by left|]. right. split; [done|]. apply elem_of_app. by left.
  - intros key Hk. right. split; [done|]. apply elem_of_app. by right.
Qed.

Lemma add_blocks_spec blocks b filters pending :
  filter_inv b filters pending ->
  StronglySorted (fun x y => x.1 <= y.1) blocks ->
  Forall (fun blk => 0 <= blk.1 /\ blen filters <= blk.1 / kFilterBase) blocks ->
  blen pending + key_count blocks < 2 ^ 31 ->
  exists filters' pending', filter_inv (fold_left add_block blocks b) filters' pending' /\
    blen pending' < 2 ^ 31 /\
    (forall o key, covered filters pending o key -> covered filters' pending' o key) /\
    (forall off ks key, (off, ks) ∈ blocks -> key ∈ ks -> covered filters' pending' off key).
Proof.
  revert b filters pending. induction blocks as [|[off ks] blocks IH]; intros b filters pending Hi Hs Hf Hn.
  { exists filters, pending. unfold key_count in Hn. cbn in Hn. rewrite blen_nil in Hn.
    split_and!; [done|lia|done|]. intros ??? H. by inversion H. }
  unfold key_count in Hn. cbn [fmap list_fmap concat snd] in Hn. rewrite blen_app in Hn.
  fold (key_count blocks) in Hn. pose proof (blen_nonneg ks). pose proof (blen_nonneg pending).
  pose proof (blen_nonneg (concat (snd <$> blocks)) : 0 <= key_count blocks).
  apply Forall_cons in Hf as [[Ho Hle] Hf]. cbn [fst] in *. inversion Hs as [|? ? Hs' Hall]; subst.
  set (index := off / kFilterBase) in *.
  destruct (StartBlock_loop_spec (Z.to_nat index) index b filters pending) as (f1 & p1 & Hi1 & Hl1 & Hp1 & Hc1);
    [done|lia|done|pose proof (blen_nonneg filters); lia|].
  destruct (AddKeys_spec ks (StartBlock off b) f1 p1 off) as (Hi2 & Hc2 & Hnew); [done|unfold blen in Hl1; lia|].
  destruct (IH (add_block b (off, ks)) f1 (p1 ++ ks)) as (f2 & p2 & Hi3 & Hb3 & Hc3 & Hnew3).
  - exact Hi2.
  - done.
  - rewrite Forall_forall in Hall, Hf |- *. intros blk Hblk. destruct (Hf blk Hblk) as [Hb0 _]. split; [done|].
    rewrite Hl1. apply Z.div_le_mono; [done|]. by apply Hall.
  - rewrite blen_app. lia.
  - exists f2, p2. split_and!; [done|done|by auto|].
    intros o ks' key [[= -> ->]|Hin]%elem_of_cons Hkey; [by auto|]. by apply (Hnew3 o ks').
Qed.

End builder_facts.
#[global] Arguments filter_bytes policy ks : clear implicits.
#[global] Arguments filter_inv policy : clear implicits.

(** * Reading a filter block *)

Section reader_facts.
Context {port : Port} {policy : FilterPolicy} `{!FilterPolicyOk policy}.

(** The finished block of the given filters. *)
Definition filter_block_bytes (filters : list (list bytes)) : bytes :=
  let result := concat (filter_bytes policy <$> filters) in
  result ++ concat (EncodeFixed32 <$> (running 0 (filter_bytes policy <$> filters) ++ [blen result])) ++
  [bz kFilterBaselg].

Lemma u32_running ls : blen (concat ls) < 2 ^ 32 -> u32 <$> running 0 ls = running 0 ls.
Proof.
  intros Hs. transitivity (id <$> running 0 ls); [|apply list_fmap_id].
  apply list_fmap_ext. intros i v Hv. apply running_range in Hv.
  change (u32 v = v). unfold u32. rewrite Z.mod_small; [done|lia].
Qed.

Lemma Finish_filters b filters pending :
  filter_inv policy b filters pending -> blen pending < 2 ^ 31 ->
  exists filters', (forall o key, covered filters pending o key -> covered filters' [] o key) /\
    Forall (fun ks => blen ks < 2 ^ 31) filters' /\
    (blen (Finish b) < 2 ^ 32 ->
     blen (concat (filter_bytes policy <$> filters')) < 2 ^ 32 /\ Finish b = filter_block_bytes filters').
Proof.
  intros Hi Hn.
  assert (exists filters', filter_inv policy (match start_ b with [] => b | _ => GenerateFilter b end) filters' [] /\
            (forall o key, covered filters pending o key -> covered filters' [] o key)) as (f' & Hi' & Hc).
  { pose proof (fi_start _ _ _ Hi) as Hs. destruct pending as [|k ks].
    - exists filters. rewrite Hs. done.
    - exists (filters ++ [k :: ks]). rewrite Hs. cbn [running]. split; [by apply filter_inv_Generate|].
      intros o key. apply covered_Generate. }
  exists f'. split_and!; [done|apply Hi'|]. intros Hfin.
  destruct Hi' as [_ _ _ Hr Ho _].
  assert (blen (concat (filter_bytes policy <$> f')) < 2 ^ 32) as Hsz.
  { unfold Finish in Hfin. rewrite fold_PutFixed32 in Hfin. unfold PutFixed32 in Hfin. rewrite Hr in Hfin. len. }
  split; [done|]. unfold Finish, filter_block_bytes. rewrite Hr, Ho, u32_running by done. rewrite fold_PutFixed32.
  unfold PutFixed32, u32. rewrite Z.mod_small by (pose proof (blen_nonneg (concat (filter_bytes policy <$> f'))); lia).
  rewrite fmap_app, concat_app. cbn. rewrite app_nil_r. by rewrite <- !app_assoc.
Qed.

Lemma running_last_lookup ls i l off : ls !! i = Some l ->
  exists a, (running off ls ++ [off + blen (concat ls)]) !! i = Some a /\
    (running off ls ++ [off + blen (concat ls)]) !! S i = Some (a + blen l).
Proof.
  revert off i. induction ls as [|x ls IH]; intros off i Hi; [done|].
  cbn [running concat app]. rewrite blen_app, Z.add_assoc. destruct i as [|i].
  - injection Hi as ->. exists off. split; [done|]. cbn.
    destruct ls; cbn [running app lookup]; [|done]. cbn. by rewrite blen_nil, Z.add_0_r.
  - destruct (IH (off + blen x) i Hi) as (a & H1 & H2). exists a. done.
Qed.

Lemma FilterBlockReader_new_bytes filters :
  blen (concat (filter_bytes policy <$> filters)) < 2 ^ 32 ->
  FilterBlockReader_new policy (filter_block_bytes filters) =
  mkFilterBlockReader policy (filter_block_bytes filters)
    (blen (concat (filter_bytes policy <$> filters))) (blen filters) kFilterBaselg.
Proof.
  intros Hsz. set (ls := filter_bytes policy <$> filters) in *. set (R := blen (concat ls)) in *.
  pose proof (blen_nonneg (concat ls)) as HR. fold R in HR.
  assert (filter_block_bytes filters =
    concat ls ++ concat (EncodeFixed32 <$> running 0 ls) ++ EncodeFixed32 R ++ [bz kFilterBaselg]) as Hb.
  { unfold filter_block_bytes. fold ls. fold R. rewrite fmap_app, concat_app. cbn. rewrite app_nil_r.
    by rewrite <- !app_assoc. }
  assert (blen (concat (EncodeFixed32 <$> running 0 ls)) = 4 * blen filters) as HN.
  { rewrite length_encoded. unfold blen. rewrite length_running. unfold ls. by rewrite length_fmap. }
  pose proof (blen_nonneg filters).
  assert (blen (filter_block_bytes filters) = R + 4 * blen filters + 5) as Hl.
  { rewrite Hb, !blen_app, HN. fold R. len. }
  unfold FilterBlockReader_new. rewrite Hl, (proj2 (Z.ltb_ge _ 5)) by lia.
  assert (nth (Z.to_nat (R + 4 * blen filters + 5 - 1)) (filter_block_bytes filters) Byte.x00 = bz kFilterBaselg) as ->.
  { rewrite Hb, !app_assoc. rewrite app_nth2; rewrite !length_app, length_EncodeFixed32; [|unfold R, blen in *; lia].
    replace (_ - _)%nat with 0%nat by (unfold R, blen in *; lia). done. }
  assert (DecodeFixed32 (drop (Z.to_nat (R + 4 * blen filters + 5 - 5)) (filter_block_bytes filters)) = R) as ->.
  { rewrite Hb, app_assoc, drop_app_length' by (rewrite length_app; unfold R, blen in *; lia).
    apply DecodeFixed32_Encode. lia. }
  rewrite (proj2 (Z.ltb_ge _ _)) by lia. f_equal.
  replace (R + 4 * blen filters + 5 - 5 - R) with (blen filters * 4) by lia. by apply Z.div_mul.
Qed.

Lemma reader_covered filters off key :
  blen (concat (filter_bytes policy <$> filters)) < 2 ^ 32 -> 0 <= off ->
  Forall (fun ks => blen ks < 2 ^ 31) filters -> covered filters [] off key ->
  FilterBlock_KeyMayMatch (FilterBlockReader_new policy (filter_block_bytes filters)) off key = true.
Proof.
  intros Hsz Hoff Hn [(ks & Hks & Hk)|[_ Hk]]; [|by inversion Hk].
  rewrite FilterBlockReader_new_bytes by done. unfold FilterBlock_KeyMayMatch.
  cbn [base_lg_ num_ offset_ data_ reader_policy_].
  set (ls := filter_bytes policy <$> filters) in *. set (R := blen (concat ls)) in *.
  rewrite Z.shiftr_div_pow2 by done. change (2 ^ kFilterBaselg) with kFilterBase.
  set (i := Z.to_nat (off / kFilterBase)) in *.
  assert (off / kFilterBase = Z.of_nat i) as ->
    by (unfold i; rewrite Z2Nat.id; [done|apply Z.div_pos; [done|reflexivity]]).
  pose proof (lookup_lt_Some _ _ _ Hks) as Hil. rewrite (proj2 (Z.ltb_lt _ _)) by len.
  assert (ls !! i = Some (filter_bytes policy ks)) as Hls by (unfold ls; by rewrite list_lookup_fmap, Hks).
  destruct (running_last_lookup ls i _ 0 Hls) as (a & Ha & Hb). rewrite Z.add_0_l in Ha, Hb. fold R in Ha, Hb.
  pose proof (blen_nonneg (filter_bytes policy ks)).
  assert (0 <= a /\ a + blen (filter_bytes policy ks) <= R) as [Ha0 HaR].
  { assert (forall j v, (running 0 ls ++ [R]) !! j = Some v -> 0 <= v <= R) as Hrg.
    { intros j v [Hv|[_ Hv]]%lookup_app_Some.
      - apply running_range in Hv. fold R in Hv. lia.
      - apply list_lookup_singleton_Some in Hv as [_ <-]. unfold R. pose proof (blen_nonneg (concat ls)). lia. }
    split; [by eapply Hrg|by eapply Hrg]. }
  assert (forall j v, (running 0 ls ++ [R]) !! j = Some v -> 0 <= v < 2 ^ 32 ->
    DecodeFixed32 (drop (Z.to_nat (R + Z.of_nat j * 4)) (filter_block_bytes filters)) = v) as Hdec.
  { intros j v Hj Hv. unfold filter_block_bytes. fold ls. fold R.
    replace (Z.to_nat (R + Z.of_nat j * 4)) with (length (concat ls) + 4 * j)%nat by (unfold R, blen; lia).
    rewrite drop_app_add. by apply DecodeFixed32_concat. }
  rewrite (Hdec i a), <- Z.add_assoc by (done || lia).
  replace (Z.of_nat i * 4 + 4) with (Z.of_nat (S i) * 4) by lia. rewrite (Hdec _ _ Hb) by lia.
  rewrite !(proj2 (Z.leb_le _ _)) by lia. cbn [andb].
  assert (take (Z.to_nat (a + blen (filter_bytes policy ks) - a)) (drop (Z.to_nat a) (filter_block_bytes filters)) =
          filter_bytes policy ks) as ->.
  { pose proof (tmp_keys_lookup (filter_block_bytes filters) _ _ _ _ Ha Hb) as Ht.
    unfold filter_block_bytes in Ht at 1. fold ls in Ht. fold R in Ht.
    pose proof (tmp_keys_running [] ls (concat (EncodeFixed32 <$> (running 0 ls ++ [R])) ++ [bz kFilterBaselg])) as Hr.
    cbn [app] in Hr. change (blen []) with 0 in Hr. rewrite Z.add_0_l in Hr. fold R in Hr. rewrite Hr, Hls in Ht. by injection Ht. }
  unfold filter_bytes. destruct ks as [|k0 ks0]; [by inversion Hk|].
  apply CreateFilter_matches; [|done]. by apply (Forall_lookup_1 _ _ _ _ Hn Hks).
Qed.

Lemma FilterBlock_accepts (blocks : list (Z * list bytes)) (off : Z) (ks : list bytes) (key : bytes) :
  StronglySorted (fun x y => x.1 <= y.1) blocks -> Forall (fun blk => 0 <= blk.1) blocks ->
  key_count blocks < 2 ^ 31 ->
  let contents := Finish (fold_left add_block blocks (FilterBlockBuilder_new policy)) in
  blen contents < 2 ^ 32 -> (off, ks) ∈ blocks -> key ∈ ks ->
  FilterBlock_KeyMayMatch (FilterBlockReader_new policy contents) off key = true.
Proof.
  intros Hs Ho Hn contents Hsz Hin Hk.
  destruct (add_blocks_spec blocks (FilterBlockBuilder_new policy) [] []) as (f & p & Hi & Hp & _ & Hc).
  - apply filter_inv_new.
  - done.
  - eapply Forall_impl; [exact Ho|]. intros blk Hb. cbn. split; [done|]. by apply Z.div_pos.
  - rewrite blen_nil. lia.
  - destruct (Finish_filters _ _ _ Hi Hp) as (f' & Hc' & Hcount & Hfin).
    destruct (Hfin Hsz) as [Hsz' Heq]. unfold contents. rewrite Heq. apply reader_covered; try done.
    + rewrite Forall_forall in Ho. apply (Ho _ Hin).
    + by apply Hc', (Hc off ks).
Qed.

(** C19: the filter block has no false negatives.  For any filter policy that
    keeps its promise and any sequence of data blocks at non-decreasing
    offsets with their keys (below 2^31 keys and 4 GB of filters), the filter
    block that the builder finishes accepts, for the offset of each block,
    every key that was added for it. *)
Theorem FilterBlock_no_false_negatives (blocks : list (Z * list bytes)) (off : Z) (ks : list bytes) (key : bytes) :
  StronglySorted (fun x y => x.1 <= y.1) blocks -> Forall (fun blk => 0 <= blk.1) blocks ->
  key_count blocks < 2 ^ 31 ->
  let contents := Finish (fold_left add_block blocks (FilterBlockBuilder_new policy)) in
  blen contents < 2 ^ 32 -> (off, ks) ∈ blocks -> key ∈ ks ->
  FilterBlock_KeyMayMatch (FilterBlockReader_new policy contents) off key = true.
Proof. apply FilterBlock_accepts. Qed.

End reader_facts.

Lemma FilterBlock_no_false_negatives_witness :
  let P := little_endian_port in
  let policy := NewBloomFilterPolicy 10 in
  let foo := bytes_of_string "foo" in
  let bar := bytes_of_string "bar" in
  let blocks := [(0, [foo]); (3000, [bar; foo]); (9000, [bar])] in
  let contents := Finish (fold_left add_block blocks (FilterBlockBuilder_new policy)) in
  FilterBlock_KeyMayMatch (FilterBlockReader_new policy contents) 0 bar = false /\
  FilterBlock_KeyMayMatch (FilterBlockReader_new policy contents) 3000 bar = true.
Proof.
  intros P policy foo bar blocks contents. split; [vm_compute; reflexivity|].
  assert (FilterPolicyOk policy) as Hp by (apply NewBloomFilterPolicy_ok; lia).
  apply (FilterBlock_no_false_negatives (port := P) (policy := policy) blocks 3000 [bar; foo]).
  - repeat constructor; discriminate.
  - repeat constructor; discriminate.
  - reflexivity.
  - vm_compute. reflexivity.
  - right. left.
  - left.
Defined.
