(* ===== verification/MemTable.v ===== *)
(** The memtable of [db/memtable.h] and [db/memtable.cpp]: internal keys with
    their values, encoded into arena memory and kept in a skip list.

    A skip-list key is a [const char*] into the arena; the model keeps the
    bytes it points at.  Proved: [Get] returns the newest version that is
    visible at a snapshot, and the iterator walks the entries in
    internal-key order. *)

From Stdlib Require Import Sorted.
From S2P Require Import Prelude Port Arena SkipList Coding Status Comparator DbFormat Iterator.

(** * Encoding *)

Section encoding.
Context {port : Port}.

(** [GetVarint32Ptr(p, p + 5, &len)]: the length and what the pointer it
    returns points at. *)
Definition GetVarint32Ptr_5 (data : bytes) : option (Z * bytes) :=
  match GetVarint32Ptr (take 5 data) with
  | Some (len, q) => Some (len, q ++ drop 5 data)
  | None => None
  end.

(** The slice behind its length, and what follows it.  The code assumes that
    the length is not corrupt. *)
Definition MemTable_GetLengthPrefixedSlice (data : bytes) : bytes * bytes :=
  match GetVarint32Ptr_5 data with
  | Some (len, p) => (take (Z.to_nat len) p, drop (Z.to_nat len) p)
  | None => ([], [])
  end.

(** [MemTable::KeyComparator] *)
Definition KeyComparator (user : Comparator) (aptr bptr : bytes) : Z :=
  Compare (InternalKeyComparator user) (MemTable_GetLengthPrefixedSlice aptr).1
    (MemTable_GetLengthPrefixedSlice bptr).1.

Definition EncodeKey (target : bytes) : bytes := PutVarint32 [] (u32 (blen target)) ++ target.

Definition MemTable_encoded_len (key value : bytes) : Z :=
  let internal_key_size := u64 (blen key + 8) in
  let val_size := blen value in
  u64 (VarintLength internal_key_size + internal_key_size + VarintLength val_size + val_size).

(** What [Add] writes into [buf]. *)
Definition MemTable_entry (s : Z) (type : ValueType) (key value : bytes) : bytes :=
  EncodeVarint32 (u32 (blen key + 8)) ++ key ++
  EncodeFixed64 (Z.lor (u64 (Z.shiftl s 8)) (ValueType_num type)) ++
  EncodeVarint32 (u32 (blen value)) ++ value.
End encoding.

(** * The table *)

Record MemTable (A : Type) := mkMemTable {
  mem_comparator : Comparator;
  refs_ : Z;
  table_ : SkipList bytes A;
}.
#[global] Arguments mkMemTable {A}.
#[global] Arguments mem_comparator {A}.
#[global] Arguments refs_ {A}.
#[global] Arguments table_ {A}.

(** An entry as the caller of [Add] gives it. *)
Record MemEntry := mkMemEntry { me_seq : Z; me_type : ValueType; me_key : bytes; me_value : bytes }.

Section memtable.
Context {port : Port} {A : Type} `{!ArenaOps A}.
Implicit Types (mt : MemTable A).

(** [arena_] is the object the skip list's arena pointer refers to. *)
Definition MemTable_new (user : Comparator) (arena : A) : option (MemTable A) :=
  table ← SkipList_new [] arena; Some (mkMemTable user 0 table).

Definition MemTable_Ref mt : MemTable A := mkMemTable (mem_comparator mt) (refs_ mt + 1) (table_ mt).

(** [None]: the table has deleted itself. *)
Definition MemTable_Unref mt : option (MemTable A) :=
  let refs := refs_ mt - 1 in
  if refs <=? 0 then None else Some (mkMemTable (mem_comparator mt) refs (table_ mt)).

Definition ApproximateMemoryUsage (usage : A -> Z) mt : Z := usage (arena_ (table_ mt)).

Definition MemTable_Add mt (s : Z) (type : ValueType) (key value : bytes) : option (MemTable A) :=
  let '(_, arena) := Allocate (MemTable_encoded_len key value) (arena_ (table_ mt)) in
  table ← SkipList_Insert (KeyComparator (mem_comparator mt)) (set_arena (table_ mt) arena)
            (MemTable_entry s type key value);
  Some (mkMemTable (mem_comparator mt) (refs_ mt) table).

(** The result with what was stored to [*value] and to [*s]. *)
Definition MemTable_Get mt (key : LookupKey) : option (bool * option bytes * option Status) :=
  let user := mem_comparator mt in
  node ← Iter_Seek (KeyComparator user) (table_ mt) (memtable_key key);
  if Iter_Valid node then
    entry ← Iter_key (table_ mt) node;
    '(key_length, key_ptr) ← GetVarint32Ptr_5 entry;
    if Compare user (take (Z.to_nat (key_length - 8)) key_ptr) (LookupKey_user_key key) =? 0 then
      let tag := DecodeFixed64 (drop (Z.to_nat (key_length - 8)) key_ptr) in
      match ValueType_of (Z.land tag 0xff) with
      | Some kTypeValue =>
        let v := (MemTable_GetLengthPrefixedSlice (drop (Z.to_nat key_length) key_ptr)).1 in
        Some (true, Some v, None)
      | Some kTypeDeletion => Some (true, None, Some (NotFound [] []))
      | None => Some (false, None, None)
      end
    else Some (false, None, None)
  else Some (false, None, None).

Definition MemTable_add_entry mt (e : MemEntry) : option (MemTable A) :=
  MemTable_Add mt (me_seq e) (me_type e) (me_key e) (me_value e).

Fixpoint MemTable_AddAll mt (entries : list MemEntry) : option (MemTable A) :=
  match entries with
  | [] => Some mt
  | e :: entries => mt ← MemTable_add_entry mt e; MemTable_AddAll mt entries
  end.

(** ** The iterator *)

(** The skip list it walks and its node. *)
Record MemTableIterator := mkMemTableIterator {
  mi_comparator : Comparator;
  mi_table : SkipList bytes A;
  mi_node : Z;
}.

Definition MemTable_NewIterator mt : MemTableIterator := mkMemTableIterator (mem_comparator mt) (table_ mt) 0.

Definition mi_move (it : MemTableIterator) (node : option Z) : MemTableIterator :=
  mkMemTableIterator (mi_comparator it) (mi_table it) (default 0 node).

Definition mi_entry (it : MemTableIterator) : bytes := default [] (Iter_key (mi_table it) (mi_node it)).

#[export] Instance MemTableIterator_ops : IteratorOps MemTableIterator := {
  Valid it := Iter_Valid (mi_node it);
  SeekToFirst it := mi_move it (Iter_SeekToFirst (mi_table it));
  SeekToLast it := mi_move it (Iter_SeekToLast (mi_table it));
  Seek k it := mi_move it (Iter_Seek (KeyComparator (mi_comparator it)) (mi_table it) (EncodeKey k));
  Next it := mi_move it (Iter_Next (mi_table it) (mi_node it));
  Prev it := mi_move it (Iter_Prev (KeyComparator (mi_comparator it)) (mi_table it) (mi_node it));
  iter_key it := (MemTable_GetLengthPrefixedSlice (mi_entry it)).1;
  iter_value it := (MemTable_GetLengthPrefixedSlice (MemTable_GetLengthPrefixedSlice (mi_entry it)).2).1;
  status _ := OK;
}.
End memtable.

(** * Entries *)

Section entries.
Context {port : Port}.

Lemma GetVarint32Ptr_5_Encode v rest : 0 <= v < 2 ^ 32 ->
  GetVarint32Ptr_5 (EncodeVarint32 v ++ rest) = Some (v, rest).
Proof.
  intros Hv. unfold GetVarint32Ptr_5. pose proof (EncodeVarint32_length v) as Hl.
  rewrite take_app_ge, drop_app_ge by lia. rewrite GetVarint32Ptr_Encode by done. by rewrite take_drop.
Qed.

Lemma prefixed_slice_Encode s rest : blen s < 2 ^ 32 ->
  MemTable_GetLengthPrefixedSlice (EncodeVarint32 (u32 (blen s)) ++ s ++ rest) = (s, rest).
Proof.
  intros Hs. unfold MemTable_GetLengthPrefixedSlice. pose proof (blen_nonneg s).
  unfold u32. rewrite Z.mod_small, GetVarint32Ptr_5_Encode by lia. unfold blen. rewrite Nat2Z.id.
  by rewrite take_app_length, drop_app_length.
Qed.

(** Bytes that start with a length-prefixed internal key. *)
Definition entry_ok (valid : bytes -> Prop) (e : bytes) : Prop :=
  exists ik rest, e = EncodeVarint32 (u32 (blen ik)) ++ ik ++ rest /\ blen ik < 2 ^ 32 /\ internal_valid valid ik.

Lemma entry_ok_slice valid e : entry_ok valid e -> internal_valid valid (MemTable_GetLengthPrefixedSlice e).1.
Proof. intros (ik & rest & -> & Hl & Hv). by rewrite prefixed_slice_Encode. Qed.

#[export] Instance KeyComparator_order user valid `{!ComparatorOk user valid} :
  KeyOrder (KeyComparator user) (entry_ok valid).
Proof.
  split; unfold KeyComparator; cbn [Compare InternalKeyComparator].
  - intros a b [_ Va]%entry_ok_slice [_ Vb]%entry_ok_slice. rewrite Internal_Compare_lt, Internal_Compare_gt.
    by rewrite (Compare_antisym _ _ Va Vb), (Compare_eq_iff _ _ Va Vb).
  - intros a b c Va%entry_ok_slice Vb%entry_ok_slice Vc%entry_ok_slice. by apply Internal_Compare_le_trans.
Qed.

(** The entries [Add] may be called with: a valid key, a sequence number of
    56 bits, and sizes that an allocation of less than 4 GB holds. *)
Definition addable (valid : bytes -> Prop) (e : MemEntry) : Prop :=
  valid (me_key e) /\ seq_ok (me_seq e) /\ blen (me_key e) + blen (me_value e) + 18 < 2 ^ 32.

Definition me_internal_key (e : MemEntry) : bytes := InternalKey_new (me_key e) (me_seq e) (me_type e).

Definition me_encoding (e : MemEntry) : bytes := MemTable_entry (me_seq e) (me_type e) (me_key e) (me_value e).

Lemma blen_InternalKey_new u s t : blen (InternalKey_new u s t) = blen u + 8.
Proof. unfold InternalKey_new. rewrite AppendInternalKey_eq. cbn. rewrite blen_app. len. Qed.

Lemma internal_valid_new (valid : bytes -> Prop) u s t : valid u -> internal_valid valid (InternalKey_new u s t).
Proof.
  intros Hv. split; [rewrite blen_InternalKey_new; pose proof (blen_nonneg u); lia|].
  unfold InternalKey_new. rewrite AppendInternalKey_eq. cbn [app user_key sequence type].
  by rewrite ExtractUserKey_app.
Qed.

Lemma me_encoding_eq e :
  me_encoding e = EncodeVarint32 (u32 (blen (me_internal_key e))) ++ me_internal_key e ++
                  EncodeVarint32 (u32 (blen (me_value e))) ++ me_value e.
Proof.
  unfold me_encoding, MemTable_entry, me_internal_key. rewrite blen_InternalKey_new.
  unfold InternalKey_new. rewrite AppendInternalKey_eq. cbn [app user_key sequence type].
  by rewrite <- app_assoc.
Qed.

Lemma me_encoding_ok valid e : addable valid e ->
  entry_ok valid (me_encoding e) /\
  MemTable_GetLengthPrefixedSlice (me_encoding e) =
    (me_internal_key e, EncodeVarint32 (u32 (blen (me_value e))) ++ me_value e ++ []).
Proof.
  intros (Hv & Hs & Hl). pose proof (blen_nonneg (me_value e)). pose proof (blen_nonneg (me_key e)).
  pose proof (blen_InternalKey_new (me_key e) (me_seq e) (me_type e)) as Hik. fold (me_internal_key e) in Hik.
  rewrite me_encoding_eq. split.
  - eexists _, _. split; [done|]. split; [lia|]. by apply internal_valid_new.
  - rewrite prefixed_slice_Encode by lia. by rewrite app_nil_r.
Qed.

Lemma VarintLength_Encode v : 0 <= v < 2 ^ 32 ->
  VarintLength v = blen (EncodeVarint32 v) /\ 1 <= VarintLength v <= 5.
Proof.
  intros Hv. rewrite VarintLength_spec, <- EncodeVarint32_64 by lia. split; [done|].
  pose proof (EncodeVarint32_length v). unfold blen. lia.
Qed.

(** [encoded_len] is the number of bytes [Add] writes, so its [assert] holds
    and the writes stay inside the allocation. *)
Lemma encoded_len_exact valid e : addable valid e ->
  MemTable_encoded_len (me_key e) (me_value e) = blen (me_encoding e) /\
  0 < MemTable_encoded_len (me_key e) (me_value e) < 2 ^ 32.
Proof.
  intros (Hv & Hs & Hl). pose proof (blen_nonneg (me_value e)). pose proof (blen_nonneg (me_key e)).
  rewrite me_encoding_eq. unfold MemTable_encoded_len. rewrite !blen_app.
  pose proof (blen_InternalKey_new (me_key e) (me_seq e) (me_type e)) as Hik. fold (me_internal_key e) in Hik.
  rewrite Hik. unfold u64, u32. rewrite !(Z.mod_small (_ + 8)), (Z.mod_small (blen (me_value e))) by lia.
  destruct (VarintLength_Encode (blen (me_key e) + 8)) as [H1 H2]; [lia|].
  destruct (VarintLength_Encode (blen (me_value e))) as [H3 H4]; [lia|].
  rewrite H1, H3, Z.mod_small by lia. lia.
Qed.

End entries.

(** * Adding *)

Section adding.
Context {port : Port} {A : Type} `{!ArenaOps A} {live : A -> Prop} {used : A -> Z -> Prop} `{!ArenaOk A live used}.
Context {user : Comparator} {valid : bytes -> Prop} `{!ComparatorOk user valid}.

(** The table holds exactly the encodings of [entries]. *)
Definition holds (mt : MemTable A) (entries : list MemEntry) (L : list (Z * bytes)) : Prop :=
  mem_comparator mt = user /\
  quiescent (KeyComparator user) live used (entry_ok valid) (table_ mt) L /\
  L.*2 ≡ₚ me_encoding <$> entries.

Lemma KeyComparator_encoding e e' : addable valid e -> addable valid e' ->
  KeyComparator user (me_encoding e) (me_encoding e') = Internal_Compare user (me_internal_key e) (me_internal_key e').
Proof.
  intros [_ H]%me_encoding_ok [_ H']%me_encoding_ok. unfold KeyComparator. by rewrite H, H'.
Qed.

(** Entries with different sequence numbers never compare equal. *)
Lemma Internal_Compare_seq e e' : addable valid e -> addable valid e' -> me_seq e <> me_seq e' ->
  Internal_Compare user (me_internal_key e) (me_internal_key e') <> 0.
Proof.
  intros (Hv & Hs & _) (Hv' & Hs' & _) Hne Hz.
  assert (Htag : forall a b, Internal_Compare user a b = 0 -> ExtractTag a = ExtractTag b).
  { intros a b H. pose proof (Internal_Compare_lt (user := user) a b). pose proof (Internal_Compare_gt (user := user) a b).
    lia. }
  apply Htag in Hz. unfold me_internal_key, InternalKey_new in Hz. rewrite !AppendInternalKey_eq in Hz.
  cbn [app user_key sequence type] in Hz. rewrite !ExtractTag_app in Hz by (by apply PackSequenceAndType_range).
  apply Hne. rewrite <- (Pack_sequence (me_seq e) (me_type e)), <- (Pack_sequence (me_seq e') (me_type e')) by done.
  by rewrite Hz.
Qed.

Lemma Add_ok mt entries L e : holds mt entries L -> Forall (addable valid) entries -> addable valid e ->
  Forall (fun e' => me_seq e' <> me_seq e) entries ->
  exists mt' L', MemTable_add_entry mt e = Some mt' /\ holds mt' (e :: entries) L'.
Proof.
  intros (Hu & Hq & HP) Hall He Hseq. unfold MemTable_add_entry, MemTable_Add. rewrite Hu.
  destruct (encoded_len_exact valid e He) as [_ Hlen].
  destruct (Allocate _ (arena_ (table_ mt))) as [p a] eqn:E.
  assert (live (arena_ (table_ mt))) as Hlive by (destruct Hq as (? & ? & Hok & _); apply Hok).
  apply Allocate_ok in E as (Hlive' & _ & Hused & _); [|done|done].
  pose proof (quiescent_arena _ _ _ _ _ _ a Hq Hlive' Hused) as Hq'.
  fold (me_encoding e). destruct (Insert_ok (KeyComparator user) live used (entry_ok valid) _ L (me_encoding e) Hq')
    as (t & x & -> & Hq2).
  { split; [by apply me_encoding_ok|]. rewrite Forall_forall in Hall, Hseq. apply Forall_forall.
    intros [b k] Hin. cbn [snd].
    assert (k ∈ me_encoding <$> entries) as Hk.
    { rewrite <- HP. change k with (b, k).2. by apply list_elem_of_fmap_2. }
    apply list_elem_of_fmap in Hk as (e' & -> & He').
    pose proof (Hall _ He') as He2. rewrite KeyComparator_encoding by done.
    apply Internal_Compare_seq; [done|done|by apply Hseq]. }
  cbn [mbind option_bind]. eexists _, _. split; [done|]. split; [done|]. split; [exact Hq2|].
  rewrite fmap_app, fmap_cons. cbn [snd]. rewrite <- Permutation_middle, fmap_cons. apply perm_skip.
  destruct Hq as (? & ? & Hok & _).
  pose proof (ok_split _ _ _ _ _ _ _ _ (me_encoding e) Hok (proj1 (me_encoding_ok valid e He))) as HL.
  by rewrite <- HP, <- fmap_app, <- HL.
Qed.

Lemma MemTable_AddAll_ok todo mt entries L : holds mt entries L -> Forall (addable valid) entries ->
  Forall (addable valid) todo -> NoDup (me_seq <$> todo ++ entries) ->
  exists mt' L', MemTable_AddAll mt todo = Some mt' /\ holds mt' (rev todo ++ entries) L'.
Proof.
  revert mt entries L. induction todo as [|e todo IH]; intros mt entries L Hh Hall Htodo Hnd; cbn [MemTable_AddAll].
  { by exists mt, L. }
  apply Forall_cons in Htodo as [He Htodo]. cbn [app] in Hnd. rewrite fmap_cons in Hnd. apply NoDup_cons in Hnd as [Hni Hnd].
  destruct (Add_ok mt entries L e Hh Hall He) as (mt1 & L1 & -> & Hh1).
  { apply Forall_forall. intros e' Hin Heq. apply Hni. rewrite <- Heq. apply list_elem_of_fmap_2. set_solver. }
  cbn [mbind option_bind]. destruct (IH mt1 (e :: entries) L1 Hh1) as (mt' & L' & -> & Hh').
  - by constructor.
  - done.
  - rewrite fmap_app, fmap_cons in *. rewrite <- Permutation_middle. by constructor.
  - exists mt', L'. split; [done|]. cbn [rev]. by rewrite <- app_assoc.
Qed.

Lemma MemTable_new_ok arena : live arena ->
  exists mt, MemTable_new user arena = Some mt /\ holds mt [] [].
Proof.
  intros Hl. destruct (SkipList_new_ok (KeyComparator user) live used (entry_ok valid) [] arena Hl) as (t & Ht & Hq).
  unfold MemTable_new. rewrite Ht. cbn [mbind option_bind]. eexists. split; [done|]. by split_and!.
Qed.

(** * Looking up *)

(** The versions of [u] that a reader at sequence number [s] sees. *)
Definition visible_at (u : bytes) (s : Z) (e : MemEntry) : bool :=
  (Compare user (me_key e) u =? 0) && (me_seq e <=? s).

(** The one with the largest sequence number. *)
Fixpoint newest (u : bytes) (s : Z) (entries : list MemEntry) : option MemEntry :=
  match entries with
  | [] => None
  | e :: entries =>
    match newest u s entries with
    | Some b => if visible_at u s e && (me_seq b <? me_seq e) then Some e else Some b
    | None => if visible_at u s e then Some e else None
    end
  end.

(** What [Get] answers for it. *)
Definition get_result (r : option MemEntry) : bool * option bytes * option Status :=
  match r with
  | None => (false, None, None)
  | Some e =>
    match me_type e with
    | kTypeValue => (true, Some (me_value e), None)
    | kTypeDeletion => (true, None, Some (NotFound [] []))
    end
  end.

Definition is_newest (u : bytes) (s : Z) (entries : list MemEntry) (r : option MemEntry) : Prop :=
  match r with
  | None => forall e, e ∈ entries -> visible_at u s e = false
  | Some b => b ∈ entries /\ visible_at u s b = true /\
      forall e, e ∈ entries -> visible_at u s e = true -> me_seq e <= me_seq b
  end.

Lemma newest_is u s entries : is_newest u s entries (newest u s entries).
Proof.
  induction entries as [|e entries IH]; cbn [newest is_newest]; [set_solver|].
  destruct (newest u s entries) as [b|]; cbn [is_newest] in IH.
  - destruct IH as (Hb & Hvb & Hmax). destruct (visible_at u s e) eqn:Ee; cbn [andb].
    + destruct (Z.ltb_spec (me_seq b) (me_seq e)); cbn [is_newest]; (split; [set_solver|split; [done|]]);
        intros e' [->|He']%elem_of_cons Hv'; [lia|specialize (Hmax e' He' Hv'); lia|lia|by apply Hmax].
    + cbn [is_newest]. split; [set_solver|]. split; [done|]. intros e' [->|He']%elem_of_cons Hv'; [congruence|auto].
  - destruct (visible_at u s e) eqn:Ee; cbn [is_newest].
    + split; [set_solver|]. split; [done|]. intros e' [->|He']%elem_of_cons Hv'; [lia|].
      rewrite IH in Hv' by done. done.
    + intros e' [->|He']%elem_of_cons; auto.
Qed.

Lemma is_newest_unique u s entries entries' r r' : entries ≡ₚ entries' -> NoDup (me_seq <$> entries) ->
  is_newest u s entries r -> is_newest u s entries' r' -> r = r'.
Proof.
  intros HP Hnd Hr Hr'.
  assert (Hin : forall e, e ∈ entries <-> e ∈ entries') by (intros e; by rewrite HP).
  assert (Hinj : forall e e', e ∈ entries -> e' ∈ entries -> me_seq e = me_seq e' -> e = e').
  { intros e e' (i & Hi)%list_elem_of_lookup (j & Hj)%list_elem_of_lookup Heq.
    assert (i = j) as ->; [|congruence].
    eapply (NoDup_lookup (me_seq <$> entries) i j (me_seq e)); [done|by rewrite list_lookup_fmap, Hi|].
    by rewrite list_lookup_fmap, Hj, Heq. }
  destruct r as [b|], r' as [b'|]; cbn [is_newest] in *; [|exfalso|exfalso|done].
  - destruct Hr as (H1 & H2 & H3), Hr' as (H1' & H2' & H3'). f_equal. apply Hinj; [done|by apply Hin|].
    apply Hin in H1'. pose proof (H3 b' H1' H2'). apply Hin in H1. pose proof (H3' b H1 H2). lia.
  - destruct Hr as (H1 & H2 & _). rewrite Hr' in H2 by by apply Hin. done.
  - destruct Hr' as (H1 & H2 & _). rewrite Hr in H2 by by apply Hin. done.
Qed.

(** The order of an entry and a lookup key for [u] at [s]. *)
Lemma Compare_lookup e u s : addable valid e -> seq_ok s ->
  let c := Internal_Compare user (me_internal_key e) (InternalKey_new u s kValueTypeForSeek) in
  (0 <= c <-> 0 < Compare user (me_key e) u \/ visible_at u s e = true).
Proof.
  intros (_ & Hs & _) Hs' c. unfold c, me_internal_key, InternalKey_new.
  pose proof (Internal_Compare_tag_lt user {| user_key := me_key e; sequence := me_seq e; type := me_type e |}
    {| user_key := u; sequence := s; type := kValueTypeForSeek |} Hs Hs') as H. cbn [user_key sequence type] in H.
  unfold visible_at. rewrite andb_true_iff, Z.eqb_eq, Z.leb_le.
  assert (ValueType_num kValueTypeForSeek = 1 /\ ValueType_num (me_type e) <= 1) as [Ht Ht'] by by destruct (me_type e).
  lia.
Qed.

Lemma lookup_target u s : valid u -> blen u + 8 < 2 ^ 32 ->
  entry_ok valid (memtable_key (LookupKey_new u s)) /\
  (MemTable_GetLengthPrefixedSlice (memtable_key (LookupKey_new u s))).1 = InternalKey_new u s kValueTypeForSeek.
Proof.
  intros Hv Hl. set (ik := InternalKey_new u s kValueTypeForSeek).
  assert (memtable_key (LookupKey_new u s) = EncodeVarint32 (u32 (blen ik)) ++ ik ++ []) as ->.
  { unfold memtable_key, LookupKey_new, ik. cbn [lk_bytes]. rewrite blen_InternalKey_new, app_nil_r.
    unfold InternalKey_new. by rewrite AppendInternalKey_eq. }
  assert (blen ik < 2 ^ 32) by (unfold ik; rewrite blen_InternalKey_new; lia). split.
  - exists ik, []. split; [done|]. split; [done|]. by apply internal_valid_new.
  - by rewrite prefixed_slice_Encode.
Qed.

(** The entry a lookup finds, if any. *)
Lemma entry_at_seek mt entries L u s : holds mt entries L -> Forall (addable valid) entries ->
  valid u -> seq_ok s -> blen u + 8 < 2 ^ 32 ->
  let found := keys_from (KeyComparator user) (memtable_key (LookupKey_new u s)) L in
  match found with
  | [] => forall e, e ∈ entries -> visible_at u s e = false
  | (_, k) :: _ => exists e, k = me_encoding e /\ e ∈ entries /\
      (0 < Compare user (me_key e) u \/ visible_at u s e = true) /\
      (forall e', e' ∈ entries -> visible_at u s e' = true ->
         Internal_Compare user (me_internal_key e) (me_internal_key e') <= 0)
  end.
Proof.
  intros (Hu & Hq & HP) Hall Hv Hs Hl found. destruct (lookup_target u s Hv Hl) as [Htok Htsl].
  set (target := memtable_key (LookupKey_new u s)) in *.
  rewrite Forall_forall in Hall.
  assert (Hcmp : forall e, e ∈ entries -> KeyComparator user (me_encoding e) target =
    Internal_Compare user (me_internal_key e) (InternalKey_new u s kValueTypeForSeek)).
  { intros e He. unfold KeyComparator. rewrite Htsl.
    destruct (me_encoding_ok valid e (Hall e He)) as [_ ->]. done. }
  assert (Hin : forall a k, (a, k) ∈ L -> exists e, k = me_encoding e /\ e ∈ entries).
  { intros a k Hak. assert (k ∈ me_encoding <$> entries) as Hk.
    { rewrite <- HP. change k with (a, k).2. by apply list_elem_of_fmap_2. }
    apply list_elem_of_fmap in Hk as (e & -> & He). by exists e. }
  assert (Hvis : forall e, e ∈ entries -> visible_at u s e = true -> exists a, (a, me_encoding e) ∈ found).
  { intros e He Hve. assert (me_encoding e ∈ L.*2) as Hk by (rewrite HP; by apply list_elem_of_fmap_2).
    apply list_elem_of_fmap in Hk as ([a k] & Hk & Hak). cbn in Hk. subst k. exists a.
    apply list_elem_of_filter. split; [|done]. cbn [snd]. rewrite Hcmp by done.
    pose proof (Compare_lookup e u s (Hall e He) Hs) as Hc. cbn zeta in Hc.
    enough (0 <= Internal_Compare user (me_internal_key e) (InternalKey_new u s kValueTypeForSeek)) by lia.
    apply Hc. by right. }
  pose proof Hq as (ak & lk & Hok & _).
  pose proof (ok_split _ _ _ _ _ _ _ _ target Hok Htok) as HL. fold found in HL.
  destruct found as [|[a k] rest] eqn:Ef.
  - intros e He. destruct (visible_at u s e) eqn:Ev; [|done]. destruct (Hvis e He Ev) as [a Ha]. by inversion Ha.
  - assert ((a, k) ∈ keys_from (KeyComparator user) target L) as Hfrom by (fold found; rewrite Ef; left).
    apply list_elem_of_filter in Hfrom as [Hge HinL]. cbn [snd] in Hge.
    destruct (Hin a k HinL) as (e & -> & He). exists e. split; [done|]. split; [done|].
    rewrite Hcmp in Hge by done. pose proof (Compare_lookup e u s (Hall e He) Hs) as Hc. cbn zeta in Hc.
    split; [apply Hc; lia|]. intros e' He' Hv'. destruct (Hvis e' He' Hv') as [a' Ha'].
    rewrite <- KeyComparator_encoding by (by apply Hall).
    apply elem_of_cons in Ha' as [[= _ <-]|Ha'].
    { rewrite (key_compare_refl (KeyComparator user) (entry_ok valid)); [done|]. by apply me_encoding_ok, Hall. }
    pose proof (ok_sorted _ _ _ _ _ _ _ _ Hok) as Hsort. rewrite HL in Hsort.
    assert (StronglySorted (key_lt (KeyComparator user)) ((a, me_encoding e) :: rest)) as Hs2.
    { clear - Hsort. induction (keys_before _ target L) as [|y l IH]; [done|]. apply StronglySorted_inv in Hsort as [Hsort _]. auto. }
    apply StronglySorted_inv in Hs2 as [_ Hf]. rewrite Forall_forall in Hf. specialize (Hf _ Ha').
    unfold key_lt in Hf. cbn [snd] in Hf. lia.
Qed.

(** Decoding the entry a lookup found. *)
Lemma decode_entry e : addable valid e ->
  exists p, GetVarint32Ptr_5 (me_encoding e) = Some (blen (me_key e) + 8, p) /\
    take (Z.to_nat (blen (me_key e) + 8 - 8)) p = me_key e /\
    DecodeFixed64 (drop (Z.to_nat (blen (me_key e) + 8 - 8)) p) = PackSequenceAndType (me_seq e) (me_type e) /\
    (MemTable_GetLengthPrefixedSlice (drop (Z.to_nat (blen (me_key e) + 8)) p)).1 = me_value e.
Proof.
  intros (Hv & Hs & Hl). pose proof (blen_nonneg (me_key e)). pose proof (blen_nonneg (me_value e)).
  rewrite me_encoding_eq. unfold me_internal_key. rewrite blen_InternalKey_new. unfold u32 at 1.
  rewrite Z.mod_small, GetVarint32Ptr_5_Encode by lia. eexists. split; [done|].
  replace (blen (me_key e) + 8 - 8) with (blen (me_key e)) by lia.
  unfold InternalKey_new. rewrite AppendInternalKey_eq. cbn [app user_key sequence type]. rewrite <- app_assoc.
  replace (Z.to_nat (blen (me_key e))) with (length (me_key e)) by len.
  rewrite take_app_length, drop_app_length. split; [done|]. split.
  - apply DecodeFixed64_Encode. by apply PackSequenceAndType_range.
  - rewrite app_assoc. replace (Z.to_nat (blen (me_key e) + 8))
      with (length (me_key e ++ EncodeFixed64 (PackSequenceAndType (me_seq e) (me_type e)))) by len.
    rewrite drop_app_length. rewrite <- (app_nil_r (me_value e)) at 2. rewrite prefixed_slice_Encode by lia. done.
Qed.

(** Of two versions of one user key the newer one comes first. *)
Lemma newer_first e e' u s : addable valid e -> addable valid e' -> valid u ->
  Internal_Compare user (me_internal_key e) (me_internal_key e') <= 0 -> visible_at u s e' = true ->
  Compare user (me_key e) u <= 0 /\ (Compare user (me_key e) u = 0 -> me_seq e' <= me_seq e).
Proof.
  intros (Hv & Hs & _) (Hv' & Hs' & _) Hu Hle Hvis. unfold visible_at in Hvis.
  apply andb_true_iff in Hvis as [He'%Z.eqb_eq _].
  apply Internal_Compare_le in Hle. unfold me_internal_key, InternalKey_new in Hle. rewrite !AppendInternalKey_eq in Hle.
  cbn [app user_key sequence type] in Hle.
  rewrite !ExtractUserKey_app, !ExtractTag_app, !PackSequenceAndType_eq in Hle by (done || by apply PackSequenceAndType_range).
  assert (forall t, 0 <= ValueType_num t <= 1) as Ht by (by intros []).
  pose proof (Ht (me_type e)). pose proof (Ht (me_type e')).
  pose proof (Compare_le_trans (cmp := user) (me_key e) (me_key e') u Hv Hv' Hu ltac:(lia) ltac:(lia)) as H3.
  split; [done|]. intros He. destruct Hle as [Hlt|[_ Htag]]; [|lia]. exfalso.
  pose proof (Compare_lt_le_trans (cmp := user) (me_key e) (me_key e') u Hv Hv' Hu Hlt ltac:(lia)). lia.
Qed.

Lemma Get_ok mt entries L u s : holds mt entries L -> Forall (addable valid) entries ->
  valid u -> seq_ok s -> blen u + 8 < 2 ^ 32 ->
  exists r, is_newest u s entries r /\ MemTable_Get mt (LookupKey_new u s) = Some (get_result r).
Proof.
  intros Hh Hall Hv Hs Hl. pose proof (entry_at_seek mt entries L u s Hh Hall Hv Hs Hl) as Hseek.
  destruct Hh as (Hu & Hq & HP). destruct (lookup_target u s Hv Hl) as [Htok _].
  unfold MemTable_Get. rewrite Hu. set (target := memtable_key (LookupKey_new u s)) in *.
  destruct (iterator_moves (KeyComparator user) _ _ (entry_ok valid) (table_ mt) L 0 target Hq) as (_ & _ & Hmv & _).
  rewrite (Hmv Htok). clear Hmv.
  cbn [mbind option_bind]. pose proof Hq as (ak & lk & Hok & _).
  pose proof (ok_split _ _ _ _ _ _ _ _ target Hok Htok) as HL. rewrite Forall_forall in Hall.
  assert (addr L (length (keys_before (KeyComparator user) target L)) = addr (keys_from (KeyComparator user) target L) 0) as ->.
  { by rewrite <- (addr_app (keys_before (KeyComparator user) target L)), <- HL. }
  cbn zeta in Hseek. destruct (keys_from (KeyComparator user) target L) as [|[a k] rest] eqn:Ef.
  { by exists None. }
  destruct Hseek as (e & -> & He & Hge & Hmin). change (addr ((a, me_encoding e) :: rest) 0) with a.
  destruct (ok_key_at _ _ _ _ _ _ _ _ a (me_encoding e) Hok) as [Hk Ha]; [rewrite HL; set_solver|].
  unfold Iter_Valid, Iter_key. rewrite (proj2 (Z.eqb_neq a 0) Ha), Hk. cbn [negb mbind option_bind].
  pose proof (Hall e He) as Hae. destruct (decode_entry e Hae) as (p & -> & Hkey & Htag & Hval). cbn [mbind option_bind].
  rewrite Hkey, Htag, Hval. assert (LookupKey_user_key (LookupKey_new u s) = u) as ->.
  { unfold LookupKey_user_key. fold (internal_key (LookupKey_new u s)). rewrite LookupKey_internal_key.
    unfold InternalKey_new. rewrite AppendInternalKey_eq. apply ExtractUserKey_app. }
  destruct (Z.eqb_spec (Compare user (me_key e) u) 0) as [Heq|Hne].
  - assert (visible_at u s e = true) as Hvis by (destruct Hge; [lia|done]).
    exists (Some e). split.
    + split; [done|]. split; [done|]. intros e' He' Hv'.
      destruct (newer_first e e' u s Hae (Hall e' He') Hv (Hmin e' He' Hv') Hv'). auto.
    + rewrite Pack_type by apply Hae. rewrite ValueType_of_num. cbn [get_result]. by destruct (me_type e).
  - exists None. split; [|done]. intros e' He'. destruct (visible_at u s e') eqn:Hv'; [|done]. exfalso.
    destruct (newer_first e e' u s Hae (Hall e' He') Hv (Hmin e' He' Hv') Hv').
    destruct Hge as [|Hvis]; [lia|]. unfold visible_at in Hvis. apply andb_true_iff in Hvis as [Hvis%Z.eqb_eq _]. done.
Qed.

End adding.

(** C6: [MemTable::Get] reads a snapshot.  After adding any entries with
    distinct sequence numbers to a new memtable, a lookup of [u] at sequence
    number [s] answers from the newest version of [u] that is not newer than
    [s]: its value, or [NotFound] for a deletion, and [false] exactly when
    there is no such version. *)
Theorem MemTable_Get_snapshot {port : Port} {A : Type} `{!ArenaOps A} (live : A -> Prop) (used : A -> Z -> Prop)
    `{!ArenaOk A live used} (user : Comparator) (valid : bytes -> Prop) `{!ComparatorOk user valid}
    (arena : A) (entries : list MemEntry) (u : bytes) (s : Z) :
  live arena -> Forall (addable valid) entries -> NoDup (me_seq <$> entries) ->
  valid u -> seq_ok s -> blen u + 8 < 2 ^ 32 ->
  exists mt, (MemTable_new user arena ≫= fun mt => MemTable_AddAll mt entries) = Some mt /\
    MemTable_Get mt (LookupKey_new u s) = Some (get_result (newest (user := user) u s entries)).
Proof.
  intros Hlive Hall Hnd Hv Hs Hl.
  destruct (MemTable_new_ok (live := live) (used := used) (user := user) (valid := valid) arena Hlive) as (mt0 & -> & Hh0).
  cbn [mbind option_bind]. destruct (MemTable_AddAll_ok entries mt0 [] [] Hh0) as (mt & L & -> & Hh);
    [constructor|done|by rewrite app_nil_r|].
  rewrite app_nil_r in Hh. assert (rev entries ≡ₚ entries) as HP by (symmetry; apply Permutation_rev).
  destruct (Get_ok mt _ L u s Hh) as (r & Hr & Hget); [by rewrite HP|done|done|done|].
  exists mt. split; [done|]. rewrite Hget. do 2 f_equal.
  eapply is_newest_unique; [exact HP|by rewrite HP|exact Hr|apply newest_is].
Qed.

(** * Iterating *)

Section iterating.
Context {port : Port} {A : Type} `{!ArenaOps A} {live : A -> Prop} {used : A -> Z -> Prop} `{!ArenaOk A live used}.
Context {user : Comparator} {valid : bytes -> Prop} `{!ComparatorOk user valid}.

(** The key and the value the iterator decodes from a node. *)
Definition decoded (ak : Z * bytes) : bytes * bytes :=
  let '(k, rest) := MemTable_GetLengthPrefixedSlice ak.2 in (k, (MemTable_GetLengthPrefixedSlice rest).1).

Definition mem_seekable (target : bytes) : Prop := internal_valid valid target /\ blen target < 2 ^ 32.

Definition mi_inv (t : SkipList bytes A) (it : MemTableIterator (A := A)) : Prop :=
  mi_comparator it = user /\ mi_table it = t.

Definition mi_at (t : SkipList bytes A) (L : list (Z * bytes)) (it : MemTableIterator (A := A)) (n : nat) : Prop :=
  mi_inv t it /\ mi_node it = addr L n /\ (n <= length L)%nat.

Lemma EncodeKey_ok target : mem_seekable target ->
  entry_ok valid (EncodeKey target) /\ (MemTable_GetLengthPrefixedSlice (EncodeKey target)).1 = target.
Proof.
  intros [Hv Hl]. unfold EncodeKey, PutVarint32. cbn [app].
  rewrite <- (app_nil_r target) at 2 4. split; [|by rewrite prefixed_slice_Encode].
  exists target, []. auto.
Qed.

Lemma keys_before_seek t L target : quiescent (KeyComparator user) live used (entry_ok valid) t L -> mem_seekable target ->
  length (keys_before (KeyComparator user) (EncodeKey target) L) =
  seek_index (Internal_Compare user) target (decoded <$> L).
Proof.
  intros (ak & lk & Hok & _) Ht. destruct (EncodeKey_ok target Ht) as [Hok' Hsl].
  pose proof (ok_split _ _ _ _ _ _ _ _ (EncodeKey target) Hok Hok') as HL.
  assert (Hcmp : forall ak, KeyComparator user ak.2 (EncodeKey target) = Internal_Compare user (decoded ak).1 target).
  { intros [a k]. unfold KeyComparator, decoded. rewrite Hsl. cbn [snd Compare InternalKeyComparator].
    by destruct (MemTable_GetLengthPrefixedSlice k). }
  rewrite HL at 2. rewrite fmap_app, seek_index_split; [by rewrite length_fmap| |];
    apply Forall_fmap, Forall_forall; intros b [Hb _]%list_elem_of_filter; unfold compose; by rewrite <- Hcmp.
Qed.

#[export] Instance MemTableIterator_ok t L : quiescent (KeyComparator user) live used (entry_ok valid) t L ->
  IteratorOk (Internal_Compare user) mem_seekable (decoded <$> L) (mi_inv t) (mi_at t L).
Proof.
  intros Hq. pose proof (fun n => addr_head _ _ _ _ _ _ n Hq) as Haddr.
  assert (Hend : addr L (length L) = 0) by (unfold addr; by rewrite lookup_ge_None_2).
  pose proof (fun n target => iterator_moves (KeyComparator user) live used (entry_ok valid) t L n target Hq) as Hmoves.
  split; rewrite ?length_fmap.
  - by intros it n (? & _).
  - by intros it n (_ & _ & ?).
  - intros it n (_ & Hn & Hle). cbn [Valid MemTableIterator_ops]. unfold Iter_Valid. rewrite Hn, negb_true_iff, Z.eqb_neq.
    split; [|intros Hlt; by apply Haddr]. intros Hne. destruct (decide (n = length L)) as [->|]; [done|lia].
  - intros it n k v ((_ & Ht) & Hn & _) Hkv. apply list_lookup_fmap_Some in Hkv as ([a e] & Hkv & Hae).
    destruct (Haddr n) as (_ & _ & e' & He' & Hkey); [by eapply lookup_lt_Some|].
    cbn [iter_key iter_value MemTableIterator_ops]. unfold mi_entry, Iter_key. rewrite Ht, Hn, Hkey. cbn [default id]. unfold id.
    rewrite Hae in He'. injection He' as _ <-. unfold decoded in Hkv. cbn [snd] in Hkv.
    destruct (MemTable_GetLengthPrefixedSlice e). by injection Hkv as -> ->.
  - done.
  - intros it (Hc & Ht). cbn [SeekToFirst MemTableIterator_ops]. unfold mi_move, mi_at, mi_inv. cbn. rewrite Ht.
    unfold Iter_SeekToFirst. rewrite (quiescent_first _ _ _ _ _ _ Hq). cbn. by split_and!; try lia.
  - intros it (Hc & Ht). cbn [SeekToLast MemTableIterator_ops]. unfold mi_move, mi_at, mi_inv. cbn. rewrite Ht.
    destruct (Hmoves 0%nat []) as (_ & -> & _). cbn. split_and!; [done|done|done|lia].
  - intros it target (Hc & Ht) Hs. cbn [Seek MemTableIterator_ops]. unfold mi_move, mi_at, mi_inv. cbn [mi_comparator mi_table mi_node].
    rewrite Ht, Hc. destruct (EncodeKey_ok target Hs) as [He _]. destruct (Hmoves 0%nat (EncodeKey target)) as (_ & _ & Hm & _). rewrite (Hm He).
    cbn [default].
    rewrite <- (keys_before_seek t L target Hq Hs). split_and!; [done|done|done|].
    unfold keys_before. apply length_filter.
  - intros it n ((Hc & Ht) & Hn & _) Hlt. cbn [Next MemTableIterator_ops]. unfold mi_move, mi_at, mi_inv. cbn [mi_comparator mi_table mi_node].
    rewrite Ht, Hn. unfold Iter_Next. rewrite (quiescent_next _ _ _ _ _ _ _ Hq Hlt). by split_and!.
  - intros it n ((Hc & Ht) & Hn & _) Hlt. cbn [Prev MemTableIterator_ops]. unfold mi_move, mi_at, mi_inv. cbn [mi_comparator mi_table mi_node].
    rewrite Ht, Hn, Hc. destruct (Hmoves n []) as (_ & _ & _ & Hm). destruct (Hm Hlt) as [_ ->]. cbn [default].
    destruct n; split_and!; try done; lia.
Qed.

End iterating.

(** C17: a memtable iterates in internal-key order.  After adding any entries
    with distinct sequence numbers, its iterator implements the iterator
    interface over exactly the (internal key, value) pairs that were added,
    sorted strictly by the internal comparator, for every operation and from
    every state it can reach. *)
Theorem MemTable_iterator_refines {port : Port} {A : Type} `{!ArenaOps A} (live : A -> Prop) (used : A -> Z -> Prop)
    `{!ArenaOk A live used} (user : Comparator) (valid : bytes -> Prop) `{!ComparatorOk user valid}
    (arena : A) (entries : list MemEntry) :
  live arena -> Forall (addable valid) entries -> NoDup (me_seq <$> entries) ->
  exists mt kvs inv at_, (MemTable_new user arena ≫= fun mt => MemTable_AddAll mt entries) = Some mt /\
    kvs ≡ₚ (fun e => (me_internal_key e, me_value e)) <$> entries /\
    StronglySorted (fun a b => Internal_Compare user a.1 b.1 < 0) kvs /\
    inv (MemTable_NewIterator mt) /\
    IteratorOk (I := MemTableIterator) (Internal_Compare user) (mem_seekable (valid := valid)) kvs inv at_.
Proof.
  intros Hlive Hall Hnd.
  destruct (MemTable_new_ok (live := live) (used := used) (user := user) (valid := valid) arena Hlive) as (mt0 & -> & Hh0).
  cbn [mbind option_bind]. destruct (MemTable_AddAll_ok entries mt0 [] [] Hh0) as (mt & L & -> & Hu & Hq & HP);
    [constructor|done|by rewrite app_nil_r|].
  rewrite app_nil_r in HP. exists mt, (decoded <$> L), (mi_inv (user := user) (table_ mt)), (mi_at (user := user) (table_ mt) L).
  split_and!; [done| | |by split|by apply MemTableIterator_ok].
  - assert (decoded <$> L = (fun k => decoded (0, k)) <$> L.*2) as ->.
    { rewrite <- list_fmap_compose. apply list_fmap_ext. by intros ? [??]. }
    rewrite HP, <- list_fmap_compose.
    transitivity ((fun e => (me_internal_key e, me_value e)) <$> rev entries);
      [|apply fmap_Permutation; symmetry; apply Permutation_rev].
    apply Permutation_refl'.
    apply list_fmap_ext. intros i e Hi. unfold compose, decoded. cbn [snd].
    assert (addable valid e) as He.
    { rewrite Forall_forall in Hall. apply Hall. apply list_elem_of_lookup_2 in Hi.
      by rewrite list_elem_of_In, <- in_rev, <- list_elem_of_In in Hi. }
    destruct (me_encoding_ok valid e He) as [_ ->]. rewrite prefixed_slice_Encode; [done|].
    destruct He as (_ & _ & Hl). pose proof (blen_nonneg (me_key e)). lia.
  - destruct Hq as (? & ? & Hok & _). pose proof (ok_sorted _ _ _ _ _ _ _ _ Hok) as Hs. clear - Hs.
    induction Hs as [|ak L Hs IH Hf]; rewrite ?fmap_cons; constructor; [done|]. apply Forall_fmap.
    eapply Forall_impl; [exact Hf|]. intros bk Hlt. unfold key_lt, KeyComparator in Hlt. unfold compose, decoded.
    destruct (MemTable_GetLengthPrefixedSlice ak.2), (MemTable_GetLengthPrefixedSlice bk.2). exact Hlt.
Qed.

(** * Instances *)

#[local] Existing Instance little_endian_port.

Definition test_entries : list MemEntry :=
  [mkMemEntry 1 kTypeValue [bz 107] [bz 97]; mkMemEntry 3 kTypeDeletion [bz 107] [];
   mkMemEntry 2 kTypeValue [bz 108] [bz 98]].

Lemma test_entries_addable : Forall (addable (fun _ => True)) test_entries.
Proof. repeat constructor; by vm_compute. Qed.

Lemma test_entries_nodup : NoDup (me_seq <$> test_entries).
Proof. apply (bool_decide_unpack _). by vm_compute. Qed.

(** The deletion at sequence number 3 hides the value written at 1. *)
Lemma MemTable_Get_snapshot_witness :
  exists mt, (MemTable_new BytewiseComparator test_arena
                ≫= fun mt => MemTable_AddAll mt test_entries) = Some mt /\
    MemTable_Get mt (LookupKey_new [bz 107] 2) = Some (true, Some [bz 97], None).
Proof.
  exact (MemTable_Get_snapshot (port := little_endian_port) (arena_live (allocated := bump_allocated)) arena_used
    BytewiseComparator (fun _ => True) test_arena test_entries [bz 107] 2
    test_arena_live test_entries_addable test_entries_nodup I ltac:(by vm_compute) ltac:(by vm_compute)).
Defined.

Lemma MemTable_iterator_refines_witness :
  exists mt kvs, (MemTable_new BytewiseComparator test_arena
                    ≫= fun mt => MemTable_AddAll mt test_entries) = Some mt /\
    kvs ≡ₚ (fun e => (me_internal_key e, me_value e)) <$> test_entries /\
    collect 4 (SeekToFirst (MemTable_NewIterator mt)) = kvs.
Proof.
  destruct (MemTable_iterator_refines (port := little_endian_port) (arena_live (allocated := bump_allocated)) arena_used
    BytewiseComparator (fun _ => True) test_arena test_entries
    test_arena_live test_entries_addable test_entries_nodup) as (mt & kvs & inv & at_ & E & HP & _ & Hi & Hok).
  exists mt, kvs. split; [exact E|]. split; [exact HP|].
  rewrite (collect_at (at_ := at_) 4 _ 0); [done|by apply SeekToFirst_at|].
  rewrite (Permutation_length HP). cbn. lia.
Defined.
