(* ===== verification/IteratorWrapper.v ===== *)
(** The caching wrapper of [table/iterator_wrapper.h].  It keeps the results of
    [Valid] and [key] of the iterator it owns; proved: the cache is coherent,
    so the wrapper implements whatever its iterator implements. *)

From S2P Require Import Prelude Status Iterator.

(** [iter_ = None] is the NULL iterator. *)
Record IteratorWrapper (I : Type) := mkWrapper { iter_ : option I; valid_ : bool; key_ : bytes }.
#[global] Arguments mkWrapper {I}.
#[global] Arguments iter_ {I}.
#[global] Arguments valid_ {I}.
#[global] Arguments key_ {I}.

Section wrapper.
Context {I : Type} `{!IteratorOps I}.
Implicit Types (w : IteratorWrapper I) (it : I).

Definition IteratorWrapper_new : IteratorWrapper I := mkWrapper None false [].

(** [Update] after the owned iterator became [it]; an invalid iterator leaves
    the cached key as it was. *)
Definition Wrapper_Update w it : IteratorWrapper I :=
  let valid := Valid it in
  mkWrapper (Some it) valid (if valid then iter_key it else key_ w).

Definition Wrapper_Set w (iter : option I) : IteratorWrapper I :=
  match iter with
  | None => mkWrapper None false (key_ w)
  | Some it => Wrapper_Update w it
  end.

(** The operations that require [iter() != NULL]. *)
Definition Wrapper_move w (f : I -> I) : IteratorWrapper I :=
  match iter_ w with
  | Some it => Wrapper_Update w (f it)
  | None => w
  end.

#[export] Instance IteratorWrapper_ops : IteratorOps (IteratorWrapper I) := {
  Valid := valid_;
  SeekToFirst w := Wrapper_move w SeekToFirst;
  SeekToLast w := Wrapper_move w SeekToLast;
  Seek k w := Wrapper_move w (Seek k);
  Next w := Wrapper_move w Next;
  Prev w := Wrapper_move w Prev;
  iter_key := key_;
  iter_value w := match iter_ w with Some it => iter_value it | None => [] end;
  status w := match iter_ w with Some it => status it | None => OK end;
}.

(** The cache agrees with the iterator. *)
Definition coherent w it : Prop :=
  iter_ w = Some it /\ valid_ w = Valid it /\ (Valid it = true -> key_ w = iter_key it).

Lemma Wrapper_Update_coherent w it : coherent (Wrapper_Update w it) it.
Proof. unfold coherent, Wrapper_Update. cbn. split_and!; try done. by intros ->. Qed.

Lemma Wrapper_move_coherent w it f : coherent w it -> coherent (Wrapper_move w f) (f it).
Proof. intros (H & _). unfold Wrapper_move. rewrite H. apply Wrapper_Update_coherent. Qed.

Context {Compare : bytes -> bytes -> Z} {seekable : bytes -> Prop} {entries : list (bytes * bytes)}.
Context {inv : I -> Prop} {at_ : I -> nat -> Prop} `{!IteratorOk Compare seekable entries inv at_}.

Definition wrapper_inv w : Prop := exists it, coherent w it /\ inv it.
Definition wrapper_at w (n : nat) : Prop := exists it, coherent w it /\ at_ it n.

#[export] Instance IteratorWrapper_ok : IteratorOk Compare seekable entries wrapper_inv wrapper_at.
Proof.
  split; cbn [Valid SeekToFirst SeekToLast Seek Next Prev iter_key iter_value status IteratorWrapper_ops].
  - intros w n (it & Hc & Ha). exists it. split; [done|]. by eapply at_inv.
  - intros w n (it & Hc & Ha). by eapply at_range.
  - intros w n (it & (_ & -> & _) & Ha). by apply Valid_at.
  - intros w n k v (it & (Hi & Hv & Hk) & Ha) Hkv. rewrite Hi.
    destruct (entry_at it n k v Ha Hkv) as [Hkey Hval]. split; [|done]. rewrite <- Hkey. apply Hk.
    apply (Valid_at it n Ha). by eapply lookup_lt_Some.
  - intros w n (it & (Hi & _) & Ha). rewrite Hi. by eapply status_at.
  - intros w (it & Hc & Hinv). eexists. split; [by apply Wrapper_move_coherent|by apply SeekToFirst_at].
  - intros w (it & Hc & Hinv). eexists. split; [by apply Wrapper_move_coherent|by apply SeekToLast_at].
  - intros w target (it & Hc & Hinv) Hs. eexists. split; [by apply Wrapper_move_coherent|by apply Seek_at].
  - intros w n (it & Hc & Ha) Hn. eexists. split; [by apply Wrapper_move_coherent|by apply Next_at].
  - intros w n (it & Hc & Ha) Hn. eexists. split; [by apply Wrapper_move_coherent|by apply Prev_at].
Qed.

Lemma Wrapper_Set_inv w it : inv it -> wrapper_inv (Wrapper_Set w (Some it)).
Proof. intros H. exists it. split; [apply Wrapper_Update_coherent|done]. Qed.

End wrapper.
