(* ===== verification/Merger.v ===== *)
(** The merging iterator of [table/merger.h] and [table/merger.cpp].

    It walks several iterators at once and can change direction at any entry.
    Proved: over children that implement the iterator interface for lists with
    pairwise different keys, it implements the interface for the sorted union
    of the lists. *)

From Stdlib Require Import Sorted.
From S2P Require Import Prelude Status Comparator Iterator IteratorWrapper.

(** * The code *)

Inductive Direction := kForward | kReverse.

#[export] Instance Direction_eq_dec : EqDecision Direction.
Proof. solve_decision. Defined.

(** [current_] points into [children_]. *)
Record MergingIterator (I : Type) := mkMerging {
  merge_comparator : Comparator;
  children_ : list (IteratorWrapper I);
  current_ : option nat;
  direction_ : Direction;
}.
#[global] Arguments mkMerging {I}.
#[global] Arguments merge_comparator {I}.
#[global] Arguments children_ {I}.
#[global] Arguments current_ {I}.
#[global] Arguments direction_ {I}.

Section merger.
Context {I : Type} `{!IteratorOps I}.
Implicit Types (m : MergingIterator I) (c : IteratorWrapper I).

Definition MergingIterator_new (comparator : Comparator) (children : list I) : MergingIterator I :=
  mkMerging comparator ((fun it => Wrapper_Set IteratorWrapper_new (Some it)) <$> children) None kForward.

(** [for (int i = 0; i < n_; i++)] from child [i] on. *)
Fixpoint smallest_from (cmp : Comparator) (i : nat) (cs : list (IteratorWrapper I))
    (smallest : option (nat * IteratorWrapper I)) : option (nat * IteratorWrapper I) :=
  match cs with
  | [] => smallest
  | child :: cs =>
    smallest_from cmp (S i) cs
      (if Valid child then
         match smallest with
         | None => Some (i, child)
         | Some (_, best) =>
           if Compare cmp (iter_key child) (iter_key best) <? 0 then Some (i, child) else smallest
         end
       else smallest)
  end.

(** [for (int i = n_ - 1; i >= 0; i--)]: the later children come first. *)
Fixpoint largest_from (cmp : Comparator) (i : nat) (cs : list (IteratorWrapper I))
    : option (nat * IteratorWrapper I) :=
  match cs with
  | [] => None
  | child :: cs =>
    let largest := largest_from cmp (S i) cs in
    if Valid child then
      match largest with
      | None => Some (i, child)
      | Some (_, best) =>
        if 0 <? Compare cmp (iter_key child) (iter_key best) then Some (i, child) else largest
      end
    else largest
  end.

Definition FindSmallest m : MergingIterator I :=
  mkMerging (merge_comparator m) (children_ m) (fst <$> smallest_from (merge_comparator m) 0 (children_ m) None)
    (direction_ m).

Definition FindLargest m : MergingIterator I :=
  mkMerging (merge_comparator m) (children_ m) (fst <$> largest_from (merge_comparator m) 0 (children_ m))
    (direction_ m).

Definition set_children m (cs : list (IteratorWrapper I)) (d : Direction) : MergingIterator I :=
  mkMerging (merge_comparator m) cs (current_ m) d.

Definition current_child m : option (IteratorWrapper I) := i ← current_ m; children_ m !! i.

Definition Merging_key m : bytes := match current_child m with Some c => iter_key c | None => [] end.

(** The children other than [current_], positioned after [key()]. *)
Definition seek_after (cmp : Comparator) (key : bytes) c : IteratorWrapper I :=
  let child := Seek key c in
  if Valid child && (Compare cmp key (iter_key child) =? 0) then Next child else child.

(** .. and before it. *)
Definition seek_before (key : bytes) c : IteratorWrapper I :=
  let child := Seek key c in
  if Valid child then Prev child else SeekToLast child.

Definition others (f : IteratorWrapper I -> IteratorWrapper I) m : list (IteratorWrapper I) :=
  imap (fun i child => if decide (current_ m = Some i) then child else f child) (children_ m).

Definition move_current (f : IteratorWrapper I -> IteratorWrapper I) m : MergingIterator I :=
  match current_ m with
  | Some i => set_children m (alter f i (children_ m)) (direction_ m)
  | None => m
  end.

Definition Merging_Next m : MergingIterator I :=
  let m := if decide (direction_ m = kForward) then m
           else set_children m (others (seek_after (merge_comparator m) (Merging_key m)) m) kForward in
  FindSmallest (move_current Next m).

Definition Merging_Prev m : MergingIterator I :=
  let m := if decide (direction_ m = kReverse) then m
           else set_children m (others (seek_before (Merging_key m)) m) kReverse in
  FindLargest (move_current Prev m).

Definition Merging_SeekToFirst m : MergingIterator I :=
  let m := FindSmallest (set_children m (SeekToFirst <$> children_ m) (direction_ m)) in
  set_children m (children_ m) kForward.

Definition Merging_SeekToLast m : MergingIterator I :=
  let m := FindLargest (set_children m (SeekToLast <$> children_ m) (direction_ m)) in
  set_children m (children_ m) kReverse.

Definition Merging_Seek (target : bytes) m : MergingIterator I :=
  let m := FindSmallest (set_children m (Seek target <$> children_ m) (direction_ m)) in
  set_children m (children_ m) kForward.

(** The first status that is not ok, else the last one. *)
Fixpoint merge_status (s : Status) (cs : list (IteratorWrapper I)) : Status :=
  match cs with
  | [] => s
  | c :: cs => let s := status c in if negb (ok s) then s else merge_status s cs
  end.

#[export] Instance MergingIterator_ops : IteratorOps (MergingIterator I) := {
  Valid m := bool_decide (is_Some (current_ m));
  SeekToFirst := Merging_SeekToFirst;
  SeekToLast := Merging_SeekToLast;
  Seek := Merging_Seek;
  Next := Merging_Next;
  Prev := Merging_Prev;
  iter_key := Merging_key;
  iter_value m := match current_child m with Some c => iter_value c | None => [] end;
  status m := merge_status OK (children_ m);
}.

(** [NewMergingIterator] allocates only when there is something to merge. *)
Inductive Merged :=
  | MergedNone (it : EmptyIterator)
  | MergedOne (it : I)
  | MergedMany (m : MergingIterator I).

Definition NewMergingIterator (cmp : Comparator) (list : list I) : Merged :=
  match list with
  | [] => MergedNone NewEmptyIterator
  | [it] => MergedOne it
  | _ => MergedMany (MergingIterator_new cmp list)
  end.

Definition merged_move (f : EmptyIterator -> EmptyIterator) (g : I -> I) (h : MergingIterator I -> MergingIterator I)
    (it : Merged) : Merged :=
  match it with
  | MergedNone it => MergedNone (f it)
  | MergedOne it => MergedOne (g it)
  | MergedMany it => MergedMany (h it)
  end.

Definition merged_read {T} (f : EmptyIterator -> T) (g : I -> T) (h : MergingIterator I -> T) (it : Merged) : T :=
  match it with MergedNone it => f it | MergedOne it => g it | MergedMany it => h it end.

(** The virtual calls. *)
#[export] Instance Merged_ops : IteratorOps Merged := {
  Valid := merged_read Valid Valid Valid;
  SeekToFirst := merged_move SeekToFirst SeekToFirst SeekToFirst;
  SeekToLast := merged_move SeekToLast SeekToLast SeekToLast;
  Seek k := merged_move (Seek k) (Seek k) (Seek k);
  Next := merged_move Next Next Next;
  Prev := merged_move Prev Prev Prev;
  iter_key := merged_read iter_key iter_key iter_key;
  iter_value := merged_read iter_value iter_value iter_value;
  status := merged_read status status status;
}.
End merger.
#[global] Arguments Merged : clear implicits.

(** * Correctness *)

Section merging.
Context {I : Type} `{!IteratorOps I}.
Context (cmp : Comparator) (valid seekable : bytes -> Prop) `{!ComparatorOk cmp valid}.

(** What is known of one child. *)
Record Child := {
  ch_entries : list (bytes * bytes);
  ch_inv : IteratorWrapper I -> Prop;
  ch_at : IteratorWrapper I -> nat -> Prop;
  ch_ok : IteratorOk (Compare cmp) seekable ch_entries ch_inv ch_at;
}.
#[local] Existing Instance ch_ok.

Definition kv_lt (a b : bytes * bytes) : Prop := Compare cmp a.1 b.1 < 0.

Context (specs : list Child) (kvs : list (bytes * bytes)).

(** [kvs] is the sorted union of the children's entries. *)
Record merge_of : Prop := {
  merge_perm : kvs ≡ₚ concat (ch_entries <$> specs);
  merge_sorted : StronglySorted kv_lt kvs;
  merge_children : Forall (fun sp => StronglySorted kv_lt (ch_entries sp)) specs;
  merge_valid : Forall (fun kv => valid kv.1 /\ seekable kv.1) kvs;
  merge_seekable t : seekable t -> valid t;
}.
Hypothesis Hm : merge_of.

Lemma kv_valid x : x ∈ kvs -> valid x.1.
Proof. intros Hx. pose proof (merge_valid Hm) as H. rewrite Forall_forall in H. by apply H. Qed.

Lemma kv_lt_irrefl x : x ∈ kvs -> ~ kv_lt x x.
Proof. intros Hx. unfold kv_lt. rewrite Compare_refl by by apply kv_valid. lia. Qed.

Lemma kv_lt_asym x y : x ∈ kvs -> y ∈ kvs -> kv_lt x y -> ~ kv_lt y x.
Proof.
  unfold kv_lt. intros Hx Hy Hlt. apply (Compare_antisym (cmp := cmp)) in Hlt; [lia|by apply kv_valid..].
Qed.

Lemma kvs_nodup : NoDup kvs.
Proof.
  pose proof (merge_sorted Hm) as Hs. assert (Hirr : forall x, x ∈ kvs -> ~ kv_lt x x) by apply kv_lt_irrefl.
  revert Hs Hirr. generalize kvs. clear. induction 1 as [|x l Hs IH Hx]; intros Hirr; constructor.
  - intros Hin. rewrite Forall_forall in Hx. apply (Hirr x); [left|by apply Hx].
  - apply IH. intros y Hy. apply Hirr. by right.
Qed.

Lemma child_entry i sp x : specs !! i = Some sp -> x ∈ ch_entries sp -> x ∈ kvs.
Proof.
  intros Hi Hx. rewrite (merge_perm Hm). apply list_elem_of_In, in_concat. exists (ch_entries sp).
  split; apply list_elem_of_In; [|done]. apply list_elem_of_fmap_2. by eapply list_elem_of_lookup_2.
Qed.

Lemma child_exists x : x ∈ kvs -> exists i sp, specs !! i = Some sp /\ x ∈ ch_entries sp.
Proof.
  rewrite (merge_perm Hm). intros Hx%list_elem_of_In. apply in_concat in Hx as (es & Hes & Hx).
  apply list_elem_of_In, list_elem_of_fmap in Hes as (sp & -> & Hsp).
  apply list_elem_of_lookup in Hsp as [i Hi]. exists i, sp. split; [done|by apply list_elem_of_In].
Qed.

(** An entry belongs to one child. *)
Lemma child_unique i j sp sp' x : specs !! i = Some sp -> specs !! j = Some sp' ->
  x ∈ ch_entries sp -> x ∈ ch_entries sp' -> i = j.
Proof.
  intros Hi Hj Hx Hx'. pose proof kvs_nodup as Hnd. rewrite (merge_perm Hm) in Hnd.
  revert i j Hi Hj Hnd. generalize specs. induction specs0 as [|s0 l IH]; [done|]. intros i j Hi Hj Hnd.
  rewrite fmap_cons in Hnd. cbn [concat] in Hnd. apply NoDup_app in Hnd as (_ & Hdis & Hnd).
  assert (Hin : forall k s y, l !! k = Some s -> y ∈ ch_entries s -> y ∈ concat (ch_entries <$> l)).
  { intros k s y Hk Hy. apply list_elem_of_In, in_concat. exists (ch_entries s).
    split; apply list_elem_of_In; [|done]. apply list_elem_of_fmap_2. by eapply list_elem_of_lookup_2. }
  destruct i as [|i], j as [|j]; cbn in Hi, Hj; simplify_eq; [done| | |f_equal; by eapply IH].
  - exfalso. eapply (Hdis x); [done|by eapply Hin].
  - exfalso. eapply (Hdis x); [done|by eapply Hin].
Qed.

(** ** Ranks *)

(** How many entries of a child are among the first [m] of the union. *)
Definition count (m : nat) (es : list (bytes * bytes)) : nat := length (filter (fun x => x ∈ take m kvs) es).

(** Where a child stands when the walk is at rank [m], forwards and backwards. *)
Definition fwd_pos (m : nat) (sp : Child) : nat := count m (ch_entries sp).
Definition rev_pos (m : nat) (sp : Child) : nat :=
  match count m (ch_entries sp) with O => length (ch_entries sp) | S j => j end.

(** What precedes rank [m] is below what follows. *)
Lemma rank_lt m x y : x ∈ take m kvs -> y ∈ kvs -> y ∉ take m kvs -> kv_lt x y.
Proof.
  intros Hx Hy Hny. rewrite <- (take_drop m kvs) in Hy. apply elem_of_app in Hy as [Hy|Hy]; [done|].
  pose proof (merge_sorted Hm) as Hs. rewrite <- (take_drop m kvs) in Hs. clear - Hs Hx Hy.
  induction (take m kvs) as [|z l IH]; [by inversion Hx|]. cbn [app] in Hs. apply StronglySorted_inv in Hs as [Hs Hf].
  apply elem_of_cons in Hx as [->|Hx]; [|by apply IH]. rewrite Forall_forall in Hf. apply Hf. set_solver.
Qed.

Lemma child_split m i sp : specs !! i = Some sp ->
  ch_entries sp = filter (fun x => x ∈ take m kvs) (ch_entries sp) ++ filter (fun x => x ∉ take m kvs) (ch_entries sp).
Proof.
  intros Hi. apply (filter_sorted_split kv_lt).
  - pose proof (merge_children Hm) as H. rewrite Forall_forall in H. apply H. by eapply list_elem_of_lookup_2.
  - intros x y Hx Hy Hlt Hin. destruct (decide (x ∈ take m kvs)) as [|Hn]; [done|exfalso].
    eapply (kv_lt_asym y x); [by eapply child_entry|by eapply child_entry|by eapply rank_lt; [|eapply child_entry|]|done].
Qed.

Lemma take_S_elem m e x : kvs !! m = Some e -> x ∈ take (S m) kvs <-> x ∈ take m kvs \/ x = e.
Proof. intros He. rewrite (take_S_r _ _ _ He). set_solver. Qed.

Lemma not_in_take m e : kvs !! m = Some e -> e ∉ take m kvs.
Proof.
  intros He Hin. apply list_elem_of_lookup in Hin as [j Hj]. apply lookup_take_Some in Hj as [Hj Hlt].
  pose proof (NoDup_lookup _ _ _ _ kvs_nodup He Hj). lia.
Qed.

(** The entry at rank [m] is where its child stands. *)
Lemma count_here m i sp e : specs !! i = Some sp -> kvs !! m = Some e -> e ∈ ch_entries sp ->
  ch_entries sp !! count m (ch_entries sp) = Some e /\
  count (S m) (ch_entries sp) = S (count m (ch_entries sp)).
Proof.
  intros Hi He Hin. pose proof (child_split m i sp Hi) as Hsp. unfold count.
  set (F := filter (fun x => x ∈ take m kvs) (ch_entries sp)) in *.
  set (G := filter (fun x => x ∉ take m kvs) (ch_entries sp)) in *.
  assert (Hsort : StronglySorted kv_lt (F ++ G)).
  { rewrite <- Hsp. pose proof (merge_children Hm) as H. rewrite Forall_forall in H. apply H. by eapply list_elem_of_lookup_2. }
  assert (HeG : e ∈ G) by (apply list_elem_of_filter; split; [by apply not_in_take|done]).
  assert (HG : forall x, x ∈ G -> x = e \/ kv_lt e x).
  { intros x [Hnx Hx]%list_elem_of_filter. destruct (decide (x = e)) as [|Hne]; [by left|right].
    apply (rank_lt (S m)); [apply (take_S_elem m e); auto|by eapply child_entry|].
    rewrite (take_S_elem m e x He). tauto. }
  assert (exists G', G = e :: G') as [G' HGe].
  { assert (StronglySorted kv_lt G) as HsG.
    { clear - Hsort. induction F as [|y F IH]; [done|]. apply StronglySorted_inv in Hsort as [Hs _]. auto. }
    destruct G as [|x G']; [by inversion HeG|]. exists G'. f_equal.
    destruct (HG x ltac:(left)) as [|Hlt]; [done|exfalso].
    apply elem_of_cons in HeG as [->|HeG].
    - eapply kv_lt_irrefl; [by eapply child_entry|exact Hlt].
    - apply StronglySorted_inv in HsG as [_ Hf]. rewrite Forall_forall in Hf.
      assert (x ∈ ch_entries sp) as Hxs by (rewrite Hsp; set_solver).
      eapply (kv_lt_asym e x); [by eapply child_entry|by eapply child_entry|exact Hlt|by apply Hf]. }
  split; [rewrite Hsp, HGe; by rewrite lookup_app_r, Nat.sub_diag by lia|].
  rewrite Hsp, HGe, filter_app, filter_cons, decide_True by (apply (take_S_elem m e); auto).
  rewrite length_app. cbn [length]. rewrite (filter_all _ F), (filter_none _ G'); [cbn; lia| |].
  - apply Forall_forall. intros x Hx Hx2. apply (take_S_elem m e x He) in Hx2 as [Hin' | ->].
    + assert (x ∈ G) as HxG by (rewrite HGe; by right). apply list_elem_of_filter in HxG as [? _]. done.
    + assert (NoDup (e :: G')) as Hnd.
      { rewrite <- HGe. apply NoDup_filter. pose proof kvs_nodup as Hnd. rewrite (merge_perm Hm) in Hnd.
        clear - Hnd Hi. revert i Hi. induction specs as [|s0 l IH]; [done|]. intros i Hi. rewrite fmap_cons in Hnd.
        cbn [concat] in Hnd. apply NoDup_app in Hnd as (H0 & _ & H1). destruct i; cbn in Hi; [by simplify_eq|by eapply IH]. }
      by apply NoDup_cons in Hnd as [? _].
  - apply Forall_forall. intros x [Hx _]%list_elem_of_filter. apply (take_S_elem m e); auto.
Qed.

Lemma count_elsewhere m e es : kvs !! m = Some e -> e ∉ es -> count (S m) es = count m es.
Proof.
  intros He Hni. unfold count. f_equal. apply filter_ext_elem. intros x Hx. rewrite (take_S_elem m e x He).
  split; [intros [Hin | ->]; done|auto].
Qed.

Lemma count_0 es : count 0 es = 0%nat.
Proof. unfold count. rewrite filter_none; [done|]. apply Forall_forall. intros x _ Hx. by inversion Hx. Qed.

Lemma count_all i sp : specs !! i = Some sp -> count (length kvs) (ch_entries sp) = length (ch_entries sp).
Proof.
  intros Hi. unfold count. rewrite filter_all; [done|]. apply Forall_forall. intros x Hx.
  rewrite firstn_all. by eapply child_entry.
Qed.

(** Seeking a sorted list counts the entries below the target. *)
Lemma seek_index_filter target es : valid target -> (forall x, x ∈ es -> x ∈ kvs) -> StronglySorted kv_lt es ->
  seek_index (Compare cmp) target es = length (filter (fun x => Compare cmp x.1 target < 0) es) /\
  take (seek_index (Compare cmp) target es) es = filter (fun x => Compare cmp x.1 target < 0) es.
Proof.
  intros Hv Hes Hs. set (P := fun x : bytes * bytes => Compare cmp x.1 target < 0).
  assert (Hsp : es = filter P es ++ filter (fun x => ~ P x) es).
  { apply (filter_sorted_split kv_lt); [done|]. intros x y Hx Hy Hlt Hy'. unfold P in *.
    eapply (Compare_lt_trans (cmp := cmp) x.1 y.1); [by apply kv_valid, Hes..|done|done|done]. }
  assert (seek_index (Compare cmp) target es = length (filter P es)) as Hseek.
  { rewrite Hsp at 1. apply seek_index_split; apply Forall_forall; intros x Hx%list_elem_of_filter; apply Hx. }
  split; [done|]. rewrite Hseek. rewrite Hsp at 2. by rewrite take_app_length.
Qed.

Lemma child_sorted i sp : specs !! i = Some sp -> StronglySorted kv_lt (ch_entries sp).
Proof.
  intros Hi. pose proof (merge_children Hm) as H. rewrite Forall_forall in H. apply H. by eapply list_elem_of_lookup_2.
Qed.

Lemma seek_count target i sp : valid target -> specs !! i = Some sp ->
  seek_index (Compare cmp) target (ch_entries sp) = fwd_pos (seek_index (Compare cmp) target kvs) sp.
Proof.
  intros Hv Hi. destruct (seek_index_filter target kvs Hv) as [_ Htake]; [done|apply Hm|].
  destruct (seek_index_filter target (ch_entries sp) Hv) as [-> _];
    [by intros; eapply child_entry|by eapply child_sorted|].
  unfold fwd_pos, count. rewrite Htake. f_equal. apply filter_ext_elem. intros x Hx.
  rewrite list_elem_of_filter. split; [intros; split; [done|by eapply child_entry]|by intros [? _]].
Qed.

Lemma seek_here n e : kvs !! n = Some e -> seek_index (Compare cmp) e.1 kvs = n.
Proof.
  intros He. pose proof (list_elem_of_lookup_2 _ _ _ He) as Hin.
  rewrite <- (take_drop_middle _ _ _ He) at 1. rewrite seek_index_split.
  - rewrite length_take_le; [done|]. apply lookup_lt_Some in He. lia.
  - apply Forall_forall. intros x Hx. eapply (rank_lt n); [done|done|by apply not_in_take].
  - apply Forall_forall. intros x Hx Hlt. apply elem_of_cons in Hx as [->|Hx]; [by eapply kv_lt_irrefl|].
    assert (x ∈ kvs) as Hxk by (rewrite <- (take_drop (S n) kvs); set_solver).
    eapply (kv_lt_asym e x); [done|done| |exact Hlt].
    eapply (rank_lt (S n)); [apply (take_S_elem n e); auto|done|]. intros Hxt.
    pose proof kvs_nodup as Hnd. rewrite <- (take_drop (S n) kvs) in Hnd. apply NoDup_app in Hnd as (_ & Hdis & _).
    by apply (Hdis x).
Qed.

(** ** Finding the smallest and the largest child *)

Definition valid_key (c : IteratorWrapper I) : Prop := Valid c = true -> valid (iter_key c).

Lemma smallest_from_spec i cs best :
  Forall valid_key cs -> (forall j b, best = Some (j, b) -> Valid b = true /\ valid_key b) ->
  match smallest_from cmp i cs best with
  | None => best = None /\ Forall (fun c => Valid c = false) cs
  | Some (j, c) =>
    (best = Some (j, c) \/ exists k, j = (i + k)%nat /\ cs !! k = Some c) /\ Valid c = true /\
    Forall (fun c' => Valid c' = true -> Compare cmp (iter_key c) (iter_key c') <= 0) cs /\
    (forall k b, best = Some (k, b) -> Compare cmp (iter_key c) (iter_key b) <= 0)
  end.
Proof.
  revert i best. induction cs as [|c cs IH]; intros i best Hv Hb; cbn [smallest_from].
  { destruct best as [[j b]|]; [|done]. destruct (Hb j b eq_refl) as [Hbv Hbk]. split_and!; [by left|done|constructor|].
    intros k b' [= -> ->]. rewrite Compare_refl; [done|auto]. }
  apply Forall_cons in Hv as [Hc Hv].
  set (best' := if Valid c then _ else best).
  assert (Hb' : forall j b, best' = Some (j, b) -> Valid b = true /\ valid_key b).
  { unfold best'. destruct (Valid c) eqn:Ec; [|done]. destruct best as [[k b]|].
    - destruct (_ <? 0); [intros ?? [= <- <-]; auto|done].
    - intros ?? [= <- <-]. auto. }
  specialize (IH (S i) best' Hv Hb'). destruct (smallest_from cmp (S i) cs best') as [[j d]|].
  - destruct IH as (Hwhere & Hdv & Hall & Hbest).
    assert (Hdk : valid (iter_key d)).
    { destruct Hwhere as [Heq|(k & _ & Hk)]; [by apply (Hb' j d Heq)|].
      rewrite Forall_forall in Hv. apply (Hv d); [by eapply list_elem_of_lookup_2|done]. }
    unfold best' in *. destruct (Valid c) eqn:Ec.
    + destruct best as [[k b]|].
      * destruct (Hb k b eq_refl) as [Hbv Hbk]. destruct (Z.ltb_spec (Compare cmp (iter_key c) (iter_key b)) 0) as [Hlt|Hge].
        -- pose proof (Hbest i c eq_refl) as Hdc. split_and!.
           ++ right. destruct Hwhere as [[= <- <-]|(n & -> & Hn)]; [by exists 0%nat; rewrite Nat.add_0_r|].
              exists (S n). split; [lia|done].
           ++ done.
           ++ by constructor.
           ++ intros k' b' [= <- <-]. eapply (Compare_le_trans (cmp := cmp) _ (iter_key c)); auto; lia.
        -- pose proof (Hbest k b eq_refl) as Hdb. split_and!.
           ++ destruct Hwhere as [[= <- <-]|(n & -> & Hn)]; [by left|right]. exists (S n). split; [lia|done].
           ++ done.
           ++ constructor; [|done]. intros _. eapply (Compare_le_trans (cmp := cmp) _ (iter_key b)); auto.
              apply Compare_ge_iff; auto.
           ++ intros k' b' [= <- <-]. done.
      * pose proof (Hbest i c eq_refl) as Hdc. split_and!.
        -- right. destruct Hwhere as [[= <- <-]|(n & -> & Hn)]; [by exists 0%nat; rewrite Nat.add_0_r|].
           exists (S n). split; [lia|done].
        -- done.
        -- by constructor.
        -- done.
    + split_and!; [|done|constructor; [by rewrite Ec|done]|done].
      destruct Hwhere as [|(n & -> & Hn)]; [by left|right]. exists (S n). split; [lia|done].
  - destruct IH as [Hnone Hall]. unfold best' in Hnone. destruct (Valid c) eqn:Ec.
    + destruct best as [[k b]|]; [destruct (_ <? 0); done|done].
    + split; [done|]. by constructor.
Qed.

Lemma largest_from_spec i cs : Forall valid_key cs ->
  match largest_from cmp i cs with
  | None => Forall (fun c => Valid c = false) cs
  | Some (j, c) =>
    (exists k, j = (i + k)%nat /\ cs !! k = Some c) /\ Valid c = true /\
    Forall (fun c' => Valid c' = true -> Compare cmp (iter_key c') (iter_key c) <= 0) cs
  end.
Proof.
  revert i. induction cs as [|c cs IH]; intros i Hv; cbn [largest_from]; [done|].
  apply Forall_cons in Hv as [Hc Hv]. specialize (IH (S i) Hv).
  assert (Hhere : exists k, i = (i + k)%nat /\ (c :: cs) !! k = Some c) by (exists 0%nat; rewrite Nat.add_0_r; done).
  destruct (largest_from cmp (S i) cs) as [[j d]|].
  - destruct IH as ((n & -> & Hn) & Hdv & Hall).
    assert (Hthere : exists k, (S i + n)%nat = (i + k)%nat /\ (c :: cs) !! k = Some d) by (exists (S n); split; [lia|done]).
    assert (valid (iter_key d)) as Hdk.
    { rewrite Forall_forall in Hv. apply (Hv d); [by eapply list_elem_of_lookup_2|done]. }
    destruct (Valid c) eqn:Ec.
    + destruct (Z.ltb_spec 0 (Compare cmp (iter_key c) (iter_key d))) as [Hlt|Hge].
      * split_and!; [done|done|]. constructor; [intros _; rewrite Compare_refl; [done|auto]|].
        rewrite Forall_forall in *. intros x Hx Hxv.
        eapply (Compare_le_trans (cmp := cmp) _ (iter_key d)); [by apply Hv|done|auto|by apply Hall|].
        apply Compare_gt_iff in Hlt; [lia|auto|done].
      * split_and!; [done|done|]. by constructor.
    + split_and!; [done|done|]. constructor; [by rewrite Ec|done].
  - destruct (Valid c) eqn:Ec; [|by constructor]. split_and!; [done|done|].
    constructor; [intros _; rewrite Compare_refl; [done|auto]|].
    eapply Forall_impl; [exact IH|]. cbn. intros x ->. done.
Qed.

(** ** States *)

(** Every child stands where [pos] says. *)
Definition placed (pos : Child -> nat) (cs : list (IteratorWrapper I)) : Prop :=
  length cs = length specs /\
  forall i sp c, specs !! i = Some sp -> cs !! i = Some c -> ch_at sp c (pos sp).

Lemma placed_ext pos pos' cs : placed pos cs ->
  (forall i sp, specs !! i = Some sp -> pos sp = pos' sp) -> placed pos' cs.
Proof. intros [Hl H] He. split; [done|]. intros i sp c Hi Hc. rewrite <- (He i sp Hi). by apply (H i). Qed.

Lemma placed_child pos cs i sp : placed pos cs -> specs !! i = Some sp -> exists c, cs !! i = Some c /\ ch_at sp c (pos sp).
Proof.
  intros [Hl H] Hi. destruct (lookup_lt_is_Some_2 cs i) as [c Hc].
  { rewrite Hl. by eapply lookup_lt_Some. }
  exists c. split; [done|]. by apply (H i).
Qed.

Lemma placed_spec pos cs i c : placed pos cs -> cs !! i = Some c -> exists sp, specs !! i = Some sp /\ ch_at sp c (pos sp).
Proof.
  intros [Hl H] Hc. destruct (lookup_lt_is_Some_2 specs i) as [sp Hsp].
  { rewrite <- Hl. by eapply lookup_lt_Some. }
  exists sp. split; [done|]. by apply (H i).
Qed.

Lemma placed_valid_key pos cs : placed pos cs -> Forall valid_key cs.
Proof.
  intros Hp. apply Forall_lookup. intros i c Hc Hv. destruct (placed_spec _ _ _ _ Hp Hc) as (sp & Hsp & Ha).
  apply (Valid_at c _ Ha) in Hv. destruct (lookup_lt_is_Some_2 _ _ Hv) as [[k v] Hkv].
  destruct (entry_at c _ k v Ha Hkv) as [-> _]. change k with (k, v).1. eapply kv_valid, child_entry; [done|].
  by eapply list_elem_of_lookup_2.
Qed.

(** [current_] is the child that holds the entry at rank [n]. *)
Definition current_at (n : nat) (cur : option nat) : Prop :=
  exists i sp e, cur = Some i /\ specs !! i = Some sp /\ kvs !! n = Some e /\ e ∈ ch_entries sp.

(** A valid child at [pos] shows an entry of its list. *)
Lemma shown pos cs i c : placed pos cs -> cs !! i = Some c -> Valid c = true ->
  exists sp x, specs !! i = Some sp /\ ch_entries sp !! pos sp = Some x /\ iter_key c = x.1.
Proof.
  intros Hp Hc Hv. destruct (placed_spec _ _ _ _ Hp Hc) as (sp & Hsp & Ha).
  apply (Valid_at c _ Ha) in Hv. destruct (lookup_lt_is_Some_2 _ _ Hv) as [[k v] Hkv].
  destruct (entry_at c _ k v Ha Hkv) as [Hk _]. by exists sp, (k, v).
Qed.

Lemma shows pos cs i sp x : placed pos cs -> specs !! i = Some sp -> ch_entries sp !! pos sp = Some x ->
  exists c, cs !! i = Some c /\ Valid c = true /\ iter_key c = x.1 /\ iter_value c = x.2.
Proof.
  intros Hp Hi Hx. destruct (placed_child _ _ _ _ Hp Hi) as (c & Hc & Ha). exists c. split; [done|].
  destruct x as [k v]. destruct (entry_at c _ k v Ha Hx). split; [|done].
  apply (Valid_at c _ Ha). by eapply lookup_lt_Some.
Qed.

Lemma count_not_in m i sp x : specs !! i = Some sp -> ch_entries sp !! count m (ch_entries sp) = Some x -> x ∉ take m kvs.
Proof.
  intros Hi Hx Hin. pose proof (child_split m i sp Hi) as Hsp. unfold count in Hx.
  assert ((filter (fun x => x ∈ take m kvs) (ch_entries sp) ++ filter (fun x => x ∉ take m kvs) (ch_entries sp))
            !! length (filter (fun x => x ∈ take m kvs) (ch_entries sp)) = Some x) as Hx' by by rewrite <- Hsp.
  clear Hx. rename Hx' into Hx. rewrite lookup_app_r, Nat.sub_diag in Hx by lia. apply list_elem_of_lookup_2, list_elem_of_filter in Hx as [? _]. done.
Qed.

Lemma count_in m i sp x j : specs !! i = Some sp -> (j < count m (ch_entries sp))%nat ->
  ch_entries sp !! j = Some x -> x ∈ take m kvs.
Proof.
  intros Hi Hj Hx. rewrite (child_split m i sp Hi) in Hx. unfold count in Hj.
  rewrite lookup_app_l in Hx by lia. apply list_elem_of_lookup_2, list_elem_of_filter in Hx as [? _]. done.
Qed.

Lemma FindSmallest_at m n : merge_comparator m = cmp -> (n <= length kvs)%nat -> placed (fwd_pos n) (children_ m) ->
  let cur := current_ (FindSmallest m) in
  if decide (n < length kvs)%nat then current_at n cur else cur = None.
Proof.
  intros Hcmp Hn Hp. unfold FindSmallest. cbn [current_]. rewrite Hcmp.
  pose proof (smallest_from_spec 0 (children_ m) None (placed_valid_key _ _ Hp) ltac:(done)) as Hs.
  destruct (smallest_from cmp 0 (children_ m) None) as [[j c]|] eqn:E; cbn [fmap option_fmap option_map fst].
  - destruct Hs as ([|(k & -> & Hk)] & Hv & Hall & _); [done|]. cbn [Nat.add] in *.
    destruct (shown _ _ _ _ Hp Hk Hv) as (sp & x & Hsp & Hx & Hkey). pose proof (count_not_in n k sp x Hsp Hx) as Hnx.
    pose proof (child_entry k sp x Hsp (list_elem_of_lookup_2 _ _ _ Hx)) as Hxk.
    destruct (decide (n < length kvs)%nat) as [Hlt|Hge].
    + destruct (lookup_lt_is_Some_2 kvs n Hlt) as [e He].
      destruct (child_exists e) as (i & sp' & Hi & Hin); [by eapply list_elem_of_lookup_2|].
      destruct (count_here n i sp' e Hi He Hin) as [Hhere _].
      destruct (shows _ _ _ _ e Hp Hi Hhere) as (c' & Hc' & Hv' & Hkey' & _).
      rewrite Forall_lookup in Hall. specialize (Hall _ _ Hc' Hv'). rewrite Hkey, Hkey' in Hall.
      exists k, sp, e. split_and!; try done. destruct (decide (x = e)) as [<-|Hne]; [by eapply list_elem_of_lookup_2|exfalso].
      assert (kv_lt e x) as Hlt'.
      { eapply (rank_lt (S n)); [apply (take_S_elem n e); auto|done|]. rewrite (take_S_elem n e x He). tauto. }
      unfold kv_lt in Hlt'. apply (Compare_antisym (cmp := cmp)) in Hlt'; [lia|by apply kv_valid; eapply list_elem_of_lookup_2|by apply kv_valid].
    + exfalso. apply Hnx. rewrite take_ge by lia. done.
  - destruct Hs as [_ Hall]. destruct (decide (n < length kvs)%nat) as [Hlt|Hge]; [exfalso|done].
    destruct (lookup_lt_is_Some_2 kvs n Hlt) as [e He].
    destruct (child_exists e) as (i & sp & Hi & Hin); [by eapply list_elem_of_lookup_2|].
    destruct (count_here n i sp e Hi He Hin) as [Hhere _].
    destruct (shows _ _ _ _ e Hp Hi Hhere) as (c' & Hc' & Hv' & _).
    rewrite Forall_lookup in Hall. rewrite (Hall _ _ Hc') in Hv'. done.
Qed.

Lemma rev_here n i sp e : specs !! i = Some sp -> kvs !! n = Some e -> e ∈ ch_entries sp ->
  rev_pos (S n) sp = fwd_pos n sp.
Proof. intros Hi He Hin. unfold rev_pos, fwd_pos. by destruct (count_here n i sp e Hi He Hin) as [_ ->]. Qed.

Lemma FindLargest_at m n : merge_comparator m = cmp -> placed (rev_pos n) (children_ m) -> (n <= length kvs)%nat ->
  let cur := current_ (FindLargest m) in
  match n with O => cur = None | S n => current_at n cur end.
Proof.
  intros Hcmp Hp Hn. unfold FindLargest. cbn [current_]. rewrite Hcmp.
  pose proof (largest_from_spec 0 (children_ m) (placed_valid_key _ _ Hp)) as Hs.
  destruct (largest_from cmp 0 (children_ m)) as [[j c]|] eqn:E; cbn [fmap option_fmap option_map fst].
  - destruct Hs as ((k & -> & Hk) & Hv & Hall). cbn [Nat.add] in *.
    destruct (shown _ _ _ _ Hp Hk Hv) as (sp & x & Hsp & Hx & Hkey).
    assert (x ∈ take n kvs) as Hxn.
    { unfold rev_pos in Hx. destruct (count n (ch_entries sp)) as [|j] eqn:Ec.
      - apply lookup_lt_Some in Hx. lia.
      - eapply (count_in n k sp x j); [done|lia|done]. }
    destruct n as [|n]; [by inversion Hxn|]. destruct (lookup_lt_is_Some_2 kvs n Hn) as [e He].
    exists k, sp, e. split_and!; try done. pose proof Hxn as [Hxt|<-]%(take_S_elem n e x He); [exfalso|by eapply list_elem_of_lookup_2].
    destruct (child_exists e) as (i & sp' & Hi & Hin); [by eapply list_elem_of_lookup_2|].
    destruct (count_here n i sp' e Hi He Hin) as [Hhere _]. fold (fwd_pos n sp') in Hhere.
    rewrite <- (rev_here n i sp' e) in Hhere by done.
    destruct (shows _ _ _ _ e Hp Hi Hhere) as (c' & Hc' & Hv' & Hkey' & _).
    rewrite Forall_lookup in Hall. specialize (Hall _ _ Hc' Hv'). rewrite Hkey, Hkey' in Hall.
    assert (kv_lt x e) as Hlt by (eapply (rank_lt n); [done|by eapply list_elem_of_lookup_2|by apply not_in_take]).
    unfold kv_lt in Hlt. apply (Compare_antisym (cmp := cmp)) in Hlt; [lia| |]; apply kv_valid;
      [exact (child_entry k sp x Hsp (list_elem_of_lookup_2 _ _ _ Hx))|by eapply list_elem_of_lookup_2].
  - destruct n as [|n]; [done|exfalso]. destruct (lookup_lt_is_Some_2 kvs n Hn) as [e He].
    destruct (child_exists e) as (i & sp & Hi & Hin); [by eapply list_elem_of_lookup_2|].
    destruct (count_here n i sp e Hi He Hin) as [Hhere _]. fold (fwd_pos n sp) in Hhere.
    rewrite <- (rev_here n i sp e) in Hhere by done.
    destruct (shows _ _ _ _ e Hp Hi Hhere) as (c' & Hc' & Hv' & _).
    rewrite Forall_lookup in Hs. rewrite (Hs _ _ Hc') in Hv'. done.
Qed.

(** The states of the merging iterator at rank [n]. *)
Definition merging_inv (m : MergingIterator I) : Prop :=
  merge_comparator m = cmp /\ length (children_ m) = length specs /\
  forall i sp c, specs !! i = Some sp -> children_ m !! i = Some c -> ch_inv sp c.

Definition merging_at (m : MergingIterator I) (n : nat) : Prop :=
  merge_comparator m = cmp /\ (n <= length kvs)%nat /\
  ((n < length kvs)%nat /\ current_at n (current_ m) /\
     (direction_ m = kForward /\ placed (fwd_pos n) (children_ m) \/
      direction_ m = kReverse /\ placed (rev_pos (S n)) (children_ m)) \/
   n = length kvs /\ current_ m = None /\ placed (fun sp => length (ch_entries sp)) (children_ m)).

Lemma children_placed_inv pos cs : placed pos cs ->
  length cs = length specs /\ forall i sp c, specs !! i = Some sp -> cs !! i = Some c -> ch_inv sp c.
Proof. intros [Hl H]. split; [done|]. intros i sp c Hi Hc. eapply at_inv. by apply (H i). Qed.

Lemma merging_at_placed m n : merging_at m n -> exists pos, placed pos (children_ m).
Proof. intros (_ & _ & [(_ & _ & [[_ ?]|[_ ?]])|(_ & _ & ?)]); by eexists. Qed.

(** Moving every child from any state. *)
Lemma placed_fmap (f : IteratorWrapper I -> IteratorWrapper I) pos cs :
  length cs = length specs -> (forall i sp c, specs !! i = Some sp -> cs !! i = Some c -> ch_inv sp c) ->
  (forall i sp c, specs !! i = Some sp -> ch_inv sp c -> ch_at sp (f c) (pos sp)) -> placed pos (f <$> cs).
Proof.
  intros Hl Hinv Hf. split; [by rewrite length_fmap|]. intros i sp c Hi Hc.
  apply list_lookup_fmap_Some in Hc as (c' & -> & Hc'). by eapply Hf, Hinv.
Qed.

Lemma at_forward m n : merge_comparator m = cmp -> (n <= length kvs)%nat -> direction_ m = kForward ->
  placed (fwd_pos n) (children_ m) ->
  (if decide (n < length kvs)%nat then current_at n (current_ m) else current_ m = None) -> merging_at m n.
Proof.
  intros Hc Hn Hd Hp Hcur. split; [done|]. split; [done|]. destruct (decide (n < length kvs)%nat) as [Hlt|Hge].
  - left. split; [done|]. split; [done|]. by left.
  - right. assert (n = length kvs) as -> by lia. split_and!; [done|done|]. eapply placed_ext; [exact Hp|].
    intros i sp Hi. unfold fwd_pos. by eapply count_all.
Qed.

(** [n] is one more than the rank of the current entry. *)
Lemma at_reverse m n : merge_comparator m = cmp -> (n <= length kvs)%nat -> direction_ m = kReverse ->
  placed (rev_pos n) (children_ m) ->
  match n with O => current_ m = None | S n => current_at n (current_ m) end ->
  merging_at m (match n with O => length kvs | S n => n end).
Proof.
  intros Hc Hn Hd Hp Hcur. split; [done|]. destruct n as [|n].
  - split; [done|]. right. split_and!; [done|done|]. eapply placed_ext; [exact Hp|].
    intros i sp Hi. unfold rev_pos. by rewrite count_0.
  - split; [lia|]. left. split; [lia|]. split; [done|]. by right.
Qed.

(** At a valid rank, forwards or backwards, the current child shows the entry. *)
Lemma current_shows m n : merging_at m n -> (n < length kvs)%nat ->
  exists i sp e c, current_ m = Some i /\ specs !! i = Some sp /\ kvs !! n = Some e /\ e ∈ ch_entries sp /\
    children_ m !! i = Some c /\ ch_at sp c (fwd_pos n sp) /\ iter_key c = e.1 /\ iter_value c = e.2.
Proof.
  intros (_ & _ & [(_ & (i & sp & e & Hcur & Hi & He & Hin) & Hdir)|(-> & _)]) Hn; [|lia].
  assert (exists c, children_ m !! i = Some c /\ ch_at sp c (fwd_pos n sp)) as (c & Hc & Ha).
  { destruct Hdir as [[_ Hp]|[_ Hp]].
    - by eapply placed_child.
    - rewrite <- (rev_here n i sp e) by done. by eapply placed_child. }
  destruct (count_here n i sp e Hi He Hin) as [Hhere _]. destruct e as [k v].
  destruct (entry_at c _ k v Ha Hhere). exists i, sp, (k, v), c. by split_and!.
Qed.

Lemma seekable_key n e : kvs !! n = Some e -> seekable e.1.
Proof.
  intros He. pose proof (merge_valid Hm) as H. rewrite Forall_forall in H. apply H. by eapply list_elem_of_lookup_2.
Qed.

(** The current child moves, the others have been placed. *)
Lemma placed_alter pos pos' (f : IteratorWrapper I -> IteratorWrapper I) cs i :
  placed pos cs ->
  (forall sp c, specs !! i = Some sp -> ch_at sp c (pos sp) -> ch_at sp (f c) (pos' sp)) ->
  (forall j sp, j <> i -> specs !! j = Some sp -> pos sp = pos' sp) -> placed pos' (alter f i cs).
Proof.
  intros [Hl H] Hf Ho. split; [by rewrite length_alter|]. intros j sp c Hj Hc. destruct (decide (j = i)) as [->|Hne].
  - rewrite list_lookup_alter_eq in Hc. destruct (cs !! i) eqn:E; [|done]. injection Hc as <-.
    apply Hf; [done|]. by apply (H i).
  - rewrite list_lookup_alter_ne in Hc by done. rewrite <- (Ho j sp Hne Hj). by apply (H j).
Qed.

Lemma placed_others pos pos' (f : IteratorWrapper I -> IteratorWrapper I) m i :
  current_ m = Some i -> placed pos (children_ m) ->
  (forall sp, specs !! i = Some sp -> pos sp = pos' sp) ->
  (forall j sp c, j <> i -> specs !! j = Some sp -> ch_inv sp c -> ch_at sp (f c) (pos' sp)) ->
  placed pos' (others f m).
Proof.
  intros Hcur [Hl H] Hi Ho. unfold others. split; [by rewrite length_imap|]. intros j sp c Hj Hc.
  rewrite list_lookup_imap in Hc. destruct (children_ m !! j) as [c'|] eqn:E; [|done]. cbn in Hc. injection Hc as <-.
  destruct (decide (current_ m = Some j)) as [Hcj|Hcj].
  - assert (j = i) as -> by congruence. rewrite <- (Hi sp Hj). by apply (H i).
  - apply (Ho j); [congruence|done|]. eapply at_inv. by apply (H j).
Qed.

(** ** Changing direction *)

(** A child without the current entry, sought to it, stands at its rank. *)
Lemma seek_other n e j sp c : kvs !! n = Some e -> specs !! j = Some sp -> ch_inv sp c ->
  ch_at sp (Seek e.1 c) (fwd_pos n sp).
Proof.
  intros He Hj Hc. rewrite <- (seek_here n e He), <- (seek_count e.1 j sp) by
    (done || apply kv_valid; by eapply list_elem_of_lookup_2).
  apply Seek_at; [done|]. by eapply seekable_key.
Qed.

Lemma seek_after_at n e j sp c : kvs !! n = Some e -> specs !! j = Some sp -> e ∉ ch_entries sp -> ch_inv sp c ->
  ch_at sp (seek_after cmp e.1 c) (fwd_pos n sp).
Proof.
  intros He Hj Hni Hc. pose proof (seek_other n e j sp c He Hj Hc) as Ha. unfold seek_after.
  destruct (Valid (Seek e.1 c)) eqn:Ev; cbn [andb]; [|done].
  apply (Valid_at _ _ Ha) in Ev. destruct (lookup_lt_is_Some_2 _ _ Ev) as [[k v] Hkv].
  destruct (entry_at _ _ k v Ha Hkv) as [-> _]. pose proof (count_not_in n j sp _ Hj Hkv) as Hnx.
  assert (kv_lt e (k, v)) as Hlt.
  { eapply (rank_lt (S n)); [apply (take_S_elem n e); auto|by eapply child_entry; [|eapply list_elem_of_lookup_2]|].
    rewrite (take_S_elem n e _ He). intros [?|<-]; [done|]. apply Hni. by eapply list_elem_of_lookup_2. }
  unfold kv_lt in Hlt. cbn [fst] in Hlt. by rewrite (proj2 (Z.eqb_neq _ _)) by lia.
Qed.

Lemma prev_at sp c n : ch_at sp c n -> (n < length (ch_entries sp))%nat ->
  ch_at sp (Prev c) (match n with O => length (ch_entries sp) | S j => j end).
Proof. apply Prev_at. Qed.

Lemma seek_before_at n e j sp c : kvs !! n = Some e -> specs !! j = Some sp -> ch_inv sp c ->
  ch_at sp (seek_before e.1 c) (rev_pos n sp).
Proof.
  intros He Hj Hc. pose proof (seek_other n e j sp c He Hj Hc) as Ha. unfold seek_before, rev_pos.
  fold (fwd_pos n sp). destruct (Valid (Seek e.1 c)) eqn:Ev.
  - apply prev_at; [done|]. by apply (Valid_at _ _ Ha).
  - assert (fwd_pos n sp = length (ch_entries sp)) as Hend.
    { pose proof (at_range _ _ Ha). destruct (decide (fwd_pos n sp < length (ch_entries sp))%nat) as [Hlt|]; [|lia].
      apply (Valid_at _ _ Ha) in Hlt. congruence. }
    pose proof (SeekToLast_at (entries := ch_entries sp) (Seek e.1 c) (at_inv _ _ Ha)) as Hl. rewrite Hend.
    destruct (length (ch_entries sp)); [done|]. cbn [Nat.sub] in Hl. by rewrite Nat.sub_0_r in Hl.
Qed.

Lemma fwd_step n i j sp sp' e : specs !! i = Some sp -> e ∈ ch_entries sp -> kvs !! n = Some e -> j <> i ->
  specs !! j = Some sp' -> fwd_pos (S n) sp' = fwd_pos n sp' /\ rev_pos (S n) sp' = rev_pos n sp' /\ e ∉ ch_entries sp'.
Proof.
  intros Hi Hin He Hne Hj. assert (e ∉ ch_entries sp') as Hni by (intros Hin'; by eapply Hne, child_unique).
  unfold fwd_pos, rev_pos. by rewrite (count_elsewhere n e) by done.
Qed.

Lemma Merging_Next_at m n : merging_at m n -> (n < length kvs)%nat -> merging_at (Merging_Next m) (S n).
Proof.
  intros Ha Hn. destruct (current_shows m n Ha Hn) as (i & sp & e & c & Hcur & Hi & He & Hin & Hc & Hca & Hk & _).
  assert (Hkey : Merging_key m = e.1) by (unfold Merging_key, current_child; rewrite Hcur; cbn; by rewrite Hc).
  destruct Ha as (Hcmp & _ & [(_ & _ & Hdir)|(-> & _)]); [|lia].
  set (m1 := if decide (direction_ m = kForward) then m
             else set_children m (others (seek_after (merge_comparator m) (Merging_key m)) m) kForward).
  assert (merge_comparator m1 = cmp /\ current_ m1 = Some i /\ direction_ m1 = kForward /\ placed (fwd_pos n) (children_ m1))
    as (Hcmp1 & Hcur1 & Hd1 & Hp1).
  { unfold m1. destruct (decide (direction_ m = kForward)) as [Hd|Hd].
    - destruct Hdir as [[_ Hp]|[Hd' _]]; [by split_and!|congruence].
    - destruct Hdir as [[Hd' _]|[_ Hp]]; [done|]. split_and!; try done. cbn [children_ set_children]. rewrite Hcmp, Hkey.
      eapply (placed_others (rev_pos (S n))); [done|done| |].
      + intros sp' Hsp'. simplify_eq. by eapply rev_here.
      + intros j sp' c' Hne Hj Hinv. destruct (fwd_step n i j sp sp' e Hi Hin He Hne Hj) as (_ & _ & Hni).
        by apply (seek_after_at n e j). }
  unfold Merging_Next. fold m1. unfold move_current. rewrite Hcur1.
  assert (Hp2 : placed (fwd_pos (S n)) (alter Next i (children_ m1))).
  { eapply (placed_alter (fwd_pos n)); [done| |].
    - intros sp' c' Hsp' Ha'. simplify_eq. destruct (count_here n i sp e Hi He Hin) as [Hhere Hsucc].
      unfold fwd_pos. rewrite Hsucc. apply Next_at; [done|]. by eapply lookup_lt_Some.
    - intros j sp' Hne Hj. symmetry. by destruct (fwd_step n i j sp sp' e Hi Hin He Hne Hj) as (? & _). }
  apply at_forward; try done. by apply FindSmallest_at.
Qed.

Lemma Merging_Prev_at m n : merging_at m n -> (n < length kvs)%nat ->
  merging_at (Merging_Prev m) (match n with O => length kvs | S j => j end).
Proof.
  intros Ha Hn. destruct (current_shows m n Ha Hn) as (i & sp & e & c & Hcur & Hi & He & Hin & Hc & Hca & Hk & _).
  assert (Hkey : Merging_key m = e.1) by (unfold Merging_key, current_child; rewrite Hcur; cbn; by rewrite Hc).
  destruct Ha as (Hcmp & _ & [(_ & _ & Hdir)|(-> & _)]); [|lia].
  (* the current child still stands on the entry, the others before it *)
  set (pos := fun sp' : Child => if decide (e ∈ ch_entries sp') then fwd_pos n sp' else rev_pos n sp').
  assert (Hpos : forall j sp', specs !! j = Some sp' -> (j = i /\ pos sp' = fwd_pos n sp') \/ (j <> i /\ pos sp' = rev_pos n sp')).
  { intros j sp' Hj. unfold pos. destruct (decide (e ∈ ch_entries sp')) as [Hin'|Hni].
    - left. split; [by eapply child_unique|done].
    - right. split; [|done]. intros ->. simplify_eq. by apply Hni. }
  set (m1 := if decide (direction_ m = kReverse) then m
             else set_children m (others (seek_before (Merging_key m)) m) kReverse).
  assert (merge_comparator m1 = cmp /\ current_ m1 = Some i /\ direction_ m1 = kReverse /\ placed pos (children_ m1))
    as (Hcmp1 & Hcur1 & Hd1 & Hp1).
  { unfold m1. destruct (decide (direction_ m = kReverse)) as [Hd|Hd].
    - destruct Hdir as [[Hd' _]|[_ Hp]]; [congruence|]. split_and!; try done. eapply placed_ext; [exact Hp|].
      intros j sp' Hj. destruct (Hpos j sp' Hj) as [[-> ->]|[Hne ->]].
      + simplify_eq. by eapply rev_here.
      + by destruct (fwd_step n i j sp sp' e Hi Hin He Hne Hj) as (_ & ? & _).
    - destruct Hdir as [[_ Hp]|[Hd' _]]; [|done]. split_and!; try done. cbn [children_ set_children]. rewrite Hkey.
      eapply (placed_others (fwd_pos n)); [done|done| |].
      + intros sp' Hsp'. by destruct (Hpos i sp' Hsp') as [[_ ->]|[? _]].
      + intros j sp' c' Hne Hj Hinv. destruct (Hpos j sp' Hj) as [[? _]|[_ ->]]; [done|]. by eapply seek_before_at. }
  unfold Merging_Prev. fold m1. unfold move_current. rewrite Hcur1.
  assert (Hp2 : placed (rev_pos n) (alter Prev i (children_ m1))).
  { eapply (placed_alter pos); [done| |].
    - intros sp' c' Hsp' Ha'. destruct (Hpos i sp' Hsp') as [[_ Heq]|[? _]]; [|done]. rewrite Heq in Ha'. simplify_eq.
      destruct (count_here n i sp e Hi He Hin) as [Hhere _]. apply prev_at; [done|]. by eapply lookup_lt_Some.
    - intros j sp' Hne Hj. by destruct (Hpos j sp' Hj) as [[? _]|[_ ->]]. }
  apply at_reverse; try done; [lia|]. apply FindLargest_at; [done|done|lia].
Qed.

#[export] Instance MergingIterator_ok : IteratorOk (Compare cmp) seekable kvs merging_inv merging_at.
Proof.
  split; cbn [Valid SeekToFirst SeekToLast Seek Next Prev iter_key iter_value status MergingIterator_ops].
  - intros m n Ha. destruct (merging_at_placed m n Ha) as [pos Hp]. destruct (children_placed_inv _ _ Hp). by destruct Ha.
  - by intros m n (_ & ? & _).
  - intros m n Ha. rewrite bool_decide_eq_true. split.
    + intros Hcur. destruct Ha as (_ & _ & [(? & _)|(_ & Hnone & _)]); [done|]. rewrite Hnone in Hcur. by destruct Hcur.
    + intros Hn. destruct (current_shows m n Ha Hn) as (i & _ & _ & _ & -> & _). done.
  - intros m n k v Ha Hkv. destruct (current_shows m n Ha) as (i & sp & e & c & Hcur & _ & He & _ & Hc & _ & Hk & Hv).
    { by eapply lookup_lt_Some. }
    unfold Merging_key, current_child. rewrite Hcur. cbn [mbind option_bind]. rewrite Hc, Hk, Hv. by simplify_eq.
  - intros m n Ha. destruct (merging_at_placed m n Ha) as [pos Hp].
    assert (Forall (fun c => ok (status c) = true) (children_ m)) as Hok.
    { apply Forall_lookup. intros i c Hc. destruct (placed_spec _ _ _ _ Hp Hc) as (sp & _ & Hca). by eapply status_at. }
    clear - Hok. assert (ok OK = true) as H0 by done. revert H0. generalize OK.
    induction Hok as [|c cs Hc _ IH]; intros s Hs; cbn [merge_status]; [done|]. rewrite Hc. cbn [negb]. by apply IH.
  - intros m (Hc & Hl & Hinv). unfold Merging_SeekToFirst. apply at_forward; try done; [lia| |].
    + cbn [children_ set_children FindSmallest]. apply placed_fmap; [done|done|]. intros i sp c _ Hi. unfold fwd_pos.
      rewrite count_0. by apply SeekToFirst_at.
    + cbn [current_ set_children]. apply FindSmallest_at; [done|lia|]. cbn [children_ set_children].
      apply placed_fmap; [done|done|]. intros i sp c _ Hi. unfold fwd_pos. rewrite count_0. by apply SeekToFirst_at.
  - intros m (Hc & Hl & Hinv). unfold Merging_SeekToLast.
    assert (Hp : placed (rev_pos (length kvs)) (SeekToLast <$> children_ m)).
    { apply placed_fmap; [done|done|]. intros i sp c Hi Hc'. unfold rev_pos. rewrite (count_all i) by done.
      pose proof (SeekToLast_at (entries := ch_entries sp) c Hc') as Ha.
      destruct (length (ch_entries sp)); [done|]. cbn [Nat.sub] in Ha. by rewrite Nat.sub_0_r in Ha. }
    assert (length kvs - 1 = match length kvs with O => length kvs | S n => n end)%nat as -> by (destruct (length kvs); lia).
    apply at_reverse; try done. cbn [current_ set_children]. by apply FindLargest_at.
  - intros m target (Hc & Hl & Hinv) Hs. unfold Merging_Seek. pose proof (merge_seekable Hm target Hs) as Hv.
    assert (seek_index (Compare cmp) target kvs <= length kvs)%nat as Hle.
    { destruct (seek_index_filter target kvs Hv) as [-> _]; [done|apply Hm|]. apply length_filter. }
    assert (Hp : placed (fwd_pos (seek_index (Compare cmp) target kvs)) (Seek target <$> children_ m)).
    { apply placed_fmap; [done|done|]. intros i sp c Hi Hc'. rewrite <- (seek_count target i sp) by done. by apply Seek_at. }
    apply at_forward; try done. cbn [current_ set_children]. by apply FindSmallest_at.
  - apply Merging_Next_at.
  - apply Merging_Prev_at.
Qed.

End merging.

#[export] Instance MergedNone_dispatches {I} `{!IteratorOps I} : Dispatches (fun (k : Merged I) j => k = MergedNone j).
Proof. split; by intros; subst. Qed.
#[export] Instance MergedOne_dispatches {I} `{!IteratorOps I} : Dispatches (fun (k : Merged I) j => k = MergedOne j).
Proof. split; by intros; subst. Qed.
#[export] Instance MergedMany_dispatches {I} `{!IteratorOps I} : Dispatches (fun (k : Merged I) j => k = MergedMany j).
Proof. split; by intros; subst. Qed.

Section new_merging.
Context {I : Type} `{!IteratorOps I}.
Context (cmp : Comparator) (valid seekable : bytes -> Prop) `{!ComparatorOk cmp valid}.

(** What is known of one of the iterators to merge. *)
Record Source := {
  src_entries : list (bytes * bytes);
  src_inv : I -> Prop;
  src_at : I -> nat -> Prop;
  src_ok : IteratorOk (Compare cmp) seekable src_entries src_inv src_at;
}.

Definition wrapped (src : Source) : Child (I := I) cmp seekable :=
  {| ch_entries := src_entries src;
     ch_inv := wrapper_inv (inv := src_inv src);
     ch_at := wrapper_at (at_ := src_at src);
     ch_ok := IteratorWrapper_ok (IteratorOk0 := src_ok src) |}.

(** Two sorted arrangements of the same entries are equal. *)
Lemma sorted_unique (l l' : list (bytes * bytes)) : Forall (fun kv => valid kv.1) l -> l ≡ₚ l' ->
  StronglySorted (kv_lt cmp) l -> StronglySorted (kv_lt cmp) l' -> l = l'.
Proof.
  intros Hv HP Hs. revert l' HP. induction Hs as [|x l Hs IH Hx]; intros l' HP Hs'.
  { symmetry. by apply Permutation_nil. }
  destruct l' as [|y l']; [by apply Permutation_sym, Permutation_nil in HP|].
  apply StronglySorted_inv in Hs' as [Hs' Hy]. pose proof Hv as [Hvx Hvl]%Forall_cons.
  assert (x = y) as <-.
  { destruct (decide (x = y)) as [|Hne]; [done|exfalso].
    assert (x ∈ l') as Hin by (assert (x ∈ y :: l') as H by (rewrite <- HP; left); set_solver).
    assert (y ∈ l) as Hin' by (assert (y ∈ x :: l) as H by (rewrite HP; left); set_solver).
    rewrite Forall_forall in Hx, Hy, Hvl. specialize (Hx y Hin'). specialize (Hy x Hin). unfold kv_lt in *.
    apply (Compare_antisym (cmp := cmp)) in Hx; [lia|done|by apply Hvl]. }
  f_equal. apply IH; [done|by eapply Permutation_cons_inv|done].
Qed.

(** C14: the merging iterator is the merge.  For any iterators that walk
    sorted lists whose keys are pairwise different, [NewMergingIterator]
    implements the iterator interface over the sorted union of the lists: from
    every state, in either direction and across changes of direction, each
    operation lands on the entry of the union it should. *)
Theorem MergingIterator_refines (its : list I) (sources : list Source) (kvs : list (bytes * bytes)) :
  Forall2 (fun src it => src_inv src it) sources its ->
  merge_of cmp valid seekable (wrapped <$> sources) kvs ->
  exists inv at_, inv (NewMergingIterator cmp its) /\
    IteratorOk (I := Merged I) (Compare cmp) seekable kvs inv at_.
Proof.
  intros Hits Hm. destruct Hits as [|src it sources its Hit Hits].
  - assert (kvs = []) as -> by (apply Permutation_nil; symmetry; apply (merge_perm _ _ _ _ _ Hm)).
    eexists (lift_inv (fun k j => k = MergedNone j) (fun it => it = NewEmptyIterator)), _. split; [by eexists|].
    eapply dispatch_ok; [apply _|]. apply NewEmptyIterator_ok.
  - destruct Hits as [|src2 it2 sources its Hit2 Hits].
    + assert (kvs = src_entries src) as ->.
      { apply sorted_unique.
        - eapply Forall_impl; [apply (merge_valid _ _ _ _ _ Hm)|]. by intros x [? _].
        - pose proof (merge_perm _ _ _ _ _ Hm) as HP. cbn in HP. by rewrite app_nil_r in HP.
        - apply Hm.
        - pose proof (merge_children _ _ _ _ _ Hm) as Hc. by apply Forall_cons in Hc as [? _]. }
      eexists (lift_inv (fun k j => k = MergedOne j) (src_inv src)), _. split; [by exists it|].
      eapply dispatch_ok; [apply _|]. apply src_ok.
    + eexists (lift_inv (fun k j => k = MergedMany j) (merging_inv cmp seekable (wrapped <$> src :: src2 :: sources))), _. split.
      * eexists. split; [done|]. split; [done|]. split.
        { pose proof (Forall2_length _ _ _ Hits). cbn [children_ MergingIterator_new]. rewrite !length_fmap. cbn [length]. lia. }
        intros i sp c Hi Hc. cbn [children_ MergingIterator_new] in Hc.
        apply list_lookup_fmap_Some in Hc as (it' & -> & Hit').
        apply list_lookup_fmap_Some in Hi as (src' & -> & Hsrc'). apply Wrapper_Set_inv.
        assert (Forall2 (fun src it => src_inv src it) (src :: src2 :: sources) (it :: it2 :: its)) as HF by by repeat constructor.
        by eapply (Forall2_lookup_lr _ _ _ i _ _ HF).
      * eapply dispatch_ok; [apply _|]. by apply (MergingIterator_ok cmp valid).
Qed.
End new_merging.

(** * An instance *)

Definition list_source (entries : list (bytes * bytes)) : Source (I := ListIterator) BytewiseComparator (fun _ => True) :=
  {| src_ok := ListIterator_ok (Compare BytewiseComparator) (fun _ => True) entries |}.

Definition test_a : list (bytes * bytes) := [([bz 97], [bz 1]); ([bz 99], [bz 3])].
Definition test_b : list (bytes * bytes) := [([bz 98], [bz 2])].

Lemma test_merge : merge_of BytewiseComparator (fun _ => True) (fun _ => True)
  (wrapped _ _ <$> [list_source test_a; list_source test_b]) [([bz 97], [bz 1]); ([bz 98], [bz 2]); ([bz 99], [bz 3])].
Proof.
  split; try done; cbn.
  - apply perm_skip, perm_swap.
  - repeat constructor.
  - repeat constructor.
  - repeat constructor.
Qed.

Lemma MergingIterator_refines_witness :
  collect 4 (SeekToFirst (NewMergingIterator BytewiseComparator
    [mkListIterator Slice_compare test_a 0; mkListIterator Slice_compare test_b 0])) =
  [([bz 97], [bz 1]); ([bz 98], [bz 2]); ([bz 99], [bz 3])].
Proof.
  destruct (MergingIterator_refines BytewiseComparator (fun _ => True) (fun _ => True)
    [mkListIterator Slice_compare test_a 0; mkListIterator Slice_compare test_b 0]
    [list_source test_a; list_source test_b] _ ltac:(by repeat constructor) test_merge) as (inv & at_ & Hi & Hok).
  rewrite (collect_at (at_ := at_) 4 _ 0); [done|by apply SeekToFirst_at|cbn; lia].
Defined.
