(* ===== verification/TwoLevelIterator.v ===== *)
(** The two-level iterator of [table/two_level_iterator.h] and
    [table/two_level_iterator.cpp]: an index iterator whose values name blocks,
    and a data iterator over the current block.

    Proved: when every index key separates its block from the next one, the
    iterator implements the interface over the concatenation of the blocks,
    empty blocks included. *)

From S2P Require Import Prelude Status Comparator Options Iterator IteratorWrapper.

(** * The code *)

(** Opening a block can read files and fill caches: [S] is that state.
    [block_function_] is applied to [arg_]; [delete] runs the destructor of an
    iterator, which may give back what it holds. *)
Class Deletes (D S : Type) := delete_iter : D -> S -> S.

Record TwoLevelIterator (I D S : Type) := mkTwoLevel {
  block_function_ : ReadOptions -> bytes -> S -> D * S;
  options_ : ReadOptions;
  status_ : Status;
  index_iter_ : IteratorWrapper I;
  data_iter_ : IteratorWrapper D;
  data_block_handle_ : bytes;
  tl_env : S;
}.
#[global] Arguments mkTwoLevel {I D S}.
#[global] Arguments block_function_ {I D S}.
#[global] Arguments options_ {I D S}.
#[global] Arguments status_ {I D S}.
#[global] Arguments index_iter_ {I D S}.
#[global] Arguments data_iter_ {I D S}.
#[global] Arguments data_block_handle_ {I D S}.
#[global] Arguments tl_env {I D S}.

Section two_level.
Context {I D S : Type} `{!IteratorOps I} `{!IteratorOps D} `{!Deletes I S} `{!Deletes D S}.
Implicit Types (t : TwoLevelIterator I D S).

Definition NewTwoLevelIterator (index_iter : I) (block_function : ReadOptions -> bytes -> S -> D * S)
    (options : ReadOptions) (env : S) : TwoLevelIterator I D S :=
  mkTwoLevel block_function options OK (Wrapper_Set IteratorWrapper_new (Some index_iter)) IteratorWrapper_new [] env.

Definition set_index t (w : IteratorWrapper I) : TwoLevelIterator I D S :=
  mkTwoLevel (block_function_ t) (options_ t) (status_ t) w (data_iter_ t) (data_block_handle_ t) (tl_env t).

Definition set_data t (w : IteratorWrapper D) : TwoLevelIterator I D S :=
  mkTwoLevel (block_function_ t) (options_ t) (status_ t) (index_iter_ t) w (data_block_handle_ t) (tl_env t).

Definition SaveError t (s : Status) : TwoLevelIterator I D S :=
  if ok (status_ t) && negb (ok s)
  then mkTwoLevel (block_function_ t) (options_ t) s (index_iter_ t) (data_iter_ t) (data_block_handle_ t) (tl_env t)
  else t.

Definition is_null {T} (w : IteratorWrapper T) : bool := match iter_ w with None => true | Some _ => false end.

(** [delete iter_] of a wrapper. *)
Definition delete_wrapped {T} `{!Deletes T S} (w : IteratorWrapper T) (env : S) : S :=
  match iter_ w with Some it => delete_iter it env | None => env end.

Definition SetDataIterator t (data_iter : option D) : TwoLevelIterator I D S :=
  let t := if negb (is_null (data_iter_ t)) then SaveError t (status (data_iter_ t)) else t in
  mkTwoLevel (block_function_ t) (options_ t) (status_ t) (index_iter_ t) (Wrapper_Set (data_iter_ t) data_iter)
    (data_block_handle_ t) (delete_wrapped (data_iter_ t) (tl_env t)).

(** The destructor: the members are destroyed in reverse order. *)
Definition TwoLevel_destroy t : S := delete_wrapped (index_iter_ t) (delete_wrapped (data_iter_ t) (tl_env t)).

Definition InitDataBlock t : TwoLevelIterator I D S :=
  if negb (Valid (index_iter_ t)) then SetDataIterator t None
  else
    let handle := iter_value (index_iter_ t) in
    if negb (is_null (data_iter_ t)) && (Slice_compare handle (data_block_handle_ t) =? 0) then t
    else
      let '(iter, env) := block_function_ t (options_ t) handle (tl_env t) in
      SetDataIterator (mkTwoLevel (block_function_ t) (options_ t) (status_ t) (index_iter_ t) (data_iter_ t) handle env)
        (Some iter).

(** [if (data_iter_.iter() != NULL) data_iter_.Seek..()] *)
Definition move_data t (f : IteratorWrapper D -> IteratorWrapper D) : TwoLevelIterator I D S :=
  if is_null (data_iter_ t) then t else set_data t (f (data_iter_ t)).

(** The two loops; each turn moves the index by one entry. *)
Fixpoint SkipEmptyDataBlocksForward (fuel : nat) t : TwoLevelIterator I D S :=
  match fuel with
  | O => t
  | Datatypes.S fuel =>
    if is_null (data_iter_ t) || negb (Valid (data_iter_ t)) then
      if negb (Valid (index_iter_ t)) then SetDataIterator t None
      else
        let t := InitDataBlock (set_index t (Next (index_iter_ t))) in
        SkipEmptyDataBlocksForward fuel (move_data t SeekToFirst)
    else t
  end.

Fixpoint SkipEmptyDataBlocksBackward (fuel : nat) t : TwoLevelIterator I D S :=
  match fuel with
  | O => t
  | Datatypes.S fuel =>
    if is_null (data_iter_ t) || negb (Valid (data_iter_ t)) then
      if negb (Valid (index_iter_ t)) then SetDataIterator t None
      else
        let t := InitDataBlock (set_index t (Prev (index_iter_ t))) in
        SkipEmptyDataBlocksBackward fuel (move_data t SeekToLast)
    else t
  end.

(** [fuel] bounds the turns of the loops; the number of index entries and two
    more suffice. *)
Definition TwoLevel_Seek (fuel : nat) (target : bytes) t : TwoLevelIterator I D S :=
  let t := InitDataBlock (set_index t (Seek target (index_iter_ t))) in
  SkipEmptyDataBlocksForward fuel (move_data t (Seek target)).

Definition TwoLevel_SeekToFirst (fuel : nat) t : TwoLevelIterator I D S :=
  let t := InitDataBlock (set_index t (SeekToFirst (index_iter_ t))) in
  SkipEmptyDataBlocksForward fuel (move_data t SeekToFirst).

Definition TwoLevel_SeekToLast (fuel : nat) t : TwoLevelIterator I D S :=
  let t := InitDataBlock (set_index t (SeekToLast (index_iter_ t))) in
  SkipEmptyDataBlocksBackward fuel (move_data t SeekToLast).

Definition TwoLevel_Next (fuel : nat) t : TwoLevelIterator I D S :=
  SkipEmptyDataBlocksForward fuel (set_data t (Next (data_iter_ t))).

Definition TwoLevel_Prev (fuel : nat) t : TwoLevelIterator I D S :=
  SkipEmptyDataBlocksBackward fuel (set_data t (Prev (data_iter_ t))).

Definition TwoLevel_status t : Status :=
  if negb (ok (status (index_iter_ t))) then status (index_iter_ t)
  else if negb (is_null (data_iter_ t)) && negb (ok (status (data_iter_ t))) then status (data_iter_ t)
  else status_ t.

Definition TwoLevelIterator_ops (fuel : nat) : IteratorOps (TwoLevelIterator I D S) := {|
  Valid t := Valid (data_iter_ t);
  SeekToFirst := TwoLevel_SeekToFirst fuel;
  SeekToLast := TwoLevel_SeekToLast fuel;
  Seek := TwoLevel_Seek fuel;
  Next := TwoLevel_Next fuel;
  Prev := TwoLevel_Prev fuel;
  iter_key t := iter_key (data_iter_ t);
  iter_value t := iter_value (data_iter_ t);
  status := TwoLevel_status;
|}.
End two_level.

(** * Correctness *)

(** What an iterator holds until it is deleted; moving it does not change
    that. *)
Class Holds {D T : Type} `{!IteratorOps D} (tok : D -> T) : Prop := {
  tok_SeekToFirst d : tok (SeekToFirst d) = tok d;
  tok_SeekToLast d : tok (SeekToLast d) = tok d;
  tok_Seek k d : tok (Seek k d) = tok d;
  tok_Next d : tok (Next d) = tok d;
  tok_Prev d : tok (Prev d) = tok d;
}.

Section correctness.
Context {I D S T : Type} `{!IteratorOps I} `{!IteratorOps D} {del_i : Deletes I S} {del_d : Deletes D S}.
Context (cmp : Comparator) (valid seekable : bytes -> Prop) `{!ComparatorOk cmp valid}.

(** A block: what the index says of it and what its iterator is known to do. *)
Record DataBlock := {
  bk_sep : bytes;
  bk_handle : bytes;
  bk_entries : list (bytes * bytes);
  bk_inv : D -> Prop;
  bk_at : D -> nat -> Prop;
  bk_ok : IteratorOk (Compare cmp) seekable bk_entries bk_inv bk_at;
}.
#[local] Existing Instance bk_ok.

Context (blocks : list DataBlock).

Definition index_entries : list (bytes * bytes) := (fun b => (bk_sep b, bk_handle b)) <$> blocks.

Definition all_entries : list (bytes * bytes) := concat (bk_entries <$> blocks).

(** A key of a block is not above its separator, and above every earlier
    one. *)
Record separated : Prop := {
  tl_below i b kv : blocks !! i = Some b -> kv ∈ bk_entries b -> Compare cmp kv.1 (bk_sep b) <= 0;
  tl_above i j b b' kv : (i < j)%nat -> blocks !! i = Some b -> blocks !! j = Some b' -> kv ∈ bk_entries b' ->
    Compare cmp (bk_sep b) kv.1 < 0;
  tl_valid : Forall (fun b => valid (bk_sep b) /\ Forall (fun kv => valid kv.1) (bk_entries b)) blocks;
}.

(** ** Offsets *)

(** The number of entries before block [i]. *)
Definition offset (i : nat) : nat := length (concat (bk_entries <$> take i blocks)).

Lemma offset_S i b : blocks !! i = Some b -> offset (Datatypes.S i) = (offset i + length (bk_entries b))%nat.
Proof.
  intros Hb. unfold offset. rewrite (take_S_r _ _ _ Hb), fmap_app, concat_app, length_app. cbn. by rewrite app_nil_r.
Qed.

Lemma offset_end : offset (length blocks) = length all_entries.
Proof. unfold offset, all_entries. by rewrite firstn_all. Qed.

Lemma all_entries_split i b : blocks !! i = Some b ->
  all_entries = concat (bk_entries <$> take i blocks) ++ bk_entries b ++ concat (bk_entries <$> drop (Datatypes.S i) blocks).
Proof.
  intros Hb. unfold all_entries. rewrite <- (take_drop_middle _ _ _ Hb) at 1. rewrite fmap_app, fmap_cons, concat_app. done.
Qed.

Lemma lookup_all i b j : blocks !! i = Some b -> (j < length (bk_entries b))%nat ->
  all_entries !! (offset i + j)%nat = bk_entries b !! j.
Proof.
  intros Hb Hj. rewrite (all_entries_split i b Hb). unfold offset. rewrite lookup_app_r by lia.
  replace (_ + j - _)%nat with j by lia. by rewrite lookup_app_l.
Qed.

Lemma offset_le i b : blocks !! i = Some b -> (offset i + length (bk_entries b) <= length all_entries)%nat.
Proof. intros Hb. rewrite (all_entries_split i b Hb). unfold offset. rewrite !length_app. lia. Qed.

(** ** [Seek] *)

Section seek.
Hypothesis Hsep : separated.

Lemma elem_of_concat_blocks (bs : list DataBlock) kv : kv ∈ concat (bk_entries <$> bs) <->
  exists i b, bs !! i = Some b /\ kv ∈ bk_entries b.
Proof.
  induction bs as [|b bs IH]; cbn; [set_solver by done|]. rewrite elem_of_app, IH. split.
  - intros [H|(i & b' & Hb' & H)]; [by exists 0%nat, b|by exists (Datatypes.S i), b'].
  - intros ([|i] & b' & Hb' & H); cbn in Hb'; [simplify_eq; by left|right; by exists i, b'].
Qed.

Lemma block_valid i b kv : blocks !! i = Some b -> kv ∈ bk_entries b -> valid (bk_sep b) /\ valid kv.1.
Proof.
  intros Hb Hkv. pose proof (tl_valid Hsep) as HF. rewrite Forall_lookup in HF. destruct (HF i b Hb) as [Hs Hf].
  rewrite Forall_forall in Hf. auto.
Qed.

Lemma sep_valid i b : blocks !! i = Some b -> valid (bk_sep b).
Proof. intros Hb. pose proof (tl_valid Hsep) as HF. rewrite Forall_lookup in HF. by destruct (HF i b Hb). Qed.

(** The entries of the blocks whose separator is before the target. *)
Lemma before_target target i : valid target ->
  Forall (fun kv => Compare cmp kv.1 target < 0) (take i index_entries) ->
  Forall (fun kv => Compare cmp kv.1 target < 0) (concat (bk_entries <$> take i blocks)).
Proof.
  intros Ht Hlt. apply Forall_forall. intros kv (k & b & Hb & Hkv)%elem_of_concat_blocks.
  apply lookup_take_Some in Hb as [Hb Hk]. destruct (block_valid k b kv Hb Hkv).
  rewrite Forall_forall in Hlt. assert (Compare cmp (bk_sep b) target < 0).
  { apply (Hlt (bk_sep b, bk_handle b)). apply (list_elem_of_lookup_2 _ k). apply lookup_take_Some. split; [|done].
    unfold index_entries. by rewrite list_lookup_fmap, Hb. }
  eapply (Compare_le_lt_trans (valid := valid)); [..|done]; try done. by eapply (tl_below Hsep).
Qed.

Lemma after_target target i b : valid target -> blocks !! i = Some b -> ~ Compare cmp (bk_sep b) target < 0 ->
  Forall (fun kv => ~ Compare cmp kv.1 target < 0) (concat (bk_entries <$> drop (Datatypes.S i) blocks)).
Proof.
  intros Ht Hb Hge. apply Forall_forall. intros kv (k & b' & Hb' & Hkv)%elem_of_concat_blocks. rewrite lookup_drop in Hb'.
  destruct (block_valid _ b' kv Hb' Hkv) as [_ Hv]. pose proof (sep_valid i b Hb).
  assert (Compare cmp (bk_sep b) kv.1 < 0) by (eapply (tl_above Hsep i); [|done..]; lia).
  intros Hlt. apply Hge. eapply (Compare_lt_trans (valid := valid) (bk_sep b) kv.1); done.
Qed.

Lemma seek_index_all target : valid target ->
  let i := seek_index (Compare cmp) target index_entries in
  seek_index (Compare cmp) target all_entries =
    (offset i + match blocks !! i with Some b => seek_index (Compare cmp) target (bk_entries b) | None => 0 end)%nat.
Proof.
  intros Ht i. destruct (seek_index_spec (Compare cmp) target index_entries) as [Hbef Haft]. fold i in Hbef, Haft.
  apply before_target in Hbef; [|done]. destruct (blocks !! i) as [b|] eqn:E.
  - rewrite (all_entries_split i b E), seek_index_app_lt, seek_index_app_ge; [done| |done].
    apply (after_target target i b); [done..|]. apply (Haft (bk_sep b, bk_handle b)).
    unfold index_entries. by rewrite list_lookup_fmap, E.
  - assert (concat (bk_entries <$> take i blocks) = all_entries) as Ea.
    { rewrite take_ge; [done|]. by apply lookup_ge_None. }
    unfold offset. rewrite Ea in *. rewrite <- (app_nil_r all_entries) at 1. rewrite seek_index_app_lt by done. done.
Qed.
End seek.

(** ** The two levels *)

Context (tok : D -> T) `{!Holds tok} (bf : ReadOptions -> bytes -> S -> D * S) (opts : ReadOptions).
Context (iinv : I -> Prop) (iat : I -> nat -> Prop) (env_ok : list T -> S -> Prop).

(** [env_ok ts s]: [s] is a state in which live data iterators hold [ts].  A
    new block is opened while at most one iterator is alive. *)
Record two_level_ok : Prop := {
  tl_index : IteratorOk (Compare cmp) seekable index_entries iinv iat;
  tl_open i b s ts : blocks !! i = Some b -> (length ts <= 1)%nat -> env_ok ts s ->
    bk_inv b (bf opts (bk_handle b) s).1 /\
    env_ok (tok (bf opts (bk_handle b) s).1 :: ts) (bf opts (bk_handle b) s).2;
  tl_swap a b s : env_ok [a; b] s -> env_ok [b; a] s;
  tl_delete d ts s : env_ok (tok d :: ts) s -> env_ok ts (delete_iter d s);
  tl_handles : NoDup (bk_handle <$> blocks);
  tl_separated : separated;
  tl_seekable t : seekable t -> valid t;
}.
Hypothesis Htl : two_level_ok.
#[local] Instance tl_index' : IteratorOk (Compare cmp) seekable index_entries iinv iat := tl_index Htl.

Implicit Types (t : TwoLevelIterator I D S).

(** ** States *)

(** All but the data iterator, with the index at [i]. *)
Record base t (i : nat) : Prop := {
  base_bf : block_function_ t = bf;
  base_opts : options_ t = opts;
  base_status : ok (status_ t) = true;
  base_index : wrapper_at (at_ := iat) (index_iter_ t) i;
}.

Definition held (w : IteratorWrapper D) : list T := match iter_ w with Some d => [tok d] | None => [] end.

Definition env_at t : Prop := env_ok (held (data_iter_ t)) (tl_env t).

Definition data_none t : Prop := iter_ (data_iter_ t) = None /\ valid_ (data_iter_ t) = false.

Definition data_at t (b : DataBlock) (j : nat) : Prop :=
  data_block_handle_ t = bk_handle b /\ wrapper_at (at_ := bk_at b) (data_iter_ t) j.

Definition data_ok t : Prop := data_none t \/ exists k b j, blocks !! k = Some b /\ data_at t b j.

(** The data iterator after [InitDataBlock], before it is positioned. *)
Definition data_init t (i : nat) : Prop :=
  match blocks !! i with
  | None => data_none t
  | Some b => data_block_handle_ t = bk_handle b /\ wrapper_inv (inv := bk_inv b) (data_iter_ t)
  end.

Lemma base_range t i : base t i -> (i <= length blocks)%nat.
Proof. intros Hb. pose proof (at_range _ _ (base_index t i Hb)) as H. unfold index_entries in H. by rewrite length_fmap in H. Qed.

Lemma base_valid t i : base t i -> Valid (index_iter_ t) = true <-> is_Some (blocks !! i).
Proof.
  intros Hb. rewrite (Valid_at _ _ (base_index t i Hb)), lookup_lt_is_Some. unfold index_entries. by rewrite length_fmap.
Qed.

Lemma not_null_at t b j : data_at t b j -> is_null (data_iter_ t) = false.
Proof. intros (_ & it & (Hi & _) & _). unfold is_null. by rewrite Hi. Qed.

Lemma not_null_inv (inv : D -> Prop) w : wrapper_inv (inv := inv) w -> is_null w = false.
Proof. intros (it & (Hi & _) & _). unfold is_null. by rewrite Hi. Qed.

Lemma delete_held w ts s : env_ok (held w ++ ts) s -> env_ok ts (delete_wrapped w s).
Proof. unfold held, delete_wrapped. destruct (iter_ w) as [d|]; [apply Htl|done]. Qed.

Lemma held_Set w d : held (Wrapper_Set w d) = match d with Some d => [tok d] | None => [] end.
Proof. by destruct d. Qed.

Lemma held_move w f : (forall d, tok (f d) = tok d) -> held (Wrapper_move w f) = held w.
Proof. intros Hf. unfold held, Wrapper_move. destruct (iter_ w) as [d|] eqn:E; cbn; [by rewrite Hf|by rewrite E]. Qed.

Lemma held_SeekToFirst w : held (SeekToFirst w) = held w.
Proof. apply held_move, tok_SeekToFirst. Qed.
Lemma held_SeekToLast w : held (SeekToLast w) = held w.
Proof. apply held_move, tok_SeekToLast. Qed.
Lemma held_Seek k w : held (Seek k w) = held w.
Proof. apply held_move, tok_Seek. Qed.
Lemma held_Next w : held (Next w) = held w.
Proof. apply held_move, tok_Next. Qed.
Lemma held_Prev w : held (Prev w) = held w.
Proof. apply held_move, tok_Prev. Qed.

Lemma held_length w : (length (held w) <= 1)%nat.
Proof. unfold held. destruct (iter_ w); cbn; lia. Qed.

Lemma data_ok_status t : data_ok t -> is_null (data_iter_ t) = false -> ok (status (data_iter_ t)) = true.
Proof.
  intros [[Hn _]|(k & b & j & _ & _ & Ha)] En; [by unfold is_null in En; rewrite Hn in En|]. by eapply status_at.
Qed.

Lemma SetDataIterator_base t i d : base t i ->
  (is_null (data_iter_ t) = false -> ok (status (data_iter_ t)) = true) ->
  base (SetDataIterator t d) i /\ data_iter_ (SetDataIterator t d) = Wrapper_Set (data_iter_ t) d /\
  data_block_handle_ (SetDataIterator t d) = data_block_handle_ t /\
  tl_env (SetDataIterator t d) = delete_wrapped (data_iter_ t) (tl_env t).
Proof.
  intros Hb Hd. unfold SetDataIterator.
  assert ((if negb (is_null (data_iter_ t)) then SaveError t (status (data_iter_ t)) else t) = t) as ->.
  { destruct (is_null (data_iter_ t)) eqn:En; [done|]. cbn [negb].
    unfold SaveError. rewrite (Hd eq_refl). by rewrite andb_false_r. }
  split; [|done]. destruct Hb. by split.
Qed.

Lemma InitDataBlock_ok t i : base t i -> data_ok t -> env_at t ->
  base (InitDataBlock t) i /\ data_init (InitDataBlock t) i /\ env_at (InitDataBlock t).
Proof.
  intros Hb Hd He. unfold InitDataBlock, data_init. pose proof (base_valid t i Hb) as Hv.
  destruct (Valid (index_iter_ t)) eqn:Ev; cbn [negb].
  - destruct Hv as [Hv _]. destruct (Hv eq_refl) as [b Hblk]. rewrite Hblk.
    assert (iter_value (index_iter_ t) = bk_handle b) as ->.
    { apply (entry_at _ i (bk_sep b) (bk_handle b) (base_index t i Hb)). unfold index_entries. by rewrite list_lookup_fmap, Hblk. }
    destruct (negb (is_null (data_iter_ t)) && (Slice_compare (bk_handle b) (data_block_handle_ t) =? 0)) eqn:E.
    + apply andb_true_iff in E as [En Eh]. apply Z.eqb_eq, Slice_compare_eq in Eh. split; [done|]. split; [|done]. split; [done|].
      destruct Hd as [[Hn _]|(k & b' & j & Hk & Hh & Ha)]; [by unfold is_null in En; rewrite Hn in En|].
      assert (b' = b) as ->.
      { assert (k = i) as ->; [|congruence]. eapply (NoDup_lookup (bk_handle <$> blocks) k i (bk_handle b)).
        - apply Htl.
        - by rewrite list_lookup_fmap, Hk, Eh, Hh.
        - by rewrite list_lookup_fmap, Hblk. }
      by eapply at_inv.
    + rewrite (base_bf t i Hb), (base_opts t i Hb).
      destruct (tl_open Htl i b (tl_env t) _ Hblk (held_length (data_iter_ t)) He) as [Hinv Henv].
      destruct (bf opts (bk_handle b) (tl_env t)) as [d env]. cbn [fst snd] in *.
      set (t1 := mkTwoLevel _ _ _ _ _ _ _).
      assert (Hb1 : base t1 i) by (destruct Hb; by split).
      destruct (SetDataIterator_base t1 i (Some d) Hb1) as (Hb2 & Hw & Hh & Hen).
      { exact (data_ok_status t Hd). }
      split; [done|]. split; [split; [by rewrite Hh|rewrite Hw; by apply Wrapper_Set_inv]|].
      unfold env_at. rewrite Hw, Hen, held_Set. apply delete_held. cbn [t1 data_iter_ tl_env].
      destruct (data_iter_ t) as [[d0|] ? ?]; cbn [held iter_ app] in *; [by apply (tl_swap Htl)|done].
  - assert (blocks !! i = None) as ->.
    { destruct (blocks !! i) as [b|]; [|done]. destruct Hv as [_ Hv]. by discriminate (Hv ltac:(by eexists)). }
    destruct (SetDataIterator_base t i None Hb (data_ok_status t Hd)) as (Hb' & Hw & _ & Hen). split; [done|].
    unfold data_none, env_at. rewrite Hw, Hen. split; [done|]. apply delete_held. by rewrite app_nil_r.
Qed.

(** ** Positions *)

(** The index at [i] and the data iterator at entry [j] of block [i]. *)
Definition placed t (i j : nat) : Prop :=
  (base t i /\ env_at t) /\
  match blocks !! i with
  | None => data_none t /\ j = 0%nat
  | Some b => data_at t b j
  end.

Lemma placed_data_ok t i j : placed t i j -> data_ok t.
Proof.
  intros [_ Hd]. destruct (blocks !! i) as [b|] eqn:E; [right; by exists i, b, j|left; by destruct Hd].
Qed.

(** [InitDataBlock] and the positioning call that follows it. *)
Lemma InitDataBlock_placed t i f (pos : DataBlock -> nat) : base t i -> data_ok t -> env_at t ->
  (forall w, held (f w) = held w) ->
  (forall b w, blocks !! i = Some b -> wrapper_inv (inv := bk_inv b) w -> wrapper_at (at_ := bk_at b) (f w) (pos b)) ->
  placed (move_data (InitDataBlock t) f) i (match blocks !! i with Some b => pos b | None => 0%nat end).
Proof.
  intros Hb Hd He Hh Hf. destruct (InitDataBlock_ok t i Hb Hd He) as (Hb' & Hi & He').
  unfold placed, data_init in *. set (t' := InitDataBlock t) in *. unfold move_data.
  destruct (blocks !! i) as [b|] eqn:E.
  - destruct Hi as [Hn Hw]. rewrite (not_null_inv _ _ Hw). split; [split; [destruct Hb'; by split|]|].
    + unfold env_at in *. cbn [data_iter_ set_data tl_env]. by rewrite Hh.
    + split; [done|]. cbn [data_iter_ set_data]. by apply Hf.
  - destruct Hi as [Hn Hv]. unfold is_null. rewrite Hn. by split.
Qed.

Definition two_level_inv t : Prop :=
  block_function_ t = bf /\ options_ t = opts /\ ok (status_ t) = true /\ env_at t /\
  wrapper_inv (inv := iinv) (index_iter_ t) /\ data_ok t.

Definition two_level_at t (n : nat) : Prop :=
  exists i j, placed t i j /\ n = (offset i + j)%nat /\ (forall b, blocks !! i = Some b -> (j < length (bk_entries b))%nat).

Lemma set_index_base t w i : two_level_inv t -> wrapper_at (at_ := iat) w i ->
  base (set_index t w) i /\ data_ok (set_index t w) /\ env_at (set_index t w).
Proof. intros (H1 & H2 & H3 & H4 & _ & H6) Hw. by split. Qed.

Lemma placed_inv t i j : placed t i j -> two_level_inv t.
Proof.
  intros Hp. pose proof (placed_data_ok t i j Hp). destruct Hp as [[[] He] _]. split_and!; try done. by eapply at_inv.
Qed.

Lemma placed_data_valid t i j : placed t i j ->
  is_null (data_iter_ t) || negb (Valid (data_iter_ t)) = false <->
  exists b, blocks !! i = Some b /\ (j < length (bk_entries b))%nat.
Proof.
  intros [_ Hd]. destruct (blocks !! i) as [b|] eqn:E.
  - rewrite (not_null_at t b j Hd). cbn [orb]. destruct Hd as [_ Ha]. rewrite negb_false_iff, (Valid_at _ _ Ha).
    split; [by exists b|]. by intros (? & [= <-] & ?).
  - destruct Hd as [[Hn _] _]. unfold is_null. rewrite Hn. split; [done|]. by intros (? & ? & _).
Qed.

Lemma placed_range t i j b : placed t i j -> blocks !! i = Some b -> (j <= length (bk_entries b))%nat.
Proof. intros [_ Hd] Hb. rewrite Hb in Hd. destruct Hd as [_ Ha]. exact (at_range _ _ Ha). Qed.

Lemma SetDataIterator_placed t i j : placed t i j -> blocks !! i = None -> placed (SetDataIterator t None) i 0.
Proof.
  intros Hp Hn. destruct (SetDataIterator_base t i None) as (Hb & Hw & _ & Hen);
    [apply Hp|by eapply data_ok_status, placed_data_ok|].
  split; [|rewrite Hn; unfold data_none; by rewrite Hw]. split; [done|]. unfold env_at. rewrite Hw, Hen.
  apply delete_held. rewrite app_nil_r. apply Hp.
Qed.

Lemma at_end t i j : placed t i j -> blocks !! i = None -> two_level_at (SetDataIterator t None) (length all_entries).
Proof.
  intros Hp Hn. exists i, 0%nat. split; [by eapply SetDataIterator_placed|]. split; [|by rewrite Hn].
  apply lookup_ge_None in Hn. destruct Hp as [[Hb _] _]. pose proof (base_range t i Hb).
  replace i with (length blocks) by lia. rewrite offset_end. lia.
Qed.

Lemma SkipEmptyDataBlocksForward_at fuel t i j : placed t i j -> (length blocks - i < fuel)%nat ->
  two_level_at (SkipEmptyDataBlocksForward fuel t) (offset i + j).
Proof.
  revert t i j. induction fuel as [|fuel IH]; intros t i j Hp Hf; [lia|]. cbn [SkipEmptyDataBlocksForward].
  pose proof (placed_data_valid t i j Hp) as Hv. destruct (_ || _).
  - pose proof (base_valid t i (proj1 (proj1 Hp))) as Hi. destruct (Valid (index_iter_ t)); cbn [negb].
    + destruct Hi as [Hi _]. destruct (Hi eq_refl) as [b Hb].
      assert (j = length (bk_entries b)) as ->.
      { pose proof (placed_range t i j b Hp Hb). destruct (decide (j < length (bk_entries b))%nat); [|lia].
        destruct Hv as [_ Hv]. discriminate Hv. by exists b. }
      pose proof (lookup_lt_Some _ _ _ Hb) as Hlt.
      destruct (set_index_base t (Next (index_iter_ t)) (Datatypes.S i)) as (Hb' & Hd' & He').
      { by eapply placed_inv. }
      { apply Next_at; [apply Hp|]. unfold index_entries. by rewrite length_fmap. }
      rewrite <- (offset_S i b Hb), <- (Nat.add_0_r (offset (Datatypes.S i))). apply IH; [|lia].
      pose proof (InitDataBlock_placed _ _ SeekToFirst (fun _ => 0%nat) Hb' Hd' He') as Hpl.
      destruct (blocks !! Datatypes.S i); apply Hpl; try apply held_SeekToFirst; intros; by apply SeekToFirst_at.
    + assert (Hn : blocks !! i = None).
      { destruct (blocks !! i) as [b|]; [|done]. destruct Hi as [_ Hi]. by discriminate (Hi ltac:(by eexists)). }
      pose proof (at_end t i j Hp Hn) as He. destruct Hp as [[Hb _] Hd]. rewrite Hn in Hd. destruct Hd as [_ ->].
      apply lookup_ge_None in Hn. pose proof (base_range t i Hb). replace i with (length blocks) by lia.
      by rewrite offset_end, Nat.add_0_r.
  - destruct Hv as [Hv _]. destruct (Hv eq_refl) as (b & Hb & Hj). exists i, j. split_and!; try done.
    intros b' Hb'. by simplify_eq.
Qed.

(** The number of entries up to and including the one a backward move is to
    stop at. *)
Definition back_count (i j : nat) : nat :=
  match blocks !! i with
  | None => 0
  | Some b => if decide (j < length (bk_entries b))%nat then offset i + j + 1 else offset i
  end%nat.

Definition before (m : nat) : nat := match m with O => length all_entries | Datatypes.S k => k end.

Lemma back_count_last i b : blocks !! i = Some b ->
  back_count i (length (bk_entries b) - 1) = offset (Datatypes.S i).
Proof.
  intros Hb. unfold back_count. rewrite Hb, (offset_S i b Hb). destruct (decide _); lia.
Qed.

Lemma SkipEmptyDataBlocksBackward_at fuel t i j : placed t i j ->
  (match blocks !! i with None => 0 | Some _ => i + 1 end < fuel)%nat ->
  two_level_at (SkipEmptyDataBlocksBackward fuel t) (before (back_count i j)).
Proof.
  revert t i j. induction fuel as [|fuel IH]; intros t i j Hp Hf; [lia|]. cbn [SkipEmptyDataBlocksBackward].
  pose proof (placed_data_valid t i j Hp) as Hv. destruct (_ || _).
  - pose proof (base_valid t i (proj1 (proj1 Hp))) as Hi. destruct (Valid (index_iter_ t)); cbn [negb].
    + destruct Hi as [Hi _]. destruct (Hi eq_refl) as [b Hb].
      assert (back_count i j = offset i) as ->.
      { unfold back_count. rewrite Hb. destruct (decide (j < length (bk_entries b))%nat); [|done].
        destruct Hv as [_ Hv]. discriminate Hv. by exists b. }
      pose proof (lookup_lt_Some _ _ _ Hb) as Hlt. rewrite Hb in Hf.
      destruct (set_index_base t (Prev (index_iter_ t)) (match i with O => length blocks | Datatypes.S i => i end)) as (Hb' & Hd' & He').
      { by eapply placed_inv. }
      { replace (length blocks) with (length index_entries) by (unfold index_entries; by rewrite length_fmap).
        apply Prev_at; [apply Hp|]. unfold index_entries. by rewrite length_fmap. }
      pose proof (InitDataBlock_placed _ _ SeekToLast (fun b => length (bk_entries b) - 1)%nat Hb' Hd' He') as Hpl.
      destruct i as [|i].
      * rewrite (lookup_ge_None_2 blocks (length blocks)) in Hpl by lia.
        replace (offset 0) with (back_count (length blocks) 0).
        -- apply IH; [by apply Hpl; [apply held_SeekToLast|]|]. rewrite lookup_ge_None_2 by lia. lia.
        -- unfold back_count. by rewrite lookup_ge_None_2 by lia.
      * destruct (lookup_lt_is_Some_2 blocks i) as [b' Hb'']; [lia|]. rewrite Hb'' in Hpl.
        rewrite <- (back_count_last i b' Hb''). apply IH; [|rewrite Hb''; lia].
        apply Hpl; [apply held_SeekToLast|]. intros b0 w Hb0 Hw. by apply SeekToLast_at.
    + assert (Hn : blocks !! i = None).
      { destruct (blocks !! i) as [b|]; [|done]. destruct Hi as [_ Hi]. by discriminate (Hi ltac:(by eexists)). }
      unfold back_count. rewrite Hn. by eapply at_end.
  - destruct Hv as [Hv _]. destruct (Hv eq_refl) as (b & Hb & Hj). unfold back_count. rewrite Hb.
    rewrite decide_True by done. rewrite Nat.add_1_r. cbn [before]. exists i, j. split_and!; try done.
    intros b' Hb'. by simplify_eq.
Qed.

(** ** The iterator *)

Context (fuel : nat) (Hfuel : (length blocks < fuel)%nat).
#[local] Instance ops : IteratorOps (TwoLevelIterator I D S) := TwoLevelIterator_ops fuel.

Lemma move_index t f i g (pos : DataBlock -> nat) : two_level_inv t -> (forall w, held (g w) = held w) ->
  (forall w, wrapper_inv (inv := iinv) w -> wrapper_at (at_ := iat) (f w) i) ->
  (forall b w, blocks !! i = Some b -> wrapper_inv (inv := bk_inv b) w -> wrapper_at (at_ := bk_at b) (g w) (pos b)) ->
  placed (move_data (InitDataBlock (set_index t (f (index_iter_ t)))) g) i
    (match blocks !! i with Some b => pos b | None => 0%nat end).
Proof.
  intros Ht Hh Hf Hg. destruct (set_index_base t (f (index_iter_ t)) i Ht) as (Hb & Hd & He); [apply Hf; apply Ht|].
  by apply InitDataBlock_placed.
Qed.

Lemma move_data_at t f i j j' b : placed t i j -> blocks !! i = Some b -> (forall w, held (f w) = held w) ->
  wrapper_at (at_ := bk_at b) (f (data_iter_ t)) j' -> placed (set_data t (f (data_iter_ t))) i j'.
Proof.
  intros [[Hb He] Hd] E Hh Hf. split; [split; [destruct Hb; by split|]|].
  - unfold env_at in *. cbn [data_iter_ set_data tl_env]. by rewrite Hh.
  - rewrite E in *. by destruct Hd.
Qed.

Lemma two_level_at_valid t n : two_level_at t n -> (n < length all_entries)%nat ->
  exists i j b, placed t i j /\ n = (offset i + j)%nat /\ blocks !! i = Some b /\ (j < length (bk_entries b))%nat.
Proof.
  intros (i & j & Hp & -> & Hj) Hn. destruct (blocks !! i) as [b|] eqn:E; [exists i, j, b; split_and!; auto|].
  destruct Hp as [[Hb _] Hd]. rewrite E in Hd. destruct Hd as [_ ->]. apply lookup_ge_None in E.
  pose proof (base_range t i Hb). replace i with (length blocks) in Hn by lia. rewrite offset_end in Hn. lia.
Qed.

Lemma two_level_at_range t n : two_level_at t n -> (n <= length all_entries)%nat.
Proof.
  intros (i & j & Hp & -> & Hj). destruct (blocks !! i) as [b|] eqn:E.
  - pose proof (offset_le i b E). specialize (Hj b eq_refl). lia.
  - destruct Hp as [[Hb _] Hd]. rewrite E in Hd. destruct Hd as [_ ->]. apply lookup_ge_None in E.
    pose proof (base_range t i Hb). replace i with (length blocks) by lia. rewrite offset_end. lia.
Qed.

Lemma TwoLevel_status_at t n : two_level_at t n -> ok (TwoLevel_status t) = true.
Proof.
  intros (i & j & Hp & -> & _). unfold TwoLevel_status. destruct Hp as [[Hb _] Hd].
  rewrite (status_at _ _ (base_index t i Hb)). cbn [negb]. destruct (is_null (data_iter_ t)) eqn:En; cbn [negb andb].
  - apply Hb.
  - destruct (blocks !! i) as [b|]; [|destruct Hd as [[Hn _] _]; unfold is_null in En; by rewrite Hn in En].
    destruct Hd as [_ Ha]. rewrite (status_at _ _ Ha). cbn. apply Hb.
Qed.

Lemma TwoLevel_Seek_at t target : two_level_inv t -> seekable target ->
  two_level_at (TwoLevel_Seek fuel target t) (seek_index (Compare cmp) target all_entries).
Proof.
  intros Ht Hs. rewrite (seek_index_all (tl_separated Htl)) by (by apply Htl). apply SkipEmptyDataBlocksForward_at; [|lia].
  apply (move_index t (Seek target)); [done|apply held_Seek| |].
  - intros w Hw. by apply Seek_at.
  - intros b w _ Hw. by apply Seek_at.
Qed.

Lemma TwoLevel_SeekToFirst_at t : two_level_inv t -> two_level_at (TwoLevel_SeekToFirst fuel t) 0.
Proof.
  intros Ht. change 0%nat with (offset 0 + 0)%nat. apply SkipEmptyDataBlocksForward_at; [|lia].
  pose proof (move_index t SeekToFirst 0 SeekToFirst (fun _ => 0%nat) Ht held_SeekToFirst) as Hm.
  destruct (blocks !! 0%nat); apply Hm; intros; by apply SeekToFirst_at.
Qed.

Lemma TwoLevel_SeekToLast_at t : two_level_inv t ->
  two_level_at (TwoLevel_SeekToLast fuel t) (length all_entries - 1).
Proof.
  intros Ht. unfold TwoLevel_SeekToLast.
  opose proof (move_index t SeekToLast (length blocks - 1) SeekToLast (fun b => length (bk_entries b) - 1)%nat Ht held_SeekToLast _ _) as Hm.
  { intros w Hw. replace (length blocks) with (length index_entries) by (unfold index_entries; by rewrite length_fmap).
    by apply SeekToLast_at. }
  { intros b w _ Hw. by apply SeekToLast_at. }
  apply SkipEmptyDataBlocksBackward_at with (fuel := fuel) in Hm.
  - destruct (blocks !! (length blocks - 1)%nat) as [b|] eqn:E.
    + rewrite (back_count_last _ b E) in Hm. apply lookup_lt_Some in E.
      replace (Datatypes.S (length blocks - 1)) with (length blocks) in Hm by lia. rewrite offset_end in Hm.
      destruct (length all_entries) eqn:El; cbn [before] in Hm; [by rewrite El in Hm|].
      by replace (_ - 1)%nat with n by lia.
    + apply lookup_ge_None in E. assert (blocks = []) as Eb by (destruct blocks; [done|cbn in E; lia]).
      unfold back_count in Hm. rewrite (lookup_ge_None_2 blocks) in Hm by (rewrite Eb; cbn; lia).
      cbn [before] in Hm. by replace (length all_entries) with 0%nat in * by (unfold all_entries; by rewrite Eb).
  - destruct (blocks !! _) eqn:E; [|lia]. apply lookup_lt_Some in E. lia.
Qed.

#[export] Instance TwoLevelIterator_ok : IteratorOk (Compare cmp) seekable all_entries two_level_inv two_level_at.
Proof.
  split; cbn [Valid SeekToFirst SeekToLast Seek Next Prev iter_key iter_value status ops TwoLevelIterator_ops].
  - intros t n (i & j & Hp & _). by eapply placed_inv.
  - apply two_level_at_range.
  - intros t n Ha. split.
    + intros Hv. destruct Ha as (i & j & Hp & -> & Hj). destruct (blocks !! i) as [b|] eqn:E.
      * pose proof (offset_le i b E). specialize (Hj b eq_refl). lia.
      * destruct Hp as [_ Hd]. rewrite E in Hd. destruct Hd as [[_ Hd] _]. cbn in Hv. congruence.
    + intros Hn. destruct (two_level_at_valid t n Ha Hn) as (i & j & b & [_ Hd] & _ & E & Hj). rewrite E in Hd.
      destruct Hd as [_ Hd]. by apply (Valid_at _ _ Hd).
  - intros t n k v Ha Hkv.
    destruct (two_level_at_valid t n Ha (lookup_lt_Some _ _ _ Hkv)) as (i & j & b & [_ Hd] & -> & E & Hj).
    rewrite E in Hd. destruct Hd as [_ Hd]. rewrite (lookup_all i b j E Hj) in Hkv. by apply (entry_at _ j).
  - apply TwoLevel_status_at.
  - apply TwoLevel_SeekToFirst_at.
  - apply TwoLevel_SeekToLast_at.
  - apply TwoLevel_Seek_at.
  - intros t n Ha Hn. destruct (two_level_at_valid t n Ha Hn) as (i & j & b & Hp & -> & E & Hj).
    replace (Datatypes.S (offset i + j)) with (offset i + Datatypes.S j)%nat by lia.
    apply SkipEmptyDataBlocksForward_at; [|lia]. eapply move_data_at; [done..|apply held_Next|].
    destruct Hp as [_ Hd]. rewrite E in Hd. destruct Hd as [_ Hd]. by apply Next_at.
  - intros t n Ha Hn. destruct (two_level_at_valid t n Ha Hn) as (i & j & b & Hp & -> & E & Hj).
    pose proof (lookup_lt_Some _ _ _ E) as Hlt.
    destruct Hp as [Hbe Hd]. pose proof Hd as Hd'. rewrite E in Hd'. destruct Hd' as [_ Hd'].
    pose proof (Prev_at _ _ Hd' Hj) as Hpr.
    pose proof (move_data_at t Prev i j _ b (conj Hbe Hd) E held_Prev Hpr) as Hm.
    apply SkipEmptyDataBlocksBackward_at with (fuel := fuel) in Hm; [|rewrite E; lia].
    unfold back_count in Hm. rewrite E in Hm. unfold TwoLevel_Prev. unfold before in Hm.
    destruct j as [|j]; destruct (decide _); try lia.
    + by rewrite Nat.add_0_r.
    + replace (offset i + Datatypes.S j)%nat with (Datatypes.S (offset i + j)) by lia.
      by replace (offset i + j + 1)%nat with (Datatypes.S (offset i + j)) in Hm by lia.
Qed.

(** Deleting the iterator gives back what it holds. *)
Lemma TwoLevel_destroy_ok t : two_level_inv t -> (forall (it : I) s, env_ok [] s -> env_ok [] (delete_iter it s)) ->
  env_ok [] (TwoLevel_destroy t).
Proof.
  intros (_ & _ & _ & He & (it & (Hit & _) & _) & _) Hdel. unfold TwoLevel_destroy.
  unfold delete_wrapped at 1. rewrite Hit. apply Hdel, delete_held. by rewrite app_nil_r.
Qed.

Lemma NewTwoLevelIterator_inv index env : iinv index -> env_ok [] env ->
  two_level_inv (NewTwoLevelIterator index bf opts env).
Proof. intros Hi He. split_and!; try done; [by apply Wrapper_Set_inv|by left]. Qed.

End correctness.

(** C15: over an index whose separators lie between the blocks, the two-level
    iterator implements the iterator interface over the concatenation of the
    blocks' entries.  [Seek], [SeekToFirst], [SeekToLast], [Next] and [Prev]
    land on the entry they should, across empty blocks and whatever opening a
    block does to the caches and files it uses; the loops that skip empty
    blocks end within one turn more than the index has entries; a block is only
    opened while at most one data iterator is alive, and deleting the two-level
    iterator, in any state it can reach, gives back all it holds. *)
Theorem TwoLevelIterator_refines {I D S T : Type} `{!IteratorOps I} `{!IteratorOps D} {del_i : Deletes I S} {del_d : Deletes D S}
    (tok : D -> T) `{!Holds tok} (cmp : Comparator) (valid seekable : bytes -> Prop) `{!ComparatorOk cmp valid}
    (blocks : list (DataBlock cmp seekable)) (bf : ReadOptions -> bytes -> S -> D * S) (opts : ReadOptions)
    (iinv : I -> Prop) (iat : I -> nat -> Prop) (env_ok : list T -> S -> Prop) (index : I) (env : S) (fuel : nat) :
  two_level_ok cmp valid seekable blocks tok bf opts iinv iat env_ok -> iinv index -> env_ok [] env ->
  (forall (it : I) s, env_ok [] s -> env_ok [] (delete_iter it s)) -> (length blocks < fuel)%nat ->
  exists inv at_, inv (NewTwoLevelIterator index bf opts env) /\
    IteratorOk (IteratorOps0 := TwoLevelIterator_ops fuel) (Compare cmp) seekable (all_entries cmp seekable blocks) inv at_ /\
    (forall t, inv t -> env_ok [] (TwoLevel_destroy t)).
Proof.
  intros Hok Hi He Hdel Hf. eexists _, _.
  split; [by apply (NewTwoLevelIterator_inv cmp seekable blocks tok bf opts iinv env_ok)|].
  split; [by apply (TwoLevelIterator_ok cmp valid seekable blocks tok bf opts iinv iat env_ok Hok)|].
  intros t Ht. by apply (TwoLevel_destroy_ok cmp valid seekable blocks tok bf opts iinv iat env_ok Hok).
Qed.

(** * An instance *)

Definition list_block (sep handle : bytes) (entries : list (bytes * bytes)) :
    DataBlock (D := ListIterator) BytewiseComparator (fun _ => True) :=
  {| bk_sep := sep; bk_handle := handle;
     bk_ok := ListIterator_ok (Compare BytewiseComparator) (fun _ => True) entries |}.

(** Three blocks, the second one empty. *)
Definition test_contents : list (list (bytes * bytes)) :=
  [ [([bz 97], [bz 1]); ([bz 99], [bz 3])]; []; [([bz 110], [bz 4])] ].

Definition test_blocks : list (DataBlock (D := ListIterator) BytewiseComparator (fun _ => True)) :=
  zip_with (fun n => list_block [bz (100 + n)] [bz n]) [0; 5; 20] test_contents.

(** A handle opens the block it names; the state counts the iterators that are
    alive. *)
Definition test_open (_ : ReadOptions) (handle : bytes) (live : nat) : ListIterator * nat :=
  let entries := if decide (handle = [bz 0]) then nth 0 test_contents []
                 else if decide (handle = [bz 20]) then nth 2 test_contents [] else [] in
  (mkListIterator Slice_compare entries 0, Datatypes.S live).

Definition test_delete : Deletes ListIterator nat := fun _ live => pred live.
#[local] Existing Instance test_delete.

#[local] Instance test_holds : Holds (fun _ : ListIterator => tt).
Proof. by split. Qed.

Lemma test_separated : separated BytewiseComparator (fun _ => True) (fun _ => True) test_blocks.
Proof.
  split.
  - intros [|[|[|i]]] b kv [= <-]; cbn; intros H; repeat (apply elem_of_cons in H as [->|H]; [by vm_compute|]); by apply elem_of_nil in H.
  - intros [|[|[|i]]] [|[|[|j]]] b b' kv Hij [= <-] [= <-]; cbn; intros H; try lia;
      repeat (apply elem_of_cons in H as [->|H]; [by vm_compute|]); by apply elem_of_nil in H.
  - repeat constructor.
Qed.

Lemma test_two_level : two_level_ok BytewiseComparator (fun _ => True) (fun _ => True) test_blocks (fun _ => tt) test_open
  ReadOptions_new
  (fun it : ListIterator => li_compare it = Slice_compare /\ li_entries it = index_entries _ _ test_blocks)
  (fun it n => (li_compare it = Slice_compare /\ li_entries it = index_entries _ _ test_blocks) /\ li_index it = n /\
    (n <= length (index_entries _ _ test_blocks))%nat) (fun ts live => length ts <= live)%nat.
Proof.
  split.
  - apply (ListIterator_ok (Compare BytewiseComparator)).
  - intros [|[|[|i]]] b s ts [= <-] _ Hl; (split; [done|cbn; lia]).
  - done.
  - intros d ts s Hl. unfold delete_iter, test_delete. cbn in Hl. lia.
  - apply (bool_decide_eq_true_1 (NoDup (bk_handle _ _ <$> test_blocks))). by vm_compute.
  - exact test_separated.
  - done.
Qed.

Lemma TwoLevelIterator_refines_witness :
  collect (IteratorOps0 := TwoLevelIterator_ops 4) 4
    (Seek (IteratorOps := TwoLevelIterator_ops 4) [bz 98]
      (NewTwoLevelIterator (mkListIterator Slice_compare (index_entries _ _ test_blocks) 0) test_open ReadOptions_new 0%nat)) =
  [([bz 99], [bz 3]); ([bz 110], [bz 4])].
Proof.
  destruct (TwoLevelIterator_refines (del_i := fun _ live => live) (fun _ => tt) BytewiseComparator (fun _ => True) (fun _ => True) test_blocks test_open
    ReadOptions_new _ _ _ (mkListIterator Slice_compare (index_entries _ _ test_blocks) 0) 0%nat 4 test_two_level
    ltac:(done) ltac:(cbn; lia) ltac:(done) ltac:(cbn; lia)) as (inv & at_ & Hi & Hok & _).
  pose proof (Seek_at (IteratorOps0 := TwoLevelIterator_ops 4) _ [bz 98] Hi I) as Ha.
  pose proof (collect_at (IteratorOk0 := Hok) 4 _ _ Ha) as Hc. rewrite Hc; [by vm_compute|by vm_compute; lia].
Defined.
