(* ===== verification/TableBuilder.v ===== *)
(** The table builder of [include/leveldb/table_builder.h] and
    [table/table_builder.cpp].

    A table file is a run of data blocks, an optional filter block, a
    metaindex block, an index block and a footer.  [table_image] is that
    layout as a function of the blocks and their separators; proved: on a file
    any of whose operations may fail, errors are sticky, and when [Finish]
    reports success the file holds the image of the entries added. *)

From S2P Require Import Prelude Port Coding Crc32c Status Comparator Bloom Env Options BlockBuilder Iterator Block FilterBlock TableFormat.

(** * The code *)

(** [compressed_output] is scratch space of one [WriteBlock]; the file is an
    argument of the operations. *)
Record Rep := mkRep {
  options : Options;
  index_block_options : Options;
  offset : Z;
  rep_status : Status;
  data_block : BlockBuilder;
  index_block : BlockBuilder;
  last_key : bytes;
  num_entries : Z;
  closed : bool;
  filter_block : option FilterBlockBuilder;
  pending_index_entry : bool;
  pending_handle : BlockHandle;
}.

(** [index_block_options.block_restart_interval = 1] *)
Definition index_options (opt : Options) : Options := {|
  comparator := comparator opt; create_if_missing := create_if_missing opt; error_if_exists := error_if_exists opt;
  paranoid_checks := paranoid_checks opt; write_buffer_size := write_buffer_size opt;
  max_open_files := max_open_files opt; block_size := block_size opt; block_restart_interval := 1;
  max_file_size := max_file_size opt; compression := compression opt; reuse_logs := reuse_logs opt;
  filter_policy := filter_policy opt |}.

(** Assignments to the fields. *)
Definition set_written (r : Rep) (off : Z) (st : Status) : Rep :=
  mkRep (options r) (index_block_options r) off st (data_block r) (index_block r) (last_key r) (num_entries r)
    (closed r) (filter_block r) (pending_index_entry r) (pending_handle r).

Definition set_data_block (r : Rep) (b : BlockBuilder) : Rep :=
  mkRep (options r) (index_block_options r) (offset r) (rep_status r) b (index_block r) (last_key r) (num_entries r)
    (closed r) (filter_block r) (pending_index_entry r) (pending_handle r).

Definition set_index (r : Rep) (b : BlockBuilder) (key : bytes) (pending : bool) : Rep :=
  mkRep (options r) (index_block_options r) (offset r) (rep_status r) (data_block r) b key (num_entries r)
    (closed r) (filter_block r) pending (pending_handle r).

Definition set_pending (r : Rep) (pending : bool) (h : BlockHandle) : Rep :=
  mkRep (options r) (index_block_options r) (offset r) (rep_status r) (data_block r) (index_block r) (last_key r)
    (num_entries r) (closed r) (filter_block r) pending h.

Definition set_filter (r : Rep) (f : FilterBlockBuilder -> FilterBlockBuilder) : Rep :=
  mkRep (options r) (index_block_options r) (offset r) (rep_status r) (data_block r) (index_block r) (last_key r)
    (num_entries r) (closed r) (f <$> filter_block r) (pending_index_entry r) (pending_handle r).

Definition set_last (r : Rep) (key : bytes) (n : Z) : Rep :=
  mkRep (options r) (index_block_options r) (offset r) (rep_status r) (data_block r) (index_block r) key n
    (closed r) (filter_block r) (pending_index_entry r) (pending_handle r).

Definition set_closed (r : Rep) : Rep :=
  mkRep (options r) (index_block_options r) (offset r) (rep_status r) (data_block r) (index_block r) (last_key r)
    (num_entries r) true (filter_block r) (pending_index_entry r) (pending_handle r).

(** [rep_] after the constructor; the file is not touched. *)
Definition TableBuilder_new (opt : Options) : Rep :=
  set_filter
    (mkRep opt (index_options opt) 0 OK BlockBuilder_new BlockBuilder_new [] 0 false
      (FilterBlockBuilder_new <$> filter_policy opt) false BlockHandle_new)
    (StartBlock 0).

(** [same] is the outcome of comparing the two comparator pointers. *)
Definition ChangeOptions (r : Rep) (opt : Options) (same : bool) : Status * Rep :=
  if negb same
  then (InvalidArgument (bytes_of_string "changing comparator while building table") [], r)
  else (OK, mkRep opt (index_options opt) (offset r) (rep_status r) (data_block r) (index_block r) (last_key r)
              (num_entries r) (closed r) (filter_block r) (pending_index_entry r) (pending_handle r)).

Definition TableBuilder_ok (r : Rep) : bool := ok (rep_status r).

Definition NumEntries (r : Rep) : Z := u64 (num_entries r).
Definition FileSize (r : Rep) : Z := offset r.
Definition Abandon (r : Rep) : Rep := set_closed r.

Section code.
Context {port : Port} {H S : Type} `{!WritableFileOps H S}.
(** The file, and the addresses of the two buffers that are checksummed. *)
Context (file : H) (contents_ptr trailer_ptr : Z).

Definition WriteRawBlock (r : Rep) (block_contents : bytes) (type : CompressionType) (s : S)
    : Rep * BlockHandle * S :=
  let handle := {| offset_ := offset r; size_ := blen block_contents |} in
  let '(st, s) := Append file block_contents s in
  if ok st then
    let type_byte := [bz (CompressionType_num type)] in
    let crc := Value contents_ptr block_contents in
    let crc := Extend trailer_ptr crc type_byte in
    let trailer := type_byte ++ EncodeFixed32 (Mask crc) in
    let '(st, s) := Append file trailer s in
    if ok st
    then (set_written r (u64 (offset r + (blen block_contents + kBlockTrailerSize))) st, handle, s)
    else (set_written r (offset r) st, handle, s)
  else (set_written r (offset r) st, handle, s).

(** The [switch] of [WriteBlock]. *)
Definition compress_block (opt : Options) (raw : bytes) : bytes * CompressionType :=
  match compression opt with
  | kNoCompression => (raw, kNoCompression)
  | kSnappyCompression =>
    match Snappy_Compress raw with
    | Some compressed =>
      if blen compressed <? blen raw - blen raw / 8 then (compressed, kSnappyCompression) else (raw, kNoCompression)
    | None => (raw, kNoCompression)
    end
  end.

(** The builder comes back reset. *)
Definition WriteBlock (r : Rep) (block : BlockBuilder) (s : S) : Rep * BlockHandle * BlockBuilder * S :=
  let '(raw, block) := BlockBuilder.Finish block in
  let '(block_contents, type) := compress_block (options r) raw in
  let '(r, handle, s) := WriteRawBlock r block_contents type s in
  (r, handle, Reset block, s).

Definition TableBuilder_Flush (r : Rep) (s : S) : Rep * S :=
  if negb (TableBuilder_ok r) then (r, s)
  else if BlockBuilder_empty (data_block r) then (r, s)
  else
    let '(r, handle, block, s) := WriteBlock r (data_block r) s in
    let r := set_pending (set_data_block r block) (pending_index_entry r) handle in
    let '(r, s) :=
      if TableBuilder_ok r then
        let r := set_pending r true (pending_handle r) in
        let '(st, s) := Flush file s in (set_written r (offset r) st, s)
      else (r, s) in
    (set_filter r (StartBlock (offset r)), s).

(** The index entry of the block that was written last. *)
Definition add_index_entry (r : Rep) (key : bytes) : Rep :=
  let handle_encoding := BlockHandle_EncodeTo (pending_handle r) [] in
  set_index r (BlockBuilder.Add (index_block_options r) (index_block r) key handle_encoding) key false.

(** [Add] up to the test of the block size. *)
Definition add_entry (r : Rep) (key value : bytes) : Rep :=
  let r :=
    if pending_index_entry r
    then add_index_entry r (FindShortestSeparator (comparator (options r)) (last_key r) key)
    else r in
  let r := set_filter r (AddKey key) in
  let r := set_last r key (num_entries r + 1) in
  set_data_block r (BlockBuilder.Add (options r) (data_block r) key value).

(** The assertions of [Add] are its callers' obligation. *)
Definition TableBuilder_Add (r : Rep) (key value : bytes) (s : S) : Rep * S :=
  if negb (TableBuilder_ok r) then (r, s)
  else
    let r := add_entry r key value in
    let estimated_block_size := CurrentSizeEstimate (data_block r) in
    if block_size (options r) <=? estimated_block_size then TableBuilder_Flush r s else (r, s).

(** The filter policy's name is read through [options.filter_policy], which
    must not be NULL when there is a filter block. *)
Definition filter_key (opt : Options) : bytes :=
  bytes_of_string "filter." ++ match filter_policy opt with Some p => Policy_Name p | None => [] end.

(** The four steps of [Finish], each guarded by [ok()]. *)
Definition write_filter_block (r : Rep) (s : S) : Rep * BlockHandle * S :=
  match filter_block r with
  | Some f => if TableBuilder_ok r then WriteRawBlock r (FilterBlock.Finish f) kNoCompression s else (r, BlockHandle_new, s)
  | None => (r, BlockHandle_new, s)
  end.

Definition write_metaindex_block (r : Rep) (filter_block_handle : BlockHandle) (s : S) : Rep * BlockHandle * S :=
  if TableBuilder_ok r then
    let meta_index_block :=
      match filter_block r with
      | Some _ => BlockBuilder.Add (options r) BlockBuilder_new (filter_key (options r))
                    (BlockHandle_EncodeTo filter_block_handle [])
      | None => BlockBuilder_new
      end in
    let '(r, handle, _, s) := WriteBlock r meta_index_block s in (r, handle, s)
  else (r, BlockHandle_new, s).

Definition write_index_block (r : Rep) (s : S) : Rep * BlockHandle * S :=
  if TableBuilder_ok r then
    let r :=
      if pending_index_entry r
      then add_index_entry r (FindShortSuccessor (comparator (options r)) (last_key r))
      else r in
    let '(r, handle, block, s) := WriteBlock r (index_block r) s in
    (set_index r block (last_key r) (pending_index_entry r), handle, s)
  else (r, BlockHandle_new, s).

Definition write_footer (r : Rep) (metaindex_block_handle index_block_handle : BlockHandle) (s : S) : Rep * S :=
  if TableBuilder_ok r then
    let footer := {| metaindex_handle_ := metaindex_block_handle; index_handle_ := index_block_handle |} in
    let footer_encoding := Footer_EncodeTo footer [] in
    let '(st, s) := Append file footer_encoding s in
    if ok st then (set_written r (u64 (offset r + blen footer_encoding)) st, s)
    else (set_written r (offset r) st, s)
  else (r, s).

Definition TableBuilder_Finish (r : Rep) (s : S) : Status * Rep * S :=
  let '(r, s) := TableBuilder_Flush r s in
  let r := set_closed r in
  let '(r, filter_block_handle, s) := write_filter_block r s in
  let '(r, metaindex_block_handle, s) := write_metaindex_block r filter_block_handle s in
  let '(r, index_block_handle, s) := write_index_block r s in
  let '(r, s) := write_footer r metaindex_block_handle index_block_handle s in
  (rep_status r, r, s).

(** A client: any sequence of [Add] and [Flush]. *)
Inductive call := CallAdd (key value : bytes) | CallFlush.

Definition do_call (rs : Rep * S) (c : call) : Rep * S :=
  match c with
  | CallAdd key value => TableBuilder_Add rs.1 key value rs.2
  | CallFlush => TableBuilder_Flush rs.1 rs.2
  end.

Definition build (opt : Options) (calls : list call) (s : S) : Status * Rep * S :=
  let '(r, s) := fold_left do_call calls (TableBuilder_new opt, s) in
  TableBuilder_Finish r s.
End code.

Definition added (calls : list call) : list (bytes * bytes) :=
  omap (fun c => match c with CallAdd k v => Some (k, v) | CallFlush => None end) calls.

(** * The layout of a table file *)

Section image.
Context {port : Port} (opt : Options).
Implicit Types (b cur : list (bytes * bytes)) (bs : list (list (bytes * bytes))) (seps : list bytes).

Definition raw_block (o : Options) b : bytes := (BlockBuilder.Finish (AddAll o BlockBuilder_new b)).1.

Definition stored (raw : bytes) : bytes := stored_block raw kNoCompression.

Definition data_blocks bs : list bytes := (fun b => stored (raw_block opt b)) <$> bs.

Definition data_bytes bs : bytes := concat (data_blocks bs).

Definition offsets bs : list Z := running 0 (data_blocks bs).

Definition handles bs : list BlockHandle :=
  zip_with (fun o b => {| offset_ := o; size_ := blen (raw_block opt b) |}) (offsets bs) bs.

(** The calls the filter block builder gets: each block's offset and keys. *)
Definition filter_input bs cur : list (Z * list bytes) :=
  zip (offsets bs) ((fun b => b.*1) <$> bs) ++ [(blen (data_bytes bs), cur.*1)].

Definition filter_state bs cur : option FilterBlockBuilder :=
  (fun p => fold_left add_block (filter_input bs cur) (FilterBlockBuilder_new p)) <$> filter_policy opt.

Definition filter_raw bs : option bytes := FilterBlock.Finish <$> filter_state bs [].

Definition filter_part bs : bytes := match filter_raw bs with Some raw => stored raw | None => [] end.

Definition meta_entries bs : list (bytes * bytes) :=
  match filter_raw bs with
  | Some raw => [(filter_key opt, BlockHandle_EncodeTo {| offset_ := blen (data_bytes bs); size_ := blen raw |} [])]
  | None => []
  end.

Definition meta_raw bs : bytes := raw_block opt (meta_entries bs).

Definition index_entries bs seps : list (bytes * bytes) :=
  zip seps ((fun h => BlockHandle_EncodeTo h []) <$> handles bs).

Definition index_raw bs seps : bytes := raw_block (index_options opt) (index_entries bs seps).

Definition meta_handle bs : BlockHandle :=
  {| offset_ := blen (data_bytes bs ++ filter_part bs); size_ := blen (meta_raw bs) |}.

Definition index_handle bs seps : BlockHandle :=
  {| offset_ := blen (data_bytes bs ++ filter_part bs ++ stored (meta_raw bs)); size_ := blen (index_raw bs seps) |}.

Definition table_image bs seps : bytes :=
  data_bytes bs ++ filter_part bs ++ stored (meta_raw bs) ++ stored (index_raw bs seps) ++
  Footer_EncodeTo {| metaindex_handle_ := meta_handle bs; index_handle_ := index_handle bs seps |} [].

Lemma blen_stored raw : blen (stored raw) = blen raw + kBlockTrailerSize.
Proof. unfold stored, stored_block, kBlockTrailerSize. len. Qed.

Lemma data_bytes_snoc bs b : data_bytes (bs ++ [b]) = data_bytes bs ++ stored (raw_block opt b).
Proof. unfold data_bytes, data_blocks. rewrite fmap_app, concat_app. cbn. by rewrite app_nil_r. Qed.

Lemma offsets_snoc bs b : offsets (bs ++ [b]) = offsets bs ++ [blen (data_bytes bs)].
Proof. unfold offsets, data_bytes, data_blocks. by rewrite fmap_app, running_app. Qed.

Lemma length_offsets bs : length (offsets bs) = length bs.
Proof. unfold offsets, data_blocks. by rewrite length_running, length_fmap. Qed.

Lemma handles_snoc bs b : handles (bs ++ [b]) =
  handles bs ++ [{| offset_ := blen (data_bytes bs); size_ := blen (raw_block opt b) |}].
Proof. unfold handles. rewrite offsets_snoc, zip_with_app by (by rewrite length_offsets). done. Qed.

Lemma length_handles bs : length (handles bs) = length bs.
Proof. unfold handles. rewrite length_zip_with, length_offsets. lia. Qed.

Lemma filter_input_flush bs cur :
  filter_input (bs ++ [cur]) [] = filter_input bs cur ++ [(blen (data_bytes (bs ++ [cur])), [])].
Proof.
  unfold filter_input. rewrite offsets_snoc, fmap_app, zip_with_app; [done|].
  by rewrite length_fmap, length_offsets.
Qed.

(** [AddKey] and [StartBlock] as the table builder calls them. *)
Lemma filter_state_AddKey bs cur kv : AddKey kv.1 <$> filter_state bs cur = filter_state bs (cur ++ [kv]).
Proof.
  unfold filter_state. destruct (filter_policy opt) as [p|]; [|done]. cbn [fmap option_fmap option_map]. f_equal.
  unfold filter_input. rewrite !fold_left_app. cbn [fold_left]. unfold add_block. cbn [fst snd].
  rewrite fmap_app, fold_left_app. done.
Qed.

Lemma filter_state_StartBlock bs cur :
  StartBlock (blen (data_bytes (bs ++ [cur]))) <$> filter_state bs cur = filter_state (bs ++ [cur]) [].
Proof.
  unfold filter_state. destruct (filter_policy opt) as [p|]; [|done]. cbn [fmap option_fmap option_map]. f_equal.
  rewrite filter_input_flush, fold_left_app. done.
Qed.

Lemma index_entries_pending bs b seps : length seps = length bs ->
  index_entries (bs ++ [b]) seps = index_entries bs seps.
Proof.
  intros Hl. unfold index_entries. rewrite handles_snoc, fmap_app. rewrite <- (app_nil_r seps) at 1.
  rewrite zip_with_app by (by rewrite length_fmap, length_handles). cbn. by rewrite app_nil_r.
Qed.

Lemma index_entries_snoc bs b seps sep : length seps = length bs ->
  index_entries (bs ++ [b]) (seps ++ [sep]) = index_entries bs seps ++
    [(sep, BlockHandle_EncodeTo {| offset_ := blen (data_bytes bs); size_ := blen (raw_block opt b) |} [])].
Proof.
  intros Hl. unfold index_entries. rewrite handles_snoc, fmap_app.
  by rewrite zip_with_app by (by rewrite length_fmap, length_handles).
Qed.
End image.

Lemma AddAll_snoc o b kvs kv : AddAll o b (kvs ++ [kv]) = Add o (AddAll o b kvs) kv.1 kv.2.
Proof. unfold AddAll. by rewrite fold_left_app. Qed.

Lemma AddAll_empty o kvs : BlockBuilder_empty (AddAll o BlockBuilder_new kvs) = bool_decide (kvs = []).
Proof.
  unfold BlockBuilder_empty. apply bool_decide_ext. destruct kvs as [|kv kvs] using rev_ind; [done|].
  rewrite AddAll_snoc. split; [|by destruct kvs].
  intros E%(f_equal (@length byte)). revert E. unfold Add, PutVarint32. cbn [buffer_]. rewrite !length_app.
  set (v := u32 _). pose proof (EncodeVarint32_length v). cbn. lia.
Qed.

(** * Separators *)

(** The keys of the index block lie between the data blocks; [cur] is the
    block being filled. *)
Record separators (cmp : Comparator) (valid : bytes -> Prop) (bs : list (list (bytes * bytes))) (seps : list bytes)
    (cur : list (bytes * bytes)) : Prop := {
  sp_valid : Forall valid seps;
  sp_below i b sep kv : bs !! i = Some b -> seps !! i = Some sep -> kv ∈ b -> Compare cmp kv.1 sep <= 0;
  sp_above i j b sep kv : (i < j)%nat -> (bs ++ [cur]) !! j = Some b -> seps !! i = Some sep -> kv ∈ b ->
    Compare cmp sep kv.1 < 0;
}.

Section separators.
Context {cmp : Comparator} {valid : bytes -> Prop} `{!ComparatorOk cmp valid}.
Implicit Types (b cur : list (bytes * bytes)) (bs : list (list (bytes * bytes))).
Notation separators := (separators cmp valid).

Lemma separators_nil cur : separators [] [] cur.
Proof. split; [constructor|done|done]. Qed.

Lemma separators_flush bs seps cur : (length seps <= length bs)%nat -> separators bs seps cur -> separators (bs ++ [cur]) seps [].
Proof.
  intros Hl [Hv Hb Ha]. split; [done| |].
  - intros i b sep kv Hi Hs. apply (Hb i); [|done]. apply lookup_lt_Some in Hs. by rewrite lookup_app_l in Hi by lia.
  - intros i j b sep kv Hij Hj Hs Hkv. apply lookup_app_Some in Hj as [Hj|[_ Hj]]; [by eapply Ha|].
    apply list_lookup_singleton_Some in Hj as [_ <-]. by inversion Hkv.
Qed.

(** One more entry: it is above what precedes it. *)
Lemma separators_add bs seps cur kv : valid kv.1 -> Forall (fun x => valid x.1) cur ->
  (length seps <= length bs)%nat ->
  (exists x, x ∈ cur /\ Compare cmp x.1 kv.1 < 0) \/ seps = [] ->
  separators bs seps cur -> separators bs seps (cur ++ [kv]).
Proof.
  intros Hvk Hcur Hl Hx [Hv Hb Ha]. split; [done|done|].
  intros i j b sep kv' Hij Hj Hs Hin. apply lookup_app_Some in Hj as [Hj|[Hle Hj]].
  - eapply Ha; [done| |done..]. by apply lookup_app_l_Some.
  - apply list_lookup_singleton_Some in Hj as [Hj <-].
    assert (Hc : forall x, x ∈ cur -> Compare cmp sep x.1 < 0).
    { intros x Hxc. apply (Ha i j cur); try done. rewrite lookup_app_r by done. by rewrite Hj. }
    apply elem_of_app in Hin as [Hin|Hin%list_elem_of_singleton]; [by apply Hc|]. subst kv'.
    destruct Hx as [(x & Hxc & Hlt)| ->]; [|done]. rewrite Forall_forall in Hcur.
    eapply (Compare_lt_trans (valid := valid) sep x.1); [|by apply Hcur|done|by apply Hc|done].
    by apply (Forall_lookup_1 _ _ _ _ Hv Hs).
Qed.

(** The separator of the last block. *)
Lemma separators_snoc bs b seps sep cur : length seps = length bs -> separators (bs ++ [b]) seps [] ->
  valid sep -> (forall kv, kv ∈ b -> Compare cmp kv.1 sep <= 0) ->
  (forall kv, kv ∈ cur -> Compare cmp sep kv.1 < 0 /\ forall i s, seps !! i = Some s -> Compare cmp s kv.1 < 0) ->
  separators (bs ++ [b]) (seps ++ [sep]) cur.
Proof.
  intros Hl [Hv Hb Ha] Hvs Hbelow Hcur. split.
  - apply Forall_app. by split; [|apply Forall_singleton].
  - intros i b' sep' kv Hi Hs Hkv. apply lookup_app_Some in Hs as [Hs|[Hle Hs]]; [by eapply Hb|].
    apply list_lookup_singleton_Some in Hs as [Hs <-]. rewrite lookup_app_r in Hi by lia.
    replace (i - length bs)%nat with 0%nat in Hi by lia. injection Hi as <-. by apply Hbelow.
  - intros i j b' sep' kv Hij Hj Hs Hkv. apply lookup_app_Some in Hj as [Hj|[Hle Hj]].
    + apply lookup_app_Some in Hs as [Hs|[Hle Hs]]; [eapply Ha; [done| |done..]; by apply lookup_app_l_Some|].
      apply lookup_lt_Some in Hj. rewrite length_app in Hj. cbn in Hj. lia.
    + apply list_lookup_singleton_Some in Hj as [_ <-]. destruct (Hcur kv Hkv) as [H1 H2].
      apply lookup_app_Some in Hs as [Hs|[_ Hs]]; [by eapply H2|]. by apply list_lookup_singleton_Some in Hs as [_ <-].
Qed.
End separators.

(** * The builder writes the image *)

(** Reads of fields after assignments. *)
Ltac fields := cbn [options index_block_options offset rep_status data_block index_block last_key num_entries closed
  filter_block pending_index_entry pending_handle set_written set_data_block set_index set_pending set_filter set_last
  set_closed add_index_entry fst snd] in *.

Section builder_facts.
Context {port : Port} `{!PortCrcOk port} {H S : Type} {wops : WritableFileOps H S} {written : H -> S -> bytes}.
Context `{!WritableFileOk H S written} (file : H) (contents_ptr trailer_ptr : Z).
Context (opt : Options) (valid : bytes -> Prop) `{!ComparatorOk (comparator opt) valid}.
(** Snappy is off or not linked: blocks that were compressed are not read back
    by [ReadBlock]. *)
Context (plain : compression opt = kNoCompression \/ HAVE_SNAPPY = None).
Notation cmp := (comparator opt).
Implicit Types (r : Rep) (s : S).
Notation write_raw := (WriteRawBlock file contents_ptr trailer_ptr).
Notation write_block := (WriteBlock file contents_ptr trailer_ptr).
Notation flush := (TableBuilder_Flush file contents_ptr trailer_ptr).
Notation add := (TableBuilder_Add file contents_ptr trailer_ptr).

Lemma compress_block_plain raw : compress_block opt raw = (raw, kNoCompression).
Proof.
  unfold compress_block, Snappy_Compress. destruct plain as [->| ->]; [done|]. by destruct (compression opt).
Qed.

Lemma WriteRawBlock_spec r c t s r' h s' : write_raw r c t s = (r', h, s') -> ok (rep_status r') = true ->
  exists st, r' = set_written r (u64 (offset r + (blen c + kBlockTrailerSize))) st /\ ok st = true /\
    h = {| offset_ := offset r; size_ := blen c |} /\ written file s' = written file s ++ stored_block c t.
Proof.
  unfold WriteRawBlock. destruct (Append file c s) as [st1 s1] eqn:E1. destruct (ok st1) eqn:Hok1; [|intros [= <- <- <-] Hok; cbn in Hok; congruence].
  match goal with |- context [Append file ?t s1] => destruct (Append file t s1) as [st2 s2] eqn:E2 end.
  destruct (ok st2) eqn:Hok2; intros [= <- <- <-] Hok; [|cbn in Hok; congruence].
  exists st2. split_and!; try done. rewrite (Append_ok _ _ _ _ _ E2 Hok2), (Append_ok _ _ _ _ _ E1 Hok1).
  unfold stored_block. rewrite <- app_assoc. do 4 f_equal. unfold Value.
  rewrite (Extend_spec _ 0) by lia. rewrite Extend_spec by (apply crc32c_spec_range; lia). by rewrite crc32c_spec_app.
Qed.

Lemma WriteBlock_spec r o kvs s r' h b' s' : options r = opt ->
  write_block r (AddAll o BlockBuilder_new kvs) s = (r', h, b', s') -> ok (rep_status r') = true ->
  exists st, r' = set_written r (u64 (offset r + blen (stored (raw_block o kvs)))) st /\ ok st = true /\
    h = {| offset_ := offset r; size_ := blen (raw_block o kvs) |} /\ b' = BlockBuilder_new /\
    written file s' = written file s ++ stored (raw_block o kvs).
Proof.
  intros Ho. unfold WriteBlock, raw_block.
  destruct (BlockBuilder.Finish (AddAll o BlockBuilder_new kvs)) as [raw blk]. cbn [fst].
  rewrite Ho, compress_block_plain. destruct (write_raw r raw kNoCompression s) as [[r1 h1] s1] eqn:E.
  intros [= <- <- <- <-] Hok. destruct (WriteRawBlock_spec _ _ _ _ _ _ _ E Hok) as (st & -> & ? & -> & ?).
  exists st. by rewrite blen_stored.
Qed.

(** Whether the last block still waits for its index entry. *)
Definition pending_ok r (bs : list (list (bytes * bytes))) (seps : list bytes) (cur : list (bytes * bytes)) : Prop :=
  if pending_index_entry r then
    cur = [] /\ exists bs' b kv, bs = bs' ++ [b] /\ length seps = length bs' /\ last b = Some kv /\ last_key r = kv.1 /\
      pending_handle r = {| offset_ := blen (data_bytes opt bs'); size_ := blen (raw_block opt b) |}
  else
    length seps = length bs /\ match last cur with Some kv => last_key r = kv.1 | None => bs = [] end.

Record building r s (bs : list (list (bytes * bytes))) (seps : list bytes) (cur : list (bytes * bytes)) : Prop := {
  bd_options : options r = opt;
  bd_index_options : index_block_options r = index_options opt;
  bd_ok : ok (rep_status r) = true;
  bd_written : written file s = data_bytes opt bs;
  bd_offset : offset r = blen (data_bytes opt bs);
  bd_data : data_block r = AddAll opt BlockBuilder_new cur;
  bd_index : index_block r = AddAll (index_options opt) BlockBuilder_new (index_entries opt bs seps);
  bd_filter : filter_block r = filter_state opt bs cur;
  bd_pending : pending_ok r bs seps cur;
  bd_nonempty : Forall (fun b => b <> []) bs;
  bd_separators : separators cmp valid bs seps cur;
  bd_entries : num_entries r = blen (concat bs ++ cur);
}.

Lemma building_new s : written file s = [] -> building (TableBuilder_new opt) s [] [] [].
Proof.
  intros Hw. split; try done. unfold filter_state, TableBuilder_new. cbn [filter_block set_filter]. by destruct (filter_policy opt).
Qed.

Lemma seps_le r bs seps cur : pending_ok r bs seps cur -> (length seps <= length bs)%nat.
Proof.
  unfold pending_ok. destruct (pending_index_entry r); [|lia].
  intros (_ & bs' & b & kv & -> & Hl & _). rewrite length_app. lia.
Qed.

Lemma building_Flush r s bs seps cur r' s' : building r s bs seps cur ->
  flush r s = (r', s') -> ok (rep_status r') = true -> blen (written file s') < 2 ^ 32 ->
  exists bs', building r' s' bs' seps [] /\ concat bs' = concat bs ++ cur.
Proof.
  intros Hb. unfold TableBuilder_Flush, TableBuilder_ok. rewrite (bd_ok _ _ _ _ _ Hb). cbn [negb].
  rewrite (bd_data _ _ _ _ _ Hb), AddAll_empty. case_bool_decide as Hcur.
  { intros [= <- <-] _ _. subst cur. exists bs. by rewrite app_nil_r. }
  destruct (write_block r (AddAll opt BlockBuilder_new cur) s) as [[[r1 h] blk] s1] eqn:E.
  pose proof (bd_pending _ _ _ _ _ Hb) as Hp. pose proof (seps_le r bs seps cur Hp) as Hle. unfold pending_ok in Hp.
  destruct (pending_index_entry r); [by destruct Hp|].
  destruct (ok (rep_status (set_pending (set_data_block r1 blk) (pending_index_entry r1) h))) eqn:Hok1;
    cbn [rep_status set_pending set_data_block] in Hok1; [|intros [= <- <-]; cbn; congruence].
  destruct (WriteBlock_spec r opt cur s r1 h blk s1 (bd_options _ _ _ _ _ Hb) E Hok1) as (st1 & -> & _ & -> & -> & Hw1).
  destruct (Flush file s1) as [st2 s2] eqn:E2. intros [= <- <-] Hok Hsz. cbn in Hok.
  pose proof (Flush_ok _ _ _ _ E2 Hok) as Hw2.
  assert (Hwr : written file s2 = data_bytes opt (bs ++ [cur])).
  { by rewrite Hw2, Hw1, data_bytes_snoc, (bd_written _ _ _ _ _ Hb). }
  assert (Hoff : u64 (offset r + blen (stored (raw_block opt cur))) = blen (data_bytes opt (bs ++ [cur]))).
  { rewrite (bd_offset _ _ _ _ _ Hb), data_bytes_snoc, blen_app. unfold u64. apply Z.mod_small.
    rewrite Hwr, data_bytes_snoc, blen_app in Hsz. pose proof (blen_nonneg (data_bytes opt bs)).
    pose proof (blen_nonneg (stored (raw_block opt cur))). lia. }
  destruct Hp as [Hl Hlast]. exists (bs ++ [cur]). split; [|by rewrite concat_app; cbn; rewrite app_nil_r].
  destruct Hb. split; fields; try done.
  - by rewrite index_entries_pending.
  - rewrite Hoff, bd_filter0. apply filter_state_StartBlock.
  - split; [done|]. destruct (last cur) as [kv|] eqn:El; [|by apply last_None in El].
    exists bs, cur, kv. split_and!; try done. by rewrite bd_offset0.
  - apply Forall_app. by split; [|apply Forall_singleton].
  - by apply separators_flush.
  - rewrite concat_app, bd_entries0. cbn. by rewrite !app_nil_r.
Qed.

Definition good (kvs : list (bytes * bytes)) : Prop := sorted_by cmp kvs /\ Forall (fun kv => valid kv.1) kvs.

Lemma good_app l k : good (l ++ k) -> good l /\ good k.
Proof.
  intros [Hs [Hl Hk]%Forall_app]. unfold good. clear -Hs Hl Hk. induction l as [|x l IH]; [by split; [split; constructor|]|].
  cbn in Hs. inversion Hs as [|? ? Hs' Hx]; subst. apply Forall_cons in Hl as [Hx' Hl]. destruct (IH Hs' Hl) as [[Hsl _] Hk'].
  apply Forall_app in Hx as [Hx _]. split; [split; by constructor|done].
Qed.

Lemma good_snoc_lt l kv x : good (l ++ [kv]) -> x ∈ l -> Compare cmp x.1 kv.1 < 0.
Proof.
  intros [Hs _] Hx. induction l as [|y l IH]; [by inversion Hx|]. cbn in Hs. inversion Hs as [|? ? Hs' Hy]; subst.
  apply elem_of_cons in Hx as [->|Hx]; [|by apply IH]. apply Forall_app in Hy as [_ Hy]. by rewrite Forall_singleton in Hy.
Qed.

Lemma good_last_le l kv x : good l -> last l = Some kv -> x ∈ l -> Compare cmp x.1 kv.1 <= 0.
Proof.
  intros Hg Hl Hx. apply last_Some in Hl as [l' ->]. apply elem_of_app in Hx as [Hx|Hx%list_elem_of_singleton].
  - pose proof (good_snoc_lt _ _ _ Hg Hx). lia.
  - subst x. destruct Hg as [_ Hv%Forall_app]. destruct Hv as [_ Hv]. rewrite Forall_singleton in Hv.
    rewrite (Compare_refl (cmp := cmp) (valid := valid)) by done. done.
Qed.

(** The separator chosen when the next block begins. *)
Lemma separators_next bs b seps kvl kv : length seps = length bs -> separators cmp valid (bs ++ [b]) seps [] ->
  good (concat bs ++ b ++ [kv]) -> last b = Some kvl ->
  separators cmp valid (bs ++ [b]) (seps ++ [FindShortestSeparator cmp kvl.1 kv.1]) [kv].
Proof.
  intros Hl Hs Hg Hlast. pose proof Hlast as Hin. apply last_Some_elem_of in Hin.
  destruct (good_app _ _ Hg) as [_ Hg']. destruct (good_app _ _ Hg') as [Hgb Hgk].
  assert (Hlt : Compare cmp kvl.1 kv.1 < 0) by (by eapply good_snoc_lt).
  assert (valid kvl.1) by (destruct Hgb as [_ Hv]; rewrite Forall_forall in Hv; by apply Hv).
  assert (valid kv.1) by (destruct Hgk as [_ Hv]; by rewrite Forall_singleton in Hv).
  destruct (FindShortestSeparator_ok (cmp := cmp) (valid := valid) kvl.1 kv.1) as (Hvs & Hle & Hlt'); [done..|].
  apply separators_snoc; [done|done|done| |].
  - intros x Hx. eapply (Compare_le_trans (valid := valid) x.1 kvl.1); [|done|done|by apply (good_last_le b)|done].
    destruct Hgb as [_ Hv]. rewrite Forall_forall in Hv. by apply Hv.
  - intros x ->%list_elem_of_singleton. split; [done|]. intros i sep Hi.
    eapply (Compare_lt_trans (valid := valid) sep kvl.1); [|done|done| |done].
    + by apply (Forall_lookup_1 _ _ _ _ (sp_valid _ _ _ _ _ Hs) Hi).
    + eapply (sp_above _ _ _ _ _ Hs i (length bs) b); [|apply lookup_app_l_Some; by rewrite list_lookup_middle|done|done].
      apply lookup_lt_Some in Hi. lia.
Qed.

Lemma building_add_entry r s bs seps cur key value : building r s bs seps cur ->
  good (concat bs ++ cur ++ [(key, value)]) ->
  exists seps', building (add_entry r key value) s bs seps' (cur ++ [(key, value)]).
Proof.
  intros Hb Hg. pose proof (bd_pending _ _ _ _ _ Hb) as Hp. pose proof (seps_le _ _ _ _ Hp) as Hle.
  unfold pending_ok in Hp. unfold add_entry. destruct (pending_index_entry r) eqn:Ep.
  - destruct Hp as (-> & bs' & b & kvl & -> & Hl & Hlast & Hkey & Hh). cbn [app] in *.
    rewrite concat_app in Hg. cbn [concat] in Hg. rewrite app_nil_r, <- app_assoc in Hg.
    exists (seps ++ [FindShortestSeparator cmp kvl.1 key]).
    destruct Hb. split; fields; try done.
    + by rewrite bd_options0, bd_data0.
    + rewrite bd_index_options0, bd_index0, Hkey, Hh, bd_options0, index_entries_pending, index_entries_snoc, AddAll_snoc by done.
      done.
    + rewrite bd_filter0. apply (filter_state_AddKey opt _ [] (key, value)).
    + split; [rewrite !length_app; cbn; lia|done].
    + by apply (separators_next bs' b seps kvl (key, value)).
    + rewrite bd_entries0, app_nil_r. len.
  - destruct Hp as [Hl Hlast]. exists seps. destruct (good_app _ _ Hg) as [_ Hg'].
    destruct (good_app _ _ Hg') as [Hgc [_ Hk]]. rewrite Forall_singleton in Hk.
    destruct Hb. split; fields; try done.
    + by rewrite bd_options0, bd_data0, AddAll_snoc.
    + rewrite bd_filter0. apply (filter_state_AddKey opt _ _ (key, value)).
    + unfold pending_ok. fields. rewrite Ep. split; [done|]. by rewrite last_snoc.
    + apply separators_add; [done|apply Hgc|lia| |done]. destruct (last cur) as [kvl|] eqn:El.
      * left. exists kvl. split; [by apply last_Some_elem_of|]. eapply good_snoc_lt; [done|]. by apply last_Some_elem_of.
      * right. subst bs. by destruct seps.
    + rewrite bd_entries0. len.
Qed.

(** Errors are sticky, and what was written stays. *)
Definition progress r s r' s' : Prop := ok (rep_status r') = true ->
  ok (rep_status r) = true /\ blen (written file s) <= blen (written file s').

Lemma WriteRawBlock_mono r c t s r' h s' : write_raw r c t s = (r', h, s') -> ok (rep_status r') = true ->
  blen (written file s) <= blen (written file s').
Proof.
  intros E Hok. destruct (WriteRawBlock_spec _ _ _ _ _ _ _ E Hok) as (st & _ & _ & _ & ->).
  rewrite blen_app. pose proof (blen_nonneg (stored_block c t)). lia.
Qed.

Lemma WriteBlock_mono r b s r' h b' s' : write_block r b s = (r', h, b', s') -> ok (rep_status r') = true ->
  blen (written file s) <= blen (written file s').
Proof.
  unfold WriteBlock. destruct (BlockBuilder.Finish b) as [raw blk]. destruct (compress_block (options r) raw) as [c t].
  destruct (write_raw r c t s) as [[r1 h1] s1] eqn:E. intros [= <- <- <- <-]. by eapply WriteRawBlock_mono.
Qed.

Lemma Flush_mono r s r' s' : flush r s = (r', s') -> progress r s r' s'.
Proof.
  unfold TableBuilder_Flush, TableBuilder_ok, progress.
  destruct (ok (rep_status r)) eqn:Hok; cbn [negb]; [|intros [= <- <-]; congruence].
  destruct (BlockBuilder_empty (data_block r)); [by intros [= <- <-]|].
  destruct (write_block r (data_block r) s) as [[[r1 h] blk] s1] eqn:E. fields.
  destruct (ok (rep_status r1)) eqn:Hok1; [|intros [= <- <-]; fields; congruence].
  destruct (Flush file s1) as [st2 s2] eqn:E2. intros [= <- <-]. fields. intros Hok2. split; [done|].
  rewrite (Flush_ok _ _ _ _ E2 Hok2). by eapply WriteBlock_mono.
Qed.

Lemma Add_mono r s key value r' s' : add r key value s = (r', s') -> progress r s r' s'.
Proof.
  unfold TableBuilder_Add, TableBuilder_ok, progress.
  destruct (ok (rep_status r)) eqn:Hok; cbn [negb]; [|intros [= <- <-]; congruence].
  destruct (_ <=? _); [|by intros [= <- <-]]. intros E Hok'. by destruct (Flush_mono _ _ _ _ E Hok') as [_ Hle].
Qed.

Lemma write_filter_block_mono r s r' h s' :
  write_filter_block file contents_ptr trailer_ptr r s = (r', h, s') -> progress r s r' s'.
Proof.
  unfold write_filter_block, TableBuilder_ok, progress. destruct (filter_block r) as [f|]; [|by intros [= <- <- <-]].
  destruct (ok (rep_status r)) eqn:Hok; [|intros [= <- <- <-]; congruence]. intros E Hok'. split; [done|].
  by eapply WriteRawBlock_mono.
Qed.

Lemma write_metaindex_block_mono r fh s r' h s' :
  write_metaindex_block file contents_ptr trailer_ptr r fh s = (r', h, s') -> progress r s r' s'.
Proof.
  unfold write_metaindex_block, TableBuilder_ok, progress.
  destruct (ok (rep_status r)) eqn:Hok; [|intros [= <- <- <-]; congruence].
  destruct (write_block r _ s) as [[[r1 h1] b1] s1] eqn:E. intros [= <- <- <-] Hok'. split; [done|]. by eapply WriteBlock_mono.
Qed.

Lemma write_index_block_mono r s r' h s' :
  write_index_block file contents_ptr trailer_ptr r s = (r', h, s') -> progress r s r' s'.
Proof.
  unfold write_index_block, TableBuilder_ok, progress.
  destruct (ok (rep_status r)) eqn:Hok; [|intros [= <- <- <-]; congruence].
  destruct (write_block _ _ s) as [[[r1 h1] b1] s1] eqn:E. intros [= <- <- <-]. fields. intros Hok'. split; [done|].
  by eapply WriteBlock_mono.
Qed.

Lemma building_Add r s bs seps cur key value r' s' : building r s bs seps cur ->
  good (concat bs ++ cur ++ [(key, value)]) -> add r key value s = (r', s') ->
  ok (rep_status r') = true -> blen (written file s') < 2 ^ 32 ->
  exists bs' seps' cur', building r' s' bs' seps' cur' /\ concat bs' ++ cur' = concat bs ++ cur ++ [(key, value)].
Proof.
  intros Hb Hg. destruct (building_add_entry _ _ _ _ _ key value Hb Hg) as [seps' Hb'].
  unfold TableBuilder_Add, TableBuilder_ok. rewrite (bd_ok _ _ _ _ _ Hb). cbn [negb].
  destruct (_ <=? _); intros E Hok Hsz.
  - destruct (building_Flush _ _ _ _ _ _ _ Hb' E Hok Hsz) as (bs' & Hb'' & Hc). exists bs', seps', [].
    by rewrite app_nil_r, Hc.
  - injection E as <- <-. by exists bs, seps', (cur ++ [(key, value)]).
Qed.

Lemma added_snoc calls c : added (calls ++ [c]) = added calls ++ added [c].
Proof. unfold added. by rewrite omap_app. Qed.

Lemma building_calls calls s r' s' : written file s = [] ->
  fold_left (do_call file contents_ptr trailer_ptr) calls (TableBuilder_new opt, s) = (r', s') ->
  ok (rep_status r') = true -> blen (written file s') < 2 ^ 32 -> good (added calls) ->
  exists bs seps cur, building r' s' bs seps cur /\ concat bs ++ cur = added calls.
Proof.
  intros Hw. revert r' s'. induction calls as [|c calls IH] using rev_ind; intros r' s'.
  { intros [= <- <-] _ _ _. exists [], [], []. split; [by apply building_new|done]. }
  rewrite fold_left_app, added_snoc. cbn [fold_left].
  destruct (fold_left _ calls _) as [r1 s1]. intros E Hok Hsz Hg. destruct (good_app _ _ Hg) as [Hg1 _].
  destruct c as [key value|]; cbn [do_call fst snd] in E.
  - destruct (Add_mono _ _ _ _ _ _ E Hok) as [Hok1 Hle].
    destruct (IH r1 s1 eq_refl Hok1 ltac:(lia) Hg1) as (bs & seps & cur & Hb & Hc).
    cbn in Hg |- *. rewrite <- Hc, <- app_assoc in Hg |- *. by eapply building_Add.
  - destruct (Flush_mono _ _ _ _ E Hok) as [Hok1 Hle].
    destruct (IH r1 s1 eq_refl Hok1 ltac:(lia) Hg1) as (bs & seps & cur & Hb & Hc).
    destruct (building_Flush _ _ _ _ _ _ _ Hb E Hok Hsz) as (bs' & Hb' & Hc').
    exists bs', seps, []. cbn. by rewrite !app_nil_r, Hc', Hc.
Qed.

(** ** [Finish] *)

(** [w] has been written. *)
Definition wrote r s (w : bytes) : Prop :=
  ok (rep_status r) = true /\ written file s = w /\ offset r = u64 (blen w).

Lemma u64_add a n : u64 (u64 a + n) = u64 (a + n).
Proof. unfold u64. by rewrite Z.add_mod_idemp_l. Qed.

Lemma write_filter_block_spec r s w r' h s' : written file s = w -> offset r = u64 (blen w) ->
  write_filter_block file contents_ptr trailer_ptr r s = (r', h, s') -> ok (rep_status r') = true ->
  exists off st, r' = set_written r off st /\
  match filter_block r with
  | Some f => let raw := FilterBlock.Finish f in
    wrote r' s' (w ++ stored raw) /\ h = {| offset_ := u64 (blen w); size_ := blen raw |}
  | None => wrote r' s' w
  end.
Proof.
  intros Hw Ho. unfold write_filter_block, TableBuilder_ok. destruct (filter_block r) as [f|] eqn:Ef.
  - destruct (ok (rep_status r)) eqn:Hok; [|intros [= <- <- <-]; congruence]. intros E Hok'.
    destruct (WriteRawBlock_spec _ _ _ _ _ _ _ E Hok') as (st & -> & Hst & -> & Hw'). eexists _, st. split; [done|].
    unfold wrote. fields. rewrite Hw', Hw, Ho. split_and!; try done. by rewrite u64_add, <- blen_stored, blen_app.
  - intros [= <- <- <-] Hok. exists (offset r), (rep_status r). split; [by destruct r|]. done.
Qed.

Lemma write_metaindex_block_spec r fh s w r' h s' : options r = opt -> written file s = w -> offset r = u64 (blen w) ->
  write_metaindex_block file contents_ptr trailer_ptr r fh s = (r', h, s') -> ok (rep_status r') = true ->
  let raw := raw_block opt
    (match filter_block r with Some _ => [(filter_key opt, BlockHandle_EncodeTo fh [])] | None => [] end) in
  exists off st, r' = set_written r off st /\ ok (rep_status r) = true /\ wrote r' s' (w ++ stored raw) /\
    h = {| offset_ := u64 (blen w); size_ := blen raw |}.
Proof.
  intros Hopt Hw Ho. unfold write_metaindex_block, TableBuilder_ok.
  destruct (ok (rep_status r)) eqn:Hok; [|intros [= <- <- <-]; congruence]. rewrite Hopt.
  match goal with |- context [write_block r ?b s] =>
    assert (b = AddAll opt BlockBuilder_new
      (match filter_block r with Some _ => [(filter_key opt, BlockHandle_EncodeTo fh [])] | None => [] end)) as ->
      by (by destruct (filter_block r)) end.
  set (kvs := match filter_block r with Some _ => _ | None => _ end).
  destruct (write_block r _ s) as [[[r1 h1] b1] s1] eqn:E. intros [= <- <- <-] Hok'.
  destruct (WriteBlock_spec _ _ _ _ _ _ _ _ Hopt E Hok') as (st & -> & Hst & -> & _ & Hw'). eexists _, st. split; [done|].
  unfold wrote. fields. rewrite Hw', Hw, Ho. split_and!; try done. by rewrite u64_add, blen_app.
Qed.

Lemma write_index_block_spec r s w r' h s' kvs : options r = opt -> written file s = w -> offset r = u64 (blen w) ->
  index_block (if pending_index_entry r then add_index_entry r (FindShortSuccessor cmp (last_key r)) else r) =
    AddAll (index_options opt) BlockBuilder_new kvs ->
  write_index_block file contents_ptr trailer_ptr r s = (r', h, s') -> ok (rep_status r') = true ->
  let raw := raw_block (index_options opt) kvs in
  ok (rep_status r) = true /\ wrote r' s' (w ++ stored raw) /\ h = {| offset_ := u64 (blen w); size_ := blen raw |}.
Proof.
  intros Hopt Hw Ho Hi. unfold write_index_block, TableBuilder_ok.
  destruct (ok (rep_status r)) eqn:Hok; [|intros [= <- <- <-]; congruence]. rewrite Hopt.
  set (r0 := if pending_index_entry r then _ else r) in *. rewrite Hi.
  assert (options r0 = opt /\ offset r0 = offset r) as [Hopt0 Ho0] by (unfold r0; by destruct (pending_index_entry r)).
  destruct (write_block r0 _ s) as [[[r1 h1] b1] s1] eqn:E. intros [= <- <- <-] Hok'. fields.
  destruct (WriteBlock_spec _ _ _ _ _ _ _ _ Hopt0 E Hok') as (st & -> & Hst & -> & _ & Hw').
  unfold wrote. fields. rewrite Hw', Hw, Ho0, Ho. split_and!; try done. by rewrite u64_add, blen_app.
Qed.

Lemma write_footer_spec r mh ih s w r' s' : written file s = w ->
  write_footer file r mh ih s = (r', s') -> ok (rep_status r') = true ->
  ok (rep_status r) = true /\
  written file s' = w ++ Footer_EncodeTo {| metaindex_handle_ := mh; index_handle_ := ih |} [].
Proof.
  intros Hw. unfold write_footer, TableBuilder_ok.
  destruct (ok (rep_status r)) eqn:Hok; [|intros [= <- <-]; congruence].
  destruct (Append file _ s) as [st s1] eqn:E.
  destruct (ok st) eqn:Hst; intros [= <- <-]; fields; [|congruence]. intros _. split; [done|].
  by rewrite (Append_ok _ _ _ _ _ E Hst), Hw.
Qed.

(** What a finished table consists of. *)
Record table_blocks (kvs : list (bytes * bytes)) (bs : list (list (bytes * bytes))) (seps : list bytes) : Prop := {
  tb_entries : concat bs = kvs;
  tb_nonempty : Forall (fun b => b <> []) bs;
  tb_seps : length seps = length bs;
  tb_separators : separators cmp valid bs seps [];
}.

(** The last index entry. *)
Lemma building_last r s bs seps : building r s bs seps [] -> good (concat bs) ->
  exists seps', table_blocks (concat bs) bs seps' /\
    index_block (if pending_index_entry r then add_index_entry r (FindShortSuccessor cmp (last_key r)) else r) =
      AddAll (index_options opt) BlockBuilder_new (index_entries opt bs seps').
Proof.
  intros Hb Hg. pose proof (bd_pending _ _ _ _ _ Hb) as Hp. unfold pending_ok in Hp.
  destruct (pending_index_entry r) eqn:Ep.
  - destruct Hp as (_ & bs' & b & kvl & -> & Hl & Hlast & Hkey & Hh).
    assert (Hgb : good b).
    { rewrite concat_app in Hg. cbn in Hg. rewrite app_nil_r in Hg. by apply good_app in Hg as [_ ?]. }
    assert (Hv : forall x, x ∈ b -> valid x.1) by (destruct Hgb as [_ Hv]; by rewrite Forall_forall in Hv).
    pose proof Hlast as Hin. apply last_Some_elem_of in Hin.
    destruct (FindShortSuccessor_ok (cmp := cmp) (valid := valid) kvl.1 (Hv _ Hin)) as [Hvs Hle].
    exists (seps ++ [FindShortSuccessor cmp kvl.1]). destruct Hb. split.
    + split; [done|done|rewrite !length_app; cbn; lia|]. apply separators_snoc; [done|done|done| |by intros ? ?%not_elem_of_nil].
      intros x Hx. eapply (Compare_le_trans (valid := valid) x.1 kvl.1); [by apply Hv|by apply Hv|done|by apply (good_last_le b)|done].
    + fields. rewrite bd_index_options0, bd_index0, Hkey, Hh, index_entries_pending, index_entries_snoc, AddAll_snoc by done. done.
  - destruct Hp as [Hl Hbs]. cbn in Hbs. subst bs. destruct seps; [|done]. exists []. destruct Hb. by split.
Qed.

Lemma build_image calls s st r s' : written file s = [] ->
  build file contents_ptr trailer_ptr opt calls s = (st, r, s') -> ok st = true ->
  blen (written file s') < 2 ^ 32 -> good (added calls) ->
  exists bs seps, written file s' = table_image opt bs seps /\ table_blocks (added calls) bs seps.
Proof.
  intros Hw. unfold build. destruct (fold_left _ calls _) as [r0 s0] eqn:E0. unfold TableBuilder_Finish.
  destruct (flush r0 s0) as [r1 s1] eqn:E1.
  destruct (write_filter_block _ _ _ _ s1) as [[r2 fh] s2] eqn:E2.
  destruct (write_metaindex_block _ _ _ r2 fh s2) as [[r3 mh] s3] eqn:E3.
  destruct (write_index_block _ _ _ r3 s3) as [[r4 ih] s4] eqn:E4.
  destruct (write_footer _ r4 mh ih s4) as [r5 s5] eqn:E5. intros [= <- <- <-] Hok Hsz Hg.
  destruct (write_footer_spec _ _ _ _ _ _ _ eq_refl E5 Hok) as [Hok4 Hw5].
  pose proof Hsz as Hsz4. rewrite Hw5, blen_app in Hsz4.
  pose proof (blen_nonneg (Footer_EncodeTo {| metaindex_handle_ := mh; index_handle_ := ih |} [])).
  destruct (write_index_block_mono _ _ _ _ _ E4 Hok4) as [Hok3 Hle3].
  destruct (write_metaindex_block_mono _ _ _ _ _ _ E3 Hok3) as [Hok2 Hle2].
  destruct (write_filter_block_mono _ _ _ _ _ E2 Hok2) as [Hok1 Hle1]. fields.
  destruct (Flush_mono _ _ _ _ E1 Hok1) as [Hok0 Hle0].
  destruct (building_calls _ _ _ _ Hw E0 Hok0 ltac:(lia) Hg) as (bs0 & seps0 & cur & Hb0 & Hc0).
  destruct (building_Flush _ _ _ _ _ _ _ Hb0 E1 Hok1 ltac:(lia)) as (bs & Hb & Hc). rewrite Hc0 in Hc.
  destruct (building_last _ _ _ _ Hb ltac:(by rewrite Hc)) as (seps & Ht & Hi). rewrite Hc in Ht.
  exists bs, seps. split; [|done]. clear Ht Hb0 E0 E1.
  assert (Hu : forall w : bytes, blen w < 2 ^ 32 -> u64 (blen w) = blen w).
  { intros w Hlt. pose proof (blen_nonneg w). unfold u64. apply Z.mod_small. lia. }
  destruct Hb. assert (Hoff1 : offset r1 = u64 (blen (data_bytes opt bs))).
  { rewrite bd_offset0, Hu; [done|]. rewrite <- bd_written0. lia. }
  destruct (write_filter_block_spec (set_closed r1) s1 _ r2 fh s2 bd_written0 Hoff1 E2 Hok2) as (o2 & st2 & Hr2 & H2). fields.
  assert (wrote r2 s2 (data_bytes opt bs ++ filter_part opt bs) /\
    (match filter_block r1 with Some _ => [(filter_key opt, BlockHandle_EncodeTo fh [])] | None => [] end) = meta_entries opt bs)
    as [(_ & Hw2 & Ho2) Hmeta].
  { unfold filter_part, meta_entries, filter_raw. rewrite <- bd_filter0. destruct (filter_block r1) as [f|]; cbn [fmap option_fmap option_map].
    - destruct H2 as [H2 ->]. split; [done|]. rewrite Hu; [done|]. rewrite <- bd_written0. lia.
    - by rewrite app_nil_r. }
  destruct (write_metaindex_block_spec r2 fh s2 _ r3 mh s3 ltac:(by rewrite Hr2) Hw2 Ho2 E3 Hok3)
    as (o3 & st3 & Hr3 & _ & (_ & Hw3 & Ho3) & Hmh).
  assert (filter_block r2 = filter_block r1) as Hf2 by (by rewrite Hr2). rewrite Hf2, Hmeta in Hw3, Ho3, Hmh.
  fold (meta_raw opt bs) in Hw3, Ho3, Hmh.
  destruct (write_index_block_spec r3 s3 _ r4 ih s4 (index_entries opt bs seps) ltac:(by rewrite Hr3, Hr2) Hw3 Ho3
    ltac:(rewrite Hr3, Hr2; clear -Hi; destruct r1 as [?????????? [] ?]; exact Hi) E4 Hok4) as (_ & (_ & Hw4 & _) & Hih).
  rewrite Hw5, Hw4, Hmh, Hih. unfold table_image, meta_handle, index_handle. fold (index_raw opt bs seps).
  rewrite !Hu by (first [rewrite <- Hw3|rewrite <- Hw2]; lia). by rewrite <- !app_assoc.
Qed.

(** On a file that does not fail, nothing fails. *)
Section reliable.
Context `{!WritableFileReliable H S}.

Lemma WriteRawBlock_reliable r c ty s : ok (rep_status (write_raw r c ty s).1.1) = true.
Proof.
  unfold WriteRawBlock. pose proof (Append_reliable file c s). destruct (Append file c s) as [st1 s1]. cbn in *.
  destruct (ok st1); [|done]. match goal with |- context [Append file ?x s1] => pose proof (Append_reliable file x s1) as Hr; destruct (Append file x s1) as [st2 s2] end.
  cbn in Hr. destruct (ok st2) eqn:E2; cbn; congruence.
Qed.

Lemma WriteBlock_reliable r b s : ok (rep_status (write_block r b s).1.1.1) = true.
Proof.
  unfold WriteBlock. destruct (BlockBuilder.Finish b) as [raw blk]. destruct (compress_block (options r) raw) as [c ty].
  pose proof (WriteRawBlock_reliable r c ty s). by destruct (write_raw r c ty s) as [[r1 h] s1].
Qed.

Lemma Flush_reliable' r s : ok (rep_status r) = true -> ok (rep_status (flush r s).1) = true.
Proof.
  intros Hok. unfold TableBuilder_Flush, TableBuilder_ok. rewrite Hok. cbn [negb].
  destruct (BlockBuilder_empty _); [done|]. pose proof (WriteBlock_reliable r (data_block r) s) as Hw.
  destruct (write_block r (data_block r) s) as [[[r1 h] blk] s1]. fields. rewrite Hw.
  pose proof (Flush_reliable file s1). by destruct (Flush file s1) as [st s2].
Qed.

Lemma Add_reliable r key value s : ok (rep_status r) = true -> ok (rep_status (add r key value s).1) = true.
Proof.
  intros Hok. unfold TableBuilder_Add, TableBuilder_ok. rewrite Hok. cbn [negb].
  assert (ok (rep_status (add_entry r key value)) = true) by (unfold add_entry; by destruct (pending_index_entry r)).
  destruct (_ <=? _); [by apply Flush_reliable'|done].
Qed.

Lemma calls_reliable calls r s : ok (rep_status r) = true ->
  ok (rep_status (fold_left (do_call file contents_ptr trailer_ptr) calls (r, s)).1) = true.
Proof.
  revert r s. induction calls as [|c calls IH]; intros r s Hok; [done|]. cbn [fold_left].
  assert (ok (rep_status (do_call file contents_ptr trailer_ptr (r, s) c).1) = true) as Hc
    by (destruct c; [by apply Add_reliable|by apply Flush_reliable']).
  destruct (do_call _ _ _ (r, s) c) as [r1 s1]. by apply IH.
Qed.

Lemma build_reliable calls s : ok (build file contents_ptr trailer_ptr opt calls s).1.1 = true.
Proof.
  unfold build. pose proof (calls_reliable calls (TableBuilder_new opt) s eq_refl) as H0.
  destruct (fold_left _ calls _) as [r0 s0]. unfold TableBuilder_Finish.
  pose proof (Flush_reliable' r0 s0 H0) as H1. destruct (flush r0 s0) as [r1 s1]. fields.
  assert (H2 : ok (rep_status (write_filter_block file contents_ptr trailer_ptr (set_closed r1) s1).1.1) = true).
  { unfold write_filter_block, TableBuilder_ok. fields. destruct (filter_block r1); [|done]. rewrite H1. apply WriteRawBlock_reliable. }
  destruct (write_filter_block _ _ _ _ s1) as [[r2 fh] s2]. fields.
  assert (H3 : ok (rep_status (write_metaindex_block file contents_ptr trailer_ptr r2 fh s2).1.1) = true).
  { unfold write_metaindex_block, TableBuilder_ok. rewrite H2.
    match goal with |- context [write_block r2 ?b s2] => pose proof (WriteBlock_reliable r2 b s2); by destruct (write_block r2 b s2) as [[[? ?] ?] ?] end. }
  destruct (write_metaindex_block _ _ _ r2 fh s2) as [[r3 mh] s3]. fields.
  assert (H4 : ok (rep_status (write_index_block file contents_ptr trailer_ptr r3 s3).1.1) = true).
  { unfold write_index_block, TableBuilder_ok. rewrite H3.
    match goal with |- context [write_block ?r ?b s3] => pose proof (WriteBlock_reliable r b s3); by destruct (write_block r b s3) as [[[? ?] ?] ?] end. }
  destruct (write_index_block _ _ _ r3 s3) as [[r4 ih] s4]. fields. unfold write_footer, TableBuilder_ok. rewrite H4.
  match goal with |- context [Append file ?d s4] => pose proof (Append_reliable file d s4) as Hr; destruct (Append file d s4) as [st s5] end.
  cbn in Hr. by rewrite Hr.
Qed.
End reliable.
End builder_facts.

(** C13: what the table builder writes.  For any sequence of [Add] calls with
    increasing keys, interleaved with [Flush] in any way, on a file any of
    whose operations may fail: when [Finish] reports success the file holds
    exactly the table image of data blocks that together contain the added
    entries in order, with index keys that lie between the blocks; and on a
    file that does not fail [Finish] succeeds. *)
Theorem TableBuilder_writes_table {port : Port} `{!PortCrcOk port} {H S : Type} {wops : WritableFileOps H S}
    {written : H -> S -> bytes} `{!WritableFileOk H S written} (file : H) (contents_ptr trailer_ptr : Z) (opt : Options)
    (valid : bytes -> Prop) `{!ComparatorOk (comparator opt) valid} (calls : list call) (s : S) :
  compression opt = kNoCompression \/ HAVE_SNAPPY = None -> written file s = [] -> good opt valid (added calls) ->
  let '(st, r, s') := build file contents_ptr trailer_ptr opt calls s in
  (ok st = true -> blen (written file s') < 2 ^ 32 ->
    exists bs seps, written file s' = table_image opt bs seps /\ table_blocks opt valid (added calls) bs seps) /\
  (WritableFileReliable H S -> ok st = true).
Proof.
  intros Hplain Hw Hg. destruct (build _ _ _ opt calls s) as [[st r] s'] eqn:E. split.
  - intros Hok Hsz. by eapply build_image.
  - intros Hrel. pose proof (build_reliable file contents_ptr trailer_ptr opt calls s) as Hb. by rewrite E in Hb.
Qed.
