(* ===== verification/Cache.v ===== *)
(** The cache interface of [include/leveldb/cache.h].

    Clients hold handles that pin the values they stand for until they are
    released.  [CacheOk] states what the documentation of the interface
    promises, with the outstanding pins as an explicit list; the LRU cache
    keeps the promise and tables are proved against it. *)

From S2P Require Import Prelude.

(** [V] is the type of the values, [Hd] that of the handles.  The deleter of a
    value is fixed by its client, so it is not an argument of [Insert]. *)
Class CacheOps (C V Hd : Type) := {
  Cache_Insert : bytes -> V -> Z -> C -> Hd * C;
  Cache_Lookup : bytes -> C -> option Hd * C;
  Cache_Release : Hd -> C -> C;
  Cache_Value : Hd -> C -> option V;
  Cache_Erase : bytes -> C -> C;
  Cache_NewId : C -> Z * C;
}.

(** [pinned c p]: [p] lists the handles that were handed out and not released,
    with their values.  [holds c k v]: the cache maps [k] to [v].  A cache may
    drop mappings at any time.  References are counted in 32 bits, and charges
    are positive and below 2^32. *)
Class CacheOk (C V Hd : Type) `{!CacheOps C V Hd} (pinned : C -> list (Hd * V) -> Prop)
    (holds : C -> bytes -> V -> Prop) : Prop := {
  pinned_perm c p q : p ≡ₚ q -> pinned c p -> pinned c q;
  Value_pinned c p h v : pinned c p -> (h, v) ∈ p -> Cache_Value h c = Some v;
  Insert_pinned c p k v charge : pinned c p -> blen p + 2 < 2 ^ 32 -> 0 < charge < 2 ^ 32 ->
    pinned (Cache_Insert k v charge c).2 (((Cache_Insert k v charge c).1, v) :: p);
  Insert_holds c p k v charge k' v' : pinned c p -> blen p + 2 < 2 ^ 32 -> 0 < charge < 2 ^ 32 ->
    holds (Cache_Insert k v charge c).2 k' v' -> (k' = k /\ v' = v) \/ (k' <> k /\ holds c k' v');
  Lookup_Some c p k h c' : pinned c p -> blen p + 2 < 2 ^ 32 -> Cache_Lookup k c = (Some h, c') ->
    exists v, holds c k v /\ pinned c' ((h, v) :: p);
  Lookup_None c p k c' : pinned c p -> blen p + 2 < 2 ^ 32 -> Cache_Lookup k c = (None, c') ->
    pinned c' p /\ forall v, ~ holds c k v;
  Lookup_holds c p k k' v' : pinned c p -> blen p + 2 < 2 ^ 32 -> holds (Cache_Lookup k c).2 k' v' -> holds c k' v';
  Release_pinned c p h v : pinned c ((h, v) :: p) -> pinned (Cache_Release h c) p;
  Release_holds c p h v k' v' : pinned c ((h, v) :: p) -> holds (Cache_Release h c) k' v' -> holds c k' v';
  Erase_pinned c p k : pinned c p -> pinned (Cache_Erase k c) p;
  Erase_holds c p k k' v' : pinned c p -> holds (Cache_Erase k c) k' v' -> k' <> k /\ holds c k' v';
  NewId_pinned c p : pinned c p -> pinned (Cache_NewId c).2 p;
  NewId_holds c p k' v' : pinned c p -> holds (Cache_NewId c).2 k' v' -> holds c k' v';
}.

(** [kept] survives every operation but [NewId]. *)
Class CacheKeeps (C V Hd : Type) `{!CacheOps C V Hd} (pinned : C -> list (Hd * V) -> Prop) (kept : C -> Prop) : Prop := {
  Insert_keeps c p k v charge : pinned c p -> blen p + 2 < 2 ^ 32 -> 0 < charge < 2 ^ 32 ->
    kept c -> kept (Cache_Insert k v charge c).2;
  Lookup_keeps c p k : pinned c p -> blen p + 2 < 2 ^ 32 -> kept c -> kept (Cache_Lookup k c).2;
  Release_keeps c p h v : pinned c ((h, v) :: p) -> kept c -> kept (Cache_Release h c);
  Erase_keeps c p k : pinned c p -> kept c -> kept (Cache_Erase k c);
}.

#[export] Instance keeps_True C V Hd `{!CacheOps C V Hd} pinned : CacheKeeps C V Hd pinned (fun _ => True).
Proof. done. Qed.

(** Ids are counted in 64 bits, and only [NewId] counts. *)
Class CacheIds (C V Hd : Type) `{!CacheOps C V Hd} (pinned : C -> list (Hd * V) -> Prop) (last_id : C -> Z) : Prop := {
  ids_kept n :: CacheKeeps C V Hd pinned (fun c => last_id c = n);
  NewId_next c p : pinned c p ->
    (Cache_NewId c).1 = u64 (last_id c + 1) /\ last_id (Cache_NewId c).2 = u64 (last_id c + 1);
}.

(** The calls of the deleter between two states of a cache, and those of its
    destructor. *)
Class CacheDeletions (C V : Type) := {
  Cache_deletions : C -> C -> list (bytes * V);
  Cache_destroy : C -> option (list (bytes * V));
}.

(** A cache owns the values it was given until it passes them to the deleter,
    each once; what it maps and what is pinned it still owns. *)
Class CacheOwner (C V Hd : Type) `{!CacheOps C V Hd, !CacheDeletions C V} (pinned : C -> list (Hd * V) -> Prop)
    (holds : C -> bytes -> V -> Prop) (owned : C -> list (bytes * V)) : Prop := {
  pinned_owned c p h v : pinned c p -> (h, v) ∈ p -> exists k, (k, v) ∈ owned c;
  holds_owned c p k v : pinned c p -> holds c k v -> (k, v) ∈ owned c;
  Insert_owned c p k v charge : pinned c p -> blen p + 2 < 2 ^ 32 -> 0 < charge < 2 ^ 32 ->
    let c' := (Cache_Insert k v charge c).2 in (k, v) :: owned c ≡ₚ Cache_deletions c c' ++ owned c';
  Lookup_owned c p k : pinned c p -> blen p + 2 < 2 ^ 32 -> owned (Cache_Lookup k c).2 ≡ₚ owned c;
  Release_owned c p h v : pinned c ((h, v) :: p) ->
    let c' := Cache_Release h c in owned c ≡ₚ Cache_deletions c c' ++ owned c';
  Erase_owned c p k : pinned c p -> let c' := Cache_Erase k c in owned c ≡ₚ Cache_deletions c c' ++ owned c';
  destroy_owned c : pinned c [] -> exists log, Cache_destroy c = Some log /\ log ≡ₚ owned c;
}.

(** A cache that drops every mapping at once keeps the promise. *)
Module NullCache.
Section null.
Context {V : Type}.

#[global] Instance null_ops : CacheOps (list V) V nat := {
  Cache_Insert _ v _ c := (length c, c ++ [v]);
  Cache_Lookup _ c := (None, c);
  Cache_Release _ c := c;
  Cache_Value h c := c !! h;
  Cache_Erase _ c := c;
  Cache_NewId c := (blen c, c);
}.

Definition pinned (c : list V) (p : list (nat * V)) : Prop := Forall (fun hv => c !! hv.1 = Some hv.2) p.

#[global] Instance null_ok : CacheOk (list V) V nat pinned (fun _ _ _ => False).
Proof.
  split; cbn; unfold pinned; try done.
  - by intros c p q ->.
  - intros c p h v Hp Hin. rewrite Forall_forall in Hp. exact (Hp _ Hin).
  - intros c p k v _ Hp _ _. constructor; [by apply list_lookup_middle|].
    eapply Forall_impl; [exact Hp|]. intros hv Hhv. by apply lookup_app_l_Some.
  - intros c p k c' Hp _ [= <-]. split; [done|tauto].
  - intros c p h v Hp. by apply Forall_cons in Hp as [_ Hp].
Qed.
End null.
End NullCache.
