(* ===== verification/LRUCache.v ===== *)
(** One shard of the cache of [util/cache.cpp]: the hash table of handles, the
    circular LRU list and the reference counts.

    The handles of a shard live in a memory of their own, a finite map from
    addresses; [None] is the result of a dangling access, a failed assertion
    or a loop that does not end.  [LRU_spec] is the abstract shard, a list of
    entries in order of use, and the pointer code is proved to implement it. *)

From S2P Require Import Prelude Port Comparator Hash.

(** * The heap *)

(** [malloc] and [free] on a heap state [H]. *)
Class Malloc (H : Type) := {
  malloc : Z -> H -> Z * H;
  free : Z -> H -> H;
}.

(** [allocated h x]: the object at address [x] was allocated and not freed.
    The result of [malloc] is not checked by the code; exhaustion is not
    modelled. *)
Class MallocOk (H : Type) `{!Malloc H} (allocated : H -> Z -> Prop) : Prop := {
  malloc_ok n h p h' : malloc n h = (p, h') ->
    0 < p /\ ~ allocated h p /\ forall x, allocated h' x <-> x = p \/ allocated h x;
  free_ok p h : allocated h p -> forall x, allocated (free p h) x <-> x <> p /\ allocated h x;
}.

(** * The code *)

Section code.
Context {V H : Type} `{!Malloc H}.

(** A handle.  The deleter is fixed by the client that chose the value, the
    key's length is that of [e_key_data], and nothing uses [in_cache].  The
    dummy head of the list has no value. *)
Record LRUHandle := mkLRUHandle {
  e_value : option V;
  e_next_hash : Z;
  e_next : Z;
  e_prev : Z;
  e_charge : Z;
  e_refs : Z;
  e_hash : Z;
  e_key_data : bytes;
}.

(** [sizeof(LRUHandle)]: seven words, a flag, two 32-bit integers and the
    first byte of the key, padded. *)
Definition sizeof_LRUHandle : Z := 72.

Notation mem := (gmap Z LRUHandle).

(** The address of the member [lru_] of the shard: no address of an allocated
    handle. *)
Definition lru_addr : Z := -1.

Definition set_next_hash (x : Z) (e : LRUHandle) : LRUHandle :=
  mkLRUHandle (e_value e) x (e_next e) (e_prev e) (e_charge e) (e_refs e) (e_hash e) (e_key_data e).
Definition set_next (x : Z) (e : LRUHandle) : LRUHandle :=
  mkLRUHandle (e_value e) (e_next_hash e) x (e_prev e) (e_charge e) (e_refs e) (e_hash e) (e_key_data e).
Definition set_prev (x : Z) (e : LRUHandle) : LRUHandle :=
  mkLRUHandle (e_value e) (e_next_hash e) (e_next e) x (e_charge e) (e_refs e) (e_hash e) (e_key_data e).
Definition set_refs (x : Z) (e : LRUHandle) : LRUHandle :=
  mkLRUHandle (e_value e) (e_next_hash e) (e_next e) (e_prev e) (e_charge e) x (e_hash e) (e_key_data e).

(** A store through a pointer. *)
Definition update (a : Z) (f : LRUHandle -> LRUHandle) (m : mem) : option mem :=
  e ← m !! a; Some (<[a := f e]> m).

(** [a->key()].  A handle whose [next] is itself keeps a [Slice] in [value];
    no code makes one, so the cast of a stored value to a [Slice] is
    undefined. *)
Definition e_key (a : Z) (e : LRUHandle) : option bytes :=
  if e_next e =? a then None else Some (e_key_data e).

(** ** The hash table *)

Record HandleTable := mkHandleTable {
  length_ : Z;
  elems_ : Z;
  list_ : list Z;
}.

(** What an [LRUHandle**] of the table can point to. *)
Inductive slot :=
  | Bucket (i : nat)
  | NextHash (a : Z).

Definition load_slot (list : list Z) (m : mem) (ptr : slot) : option Z :=
  match ptr with
  | Bucket i => list !! i
  | NextHash a => e ← m !! a; Some (e_next_hash e)
  end.

Definition store_slot (t : HandleTable) (m : mem) (ptr : slot) (x : Z) : option (HandleTable * mem) :=
  match ptr with
  | Bucket i => _ ← list_ t !! i; Some (mkHandleTable (length_ t) (elems_ t) (<[i := x]> (list_ t)), m)
  | NextHash a => m ← update a (set_next_hash x) m; Some (t, m)
  end.

(** The index [hash & (length - 1)]. *)
Definition bucket_of (hash length : Z) : nat := Z.to_nat (Z.land hash (u32 (length - 1))).

Fixpoint FindPointer_loop (fuel : nat) (t : HandleTable) (m : mem) (key : bytes) (hash : Z) (ptr : slot) : option slot :=
  match fuel with
  | O => None
  | S fuel =>
    p ← load_slot (list_ t) m ptr;
    if p =? 0 then Some ptr
    else
      e ← m !! p;
      if negb (e_hash e =? hash) then FindPointer_loop fuel t m key hash (NextHash p)
      else
        k ← e_key p e;
        if negb (Slice_eq key k) then FindPointer_loop fuel t m key hash (NextHash p) else Some ptr
  end.

Definition FindPointer (t : HandleTable) (m : mem) (key : bytes) (hash : Z) : option slot :=
  FindPointer_loop (S (size m)) t m key hash (Bucket (bucket_of hash (length_ t))).

(** [while (new_length < elems_) new_length *= 2]: 32 doublings reach 0, from
    where the loop does not end. *)
Fixpoint new_length_loop (fuel : nat) (new_length elems : Z) : option Z :=
  match fuel with
  | O => None
  | S fuel => if new_length <? elems then new_length_loop fuel (u32 (new_length * 2)) elems else Some new_length
  end.

(** [while (h != NULL)] of [Resize]. *)
Fixpoint rehash_chain (fuel : nat) (new_length : Z) (h : Z) (new_list : list Z) (m : mem) (count : Z)
    : option (list Z * mem * Z) :=
  match fuel with
  | O => None
  | S fuel =>
    if h =? 0 then Some (new_list, m, count)
    else
      e ← m !! h;
      let i := bucket_of (e_hash e) new_length in
      old ← new_list !! i;
      m ← update h (set_next_hash old) m;
      rehash_chain fuel new_length (e_next_hash e) (<[i := h]> new_list) m (u32 (count + 1))
  end.

(** [for (i = 0; i < length_; i++)] over the old buckets. *)
Fixpoint rehash (new_length : Z) (buckets : list Z) (new_list : list Z) (m : mem) (count : Z)
    : option (list Z * mem * Z) :=
  match buckets with
  | [] => Some (new_list, m, count)
  | h :: buckets =>
    '(new_list, m, count) ← rehash_chain (S (size m)) new_length h new_list m count;
    rehash new_length buckets new_list m count
  end.

Definition Resize (t : HandleTable) (m : mem) : option (HandleTable * mem) :=
  new_length ← new_length_loop 33 4 (elems_ t);
  '(new_list, m, count) ← rehash new_length (list_ t) (replicate (Z.to_nat new_length) 0) m 0;
  if elems_ t =? count then Some (mkHandleTable new_length (elems_ t) new_list, m) else None.

Definition HandleTable_new : option HandleTable :=
  '(t, _) ← Resize (mkHandleTable 0 0 []) ∅; Some t.

Definition Table_Lookup (t : HandleTable) (m : mem) (key : bytes) (hash : Z) : option Z :=
  ptr ← FindPointer t m key hash;
  load_slot (list_ t) m ptr.

(** Returns the handle that [h] replaces, or NULL. *)
Definition Table_Insert (t : HandleTable) (m : mem) (h : Z) : option (Z * HandleTable * mem) :=
  e ← m !! h;
  key ← e_key h e;
  ptr ← FindPointer t m key (e_hash e);
  old ← load_slot (list_ t) m ptr;
  next ← (if old =? 0 then Some 0 else load_slot (list_ t) m (NextHash old));
  m ← update h (set_next_hash next) m;
  '(t, m) ← store_slot t m ptr h;
  if old =? 0 then
    let t := mkHandleTable (length_ t) (u32 (elems_ t + 1)) (list_ t) in
    '(t, m) ← (if length_ t <? elems_ t then Resize t m else Some (t, m));
    Some (old, t, m)
  else Some (old, t, m).

Definition Table_Remove (t : HandleTable) (m : mem) (key : bytes) (hash : Z) : option (Z * HandleTable * mem) :=
  ptr ← FindPointer t m key hash;
  result ← load_slot (list_ t) m ptr;
  if result =? 0 then Some (result, t, m)
  else
    next ← load_slot (list_ t) m (NextHash result);
    '(t, m) ← store_slot t m ptr next;
    Some (result, mkHandleTable (length_ t) (u32 (elems_ t - 1)) (list_ t), m).

(** ** The shard *)

(** [cells] is the memory of the handles and of the dummy head, [deleted] the
    calls of the deleter so far. *)
Record LRUCache := mkLRUCache {
  capacity_ : Z;
  usage_ : Z;
  table_ : HandleTable;
  cells : mem;
  deleted : list (bytes * V);
}.

Definition set_cells (c : LRUCache) (m : mem) : LRUCache :=
  mkLRUCache (capacity_ c) (usage_ c) (table_ c) m (deleted c).
Definition set_table (c : LRUCache) (t : HandleTable) (m : mem) : LRUCache :=
  mkLRUCache (capacity_ c) (usage_ c) t m (deleted c).

(** The other members of [lru_], and [capacity_] until [SetCapacity], are not
    initialized and not read. *)
Definition LRUCache_new : option LRUCache :=
  t ← HandleTable_new;
  Some (mkLRUCache 0 0 t {[ lru_addr := mkLRUHandle None 0 lru_addr lru_addr 0 0 0 [] ]} []).

Definition SetCapacity (c : LRUCache) (capacity : Z) : LRUCache :=
  mkLRUCache capacity (usage_ c) (table_ c) (cells c) (deleted c).

Definition LRU_Remove (m : mem) (a : Z) : option mem :=
  e ← m !! a;
  m ← update (e_next e) (set_prev (e_prev e)) m;
  e ← m !! a;
  update (e_prev e) (set_next (e_next e)) m.

Definition LRU_Append (m : mem) (a : Z) : option mem :=
  m ← update a (set_next lru_addr) m;
  lru ← m !! lru_addr;
  m ← update a (set_prev (e_prev lru)) m;
  e ← m !! a;
  m ← update (e_prev e) (set_next a) m;
  e ← m !! a;
  update (e_next e) (set_prev a) m.

Definition Unref (c : LRUCache) (h : H) (a : Z) : option (LRUCache * H) :=
  e ← cells c !! a;
  if negb (0 <? e_refs e) then None
  else
    let e := set_refs (e_refs e - 1) e in
    if e_refs e <=? 0 then
      key ← e_key a e;
      value ← e_value e;
      Some (mkLRUCache (capacity_ c) (u64 (usage_ c - e_charge e)) (table_ c) (delete a (cells c))
              (deleted c ++ [(key, value)]), free a h)
    else Some (set_cells c (<[a := e]> (cells c)), h).

Definition LRU_Lookup (c : LRUCache) (key : bytes) (hash : Z) : option (Z * LRUCache) :=
  a ← Table_Lookup (table_ c) (cells c) key hash;
  if a =? 0 then Some (a, c)
  else
    e ← cells c !! a;
    let m := <[a := set_refs (u32 (e_refs e + 1)) e]> (cells c) in
    m ← LRU_Remove m a;
    m ← LRU_Append m a;
    Some (a, set_cells c m).

Definition LRU_Release (c : LRUCache) (h : H) (a : Z) : option (LRUCache * H) := Unref c h a.

(** [while (usage_ > capacity_ && lru_.next != &lru_)] *)
Fixpoint evict (fuel : nat) (c : LRUCache) (h : H) : option (LRUCache * H) :=
  match fuel with
  | O => None
  | S fuel =>
    lru ← cells c !! lru_addr;
    if (capacity_ c <? usage_ c) && negb (e_next lru =? lru_addr) then
      let old := e_next lru in
      m ← LRU_Remove (cells c) old;
      e ← m !! old;
      key ← e_key old e;
      '(_, t, m) ← Table_Remove (table_ c) m key (e_hash e);
      '(c, h) ← Unref (set_table c t m) h old;
      evict fuel c h
    else Some (c, h)
  end.

(** The links of the new handle are set before they are read. *)
Definition LRU_Insert (c : LRUCache) (h : H) (key : bytes) (hash : Z) (value : V) (charge : Z)
    : option (Z * LRUCache * H) :=
  let '(a, h) := malloc (u64 (sizeof_LRUHandle - 1 + blen key)) h in
  let m := <[a := mkLRUHandle (Some value) 0 0 0 charge 2 hash key]> (cells c) in
  m ← LRU_Append m a;
  let c := mkLRUCache (capacity_ c) (u64 (usage_ c + charge)) (table_ c) m (deleted c) in
  '(old, t, m) ← Table_Insert (table_ c) (cells c) a;
  let c := set_table c t m in
  '(c, h) ← (if old =? 0 then Some (c, h)
             else m ← LRU_Remove (cells c) old; Unref (set_cells c m) h old);
  '(c, h) ← evict (S (size (cells c))) c h;
  Some (a, c, h).

Definition LRU_Erase (c : LRUCache) (h : H) (key : bytes) (hash : Z) : option (LRUCache * H) :=
  '(a, t, m) ← Table_Remove (table_ c) (cells c) key hash;
  let c := set_table c t m in
  if a =? 0 then Some (c, h)
  else m ← LRU_Remove (cells c) a; Unref (set_cells c m) h a.

(** The loop of the destructor, from the handle [a]. *)
Fixpoint LRU_destroy_loop (fuel : nat) (c : LRUCache) (h : H) (a : Z) : option (LRUCache * H) :=
  match fuel with
  | O => None
  | S fuel =>
    if a =? lru_addr then Some (c, h)
    else
      e ← cells c !! a;
      if e_refs e =? 1 then
        '(c, h) ← Unref c h a;
        LRU_destroy_loop fuel c h (e_next e)
      else None
  end.

Definition LRU_destroy (c : LRUCache) (h : H) : option (LRUCache * H) :=
  lru ← cells c !! lru_addr;
  LRU_destroy_loop (S (size (cells c))) c h (e_next lru).

End code.

Arguments LRUHandle : clear implicits.
Arguments LRUCache : clear implicits.
Arguments LRUCache_new {V}.

(** * Views of the memory *)

(** What a client sees of a handle: everything but its links. *)
Record entry {V : Type} := mkEntry {
  n_value : option V;
  n_charge : Z;
  n_refs : Z;
  n_hash : Z;
  n_key : bytes;
}.
Arguments entry : clear implicits.

Section views.
Context {V : Type}.
Implicit Types (m : gmap Z (LRUHandle V)) (nx pv ln : gmap Z Z) (dt : gmap Z (entry V)).

Definition entry_of (e : LRUHandle V) : entry V :=
  mkEntry V (e_value e) (e_charge e) (e_refs e) (e_hash e) (e_key_data e).

(** The three link fields and the contents, as maps of their own. *)
Record views m nx pv ln dt : Prop := {
  view_next : e_next <$> m = nx;
  view_prev : e_prev <$> m = pv;
  view_link : e_next_hash <$> m = ln;
  view_entry : entry_of <$> m = dt;
}.

Lemma views_cell m nx pv ln dt a d : views m nx pv ln dt -> dt !! a = Some d ->
  exists e, m !! a = Some e /\ entry_of e = d /\ nx !! a = Some (e_next e) /\ pv !! a = Some (e_prev e) /\
    ln !! a = Some (e_next_hash e).
Proof.
  intros [<- <- <- <-]. rewrite lookup_fmap_Some. intros (e & <- & He). exists e. by rewrite !lookup_fmap, He.
Qed.

Lemma view_cell {A} (f : LRUHandle V -> A) m (v : gmap Z A) a x : f <$> m = v -> v !! a = Some x ->
  exists e, m !! a = Some e /\ f e = x.
Proof. intros <-. rewrite lookup_fmap_Some. intros (e & <- & He). by exists e. Qed.

(** A store to a field changes the view of that field. *)
Lemma fmap_update {A} (f : LRUHandle V -> A) (g : LRUHandle V -> LRUHandle V) m a e :
  m !! a = Some e -> f (g e) = f e -> f <$> <[a := g e]> m = f <$> m.
Proof. intros He Hg. rewrite fmap_insert, Hg. apply insert_id. by rewrite lookup_fmap, He. Qed.

Lemma update_next m nx pv ln dt a x y : views m nx pv ln dt -> nx !! a = Some y ->
  exists m', update a (set_next x) m = Some m' /\ views m' (<[a := x]> nx) pv ln dt.
Proof.
  intros [Hnx Hpv Hln Hdt] Ha. destruct (view_cell e_next m nx a y Hnx Ha) as (e & He & _).
  eexists. unfold update. rewrite He. split; [done|].
  split; [by rewrite fmap_insert, Hnx|by rewrite (fmap_update _ _ _ _ _ He)..].
Qed.

Lemma update_prev m nx pv ln dt a x y : views m nx pv ln dt -> pv !! a = Some y ->
  exists m', update a (set_prev x) m = Some m' /\ views m' nx (<[a := x]> pv) ln dt.
Proof.
  intros [Hnx Hpv Hln Hdt] Ha. destruct (view_cell e_prev m pv a y Hpv Ha) as (e & He & _).
  eexists. unfold update. rewrite He. split; [done|].
  split; [by rewrite (fmap_update _ _ _ _ _ He)|by rewrite fmap_insert, Hpv|by rewrite (fmap_update _ _ _ _ _ He)..].
Qed.

Lemma update_link m nx pv ln dt a x y : views m nx pv ln dt -> ln !! a = Some y ->
  exists m', update a (set_next_hash x) m = Some m' /\ views m' nx pv (<[a := x]> ln) dt.
Proof.
  intros [Hnx Hpv Hln Hdt] Ha. destruct (view_cell e_next_hash m ln a y Hln Ha) as (e & He & _).
  eexists. unfold update. rewrite He. split; [done|].
  split; [by rewrite (fmap_update _ _ _ _ _ He)..|by rewrite fmap_insert, Hln|by rewrite (fmap_update _ _ _ _ _ He)].
Qed.

Lemma views_dom m nx pv ln dt a : views m nx pv ln dt ->
  (is_Some (nx !! a) <-> is_Some (m !! a)) /\ (is_Some (pv !! a) <-> is_Some (m !! a)) /\
  (is_Some (ln !! a) <-> is_Some (m !! a)) /\ (is_Some (dt !! a) <-> is_Some (m !! a)).
Proof. intros [<- <- <- <-]. by rewrite !lookup_fmap, !fmap_is_Some. Qed.

(** * The LRU list *)

Notation lru := lru_addr.

Definition linked nx pv (a b : Z) : Prop := nx !! a = Some b /\ pv !! b = Some a.

(** The circular list through [lru_] and [l], oldest first. *)
Definition ring nx pv (l : list Z) : Prop := Forall2 (linked nx pv) (lru :: l) (l ++ [lru]).

(** Only the dummy head can be linked to itself. *)
Definition no_self nx : Prop := forall a, a <> lru -> nx !! a <> Some a.

Lemma linked_frame nx pv nx' pv' xs ys : Forall2 (linked nx pv) xs ys ->
  (forall x, x ∈ xs -> nx' !! x = nx !! x) -> (forall y, y ∈ ys -> pv' !! y = pv !! y) ->
  Forall2 (linked nx' pv') xs ys.
Proof.
  induction 1 as [|x y xs ys [Hx Hy] _ IH]; intros Hn Hp; constructor.
  - split; [by rewrite Hn by left|by rewrite Hp by left].
  - apply IH; intros; [apply Hn|apply Hp]; by right.
Qed.

(** The neighbours of a position in the ring. *)
Lemma neighbours (l1 l2 : list Z) : exists q p n r, lru :: l1 = q ++ [p] /\ l2 ++ [lru] = n :: r.
Proof.
  destruct (exists_last (l := lru :: l1) ltac:(done)) as (q & p & Hq). exists q, p.
  destruct l2 as [|n r]; [by exists lru, []|by exists n, (r ++ [lru])].
Qed.

Lemma ring_split nx pv l1 l2 q p n r : lru :: l1 = q ++ [p] -> l2 ++ [lru] = n :: r ->
  ring nx pv (l1 ++ l2) <-> Forall2 (linked nx pv) q l1 /\ linked nx pv p n /\ Forall2 (linked nx pv) l2 r.
Proof.
  intros Hq Hr. unfold ring. rewrite <- app_assoc, Hr, app_comm_cons, Hq, <- app_assoc. cbn [app].
  assert (length q = length l1) as Hl.
  { apply (f_equal length) in Hq. rewrite length_app in Hq. cbn in Hq. lia. }
  split.
  - intros [Hq' H']%Forall2_app_inv; [|done]. by apply Forall2_cons in H' as [].
  - intros (? & ? & ?). apply Forall2_app; [done|by constructor].
Qed.

(** The ends of a segment that are also in the ring. *)
Lemma ring_nodup l1 l2 q p n r : NoDup (lru :: l1 ++ l2) -> lru :: l1 = q ++ [p] -> l2 ++ [lru] = n :: r ->
  (p ∉ q) /\ (p ∉ l2) /\ (n ∉ l1) /\ (n ∉ r).
Proof.
  intros Hnd Hq Hr.
  assert (NoDup ((q ++ [p]) ++ l2)) as H1 by (by rewrite <- Hq, <- app_comm_cons).
  assert (NoDup (l1 ++ n :: r)) as H2.
  { by rewrite <- Hr, app_assoc, <- Permutation_cons_append. }
  rewrite <- app_assoc in H1. apply NoDup_app in H1 as (_ & H1 & H1'). apply NoDup_app in H2 as (_ & H2 & H2').
  apply NoDup_cons in H1' as [H1' _]. apply NoDup_cons in H2' as [H2' _].
  split_and!; [|done| |done].
  - intros Hp. apply (H1 p Hp). by left.
  - intros Hn. apply (H2 n Hn). by left.
Qed.

Lemma ring_end l1 (q : list Z) p : lru :: l1 = q ++ [p] -> p <> lru -> p ∈ l1.
Proof.
  intros Hq Hp. assert (p ∈ lru :: l1) as Hin by (rewrite Hq; set_solver).
  by apply elem_of_cons in Hin as [?|?].
Qed.

Lemma LRU_Remove_ok m nx pv ln dt l1 a l2 : views m nx pv ln dt -> ring nx pv (l1 ++ a :: l2) ->
  NoDup (lru :: l1 ++ a :: l2) -> no_self nx ->
  exists m' nx' pv', LRU_Remove m a = Some m' /\ views m' nx' pv' ln dt /\ ring nx' pv' (l1 ++ l2) /\ no_self nx'.
Proof.
  intros Hv Hr Hnd Hs. destruct (neighbours l1 l2) as (q & p & n & r & Hq & Hl2).
  apply (ring_split nx pv l1 (a :: l2) q p a (l2 ++ [lru]) Hq eq_refl) in Hr as (H1 & [Hpa Hap] & H2).
  rewrite Hl2 in H2. apply Forall2_cons in H2 as [[Han Hna] H2].
  assert (NoDup (lru :: l1 ++ l2) /\ a ∉ lru :: l1 ++ l2) as [Hnd' Ha].
  { rewrite <- Permutation_middle, Permutation_swap in Hnd. by apply NoDup_cons in Hnd as [??]. }
  destruct (ring_nodup l1 l2 q p n r Hnd' Hq Hl2) as (Hp & Hp' & Hn & Hn').
  assert (n <> a) as Hne.
  { intros ->. assert (a ∈ l2 ++ [lru]) by (rewrite Hl2; by left). set_solver. }
  destruct (view_cell e_next m nx a n (view_next _ _ _ _ _ Hv) Han) as (e & He & Hen).
  assert (e_prev e = p) as Hep.
  { pose proof (view_prev _ _ _ _ _ Hv) as Hpv. rewrite <- Hpv, lookup_fmap, He in Hap. by simplify_eq/=. }
  unfold LRU_Remove. rewrite He. cbn [mbind option_bind]. rewrite Hen, Hep.
  destruct (update_prev m nx pv ln dt n p a Hv Hna) as (m1 & -> & Hv1). cbn [mbind option_bind].
  destruct (view_cell e_next m1 nx a n (view_next _ _ _ _ _ Hv1) Han) as (e1 & He1 & Hen1).
  assert (e_prev e1 = p) as Hep1.
  { pose proof (view_prev _ _ _ _ _ Hv1) as Hpv. apply (f_equal (.!! a)) in Hpv.
    rewrite lookup_fmap, He1, lookup_insert_ne, Hap in Hpv by done. by simplify_eq/=. }
  rewrite He1. cbn [mbind option_bind]. rewrite Hen1, Hep1.
  destruct (update_next m1 nx _ ln dt p n a Hv1 Hpa) as (m2 & -> & Hv2).
  exists m2, (<[p := n]> nx), (<[n := p]> pv). split_and!; [done|done| |].
  - apply (ring_split _ _ l1 l2 q p n r Hq Hl2). split_and!.
    + eapply linked_frame; [exact H1|..]; intros x Hx; apply lookup_insert_ne; congruence.
    + split; apply lookup_insert_eq.
    + eapply linked_frame; [exact H2|..]; intros x Hx; apply lookup_insert_ne; congruence.
  - intros x Hx. destruct (decide (x = p)) as [->|Hxp]; [|rewrite lookup_insert_ne by done; by apply Hs].
    rewrite lookup_insert_eq. intros [= ->]. apply Hn. by eapply ring_end.
Qed.

Lemma LRU_Append_ok m nx pv ln dt l a x : views m nx pv ln dt -> ring nx pv l -> NoDup (lru :: l) ->
  a ∉ lru :: l -> nx !! a = Some x -> no_self nx ->
  exists m' nx' pv', LRU_Append m a = Some m' /\ views m' nx' pv' ln dt /\ ring nx' pv' (l ++ [a]) /\ no_self nx'.
Proof.
  intros Hv Hr Hnd Ha Hx Hs. destruct (neighbours l []) as (q & p & n & r & Hq & [= <- <-]).
  rewrite <- (app_nil_r l) in Hr. apply (ring_split nx pv l [] q p lru [] Hq eq_refl) in Hr as (H1 & [Hpl Hlp] & _).
  assert (a <> lru /\ a ∉ l) as [Hal Hal'] by set_solver.
  assert (NoDup (lru :: l ++ [])) as Hnd' by (by rewrite app_nil_r).
  destruct (ring_nodup l [] q p lru [] Hnd' Hq eq_refl) as (Hp & _ & Hl & _).
  assert (p <> a) as Hpa. { intros ->. apply Ha. rewrite Hq. set_solver. }
  assert (q ++ [p] ⊆ lru :: l) as Hsub by (by rewrite Hq).
  unfold LRU_Append.
  destruct (update_next m nx pv ln dt a lru x Hv Hx) as (m1 & -> & Hv1). cbn [mbind option_bind].
  destruct (view_cell e_prev m1 pv lru p (view_prev _ _ _ _ _ Hv1) Hlp) as (e1 & -> & E1). cbn [mbind option_bind]. rewrite E1.
  assert (is_Some (pv !! a)) as [y Hy].
  { destruct (views_dom m nx pv ln dt a Hv) as (D1 & D2 & _). apply D2, D1. by exists x. }
  destruct (update_prev m1 _ pv ln dt a p y Hv1 Hy) as (m2 & -> & Hv2). cbn [mbind option_bind].
  destruct (view_cell e_prev m2 _ a p (view_prev _ _ _ _ _ Hv2) (lookup_insert_eq _ _ _)) as (e2 & -> & E2). cbn [mbind option_bind]. rewrite E2.
  destruct (update_next m2 _ _ ln dt p a lru Hv2) as (m3 & -> & Hv3); [by rewrite lookup_insert_ne|]. cbn [mbind option_bind].
  destruct (view_cell e_next m3 _ a lru (view_next _ _ _ _ _ Hv3)) as (e3 & -> & E3); [by rewrite lookup_insert_ne, lookup_insert_eq|].
  cbn [mbind option_bind]. rewrite E3.
  destruct (update_prev m3 _ _ ln dt lru a p Hv3) as (m4 & -> & Hv4); [by rewrite lookup_insert_ne|].
  eexists m4, _, _. split_and!; [done|exact Hv4| |].
  - apply (ring_split _ _ l [a] q p a [lru] Hq eq_refl). split_and!.
    + eapply linked_frame; [exact H1|..]; intros z Hz; rewrite !lookup_insert_ne; set_solver.
    + split; [by rewrite lookup_insert_eq|by rewrite lookup_insert_ne, lookup_insert_eq].
    + repeat constructor; [by rewrite lookup_insert_ne, lookup_insert_eq|apply lookup_insert_eq].
  - intros z Hz. destruct (decide (z = p)) as [->|Hzp]; [rewrite lookup_insert_eq; congruence|].
    rewrite lookup_insert_ne by done. destruct (decide (z = a)) as [->|Hza]; [rewrite lookup_insert_eq; congruence|].
    rewrite lookup_insert_ne by done. by apply Hs.
Qed.

End views.

(** * The hash table *)

Section table.
Context {V : Type}.
Implicit Types (m : gmap Z (LRUHandle V)) (nx pv ln : gmap Z Z) (dt : gmap Z (entry V)) (t : HandleTable).

(** The chain of handles [xs] that starts at the pointer [p]. *)
Fixpoint chain ln (p : Z) (xs : list Z) : Prop :=
  match xs with
  | [] => p = 0
  | x :: xs => p = x /\ 0 < x /\ exists n, ln !! x = Some n /\ chain ln n xs
  end.

(** The slot that follows [pre] in a chain that starts in [ptr]. *)
Definition slot_after (ptr : slot) (pre : list Z) : slot :=
  match last pre with None => ptr | Some a => NextHash a end.

Definition matches dt (key : bytes) (hash : Z) (x : Z) : bool :=
  match dt !! x with Some d => (n_hash d =? hash) && bool_decide (n_key d = key) | None => false end.

(** [chains t ln dt bs]: the buckets of [t] are the chains [bs], every handle
    in the bucket of its hash. *)
Record chains t ln dt (bs : list (list Z)) : Prop := {
  ch_length : exists k, 2 <= k <= 31 /\ length_ t = 2 ^ k /\ blen (list_ t) = 2 ^ k;
  ch_elems : elems_ t = blen (concat bs) /\ blen (concat bs) <= 2 ^ 31;
  ch_chain : Forall2 (chain ln) (list_ t) bs;
  ch_nodup : NoDup (concat bs);
  ch_bucket i xs x : bs !! i = Some xs -> x ∈ xs ->
    exists d, dt !! x = Some d /\ bucket_of (n_hash d) (length_ t) = i;
}.

Lemma slot_after_cons ptr x pre : slot_after ptr (x :: pre) = slot_after (NextHash x) pre.
Proof. unfold slot_after. rewrite last_cons. by destruct (last pre). Qed.

Lemma chain_pos ln p xs x : chain ln p xs -> x ∈ xs -> 0 < x.
Proof.
  revert p. induction xs as [|y xs IH]; intros p Hc Hx; [by apply elem_of_nil in Hx|].
  destruct Hc as (-> & Hy & n & _ & Hc). apply elem_of_cons in Hx as [->|Hx]; [done|by eapply IH].
Qed.

Lemma chain_frame ln ln' p xs : chain ln p xs -> (forall x, x ∈ xs -> ln' !! x = ln !! x) -> chain ln' p xs.
Proof.
  revert p. induction xs as [|x xs IH]; intros p Hc Hf; [done|].
  destruct Hc as (-> & Hx & n & Hn & Hc). split_and!; [done|done|]. exists n. split; [by rewrite Hf by left|].
  apply IH; [done|]. intros y Hy. apply Hf. by right.
Qed.

Lemma FindPointer_loop_ok t m nx pv ln dt key hash xs fuel ptr p : views m nx pv ln dt -> no_self nx ->
  (forall x, x ∈ xs -> is_Some (dt !! x)) -> (length xs < fuel)%nat ->
  load_slot (list_ t) m ptr = Some p -> chain ln p xs ->
  exists pre post, xs = pre ++ post /\ Forall (fun x => matches dt key hash x = false) pre /\
    (forall x, head post = Some x -> matches dt key hash x = true) /\
    FindPointer_loop fuel t m key hash ptr = Some (slot_after ptr pre).
Proof.
  intros Hv Hs. revert fuel ptr p. induction xs as [|x xs IH]; intros [|fuel] ptr p Hdt Hf Hl Hc; cbn in Hf; try lia.
  - exists [], []. cbn in Hc. subst p. cbn [FindPointer_loop]. by rewrite Hl.
  - destruct Hc as (-> & Hx & n & Hn & Hc). destruct (Hdt x ltac:(by left)) as [d Hd].
    destruct (views_cell m nx pv ln dt x d Hv Hd) as (e & He & <- & Hnx & _ & Hln).
    assert (matches dt key hash x = (e_hash e =? hash) && Slice_eq key (e_key_data e)) as Hm.
    { unfold matches. rewrite Hd, Slice_eq_spec. cbn. f_equal. by apply bool_decide_ext. }
    cbn [FindPointer_loop]. rewrite Hl. cbn [mbind option_bind]. destruct (Z.eqb_spec x 0); [lia|].
    rewrite He. cbn [mbind option_bind].
    assert (e_key x e = Some (e_key_data e)) as Hk.
    { unfold e_key. destruct (Z.eqb_spec (e_next e) x) as [E|]; [|done]. exfalso. apply (Hs x); [unfold lru_addr; lia|congruence]. }
    assert (matches dt key hash x = false -> exists pre post, x :: xs = pre ++ post /\ Forall (fun x => matches dt key hash x = false) pre /\
      (forall x, head post = Some x -> matches dt key hash x = true) /\
      FindPointer_loop fuel t m key hash (NextHash x) = Some (slot_after ptr pre)) as Hnext.
    { intros Hno. destruct (IH fuel (NextHash x) n) as (pre & post & -> & Hpre & Hpost & ->); [|lia| |done|].
      - intros y Hy. apply Hdt. by right.
      - cbn. rewrite He. cbn. congruence.
      - exists (x :: pre), post. rewrite slot_after_cons. by repeat constructor. }
    rewrite Hk. cbn [mbind option_bind]. destruct (e_hash e =? hash); cbn [negb andb] in *; [|by apply Hnext].
    destruct (Slice_eq key (e_key_data e)); cbn [negb]; [|by apply Hnext].
    exists [], (x :: xs). split_and!; [done|done| |done]. by intros ? [= <-].
Qed.

(** What a slot of a chain holds. *)
Lemma load_after t m nx pv ln dt ptr p pre post : views m nx pv ln dt -> load_slot (list_ t) m ptr = Some p ->
  chain ln p (pre ++ post) ->
  load_slot (list_ t) m (slot_after ptr pre) = Some (default 0 (head post)) /\ chain ln (default 0 (head post)) post.
Proof.
  intros Hv. revert ptr p. induction pre as [|x pre IH]; intros ptr p Hl Hc.
  - cbn. destruct post as [|y post]; cbn in Hc; [by subst|]. destruct Hc as (-> & ? & ?). by split.
  - destruct Hc as (-> & Hx & n & Hn & Hc). rewrite slot_after_cons. apply (IH _ n); [|done].
    destruct (view_cell e_next_hash m ln x n (view_link _ _ _ _ _ Hv) Hn) as (e & He & <-). cbn. by rewrite He.
Qed.

Lemma concat_split {A} (bs : list (list A)) i xs : bs !! i = Some xs ->
  concat bs = concat (take i bs) ++ xs ++ concat (drop (S i) bs).
Proof. intros Hi. rewrite <- (take_drop_middle bs i xs Hi) at 1. by rewrite concat_app. Qed.

Lemma concat_insert {A} (bs : list (list A)) i xs ys : bs !! i = Some xs ->
  concat (<[i := ys]> bs) = concat (take i bs) ++ ys ++ concat (drop (S i) bs).
Proof.
  intros Hi. pose proof (lookup_lt_Some _ _ _ Hi) as Hlt.
  by rewrite insert_take_drop, concat_app by done.
Qed.

Lemma elem_of_bucket (bs : list (list Z)) x : x ∈ concat bs -> exists i xs, bs !! i = Some xs /\ x ∈ xs.
Proof.
  rewrite list_elem_of_In, in_concat. intros (xs & Hxs & Hx). rewrite <- list_elem_of_In in Hxs. rewrite <- list_elem_of_In in Hx.
  apply list_elem_of_lookup in Hxs as [i Hi]. by exists i, xs.
Qed.

Lemma bucket_elem_of (bs : list (list Z)) i xs x : bs !! i = Some xs -> x ∈ xs -> x ∈ concat bs.
Proof. intros Hi Hx. rewrite (concat_split bs i xs Hi). set_solver. Qed.

(** A handle is in one bucket. *)
Lemma bucket_unique (bs : list (list Z)) i j xs ys x : NoDup (concat bs) -> bs !! i = Some xs -> bs !! j = Some ys ->
  x ∈ xs -> x ∈ ys -> i = j.
Proof.
  intros Hnd Hi Hj Hx Hy. destruct (decide (i = j)) as [|Hne]; [done|exfalso].
  rewrite (concat_split bs i xs Hi) in Hnd. rewrite Permutation_app_swap_app in Hnd.
  apply NoDup_app in Hnd as (_ & Hd & _). apply (Hd x Hx), elem_of_app.
  destruct (decide (j < i)%nat) as [Hlt|Hge]; [left|right].
  - apply (bucket_elem_of _ j ys); [|done]. by rewrite lookup_take_lt.
  - apply (bucket_elem_of _ (j - S i) ys); [|done]. rewrite lookup_drop. rewrite <- Hj. f_equal. lia.
Qed.

Lemma chain_relink ln p pre a post x post' : chain ln p (pre ++ a :: post) -> a ∉ pre -> a ∉ post' -> chain ln x post' ->
  chain (<[a := x]> ln) p (pre ++ a :: post').
Proof.
  revert p. induction pre as [|y pre IH]; intros p Hc Ha Ha' Hx.
  - destruct Hc as (-> & Hpos & n & Hn & Hc). split_and!; [done|done|]. exists x. split; [apply lookup_insert_eq|].
    eapply chain_frame; [exact Hx|]. intros y Hy. apply lookup_insert_ne. congruence.
  - destruct Hc as (-> & Hpos & n & Hn & Hc). split_and!; [done|done|]. exists n.
    split; [rewrite lookup_insert_ne; set_solver|]. apply IH; set_solver.
Qed.

(** Storing a pointer into the slot after [pre] replaces what follows it. *)
Lemma store_chain t m nx pv ln dt bs i pre post x post' : views m nx pv ln dt -> Forall2 (chain ln) (list_ t) bs ->
  NoDup (concat bs) -> bs !! i = Some (pre ++ post) -> chain ln x post' -> (forall y, y ∈ post' -> y ∉ pre) ->
  exists t' m' ln', store_slot t m (slot_after (Bucket i) pre) x = Some (t', m') /\ views m' nx pv ln' dt /\
    length_ t' = length_ t /\ elems_ t' = elems_ t /\ length (list_ t') = length (list_ t) /\
    Forall2 (chain ln') (list_ t') (<[i := pre ++ post']> bs).
Proof.
  intros Hv Hc Hnd Hi Hx Hd. destruct (Forall2_lookup_r _ _ _ _ _ Hc Hi) as (p & Hp & Hcp).
  unfold slot_after. destruct pre as [|a pre _] using rev_ind.
  - cbn. rewrite Hp. cbn. eexists _, m, ln. split_and!; [done|done|done|done|apply length_insert|].
    by apply Forall2_insert.
  - rewrite last_snoc. cbn [store_slot]. rewrite <- app_assoc in Hi, Hcp. cbn [app] in Hi, Hcp.
    assert (a ∉ pre) as Ha.
    { rewrite (concat_split bs i _ Hi) in Hnd. apply NoDup_app in Hnd as (_ & _ & Hnd). apply NoDup_app in Hnd as (Hnd & _ & _).
      apply NoDup_app in Hnd as (_ & Hnd & _). intros Ha. apply (Hnd a Ha). by left. }
    assert (is_Some (ln !! a)) as [y Hy].
    { clear -Hcp. revert p Hcp. induction pre as [|z pre IH]; intros p Hcp; destruct Hcp as (_ & _ & n & Hn & Hc); [by eexists|by eapply IH]. }
    destruct (update_link m nx pv ln dt a x y Hv Hy) as (m' & -> & Hv'). cbn [mbind option_bind].
    exists t, m', (<[a := x]> ln). split_and!; [done..|].
    apply Forall2_same_length_lookup. rewrite length_insert. split; [by eapply Forall2_length|].
    intros j q ys Hq Hys. destruct (decide (j = i)) as [->|Hne].
    + rewrite list_lookup_insert_eq in Hys by (by eapply lookup_lt_Some). rewrite <- app_assoc in Hys. simplify_eq.
      eapply chain_relink; [exact Hcp|done| |done]. intros Ha'. apply (Hd a Ha'). set_solver.
    + rewrite list_lookup_insert_ne in Hys by done. pose proof (Forall2_lookup_lr _ _ _ _ _ _ Hc Hq Hys) as Hcq.
      eapply chain_frame; [exact Hcq|]. intros z Hz. apply lookup_insert_ne. intros <-.
      apply Hne. eapply (bucket_unique bs j i); [done..|]. set_solver.
Qed.

Lemma bucket_of_mod hash k : 0 <= k <= 32 -> bucket_of hash (2 ^ k) = Z.to_nat (hash mod 2 ^ k).
Proof.
  intros Hk. unfold bucket_of, u32. pose proof (Z.pow_le_mono_r 2 k 32 ltac:(lia) ltac:(lia)).
  pose proof (Z.pow_pos_nonneg 2 k ltac:(lia) ltac:(lia)).
  rewrite Z.mod_small by lia. replace (2 ^ k - 1) with (Z.ones k) by (rewrite Z.ones_equiv; lia). by rewrite Z.land_ones by lia.
Qed.

Lemma bucket_of_lt hash k : 0 <= k <= 32 -> Z.of_nat (bucket_of hash (2 ^ k)) < 2 ^ k.
Proof. intros Hk. rewrite bucket_of_mod by done. pose proof (Z.mod_pos_bound hash (2 ^ k) ltac:(apply Z.pow_pos_nonneg; lia)). lia. Qed.

Lemma chains_entry t ln dt bs x : chains t ln dt bs -> x ∈ concat bs -> is_Some (dt !! x).
Proof. intros Hc (i & xs & Hi & Hx)%elem_of_bucket. destruct (ch_bucket _ _ _ _ Hc i xs x Hi Hx) as (d & Hd & _). by exists d. Qed.

Lemma FindPointer_ok t m nx pv ln dt bs key hash : views m nx pv ln dt -> no_self nx -> chains t ln dt bs ->
  exists i pre post, bs !! i = Some (pre ++ post) /\ i = bucket_of hash (length_ t) /\
    (forall x, head post = Some x -> matches dt key hash x = true) /\
    (post = [] -> forall x, x ∈ concat bs -> matches dt key hash x = false) /\
    FindPointer t m key hash = Some (slot_after (Bucket i) pre) /\
    load_slot (list_ t) m (slot_after (Bucket i) pre) = Some (default 0 (head post)) /\
    chain ln (default 0 (head post)) post.
Proof.
  intros Hv Hs Hc. set (i := bucket_of hash (length_ t)).
  destruct (ch_length _ _ _ _ Hc) as (k & Hk & Hlen & Hlist).
  pose proof (bucket_of_lt hash k ltac:(lia)) as Hlt. rewrite <- Hlen in Hlt. fold i in Hlt.
  destruct (lookup_lt_is_Some_2 (list_ t) i) as [p Hp]; [unfold blen in Hlist; lia|].
  destruct (Forall2_lookup_l _ _ _ _ _ (ch_chain _ _ _ _ Hc) Hp) as (xs & Hxs & Hch).
  assert (forall x, x ∈ xs -> is_Some (dt !! x)) as Hdt.
  { intros x Hx. apply (chains_entry t ln dt bs x Hc). by eapply bucket_elem_of. }
  destruct (FindPointer_loop_ok t m nx pv ln dt key hash xs (S (size m)) (Bucket i) p Hv Hs Hdt) as (pre & post & -> & Hpre & Hpost & Hf).
  { apply le_n_S, length_le_size.
    - pose proof (ch_nodup _ _ _ _ Hc) as Hnd. rewrite (concat_split bs i xs Hxs) in Hnd. apply NoDup_app in Hnd as (_ & _ & Hnd).
      by apply NoDup_app in Hnd as (Hnd & _ & _).
    - intros x Hx. apply (views_dom m nx pv ln dt x Hv). by apply Hdt. }
  { done. }
  { done. }
  destruct (load_after t m nx pv ln dt (Bucket i) p pre post Hv Hp Hch) as [Hl Hch'].
  exists i, pre, post. split_and!; [done|done|done| |done|done|done].
  intros -> x (j & ys & Hj & Hx)%elem_of_bucket. destruct (ch_bucket _ _ _ _ Hc j ys x Hj Hx) as (d & Hd & Hb).
  destruct (matches dt key hash x) eqn:Hm; [|done]. rewrite <- Hm. unfold matches in Hm. rewrite Hd in Hm.
  apply andb_true_iff in Hm as [Hh%Z.eqb_eq _]. assert (j = i) as -> by (by rewrite <- Hb, Hh). simplify_eq. rewrite app_nil_r in Hx.
  rewrite Forall_forall in Hpre. by apply Hpre.
Qed.

Lemma Table_Lookup_ok t m nx pv ln dt bs key hash : views m nx pv ln dt -> no_self nx -> chains t ln dt bs ->
  exists a, Table_Lookup t m key hash = Some a /\
    (a = 0 /\ (forall x, x ∈ concat bs -> matches dt key hash x = false) \/
     0 < a /\ a ∈ concat bs /\ matches dt key hash a = true).
Proof.
  intros Hv Hs Hc. destruct (FindPointer_ok t m nx pv ln dt bs key hash Hv Hs Hc) as (i & pre & post & Hi & _ & Hm & Hno & Hf & Hl & Hch).
  unfold Table_Lookup. rewrite Hf. cbn [mbind option_bind]. exists (default 0 (head post)). split; [done|].
  destruct post as [|a post]; [left; by split; [|apply Hno]|right]. split_and!; [|apply (bucket_elem_of bs i _ a Hi); set_solver|by apply Hm].
  by destruct Hch as (_ & ? & _).
Qed.

(** A chain is replaced by one that still belongs in its bucket. *)
Lemma chains_insert t t' ln ln' dt bs i xs ys : chains t ln dt bs -> bs !! i = Some xs ->
  Forall2 (chain ln') (list_ t') (<[i := ys]> bs) -> length_ t' = length_ t -> length (list_ t') = length (list_ t) ->
  elems_ t' = blen (concat (<[i := ys]> bs)) -> blen (concat (<[i := ys]> bs)) <= 2 ^ 31 -> NoDup (concat (<[i := ys]> bs)) ->
  (forall x, x ∈ ys -> exists d, dt !! x = Some d /\ bucket_of (n_hash d) (length_ t) = i) -> chains t' ln' dt (<[i := ys]> bs).
Proof.
  intros Hc Hi Hch Hl Hl' He He' Hnd Hb. split; [|done|done|done|].
  - destruct (ch_length _ _ _ _ Hc) as (k & Hk & Hlen & Hlist). exists k. unfold blen in *. split_and!; [lia..|congruence|congruence].
  - intros j zs x Hj Hx. rewrite Hl. destruct (decide (j = i)) as [->|Hne].
    + rewrite list_lookup_insert_eq in Hj by (by eapply lookup_lt_Some). simplify_eq. by apply Hb.
    + rewrite list_lookup_insert_ne in Hj by done. by eapply (ch_bucket _ _ _ _ Hc).
Qed.

Lemma Table_Remove_ok t m nx pv ln dt bs key hash : views m nx pv ln dt -> no_self nx -> chains t ln dt bs ->
  exists a t' m' ln' bs', Table_Remove t m key hash = Some (a, t', m') /\ views m' nx pv ln' dt /\ chains t' ln' dt bs' /\
    (a = 0 /\ concat bs' = concat bs /\ (forall x, x ∈ concat bs -> matches dt key hash x = false) \/
     0 < a /\ concat bs ≡ₚ a :: concat bs' /\ matches dt key hash a = true).
Proof.
  intros Hv Hs Hc. destruct (FindPointer_ok t m nx pv ln dt bs key hash Hv Hs Hc) as (i & pre & post & Hi & Hib & Hm & Hno & Hf & Hl & Hch).
  unfold Table_Remove. rewrite Hf. cbn [mbind option_bind]. rewrite Hl. cbn [mbind option_bind].
  destruct post as [|a post]; cbn [from_option head id default].
  - exists 0, t, m, ln, bs. split_and!; [done..|]. left. split_and!; [done|done|by apply Hno].
  - destruct Hch as (_ & Ha & n & Hn & Hch). destruct (Z.eqb_spec a 0); [lia|].
    destruct (view_cell e_next_hash m ln a n (view_link _ _ _ _ _ Hv) Hn) as (e & He & Hen).
    cbn [load_slot]. rewrite He. cbn [mbind option_bind]. rewrite Hen.
    pose proof (ch_nodup _ _ _ _ Hc) as Hnd.
    assert (concat bs ≡ₚ a :: concat (<[i := pre ++ post]> bs)) as Hperm.
    { rewrite (concat_split bs i _ Hi), (concat_insert bs i _ _ Hi). solve_Permutation. }
    destruct (store_chain t m nx pv ln dt bs i pre (a :: post) n post Hv (ch_chain _ _ _ _ Hc) Hnd Hi Hch)
      as (t' & m' & ln' & -> & Hv' & Hl1 & He1 & Hl2 & Hch').
    { intros y Hy Hy'. rewrite (concat_split bs i _ Hi) in Hnd. apply NoDup_app in Hnd as (_ & _ & Hnd).
      apply NoDup_app in Hnd as (Hnd & _ & _). apply NoDup_app in Hnd as (_ & Hnd & _). apply (Hnd y Hy'). by right. }
    cbn [mbind option_bind]. exists a. eexists _, m', ln', (<[i := pre ++ post]> bs). split_and!; [done|done| |].
    + rewrite Hperm in Hnd. apply NoDup_cons in Hnd as [_ Hnd].
      apply (chains_insert t _ ln ln' dt bs i (pre ++ a :: post)); [done..| | |done|].
      * cbn. rewrite He1. destruct (ch_elems _ _ _ _ Hc) as [-> He2]. apply Permutation_length in Hperm.
        unfold u32, blen in *. rewrite Hperm in *. cbn [length] in *. rewrite Z.mod_small; lia.
      * destruct (ch_elems _ _ _ _ Hc) as [_ He2]. apply Permutation_length in Hperm. unfold blen in *. cbn in Hperm. lia.
      * intros x Hx. apply (ch_bucket _ _ _ _ Hc i (pre ++ a :: post)); [done|set_solver].
    + right. split_and!; [done|done|by apply Hm].
Qed.

(** ** Growing the table *)

Lemma new_length_loop_ok fuel n k elems : 2 <= k -> k + Z.of_nat n = 31 -> (n < fuel)%nat -> elems <= 2 ^ 31 ->
  exists k', k <= k' <= 31 /\ new_length_loop fuel (2 ^ k) elems = Some (2 ^ k').
Proof.
  revert fuel k. induction n as [|n IH]; intros [|fuel] k Hk Hn Hf He; try lia; cbn [new_length_loop].
  - assert (k = 31) as -> by lia. destruct (Z.ltb_spec (2 ^ 31) elems); [lia|]. exists 31. split; [lia|done].
  - destruct (2 ^ k <? elems); [|exists k; split; [lia|done]].
    assert (u32 (2 ^ k * 2) = 2 ^ (k + 1)) as ->.
    { unfold u32. rewrite Z.pow_add_r by lia. apply Z.mod_small.
      pose proof (Z.pow_le_mono_r 2 k 30 ltac:(lia) ltac:(lia)). pose proof (Z.pow_pos_nonneg 2 k ltac:(lia) ltac:(lia)). lia. }
    destruct (IH fuel (k + 1)) as (k' & Hk' & Hl); [lia..|]. exists k'. split; [lia|done].
Qed.

Definition bucketed (len : Z) dt (bs : list (list Z)) : Prop := forall i xs x, bs !! i = Some xs -> x ∈ xs ->
  exists d, dt !! x = Some d /\ bucket_of (n_hash d) len = i.

Lemma bucketed_cons len dt bs i ys x d : bucketed len dt bs -> bs !! i = Some ys -> dt !! x = Some d ->
  bucket_of (n_hash d) len = i -> bucketed len dt (<[i := x :: ys]> bs).
Proof.
  intros Hb Hi Hd Hx j zs z Hj Hz. destruct (decide (j = i)) as [->|Hne].
  - rewrite list_lookup_insert_eq in Hj by (by eapply lookup_lt_Some). simplify_eq.
    apply elem_of_cons in Hz as [->|Hz]; [by exists d|by eapply Hb].
  - rewrite list_lookup_insert_ne in Hj by done. by eapply Hb.
Qed.

(** Pushing a handle on the chain of its bucket. *)
Lemma push_chain ln (list : list Z) bs i old ys x : Forall2 (chain ln) list bs -> list !! i = Some old -> bs !! i = Some ys ->
  x ∉ concat bs -> 0 < x -> Forall2 (chain (<[x := old]> ln)) (<[i := x]> list) (<[i := x :: ys]> bs).
Proof.
  intros Hc Hl Hi Hx Hpos.
  assert (Forall2 (chain (<[x := old]> ln)) list bs) as Hc'.
  { apply Forall2_same_length_lookup. split; [by eapply Forall2_length|]. intros j q zs Hq Hzs.
    eapply chain_frame; [by eapply (Forall2_lookup_lr _ _ _ _ _ _ Hc)|]. intros z Hz. apply lookup_insert_ne. intros <-.
    apply Hx. by eapply bucket_elem_of. }
  apply Forall2_insert; [done|]. split_and!; [done|done|]. exists old. split; [apply lookup_insert_eq|].
  by apply (Forall2_lookup_lr _ _ _ _ _ _ Hc' Hl Hi).
Qed.

Lemma rehash_chain_ok k nx pv dt xs : 0 <= k <= 32 -> forall fuel h nl m ln nb count,
  views m nx pv ln dt -> chain ln h xs -> Forall2 (chain ln) nl nb -> bucketed (2 ^ k) dt nb -> blen nl = 2 ^ k ->
  NoDup (xs ++ concat nb) -> (forall x, x ∈ xs -> is_Some (dt !! x)) -> (length xs < fuel)%nat ->
  0 <= count -> count + blen xs < 2 ^ 32 ->
  exists nl' m' ln' nb', rehash_chain fuel (2 ^ k) h nl m count = Some (nl', m', count + blen xs) /\
    views m' nx pv ln' dt /\ Forall2 (chain ln') nl' nb' /\ bucketed (2 ^ k) dt nb' /\ blen nl' = 2 ^ k /\
    concat nb' ≡ₚ xs ++ concat nb /\ (forall y, y ∉ xs -> ln' !! y = ln !! y).
Proof.
  intros Hk. induction xs as [|x xs IH]; intros [|fuel] h nl m ln nb count Hv Hc Hnl Hb Hlen Hnd Hdt Hf Hn Hn'; cbn in Hf; try lia; cbn [rehash_chain].
  - cbn in Hc. subst h. exists nl, m, ln, nb. rewrite Z.eqb_refl, blen_nil, Z.add_0_r. by split_and!.
  - destruct Hc as (-> & Hx & n & Hxn & Hc). destruct (Hdt x ltac:(by left)) as [d Hd].
    destruct (views_cell m nx pv ln dt x d Hv Hd) as (e & He & Hed & _ & _ & Hln). rewrite blen_cons in Hn'.
    destruct (Z.eqb_spec x 0); [lia|]. rewrite He. cbn [mbind option_bind].
    assert (e_hash e = n_hash d) as -> by (by rewrite <- Hed). set (i := bucket_of (n_hash d) (2 ^ k)).
    destruct (lookup_lt_is_Some_2 nl i) as [old Hold].
    { pose proof (bucket_of_lt (n_hash d) k Hk) as Hlt. fold i in Hlt. unfold blen in Hlen. lia. }
    destruct (Forall2_lookup_l _ _ _ _ _ Hnl Hold) as (ys & Hys & _). rewrite Hold. cbn [mbind option_bind].
    destruct (update_link m nx pv ln dt x old n Hv Hxn) as (m1 & -> & Hv1). cbn [mbind option_bind].
    assert (e_next_hash e = n) as -> by congruence.
    rewrite <- app_comm_cons in Hnd. apply NoDup_cons in Hnd as [Hx' Hnd]. rewrite not_elem_of_app in Hx'. destruct Hx' as [Hx1 Hx2].
    assert (concat (<[i := x :: ys]> nb) ≡ₚ x :: concat nb) as Hperm.
    { rewrite (concat_insert nb i _ _ Hys), (concat_split nb i _ Hys). solve_Permutation. }
    assert (u32 (count + 1) = count + 1) as ->. { unfold u32. apply Z.mod_small. pose proof (blen_nonneg xs). lia. }
    destruct (IH fuel n (<[i := x]> nl) m1 (<[x := old]> ln) (<[i := x :: ys]> nb) (count + 1))
      as (nl' & m' & ln' & nb' & Hr & Hv' & Hnl' & Hb' & Hlen' & Hp & Hfr).
    + done.
    + eapply chain_frame; [exact Hc|]. intros y Hy. apply lookup_insert_ne. congruence.
    + by apply push_chain.
    + by eapply bucketed_cons.
    + unfold blen. by rewrite length_insert.
    + rewrite Hperm. rewrite <- Permutation_middle. constructor; [by rewrite not_elem_of_app|done].
    + intros y Hy. apply Hdt. by right.
    + lia.
    + lia.
    + lia.
    + exists nl', m', ln', nb'. split_and!; [rewrite Hr; do 2 f_equal; rewrite blen_cons; lia|done..| |].
      * rewrite Hp, Hperm. solve_Permutation.
      * intros y Hy. rewrite Hfr by set_solver. apply lookup_insert_ne. set_solver.
Qed.

Lemma rehash_ok k nx pv dt : 0 <= k <= 32 -> forall buckets bs nl m ln nb count,
  views m nx pv ln dt -> Forall2 (chain ln) buckets bs -> Forall2 (chain ln) nl nb -> bucketed (2 ^ k) dt nb -> blen nl = 2 ^ k ->
  NoDup (concat bs ++ concat nb) -> (forall x, x ∈ concat bs -> is_Some (dt !! x)) ->
  0 <= count -> count + blen (concat bs) < 2 ^ 32 ->
  exists nl' m' ln' nb', rehash (2 ^ k) buckets nl m count = Some (nl', m', count + blen (concat bs)) /\
    views m' nx pv ln' dt /\ Forall2 (chain ln') nl' nb' /\ bucketed (2 ^ k) dt nb' /\ blen nl' = 2 ^ k /\
    concat nb' ≡ₚ concat bs ++ concat nb.
Proof.
  intros Hk. induction buckets as [|h buckets IH]; intros bs nl m ln nb count Hv Hc Hnl Hb Hlen Hnd Hdt Hn Hn'.
  - apply Forall2_nil_inv_l in Hc as ->. exists nl, m, ln, nb. cbn. rewrite Z.add_0_r. by split_and!.
  - apply Forall2_cons_inv_l in Hc as (xs & bs' & Hx & Hc & ->). cbn [concat rehash] in *. rewrite blen_app in *.
    rewrite <- app_assoc in Hnd. rewrite Permutation_app_swap_app in Hnd.
    pose proof Hnd as (_ & Hd1 & Hnd')%NoDup_app.
    destruct (rehash_chain_ok k nx pv dt xs Hk (S (size m)) h nl m ln nb count) as (nl1 & m1 & ln1 & nb1 & -> & Hv1 & Hnl1 & Hb1 & Hlen1 & Hp1 & Hfr);
      [done..| | |done| |].
    + intros x Hx'. apply Hdt. set_solver.
    + apply le_n_S, length_le_size; [by apply NoDup_app in Hnd' as (? & _)|]. intros x Hx'.
      apply (views_dom m nx pv ln dt x Hv), Hdt. set_solver.
    + pose proof (blen_nonneg (concat bs')). lia.
    + cbn [mbind option_bind].
      destruct (IH bs' nl1 m1 ln1 nb1 (count + blen xs)) as (nl2 & m2 & ln2 & nb2 & -> & Hv2 & Hnl2 & Hb2 & Hlen2 & Hp2); [done| |done..| | | | |].
      * apply Forall2_same_length_lookup. split; [by eapply Forall2_length|]. intros j q zs Hq Hzs.
        eapply chain_frame; [by eapply (Forall2_lookup_lr _ _ _ _ _ _ Hc)|]. intros z Hz. apply Hfr. intros Hz'.
        apply (Hd1 z); [by eapply bucket_elem_of|set_solver].
      * by rewrite Hp1.
      * intros x Hx'. apply Hdt. set_solver.
      * pose proof (blen_nonneg xs). lia.
      * lia.
      * exists nl2, m2, ln2, nb2. split_and!; [do 2 f_equal; lia|done..|]. rewrite Hp2, Hp1. solve_Permutation.
Qed.

Lemma Resize_ok t m nx pv ln dt bs : views m nx pv ln dt -> Forall2 (chain ln) (list_ t) bs -> NoDup (concat bs) ->
  (forall x, x ∈ concat bs -> is_Some (dt !! x)) -> elems_ t = blen (concat bs) -> blen (concat bs) <= 2 ^ 31 ->
  exists t' m' ln' bs', Resize t m = Some (t', m') /\ views m' nx pv ln' dt /\ chains t' ln' dt bs' /\ concat bs' ≡ₚ concat bs.
Proof.
  intros Hv Hc Hnd Hdt He Hn. unfold Resize.
  destruct (new_length_loop_ok 33 29 2 (elems_ t)) as (k & Hk & Hl); [lia..|]. change (2 ^ 2) with 4 in Hl. rewrite Hl. cbn [mbind option_bind].
  assert (concat (replicate (Z.to_nat (2 ^ k)) []) = @nil Z) as Hnil by (by induction (Z.to_nat (2 ^ k))).
  destruct (rehash_ok k nx pv dt ltac:(lia) (list_ t) bs (replicate (Z.to_nat (2 ^ k)) 0) m ln (replicate (Z.to_nat (2 ^ k)) []) 0)
    as (nl & m' & ln' & nb & -> & Hv' & Hnl & Hb & Hlen & Hp); [done|done| | | | |done|lia|lia|].
  - apply Forall2_replicate. done.
  - intros i xs x Hi Hx. apply lookup_replicate in Hi as [-> _]. by apply elem_of_nil in Hx.
  - rewrite blen_replicate. pose proof (Z.pow_pos_nonneg 2 k). lia.
  - by rewrite Hnil, app_nil_r.
  - rewrite Hnil, app_nil_r in Hp. cbn [mbind option_bind]. rewrite He, Z.eqb_refl.
    eexists _, m', ln', nb. split_and!; [done|done| |done].
    pose proof (Permutation_length Hp) as Hpl. split; cbn.
    + exists k. split_and!; [lia..|done|done].
    + unfold blen in *. rewrite Hpl. lia.
    + done.
    + by rewrite Hp.
    + exact Hb.
Qed.

Lemma HandleTable_new_ok dt : exists t, HandleTable_new (V := V) = Some t /\ exists bs, chains t ∅ dt bs /\ concat bs = [].
Proof.
  unfold HandleTable_new.
  destruct (Resize_ok (mkHandleTable 0 0 []) ∅ ∅ ∅ ∅ ∅ []) as (t & m & ln & bs & -> & Hv & Hc & Hp); [| | | |done|done|].
  { by split; rewrite fmap_empty. }
  { apply Forall2_nil. done. }
  { apply NoDup_nil. done. }
  { intros x Hx. by apply elem_of_nil in Hx. }
  cbn. exists t. split; [done|]. exists bs. symmetry in Hp. apply Permutation_nil in Hp. split; [|done].
  destruct Hc as [H1 H2 H3 H4 H5]. split; [done|done| |done|].
  - assert (m = ∅) as -> by (apply (fmap_empty_inv entry_of), (view_entry _ _ _ _ _ Hv)).
    rewrite <- (view_link _ _ _ _ _ Hv), fmap_empty in H3. done.
  - intros i xs x Hi Hx. exfalso. pose proof (bucket_elem_of bs i xs x Hi Hx) as Hin. rewrite Hp in Hin. by apply elem_of_nil in Hin.
Qed.

(** The entry after the one a slot points at starts the rest of its chain. *)
Lemma load_rest l m nx pv ln dt post : views m nx pv ln dt -> chain ln (default 0 (head post)) post ->
  exists next, (if default 0 (head post) =? 0 then Some 0 else load_slot l m (NextHash (default 0 (head post)))) = Some next /\
    chain ln next (tail post).
Proof.
  intros Hv. destruct post as [|a post]; [by exists 0|]. intros (_ & Ha & n & Hn & Hch). cbn [from_option head id] in *.
  destruct (Z.eqb_spec a 0); [lia|]. exists n. split; [|done].
  destruct (view_cell e_next_hash m ln a n (view_link _ _ _ _ _ Hv) Hn) as (e' & He' & <-). cbn. by rewrite He'.
Qed.

(** Pointing an entry of no chain somewhere changes no chain. *)
Lemma chains_relink ln h next l bs : Forall2 (chain ln) l bs -> h ∉ concat bs -> Forall2 (chain (<[h := next]> ln)) l bs.
Proof.
  intros Hc Hin. apply Forall2_same_length_lookup. split; [by eapply Forall2_length|]. intros j q zs Hq Hzs.
  eapply chain_frame; [by eapply (Forall2_lookup_lr _ _ _ _ _ _ Hc)|]. intros x Hx. apply lookup_insert_ne.
  intros ->. apply Hin. by eapply bucket_elem_of.
Qed.

(** The rehash that follows an insertion keeps the entries. *)
Lemma grow_ok t m nx pv ln dt bs : views m nx pv ln dt -> chains t ln dt bs ->
  exists t' m' ln' bs', (if length_ t <? elems_ t then Resize t m else Some (t, m)) = Some (t', m') /\
    views m' nx pv ln' dt /\ chains t' ln' dt bs' /\ concat bs' ≡ₚ concat bs.
Proof.
  intros Hv Hc. destruct (length_ t <? elems_ t); [|by exists t, m, ln, bs].
  apply (Resize_ok t m nx pv ln dt bs); try by destruct Hc. 2-3: apply Hc.
  intros x Hx. by eapply chains_entry.
Qed.

Lemma Table_Insert_ok t m nx pv ln dt bs h d : views m nx pv ln dt -> no_self nx -> chains t ln dt bs ->
  dt !! h = Some d -> 0 < h -> h ∉ concat bs -> blen (concat bs) + 1 <= 2 ^ 31 ->
  exists a t' m' ln' bs', Table_Insert t m h = Some (a, t', m') /\ views m' nx pv ln' dt /\ chains t' ln' dt bs' /\
    (a = 0 /\ concat bs' ≡ₚ h :: concat bs /\ (forall x, x ∈ concat bs -> matches dt (n_key d) (n_hash d) x = false) \/
     0 < a /\ a ∈ concat bs /\ a :: concat bs' ≡ₚ h :: concat bs /\ matches dt (n_key d) (n_hash d) a = true).
Proof.
  intros Hv Hs Hc Hd Hh Hin Hbound. destruct (views_cell m nx pv ln dt h d Hv Hd) as (e & He & Hed & Hnx & _ & Hln).
  assert (e_key h e = Some (n_key d)) as Hkey.
  { unfold e_key. destruct (Z.eqb_spec (e_next e) h) as [E|]; [|by rewrite <- Hed].
    exfalso. apply (Hs h); [unfold lru_addr; lia|congruence]. }
  destruct (FindPointer_ok t m nx pv ln dt bs (n_key d) (n_hash d) Hv Hs Hc) as (i & pre & post & Hi & Hib & Hm & Hno & Hf & Hl & Hch).
  unfold Table_Insert. rewrite He. cbn [mbind option_bind]. rewrite Hkey. cbn [mbind option_bind].
  assert (e_hash e = n_hash d) as -> by (by rewrite <- Hed). rewrite Hf. cbn [mbind option_bind]. rewrite Hl. cbn [mbind option_bind].
  destruct (load_rest (list_ t) m nx pv ln dt post Hv Hch) as (next & -> & Hnext).
  cbn [mbind option_bind].
  destruct (update_link m nx pv ln dt h next _ Hv Hln) as (m1 & -> & Hv1). cbn [mbind option_bind].
  pose proof (chains_relink ln h next (list_ t) bs (ch_chain _ _ _ _ Hc) Hin) as Hc1.
  assert (h ∉ pre ++ post) as Hinp by (intros Hx; apply Hin; by eapply bucket_elem_of).
  pose proof (ch_nodup _ _ _ _ Hc) as Hnd.
  destruct (store_chain t m1 nx pv (<[h := next]> ln) dt bs i pre post h (h :: tail post) Hv1 Hc1 Hnd Hi)
    as (t' & m' & ln' & -> & Hv' & Hl1 & He1 & Hl2 & Hch').
  { split_and!; [done|done|]. exists next. split; [apply lookup_insert_eq|]. 
    eapply chain_frame; [exact Hnext|]. intros x Hx. apply lookup_insert_ne. intros ->. destruct post; set_solver. }
  { intros y [->|Hy]%elem_of_cons Hy'; [set_solver|]. rewrite (concat_split bs i _ Hi) in Hnd.
    apply NoDup_app in Hnd as (_ & _ & Hnd). apply NoDup_app in Hnd as (Hnd & _ & _). apply NoDup_app in Hnd as (_ & Hnd & _).
    apply (Hnd y Hy'). destruct post; set_solver. }
  cbn [mbind option_bind].
  set (bs1 := <[i := pre ++ h :: tail post]> bs) in *.
  assert (forall x, x ∈ pre ++ h :: tail post -> exists d, dt !! x = Some d /\ bucket_of (n_hash d) (length_ t) = i) as Hb1.
  { intros x Hx. destruct (decide (x = h)) as [->|Hne]; [by exists d|].
    apply (ch_bucket _ _ _ _ Hc i (pre ++ post)); [done|]. destruct post; set_solver. }
  destruct (ch_elems _ _ _ _ Hc) as [Hel Hel'].
  destruct post as [|a post]; cbn [from_option head id tail] in *.
  - assert (concat bs1 ≡ₚ h :: concat bs) as Hp.
    { unfold bs1. rewrite (concat_insert bs i _ _ Hi), (concat_split bs i _ Hi). solve_Permutation. }
    assert (NoDup (concat bs1)) as Hnd1 by (rewrite Hp; by constructor).
    assert (blen (concat bs1) = blen (concat bs) + 1) as Hlen. { apply Permutation_length in Hp. unfold blen. rewrite Hp. cbn. lia. }
    assert (chains (mkHandleTable (length_ t') (u32 (elems_ t' + 1)) (list_ t')) ln' dt bs1) as Hch1.
    { eapply chains_insert; [exact Hc|exact Hi|exact Hch'|done|done| |fold bs1; lia|done|done].
      cbn. fold bs1. rewrite He1, Hel, Hlen. unfold u32. apply Z.mod_small. pose proof (blen_nonneg (concat bs)). lia. }
    rewrite Z.eqb_refl. cbn [length_ elems_].
    destruct (grow_ok _ _ _ _ _ _ _ Hv' Hch1) as (t2 & m2 & ln2 & bs2 & E2 & Hv2 & Hc2 & Hp2). cbn [length_ elems_] in E2. rewrite E2.
    cbn [mbind option_bind]. exists 0, t2, m2, ln2, bs2. split_and!; [done|done|done|]. left. split_and!; [done|by rewrite Hp2|by apply Hno].
  - destruct Hch as (_ & Ha & _). destruct (Z.eqb_spec a 0); [lia|].
    assert (a :: concat bs1 ≡ₚ h :: concat bs) as Hp.
    { unfold bs1. rewrite (concat_insert bs i _ _ Hi), (concat_split bs i _ Hi). solve_Permutation. }
    exists a, t', m', ln', bs1. split_and!; [done|done| |].
    + eapply chains_insert; [exact Hc|exact Hi|exact Hch'|done|done| | | |done].
      * fold bs1. rewrite He1, Hel. apply Permutation_length in Hp. unfold blen. cbn in Hp. lia.
      * fold bs1. apply Permutation_length in Hp. unfold blen in *. cbn in Hp. lia.
      * fold bs1. assert (NoDup (a :: concat bs1)) as Hnd1 by (rewrite Hp; by constructor). by apply NoDup_cons in Hnd1 as [_ ?].
    + right. split_and!; [done| |done|by apply Hm]. apply (bucket_elem_of bs i _ a Hi). set_solver.
Qed.

End table.
