(* ===== verification/LRUShard.v ===== *)
(** The abstract LRU shard and the proof that the pointer code of [LRUCache]
    implements it.

    The abstract state is the list of the cached handles, least recently used
    first, and the contents of every handle that is cached or held by a
    client. *)

From S2P Require Import Prelude Port Comparator Hash LRUCache.

(** * The abstract shard *)

Section spec.
Context {V : Type}.

Record LRU_spec := mkSpec {
  s_capacity : Z;
  s_listed : list Z;
  s_entries : gmap Z (entry V);
  s_deleted : list (bytes * V);
}.

(** The charges of all handles, cached or not. *)
Definition usage (E : gmap Z (entry V)) : Z := map_fold (fun _ d acc => n_charge d + acc) 0 E.

Definition with_refs (d : entry V) (r : Z) : entry V := mkEntry V (n_value d) (n_charge d) r (n_hash d) (n_key d).

Definition spec_find (A : LRU_spec) (key : bytes) (hash : Z) : option Z :=
  List.find (matches (s_entries A) key hash) (s_listed A).

(** Drops a reference; the last one passes the value to its deleter. *)
Definition spec_unref (a : Z) (A : LRU_spec) : LRU_spec :=
  match s_entries A !! a with
  | Some d =>
    if n_refs d =? 1 then
      mkSpec (s_capacity A) (s_listed A) (delete a (s_entries A))
        (s_deleted A ++ option_list (v ← n_value d; Some (n_key d, v)))
    else mkSpec (s_capacity A) (s_listed A) (<[a := with_refs d (n_refs d - 1)]> (s_entries A)) (s_deleted A)
  | None => A
  end.

Definition relist (A : LRU_spec) (l : list Z) : LRU_spec := mkSpec (s_capacity A) l (s_entries A) (s_deleted A).
Definition without (a : Z) (l : list Z) : list Z := filter (fun x => x <> a) l.

(** Takes a handle out of the cache; clients may still hold it. *)
Definition spec_drop (a : Z) (A : LRU_spec) : LRU_spec := spec_unref a (relist A (without a (s_listed A))).

(** A new reference makes the handle the newest. *)
Definition spec_touch (a : Z) (A : LRU_spec) : LRU_spec :=
  mkSpec (s_capacity A) (without a (s_listed A) ++ [a])
    (alter (fun d => with_refs d (n_refs d + 1)) a (s_entries A)) (s_deleted A).

Definition spec_lookup (key : bytes) (hash : Z) (A : LRU_spec) : Z * LRU_spec :=
  match spec_find A key hash with Some a => (a, spec_touch a A) | None => (0, A) end.

(** Drops the oldest handles until the rest fits. *)
Fixpoint spec_evict (l : list Z) (A : LRU_spec) : LRU_spec :=
  match l with
  | [] => A
  | a :: l => if s_capacity A <? usage (s_entries A) then spec_evict l (spec_drop a A) else A
  end.

(** A new handle at the address [a], for the cache and for the client. *)
Definition spec_add (a : Z) (key : bytes) (hash : Z) (value : V) (charge : Z) (A : LRU_spec) : LRU_spec :=
  mkSpec (s_capacity A) (s_listed A ++ [a]) (<[a := mkEntry V (Some value) charge 2 hash key]> (s_entries A)) (s_deleted A).

(** It takes the place of the handle [A] has for the key. *)
Definition spec_replace (a : Z) (key : bytes) (hash : Z) (value : V) (charge : Z) (A : LRU_spec) : LRU_spec :=
  match spec_find A key hash with
  | Some old => spec_drop old (spec_add a key hash value charge A)
  | None => spec_add a key hash value charge A
  end.

Definition spec_insert (a : Z) (key : bytes) (hash : Z) (value : V) (charge : Z) (A : LRU_spec) : LRU_spec :=
  let A := spec_replace a key hash value charge A in
  spec_evict (s_listed A) A.

Definition spec_erase (key : bytes) (hash : Z) (A : LRU_spec) : LRU_spec :=
  match spec_find A key hash with Some a => spec_drop a A | None => A end.

End spec.

Arguments LRU_spec : clear implicits.
Arguments mkSpec {V}.

(** * The memory of a shard *)

Section core.
Context {V : Type}.
Implicit Types (m : gmap Z (LRUHandle V)) (E : gmap Z (entry V)) (t : HandleTable) (l T : list Z).
Notation lru := lru_addr.

Definition lru_entry : entry V := mkEntry V None 0 0 0 [].

(** [core m t l T E]: the memory holds the handles [E] and the dummy head, the
    list is [l], and the hash table finds the handles [T]. *)
Record core m t l T E : Prop := {
  co_memory : exists nx pv ln bs, views m nx pv ln (<[lru := lru_entry]> E) /\ no_self nx /\ ring nx pv l /\
    chains t ln (<[lru := lru_entry]> E) bs /\ concat bs ≡ₚ T;
  co_nodup : NoDup l;
  co_listed a : a ∈ l -> is_Some (E !! a);
  co_table a : a ∈ T -> is_Some (E !! a);
  co_pos a : is_Some (E !! a) -> 0 < a;
}.

Lemma core_ne m t l T E a : core m t l T E -> is_Some (E !! a) -> a <> lru.
Proof. intros Hc Ha ->. apply (co_pos _ _ _ _ _ Hc) in Ha. unfold lru_addr in Ha. lia. Qed.

Lemma core_nodup m t l T E : core m t l T E -> NoDup (lru :: l).
Proof.
  intros Hc. constructor; [|apply (co_nodup _ _ _ _ _ Hc)]. intros Hin.
  by apply (core_ne m t l T E lru Hc (co_listed _ _ _ _ _ Hc _ Hin)).
Qed.

Lemma matches_lru E k h a x : a <> lru -> matches (<[lru := x]> E) k h a = matches E k h a.
Proof. intros Ha. unfold matches. by rewrite lookup_insert_ne. Qed.

(** Reading a handle. *)
Lemma core_cell m t l T E a d : core m t l T E -> E !! a = Some d ->
  exists e, m !! a = Some e /\ entry_of e = d /\ e_key a e = Some (n_key d).
Proof.
  intros Hc Ha. destruct (co_memory _ _ _ _ _ Hc) as (nx & pv & ln & bs & Hv & Hs & _).
  pose proof (core_ne _ _ _ _ _ a Hc ltac:(by exists d)) as Hne.
  destruct (views_cell m nx pv ln _ a d Hv) as (e & He & Hed & Hn & _); [by rewrite lookup_insert_ne|].
  exists e. split_and!; [done|done|]. unfold e_key. destruct (Z.eqb_spec (e_next e) a) as [E0|]; [|by rewrite <- Hed].
  exfalso. apply (Hs a Hne). congruence.
Qed.

Lemma core_Remove m t l1 a l2 T E : core m t (l1 ++ a :: l2) T E ->
  exists m', LRU_Remove m a = Some m' /\ core m' t (l1 ++ l2) T E.
Proof.
  intros Hc. pose proof (core_nodup _ _ _ _ _ Hc) as Hnd. destruct Hc as [(nx & pv & ln & bs & Hv & Hs & Hr & Hch & Hp) Hl Hin HT Hpos].
  destruct (LRU_Remove_ok m nx pv ln _ l1 a l2 Hv Hr Hnd Hs) as (m' & nx' & pv' & Hm & Hv' & Hr' & Hs').
  exists m'. split; [done|]. split; [by exists nx', pv', ln, bs| |set_solver|done|done].
  rewrite <- Permutation_middle in Hl. by apply NoDup_cons in Hl as [_ ?].
Qed.

Lemma core_Append m t l a T E : core m t l T E -> a ∉ l -> is_Some (E !! a) ->
  exists m', LRU_Append m a = Some m' /\ core m' t (l ++ [a]) T E.
Proof.
  intros Hc Hal Ha. pose proof (core_nodup _ _ _ _ _ Hc) as Hnd. pose proof (core_ne _ _ _ _ _ a Hc Ha) as Hne.
  destruct Hc as [(nx & pv & ln & bs & Hv & Hs & Hr & Hch & Hp) Hl Hin HT Hpos]. destruct Ha as [d Ha].
  destruct (views_cell m nx pv ln _ a d Hv) as (e & He & _ & Hn & _); [by rewrite lookup_insert_ne|].
  destruct (LRU_Append_ok m nx pv ln _ l a _ Hv Hr Hnd ltac:(set_solver) Hn Hs) as (m' & nx' & pv' & Hm & Hv' & Hr' & Hs').
  exists m'. split; [done|]. split; [by exists nx', pv', ln, bs| | |done|done].
  - apply NoDup_app. split_and!; [done|set_solver|apply NoDup_singleton].
  - intros x [Hx| ->%list_elem_of_singleton]%elem_of_app; [by apply Hin|by exists d].
Qed.

Lemma core_perm m t l T T' E : T ≡ₚ T' -> core m t l T E -> core m t l T' E.
Proof.
  intros HT [(nx & pv & ln & bs & Hv & Hs & Hr & Hch & Hp) Hl Hin HT' Hpos].
  split; [|done|done| |done].
  - exists nx, pv, ln, bs. split_and!; [done..|by rewrite Hp].
  - intros a. rewrite <- HT. apply HT'.
Qed.

Lemma core_Lookup m t l T E key hash : core m t l T E ->
  exists a, Table_Lookup t m key hash = Some a /\
    (a = 0 /\ (forall x, x ∈ T -> matches E key hash x = false) \/ 0 < a /\ a ∈ T /\ matches E key hash a = true).
Proof.
  intros Hc. pose proof (fun a Ha => core_ne _ _ _ _ _ a Hc (co_table _ _ _ _ _ Hc a Ha)) as Hne.
  destruct (co_memory _ _ _ _ _ Hc) as (nx & pv & ln & bs & Hv & Hs & Hr & Hch & Hp).
  destruct (Table_Lookup_ok t m nx pv ln _ bs key hash Hv Hs Hch) as (a & Ha & Hcases). exists a. split; [done|].
  destruct Hcases as [[-> Hno]|(Hpos & Hin & Hm)]; [left; split; [done|]|right].
  - intros x Hx. rewrite <- Hp in Hx. rewrite <- (Hno x Hx). symmetry. apply matches_lru, Hne. by rewrite <- Hp.
  - rewrite Hp in Hin. split_and!; [done|done|]. rewrite <- Hm. symmetry. by apply matches_lru, Hne.
Qed.

Lemma core_Table_Remove m t l T E key hash : core m t l T E ->
  exists a t' m' T', Table_Remove t m key hash = Some (a, t', m') /\ core m' t' l T' E /\
    (a = 0 /\ T' ≡ₚ T /\ (forall x, x ∈ T -> matches E key hash x = false) \/ 0 < a /\ T ≡ₚ a :: T' /\ matches E key hash a = true).
Proof.
  intros Hc. pose proof (fun a Ha => core_ne _ _ _ _ _ a Hc (co_table _ _ _ _ _ Hc a Ha)) as Hne.
  destruct Hc as [(nx & pv & ln & bs & Hv & Hs & Hr & Hch & Hp) Hl Hin HT Hpos].
  destruct (Table_Remove_ok t m nx pv ln _ bs key hash Hv Hs Hch) as (a & t' & m' & ln' & bs' & Ha & Hv' & Hch' & Hcases).
  exists a, t', m', (concat bs'). split; [done|].
  assert (forall x, x ∈ concat bs' -> x ∈ T) as Hsub.
  { intros x Hx. rewrite <- Hp. destruct Hcases as [(_ & <- & _)|(_ & -> & _)]; [done|by right]. }
  split.
  - split; [by exists nx, pv, ln', bs'|done|done| |done]. intros x Hx. by apply HT, Hsub.
  - destruct Hcases as [(-> & Hbs & Hno)|(Hpa & Hbs & Hm)]; [left|right]; split_and!; [done|by rewrite Hbs| |done|by rewrite <- Hp|].
    + intros x Hx. rewrite <- (matches_lru E key hash x lru_entry) by (by apply Hne). apply Hno. by rewrite Hp.
    + rewrite <- (matches_lru E key hash a lru_entry); [done|]. apply Hne. rewrite <- Hp, Hbs. by left.
Qed.

Lemma core_Table_Insert m t l T E h d : core m t l T E -> E !! h = Some d -> h ∉ T -> blen T + 1 <= 2 ^ 31 ->
  exists a t' m' T', Table_Insert t m h = Some (a, t', m') /\ core m' t' l T' E /\
    (a = 0 /\ T' ≡ₚ h :: T /\ (forall x, x ∈ T -> matches E (n_key d) (n_hash d) x = false) \/
     0 < a /\ a ∈ T /\ a :: T' ≡ₚ h :: T /\ matches E (n_key d) (n_hash d) a = true).
Proof.
  intros Hc Hd HhT Hn. pose proof (fun a Ha => core_ne _ _ _ _ _ a Hc (co_table _ _ _ _ _ Hc a Ha)) as Hne.
  pose proof (core_ne _ _ _ _ _ h Hc ltac:(by exists d)) as Hhne.
  destruct Hc as [(nx & pv & ln & bs & Hv & Hs & Hr & Hch & Hp) Hl Hin HT Hpos].
  pose proof (Permutation_length Hp) as Hlen.
  destruct (Table_Insert_ok t m nx pv ln _ bs h d Hv Hs Hch) as (a & t' & m' & ln' & bs' & Ha & Hv' & Hch' & Hcases).
  { by rewrite lookup_insert_ne. }
  { apply Hpos. by exists d. }
  { by rewrite Hp. }
  { unfold blen in *. by rewrite Hlen. }
  exists a, t', m', (concat bs'). split; [done|].
  assert (forall x, x ∈ concat bs' -> x = h \/ x ∈ T) as Hsub.
  { intros x Hx. rewrite <- Hp. apply elem_of_cons. destruct Hcases as [(_ & <- & _)|(_ & _ & <- & _)]; [done|by right]. }
  split.
  - split; [by exists nx, pv, ln', bs'|done|done| |done]. intros x [->|Hx]%Hsub; [by exists d|by apply HT].
  - destruct Hcases as [(-> & Hbs & Hno)|(Hpa & Hab & Hbs & Hm)]; [left|right]; split_and!; [done|by rewrite Hbs, Hp| |done|by rewrite <- Hp|by rewrite Hbs, Hp|].
    + intros x Hx. rewrite <- (matches_lru E _ _ x lru_entry) by (by apply Hne). apply Hno. by rewrite Hp.
    + rewrite <- (matches_lru E _ _ a lru_entry); [done|]. apply Hne. by rewrite <- Hp.
Qed.

(** ** Handles come and go *)

Lemma chains_frame t ln ln' (dt dt' : gmap Z (entry V)) bs : chains t ln dt bs ->
  (forall x, x ∈ concat bs -> ln' !! x = ln !! x) ->
  (forall x, x ∈ concat bs -> n_hash <$> dt' !! x = n_hash <$> dt !! x) -> chains t ln' dt' bs.
Proof.
  intros [H1 H2 H3 H4 H5] Hln Hdt. split; [done|done| |done|].
  - apply Forall2_same_length_lookup. split; [by eapply Forall2_length|]. intros j q zs Hq Hzs.
    eapply chain_frame; [by eapply (Forall2_lookup_lr _ _ _ _ _ _ H3)|]. intros z Hz. apply Hln. by eapply bucket_elem_of.
  - intros i xs x Hi Hx. destruct (H5 i xs x Hi Hx) as (d & Hd & <-).
    specialize (Hdt x ltac:(by eapply bucket_elem_of)). rewrite Hd in Hdt. cbn in Hdt.
    apply fmap_Some in Hdt as (d' & Hd' & ->). by exists d'.
Qed.

Lemma core_refs m t l T E a e r : core m t l T E -> m !! a = Some e -> is_Some (E !! a) ->
  core (<[a := set_refs r e]> m) t l T (<[a := with_refs (entry_of e) r]> E).
Proof.
  intros Hc He Ha. pose proof (core_ne _ _ _ _ _ a Hc Ha) as Hne.
  destruct Hc as [(nx & pv & ln & bs & [Hnx Hpv Hln Hdt] & Hs & Hr & Hch & Hp) Hl Hin HT Hpos].
  assert (forall x, is_Some (E !! x) <-> is_Some (<[a := with_refs (entry_of e) r]> E !! x)) as Hdom.
  { intros x. destruct (decide (x = a)) as [->|Hx]; [rewrite lookup_insert_eq; split; eauto|by rewrite lookup_insert_ne]. }
  split; [|done|..]; [|intros x Hx; apply Hdom; by apply Hin|intros x Hx; apply Hdom; by apply HT|intros x Hx; apply Hpos; by apply Hdom].
  exists nx, pv, ln, bs. split_and!; [|done|done| |done].
  - split; [by rewrite (fmap_update _ _ _ _ _ He)..|]. by rewrite fmap_insert, Hdt, insert_insert_ne.
  - eapply chains_frame; [exact Hch|done|]. intros x Hx. destruct (decide (x = a)) as [->|Hx'].
    + rewrite <- Hdt. rewrite lookup_fmap, He. by rewrite lookup_insert_ne, lookup_insert_eq.
    + destruct (decide (x = lru)) as [->|Hxl]; [by rewrite !lookup_insert_eq|by rewrite !lookup_insert_ne].
Qed.

Lemma core_delete m t l T E a : core m t l T E -> a ∉ l -> a ∉ T -> is_Some (E !! a) -> core (delete a m) t l T (delete a E).
Proof.
  intros Hc Hal HaT Ha. pose proof (core_ne _ _ _ _ _ a Hc Ha) as Hne.
  destruct Hc as [(nx & pv & ln & bs & [Hnx Hpv Hln Hdt] & Hs & Hr & Hch & Hp) Hl Hin HT Hpos].
  split; [|done|..].
  - exists (delete a nx), (delete a pv), (delete a ln), bs. split_and!; [| | | |done].
    + split; rewrite fmap_delete; [by f_equal..|]. by rewrite Hdt, delete_insert_ne.
    + intros x Hx E0. apply lookup_delete_Some in E0 as [_ E0]. by apply (Hs x).
    + eapply linked_frame; [exact Hr|..]; intros x Hx; apply lookup_delete_ne; set_solver.
    + eapply chains_frame; [exact Hch|..]; intros x Hx; rewrite Hp in Hx.
      * apply lookup_delete_ne. congruence.
      * destruct (decide (x = lru)) as [->|Hxl]; [by rewrite !lookup_insert_eq|rewrite !lookup_insert_ne by done].
        rewrite lookup_delete_ne by congruence. done.
  - intros x Hx. rewrite lookup_delete_ne by congruence. by apply Hin.
  - intros x Hx. rewrite lookup_delete_ne by congruence. by apply HT.
  - intros x [y Hx%lookup_delete_Some]. apply Hpos. exists y. apply Hx.
Qed.

Lemma core_new m t l T E a e : core m t l T E -> E !! a = None -> 0 < a -> e_next e <> a ->
  core (<[a := e]> m) t l T (<[a := entry_of e]> E).
Proof.
  intros Hc Ha Hpa Hself. assert (a <> lru) as Hne by (unfold lru_addr; lia).
  destruct Hc as [(nx & pv & ln & bs & [Hnx Hpv Hln Hdt] & Hs & Hr & Hch & Hp) Hl Hin HT Hpos].
  assert (forall x, is_Some (E !! x) -> x <> a) as Hna by (intros x Hx ->; rewrite Ha in Hx; by destruct Hx).
  split; [|done|..].
  - exists (<[a := e_next e]> nx), (<[a := e_prev e]> pv), (<[a := e_next_hash e]> ln), bs. split_and!; [| | | |done].
    + split; rewrite fmap_insert; [by f_equal..|]. by rewrite Hdt, insert_insert_ne.
    + intros x Hx. destruct (decide (x = a)) as [->|Hxa]; [rewrite lookup_insert_eq; congruence|].
      rewrite lookup_insert_ne by done. by apply Hs.
    + eapply linked_frame; [exact Hr|..]; intros x Hx; apply lookup_insert_ne; intros <-.
      * apply elem_of_cons in Hx as [?|Hx]; [done|]. by apply (Hna a (Hin a Hx)).
      * apply elem_of_app in Hx as [Hx|?%list_elem_of_singleton]; [|done]. by apply (Hna a (Hin a Hx)).
    + eapply chains_frame; [exact Hch|..]; intros x Hx; rewrite Hp in Hx; specialize (Hna x (HT x Hx)).
      * by rewrite lookup_insert_ne.
      * destruct (decide (x = lru)) as [->|Hxl]; [by rewrite !lookup_insert_eq|by rewrite !lookup_insert_ne].
  - intros x Hx. rewrite lookup_insert_ne by (symmetry; by apply Hna, Hin). by apply Hin.
  - intros x Hx. rewrite lookup_insert_ne by (symmetry; by apply Hna, HT). by apply HT.
  - intros x Hx. destruct (decide (x = a)) as [->|Hxa]; [done|]. rewrite lookup_insert_ne in Hx by done. by apply Hpos.
Qed.

End core.

(** * Charges *)

Lemma alter_insert_Some {B} (f : B -> B) (E : gmap Z B) a d : E !! a = Some d -> alter f a E = <[a := f d]> E.
Proof.
  intros Hd. apply map_eq. intros x. destruct (decide (x = a)) as [->|Hne].
  - by rewrite lookup_alter_eq, lookup_insert_eq, Hd.
  - by rewrite lookup_alter_ne, lookup_insert_ne.
Qed.

Section usage.
Context {V : Type}.
Implicit Types (E : gmap Z (entry V)).

Lemma usage_insert E a d : E !! a = None -> usage (<[a := d]> E) = n_charge d + usage E.
Proof. intros Ha. unfold usage. rewrite map_fold_insert_L; [done| |done]. intros. lia. Qed.

Lemma usage_delete E a d : E !! a = Some d -> usage E = n_charge d + usage (delete a E).
Proof. intros Ha. rewrite <- (usage_insert (delete a E) a d) by apply lookup_delete_eq. by rewrite insert_delete_id. Qed.

Lemma usage_update E a d d' : E !! a = Some d -> n_charge d' = n_charge d -> usage (<[a := d']> E) = usage E.
Proof.
  intros Ha Hd. rewrite (usage_delete E a d Ha), <- insert_delete_eq, usage_insert by apply lookup_delete_eq. by rewrite Hd.
Qed.

Lemma usage_nonneg E : (forall a d, E !! a = Some d -> 0 <= n_charge d) -> 0 <= usage E.
Proof.
  induction E as [|a d E Ha IH] using map_ind; intros Hn; [done|]. rewrite usage_insert by done.
  pose proof (Hn a d (lookup_insert_eq _ _ _)). enough (0 <= usage E) by lia. apply IH. intros b d' Hb.
  apply (Hn b). rewrite lookup_insert_ne; [done|congruence].
Qed.

(** The charges of a list of handles. *)
Definition charge_of E (a : Z) : Z := from_option n_charge 0 (E !! a).
Definition charges E (l : list Z) : Z := foldr (fun a acc => charge_of E a + acc) 0 l.

Lemma charges_app E l l' : charges E (l ++ l') = charges E l + charges E l'.
Proof. induction l as [|a l IH]; [done|]. cbn [app charges foldr] in *. fold (charges E) in *. unfold charges in *. cbn. lia. Qed.

Lemma charges_ext E E' l : (forall a, a ∈ l -> charge_of E' a = charge_of E a) -> charges E' l = charges E l.
Proof. induction l as [|a l IH]; intros Hl; [done|]. cbn. rewrite (Hl a) by left. f_equal. apply IH. intros b Hb. apply Hl. by right. Qed.

Lemma charges_perm E l l' : l ≡ₚ l' -> charges E l = charges E l'.
Proof. unfold charges. induction 1; cbn; lia. Qed.

Lemma usage_charges E l : NoDup l -> (forall a, a ∈ l <-> is_Some (E !! a)) -> usage E = charges E l.
Proof.
  revert E. induction l as [|a l IH]; intros E Hnd Hl.
  - replace E with (∅ : gmap Z (entry V)); [done|]. symmetry. apply map_empty. intros a.
    destruct (E !! a) as [d|] eqn:Ha; [|done]. assert (a ∈ []) as Hin by (apply Hl; by exists d). by apply elem_of_nil in Hin.
  - apply NoDup_cons in Hnd as [Ha Hnd]. destruct (proj1 (Hl a) ltac:(by left)) as [d Hd].
    rewrite (usage_delete E a d Hd), (IH (delete a E)); [|done|].
    + cbn. assert (charge_of E a = n_charge d) as -> by (unfold charge_of; by rewrite Hd). f_equal. apply charges_ext. intros b Hb.
      unfold charge_of. rewrite lookup_delete_ne; [done|congruence].
    + intros b. destruct (decide (b = a)) as [->|Hne].
      * rewrite lookup_delete_eq. split; [done|by intros []].
      * rewrite lookup_delete_ne by done. rewrite <- Hl. set_solver.
Qed.

End usage.

(** * The code implements the abstract shard *)

Section refinement.
Context {V H : Type} `{!Malloc H} {allocated : H -> Z -> Prop} `{!MallocOk H allocated}.
Implicit Types (c : LRUCache V) (A : LRU_spec V) (h : H) (T : list Z).
Notation lru := lru_addr.

(** [T] are the handles the hash table finds: between two calls, those listed. *)
Record rep c A T : Prop := {
  rep_capacity : capacity_ c = s_capacity A;
  rep_usage : usage_ c = u64 (usage (s_entries A));
  rep_deleted : deleted c = s_deleted A;
  rep_core : core (cells c) (table_ c) (s_listed A) T (s_entries A);
}.

Definition owned h A : Prop := forall a, is_Some (s_entries A !! a) -> allocated h a.

(** What a call does to the heap: the shard owns its handles, and what others
    own stays theirs. *)
Definition heap_step h A h' A' : Prop :=
  owned h' A' /\ forall a, allocated h a -> s_entries A !! a = None -> allocated h' a /\ s_entries A' !! a = None.

Lemma heap_step_refl h A : owned h A -> heap_step h A h A.
Proof. by split. Qed.

Lemma heap_step_trans h1 A1 h2 A2 h3 A3 : heap_step h1 A1 h2 A2 -> heap_step h2 A2 h3 A3 -> heap_step h1 A1 h3 A3.
Proof. intros [_ H1] [Ho H2]. split; [done|]. intros a Ha Hn. destruct (H1 a Ha Hn). by apply H2. Qed.

(** Every handle has a value and references that fit their counter. *)
Definition entries_ok (E : gmap Z (entry V)) : Prop := forall a d, E !! a = Some d ->
  0 < n_refs d < 2 ^ 32 /\ 0 < n_charge d < 2 ^ 32 /\ is_Some (n_value d).

Definition unique_keys A : Prop := forall a b key hash, a ∈ s_listed A -> b ∈ s_listed A ->
  matches (s_entries A) key hash a = true -> matches (s_entries A) key hash b = true -> a = b.

Lemma without_middle (l1 l2 : list Z) a : NoDup (l1 ++ a :: l2) -> without a (l1 ++ a :: l2) = l1 ++ l2.
Proof.
  intros (Hnd & Ha & Hnd')%NoDup_app. apply NoDup_cons in Hnd' as [Ha' _]. unfold without. rewrite filter_app, filter_cons_False by tauto.
  rewrite !filter_all; [done| |]; apply Forall_forall; intros x Hx ->; [done|]. by apply (Ha a Hx); left.
Qed.

Lemma without_perm (l : list Z) a : NoDup l -> a ∈ l -> l ≡ₚ a :: without a l.
Proof. intros Hnd (l1 & l2 & ->)%list_elem_of_split. rewrite without_middle by done. by rewrite Permutation_middle. Qed.

Lemma elem_of_without (l : list Z) a x : x ∈ without a l <-> x <> a /\ x ∈ l.
Proof. unfold without. by rewrite list_elem_of_filter. Qed.

Lemma spec_unref_frame a A : s_listed (spec_unref a A) = s_listed A /\ s_capacity (spec_unref a A) = s_capacity A.
Proof. unfold spec_unref. by repeat case_match. Qed.

Lemma LRU_Unref_ok c h A T a d : rep c A T -> entries_ok (s_entries A) -> owned h A -> s_entries A !! a = Some d ->
  (n_refs d = 1 -> a ∉ s_listed A /\ a ∉ T) ->
  exists c' h', Unref c h a = Some (c', h') /\ rep c' (spec_unref a A) T /\ heap_step h A h' (spec_unref a A).
Proof.
  intros [Hcap Hus Hdel Hc] Hok Ho Hd Hlast. destruct (Hok a d Hd) as (Hr & Hch & [v Hv]).
  destruct (core_cell _ _ _ _ _ a d Hc Hd) as (e & He & Hed & Hk). assert (is_Some (s_entries A !! a)) as Hsome by (by exists d).
  unfold Unref, spec_unref. rewrite He, Hd. cbn [mbind option_bind].
  assert (e_refs e = n_refs d /\ e_charge e = n_charge d /\ e_value e = Some v) as (-> & Hec & Hev) by (rewrite <- Hv; by subst d).
  destruct (Z.ltb_spec 0 (n_refs d)); [|lia]. cbn [negb set_refs e_refs].
  destruct (Z.eqb_spec (n_refs d) 1) as [E1|E1].
  - destruct (Hlast E1) as [Hal HaT]. destruct (Z.leb_spec (n_refs d - 1) 0); [|lia].
    change (e_key a _) with (e_key a e). rewrite Hk. cbn [mbind option_bind e_value e_charge set_refs]. rewrite Hev, Hv. cbn [mbind option_bind].
    eexists _, _. split; [done|]. split; [split; cbn|split].
    + done.
    + rewrite Hus, Hec, (usage_delete _ a d Hd). unfold u64. rewrite Zminus_mod_idemp_l. f_equal. lia.
    + by rewrite Hdel.
    + by apply core_delete.
    + intros x [y Hy]. cbn in Hy. apply lookup_delete_Some in Hy as [Hx Hy]. apply (free_ok a h); [by apply Ho|]. split; [done|]. apply Ho. by exists y.
    + intros x Hx Hn. assert (x <> a) by congruence. split; [by apply (free_ok a h); [apply Ho|]|]. cbn. by rewrite lookup_delete_ne.
  - destruct (Z.leb_spec (n_refs d - 1) 0); [lia|]. eexists _, h. split; [done|].
    assert (with_refs (entry_of e) (n_refs d - 1) = with_refs d (n_refs d - 1)) as Hw by (by rewrite Hed).
    split; [split; cbn|split]; [done| |done| | |].
    + by rewrite (usage_update _ a d).
    + rewrite <- Hw. by apply core_refs.
    + intros x Hx. apply Ho. cbn in Hx. destruct (decide (x = a)) as [->|Hne]; [done|]. by rewrite lookup_insert_ne in Hx.
    + intros x Hx Hn. split; [done|]. cbn. rewrite lookup_insert_ne; [done|congruence].
Qed.

(** Taking a handle that the table no longer has out of the list. *)
Lemma drop_ok c h A T a : rep c A T -> entries_ok (s_entries A) -> owned h A -> a ∈ s_listed A -> a ∉ T ->
  exists m c' h', LRU_Remove (cells c) a = Some m /\ Unref (set_cells c m) h a = Some (c', h') /\
    rep c' (spec_drop a A) T /\ heap_step h A h' (spec_drop a A).
Proof.
  intros [Hcap Hus Hdel Hc] Hok Ho Hal HaT. pose proof (co_nodup _ _ _ _ _ Hc) as Hnd.
  destruct (co_listed _ _ _ _ _ Hc a Hal) as [d Hd]. apply list_elem_of_split in Hal as (l1 & l2 & Hl).
  rewrite Hl in Hc, Hnd. destruct (core_Remove _ _ _ _ _ _ _ Hc) as (m & Hm & Hc').
  assert (without a (s_listed A) = l1 ++ l2) as Hw by (rewrite Hl; by apply without_middle).
  destruct (LRU_Unref_ok (set_cells c m) h (relist A (l1 ++ l2)) T a d) as (c' & h' & Hu & Hrep & Hh); [by split|done|done|done| |].
  { intros _. split; [|done]. rewrite <- Hw. cbn. rewrite elem_of_without. tauto. }
  exists m, c', h'. unfold spec_drop. rewrite Hw. by split_and!.
Qed.

Lemma spec_find_Some A key hash a : unique_keys A -> a ∈ s_listed A -> matches (s_entries A) key hash a = true ->
  spec_find A key hash = Some a.
Proof.
  intros Hu Ha Hm. unfold spec_find. destruct (List.find _ _) as [b|] eqn:Hf.
  - apply find_some in Hf as [Hb Hmb]. f_equal. apply (Hu b a key hash); [by apply list_elem_of_In|done..].
  - rewrite (find_none _ _ Hf a) in Hm; [done|]. by apply list_elem_of_In.
Qed.

Lemma spec_find_None A key hash : (forall x, x ∈ s_listed A -> matches (s_entries A) key hash x = false) -> spec_find A key hash = None.
Proof.
  intros Hm. unfold spec_find. destruct (List.find _ _) as [b|] eqn:Hf; [|done].
  apply find_some in Hf as [Hb Hmb]. apply list_elem_of_In in Hb. rewrite Hm in Hmb by done. discriminate.
Qed.

Lemma rep_perm c A T T' : T ≡ₚ T' -> rep c A T -> rep c A T'.
Proof. intros HT [? ? ? Hc]. split; [done..|]. by eapply core_perm. Qed.

Lemma LRU_Erase_ok c h A key hash : rep c A (s_listed A) -> entries_ok (s_entries A) -> owned h A -> unique_keys A ->
  exists c' h', LRU_Erase c h key hash = Some (c', h') /\
    rep c' (spec_erase key hash A) (s_listed (spec_erase key hash A)) /\ heap_step h A h' (spec_erase key hash A).
Proof.
  intros Hrep Hok Ho Hu. pose proof Hrep as [Hcap Hus Hdel Hc]. pose proof (co_nodup _ _ _ _ _ Hc) as Hnd.
  destruct (core_Table_Remove _ _ _ _ _ key hash Hc) as (a & t & m & T & Ht & Hc' & Hcases).
  unfold LRU_Erase, spec_erase. rewrite Ht. cbn [mbind option_bind].
  assert (rep (set_table c t m) A T) as Hrep' by (by split).
  destruct Hcases as [(-> & HT & Hno)|(Hpa & HT & Hm)].
  - rewrite spec_find_None by done. eexists _, h. split; [done|]. split; [by eapply rep_perm|by apply heap_step_refl].
  - assert (a ∈ s_listed A) as Ha by (rewrite HT; by left). rewrite (spec_find_Some A key hash a) by done.
    destruct (Z.eqb_spec a 0); [lia|].
    assert (a ∉ T) as HaT by (rewrite HT in Hnd; by apply NoDup_cons in Hnd as []).
    destruct (drop_ok (set_table c t m) h A T a Hrep' Hok Ho Ha HaT) as (m' & c' & h' & Hm' & Hun & Hrep2 & Hh).
    exists c', h'. change (cells (set_table c t m)) with m in *. rewrite Hm'. cbn [mbind option_bind]. split; [done|]. split; [|done].
    eapply rep_perm; [|exact Hrep2]. unfold spec_drop. rewrite (proj1 (spec_unref_frame _ _)). cbn.
    rewrite (without_perm (s_listed A) a Hnd Ha) in HT. by apply Permutation_cons_inv in HT.
Qed.

Lemma LRU_Lookup_ok c A key hash : rep c A (s_listed A) -> entries_ok (s_entries A) -> unique_keys A ->
  (forall a d, s_entries A !! a = Some d -> n_refs d + 1 < 2 ^ 32) ->
  exists c', LRU_Lookup c key hash = Some ((spec_lookup key hash A).1, c') /\
    rep c' (spec_lookup key hash A).2 (s_listed (spec_lookup key hash A).2).
Proof.
  intros Hrep Hok Hu Hrefs. pose proof Hrep as [Hcap Hus Hdel Hc]. pose proof (co_nodup _ _ _ _ _ Hc) as Hnd.
  destruct (core_Lookup _ _ _ _ _ key hash Hc) as (a & Ht & Hcases). unfold LRU_Lookup, spec_lookup. rewrite Ht. cbn [mbind option_bind].
  destruct Hcases as [(-> & Hno)|(Hpa & Ha & Hm)].
  { rewrite spec_find_None by done. by eexists. }
  rewrite (spec_find_Some A key hash a) by done. cbn [fst snd s_listed spec_touch]. destruct (Z.eqb_spec a 0); [lia|].
  destruct (co_listed _ _ _ _ _ Hc a Ha) as [d Hd]. destruct (core_cell _ _ _ _ _ a d Hc Hd) as (e & He & Hed & _).
  rewrite He. cbn [mbind option_bind]. destruct (Hok a d Hd) as (Hr & _). specialize (Hrefs a d Hd).
  assert (u32 (e_refs e + 1) = n_refs d + 1) as ->.
  { rewrite <- Hed. cbn. unfold u32. apply Z.mod_small. rewrite <- Hed in Hr, Hrefs. cbn in *. lia. }
  pose proof (core_refs _ _ _ _ _ a e (n_refs d + 1) Hc He ltac:(by exists d)) as Hc1. rewrite Hed in Hc1.
  pose proof Ha as (l1 & l2 & Hl)%list_elem_of_split. rewrite Hl in Hc1 at 1. rewrite Hl in Hnd.
  destruct (core_Remove _ _ _ _ _ _ _ Hc1) as (m1 & -> & Hc2). cbn [mbind option_bind].
  assert (without a (s_listed A) = l1 ++ l2) as Hw by (rewrite Hl; by apply without_middle).
  destruct (core_Append _ _ _ a _ _ Hc2) as (m2 & -> & Hc3).
  { rewrite <- Hw, elem_of_without. tauto. }
  { rewrite lookup_insert_eq. by eexists. }
  cbn [mbind option_bind]. eexists. split; [done|]. rewrite Hw.
  pose proof (alter_insert_Some (fun d => with_refs d (n_refs d + 1)) _ a d Hd) as Halt. cbn in Halt.
  split; cbn; [done| |done|].
  - rewrite Halt, (usage_update _ a d); done.
  - rewrite Halt, Hw. eapply core_perm; [|exact Hc3]. rewrite Hl. solve_Permutation.
Qed.

(** ** Insertion and eviction *)

Lemma matches_Some (E : gmap Z (entry V)) key hash a : matches E key hash a = true ->
  exists d, E !! a = Some d /\ n_hash d = hash /\ n_key d = key.
Proof.
  unfold matches. destruct (E !! a) as [d|]; [|done]. intros [Hh%Z.eqb_eq Hk%bool_decide_eq_true]%andb_true_iff. by exists d.
Qed.

Lemma matches_entry (E : gmap Z (entry V)) a d : E !! a = Some d -> matches E (n_key d) (n_hash d) a = true.
Proof. intros Hd. unfold matches. rewrite Hd, Z.eqb_refl. by rewrite bool_decide_eq_true_2. Qed.

Lemma spec_unref_entry a A x d' : s_entries (spec_unref a A) !! x = Some d' ->
  exists d, s_entries A !! x = Some d /\ n_key d' = n_key d /\ n_hash d' = n_hash d /\ n_value d' = n_value d /\ n_charge d' = n_charge d /\
    n_refs d' = n_refs d - (if decide (x = a) then 1 else 0) /\ (x = a -> n_refs d <> 1).
Proof.
  unfold spec_unref. destruct (s_entries A !! a) as [d|] eqn:Hd.
  - destruct (Z.eqb_spec (n_refs d) 1) as [E1|E1]; cbn; intros Hx.
    + apply lookup_delete_Some in Hx as [Hne Hx]. exists d'. rewrite decide_False by done. split_and!; [done..|lia|done].
    + destruct (decide (x = a)) as [->|Hne].
      * rewrite lookup_insert_eq in Hx. simplify_eq. by exists d.
      * rewrite lookup_insert_ne in Hx by done. exists d'. split_and!; [done..|lia|done].
  - intros Hx. exists d'. split_and!; [done..| |intros ->; congruence]. rewrite decide_False by congruence. lia.
Qed.

Lemma spec_unref_ok a A : entries_ok (s_entries A) -> entries_ok (s_entries (spec_unref a A)).
Proof.
  intros Hok x d' (d & Hd & _ & _ & Hv & Hc & Hr & Hne)%spec_unref_entry. destruct (Hok x d Hd) as (? & ? & ?).
  rewrite Hv, Hc, Hr. split_and!; [case_decide as Hx; [specialize (Hne Hx)|]; lia|case_decide; lia|lia|lia|done].
Qed.

Lemma spec_unref_unique a A : unique_keys A -> unique_keys (spec_unref a A).
Proof.
  intros Hu x y key hash. rewrite (proj1 (spec_unref_frame a A)). intros Hx Hy Hmx Hmy.
  assert (forall z, matches (s_entries (spec_unref a A)) key hash z = true -> matches (s_entries A) key hash z = true) as Hm.
  { intros z (d & (d0 & Hd0 & Hk & Hh & _)%spec_unref_entry & <- & <-)%matches_Some. rewrite Hk, Hh. by apply matches_entry. }
  by apply (Hu x y key hash); [| |apply Hm..].
Qed.

Lemma relist_unique A l : unique_keys A -> (forall x, x ∈ l -> x ∈ s_listed A) -> unique_keys (relist A l).
Proof. intros Hu Hl x y key hash Hx Hy. apply Hu; by apply Hl. Qed.

Lemma spec_unref_usage a A : entries_ok (s_entries A) -> usage (s_entries (spec_unref a A)) <= usage (s_entries A).
Proof.
  intros Hok. unfold spec_unref. destruct (s_entries A !! a) as [d|] eqn:Hd; [|done]. destruct (n_refs d =? 1); cbn.
  - rewrite (usage_delete (s_entries A) a d Hd). destruct (Hok a d Hd) as (_ & ? & _). lia.
  - by rewrite (usage_update _ a d).
Qed.

Lemma core_lru (m : gmap Z (LRUHandle V)) t l T' E : core m t l T' E -> exists e, m !! lru = Some e /\ e_next e = default lru (head l).
Proof.
  intros Hc. destruct (co_memory _ _ _ _ _ Hc) as (nx & pv & ln & bs & Hv & _ & Hr & _).
  assert (nx !! lru = Some (default lru (head l))) as Hn.
  { unfold ring in Hr. destruct l as [|a l]; cbn in Hr; by apply Forall2_cons in Hr as [[? _] _]. }
  exact (view_cell e_next m nx lru _ (view_next _ _ _ _ _ Hv) Hn).
Qed.

Record shard_ok c h A : Prop := {
  so_rep : rep c A (s_listed A);
  so_entries : entries_ok (s_entries A);
  so_owned : owned h A;
  so_unique : unique_keys A;
}.

Lemma shard_nodup c h A : shard_ok c h A -> NoDup (s_listed A).
Proof. intros [[_ _ _ Hc] _ _ _]. apply (co_nodup _ _ _ _ _ Hc). Qed.

Lemma usage_exact c h A : shard_ok c h A -> usage (s_entries A) < 2 ^ 64 -> usage_ c = usage (s_entries A).
Proof.
  intros [[_ -> _ _] Hok _ _] Hlt. unfold u64. apply Z.mod_small. split; [|done]. apply usage_nonneg. intros a d Hd.
  destruct (Hok a d Hd) as (_ & ? & _). lia.
Qed.

(** One turn of the eviction loop. *)
Lemma evict_step c h A a l : shard_ok c h A -> s_listed A = a :: l ->
  exists m e t m' c' h', LRU_Remove (cells c) a = Some m /\ m !! a = Some e /\ e_key a e = Some (e_key_data e) /\
    Table_Remove (table_ c) m (e_key_data e) (e_hash e) = Some (a, t, m') /\ Unref (set_table c t m') h a = Some (c', h') /\
    shard_ok c' h' (spec_drop a A) /\ s_listed (spec_drop a A) = l /\ heap_step h A h' (spec_drop a A).
Proof.
  intros Hso Hl. pose proof (shard_nodup _ _ _ Hso) as Hnd. rewrite Hl in Hnd. destruct Hso as [[Hcap Hus Hdel Hc] Hok Ho Hu].
  pose proof (co_listed _ _ _ _ _ Hc a ltac:(rewrite Hl; by left)) as [d Hd]. rewrite Hl in Hc.
  destruct (core_Remove _ _ [] a l _ _ Hc) as (m & Hm & Hc1). cbn [app] in Hc1.
  destruct (core_cell _ _ _ _ _ a d Hc1 Hd) as (e & He & Hed & Hk). assert (n_key d = e_key_data e /\ n_hash d = e_hash e) as [Hek Heh] by (by subst d).
  destruct (core_Table_Remove _ _ _ _ _ (e_key_data e) (e_hash e) Hc1) as (a' & t & m' & T & Ht & Hc2 & Hcases).
  assert (matches (s_entries A) (e_key_data e) (e_hash e) a = true) as Hma by (rewrite <- Hek, <- Heh; by apply matches_entry).
  destruct Hcases as [(_ & _ & Hno)|(Hpa & HT & Hm')]; [by rewrite Hno in Hma by left|].
  assert (a' = a) as ->.
  { apply (Hu a' a (e_key_data e) (e_hash e)); [|rewrite Hl; by left|done..]. rewrite Hl, HT. by left. }
  apply Permutation_cons_inv in HT. assert (without a (s_listed A) = l) as Hw.
  { rewrite Hl. by apply (without_middle [] l a). }
  destruct (LRU_Unref_ok (set_table c t m') h (relist A l) l a d) as (c' & h' & Hun & Hrep & Hh); [|done|done|done| |].
  { split; [done..|]. cbn. by eapply core_perm. }
  { intros _. apply NoDup_cons in Hnd as [? _]. done. }
  exists m, e, t, m', c', h'. unfold spec_drop. rewrite Hw.
  assert (s_listed (spec_unref a (relist A l)) = l) as Hl' by (by rewrite (proj1 (spec_unref_frame _ _))).
  split_and!; [done|done|by rewrite Hk, Hek|done|done| |done|done].
  split; [by rewrite Hl'|by apply spec_unref_ok|apply Hh|].
  apply spec_unref_unique, relist_unique; [done|]. intros x Hx. rewrite Hl. by right.
Qed.

Lemma evict_ok l : forall fuel c h A, shard_ok c h A -> s_listed A = l -> usage (s_entries A) < 2 ^ 64 -> (length l < fuel)%nat ->
  exists c' h', evict fuel c h = Some (c', h') /\ shard_ok c' h' (spec_evict l A) /\ heap_step h A h' (spec_evict l A).
Proof.
  induction l as [|a l IH]; intros [|fuel] c h A Hso Hl Hus Hf; cbn in Hf; try lia; cbn [evict spec_evict];
    pose proof (usage_exact _ _ _ Hso Hus) as Hue; pose proof (so_rep _ _ _ Hso) as [Hcap _ _ Hc];
    destruct (core_lru _ _ _ _ _ Hc) as (e0 & He0 & Hn); rewrite Hl in Hn; cbn in Hn; rewrite He0; cbn [mbind option_bind]; rewrite Hn, Hcap, Hue.
  - rewrite Z.eqb_refl, andb_false_r. exists c, h. split_and!; [done|done|]. apply heap_step_refl. apply Hso.
  - assert (a <> lru) as Hne. { eapply core_ne; [exact Hc|]. apply (co_listed _ _ _ _ _ Hc). rewrite Hl. by left. }
    destruct (Z.eqb_spec a lru); [done|]. cbn [negb]. rewrite andb_true_r. destruct (s_capacity A <? usage (s_entries A)).
    + destruct (evict_step c h A a l Hso Hl) as (m & e & t & m' & c1 & h1 & -> & He & Hk & Ht & Hun & Hso1 & Hl1 & Hh1).
      cbn [mbind option_bind]. rewrite He. cbn [mbind option_bind]. rewrite Hk. cbn [mbind option_bind]. rewrite Ht. cbn [mbind option_bind].
      rewrite Hun. cbn [mbind option_bind].
      destruct (IH fuel c1 h1 (spec_drop a A) Hso1 Hl1) as (c2 & h2 & Hev & Hso2 & Hh2); [|lia|].
      { eapply Z.le_lt_trans; [apply spec_unref_usage|exact Hus]. apply (so_entries _ _ _ Hso). }
      exists c2, h2. split_and!; [done|done|]. by eapply heap_step_trans.
    + exists c, h. split_and!; [done|done|]. apply heap_step_refl. apply Hso.
Qed.

Lemma spec_add_ok a key hash value charge A : entries_ok (s_entries A) -> 0 < charge < 2 ^ 32 ->
  entries_ok (s_entries (spec_add a key hash value charge A)).
Proof.
  intros Hok Hc x d. cbn. destruct (decide (x = a)) as [->|Hne].
  - rewrite lookup_insert_eq. intros [= <-]. cbn. by split_and!; [lia..|].
  - rewrite lookup_insert_ne by done. apply Hok.
Qed.

(** The keys stay distinct once the old handle of [key] is out. *)
Lemma spec_add_unique a key hash value charge A l : unique_keys A -> s_entries A !! a = None ->
  (forall x, x ∈ l -> x = a \/ x ∈ s_listed A /\ matches (s_entries A) key hash x = false) ->
  unique_keys (relist (spec_add a key hash value charge A) l).
Proof.
  intros Hu Ha Hl x y k hs. cbn [relist s_listed s_entries spec_add]. intros Hx Hy Hmx Hmy.
  assert (forall z, z <> a -> matches (<[a := mkEntry V (Some value) charge 2 hash key]> (s_entries A)) k hs z = matches (s_entries A) k hs z) as Hne.
  { intros z Hz. unfold matches. by rewrite lookup_insert_ne. }
  assert (matches (<[a := mkEntry V (Some value) charge 2 hash key]> (s_entries A)) k hs a = true -> k = key /\ hs = hash) as Hat.
  { intros (d & Hd & <- & <-)%matches_Some. rewrite lookup_insert_eq in Hd. by simplify_eq/=. }
  destruct (decide (x = a)) as [->|Hxa], (decide (y = a)) as [->|Hya]; [done|..].
  - destruct (Hat Hmx) as [-> ->]. destruct (Hl y Hy) as [|[_ Hf]]; [done|]. rewrite Hne, Hf in Hmy by done. discriminate.
  - destruct (Hat Hmy) as [-> ->]. destruct (Hl x Hx) as [|[_ Hf]]; [done|]. rewrite Hne, Hf in Hmx by done. discriminate.
  - rewrite Hne in Hmx, Hmy by done. destruct (Hl x Hx) as [|[Hx' _]], (Hl y Hy) as [|[Hy' _]]; [done..|]. by apply (Hu x y k hs).
Qed.

(** [Insert] between the hash table and the eviction loop: the handle that was
    replaced is dropped. *)
Lemma replace_ok c h A a key hash value charge T old : let A1 := spec_add a key hash value charge A in
  rep c A1 T -> owned h A1 -> entries_ok (s_entries A1) -> unique_keys A -> s_entries A !! a = None ->
  NoDup (s_listed A) -> a ∉ s_listed A ->
  (old = 0 /\ T ≡ₚ a :: s_listed A /\ (forall x, x ∈ s_listed A -> matches (s_entries A1) key hash x = false) \/
   0 < old /\ old ∈ s_listed A /\ old :: T ≡ₚ a :: s_listed A /\ matches (s_entries A1) key hash old = true) ->
  exists c' h', (if old =? 0 then Some (c, h) else m ← LRU_Remove (cells c) old; Unref (set_cells c m) h old) = Some (c', h') /\
    shard_ok c' h' (spec_replace a key hash value charge A) /\ heap_step h A1 h' (spec_replace a key hash value charge A) /\
    usage (s_entries (spec_replace a key hash value charge A)) <= usage (s_entries A1).
Proof.
  intros A1 Hrep Ho Hok Hu Ha Hnd Hal Hcases.
  assert (forall x, x ∈ s_listed A -> matches (s_entries A1) key hash x = matches (s_entries A) key hash x) as Hmx.
  { intros x Hx. unfold matches. cbn. rewrite lookup_insert_ne; [done|congruence]. }
  unfold spec_replace. fold A1. destruct Hcases as [(-> & HT & Hno)|(Hpo & HoT & HT & Hm)].
  - rewrite Z.eqb_refl. exists c, h. split; [done|]. rewrite spec_find_None by (intros x Hx; rewrite <- Hmx by done; by apply Hno).
    split_and!; [|by apply heap_step_refl|done]. split; [|done|done|].
    + eapply rep_perm; [|exact Hrep]. rewrite HT. apply Permutation_cons_append.
    + apply (spec_add_unique a key hash value charge A (s_listed A ++ [a])); [done|done|].
      intros x [Hx| ->%list_elem_of_singleton]%elem_of_app; [right|by left]. split; [done|]. rewrite <- Hmx by done. by apply Hno.
  - rewrite Hmx in Hm by done. rewrite (spec_find_Some A key hash old) by done. destruct (Z.eqb_spec old 0); [lia|].
    assert (NoDup (s_listed A ++ [a])) as Hnd1 by (rewrite <- Permutation_cons_append; by constructor).
    assert (NoDup (old :: T)) as HndT by (rewrite HT; by constructor). apply NoDup_cons in HndT as [HoldT _].
    destruct (drop_ok _ h A1 T old Hrep Hok Ho) as (m & c' & h' & -> & Hun & Hrep' & Hh); [cbn; set_solver|done|].
    exists c', h'. cbn [mbind option_bind]. split; [done|].
    assert (s_listed (spec_drop old A1) = without old (s_listed A ++ [a])) as Hl by (unfold spec_drop; by rewrite (proj1 (spec_unref_frame _ _))).
    split_and!; [split; [|by apply spec_unref_ok|apply Hh|]|done|exact (spec_unref_usage old (relist A1 (without old (s_listed A1))) Hok)].
    + eapply rep_perm; [|exact Hrep']. rewrite Hl. apply (Permutation_cons_inv (a := old)).
      rewrite <- without_perm; [rewrite HT; apply Permutation_cons_append|done|set_solver].
    + apply spec_unref_unique. apply (spec_add_unique a key hash value charge A); [done|done|]. cbn.
      intros x [Hxo [Hx| ->%list_elem_of_singleton]%elem_of_app]%elem_of_without; [right|by left]. split; [done|].
      destruct (matches (s_entries A) key hash x) eqn:E0; [|done]. exfalso. apply Hxo. by apply (Hu x old key hash).
Qed.

Lemma malloc_step n c h A key hash value charge a h' : shard_ok c h A -> malloc n h = (a, h') ->
  s_entries A !! a = None /\ a ∉ s_listed A /\ 0 < a /\ ~ allocated h a /\ heap_step h A h' (spec_add a key hash value charge A).
Proof.
  intros [[_ _ _ Hc] Hok Ho _] Hm. destruct (malloc_ok _ _ _ _ Hm) as (Hpa & Hfresh & Hall).
  assert (s_entries A !! a = None) as Ha. { destruct (s_entries A !! a) eqn:E0; [|done]. exfalso. by apply Hfresh, Ho; exists e. }
  split_and!; [done| |done|done|split].
  - intros Hin. destruct (co_listed _ _ _ _ _ Hc a Hin). congruence.
  - intros x. cbn. intros Hx. apply Hall. destruct (decide (x = a)) as [->|Hne]; [by left|right]. rewrite lookup_insert_ne in Hx by done. by apply Ho.
  - intros x Hx Hn. assert (x <> a) by (intros ->; by apply Hfresh). split; [apply Hall; by right|]. cbn. by rewrite lookup_insert_ne.
Qed.

Lemma listed_fuel c h A : shard_ok c h A -> (length (s_listed A) < S (size (cells c)))%nat.
Proof.
  intros Hso. apply le_n_S, length_le_size; [by eapply shard_nodup|]. intros x Hx. destruct (so_rep _ _ _ Hso) as [_ _ _ Hc].
  destruct (co_listed _ _ _ _ _ Hc x Hx) as [d Hd]. destruct (core_cell _ _ _ _ _ x d Hc Hd) as (e & -> & _). by eexists.
Qed.

Lemma LRU_Insert_ok c h A key hash value charge : shard_ok c h A -> 0 < charge < 2 ^ 32 -> blen (s_listed A) + 1 <= 2 ^ 31 ->
  usage (s_entries A) + charge < 2 ^ 64 ->
  exists a c' h', LRU_Insert c h key hash value charge = Some (a, c', h') /\ 0 < a /\ ~ allocated h a /\
    shard_ok c' h' (spec_insert a key hash value charge A) /\ heap_step h A h' (spec_insert a key hash value charge A).
Proof.
  intros Hso Hch Hlen Hus. pose proof (shard_nodup _ _ _ Hso) as Hnd.
  unfold LRU_Insert. destruct (malloc _ h) as [a h1] eqn:Ema.
  destruct (malloc_step _ _ _ _ key hash value charge _ _ Hso Ema) as (Ha & Hal & Hpa & Hfresh & Hh1).
  destruct Hso as [[Hcap Hu Hdel Hc] Hok Ho Huniq].
  pose proof (core_new _ _ _ _ _ a (mkLRUHandle (Some value) 0 0 0 charge 2 hash key) Hc Ha Hpa ltac:(cbn; lia)) as Hc1.
  destruct (core_Append _ _ _ a _ _ Hc1 Hal) as (m1 & -> & Hc2); [by rewrite lookup_insert_eq; eexists|]. cbn [mbind option_bind cells table_].
  destruct (core_Table_Insert _ _ _ _ _ a _ Hc2 (lookup_insert_eq _ _ _) Hal Hlen) as (old & t & m2 & T & -> & Hc3 & Hcases).
  cbn [mbind option_bind]. set (A1 := spec_add a key hash value charge A) in *.
  assert (usage (s_entries A1) = usage (s_entries A) + charge) as Hus1 by (cbn; rewrite usage_insert by done; cbn; lia).
  match goal with |- context [set_table ?c t m2] => set (c1 := set_table c t m2) end.
  assert (rep c1 A1 T) as Hrep1.
  { split; cbn; [done| |done|done]. rewrite Hu, usage_insert by done. cbn. unfold u64. rewrite Zplus_mod_idemp_l. f_equal. lia. }
  destruct (replace_ok c1 h1 A a key hash value charge T old Hrep1 (proj1 Hh1) (spec_add_ok a key hash value charge A Hok Hch) Huniq Ha Hnd Hal Hcases)
    as (c2 & h2 & -> & Hso2 & Hh2 & Hus2).
  cbn [mbind option_bind]. unfold spec_insert. set (A2 := spec_replace a key hash value charge A) in *.
  destruct (evict_ok (s_listed A2) (S (size (cells c2))) c2 h2 A2 Hso2 eq_refl) as (c3 & h3 & -> & Hso3 & Hh3); [fold A1 in Hus2; lia|by eapply listed_fuel|].
  cbn [mbind option_bind]. exists a, c3, h3. split_and!; [done|done|done|done|]. eapply heap_step_trans; [exact Hh1|by eapply heap_step_trans].
Qed.

End refinement.

(** * Pins *)

Section pins.
Context {V : Type}.
Implicit Types (A : LRU_spec V) (p : list (Z * V)) (E : gmap Z (entry V)).

(** How often the clients that hold [p] hold [a]. *)
Definition pins_of p (a : Z) : Z := blen (filter (fun x => x = a) p.*1).

(** [pins_ok A p]: the references of a handle are the clients' and that of the
    cache, and the clients see the values they were given. *)
Record pins_ok A p : Prop := {
  pk_nodup : NoDup (s_listed A);
  pk_listed a : a ∈ s_listed A -> is_Some (s_entries A !! a);
  pk_entries : entries_ok (s_entries A);
  pk_refs a d : s_entries A !! a = Some d -> n_refs d = pins_of p a + (if decide (a ∈ s_listed A) then 1 else 0);
  pk_value a v : (a, v) ∈ p -> exists d, s_entries A !! a = Some d /\ n_value d = Some v;
}.

(** What is cached fits the capacity. *)
Definition fits A : Prop := charges (s_entries A) (s_listed A) <= s_capacity A.

Lemma pins_of_cons a v p x : pins_of ((a, v) :: p) x = pins_of p x + (if decide (x = a) then 1 else 0).
Proof.
  unfold pins_of. rewrite fmap_cons, filter_cons. cbn [fst]. destruct (decide (a = x)) as [->|Hne].
  - rewrite decide_True by done. rewrite blen_cons. lia.
  - rewrite decide_False by done. lia.
Qed.

Lemma pins_of_pos a v p : (a, v) ∈ p -> 0 < pins_of p a.
Proof.
  intros Hin. unfold pins_of, blen. enough (0 < length (filter (fun x => x = a) p.*1))%nat by lia.
  assert (a ∈ filter (fun x => x = a) p.*1) as Ha. { apply list_elem_of_filter. split; [done|]. by apply (list_elem_of_fmap_2 fst _ (a, v)). }
  destruct (filter _ _); [by apply elem_of_nil in Ha|cbn; lia].
Qed.

Lemma pins_of_elem a p : 0 < pins_of p a -> exists v, (a, v) ∈ p.
Proof.
  unfold pins_of. destruct (filter (fun x => x = a) p.*1) as [|y l] eqn:Hf; [done|]. intros _.
  assert (y ∈ filter (fun x => x = a) p.*1) as [-> Hy]%list_elem_of_filter by (rewrite Hf; by left).
  apply list_elem_of_fmap in Hy as ([a' v] & -> & Hin). by exists v.
Qed.

Lemma pins_of_perm p q x : p ≡ₚ q -> pins_of p x = pins_of q x.
Proof. intros Hp. unfold pins_of, blen. by rewrite Hp. Qed.

Lemma pins_of_le p x : 0 <= pins_of p x <= blen p.
Proof. unfold pins_of, blen. pose proof (length_filter (fun y => y = x) p.*1) as Hl. rewrite length_fmap in Hl. lia. Qed.

Lemma pins_of_0 p x : pins_of p x = 0 -> forall v, (x, v) ∉ p.
Proof. intros Hp v Hin%pins_of_pos. lia. Qed.

Lemma pins_ok_perm A p q : p ≡ₚ q -> pins_ok A p -> pins_ok A q.
Proof.
  intros Hpq [H1 H2 H3 H4 H5]. split; [done..| |].
  - intros a d Hd. rewrite <- (pins_of_perm p q a Hpq). by apply H4.
  - intros a v. rewrite <- Hpq. apply H5.
Qed.

(** Dropping a reference: one the list has just given up, or one of a client. *)
Lemma pins_unref A A0 p q a d : pins_ok A p -> s_entries A0 = s_entries A -> s_entries A !! a = Some d ->
  NoDup (s_listed A0) -> (forall x, x ∈ s_listed A0 -> x ∈ s_listed A) ->
  (forall x, pins_of q x + (if decide (x ∈ s_listed A0) then 1 else 0) + (if decide (x = a) then 1 else 0) =
             pins_of p x + (if decide (x ∈ s_listed A) then 1 else 0)) ->
  (forall x v, (x, v) ∈ q -> (x, v) ∈ p) -> pins_ok (spec_unref a A0) q.
Proof.
  intros [H1 H2 H3 H4 H5] HE Hd Hnd Hsub Hcount Hq. pose proof (H4 a d Hd) as Hrd. pose proof (Hcount a) as Hca. rewrite (decide_True (P := a = a)) in Hca by done.
  pose proof (pins_of_le q a) as Hqa.
  assert (n_refs d = 1 -> a ∉ s_listed A0 /\ forall v, (a, v) ∉ q) as Hlast.
  { intros E1. case_decide; [lia|]. split; [done|]. apply pins_of_0. lia. }
  assert (forall x d', s_entries A !! x = Some d' -> (x = a -> n_refs d <> 1) -> exists d'', s_entries (spec_unref a A0) !! x = Some d'' /\ n_value d'' = n_value d') as Hkeep.
  { intros x d' Hx Hne. unfold spec_unref. rewrite HE, Hd. destruct (Z.eqb_spec (n_refs d) 1) as [E1|E1]; cbn.
    - exists d'. rewrite lookup_delete_ne by (intros ->; by apply Hne). done.
    - destruct (decide (x = a)) as [->|Hxa]; [rewrite lookup_insert_eq; simplify_eq; by eexists|rewrite lookup_insert_ne by done; by exists d']. }
  split.
  - by rewrite (proj1 (spec_unref_frame a A0)).
  - rewrite (proj1 (spec_unref_frame a A0)). intros x Hx. destruct (H2 x (Hsub x Hx)) as [d' Hd'].
    destruct (Hkeep x d' Hd') as (d'' & Hd'' & _); [|by exists d'']. intros -> E1. by apply Hlast in Hx.
  - apply spec_unref_ok. by rewrite HE.
  - rewrite (proj1 (spec_unref_frame a A0)). intros x d' (d0 & Hd0 & _ & _ & _ & _ & -> & _)%spec_unref_entry. rewrite HE in Hd0.
    rewrite (H4 x d0 Hd0), <- Hcount. lia.
  - intros x v Hx. destruct (H5 x v (Hq x v Hx)) as (d' & Hd' & Hv). destruct (Hkeep x d' Hd') as (d'' & Hd'' & Hv'').
    + intros -> E1. by apply (proj2 (Hlast E1) v).
    + exists d''. by rewrite Hv''.
Qed.

Lemma pins_release A p a v : pins_ok A ((a, v) :: p) -> pins_ok (spec_unref a A) p.
Proof.
  intros Hp. destruct (pk_value _ _ Hp a v ltac:(by left)) as (d & Hd & _).
  eapply (pins_unref A A ((a, v) :: p) p a d); [done|done|done|by apply Hp|done| |].
  - intros x. rewrite pins_of_cons. lia.
  - intros x w Hx. by right.
Qed.

Lemma pins_drop A p a : pins_ok A p -> a ∈ s_listed A -> pins_ok (spec_drop a A) p.
Proof.
  intros Hp Ha. destruct (pk_listed _ _ Hp a Ha) as [d Hd].
  eapply (pins_unref A (relist A (without a (s_listed A))) p p a d); [done|done|done| | | |done]; cbn.
  - apply NoDup_filter, Hp.
  - intros x. rewrite elem_of_without. tauto.
  - intros x. destruct (decide (x = a)) as [->|Hne].
    + rewrite decide_False by (rewrite elem_of_without; tauto). rewrite decide_True by done. lia.
    + rewrite (decide_ext (x ∈ without a (s_listed A)) (x ∈ s_listed A)) by (rewrite elem_of_without; tauto). lia.
Qed.

Lemma pins_add A p a key hash value charge : pins_ok A p -> s_entries A !! a = None -> 0 < charge < 2 ^ 32 ->
  pins_ok (spec_add a key hash value charge A) ((a, value) :: p).
Proof.
  intros [H1 H2 H3 H4 H5] Ha Hc.
  assert (a ∉ s_listed A) as Hal by (intros Hin; destruct (H2 a Hin); congruence).
  assert (forall x, x <> a -> (x ∈ s_listed A ++ [a] <-> x ∈ s_listed A)) as Hx by set_solver.
  assert (pins_of p a = 0) as Hp0.
  { destruct (decide (pins_of p a = 0)) as [|Hne]; [done|exfalso]. pose proof (pins_of_le p a) as Hle.
    destruct (pins_of_elem a p) as [v Hin]; [lia|]. destruct (H5 a v Hin) as (d & Hd & _). congruence. }
  split; cbn.
  - rewrite <- Permutation_cons_append. by constructor.
  - intros x. destruct (decide (x = a)) as [->|Hne]; [rewrite lookup_insert_eq; by eexists|]. rewrite lookup_insert_ne, Hx by done. apply H2.
  - by apply spec_add_ok.
  - intros x d. rewrite pins_of_cons. destruct (decide (x = a)) as [->|Hne].
    + rewrite lookup_insert_eq, decide_True by set_solver. intros [= <-]. cbn. lia.
    + rewrite lookup_insert_ne by done. intros Hd. rewrite (H4 x d Hd), (decide_ext _ _ _ _ (Hx x Hne)). lia.
  - intros x v [[= -> ->]|Hin]%elem_of_cons; [rewrite lookup_insert_eq; by eexists|].
    destruct (H5 x v Hin) as (d & Hd & Hv). exists d. rewrite lookup_insert_ne by congruence. done.
Qed.

Lemma touch_entry a A x d' : s_entries (spec_touch a A) !! x = Some d' ->
  exists d, s_entries A !! x = Some d /\ n_key d' = n_key d /\ n_hash d' = n_hash d /\ n_value d' = n_value d /\ n_charge d' = n_charge d /\
    n_refs d' = n_refs d + (if decide (x = a) then 1 else 0).
Proof.
  cbn. destruct (decide (x = a)) as [->|Hne].
  - rewrite lookup_alter_eq. intros (d & Hd & ->)%fmap_Some. by exists d.
  - rewrite lookup_alter_ne by done. intros Hd. exists d'. split_and!; [done..|lia].
Qed.

Lemma touch_listed a A x : a ∈ s_listed A -> x ∈ s_listed (spec_touch a A) <-> x ∈ s_listed A.
Proof.
  intros Ha. cbn. rewrite elem_of_app, elem_of_without, list_elem_of_singleton. destruct (decide (x = a)) as [->|Hne]; tauto.
Qed.

Lemma unique_touch a A : a ∈ s_listed A -> unique_keys A -> unique_keys (spec_touch a A).
Proof.
  intros Ha Hu x y key hash. rewrite !touch_listed by done. intros Hx Hy Hmx Hmy.
  assert (forall z, matches (s_entries (spec_touch a A)) key hash z = true -> matches (s_entries A) key hash z = true) as Hm.
  { intros z (d & (d0 & Hd0 & Hk & Hh & _)%touch_entry & <- & <-)%matches_Some. rewrite Hk, Hh. by apply matches_entry. }
  by apply (Hu x y key hash); [| |apply Hm..].
Qed.

Lemma pins_touch A p a d v : pins_ok A p -> a ∈ s_listed A -> s_entries A !! a = Some d -> n_value d = Some v -> blen p + 2 < 2 ^ 32 ->
  pins_ok (spec_touch a A) ((a, v) :: p).
Proof.
  intros [H1 H2 H3 H4 H5] Ha Hd Hv Hn.
  assert (forall x dx, s_entries A !! x = Some dx -> exists d', s_entries (spec_touch a A) !! x = Some d' /\ n_value d' = n_value dx) as Hkeep.
  { intros x dx Hx. cbn. destruct (decide (x = a)) as [->|Hne]; [rewrite lookup_alter_eq, Hx; by eexists|rewrite lookup_alter_ne by done; by exists dx]. }
  assert (forall x d', s_entries (spec_touch a A) !! x = Some d' -> n_refs d' = pins_of ((a, v) :: p) x + (if decide (x ∈ s_listed A) then 1 else 0)) as Hr.
  { intros x d' (d0 & Hd0 & _ & _ & _ & _ & ->)%touch_entry. rewrite (H4 x d0 Hd0), pins_of_cons. lia. }
  split.
  - cbn. rewrite <- Permutation_cons_append, <- without_perm; done.
  - intros x. rewrite touch_listed by done. intros [dx Hx]%H2. destruct (Hkeep x dx Hx) as (d' & Hd' & _). by exists d'.
  - intros x d' Hd'. pose proof (Hr x d' Hd') as Hrx. pose proof (pins_of_le ((a, v) :: p) x) as Hle. rewrite blen_cons in Hle.
    apply touch_entry in Hd' as (d0 & Hd0 & _ & _ & -> & -> & Hr'). destruct (H3 x d0 Hd0) as (? & ? & ?).
    split_and!; [repeat case_decide; lia|repeat case_decide; lia|lia|lia|done].
  - intros x d' Hd'. rewrite (decide_ext _ _ _ _ (touch_listed a A x Ha)). by apply Hr.
  - intros x w [[= -> ->]|Hin]%elem_of_cons.
    + destruct (Hkeep a d Hd) as (d' & Hd' & Hv'). exists d'. by rewrite Hv'.
    + destruct (H5 x w Hin) as (dx & Hdx & Hw). destruct (Hkeep x dx Hdx) as (d' & Hd' & Hv'). exists d'. by rewrite Hv'.
Qed.

Lemma fits_touch A p a d : pins_ok A p -> a ∈ s_listed A -> s_entries A !! a = Some d -> fits A -> fits (spec_touch a A).
Proof.
  intros Hp Ha Hd Hf. unfold fits in *. cbn [s_capacity spec_touch]. etransitivity; [|exact Hf].
  rewrite (charges_perm _ _ (s_listed A)) by (cbn; rewrite <- Permutation_cons_append, <- without_perm; [done|apply Hp|done]).
  apply Z.eq_le_incl, charges_ext. intros x _. unfold charge_of. cbn.
  destruct (decide (x = a)) as [->|Hne]; [by rewrite lookup_alter_eq, Hd|by rewrite lookup_alter_ne].
Qed.

Lemma spec_drop_listed a A : s_listed (spec_drop a A) = without a (s_listed A) /\ s_capacity (spec_drop a A) = s_capacity A.
Proof. unfold spec_drop. by destruct (spec_unref_frame a (relist A (without a (s_listed A)))) as [-> ->]. Qed.

(** Eviction drops the oldest handles, and only until the rest fits. *)
Lemma spec_evict_spec l : forall A p, s_listed A = l -> pins_ok A p ->
  pins_ok (spec_evict l A) p /\ (exists n, s_listed (spec_evict l A) = drop n l) /\ s_capacity (spec_evict l A) = s_capacity A /\
  (usage (s_entries (spec_evict l A)) <= s_capacity A \/ s_listed (spec_evict l A) = []).
Proof.
  induction l as [|a l IH]; intros A p Hl Hp; cbn [spec_evict].
  - split_and!; [done|by exists O|done|by right].
  - destruct (Z.ltb_spec (s_capacity A) (usage (s_entries A))) as [Hlt|Hge].
    + assert (a ∈ s_listed A) as Ha by (rewrite Hl; by left). pose proof (pk_nodup _ _ Hp) as Hnd. rewrite Hl in Hnd.
      destruct (spec_drop_listed a A) as [Hdl Hdc]. pose proof (without_middle [] l a Hnd) as Hw. cbn [app] in Hw. rewrite Hl, Hw in Hdl.
      destruct (IH (spec_drop a A) p Hdl (pins_drop A p a Hp Ha)) as (H1 & [n Hn] & H2 & H3).
      split_and!; [done|by exists (S n)|congruence|by rewrite <- Hdc].
    + split_and!; [done|by exists O|done|by left].
Qed.

Lemma charges_le E l l' : (forall a d, E !! a = Some d -> 0 <= n_charge d) -> l ⊆+ l' -> charges E l <= charges E l'.
Proof.
  intros Hn. assert (forall a, 0 <= charge_of E a) as Hc.
  { intros a. unfold charge_of. destruct (E !! a) as [d|] eqn:Hd; cbn; [by eapply Hn|lia]. }
  unfold charges. induction 1; cbn; try (specialize (Hc x)); lia.
Qed.

(** The handles that are not listed are held by a client. *)
Lemma usage_split A p : pins_ok A p -> exists det, usage (s_entries A) = charges (s_entries A) (s_listed A) + charges (s_entries A) det /\
  (length det <= length p)%nat.
Proof.
  intros [H1 H2 H3 H4 H5]. set (det := filter (fun a => a ∉ s_listed A) (elements (dom (s_entries A)))).
  assert (forall a, a ∈ det <-> a ∉ s_listed A /\ is_Some (s_entries A !! a)) as Hdet.
  { intros a. unfold det. by rewrite list_elem_of_filter, elem_of_elements, elem_of_dom. }
  assert (NoDup det) as Hnd by apply NoDup_filter, NoDup_elements.
  exists det. split.
  - rewrite <- charges_app. apply usage_charges.
    + apply NoDup_app. split_and!; [done| |done]. intros a Ha Ha'. by apply Hdet in Ha' as [? _].
    + intros a. rewrite elem_of_app, Hdet. split; [intros [Ha|[_ Ha]]; [by apply H2|done]|]. intros Ha.
      destruct (decide (a ∈ s_listed A)); [by left|by right].
  - rewrite <- (length_fmap fst p). apply submseteq_length, NoDup_submseteq; [done|]. intros a [Hna [d Hd]]%Hdet.
    pose proof (H4 a d Hd) as Hr. rewrite decide_False in Hr by done. destruct (H3 a d Hd) as (Hpos & _).
    destruct (pins_of_elem a p) as [v Hin]; [lia|]. by apply (list_elem_of_fmap_2 fst _ (a, v)).
Qed.

Lemma usage_bound A p : pins_ok A p -> fits A -> usage (s_entries A) <= s_capacity A + (2 ^ 32 - 1) * blen p.
Proof.
  intros Hp Hf. destruct (usage_split A p Hp) as (det & -> & Hlen). unfold fits in Hf.
  assert (charges (s_entries A) det <= (2 ^ 32 - 1) * blen det) as Hd.
  { clear Hlen. induction det as [|a det IH]; [done|]. rewrite blen_cons. unfold charges in *. cbn.
    enough (charge_of (s_entries A) a <= 2 ^ 32 - 1) by lia. unfold charge_of.
    destruct (s_entries A !! a) as [d|] eqn:Hd; cbn; [|lia]. destruct (pk_entries _ _ Hp a d Hd) as (_ & ? & _). lia. }
  unfold blen in *. nia.
Qed.

Lemma entries_charge A p a d : pins_ok A p -> s_entries A !! a = Some d -> 0 <= n_charge d.
Proof. intros Hp Hd. destruct (pk_entries _ _ Hp a d Hd) as (_ & ? & _). lia. Qed.

Lemma charges_nonneg A p l : pins_ok A p -> 0 <= charges (s_entries A) l.
Proof. intros Hp. apply (charges_le _ [] l); [intros a d; by eapply entries_charge|apply submseteq_nil_l]. Qed.

(** A handle costs something, so few are listed. *)
Lemma listed_bound A p : pins_ok A p -> fits A -> blen (s_listed A) <= s_capacity A.
Proof.
  intros Hp Hf. etransitivity; [|exact Hf]. pose proof (pk_listed _ _ Hp) as Hl. induction (s_listed A) as [|a l IH]; [done|].
  rewrite blen_cons. unfold charges in *. cbn. destruct (Hl a ltac:(by left)) as [d Hd].
  assert (1 <= charge_of (s_entries A) a) as Hc.
  { unfold charge_of. rewrite Hd. destruct (pk_entries _ _ Hp a d Hd) as (_ & ? & _). cbn. lia. }
  specialize (IH ltac:(intros; apply Hl; by right)). lia.
Qed.

End pins.

(** * What is cached, and what was deleted *)

Section contents.
Context {V : Type}.
Implicit Types (A : LRU_spec V) (E : gmap Z (entry V)) (I : list (bytes * V)).

Definition spec_maps A (key : bytes) (hash : Z) (v : V) : Prop :=
  exists a d, a ∈ s_listed A /\ s_entries A !! a = Some d /\ n_key d = key /\ n_hash d = hash /\ n_value d = Some v.

Lemma maps_unref a A key hash v : spec_maps (spec_unref a A) key hash v -> spec_maps A key hash v.
Proof.
  intros (x & d' & Hx & (d & Hd & Hk & Hh & Hv & _)%spec_unref_entry & <- & <- & Hv').
  rewrite (proj1 (spec_unref_frame a A)) in Hx. exists x, d. split_and!; congruence.
Qed.

Lemma maps_drop a A key hash v : spec_maps (spec_drop a A) key hash v ->
  spec_maps A key hash v /\ (unique_keys A -> matches (s_entries A) key hash a = true -> a ∉ s_listed A).
Proof.
  intros (x & d & [Hxa Hx]%elem_of_without & Hd & <- & <- & Hv)%maps_unref. cbn in Hd. split; [by exists x, d|].
  intros Hu Hm Ha. apply Hxa. apply (Hu x a (n_key d) (n_hash d)); [done|done| |done]. by apply matches_entry.
Qed.

Lemma maps_evict l : forall A key hash v, spec_maps (spec_evict l A) key hash v -> spec_maps A key hash v.
Proof.
  induction l as [|a l IH]; intros A key hash v; cbn [spec_evict]; [done|]. case_match; [|done].
  intros Hm%IH%maps_drop. apply Hm.
Qed.

Lemma maps_add a key hash value charge A key' hash' v : s_entries A !! a = None -> unique_keys A ->
  (forall x, x ∈ s_listed A -> is_Some (s_entries A !! x)) ->
  spec_maps (spec_add a key hash value charge A) key' hash' v ->
  (key' = key /\ hash' = hash /\ v = value) \/ spec_maps A key' hash' v.
Proof.
  intros Ha Hu Hl (x & d & Hx & Hd & <- & <- & Hv). cbn in *. destruct (decide (x = a)) as [->|Hne].
  - rewrite lookup_insert_eq in Hd. simplify_eq/=. by left.
  - right. rewrite lookup_insert_ne in Hd by done. exists x, d. split_and!; [set_solver|done..].
Qed.

Lemma maps_find_None A key hash v : spec_find A key hash = None -> ~ spec_maps A key hash v.
Proof.
  intros Hf (a & d & Ha & Hd & <- & <- & _). apply list_elem_of_In in Ha. pose proof (find_none _ _ Hf a Ha) as Hm.
  rewrite matches_entry in Hm by done. discriminate.
Qed.

Lemma find_Some A key hash a : spec_find A key hash = Some a -> a ∈ s_listed A /\ matches (s_entries A) key hash a = true.
Proof. intros [Ha Hm]%find_some. apply list_elem_of_In in Ha. done. Qed.

Lemma maps_replace a key hash value charge A key' hash' v : s_entries A !! a = None -> unique_keys A ->
  (forall x, x ∈ s_listed A -> is_Some (s_entries A !! x)) ->
  spec_maps (spec_replace a key hash value charge A) key' hash' v ->
  (key' = key /\ hash' = hash /\ v = value) \/ (~ (key' = key /\ hash' = hash) /\ spec_maps A key' hash' v).
Proof.
  intros Ha Hu Hl. unfold spec_replace. destruct (spec_find A key hash) as [old|] eqn:Hf.
  - destruct (find_Some _ _ _ _ Hf) as [Hold Hm].
    intros (x & d & [Hxo Hx]%elem_of_without & Hd & <- & <- & Hv)%maps_unref. cbn in Hd, Hx.
    destruct (decide (x = a)) as [->|Hne]; [rewrite lookup_insert_eq in Hd; simplify_eq/=; by left|right].
    rewrite lookup_insert_ne in Hd by done. assert (x ∈ s_listed A) as Hx' by set_solver. split; [|by exists x, d].
    intros [Hk Hh]. apply Hxo. apply (Hu x old key hash); [done|done| |done]. rewrite <- Hk, <- Hh. by apply matches_entry.
  - intros [?|Hm]%maps_add; [by left|right|done..]. split; [|done]. intros [-> ->]. by eapply maps_find_None.
Qed.

Lemma maps_lookup key0 hash0 A key hash v : spec_maps (spec_lookup key0 hash0 A).2 key hash v -> spec_maps A key hash v.
Proof.
  unfold spec_lookup. destruct (spec_find A key0 hash0) as [a|] eqn:Hf; [|done]. destruct (find_Some _ _ _ _ Hf) as [Ha _].
  intros (x & d & Hx & (d0 & Hd0 & Hk & Hh & Hv' & _)%touch_entry & <- & <- & Hv). cbn [snd] in *. apply touch_listed in Hx; [|done].
  exists x, d0. split_and!; congruence.
Qed.

(** ** Every value that was inserted is alive or was deleted *)

Definition entry_pair (d : entry V) : list (bytes * V) := option_list (v ← n_value d; Some (n_key d, v)).
Definition live E : list (bytes * V) := map_to_list E ≫= fun ad => entry_pair ad.2.

Definition accounted A I : Prop := I ≡ₚ s_deleted A ++ live (s_entries A).

Lemma live_insert E a d : E !! a = None -> live (<[a := d]> E) ≡ₚ entry_pair d ++ live E.
Proof.
  intros Ha. unfold live. etransitivity; [apply bind_Permutation, (map_to_list_insert E a d Ha)|]. by rewrite bind_cons.
Qed.

Lemma live_delete E a d : E !! a = Some d -> live E ≡ₚ entry_pair d ++ live (delete a E).
Proof. intros Ha. rewrite <- live_insert by apply lookup_delete_eq. by rewrite insert_delete_id. Qed.

Lemma live_update E a d d' : E !! a = Some d -> entry_pair d' = entry_pair d -> live (<[a := d']> E) ≡ₚ live E.
Proof.
  intros Ha Hd. rewrite (live_delete E a d Ha), <- insert_delete_eq, live_insert by apply lookup_delete_eq. by rewrite Hd.
Qed.

Lemma accounted_unref a A I : accounted A I -> accounted (spec_unref a A) I.
Proof.
  unfold accounted, spec_unref. intros ->. destruct (s_entries A !! a) as [d|] eqn:Hd; [|done]. destruct (n_refs d =? 1); cbn.
  - rewrite (live_delete _ a d Hd). unfold entry_pair. by rewrite <- app_assoc.
  - by rewrite (live_update _ a d).
Qed.

Lemma accounted_drop a A I : accounted A I -> accounted (spec_drop a A) I.
Proof. intros HI. by apply accounted_unref. Qed.

Lemma accounted_evict l : forall A I, accounted A I -> accounted (spec_evict l A) I.
Proof. induction l as [|a l IH]; intros A I HI; cbn [spec_evict]; [done|]. case_match; [by apply IH, accounted_drop|done]. Qed.

Lemma accounted_insert a key hash value charge A I : s_entries A !! a = None -> accounted A I ->
  accounted (spec_insert a key hash value charge A) ((key, value) :: I).
Proof.
  intros Ha HI. apply accounted_evict.
  assert (accounted (spec_add a key hash value charge A) ((key, value) :: I)) as HI'.
  { unfold accounted in *. cbn. rewrite live_insert, HI by done. cbn. apply Permutation_middle. }
  unfold spec_replace. case_match; [by apply accounted_drop|done].
Qed.

Lemma accounted_lookup key hash A I : accounted A I -> accounted (spec_lookup key hash A).2 I.
Proof.
  unfold accounted, spec_lookup. intros ->. destruct (spec_find A key hash) as [a|]; [|done]. cbn. f_equiv.
  destruct (s_entries A !! a) as [d|] eqn:Hd.
  - by rewrite (alter_insert_Some _ _ a d Hd), (live_update _ a d).
  - enough (alter (fun d => with_refs d (n_refs d + 1)) a (s_entries A) = s_entries A) as -> by done. apply map_eq. intros x.
    destruct (decide (x = a)) as [->|Hne]; [by rewrite lookup_alter_eq, Hd|by rewrite lookup_alter_ne].
Qed.

End contents.

(** * The calls of a client *)

Section calls.
Context {V H : Type} `{!Malloc H} {allocated : H -> Z -> Prop} `{!MallocOk H allocated}.
Implicit Types (c : LRUCache V) (A : LRU_spec V) (h : H) (p : list (Z * V)).

(** The state between two calls while clients hold [p]. *)
Record shard_inv c h A p : Prop := {
  si_ok : shard_ok (allocated := allocated) c h A;
  si_pins : pins_ok A p;
  si_fits : fits A;
  si_capacity : 0 <= s_capacity A < 2 ^ 31;
}.

Lemma shard_inv_perm c h A p q : p ≡ₚ q -> shard_inv c h A p -> shard_inv c h A q.
Proof. intros Hpq [? ? ? ?]. split; [done|by eapply pins_ok_perm|done..]. Qed.

Lemma fits_unref a A p : pins_ok (spec_unref a A) p -> fits A -> fits (spec_unref a A).
Proof.
  unfold fits. intros Hp Hf. destruct (spec_unref_frame a A) as [Hl ->]. rewrite Hl. etransitivity; [|exact Hf]. apply Z.eq_le_incl.
  apply charges_ext. intros x Hx. rewrite <- Hl in Hx. destruct (pk_listed _ _ Hp x Hx) as [d' Hd'].
  unfold charge_of. rewrite Hd'. apply spec_unref_entry in Hd' as (d & -> & _ & _ & _ & Hc & _). done.
Qed.

Lemma fits_drop a A p : pins_ok A p -> a ∈ s_listed A -> fits A -> fits (spec_drop a A).
Proof.
  intros Hp Ha Hf. apply (fits_unref a _ p); [by apply pins_drop|]. unfold fits in *. cbn. etransitivity; [|exact Hf].
  apply charges_le; [intros x d; by eapply entries_charge|]. apply sublist_submseteq, sublist_filter.
Qed.

Lemma Release_inv c h A a v p : shard_inv c h A ((a, v) :: p) ->
  exists c' h', LRU_Release c h a = Some (c', h') /\ shard_inv c' h' (spec_unref a A) p /\ heap_step (allocated := allocated) h A h' (spec_unref a A).
Proof.
  intros [[Hrep Hok Ho Hu] Hp Hf Hc]. destruct (pk_value _ _ Hp a v ltac:(by left)) as (d & Hd & _).
  pose proof (pins_release A p a v Hp) as Hp'.
  destruct (LRU_Unref_ok c h A (s_listed A) a d Hrep Hok Ho Hd) as (c' & h' & Hun & Hrep' & Hh).
  { intros E1. pose proof (pk_refs _ _ Hp a d Hd) as Hr. rewrite pins_of_cons, (decide_True (P := a = a)) in Hr by done.
    pose proof (pins_of_le p a). case_decide; [lia|done]. }
  destruct (spec_unref_frame a A) as [Hl Hcap].
  exists c', h'. split_and!; [done| |done]. split; [|done|by eapply fits_unref|by rewrite Hcap].
  split; [by rewrite Hl|by apply spec_unref_ok|apply Hh|by apply spec_unref_unique].
Qed.

Lemma Erase_inv c h A key hash p : shard_inv c h A p ->
  exists c' h', LRU_Erase c h key hash = Some (c', h') /\ shard_inv c' h' (spec_erase key hash A) p /\
    heap_step (allocated := allocated) h A h' (spec_erase key hash A).
Proof.
  intros [Hso Hp Hf Hc]. pose proof Hso as [Hrep Hok Ho Hu].
  destruct (LRU_Erase_ok c h A key hash Hrep Hok Ho Hu) as (c' & h' & He & Hrep' & Hh). exists c', h'. split_and!; [done| |done].
  unfold spec_erase in *. destruct (spec_find A key hash) as [a|] eqn:Hfind.
  - destruct (find_Some _ _ _ _ Hfind) as [Ha _]. destruct (spec_drop_listed a A) as [Hl Hcap].
    split; [split|by apply pins_drop|by eapply fits_drop|by rewrite Hcap]; [done|by apply spec_unref_ok|apply Hh|].
    apply spec_unref_unique, relist_unique; [done|]. intros x. rewrite elem_of_without. tauto.
  - split; [split|done..]; [done|done|apply Hh|done].
Qed.

Lemma Insert_inv c h A key hash value charge p : shard_inv c h A p -> 0 < charge < 2 ^ 32 -> blen p + 2 < 2 ^ 32 ->
  exists a c' h', LRU_Insert c h key hash value charge = Some (a, c', h') /\ 0 < a /\ s_entries A !! a = None /\ ~ allocated h a /\
    shard_inv c' h' (spec_insert a key hash value charge A) ((a, value) :: p) /\
    heap_step (allocated := allocated) h A h' (spec_insert a key hash value charge A) /\
    s_capacity (spec_insert a key hash value charge A) = s_capacity A.
Proof.
  intros [Hso Hp Hf Hc] Hch Hn. pose proof (usage_bound A p Hp Hf) as Hub. pose proof (listed_bound A p Hp Hf) as Hlb.
  destruct (LRU_Insert_ok c h A key hash value charge Hso Hch) as (a & c' & h' & Hins & Hpa & Hfresh & Hso' & Hh); [lia|nia|].
  assert (s_entries A !! a = None) as Ha.
  { destruct (s_entries A !! a) eqn:E0; [|done]. exfalso. by apply Hfresh, (so_owned _ _ _ Hso); exists e. }
  exists a, c', h'. pose proof (pins_add A p a key hash value charge Hp Ha Hch) as Hp1.
  set (A2 := spec_replace a key hash value charge A).
  assert (pins_ok A2 ((a, value) :: p) /\ s_capacity A2 = s_capacity A) as [Hp2 Hc2].
  { unfold A2, spec_replace. destruct (spec_find A key hash) as [old|] eqn:Hfind; [|done]. destruct (find_Some _ _ _ _ Hfind) as [Hold _].
    split; [apply pins_drop; [done|cbn; set_solver]|exact (proj2 (spec_drop_listed old _))]. }
  destruct (spec_evict_spec (s_listed A2) A2 _ eq_refl Hp2) as (Hp3 & _ & Hc3 & Hfit). rewrite Hc2 in *.
  split_and!; [done|done|done|done| |done|done]. split; [done|done| |unfold spec_insert; fold A2; rewrite Hc3; lia].
  unfold fits, spec_insert. fold A2. rewrite Hc3. destruct Hfit as [Hfit| ->]; [|cbn; lia].
  destruct (usage_split _ _ Hp3) as (det & Hu & _). pose proof (charges_nonneg _ _ det Hp3). lia.
Qed.

Lemma Lookup_inv c h A key hash p : shard_inv c h A p -> blen p + 2 < 2 ^ 32 ->
  exists c', LRU_Lookup c key hash = Some ((spec_lookup key hash A).1, c') /\ s_capacity (spec_lookup key hash A).2 = s_capacity A /\
    heap_step (allocated := allocated) h A h (spec_lookup key hash A).2 /\
    match spec_find A key hash with
    | Some a => 0 < a /\ exists v, spec_maps A key hash v /\ shard_inv c' h (spec_lookup key hash A).2 ((a, v) :: p)
    | None => shard_inv c' h A p
    end.
Proof.
  intros [[Hrep Hok Ho Hu] Hp Hf Hc] Hn.
  destruct (LRU_Lookup_ok c A key hash Hrep Hok Hu) as (c' & Hl & Hrep').
  { intros a d Hd. rewrite (pk_refs _ _ Hp a d Hd). pose proof (pins_of_le p a). case_decide; lia. }
  exists c'. split; [done|]. unfold spec_lookup in *. destruct (spec_find A key hash) as [a|] eqn:Hfind; cbn in *.
  2:{ split_and!; [done|by apply heap_step_refl|]. split; [by split|done..]. }
  destruct (find_Some _ _ _ _ Hfind) as [Ha Hm]. destruct (matches_Some _ _ _ _ Hm) as (d & Hd & Hh & Hk). destruct (Hok a d Hd) as (_ & _ & [v Hv]).
  pose proof (pins_touch A p a d v Hp Ha Hd Hv Hn) as Hp'. pose proof (touch_entry a A) as Ht.
  assert (owned (allocated := allocated) h (spec_touch a A)) as Ho'.
  { intros x [d' Hd']. destruct (Ht x d' Hd') as (d0 & Hd0 & _). apply Ho. by exists d0. }
  split; [done|]. split; [split; [done|]|].
  - intros x Hx Hnx. split; [done|]. destruct (s_entries (spec_touch a A) !! x) as [d'|] eqn:Hd'; [|done].
    destruct (Ht x d' Hd') as (d0 & Hd0 & _). congruence.
  - split; [apply (co_pos _ _ _ _ _ (rep_core _ _ _ Hrep)); by exists d|]. exists v. split; [by exists a, d|].
    split; [|done|by eapply fits_touch|done]. split; [done|apply Hp'|done|by apply unique_touch].
Qed.

End calls.

(** * A new shard and its destruction *)

Section shard_life.
Context {V H : Type} `{!Malloc H} {allocated : H -> Z -> Prop} `{!MallocOk H allocated}.
Implicit Types (c : LRUCache V) (A : LRU_spec V) (h : H).
Notation lru := lru_addr.

Definition spec_new (capacity : Z) : LRU_spec V := mkSpec capacity [] ∅ [].

Lemma LRUCache_new_ok (capacity : Z) h : 0 <= capacity < 2 ^ 31 ->
  exists c, LRUCache_new = Some c /\ shard_inv (allocated := allocated) (SetCapacity c capacity) h (spec_new capacity) [].
Proof.
  intros Hc. unfold LRUCache_new. destruct (HandleTable_new_ok (V := V) (<[lru := lru_entry]> ∅)) as (t & -> & bs & Hch & Hbs).
  cbn [mbind option_bind]. eexists. split; [done|]. split; [split| | |done]; cbn [SetCapacity capacity_ usage_ table_ cells deleted spec_new s_capacity s_listed s_entries s_deleted].
  - split; [done|done|done|]. cbn [SetCapacity capacity_ usage_ table_ cells deleted spec_new s_capacity s_listed s_entries s_deleted]. split; [|apply NoDup_nil; done|..]; try by intros a Ha%elem_of_nil.
    + exists {[lru := lru]}, {[lru := lru]}, {[lru := 0]}, bs. split_and!.
      * split; by rewrite map_fmap_singleton.
      * intros a Ha. by rewrite lookup_singleton_ne.
      * repeat constructor; apply lookup_singleton_eq.
      * eapply chains_frame; [exact Hch| |done]. intros x Hx. rewrite Hbs in Hx. by apply elem_of_nil in Hx.
      * by rewrite Hbs.
    + intros a [x Hx]. by rewrite lookup_empty in Hx.
  - intros a d Hd. by rewrite lookup_empty in Hd.
  - intros a [x Hx]. cbn [spec_new s_entries] in Hx. by rewrite lookup_empty in Hx.
  - intros a b k hs Ha. cbn in Ha. by apply elem_of_nil in Ha.
  - split; cbn [SetCapacity capacity_ usage_ table_ cells deleted spec_new s_capacity s_listed s_entries s_deleted]; [apply NoDup_nil; done|..]; try (intros a d Hd; by rewrite lookup_empty in Hd).
    + intros a Ha. by apply elem_of_nil in Ha.
    + intros a v Ha. by apply elem_of_nil in Ha.
  - unfold fits. cbn. lia.
Qed.

(** The walk of the destructor, over handles that only the cache holds. *)
Lemma destroy_loop_ok l : forall fuel c h a (E : gmap Z (entry V)),
  (forall x d, x ∈ l -> E !! x = Some d -> exists e, cells c !! x = Some e /\ entry_of e = d /\ e_next e <> x) ->
  (forall x y l1 l2, l = l1 ++ x :: y :: l2 -> exists e, cells c !! x = Some e /\ e_next e = y) ->
  (forall x, last l = Some x -> exists e, cells c !! x = Some e /\ e_next e = lru) ->
  a = default lru (head l) -> NoDup l -> lru ∉ l -> (length l < fuel)%nat ->
  (forall x, x ∈ l -> exists d, E !! x = Some d /\ n_refs d = 1 /\ is_Some (n_value d)) ->
  exists c' h', LRU_destroy_loop fuel c h a = Some (c', h') /\
    deleted c' = deleted c ++ (l ≫= fun x => from_option entry_pair [] (E !! x)).
Proof.
  induction l as [|x l IH]; intros [|fuel] c h a E Hcell Hnext Hlast -> Hnd Hlru Hf Hd; cbn in Hf; try lia; cbn [LRU_destroy_loop from_option head id].
  - rewrite Z.eqb_refl. exists c, h. by rewrite app_nil_r.
  - destruct (Hd x ltac:(by left)) as (d & Hx & Hr & [v Hv]). destruct (Hcell x d ltac:(by left) Hx) as (e & He & Hed & Hne).
    destruct (Z.eqb_spec x lru) as [->|_]; [exfalso; apply Hlru; by left|]. rewrite He. cbn [mbind option_bind].
    assert (e_refs e = 1 /\ e_value e = Some v /\ e_key_data e = n_key d) as (Her & Hev & Hek) by (rewrite <- Hr, <- Hv; by subst d).
    rewrite Her. cbn [Z.eqb Pos.eqb]. unfold Unref. rewrite He. cbn [mbind option_bind]. rewrite Her.
    change (negb (0 <? 1)) with false. cbn iota zeta. change (e_refs (set_refs (1 - 1) e) <=? 0) with true. cbn iota.
    change (e_key x (set_refs (1 - 1) e)) with (e_key x e).
    assert (e_key x e = Some (n_key d)) as Hk by (unfold e_key; rewrite (proj2 (Z.eqb_neq _ _) Hne); by f_equal).
    rewrite Hk. cbn [mbind option_bind set_refs e_value e_charge]. rewrite Hev. cbn [mbind option_bind].
    apply NoDup_cons in Hnd as [Hxl Hnd].
    assert (forall y, y <> x -> delete x (cells c) !! y = cells c !! y) as Hdel by (intros; by rewrite lookup_delete_ne).
    match goal with |- context [LRU_destroy_loop fuel ?c' ?h' _] => destruct (IH fuel c' h' (e_next e) E) as (c2 & h2 & Hl & Hdl) end.
    + intros y dy Hy Hdy. cbn. rewrite Hdel by congruence. apply Hcell; [by right|done].
    + intros y z l1 l2 ->. cbn. rewrite Hdel by set_solver. by apply (Hnext y z (x :: l1) l2).
    + intros y Hy. cbn. assert (y ∈ l) by (by apply last_Some_elem_of). rewrite Hdel by congruence. apply Hlast. rewrite last_cons, Hy. done.
    + destruct l as [|y l]; cbn.
      * destruct (Hlast x eq_refl) as (e' & He' & Hn). congruence.
      * destruct (Hnext x y [] l eq_refl) as (e' & He' & Hn). congruence.
    + done.
    + set_solver.
    + lia.
    + intros y Hy. apply Hd. by right.
    + exists c2, h2. split; [done|]. rewrite Hdl. cbn [deleted]. rewrite bind_cons, Hx. cbn [from_option]. unfold entry_pair at 2. rewrite Hv. cbn. by rewrite <- app_assoc.
Qed.

Lemma live_list (E : gmap Z (entry V)) l : NoDup l -> (forall a, a ∈ l <-> is_Some (E !! a)) ->
  live E ≡ₚ l ≫= fun x => from_option entry_pair [] (E !! x).
Proof.
  revert E. induction l as [|a l IH]; intros E Hnd Hl.
  - replace E with (∅ : gmap Z (entry V)); [done|]. symmetry. apply map_empty. intros a.
    destruct (E !! a) as [d|] eqn:Ha; [|done]. assert (a ∈ []) as Hin by (apply Hl; by exists d). by apply elem_of_nil in Hin.
  - apply NoDup_cons in Hnd as [Ha Hnd]. destruct (proj1 (Hl a) ltac:(by left)) as [d Hd].
    rewrite (live_delete E a d Hd), (IH (delete a E)); [|done|].
    + rewrite bind_cons, Hd. cbn [from_option]. apply Permutation_app_head.
      enough ((l ≫= fun x => from_option entry_pair [] (delete a E !! x)) = l ≫= fun x => from_option entry_pair [] (E !! x)) as -> by done.
      clear -Ha. induction l as [|b l IH]; [done|]. rewrite !bind_cons, IH by set_solver. rewrite lookup_delete_ne by set_solver. done.
    + intros b. destruct (decide (b = a)) as [->|Hne].
      * rewrite lookup_delete_eq. split; [done|by intros []].
      * rewrite lookup_delete_ne by done. rewrite <- Hl. set_solver.
Qed.

(** When no client holds a handle, the destructor deletes all that is left. *)
Lemma LRU_destroy_ok c h h0 A : shard_inv (allocated := allocated) c h A [] ->
  exists c' h' l, LRU_destroy c h0 = Some (c', h') /\ deleted c' = deleted c ++ l /\ l ≡ₚ live (s_entries A).
Proof.
  intros [[[_ _ Hdel Hc] Hok _ _] Hp _ _]. pose proof (core_nodup _ _ _ _ _ Hc) as Hnd. apply NoDup_cons in Hnd as [Hlru Hnd].
  destruct (core_lru _ _ _ _ _ Hc) as (e0 & He0 & Hn0). unfold LRU_destroy. rewrite He0. cbn [mbind option_bind].
  assert (forall a, a ∈ s_listed A <-> is_Some (s_entries A !! a)) as Hdom.
  { intros a. split; [apply Hp|]. intros [d Hd]. pose proof (pk_refs _ _ Hp a d Hd) as Hr. destruct (Hok a d Hd) as (? & _).
    case_decide; [done|]. change (pins_of [] a) with 0 in Hr. lia. }
  assert (forall i x y, (lru :: s_listed A) !! i = Some x -> (s_listed A ++ [lru]) !! i = Some y ->
    exists e, cells c !! x = Some e /\ e_next e = y) as Hring.
  { intros i x y Hx Hy. destruct (co_memory _ _ _ _ _ Hc) as (nx & pv & ln & bs & Hv & _ & Hr & _).
    destruct (Forall2_lookup_lr _ _ _ _ _ _ Hr Hx Hy) as [Hxy _]. exact (view_cell e_next _ nx x y (view_next _ _ _ _ _ Hv) Hxy). }
  destruct (destroy_loop_ok (s_listed A) (S (size (cells c))) c h0 (e_next e0) (s_entries A)) as (c' & h' & -> & Hd'); [| | |done|done|done| | |].
  - intros x d Hx Hd. destruct (core_cell _ _ _ _ _ x d Hc Hd) as (e & He & Hed & Hk). exists e. split_and!; [done|done|].
    intros E0. unfold e_key in Hk. rewrite E0, Z.eqb_refl in Hk. discriminate.
  - intros x y l1 l2 Hl. apply (Hring (S (length l1)) x y); rewrite Hl.
    + exact (list_lookup_middle l1 _ x _ eq_refl).
    + replace (l1 ++ x :: y :: l2) with ((l1 ++ [x]) ++ y :: l2) by (by rewrite <- app_assoc). rewrite <- app_assoc.
      apply list_lookup_middle. rewrite length_app. cbn. lia.
  - intros x (l1 & Hl)%last_Some. apply (Hring (S (length l1)) x lru); rewrite Hl.
    + exact (list_lookup_middle l1 _ x _ eq_refl).
    + apply list_lookup_middle. rewrite length_app. cbn. lia.
  - apply le_n_S, length_le_size; [done|]. intros x Hx. destruct (proj1 (Hdom x) Hx) as [d Hd].
    destruct (core_cell _ _ _ _ _ x d Hc Hd) as (e & -> & _). by eexists.
  - intros x Hx. destruct (proj1 (Hdom x) Hx) as [d Hd]. exists d. split_and!; [done| |apply (Hok x d Hd)].
    rewrite (pk_refs _ _ Hp x d Hd). by rewrite decide_True.
  - eexists c', h', _. split_and!; [done|exact Hd'|]. by rewrite <- live_list.
Qed.

End shard_life.

(** * The order of use *)

(** The calls of a client; [Release n] gives back the [n]-th handle it holds. *)
Inductive cache_call {V : Type} :=
  | CallInsert (key : bytes) (v : V) (charge : Z)
  | CallLookup (key : bytes)
  | CallRelease (n : nat)
  | CallErase (key : bytes).
Arguments cache_call : clear implicits.

Definition call_ok {V} (call : cache_call V) : Prop :=
  match call with CallInsert _ _ charge => 0 < charge < 2 ^ 32 | _ => True end.

(** The handle that a call gives back, among the pins. *)
Lemma held_split {V} (p : list (Z * V)) held n a : held ≡ₚ p.*1 -> held !! n = Some a ->
  exists v q, p ≡ₚ (a, v) :: q /\ delete n held ≡ₚ q.*1.
Proof.
  intros Hh Hn. pose proof (delete_Permutation held n a Hn) as Hdel.
  assert (a ∈ p.*1) as Hin by (rewrite <- Hh, Hdel; by left). apply list_elem_of_fmap in Hin as ([a' v] & Ea & Hin). cbn in Ea. subst a'.
  apply list_elem_of_split in Hin as (l1 & l2 & ->). exists v, (l1 ++ l2). split; [by rewrite Permutation_middle|].
  apply (Permutation_cons_inv (a := a)). rewrite <- Hdel, Hh, !fmap_app, fmap_cons. cbn. by rewrite Permutation_middle.
Qed.

Section runs.
Context {V H : Type} `{!Malloc H} (hash_of : bytes -> Z).
Implicit Types (c : LRUCache V) (A : LRU_spec V) (h : H) (call : cache_call V) (held : list Z).

(** A call, with the handle it returns. *)
Definition shard_call call (s : LRUCache V * H * list Z) : option (Z * (LRUCache V * H * list Z)) :=
  let '(c, h, held) := s in
  match call with
  | CallInsert key v charge => '(a, c, h) ← LRU_Insert c h key (hash_of key) v charge; Some (a, (c, h, a :: held))
  | CallLookup key => '(a, c) ← LRU_Lookup c key (hash_of key); Some (a, (c, h, if a =? 0 then held else a :: held))
  | CallRelease n =>
    match held !! n with
    | Some a => '(c, h) ← LRU_Release c h a; Some (0, (c, h, delete n held))
    | None => Some (0, s)
    end
  | CallErase key => '(c, h) ← LRU_Erase c h key (hash_of key); Some (0, (c, h, held))
  end.

Fixpoint shard_run (calls : list (cache_call V)) (s : LRUCache V * H * list Z) : option (list Z * (LRUCache V * H * list Z)) :=
  match calls with
  | [] => Some ([], s)
  | call :: calls => '(r, s) ← shard_call call s; '(rs, s) ← shard_run calls s; Some (r :: rs, s)
  end.

(** The same call on the abstract shard, which takes the address of a new handle
    from the result and agrees with every other result. *)
Definition spec_call call (r : Z) (s : LRU_spec V * list Z) : option (LRU_spec V * list Z) :=
  let '(A, held) := s in
  match call with
  | CallInsert key v charge =>
    if decide (s_entries A !! r = None) then Some (spec_insert r key (hash_of key) v charge A, r :: held) else None
  | CallLookup key =>
    let '(a, A) := spec_lookup key (hash_of key) A in
    if a =? r then Some (A, if a =? 0 then held else a :: held) else None
  | CallRelease n =>
    match held !! n with
    | Some a => Some (spec_unref a A, delete n held)
    | None => Some s
    end
  | CallErase key => Some (spec_erase key (hash_of key) A, held)
  end.

Fixpoint spec_run (calls : list (cache_call V)) (rs : list Z) (s : LRU_spec V * list Z) : option (LRU_spec V * list Z) :=
  match calls, rs with
  | [], [] => Some s
  | call :: calls, r :: rs => s ← spec_call call r s; spec_run calls rs s
  | _, _ => None
  end.

(** The handles from [lru_.next] on. *)
Fixpoint order_loop (fuel : nat) (m : gmap Z (LRUHandle V)) (a : Z) : option (list Z) :=
  match fuel with
  | O => None
  | S fuel => if a =? lru_addr then Some [] else e ← m !! a; l ← order_loop fuel m (e_next e); Some (a :: l)
  end.

Definition lru_order c : option (list Z) :=
  lru ← cells c !! lru_addr; order_loop (S (size (cells c))) (cells c) (e_next lru).

Lemma order_loop_ok m nx pv l : e_next <$> m = nx -> forall fuel a, Forall2 (linked nx pv) (a :: l) (l ++ [lru_addr]) -> lru_addr ∉ l ->
  (length l < fuel)%nat -> forall b, nx !! a = Some b -> order_loop fuel m b = Some l.
Proof.
  intros Hm. induction l as [|x l IH]; intros [|fuel] a Hr Hl Hf b Hb; cbn in Hf; try lia; apply Forall2_cons in Hr as [[Hab _] Hr]; simplify_eq; cbn [order_loop].
  - by rewrite Z.eqb_refl.
  - destruct (Z.eqb_spec x lru_addr) as [->|_]; [exfalso; apply Hl; by left|].
    assert (is_Some ((e_next <$> m) !! x)) as [y Hy].
    { destruct l; apply Forall2_cons in Hr as [[Hxy _] _]; by eexists. }
    destruct (view_cell e_next m _ x y eq_refl Hy) as (e & -> & <-). cbn [mbind option_bind].
    rewrite (IH fuel x Hr); [done|set_solver|lia|done].
Qed.

Context {allocated : H -> Z -> Prop} `{!MallocOk H allocated}.
Notation shard_inv := (shard_inv (allocated := allocated)).

Lemma lru_order_ok c h A p : shard_inv c h A p -> lru_order c = Some (s_listed A).
Proof.
  intros [Hso _ _ _]. pose proof (listed_fuel _ _ _ Hso) as Hf. destruct (so_rep _ _ _ Hso) as [_ _ _ Hc].
  pose proof (core_nodup _ _ _ _ _ Hc) as Hnd. destruct (core_lru _ _ _ _ _ Hc) as (e & He & Hn).
  destruct (co_memory _ _ _ _ _ Hc) as (nx & pv & ln & bs & Hv & _ & Hr & _). unfold lru_order. rewrite He. cbn [mbind option_bind].
  apply NoDup_cons in Hnd as [Hl _]. eapply order_loop_ok; [apply (view_next _ _ _ _ _ Hv)|exact Hr|done|done|].
  by rewrite <- (view_next _ _ _ _ _ Hv), lookup_fmap, He.
Qed.

Lemma shard_call_ok call c h A p held : shard_inv c h A p -> held ≡ₚ p.*1 -> call_ok call -> blen p + 2 < 2 ^ 32 ->
  exists r c' h' held' A' p', shard_call call (c, h, held) = Some (r, (c', h', held')) /\ spec_call call r (A, held) = Some (A', held') /\
    shard_inv c' h' A' p' /\ held' ≡ₚ p'.*1 /\ blen p' <= blen p + 1 /\ s_capacity A' = s_capacity A.
Proof.
  intros Hsi Hh Hok Hn. destruct call as [key v charge|key|n|key]; cbn [shard_call spec_call].
  - destruct (Insert_inv c h A key (hash_of key) v charge p Hsi Hok Hn) as (a & c' & h' & -> & Hpa & Ha & _ & Hsi' & _ & Hcap).
    cbn [mbind option_bind]. eexists a, c', h', (a :: held), _, ((a, v) :: p). rewrite decide_True by done.
    split_and!; [done|done|done|by rewrite fmap_cons, Hh|rewrite blen_cons; lia|done].
  - destruct (Lookup_inv c h A key (hash_of key) p Hsi Hn) as (c' & -> & Hcap & _ & Hcases). cbn [mbind option_bind].
    unfold spec_lookup in *. destruct (spec_find A key (hash_of key)) as [a|]; cbn [fst snd] in *.
    + destruct Hcases as (Hpa & v & _ & Hsi'). eexists a, c', h, (a :: held), _, ((a, v) :: p). rewrite Z.eqb_refl. destruct (Z.eqb_spec a 0); [lia|].
      split_and!; [done|done|done|by rewrite fmap_cons, Hh|rewrite blen_cons; lia|done].
    + exists 0, c', h, held, A, p. split_and!; [done|done|done|done|lia|done].
  - destruct (held !! n) as [a|] eqn:Hn'; [|eexists 0, c, h, held, A, p; split_and!; [done..|lia|done]].
    pose proof (delete_Permutation held n a Hn') as Hdel.
    destruct (held_split p held n a Hh Hn') as (v & q & Hp & Hq).
    destruct (Release_inv c h A a v q) as (c' & h' & -> & Hsi' & _); [by eapply shard_inv_perm|]. cbn [mbind option_bind].
    eexists 0, c', h', (delete n held), _, q. split_and!; [done|done|done|done| |apply spec_unref_frame].
    apply Permutation_length in Hp. unfold blen. rewrite Hp. cbn. lia.
  - destruct (Erase_inv c h A key (hash_of key) p Hsi) as (c' & h' & -> & Hsi' & _). cbn [mbind option_bind].
    eexists 0, c', h', held, _, p. split_and!; [done|done|done|done|lia|]. unfold spec_erase. case_match; [|done]. exact (proj2 (spec_drop_listed _ _)).
Qed.

Lemma shard_run_ok calls : forall c h A p held, shard_inv c h A p -> held ≡ₚ p.*1 -> Forall call_ok calls -> blen p + blen calls + 2 < 2 ^ 32 ->
  exists rs c' h' held' A' p', shard_run calls (c, h, held) = Some (rs, (c', h', held')) /\ spec_run calls rs (A, held) = Some (A', held') /\
    shard_inv c' h' A' p' /\ blen p' <= blen p + blen calls /\ s_capacity A' = s_capacity A.
Proof.
  induction calls as [|call calls IH]; intros c h A p held Hsi Hh Hok Hn.
  - exists [], c, h, held, A, p. split_and!; [done|done|done|rewrite blen_nil; lia|done].
  - apply Forall_cons in Hok as [Hc Hok]. rewrite blen_cons in *. pose proof (blen_nonneg calls).
    destruct (shard_call_ok call c h A p held Hsi Hh Hc) as (r & c1 & h1 & held1 & A1 & p1 & H1 & H2 & Hsi1 & Hh1 & Hle & Hcap); [lia|].
    destruct (IH c1 h1 A1 p1 held1 Hsi1 Hh1 Hok) as (rs & c2 & h2 & held2 & A2 & p2 & H3 & H4 & Hsi2 & Hle2 & Hcap2); [lia|].
    exists (r :: rs), c2, h2, held2, A2, p2. cbn [shard_run spec_run]. rewrite H1, H2. cbn [mbind option_bind]. rewrite H3, H4.
    cbn [mbind option_bind]. split_and!; [done|done|done|lia|congruence].
Qed.

End runs.

(** C10: a shard is an LRU cache.  For any calls of a client the pointer code
    runs without an undefined step and agrees, result by result, with the
    abstract shard, which keeps the cached entries in order of use, replaces
    the entry of a key, and evicts from the oldest on while more is charged
    than the capacity; the linked list, the deleter's calls and the usage are
    those of the abstract shard, and what stays cached fits. *)
Theorem LRUCache_refines {V H : Type} `{!Malloc H} (allocated : H -> Z -> Prop) `{!MallocOk H allocated} (hash_of : bytes -> Z)
    (capacity : Z) (h : H) (calls : list (cache_call V)) :
  0 <= capacity < 2 ^ 31 -> Forall call_ok calls -> blen calls + 2 < 2 ^ 32 ->
  exists c0 results c h' held A, LRUCache_new = Some c0 /\
    shard_run hash_of calls (SetCapacity c0 capacity, h, []) = Some (results, (c, h', held)) /\
    spec_run hash_of calls results (spec_new capacity, []) = Some (A, held) /\
    lru_order c = Some (s_listed A) /\ deleted c = s_deleted A /\ usage_ c = usage (s_entries A) /\
    charges (s_entries A) (s_listed A) <= capacity.
Proof.
  intros Hc Hok Hn. destruct (LRUCache_new_ok (V := V) (allocated := allocated) capacity h Hc) as (c0 & Hnew & Hsi).
  destruct (shard_run_ok hash_of calls _ _ _ _ [] Hsi) as (rs & c & h' & held & A & p & H1 & H2 & Hsi' & Hle & Hcap); [done|done|rewrite blen_nil; lia|].
  exists c0, rs, c, h', held, A. pose proof Hsi' as [Hso Hp Hf Hcap']. destruct (so_rep _ _ _ Hso) as [_ _ Hdel _].
  split_and!; [done|done|done|by eapply lru_order_ok|done| |unfold fits in Hf; by rewrite Hcap in Hf].
  apply (usage_exact _ _ _ Hso). pose proof (usage_bound A p Hp Hf). rewrite blen_nil in Hle. nia.
Qed.

(** * A heap *)

(** Fresh addresses from the set of those in use. *)
Definition SetHeap := gset positive.

#[export] Instance SetHeap_malloc : Malloc SetHeap := {
  malloc _ h := (Zpos (fresh (h : gset positive)), {[ fresh (h : gset positive) ]} ∪ (h : gset positive));
  free a h := (h : gset positive) ∖ {[ Z.to_pos a ]};
}.

Definition set_allocated (h : SetHeap) (a : Z) : Prop := exists q, a = Zpos q /\ q ∈ (h : gset positive).

#[export] Instance SetHeap_malloc_ok : MallocOk SetHeap set_allocated.
Proof.
  split.
  - intros n h p h' [= <- <-]. split_and!; [lia| |].
    + intros (q & [= <-] & Hq). by apply (is_fresh (h : gset positive)).
    + intros x. unfold set_allocated. setoid_rewrite elem_of_union. setoid_rewrite elem_of_singleton. split.
      * intros (q & -> & [->|Hq]); [by left|right; by exists q].
      * intros [->|(q & -> & Hq)]; [by eexists; split; [|left]|exists q; split; [done|by right]].
  - intros p h (q & -> & Hq) x. unfold set_allocated. cbn. setoid_rewrite elem_of_difference. setoid_rewrite elem_of_singleton. split.
    + intros (q' & -> & Hq' & Hne). split; [congruence|by exists q'].
    + intros [Hne (q' & -> & Hq')]. exists q'. split_and!; [done|done|congruence].
Qed.

Definition test_calls : list (cache_call nat) :=
  [CallInsert (bytes_of_string "a") 1%nat 2; CallInsert (bytes_of_string "b") 2%nat 2; CallLookup (bytes_of_string "a");
   CallInsert (bytes_of_string "c") 3%nat 1; CallRelease 0; CallErase (bytes_of_string "b"); CallRelease 1].

Lemma LRUCache_refines_witness : exists c0 results c h' held A, LRUCache_new = Some c0 /\
    shard_run (fun _ => 7) test_calls (SetCapacity c0 4, (∅ : SetHeap), []) = Some (results, (c, h', held)) /\
    spec_run (fun _ => 7) test_calls results (spec_new 4, []) = Some (A, held) /\
    lru_order c = Some (s_listed A) /\ deleted c = s_deleted A /\ usage_ c = usage (s_entries A) /\
    charges (s_entries A) (s_listed A) <= 4.
Proof. apply (LRUCache_refines set_allocated (fun _ => 7) 4 (∅ : SetHeap) test_calls); [lia|repeat constructor; cbn; lia|done]. Defined.
