(* ===== verification/ShardedCache.v ===== *)
(** The sharded LRU cache of [util/cache.cpp], [NewLRUCache]: sixteen shards,
    chosen by the top bits of a key's hash, over one heap.

    [NewLRUCache_ok] discharges the cache interface of [Cache]; the client
    runs at the end follow the calls of the deleter and the order of use. *)

From S2P Require Import Prelude Port Comparator Hash Cache LRUCache LRUShard.

(** * The sharded cache *)

Definition kNumShardBits : Z := 4.
Definition kNumShards : Z := Z.shiftl 1 kNumShardBits.

Record ShardedLRUCache {V : Type} := mkSharded {
  shard_ : list (LRUCache V);
  last_id_ : Z;
}.
Arguments ShardedLRUCache : clear implicits.

Section code.
Context {port : Port} {V H : Type} `{!Malloc H}.
Implicit Types (c : ShardedLRUCache V) (h : H).

Definition HashSlice (s : bytes) : Z := Hash s 0.

Definition Shard (hash : Z) : Z := Z.shiftr hash (32 - kNumShardBits).

Definition set_shard c (i : nat) (s : LRUCache V) : ShardedLRUCache V := mkSharded V (<[i := s]> (shard_ c)) (last_id_ c).

Definition ShardedLRUCache_new (capacity : Z) : option (ShardedLRUCache V) :=
  let per_shard := u64 (capacity + (kNumShards - 1)) / kNumShards in
  s ← LRUCache_new;
  Some (mkSharded V (replicate (Z.to_nat kNumShards) (SetCapacity s per_shard)) 0).

Definition Sharded_Insert (key : bytes) (value : V) (charge : Z) c h : option (Z * ShardedLRUCache V * H) :=
  let hash := HashSlice key in
  let i := Z.to_nat (Shard hash) in
  s ← shard_ c !! i;
  '(a, s, h) ← LRU_Insert s h key hash value charge;
  Some (a, set_shard c i s, h).

Definition Sharded_Lookup (key : bytes) c : option (Z * ShardedLRUCache V) :=
  let hash := HashSlice key in
  let i := Z.to_nat (Shard hash) in
  s ← shard_ c !! i;
  '(a, s) ← LRU_Lookup s key hash;
  Some (a, set_shard c i s).

(** The handle at an address: the shards' memories are parts of one. *)
Definition handle_at c (a : Z) : option (LRUHandle V) :=
  foldr (fun s r => match cells s !! a with Some e => Some e | None => r end) None (shard_ c).

Definition Sharded_Release (a : Z) c h : option (ShardedLRUCache V * H) :=
  e ← handle_at c a;
  let i := Z.to_nat (Shard (e_hash e)) in
  s ← shard_ c !! i;
  '(s, h) ← LRU_Release s h a;
  Some (set_shard c i s, h).

Definition Sharded_Erase (key : bytes) c h : option (ShardedLRUCache V * H) :=
  let hash := HashSlice key in
  let i := Z.to_nat (Shard hash) in
  s ← shard_ c !! i;
  '(s, h) ← LRU_Erase s h key hash;
  Some (set_shard c i s, h).

Definition Sharded_Value (a : Z) c : option V := e ← handle_at c a; e_value e.

Definition Sharded_NewId c : Z * ShardedLRUCache V :=
  let id := u64 (last_id_ c + 1) in
  (id, mkSharded V (shard_ c) id).

(** The members of the array are destroyed last to first; the result lists the
    values that this passes to the deleter. *)
Fixpoint destroy_shards (shards : list (LRUCache V)) h : option (list (bytes * V) * H) :=
  match shards with
  | [] => Some ([], h)
  | s :: shards =>
    '(log, h) ← destroy_shards shards h;
    '(s', h) ← LRU_destroy s h;
    Some (log ++ drop (length (deleted s)) (deleted s'), h)
  end.

Definition Sharded_destroy c h : option (list (bytes * V)) :=
  '(log, _) ← destroy_shards (shard_ c) h; Some log.

(** The interface, on a state that is [None] once the behaviour is undefined. *)
#[export] Instance Sharded_ops : CacheOps (option (ShardedLRUCache V * H)) V Z := {
  Cache_Insert key v charge st :=
    match ('(c, h) ← st; Sharded_Insert key v charge c h) with
    | Some (a, c, h) => (a, Some (c, h))
    | None => (0, None)
    end;
  Cache_Lookup key st :=
    match ('(c, h) ← st; '(a, c) ← Sharded_Lookup key c; Some (a, c, h)) with
    | Some (a, c, h) => (if a =? 0 then None else Some a, Some (c, h))
    | None => (None, None)
    end;
  Cache_Release a st := '(c, h) ← st; Sharded_Release a c h;
  Cache_Value a st := '(c, _) ← st; Sharded_Value a c;
  Cache_Erase key st := '(c, h) ← st; Sharded_Erase key c h;
  Cache_NewId st :=
    match st with
    | Some (c, h) => let '(id, c) := Sharded_NewId c in (id, Some (c, h))
    | None => (0, None)
    end;
}.

Definition NewLRUCache (capacity : Z) h : option (ShardedLRUCache V * H) :=
  c ← ShardedLRUCache_new capacity; Some (c, h).

End code.

(** * The invariant *)

Section invariant.
Context {port : Port} {V H : Type} `{!Malloc H} {allocated : H -> Z -> Prop} `{!MallocOk H allocated}.
Implicit Types (c : ShardedLRUCache V) (h : H) (p : list (Z * V)) (As : list (LRU_spec V)) (ps : list (list (Z * V))).
Notation shard_inv := (shard_inv (allocated := allocated)).

(** The shards are those of [As], clients hold [ps !! i] of shard [i], and a
    handle is in the shard of its key's hash. *)
Record sharded_inv c h As ps : Prop := {
  sh_shards : length (shard_ c) = 16%nat /\ length As = 16%nat /\ length ps = 16%nat;
  sh_inv i s A q : shard_ c !! i = Some s -> As !! i = Some A -> ps !! i = Some q -> shard_inv s h A q;
  sh_disjoint i j A B a : i <> j -> As !! i = Some A -> As !! j = Some B -> is_Some (s_entries A !! a) -> s_entries B !! a = None;
  sh_hash i A a d : As !! i = Some A -> s_entries A !! a = Some d -> n_hash d = HashSlice (n_key d) /\ Z.to_nat (Shard (n_hash d)) = i;
}.

Lemma Shard_lt key : (Z.to_nat (Shard (HashSlice key)) < 16)%nat.
Proof.
  unfold Shard, HashSlice, kNumShardBits. pose proof (Hash_range key 0). change (32 - 4) with 28.
  rewrite Z.shiftr_div_pow2 by lia.
  assert (Hash key 0 / 2 ^ 28 < 16) by (apply Z.div_lt_upper_bound; lia).
  assert (0 <= Hash key 0 / 2 ^ 28) by (apply Z.div_pos; lia). lia.
Qed.

Definition all_keys (P : bytes -> Z -> Prop) (A : LRU_spec V) : Prop := forall a d, s_entries A !! a = Some d -> P (n_key d) (n_hash d).

Definition here (i : nat) (key : bytes) (hash : Z) : Prop := hash = HashSlice key /\ Z.to_nat (Shard hash) = i.

(** A call on one shard. *)
Lemma sharded_step c h As ps i s' h' A A' q' : sharded_inv c h As ps -> As !! i = Some A ->
  shard_inv s' h' A' q' -> heap_step (allocated := allocated) h A h' A' ->
  all_keys (here i) A' ->
  sharded_inv (set_shard c i s') h' (<[i := A']> As) (<[i := q']> ps).
Proof.
  intros [(H1 & H2 & H3) Hinv Hdis Hhash] HA Hs' [Ho Hframe] Hh'. pose proof (lookup_lt_Some _ _ _ HA) as Hi.
  assert (forall j B, j <> i -> As !! j = Some B -> forall a, is_Some (s_entries B !! a) -> allocated h' a /\ s_entries A' !! a = None) as Hother.
  { intros j B Hj HB a Ha. apply Hframe; [|by apply (Hdis j i B A)].
    destruct (lookup_lt_is_Some_2 (shard_ c) j) as [s Hs]; [apply lookup_lt_Some in HB; lia|].
    destruct (lookup_lt_is_Some_2 ps j) as [q Hq]; [apply lookup_lt_Some in HB; lia|].
    apply (so_owned _ _ _ (si_ok _ _ _ _ (Hinv j s B q Hs HB Hq)) a Ha). }
  split.
  - cbn. by rewrite !length_insert.
  - intros j s B q. cbn. destruct (decide (j = i)) as [->|Hne].
    + rewrite !list_lookup_insert_eq by lia. congruence.
    + rewrite !list_lookup_insert_ne by done. intros Hs HB Hq. destruct (Hinv j s B q Hs HB Hq) as [[? ? _ ?] ? ? ?].
      split; [split; [done|done| |done]|done..]. intros a Ha. by apply (Hother j B).
  - intros j k B B' a Hjk HB HB' Ha. destruct (decide (j = i)) as [->|Hj]; [|destruct (decide (k = i)) as [->|Hk]].
    + rewrite list_lookup_insert_eq in HB by lia. rewrite list_lookup_insert_ne in HB' by done. simplify_eq.
      destruct (s_entries B' !! a) eqn:E0; [|done]. destruct (Hother k B' ltac:(done) HB' a ltac:(by eexists)) as [_ E1]. rewrite E1 in Ha. by destruct Ha.
    + rewrite list_lookup_insert_eq in HB' by lia. rewrite list_lookup_insert_ne in HB by done. simplify_eq. by apply (Hother j B).
    + rewrite list_lookup_insert_ne in HB, HB' by done. by apply (Hdis j k B B').
  - intros j B a d. destruct (decide (j = i)) as [->|Hne].
    + rewrite list_lookup_insert_eq by lia. intros [= <-]. apply Hh'.
    + rewrite list_lookup_insert_ne by done. apply Hhash.
Qed.

(** ** Each call *)

Lemma all_keys_unref P a A : all_keys P A -> all_keys P (spec_unref a A).
Proof. intros HP x d' (d & Hd & -> & -> & _)%spec_unref_entry. by eapply HP. Qed.

Lemma all_keys_evict P l : forall A, all_keys P A -> all_keys P (spec_evict l A).
Proof. induction l as [|a l IH]; intros A HP; cbn [spec_evict]; [done|]. case_match; [by apply IH, all_keys_unref|done]. Qed.

Lemma all_keys_insert P a key hash value charge A : all_keys P A -> P key hash -> all_keys P (spec_insert a key hash value charge A).
Proof.
  intros HP Hk. apply all_keys_evict.
  assert (all_keys P (spec_add a key hash value charge A)) as HP'.
  { intros x d. cbn. destruct (decide (x = a)) as [->|Hne]; [rewrite lookup_insert_eq; by intros [= <-]|rewrite lookup_insert_ne by done; apply HP]. }
  unfold spec_replace. case_match; [by apply all_keys_unref|done].
Qed.

Lemma all_keys_lookup P key hash A : all_keys P A -> all_keys P (spec_lookup key hash A).2.
Proof. intros HP. unfold spec_lookup. case_match; [|done]. intros x d' (d & Hd & -> & -> & _)%touch_entry. by eapply HP. Qed.

Lemma sharded_get c h As ps i : sharded_inv c h As ps -> (i < 16)%nat ->
  exists s A q, shard_ c !! i = Some s /\ As !! i = Some A /\ ps !! i = Some q /\ shard_inv s h A q /\ all_keys (here i) A /\ blen q <= blen (concat ps).
Proof.
  intros Hinv Hi. destruct (sh_shards _ _ _ _ Hinv) as (H1 & H2 & H3).
  destruct (lookup_lt_is_Some_2 (shard_ c) i) as [s Hs]; [lia|]. destruct (lookup_lt_is_Some_2 As i) as [A HA]; [lia|].
  destruct (lookup_lt_is_Some_2 ps i) as [q Hq]; [lia|]. exists s, A, q. split_and!; [done..|by eapply sh_inv| |].
  - intros a d Hd. by eapply (sh_hash _ _ _ _ Hinv).
  - rewrite (concat_split ps i q Hq), !blen_app. pose proof (blen_nonneg (concat (take i ps))). pose proof (blen_nonneg (concat (drop (S i) ps))). lia.
Qed.

Lemma concat_replace {X} (ps : list (list X)) i q q' r : ps !! i = Some q -> q' ≡ₚ r ++ q -> concat (<[i := q']> ps) ≡ₚ r ++ concat ps.
Proof.
  intros Hq Hp. rewrite (concat_insert ps i q q' Hq), (concat_split ps i q Hq), Hp. solve_Permutation.
Qed.

Lemma Sharded_Insert_ok key value charge c h As ps : sharded_inv c h As ps -> 0 < charge < 2 ^ 32 -> blen (concat ps) + 2 < 2 ^ 32 ->
  exists a c' h' A, let i := Z.to_nat (Shard (HashSlice key)) in As !! i = Some A /\ s_entries A !! a = None /\ unique_keys A /\
    (forall x, x ∈ s_listed A -> is_Some (s_entries A !! x)) /\
    Sharded_Insert key value charge c h = Some (a, c', h') /\ exists ps', concat ps' ≡ₚ (a, value) :: concat ps /\
    sharded_inv c' h' (<[i := spec_insert a key (HashSlice key) value charge A]> As) ps'.
Proof.
  intros Hinv Hch Hn. set (i := Z.to_nat (Shard (HashSlice key))).
  destruct (sharded_get c h As ps i Hinv (Shard_lt key)) as (s & A & q & Hs & HA & Hq & Hsi & Hkeys & Hle).
  destruct (Insert_inv s h A key (HashSlice key) value charge q Hsi Hch) as (a & s' & h' & Hins & Hpa & Ha & Hfr & Hsi' & Hh & _); [lia|].
  exists a, (set_shard c i s'), h', A. cbn zeta. unfold Sharded_Insert. fold i. rewrite Hs. cbn [mbind option_bind]. rewrite Hins. cbn [mbind option_bind].
  split_and!; [done|done|apply Hsi|apply Hsi|done|]. exists (<[i := (a, value) :: q]> ps). split; [by apply (concat_replace ps i q _ [(a, value)])|].
  eapply sharded_step; [done..|]. by apply all_keys_insert.
Qed.

Lemma Sharded_Lookup_ok key c h As ps : sharded_inv c h As ps -> blen (concat ps) + 2 < 2 ^ 32 ->
  exists a c' A, let i := Z.to_nat (Shard (HashSlice key)) in As !! i = Some A /\ Sharded_Lookup key c = Some (a, c') /\
    a = (spec_lookup key (HashSlice key) A).1 /\
    match spec_find A key (HashSlice key) with
    | Some x => x = a /\ 0 < a /\ exists v ps', spec_maps A key (HashSlice key) v /\ concat ps' ≡ₚ (a, v) :: concat ps /\
        sharded_inv c' h (<[i := (spec_lookup key (HashSlice key) A).2]> As) ps'
    | None => a = 0 /\ sharded_inv c' h As ps
    end.
Proof.
  intros Hinv Hn. set (i := Z.to_nat (Shard (HashSlice key))).
  destruct (sharded_get c h As ps i Hinv (Shard_lt key)) as (s & A & q & Hs & HA & Hq & Hsi & Hkeys & Hle).
  destruct (Lookup_inv s h A key (HashSlice key) q Hsi) as (s' & Hl & _ & Hh & Hcases); [lia|].
  exists (spec_lookup key (HashSlice key) A).1, (set_shard c i s'), A. cbn zeta. unfold Sharded_Lookup. fold i. rewrite Hs. cbn [mbind option_bind].
  rewrite Hl. cbn [mbind option_bind]. split_and!; [done|done|done|].
  assert (forall q', shard_inv s' h (spec_lookup key (HashSlice key) A).2 q' ->
    sharded_inv (set_shard c i s') h (<[i := (spec_lookup key (HashSlice key) A).2]> As) (<[i := q']> ps)) as Hstep.
  { intros q' Hsi'. eapply sharded_step; [done..|]. by apply all_keys_lookup. }
  unfold spec_lookup in *. destruct (spec_find A key (HashSlice key)) as [x|]; cbn [fst snd] in *.
  - destruct Hcases as (Hx & v & Hm & Hsi'). split_and!; [done|done|]. exists v, (<[i := (x, v) :: q]> ps).
    split_and!; [done|by apply (concat_replace ps i q _ [(x, v)])|by apply Hstep].
  - split; [done|]. pose proof (Hstep q Hcases) as Hst. by rewrite !list_insert_id in Hst.
Qed.

Lemma handle_at_ok c h As ps i A a d : sharded_inv c h As ps -> As !! i = Some A -> s_entries A !! a = Some d ->
  exists e, handle_at c a = Some e /\ entry_of e = d.
Proof.
  intros Hinv HA Hd. pose proof (lookup_lt_Some _ _ _ HA) as Hi. destruct (sh_shards _ _ _ _ Hinv) as (H1 & H2 & H3).
  assert (forall j s, shard_ c !! j = Some s -> exists B, As !! j = Some B /\ core (cells s) (table_ s) (s_listed B) (s_listed B) (s_entries B)) as Hcore.
  { intros j s Hs. destruct (sharded_get c h As ps j Hinv) as (s0 & B & q & Hs0 & HB & _ & Hsi & _); [apply lookup_lt_Some in Hs; lia|].
    simplify_eq. exists B. split; [done|]. apply Hsi. }
  destruct (lookup_lt_is_Some_2 (shard_ c) i) as [s Hs]; [lia|]. destruct (Hcore i s Hs) as (A' & HA' & Hc). simplify_eq.
  destruct (core_cell _ _ _ _ _ a d Hc Hd) as (e & He & Hed & _). exists e. split; [|done].
  pose proof (core_ne _ _ _ _ _ a Hc ltac:(by exists d)) as Hne.
  assert (forall j s', shard_ c !! j = Some s' -> j <> i -> cells s' !! a = None) as Hno.
  { intros j s' Hs' Hj. destruct (Hcore j s' Hs') as (B & HB & HcB). destruct (co_memory _ _ _ _ _ HcB) as (nx & pv & ln & bs & Hv & _).
    destruct (cells s' !! a) as [e'|] eqn:He'; [|done]. pose proof (view_entry _ _ _ _ _ Hv) as Hve. apply (f_equal (.!! a)) in Hve.
    rewrite lookup_fmap, He', lookup_insert_ne, (sh_disjoint _ _ _ _ Hinv i j A B a) in Hve; [done|done|done|done|by exists d|done]. }
  unfold handle_at. clear -Hno Hs He. revert i Hs Hno. induction (shard_ c) as [|s0 l IH]; intros i Hs Hno; [done|].
  destruct i as [|i]; cbn [foldr].
  - simplify_eq/=. by rewrite He.
  - rewrite (Hno O s0 eq_refl) by done. apply (IH i); [done|]. intros j s' Hs' Hj. apply (Hno (S j)); [done|lia].
Qed.

Lemma pin_shard c h As ps a v : sharded_inv c h As ps -> (a, v) ∈ concat ps ->
  exists i s A q q' d, shard_ c !! i = Some s /\ As !! i = Some A /\ ps !! i = Some q /\ q ≡ₚ (a, v) :: q' /\ shard_inv s h A q /\ all_keys (here i) A /\
    s_entries A !! a = Some d /\ n_value d = Some v.
Proof.
  intros Hinv Hin. rewrite list_elem_of_In, in_concat in Hin. destruct Hin as (q & Hq & Hav). rewrite <- list_elem_of_In in Hq.
  rewrite <- list_elem_of_In in Hav. apply list_elem_of_lookup in Hq as [i Hq]. destruct (sh_shards _ _ _ _ Hinv) as (_ & _ & H3).
  destruct (sharded_get c h As ps i Hinv) as (s & A & q0 & Hs & HA & Hq0 & Hsi & Hk & _); [apply lookup_lt_Some in Hq; lia|]. simplify_eq.
  apply list_elem_of_split in Hav as (q1 & q2 & Hq12). destruct (pk_value _ _ (si_pins _ _ _ _ Hsi) a v) as (d & Hd & Hv); [rewrite Hq12; set_solver|].
  exists i, s, A, q, (q1 ++ q2), d. split_and!; [done..| |done|done|done|done]. rewrite Hq12. by rewrite Permutation_middle.
Qed.

Lemma Sharded_Release_ok a v p c h As ps : sharded_inv c h As ps -> concat ps ≡ₚ (a, v) :: p ->
  exists c' h' i A ps', As !! i = Some A /\ Sharded_Release a c h = Some (c', h') /\ concat ps' ≡ₚ p /\ sharded_inv c' h' (<[i := spec_unref a A]> As) ps'.
Proof.
  intros Hinv Hp. destruct (pin_shard c h As ps a v Hinv) as (i & s & A & q & q' & d & Hs & HA & Hq & Hqq & Hsi & Hk & Hd & Hv); [rewrite Hp; by left|].
  destruct (handle_at_ok c h As ps i A a d Hinv HA Hd) as (e & He & Hed).
  destruct (Release_inv s h A a v q') as (s' & h' & Hrel & Hsi' & Hh); [by eapply shard_inv_perm|].
  exists (set_shard c i s'), h', i, A, (<[i := q']> ps). unfold Sharded_Release. rewrite He. cbn [mbind option_bind].
  assert (e_hash e = n_hash d) as -> by (by subst d). destruct (Hk a d Hd) as [_ ->]. rewrite Hs. cbn [mbind option_bind]. rewrite Hrel. cbn [mbind option_bind].
  split_and!; [done|done| |eapply sharded_step; [done..|]; by apply all_keys_unref].
  apply (Permutation_cons_inv (a := (a, v))). rewrite <- Hp, (concat_insert ps i q q' Hq), (concat_split ps i q Hq), Hqq. solve_Permutation.
Qed.

Lemma Sharded_Erase_ok key c h As ps : sharded_inv c h As ps ->
  exists c' h' A, let i := Z.to_nat (Shard (HashSlice key)) in As !! i = Some A /\ unique_keys A /\ Sharded_Erase key c h = Some (c', h') /\
    sharded_inv c' h' (<[i := spec_erase key (HashSlice key) A]> As) ps.
Proof.
  intros Hinv. set (i := Z.to_nat (Shard (HashSlice key))).
  destruct (sharded_get c h As ps i Hinv (Shard_lt key)) as (s & A & q & Hs & HA & Hq & Hsi & Hkeys & Hle).
  destruct (Erase_inv s h A key (HashSlice key) q Hsi) as (s' & h' & He & Hsi' & Hh).
  exists (set_shard c i s'), h', A. cbn zeta. unfold Sharded_Erase. fold i. rewrite Hs. cbn [mbind option_bind]. rewrite He. cbn [mbind option_bind].
  split_and!; [done|apply Hsi|done|]. rewrite <- (list_insert_id ps i q Hq). eapply sharded_step; [done..|].
  unfold spec_erase. case_match; [by apply all_keys_unref|done].
Qed.

End invariant.

(** * The interface *)

Section interface.
Context {port : Port} {V H : Type} `{!Malloc H} {allocated : H -> Z -> Prop} `{!MallocOk H allocated}.
Implicit Types (st : option (ShardedLRUCache V * H)) (p : list (Z * V)).
Notation sharded_inv := (sharded_inv (allocated := allocated)).
Notation index k := (Z.to_nat (Shard (HashSlice k))).

Definition sharded_pinned st p : Prop :=
  exists c h As ps, st = Some (c, h) /\ sharded_inv c h As ps /\ p ≡ₚ concat ps.

(** The value a lookup would find. *)
Definition cached (s : LRUCache V) (key : bytes) (hash : Z) : option V :=
  a ← Table_Lookup (table_ s) (cells s) key hash;
  if a =? 0 then None else e ← cells s !! a; e_value e.

Definition sharded_holds st (key : bytes) (v : V) : Prop :=
  ('(c, _) ← st; s ← shard_ c !! index key; cached s key (HashSlice key)) = Some v.

Definition maps (As : list (LRU_spec V)) (key : bytes) (v : V) : Prop :=
  exists A, As !! index key = Some A /\ spec_maps A key (HashSlice key) v.

Lemma cached_maps s h A q key hash v : shard_inv (allocated := allocated) s h A q -> cached s key hash = Some v <-> spec_maps A key hash v.
Proof.
  intros [[[_ _ _ Hc] _ _ Hu] _ _ _]. unfold cached. destruct (core_Lookup _ _ _ _ _ key hash Hc) as (a & -> & Hcases). cbn [mbind option_bind].
  destruct Hcases as [[-> Hno]|(Hpa & Ha & Hm)].
  - rewrite Z.eqb_refl. split; [done|]. intros (x & d & Hx & Hd & <- & <- & _). specialize (Hno x Hx). by rewrite matches_entry in Hno.
  - destruct (Z.eqb_spec a 0); [lia|]. destruct (matches_Some _ _ _ _ Hm) as (d & Hd & Hh & Hk).
    destruct (core_cell _ _ _ _ _ a d Hc Hd) as (e & -> & Hed & _). cbn [mbind option_bind]. assert (e_value e = n_value d) as -> by (by subst d).
    split; [intros Hv; by exists a, d|]. intros (x & d' & Hx & Hd' & Hk' & Hh' & Hv).
    assert (x = a) as ->; [|congruence]. apply (Hu x a key hash); [done|done| |done]. rewrite <- Hk', <- Hh'. by apply matches_entry.
Qed.

Lemma holds_maps c h As ps key v : sharded_inv c h As ps -> sharded_holds (Some (c, h)) key v <-> maps As key v.
Proof.
  intros Hinv. destruct (sharded_get c h As ps (index key) Hinv (Shard_lt key)) as (s & A & q & Hs & HA & _ & Hsi & _).
  unfold sharded_holds, maps. cbn [mbind option_bind]. rewrite Hs, HA. cbn [mbind option_bind]. rewrite (cached_maps s h A q key (HashSlice key) v Hsi).
  split; [intros Hm; by exists A|by intros (A' & [= <-] & Hm)].
Qed.

(** Changing shard [index k] changes what is mapped from its keys only. *)
Lemma maps_insert As k A A' key v : As !! index k = Some A -> maps (<[index k := A']> As) key v ->
  (index key = index k /\ spec_maps A' key (HashSlice key) v) \/ (index key <> index k /\ maps As key v).
Proof.
  intros HA (B & HB & Hm). destruct (decide (index key = index k)) as [E|Hne].
  - left. rewrite E, list_lookup_insert_eq in HB by (by eapply lookup_lt_Some). by simplify_eq.
  - right. rewrite list_lookup_insert_ne in HB by done. split; [done|]. by exists B.
Qed.

Lemma sharded_Insert_facts st p k v charge : sharded_pinned st p -> blen p + 2 < 2 ^ 32 -> 0 < charge < 2 ^ 32 ->
  sharded_pinned (Cache_Insert k v charge st).2 (((Cache_Insert k v charge st).1, v) :: p) /\
  forall k' v', sharded_holds (Cache_Insert k v charge st).2 k' v' -> (k' = k /\ v' = v) \/ (k' <> k /\ sharded_holds st k' v').
Proof.
  intros (c & h & As & ps & -> & Hinv & Hp) Hn Hch. assert (blen (concat ps) = blen p) as Hl by (unfold blen; by rewrite Hp).
  destruct (Sharded_Insert_ok k v charge c h As ps Hinv Hch) as (a & c' & h' & A & HA & Ha & Hu & Hli & Hins & ps' & Hp' & Hinv'); [lia|].
  cbn [Cache_Insert Sharded_ops mbind option_bind]. rewrite Hins. cbn [fst snd]. split.
  - eexists c', h', _, ps'. split_and!; [done|exact Hinv'|]. by rewrite Hp', Hp.
  - intros k' v' Hh. rewrite (holds_maps _ _ _ _ _ _ Hinv') in Hh. rewrite (holds_maps _ _ _ _ _ _ Hinv).
    apply (maps_insert As k A) in Hh as [[Hi Hm]|[Hi Hm]]; [|right; split; [congruence|done]|done].
    apply maps_evict, maps_replace in Hm; [|done..]. destruct Hm as [(-> & _ & ->)|[Hne Hm]]; [by left|right].
    split; [intros ->; by apply Hne|]. exists A. by rewrite Hi.
Qed.

Lemma sharded_Lookup_facts st p k : sharded_pinned st p -> blen p + 2 < 2 ^ 32 ->
  (forall k' v', sharded_holds (Cache_Lookup k st).2 k' v' -> sharded_holds st k' v') /\
  match (Cache_Lookup k st).1 with
  | Some a => exists v, sharded_holds st k v /\ sharded_pinned (Cache_Lookup k st).2 ((a, v) :: p)
  | None => sharded_pinned (Cache_Lookup k st).2 p /\ forall v, ~ sharded_holds st k v
  end.
Proof.
  intros (c & h & As & ps & -> & Hinv & Hp) Hn. assert (blen (concat ps) = blen p) as Hl by (unfold blen; by rewrite Hp).
  destruct (Sharded_Lookup_ok k c h As ps Hinv) as (a & c' & A & HA & Hlk & Ha & Hcases); [lia|].
  cbn [Cache_Lookup Sharded_ops mbind option_bind]. rewrite Hlk. cbn [mbind option_bind fst snd].
  destruct (spec_find A k (HashSlice k)) as [x|] eqn:Hf.
  - destruct Hcases as (-> & Hpa & v & ps' & Hm & Hp' & Hinv'). destruct (Z.eqb_spec a 0); [lia|]. split.
    + intros k' v' Hh. rewrite (holds_maps _ _ _ _ _ _ Hinv') in Hh. rewrite (holds_maps _ _ _ _ _ _ Hinv).
      apply (maps_insert As k A) in Hh as [[Hi Hm']|[_ Hm']]; [|done|done]. exists A. rewrite Hi. split; [done|]. by apply maps_lookup in Hm'.
    + exists v. split; [rewrite (holds_maps _ _ _ _ _ _ Hinv); by exists A|]. eexists c', h, _, ps'. split_and!; [done|exact Hinv'|]. by rewrite Hp', Hp.
  - destruct Hcases as [-> Hinv']. rewrite Z.eqb_refl. split.
    + intros k' v'. by rewrite (holds_maps _ _ _ _ _ _ Hinv'), (holds_maps _ _ _ _ _ _ Hinv).
    + split; [by exists c', h, As, ps|]. intros v. rewrite (holds_maps _ _ _ _ _ _ Hinv). intros (B & HB & Hm). simplify_eq.
      by eapply maps_find_None.
Qed.

Lemma sharded_Release_facts st p a v : sharded_pinned st ((a, v) :: p) ->
  sharded_pinned (Cache_Release a st) p /\ forall k' v', sharded_holds (Cache_Release a st) k' v' -> sharded_holds st k' v'.
Proof.
  intros (c & h & As & ps & -> & Hinv & Hp). destruct (Sharded_Release_ok a v p c h As ps Hinv) as (c' & h' & i & A & ps' & HA & Hrel & Hp' & Hinv'); [done|].
  cbn [Cache_Release Sharded_ops mbind option_bind]. rewrite Hrel. split; [eexists c', h', _, ps'; by split_and!|].
  intros k' v' Hh. rewrite (holds_maps _ _ _ _ _ _ Hinv') in Hh. rewrite (holds_maps _ _ _ _ _ _ Hinv).
  destruct Hh as (B & HB & Hm). destruct (decide (index k' = i)) as [E|Hne].
  - rewrite E, list_lookup_insert_eq in HB by (by eapply lookup_lt_Some). simplify_eq. apply maps_unref in Hm. by exists A.
  - rewrite list_lookup_insert_ne in HB by done. by exists B.
Qed.

Lemma sharded_Erase_facts st p k : sharded_pinned st p ->
  sharded_pinned (Cache_Erase k st) p /\ forall k' v', sharded_holds (Cache_Erase k st) k' v' -> k' <> k /\ sharded_holds st k' v'.
Proof.
  intros (c & h & As & ps & -> & Hinv & Hp). destruct (Sharded_Erase_ok k c h As ps Hinv) as (c' & h' & A & HA & Hu & Her & Hinv').
  cbn [Cache_Erase Sharded_ops mbind option_bind]. rewrite Her. split; [eexists c', h', _, ps; by split_and!|].
  intros k' v' Hh. rewrite (holds_maps _ _ _ _ _ _ Hinv') in Hh. rewrite (holds_maps _ _ _ _ _ _ Hinv).
  apply (maps_insert As k A) in Hh as [[Hi Hm]|[Hi Hm]]; [|split; [congruence|done]|done].
  unfold spec_erase in Hm. destruct (spec_find A k (HashSlice k)) as [a|] eqn:Hf.
  - apply maps_drop in Hm as [Hm Hno]. destruct (find_Some _ _ _ _ Hf) as [Ha Hma]. split; [intros ->; by apply Hno|]. exists A. by rewrite Hi.
  - split; [intros ->; by eapply maps_find_None|]. exists A. by rewrite Hi.
Qed.

#[export] Instance Sharded_cache_ok : CacheOk (option (ShardedLRUCache V * H)) V Z sharded_pinned sharded_holds.
Proof.
  split.
  - intros st p q Hpq (c & h & As & ps & -> & Hinv & Hp). exists c, h, As, ps. split_and!; [done|done|by rewrite <- Hpq].
  - intros st p a v (c & h & As & ps & -> & Hinv & Hp) Hin.
    destruct (pin_shard c h As ps a v Hinv) as (i & s & A & q & q' & d & _ & HA & _ & _ & _ & _ & Hd & Hv); [by rewrite <- Hp|].
    destruct (handle_at_ok c h As ps i A a d Hinv HA Hd) as (e & He & Hed). cbn. unfold Sharded_Value. rewrite He. cbn.
    rewrite <- Hv. by subst d.
  - intros st p k v charge Hp Hn Hc. by apply sharded_Insert_facts.
  - intros st p k v charge k' v' Hp Hn Hc. by eapply sharded_Insert_facts.
  - intros st p k a st' Hp Hn Hl. destruct (sharded_Lookup_facts st p k Hp Hn) as [_ Hf]. by rewrite Hl in Hf.
  - intros st p k st' Hp Hn Hl. destruct (sharded_Lookup_facts st p k Hp Hn) as [_ Hf]. by rewrite Hl in Hf.
  - intros st p k k' v' Hp Hn. by apply (sharded_Lookup_facts st p k Hp Hn).
  - intros st p a v Hp. by eapply sharded_Release_facts.
  - intros st p a v k' v' Hp. by eapply sharded_Release_facts.
  - intros st p k Hp. by apply sharded_Erase_facts.
  - intros st p k k' v' Hp. by eapply sharded_Erase_facts.
  - intros st p (c & h & As & ps & -> & [? ? ? ?] & Hp). cbn. eexists _, h, As, ps. split_and!; [done|by split|done].
  - intros st p k v (c & h & As & ps & -> & Hinv & Hp) Hh. exact Hh.
Qed.

Lemma NewLRUCache_inv (capacity : Z) (h : H) : 0 <= capacity <= 15 * 2 ^ 31 ->
  exists (c : ShardedLRUCache V) per, NewLRUCache capacity h = Some (c, h) /\ sharded_inv c h (replicate 16 (spec_new per)) (replicate 16 []).
Proof.
  intros Hc. unfold NewLRUCache, ShardedLRUCache_new. change kNumShards with 16.
  set (per := u64 (capacity + (16 - 1)) / 16).
  assert (0 <= per < 2 ^ 31) as Hper.
  { unfold per, u64. rewrite Z.mod_small by lia. split; [apply Z.div_pos; lia|apply Z.div_lt_upper_bound; lia]. }
  destruct (LRUCache_new_ok (V := V) (allocated := allocated) per h Hper) as (s & -> & Hs). cbn [mbind option_bind].
  eexists _, per. split; [done|]. split.
  - cbn. done.
  - intros i s' A q Hs' HA Hq. apply lookup_replicate in HA as [-> _], Hq as [-> _], Hs' as [-> _]. done.
  - intros i j A B a _ HA HB [d Hd]. apply lookup_replicate in HA as [-> _]. cbn in Hd. by rewrite lookup_empty in Hd.
  - intros i A a d HA Hd. apply lookup_replicate in HA as [-> _]. cbn in Hd. by rewrite lookup_empty in Hd.
Qed.

Lemma NewLRUCache_pinned (capacity : Z) (h : H) : 0 <= capacity <= 15 * 2 ^ 31 ->
  sharded_pinned (NewLRUCache capacity h) [] /\ forall k v, ~ sharded_holds (NewLRUCache capacity h) k v.
Proof.
  intros Hc. destruct (NewLRUCache_inv capacity h Hc) as (c & per & -> & Hinv).
  split; [by eexists _, h, _, _|]. intros k v. rewrite (holds_maps _ _ _ _ _ _ Hinv). intros (A & HA & Hm). apply lookup_replicate in HA as [-> _].
  destruct Hm as (a & d & Ha & _). cbn in Ha. by apply elem_of_nil in Ha.
Qed.

End interface.

(** * Clients of a cache *)

Section clients.
Context {port : Port} {V H : Type} `{!Malloc H}.
Implicit Types (c : ShardedLRUCache V) (h : H).

(** The cache, the handles held, and what was inserted. *)
Definition client_call (call : cache_call V) (s : option (ShardedLRUCache V * H) * list Z * list (bytes * V))
    : option (ShardedLRUCache V * H) * list Z * list (bytes * V) :=
  let '(st, held, inserted) := s in
  match call with
  | CallInsert key v charge => let '(a, st) := Cache_Insert key v charge st in (st, a :: held, (key, v) :: inserted)
  | CallLookup key => let '(r, st) := Cache_Lookup key st in (st, option_list r ++ held, inserted)
  | CallRelease n =>
    match held !! n with
    | Some a => (Cache_Release a st, delete n held, inserted)
    | None => (st, held, inserted)
    end
  | CallErase key => (Cache_Erase key st, held, inserted)
  end.

Definition client_run (calls : list (cache_call V)) s := foldl (fun s call => client_call call s) s calls.

(** The values passed to the deleter so far, and those in the memory. *)
Definition deleted_values c : list (bytes * V) := concat (deleted <$> shard_ c).
Definition memory_values (m : gmap Z (LRUHandle V)) : list (bytes * V) := map_to_list m ≫= fun ae => entry_pair (entry_of ae.2).
Definition live_values c : list (bytes * V) := concat ((fun s => memory_values (cells s)) <$> shard_ c).

Context {allocated : H -> Z -> Prop} `{!MallocOk H allocated}.
Notation sharded_inv := (sharded_inv (allocated := allocated)).

Definition shards_accounted (As : list (LRU_spec V)) (Is : list (list (bytes * V))) : Prop :=
  length Is = 16%nat /\ forall i A I, As !! i = Some A -> Is !! i = Some I -> accounted A I.

Record client_inv (st : option (ShardedLRUCache V * H)) (held : list Z) (inserted : list (bytes * V))
    c h (As : list (LRU_spec V)) (ps : list (list (Z * V))) (Is : list (list (bytes * V))) : Prop := {
  ci_state : st = Some (c, h);
  ci_inv : sharded_inv c h As ps;
  ci_held : held ≡ₚ (concat ps).*1;
  ci_accounted : shards_accounted As Is;
  ci_inserted : inserted ≡ₚ concat Is;
}.

(** A call that inserts the values [x] into shard [i]. *)
Lemma accounted_step As Is i A A' x : shards_accounted As Is -> As !! i = Some A -> (i < 16)%nat ->
  (forall I, accounted A I -> accounted A' (x ++ I)) ->
  exists Is', shards_accounted (<[i := A']> As) Is' /\ concat Is' ≡ₚ x ++ concat Is.
Proof.
  intros [Hl HI] HA Hi Hstep. destruct (lookup_lt_is_Some_2 Is i) as [I HIi]; [lia|].
  exists (<[i := x ++ I]> Is). split; [split; [by rewrite length_insert|]|by apply (concat_replace Is i I)].
  intros j B J. destruct (decide (j = i)) as [->|Hne].
  - rewrite !list_lookup_insert_eq; [|lia|by eapply lookup_lt_Some]. intros [= <-] [= <-]. by apply Hstep, (HI i).
  - rewrite !list_lookup_insert_ne by done. apply HI.
Qed.

Lemma client_step call st held inserted c h As ps Is : client_inv st held inserted c h As ps Is -> call_ok call -> blen held + 2 < 2 ^ 32 ->
  exists c' h' As' ps' Is', let '(st', held', inserted') := client_call call (st, held, inserted) in
    client_inv st' held' inserted' c' h' As' ps' Is' /\ blen held' <= blen held + 1.
Proof.
  intros [-> Hinv Hh HI Hins] Hok Hn.
  assert (blen (concat ps) = blen held) as Hl by (unfold blen; by rewrite Hh, length_fmap).
  destruct call as [key v charge|key|n|key]; cbn [client_call].
  - destruct (Sharded_Insert_ok key v charge c h As ps Hinv Hok) as (a & c' & h' & A & HA & Ha & _ & _ & Hi & ps' & Hp' & Hinv'); [lia|].
    destruct (accounted_step As Is _ A (spec_insert a key (HashSlice key) v charge A) [(key, v)] HI HA (Shard_lt key)) as (Is' & HI' & Hc').
    { intros I. by apply accounted_insert. }
    cbn [Cache_Insert Sharded_ops mbind option_bind]. rewrite Hi. cbn iota beta. eexists c', h', _, ps', Is'. split; [split; [done|exact Hinv'| |done|]|rewrite blen_cons; lia].
    + by rewrite Hp', Hh.
    + by rewrite Hc', Hins.
  - destruct (Sharded_Lookup_ok key c h As ps Hinv) as (a & c' & A & HA & Hlk & Ha & Hcases); [lia|].
    cbn [Cache_Lookup Sharded_ops mbind option_bind]. rewrite Hlk. cbn [mbind option_bind].
    destruct (spec_find A key (HashSlice key)) as [x|].
    + destruct Hcases as (-> & Hpa & v & ps' & Hm & Hp' & Hinv'). destruct (Z.eqb_spec a 0); [lia|]. cbn iota beta. change (option_list (Some a) ++ held) with (a :: held).
      destruct (accounted_step As Is _ A (spec_lookup key (HashSlice key) A).2 [] HI HA (Shard_lt key)) as (Is' & HI' & Hc').
      { intros I. by apply accounted_lookup. }
      eexists c', h, _, ps', Is'. split; [split; [done|exact Hinv'| |done|]|rewrite blen_cons; lia].
      * by rewrite Hp', Hh.
      * by rewrite Hc', Hins.
    + destruct Hcases as [-> Hinv']. rewrite Z.eqb_refl. cbn iota beta. change (option_list None ++ held) with held. exists c', h, As, ps, Is. split; [by split|lia].
  - destruct (held !! n) as [a|] eqn:Hn'; [|exists c, h, As, ps, Is; split; [by split|lia]].
    pose proof (delete_Permutation held n a Hn') as Hdel.
    destruct (held_split (concat ps) held n a Hh Hn') as (v & p & Hp & Hp1).
    destruct (Sharded_Release_ok a v p c h As ps Hinv Hp) as (c' & h' & i & A & ps' & HA & Hrel & Hp' & Hinv').
    destruct (accounted_step As Is i A (spec_unref a A) [] HI HA) as (Is' & HI' & Hc').
    { apply lookup_lt_Some in HA. destruct (sh_shards _ _ _ _ Hinv) as (_ & ? & _). lia. }
    { intros I. by apply accounted_unref. }
    cbn [Cache_Release Sharded_ops mbind option_bind]. rewrite Hrel. eexists c', h', _, ps', Is'. split; [split; [done|exact Hinv'| |done|]|].
    + by rewrite Hp', Hp1.
    + by rewrite Hc', Hins.
    + apply Permutation_length in Hdel. unfold blen. cbn in Hdel. lia.
  - destruct (Sharded_Erase_ok key c h As ps Hinv) as (c' & h' & A & HA & Hu & Her & Hinv').
    destruct (accounted_step As Is _ A (spec_erase key (HashSlice key) A) [] HI HA (Shard_lt key)) as (Is' & HI' & Hc').
    { intros I HAI. unfold spec_erase. case_match; [by apply accounted_drop|done]. }
    cbn [Cache_Erase Sharded_ops mbind option_bind]. rewrite Her. eexists c', h', _, ps, Is'. split; [split; [done|exact Hinv'|done|done|]|lia].
    by rewrite Hc', Hins.
Qed.

Lemma client_run_ok calls : forall st held inserted c h As ps Is, client_inv st held inserted c h As ps Is -> Forall call_ok calls ->
  blen held + blen calls + 2 < 2 ^ 32 ->
  exists c' h' As' ps' Is', let '(st', held', inserted') := client_run calls (st, held, inserted) in client_inv st' held' inserted' c' h' As' ps' Is'.
Proof.
  induction calls as [|call calls IH]; intros st held inserted c h As ps Is Hinv Hok Hn; [by exists c, h, As, ps, Is|].
  apply Forall_cons in Hok as [Hc Hok]. rewrite blen_cons in Hn. pose proof (blen_nonneg calls).
  destruct (client_step call st held inserted c h As ps Is Hinv Hc) as (c' & h' & As' & ps' & Is' & Hst); [lia|].
  unfold client_run. cbn [foldl]. fold (client_run calls (client_call call (st, held, inserted))).
  destruct (client_call call (st, held, inserted)) as [[st' held'] inserted']. destruct Hst as [Hinv' Hle].
  apply (IH st' held' inserted' c' h' As' ps' Is' Hinv' Hok). lia.
Qed.

(** ** What the client sees *)

Lemma memory_live m t l T E : core m t l T E -> memory_values m ≡ₚ live E.
Proof.
  intros Hc. destruct (co_memory _ _ _ _ _ Hc) as (nx & pv & ln & bs & Hv & _). pose proof (view_entry _ _ _ _ _ Hv) as He.
  assert (memory_values m ≡ₚ live (entry_of <$> m)) as ->.
  { unfold memory_values, live. by rewrite map_to_list_fmap, list_fmap_bind. }
  rewrite He, live_insert; [done|]. destruct (E !! lru_addr) eqn:E0; [|done]. exfalso. by apply (core_ne m t l T E lru_addr Hc); [eexists|].
Qed.

Lemma concat_zip {X} (Is Ds Ms : list (list X)) : length Ds = length Is -> length Ms = length Is ->
  (forall i I D M, Is !! i = Some I -> Ds !! i = Some D -> Ms !! i = Some M -> I ≡ₚ D ++ M) -> concat Is ≡ₚ concat Ds ++ concat Ms.
Proof.
  revert Ds Ms. induction Is as [|I Is IH]; intros [|D Ds] [|M Ms] HD HM Hi; try done. cbn [concat].
  rewrite (Hi O I D M eq_refl eq_refl eq_refl), (IH Ds Ms); [solve_Permutation|by injection HD|by injection HM|].
  intros i J D' M' HJ HD' HM'. by apply (Hi (S i)).
Qed.

Lemma client_accounts st held inserted c h As ps Is : client_inv st held inserted c h As ps Is -> inserted ≡ₚ deleted_values c ++ live_values c.
Proof.
  intros [_ Hinv _ [HIl HI] ->]. destruct (sh_shards _ _ _ _ Hinv) as (H1 & H2 & H3). apply concat_zip; [rewrite length_fmap; lia..|].
  intros i I D M HIi HD HM. destruct (sharded_get c h As ps i Hinv) as (s & A & q & Hs & HA & _ & Hsi & _); [apply lookup_lt_Some in HIi; lia|].
  rewrite list_lookup_fmap, Hs in HD, HM. cbn in HD, HM. simplify_eq. pose proof (so_rep _ _ _ (si_ok _ _ _ _ Hsi)) as [_ _ -> Hc].
  rewrite (memory_live _ _ _ _ _ Hc). by apply (HI i).
Qed.

Lemma client_alive st held inserted c h As ps Is a : client_inv st held inserted c h As ps Is -> a ∈ held ->
  exists k v, Cache_Value a st = Some v /\ (k, v) ∈ live_values c.
Proof.
  intros [-> Hinv Hh _ _] Ha. rewrite Hh in Ha. apply list_elem_of_fmap in Ha as ([a' v] & -> & Hin). cbn [fst].
  destruct (pin_shard c h As ps a' v Hinv Hin) as (i & s & A & q & q' & d & Hs & HA & _ & _ & Hsi & _ & Hd & Hv).
  exists (n_key d), v. split.
  - destruct (handle_at_ok c h As ps i A a' d Hinv HA Hd) as (e & He & Hed). cbn. unfold Sharded_Value. rewrite He. cbn. rewrite <- Hv. by subst d.
  - pose proof (so_rep _ _ _ (si_ok _ _ _ _ Hsi)) as [_ _ _ Hc]. unfold live_values.
    assert ((n_key d, v) ∈ memory_values (cells s)) as Hm.
    { rewrite (memory_live _ _ _ _ _ Hc), (live_delete _ a' d Hd). unfold entry_pair. rewrite Hv. cbn. by left. }
    apply list_elem_of_In, in_concat. exists (memory_values (cells s)). split; [|by apply list_elem_of_In].
    apply list_elem_of_In, list_elem_of_fmap. exists s. split; [done|]. by apply list_elem_of_lookup_2 in Hs.
Qed.

Lemma destroy_shards_ok (shards : list (LRUCache V)) Ls :
  Forall2 (fun s L => forall h0, exists s' h' l, LRU_destroy s h0 = Some (s', h') /\ deleted s' = deleted s ++ l /\ l ≡ₚ L) shards Ls ->
  forall h, exists log h', destroy_shards shards h = Some (log, h') /\ log ≡ₚ concat Ls.
Proof.
  induction 1 as [|s L shards Ls Hs _ IH]; intros h; [by exists [], h|]. cbn [destroy_shards].
  destruct (IH h) as (log & h1 & -> & Hlog). cbn [mbind option_bind]. destruct (Hs h1) as (s' & h2 & l & -> & Hd & Hl). cbn [mbind option_bind].
  rewrite Hd, drop_app_length. exists (log ++ l), h2. split; [done|]. cbn [concat]. rewrite Hlog, Hl. apply Permutation_app_comm.
Qed.

Lemma sharded_destroy c h As ps : sharded_inv c h As ps -> concat ps = [] ->
  exists log, Sharded_destroy c h = Some log /\ log ≡ₚ live_values c.
Proof.
  intros Hinv Hps. destruct (sh_shards _ _ _ _ Hinv) as (H1 & H2 & H3).
  destruct (destroy_shards_ok (shard_ c) ((fun s => memory_values (cells s)) <$> shard_ c)) with h as (log & h' & Hd & Hlog).
  - apply Forall2_fmap_r, Forall2_same_length_lookup. split; [done|]. intros i s s0 Hs Hs0. simplify_eq.
    destruct (sharded_get c h As ps i Hinv) as (s0 & A & q & Hs0 & HA & Hq & Hsi & _); [apply lookup_lt_Some in Hs; lia|]. simplify_eq.
    assert (q = []) as ->. { destruct q as [|x q]; [done|]. exfalso. rewrite (concat_split ps i _ Hq) in Hps. by destruct (concat (take i ps)). }
    intros h0. destruct (LRU_destroy_ok _ h h0 A Hsi) as (s' & h' & l & Hds & Hl & Hlive). exists s', h', l. split_and!; [done|done|].
    destruct (so_rep _ _ _ (si_ok _ _ _ _ Hsi)) as [_ _ _ Hc]. by rewrite (memory_live _ _ _ _ _ Hc).
  - exists log. unfold Sharded_destroy. by rewrite Hd.
Qed.

Lemma client_destroy st inserted c h As ps Is : client_inv st [] inserted c h As ps Is ->
  exists log, Sharded_destroy c h = Some log /\ log ≡ₚ live_values c.
Proof.
  intros [_ Hinv Hh _ _]. apply (sharded_destroy _ _ _ _ Hinv). apply Permutation_nil in Hh. by apply fmap_nil_inv in Hh.
Qed.

End clients.

(** C12: the cache of [NewLRUCache] keeps the promise of the cache interface,
    for every conforming allocator: handles stay valid until they are released
    and read the value they were given, [Lookup] finds only what was inserted
    last under the key and not erased since, and no access is out of bounds. *)
Theorem NewLRUCache_ok {port : Port} {V H : Type} `{!Malloc H} (allocated : H -> Z -> Prop) `{!MallocOk H allocated}
    (capacity : Z) (h : H) :
  0 <= capacity <= 15 * 2 ^ 31 ->
  exists (pinned : option (ShardedLRUCache V * H) -> list (Z * V) -> Prop) (holds : option (ShardedLRUCache V * H) -> bytes -> V -> Prop),
    CacheOk (option (ShardedLRUCache V * H)) V Z pinned holds /\
    pinned (NewLRUCache capacity h) [] /\ forall k v, ~ holds (NewLRUCache capacity h) k v.
Proof.
  intros Hc. exists (sharded_pinned (allocated := allocated)), sharded_holds. split; [apply _|]. by apply NewLRUCache_pinned.
Qed.

(** C11: the deleter runs exactly once.  For any calls of a client, values that
    were inserted are alive in the cache's memory or have been passed to the
    deleter, each once; a value whose handle is held is readable and alive, and
    once every handle is given back, destroying the cache deletes all of the
    rest. *)
Theorem LRUCache_deletes_once {port : Port} {V H : Type} `{!Malloc H} (allocated : H -> Z -> Prop) `{!MallocOk H allocated}
    (capacity : Z) (h : H) (calls : list (cache_call V)) :
  0 <= capacity <= 15 * 2 ^ 31 -> Forall call_ok calls -> blen calls + 2 < 2 ^ 32 ->
  let '(st, held, inserted) := client_run calls (NewLRUCache capacity h, [], []) in
  exists c h', st = Some (c, h') /\ inserted ≡ₚ deleted_values c ++ live_values c /\
    Forall (fun a => exists k v, Cache_Value a st = Some v /\ (k, v) ∈ live_values c) held /\
    (held = [] -> exists log, Sharded_destroy c h' = Some log /\ log ≡ₚ live_values c).
Proof.
  intros Hc Hok Hn. destruct (NewLRUCache_inv (allocated := allocated) (V := V) capacity h Hc) as (c & per & E & Hinv).
  assert (client_inv (allocated := allocated) (NewLRUCache capacity h) [] [] c h (replicate 16 (spec_new per)) (replicate 16 []) (replicate 16 [])) as HI.
  { split; [done|done|done| |done]. split; [done|].
    intros i A I HA HI. apply lookup_replicate in HA as [-> _], HI as [-> _].
    unfold accounted, live. cbn [spec_new s_deleted s_entries app]. by rewrite map_to_list_empty. }
  destruct (client_run_ok calls _ _ _ _ _ _ _ _ HI Hok) as (c' & h2 & As' & ps' & Is' & Hrun); [rewrite blen_nil; lia|].
  destruct (client_run calls (NewLRUCache capacity h, [], [])) as [[st held] inserted].
  exists c', h2. split_and!; [apply Hrun|by eapply client_accounts| |].
  - apply Forall_forall. intros a Ha. by eapply client_alive.
  - intros ->. by eapply client_destroy.
Qed.

Lemma NewLRUCache_ok_witness :
  exists (pinned : option (ShardedLRUCache nat * SetHeap) -> list (Z * nat) -> Prop) (holds : option (ShardedLRUCache nat * SetHeap) -> bytes -> nat -> Prop),
    CacheOk (option (ShardedLRUCache nat * SetHeap)) nat Z pinned holds (CacheOps0 := Sharded_ops (port := little_endian_port)) /\
    pinned (NewLRUCache 100 ∅) [] /\ forall k v, ~ holds (NewLRUCache 100 ∅) k v.
Proof. apply (NewLRUCache_ok (port := little_endian_port) set_allocated 100 (∅ : SetHeap)). lia. Defined.

Lemma LRUCache_deletes_once_witness :
  let '(st, held, inserted) := client_run (port := little_endian_port) test_calls (NewLRUCache 4 (∅ : SetHeap), [], []) in
  exists c h', st = Some (c, h') /\ inserted ≡ₚ deleted_values c ++ live_values c /\
    Forall (fun a => exists k v, Cache_Value (CacheOps := Sharded_ops (port := little_endian_port)) a st = Some v /\ (k, v) ∈ live_values c) held /\
    (held = [] -> exists log, Sharded_destroy c h' = Some log /\ log ≡ₚ live_values c).
Proof. apply (LRUCache_deletes_once (port := little_endian_port) set_allocated 4 (∅ : SetHeap) test_calls); [lia|repeat constructor; cbn; lia|done]. Defined.
