(* ===== verification/ShardedOwner.v ===== *)
(** What the LRU cache of [util/cache.cpp] owns: the deleter gets every value
    that was inserted once, when neither the cache nor a client refers to it
    any more, and ids are never issued twice.  This is what the table cache
    relies on to close its files. *)

From S2P Require Import Prelude Port Hash Cache LRUCache LRUShard ShardedCache.

(** * The deletions of a shard *)

Section shard.
Context {V : Type}.
Implicit Types A B : LRU_spec V.

(** The deletions that led from [A] to [B]. *)
Definition newly_deleted A B : list (bytes * V) := drop (length (s_deleted A)) (s_deleted B).

Lemma unref_deleted a A : s_deleted A `prefix_of` s_deleted (spec_unref a A).
Proof. unfold spec_unref. repeat case_match; cbn; [by apply prefix_app_r|done|done]. Qed.

Lemma evict_deleted l : forall A, s_deleted A `prefix_of` s_deleted (spec_evict l A).
Proof.
  induction l as [|a l IH]; intros A; cbn [spec_evict]; [done|]. case_match; [|done].
  etransitivity; [|apply IH]. apply (unref_deleted a (relist A _)).
Qed.

Lemma insert_deleted a key hash value charge A : s_deleted A `prefix_of` s_deleted (spec_insert a key hash value charge A).
Proof.
  unfold spec_insert. etransitivity; [|apply evict_deleted]. unfold spec_replace.
  case_match; [|done]. apply (unref_deleted _ (relist (spec_add a key hash value charge A) _)).
Qed.

Lemma erase_deleted key hash A : s_deleted A `prefix_of` s_deleted (spec_erase key hash A).
Proof. unfold spec_erase. case_match; [|done]. apply (unref_deleted _ (relist A _)). Qed.

(** A step that inserts [x] loses exactly what it deletes. *)
Definition owner_step (x : list (bytes * V)) A B : Prop := x ++ live (s_entries A) ≡ₚ newly_deleted A B ++ live (s_entries B).

Lemma owner_step_intro x A B : s_deleted A `prefix_of` s_deleted B ->
  (forall I, accounted A I -> accounted B (x ++ I)) -> owner_step x A B.
Proof.
  intros [l Hl] Hacc. specialize (Hacc _ (reflexivity _)). unfold accounted in Hacc. unfold owner_step, newly_deleted.
  rewrite Hl, drop_app_length in *. apply (Permutation_app_inv_l (s_deleted A)). rewrite !app_assoc, <- Hacc.
  rewrite !app_assoc. f_equiv. apply Permutation_app_comm.
Qed.

Lemma newly_deleted_refl A : newly_deleted A A = [].
Proof. unfold newly_deleted. by rewrite drop_all. Qed.

Definition shard_deletions (As Bs : list (LRU_spec V)) : list (bytes * V) := concat (zip_with newly_deleted As Bs).
Definition all_live (As : list (LRU_spec V)) : list (bytes * V) := concat ((fun A => live (s_entries A)) <$> As).

Lemma shard_deletions_refl As : shard_deletions As As = [].
Proof. induction As as [|A As IH]; [done|]. unfold shard_deletions in *. cbn. by rewrite newly_deleted_refl, IH. Qed.

Lemma shards_step As i A B x : As !! i = Some A -> owner_step x A B ->
  x ++ all_live As ≡ₚ shard_deletions As (<[i := B]> As) ++ all_live (<[i := B]> As).
Proof.
  unfold owner_step. revert i. induction As as [|A' As IH]; intros [|i] HA Hs; [done..| |].
  - injection HA as ->. pose proof (shard_deletions_refl As) as Hr. unfold shard_deletions, all_live in *. cbn.
    rewrite Hr, app_nil_r, !app_assoc. by rewrite Hs.
  - specialize (IH i HA Hs). unfold shard_deletions, all_live in *. cbn. rewrite newly_deleted_refl. cbn.
    rewrite (Permutation_app_comm x), <- app_assoc, (Permutation_app_comm _ x), IH. solve_Permutation.
Qed.
End shard.

(** * The deletions of the cache *)

Section owner.
Context {port : Port} {V H : Type} `{!Malloc H} {allocated : H -> Z -> Prop} `{!MallocOk H allocated}.
Implicit Types (c : ShardedLRUCache V) (st : option (ShardedLRUCache V * H)) (p : list (Z * V)).
Notation sharded_inv := (sharded_inv (allocated := allocated)).
Notation sharded_pinned := (sharded_pinned (allocated := allocated)).
Notation index k := (Z.to_nat (Shard (HashSlice k))).

#[export] Instance Sharded_deletions : CacheDeletions (option (ShardedLRUCache V * H)) V := {
  Cache_deletions st st' :=
    match st, st' with
    | Some (c, _), Some (c', _) => concat (zip_with (fun s s' => drop (length (deleted s)) (deleted s')) (shard_ c) (shard_ c'))
    | _, _ => []
    end;
  Cache_destroy st := '(c, h) ← st; Sharded_destroy c h;
}.

Definition sharded_owned st : list (bytes * V) := from_option (fun ch => live_values ch.1) [] st.
Definition sharded_last_id st : Z := from_option (fun ch => last_id_ ch.1) 0 st.

(** The concrete notions are those of the abstract shards. *)
Lemma shards_deleted c h As ps : sharded_inv c h As ps -> deleted <$> shard_ c = s_deleted <$> As.
Proof.
  intros Hinv. apply list_eq. intros i. rewrite !list_lookup_fmap. destruct (sh_shards _ _ _ _ Hinv) as (H1 & H2 & _).
  destruct (decide (i < 16)%nat) as [Hi|Hi]; [|by rewrite !lookup_ge_None_2 by lia].
  destruct (sharded_get c h As ps i Hinv Hi) as (s & A & q & -> & -> & _ & Hsi & _). cbn. f_equal.
  apply (rep_deleted _ _ _ (so_rep _ _ _ (si_ok _ _ _ _ Hsi))).
Qed.

Lemma sharded_deletions_eq c h As ps c' h' As' ps' : sharded_inv c h As ps -> sharded_inv c' h' As' ps' ->
  Cache_deletions (Some (c, h)) (Some (c', h')) = shard_deletions As As'.
Proof.
  intros Hi Hi'. pose proof (shards_deleted _ _ _ _ Hi) as E. pose proof (shards_deleted _ _ _ _ Hi') as E'.
  assert (forall (X Y : Type) (g : X -> list (bytes * V)) (g' : Y -> list (bytes * V)) xs ys,
    zip_with (fun x y => drop (length (g x)) (g' y)) xs ys = zip_with (fun x y => drop (length x) y) (g <$> xs) (g' <$> ys)) as Hz.
  { intros X Y g g' xs. induction xs as [|x xs IH]; intros [|y ys]; [done..|]. cbn. by rewrite IH. }
  cbn. unfold shard_deletions, newly_deleted. by rewrite (Hz _ _ deleted deleted), (Hz _ _ s_deleted s_deleted), E, E'.
Qed.

Lemma live_values_eq c h As ps : sharded_inv c h As ps -> live_values c ≡ₚ all_live As.
Proof.
  intros Hinv. destruct (sh_shards _ _ _ _ Hinv) as (H1 & H2 & _). unfold live_values, all_live.
  assert (Forall2 (≡ₚ) ((fun s => memory_values (cells s)) <$> shard_ c) ((fun A => live (s_entries A)) <$> As)) as Hf.
  { apply Forall2_fmap, Forall2_same_length_lookup. split; [lia|]. intros i s A Hs HA.
    destruct (sharded_get c h As ps i Hinv) as (s' & A' & q & Hs' & HA' & _ & Hsi & _); [apply lookup_lt_Some in HA; lia|].
    simplify_eq. destruct (so_rep _ _ _ (si_ok _ _ _ _ Hsi)) as [_ _ _ Hc]. apply (memory_live _ _ _ _ _ Hc). }
  induction Hf as [|x y xs ys Hxy _ IH]; [done|]. cbn. by rewrite Hxy, IH.
Qed.

Lemma sharded_step_owned c h As ps c' h' ps' i A B x : sharded_inv c h As ps -> As !! i = Some A ->
  sharded_inv c' h' (<[i := B]> As) ps' -> owner_step x A B ->
  x ++ sharded_owned (Some (c, h)) ≡ₚ Cache_deletions (Some (c, h)) (Some (c', h')) ++ sharded_owned (Some (c', h')).
Proof.
  intros Hi HA Hi' Hs. rewrite (sharded_deletions_eq _ _ _ _ _ _ _ _ Hi Hi'). cbn.
  rewrite (live_values_eq _ _ _ _ Hi), (live_values_eq _ _ _ _ Hi'). by apply (shards_step As i A).
Qed.

Lemma live_lookup (As : list (LRU_spec V)) i A a d v : As !! i = Some A -> s_entries A !! a = Some d -> n_value d = Some v -> (n_key d, v) ∈ all_live As.
Proof.
  intros HA Hd Hv. unfold all_live. apply list_elem_of_In, in_concat. exists (live (s_entries A)). split.
  - apply list_elem_of_In, list_elem_of_fmap. exists A. split; [done|]. by eapply list_elem_of_lookup_2.
  - apply list_elem_of_In. rewrite (live_delete _ a d Hd). unfold entry_pair. rewrite Hv. cbn. by left.
Qed.

#[export] Instance Sharded_owner : CacheOwner (option (ShardedLRUCache V * H)) V Z sharded_pinned sharded_holds sharded_owned.
Proof.
  split.
  - intros st p a v (c & h & As & ps & -> & Hinv & Hp) Hin.
    destruct (pin_shard c h As ps a v Hinv) as (i & s & A & q & q' & d & _ & HA & _ & _ & _ & _ & Hd & Hv); [by rewrite <- Hp|].
    exists (n_key d). cbn. rewrite (live_values_eq _ _ _ _ Hinv). by eapply live_lookup.
  - intros st p k v (c & h & As & ps & -> & Hinv & Hp) Hh. rewrite (holds_maps _ _ _ _ _ _ Hinv) in Hh.
    destruct Hh as (A & HA & a & d & _ & Hd & <- & _ & Hv). cbn. rewrite (live_values_eq _ _ _ _ Hinv). by eapply live_lookup.
  - intros st p k v charge (c & h & As & ps & -> & Hinv & Hp) Hn Hch. cbn zeta.
    destruct (Sharded_Insert_ok k v charge c h As ps Hinv Hch) as (a & c' & h' & A & HA & Ha & Hu & Hli & Hins & ps' & _ & Hinv').
    { unfold blen. rewrite <- Hp. exact Hn. }
    cbn [Cache_Insert Sharded_ops mbind option_bind]. rewrite Hins. cbn [snd].
    apply (sharded_step_owned _ _ _ _ _ _ _ _ _ _ [(k, v)] Hinv HA Hinv'), owner_step_intro; [apply insert_deleted|].
    intros I. by apply accounted_insert.
  - intros st p k (c & h & As & ps & -> & Hinv & Hp) Hn.
    destruct (Sharded_Lookup_ok k c h As ps Hinv) as (a & c' & A & HA & Hlk & Ha & Hcases).
    { unfold blen. rewrite <- Hp. exact Hn. }
    cbn [Cache_Lookup Sharded_ops mbind option_bind]. rewrite Hlk. cbn [mbind option_bind snd].
    destruct (spec_find A k (HashSlice k)) as [x|] eqn:Hf.
    + destruct Hcases as (_ & _ & v & ps' & _ & _ & Hinv'). cbn. rewrite (live_values_eq _ _ _ _ Hinv), (live_values_eq _ _ _ _ Hinv').
      assert (owner_step [] A (spec_lookup k (HashSlice k) A).2) as Hs.
      { apply owner_step_intro; [unfold spec_lookup; by rewrite Hf|]. intros I. apply accounted_lookup. }
      assert (newly_deleted A (spec_lookup k (HashSlice k) A).2 = []) as Hd.
      { unfold spec_lookup. rewrite Hf. apply drop_all. }
      assert (shard_deletions As (<[index k := (spec_lookup k (HashSlice k) A).2]> As) = []) as Hno.
      { unfold shard_deletions. apply concat_nil_Forall, Forall_lookup. intros j y Hj.
        apply lookup_zip_with_Some in Hj as (B & B' & -> & HB & HB'). destruct (decide (j = index k)) as [->|Hne].
        - rewrite list_lookup_insert_eq in HB' by (by eapply lookup_lt_Some). by simplify_eq.
        - rewrite list_lookup_insert_ne in HB' by done. simplify_eq. apply newly_deleted_refl. }
      pose proof (shards_step As _ A _ [] HA Hs) as Hall. rewrite Hno in Hall. by symmetry.
    + destruct Hcases as [_ Hinv']. cbn. by rewrite (live_values_eq _ _ _ _ Hinv), (live_values_eq _ _ _ _ Hinv').
  - intros st p a v (c & h & As & ps & -> & Hinv & Hp). cbn zeta.
    destruct (Sharded_Release_ok a v p c h As ps Hinv) as (c' & h' & i & A & ps' & HA & Hrel & _ & Hinv'); [done|].
    cbn [Cache_Release Sharded_ops mbind option_bind]. rewrite Hrel.
    apply (sharded_step_owned _ _ _ _ _ _ _ _ _ _ [] Hinv HA Hinv'), owner_step_intro; [apply unref_deleted|].
    intros I. by apply accounted_unref.
  - intros st p k (c & h & As & ps & -> & Hinv & Hp). cbn zeta.
    destruct (Sharded_Erase_ok k c h As ps Hinv) as (c' & h' & A & HA & Hu & Her & Hinv').
    cbn [Cache_Erase Sharded_ops mbind option_bind]. rewrite Her.
    apply (sharded_step_owned _ _ _ _ _ _ _ _ _ _ [] Hinv HA Hinv'), owner_step_intro; [apply erase_deleted|].
    intros I HI. unfold spec_erase. case_match; [by apply accounted_drop|done].
  - intros st (c & h & As & ps & -> & Hinv & Hp). apply (sharded_destroy _ _ _ _ Hinv). by apply Permutation_nil.
Qed.

#[export] Instance Sharded_ids : CacheIds (option (ShardedLRUCache V * H)) V Z sharded_pinned sharded_last_id.
Proof.
  split.
  - intros n. split.
    + intros st p k v charge (c & h & As & ps & -> & Hinv & Hp) Hn Hch Hid.
      destruct (Sharded_Insert_ok k v charge c h As ps Hinv Hch) as (a & c' & h' & A & _ & _ & _ & _ & Hins & _).
      { unfold blen. rewrite <- Hp. exact Hn. }
      cbn [Cache_Insert Sharded_ops mbind option_bind]. rewrite Hins. cbn [snd sharded_last_id from_option fst] in *. unfold Sharded_Insert in Hins.
      destruct (shard_ c !! _); [|done]. cbn [mbind option_bind] in Hins. destruct (LRU_Insert _ _ _ _ _ _) as [[[??]?]|]; [|done]. cbn [mbind option_bind] in Hins. by simplify_eq/=.
    + intros st p k (c & h & As & ps & -> & Hinv & Hp) Hn Hid.
      destruct (Sharded_Lookup_ok k c h As ps Hinv) as (a & c' & A & _ & Hlk & _).
      { unfold blen. rewrite <- Hp. exact Hn. }
      cbn [Cache_Lookup Sharded_ops mbind option_bind]. rewrite Hlk. cbn [snd sharded_last_id from_option fst] in *. unfold Sharded_Lookup in Hlk.
      destruct (shard_ c !! _); [|done]. cbn [mbind option_bind] in Hlk. destruct (LRU_Lookup _ _ _) as [[??]|]; [|done]. cbn [mbind option_bind] in Hlk. by simplify_eq/=.
    + intros st p a v (c & h & As & ps & -> & Hinv & Hp) Hid.
      destruct (Sharded_Release_ok a v p c h As ps Hinv) as (c' & h' & i & A & ps' & _ & Hrel & _); [done|].
      cbn [Cache_Release Sharded_ops mbind option_bind]. rewrite Hrel. cbn [snd sharded_last_id from_option fst] in *. unfold Sharded_Release in Hrel.
      destruct (handle_at c a); [|done]. cbn [mbind option_bind] in Hrel. destruct (shard_ c !! _); [|done]. cbn [mbind option_bind] in Hrel.
      destruct (LRU_Release _ _ _) as [[??]|]; [|done]. cbn [mbind option_bind] in Hrel. by simplify_eq/=.
    + intros st p k (c & h & As & ps & -> & Hinv & Hp) Hid.
      destruct (Sharded_Erase_ok k c h As ps Hinv) as (c' & h' & A & _ & _ & Her & _).
      cbn [Cache_Erase Sharded_ops mbind option_bind]. rewrite Her. cbn [snd sharded_last_id from_option fst] in *. unfold Sharded_Erase in Her.
      destruct (shard_ c !! _); [|done]. cbn [mbind option_bind] in Her. destruct (LRU_Erase _ _ _ _) as [[??]|]; [|done]. cbn [mbind option_bind] in Her. by simplify_eq/=.
  - by intros st p (c & h & As & ps & -> & _).
Qed.

Lemma NewLRUCache_owned (capacity : Z) (h : H) : 0 <= capacity <= 15 * 2 ^ 31 -> sharded_owned (NewLRUCache capacity h) = [].
Proof.
  intros Hc. destruct (NewLRUCache_inv (allocated := allocated) (V := V) capacity h Hc) as (c & per & -> & Hinv). cbn.
  apply Permutation_nil. rewrite (live_values_eq _ _ _ _ Hinv). unfold all_live. rewrite fmap_replicate. cbn. unfold live.
  by rewrite map_to_list_empty.
Qed.

Lemma NewLRUCache_last_id (capacity : Z) (h : H) : sharded_last_id (NewLRUCache capacity h) = 0.
Proof. unfold NewLRUCache, ShardedLRUCache_new. by destruct LRUCache_new. Qed.
End owner.
