(* ===== verification/Table.v ===== *)
(** Tables: [include/leveldb/table.h] and [table/table.cpp].

    A table is opened from a file; its index block stays in memory, data
    blocks are read on demand and go through the block cache when there is
    one.  Proved, on top of the builder's image and against the interfaces of
    files, caches, comparators and filter policies: an opened table iterates
    over exactly the entries that were added, and a point lookup finds what
    was added. *)

From Stdlib Require Import Sorted.
From S2P Require Import Prelude Port Coding Crc32c Status Comparator Bloom Env Options BlockBuilder Iterator IteratorWrapper TwoLevelIterator Cache Block FilterBlock TableFormat TableBuilder.

(** * The code *)

Definition Footer_new : Footer :=
  {| metaindex_handle_ := BlockHandle_new; index_handle_ := BlockHandle_new |}.

Section code.
Context {port : Port} {H S : Type} `{!RandomAccessFileOps H S} {C Hd : Type} `{!CacheOps C Block Hd}.
(** The address of the read buffers and the initial content of new ones. *)
Context (buf : Z) (fresh : Z -> bytes).

(** [table_block_cache] tells whether [options.block_cache] is set; the cache
    itself is part of the state, next to the files.  [filter_data] only owns
    memory. *)
Record Table := mkTable {
  table_options : Options;
  table_file : H;
  table_block_cache : bool;
  cache_id : Z;
  table_filter : option FilterBlockReader;
  metaindex_handle : BlockHandle;
  table_index_block : Block;
}.

Definition set_filter (t : Table) (f : option FilterBlockReader) : Table :=
  mkTable (table_options t) (table_file t) (table_block_cache t) (cache_id t) f (metaindex_handle t) (table_index_block t).

(** [ReadOptions opt; if (options.paranoid_checks) opt.verify_checksums = true] *)
Definition meta_read_options (options : Options) : ReadOptions :=
  {| verify_checksums := paranoid_checks options; fill_cache := true |}.

Definition ReadFilter (t : Table) (filter_handle_value : bytes) (s : S) : Table * S :=
  match filter_policy (table_options t) with
  | None => (t, s)
  | Some policy =>
    let '(st, filter_handle, _) := BlockHandle_DecodeFrom BlockHandle_new filter_handle_value in
    if negb (ok st) then (t, s)
    else
      let '(st, block, s) := ReadBlock (table_file t) (meta_read_options (table_options t)) filter_handle buf fresh s in
      if negb (ok st) then (t, s)
      else (set_filter t (Some (FilterBlockReader_new policy (contents_data block))), s)
  end.

Definition ReadMeta (t : Table) (footer : Footer) (s : S) : Table * S :=
  match filter_policy (table_options t) with
  | None => (t, s)
  | Some _ =>
    let '(st, contents, s) :=
      ReadBlock (table_file t) (meta_read_options (table_options t)) (metaindex_handle_ footer) buf fresh s in
    if negb (ok st) then (t, s)
    else
      let meta := Block_new (contents_data contents) in
      let key := filter_key (table_options t) in
      let iter := Seek key (Block_NewIterator meta BytewiseComparator) in
      if Valid iter && Slice_eq (iter_key iter) key then ReadFilter t (iter_value iter) s else (t, s)
  end.

Definition Table_Open (options : Options) (block_cache : bool) (file : H) (size : Z) (w : S * C)
    : Status * option Table * (S * C) :=
  let '(s, c) := w in
  if size <? kEncodedLength
  then (Corruption (bytes_of_string "file is too short to be an sstable") [], None, (s, c))
  else
    let '((st, (_, footer_input)), s) := ReadAt file (size - kEncodedLength) kEncodedLength buf s in
    if negb (ok st) then (st, None, (s, c))
    else
      let '(st, footer, _) := Footer_DecodeFrom Footer_new footer_input in
      if negb (ok st) then (st, None, (s, c))
      else
        let '(st, contents, s) := ReadBlock file (meta_read_options options) (index_handle_ footer) buf fresh s in
        if ok st then
          let index_block := Block_new (contents_data contents) in
          let '(id, c) := if block_cache then Cache_NewId c else (0, c) in
          let t := mkTable options file block_cache id None (metaindex_handle_ footer) index_block in
          let '(t, s) := ReadMeta t footer s in
          (st, Some t, (s, c))
        else (st, None, (s, c)).

(** What the destructor of a block iterator does: [DeleteBlock] frees the
    block, [ReleaseBlock] unpins it. *)
Inductive cleanup := DeleteBlock | ReleaseBlock (cache_handle : Hd).

Record BlockIter := mkBlockIter { bi_iter : EmptyIterator + Iter; bi_cleanups : Cleanups cleanup }.

#[export] Instance BlockIter_ops : IteratorOps BlockIter := {
  Valid it := Valid (bi_iter it);
  SeekToFirst it := mkBlockIter (SeekToFirst (bi_iter it)) (bi_cleanups it);
  SeekToLast it := mkBlockIter (SeekToLast (bi_iter it)) (bi_cleanups it);
  Seek t it := mkBlockIter (Seek t (bi_iter it)) (bi_cleanups it);
  Next it := mkBlockIter (Next (bi_iter it)) (bi_cleanups it);
  Prev it := mkBlockIter (Prev (bi_iter it)) (bi_cleanups it);
  iter_key it := iter_key (bi_iter it);
  iter_value it := iter_value (bi_iter it);
  status it := status (bi_iter it);
}.

Definition run_cleanup (c : C) (f : cleanup) : C :=
  match f with
  | DeleteBlock => c
  | ReleaseBlock h => Cache_Release h c
  end.

Definition delete_BlockIter (it : BlockIter) (w : S * C) : S * C :=
  (w.1, fold_left run_cleanup (Iterator_destroy (bi_cleanups it)) w.2).

(** The index iterator has no cleanups. *)
#[export] Instance delete_block_iter : Deletes BlockIter (S * C) := delete_BlockIter.
#[export] Instance delete_index_iter : Deletes (EmptyIterator + Iter) (S * C) := fun _ w => w.

Definition block_cache_key (t : Table) (handle : BlockHandle) : bytes :=
  EncodeFixed64 (cache_id t) ++ EncodeFixed64 (offset_ handle).

(** The block of a handle: the status, the block if there is one and the pin
    it holds in the cache. *)
Definition read_data_block (t : Table) (options : ReadOptions) (handle : BlockHandle) (w : S * C)
    : Status * option Block * option Hd * (S * C) :=
  let '(s, c) := w in
  if table_block_cache t then
    let key := block_cache_key t handle in
    let '(cache_handle, c) := Cache_Lookup key c in
    match cache_handle with
    | Some h => (OK, Cache_Value h c, Some h, (s, c))
    | None =>
      let '(st, contents, s) := ReadBlock (table_file t) options handle buf fresh s in
      if ok st then
        let block := Block_new (contents_data contents) in
        if cacheable contents && fill_cache options then
          let '(h, c) := Cache_Insert key block (Block.size_ block) c in
          (st, Some block, Some h, (s, c))
        else (st, Some block, None, (s, c))
      else (st, None, None, (s, c))
    end
  else
    let '(st, contents, s) := ReadBlock (table_file t) options handle buf fresh s in
    if ok st then (st, Some (Block_new (contents_data contents)), None, (s, c))
    else (st, None, None, (s, c)).

Definition BlockReader (t : Table) (options : ReadOptions) (index_value : bytes) (w : S * C) : BlockIter * (S * C) :=
  let '(st, handle, _) := BlockHandle_DecodeFrom BlockHandle_new index_value in
  let '(st, block, cache_handle, w) :=
    if ok st then read_data_block t options handle w else (st, None, None, w) in
  match block with
  | Some block =>
    let iter := Block_NewIterator block (comparator (table_options t)) in
    let func := match cache_handle with None => DeleteBlock | Some h => ReleaseBlock h end in
    (mkBlockIter iter (RegisterCleanup Iterator_new func), w)
  | None => (mkBlockIter (inl (NewErrorIterator st)) Iterator_new, w)
  end.

Definition index_iterator (t : Table) : EmptyIterator + Iter :=
  Block_NewIterator (table_index_block t) (comparator (table_options t)).

Definition Table_NewIterator (t : Table) (options : ReadOptions) (w : S * C)
    : TwoLevelIterator (EmptyIterator + Iter) BlockIter (S * C) :=
  NewTwoLevelIterator (index_iterator t) (BlockReader t) options w.

(** The iterator's loops take at most one turn more than the index has
    entries, and an entry has at least three bytes. *)
Definition Table_iterator_ops (t : Table) : IteratorOps (TwoLevelIterator (EmptyIterator + Iter) BlockIter (S * C)) :=
  TwoLevelIterator_ops (Datatypes.S (length (Block.data_ (table_index_block t)))).

(** The result is the status and the arguments of the call to [saver], if
    there is one. *)
Definition InternalGet (t : Table) (options : ReadOptions) (k : bytes) (w : S * C)
    : Status * option (bytes * bytes) * (S * C) :=
  let iiter := Seek k (index_iterator t) in
  let '(st, saved, w) :=
    if Valid iiter then
      let handle_value := iter_value iiter in
      let '(decoded, handle, _) := BlockHandle_DecodeFrom BlockHandle_new handle_value in
      let rejected :=
        match table_filter t with
        | Some filter => ok decoded && negb (FilterBlock_KeyMayMatch filter (offset_ handle) k)
        | None => false
        end in
      if rejected then (OK, None, w)
      else
        let '(block_iter, w) := BlockReader t options (iter_value iiter) w in
        let block_iter := Seek k block_iter in
        let saved := if Valid block_iter then Some (iter_key block_iter, iter_value block_iter) else None in
        (status block_iter, saved, delete_BlockIter block_iter w)
    else (OK, None, w) in
  (if ok st then status iiter else st, saved, w).

Definition ApproximateOffsetOf (t : Table) (key : bytes) : Z :=
  let index_iter := Seek key (index_iterator t) in
  if Valid index_iter then
    let '(st, handle, _) := BlockHandle_DecodeFrom BlockHandle_new (iter_value index_iter) in
    if ok st then offset_ handle else offset_ (metaindex_handle t)
  else offset_ (metaindex_handle t).
End code.

(** * Where things are in the image *)

Lemma running_lookup off ls i l : ls !! i = Some l -> running off ls !! i = Some (off + blen (concat (take i ls))).
Proof.
  revert off i. induction ls as [|x ls IH]; intros off [|i] Hi; try done.
  - cbn. by rewrite Z.add_0_r.
  - cbn in Hi. cbn [running take concat lookup list_lookup]. rewrite (IH _ i Hi), blen_app. by rewrite Z.add_assoc.
Qed.

Section image_facts.
Context {port : Port} (opt : Options).
Implicit Types (b : list (bytes * bytes)) (bs : list (list (bytes * bytes))).

Definition data_handle bs (i : nat) b : BlockHandle :=
  {| offset_ := blen (data_bytes opt (take i bs)); size_ := blen (raw_block opt b) |}.

Lemma handles_lookup bs i b : bs !! i = Some b -> handles opt bs !! i = Some (data_handle bs i b).
Proof.
  intros Hi. unfold handles, data_handle. rewrite lookup_zip_with, Hi. unfold offsets.
  rewrite (running_lookup 0 _ i (stored (raw_block opt b))).
  - cbn [mbind option_bind]. unfold data_bytes, data_blocks. by rewrite fmap_take.
  - unfold data_blocks. by rewrite list_lookup_fmap, Hi.
Qed.

Lemma data_bytes_split bs i b : bs !! i = Some b ->
  data_bytes opt bs = data_bytes opt (take i bs) ++ stored (raw_block opt b) ++ data_bytes opt (drop (S i) bs).
Proof.
  intros Hi. unfold data_bytes, data_blocks. rewrite <- (take_drop_middle _ _ _ Hi) at 1.
  by rewrite fmap_app, fmap_cons, concat_app.
Qed.

(** Offsets increase, so blocks have different handles. *)
Lemma data_offset_lt bs i j b : (i < j)%nat -> bs !! i = Some b ->
  blen (data_bytes opt (take i bs)) < blen (data_bytes opt (take j bs)).
Proof.
  intros Hij Hi. rewrite (data_bytes_split (take j bs) i b) by (by apply lookup_take_Some).
  rewrite take_take, Nat.min_l by lia. rewrite !blen_app, blen_stored. unfold kBlockTrailerSize.
  pose proof (blen_nonneg (raw_block opt b)). pose proof (blen_nonneg (data_bytes opt (drop (S i) (take j bs)))). lia.
Qed.

Lemma data_offset_inj bs i j b b' : bs !! i = Some b -> bs !! j = Some b' ->
  offset_ (data_handle bs i b) = offset_ (data_handle bs j b') -> i = j.
Proof.
  cbn. intros Hi Hj E. destruct (Nat.lt_trichotomy i j) as [Hlt|[->|Hlt]]; [|done|].
  - pose proof (data_offset_lt bs i j b Hlt Hi). lia.
  - pose proof (data_offset_lt bs j i b' Hlt Hj). lia.
Qed.
End image_facts.

(** * Reading *)

Section read_facts.
Context {port : Port} `{!PortCrcOk port} {H S : Type} {rops : RandomAccessFileOps H S} {reads : H -> S -> bytes -> Prop}.
Context `{!RandomAccessFileOk H S reads}.

(** A block that was stored uncompressed comes back, or the read failed. *)
Lemma ReadBlock_back file o h buf fresh s c raw pre post :
  reads file s c -> c = pre ++ stored raw ++ post -> h = {| offset_ := blen pre; size_ := blen raw |} -> blen c < 2 ^ 32 ->
  let '(st, ct, s') := ReadBlock file o h buf fresh s in
  reads file s' c /\ (ok st = true -> contents_data ct = raw) /\
  (RandomAccessFileReliable H S reads -> ok st = true).
Proof.
  intros Hc E -> Hsz. rewrite E, !blen_app, blen_stored in Hsz. unfold kBlockTrailerSize in Hsz.
  pose proof (blen_nonneg pre). pose proof (blen_nonneg raw). pose proof (blen_nonneg post).
  set (h := {| offset_ := blen pre; size_ := blen raw |}) in *.
  assert (Hn : u64 (size_ h + kBlockTrailerSize) = blen raw + 5) by (unfold u64, kBlockTrailerSize; cbn; apply Z.mod_small; lia).
  pose proof (ReadAt_reads file c (offset_ h) (u64 (size_ h + kBlockTrailerSize)) buf s Hc) as Hc'.
  rewrite Hn in Hc'. cbn [h offset_] in Hc'. specialize (Hc' ltac:(lia) ltac:(lia) ltac:(lia)).
  assert ((ReadBlock file o h buf fresh s).2 = (ReadAt file (offset_ h) (u64 (size_ h + kBlockTrailerSize)) buf s).2) as Hsame.
  { unfold ReadBlock. destruct (ReadAt file _ _ buf s) as [[st [a d]] s']. repeat case_match; done. }
  rewrite Hn in Hsame. cbn [h offset_] in Hsame. rewrite <- Hsame in Hc'.
  destruct (ok (ReadAt file (offset_ h) (u64 (size_ h + kBlockTrailerSize)) buf s).1.1) eqn:Hok.
  - rewrite E in Hc. destruct (ReadBlock_stored file o h buf fresh s raw kNoCompression pre post Hc eq_refl eq_refl
      ltac:(cbn; lia) Hok) as (a & s' & Er). rewrite Er in Hc' |- *. done.
  - assert (Hrel : ~ RandomAccessFileReliable H S reads).
    { intros Hrel. enough (false = true) by done. rewrite <- Hok, Hn. apply (Hrel file c); [done|cbn; lia|lia|].
      rewrite E, !blen_app, blen_stored. cbn. unfold kBlockTrailerSize. lia. }
    destruct (ReadBlock file o h buf fresh s) as [[st ct] s'] eqn:Eb. split; [done|].
    unfold ReadBlock in Eb. destruct (ReadAt file _ _ buf s) as [[st' [a d]] s'']. cbn [fst] in Hok.
    rewrite Hok in Eb. cbn in Eb. injection Eb as <- <- <-. split; [congruence|done].
Qed.
End read_facts.

(** * A table file *)

(** What the theorems about tables assume of the file: it holds the image of
    entries in order, is smaller than 4 GB, and keys and values have lengths
    below 2^32. *)
Record table_on_disk {port : Port} (opt : Options) (valid : bytes -> Prop) (kvs : list (bytes * bytes))
    (bs : list (list (bytes * bytes))) (seps : list bytes) : Prop := {
  tf_good : good opt valid kvs;
  tf_small : Forall small_kv kvs;
  tf_blocks : table_blocks opt valid kvs bs seps;
  tf_size : blen (table_image opt bs seps) < 2 ^ 32;
  tf_interval : 1 <= block_restart_interval opt;
}.

Section file_facts.
Context {port : Port} {opt : Options} {valid : bytes -> Prop} `{!ComparatorOk (comparator opt) valid}.
Context {kvs : list (bytes * bytes)} {bs : list (list (bytes * bytes))} {seps : list bytes}.
Context (Htf : table_on_disk opt valid kvs bs seps).
Notation cmp := (comparator opt).

Lemma image_size :
  blen (data_bytes opt bs) + blen (filter_part opt bs) + (blen (meta_raw opt bs) + 5) +
  (blen (index_raw opt bs seps) + 5) < 2 ^ 32.
Proof.
  pose proof (tf_size _ _ _ _ _ Htf) as Hz. unfold table_image in Hz. rewrite !blen_app, !blen_stored in Hz.
  unfold kBlockTrailerSize in Hz.
  match type of Hz with context [blen (Footer_EncodeTo ?f [])] => pose proof (blen_nonneg (Footer_EncodeTo f [])) end. lia.
Qed.

Lemma block_in i b : bs !! i = Some b -> forall kv, kv ∈ b -> kv ∈ kvs.
Proof.
  intros Hi kv Hkv. rewrite <- (tb_entries _ _ _ _ _ (tf_blocks _ _ _ _ _ Htf)).
  rewrite <- (take_drop_middle _ _ _ Hi), concat_app. cbn [concat]. set_solver.
Qed.

Lemma data_buildable i b : bs !! i = Some b -> buildable (cmp := cmp) (valid := valid) opt b.
Proof.
  intros Hi. pose proof (block_in i b Hi) as Hin. pose proof (tf_good _ _ _ _ _ Htf) as Hg. split.
  - apply Htf.
  - pose proof (tf_small _ _ _ _ _ Htf) as Hs. rewrite Forall_forall in Hs |- *. auto.
  - destruct Hg as [_ Hv]. rewrite Forall_forall in Hv |- *. auto.
  - rewrite <- (tb_entries _ _ _ _ _ (tf_blocks _ _ _ _ _ Htf)), <- (take_drop_middle _ _ _ Hi), concat_app in Hg.
    cbn [concat] in Hg. apply good_app in Hg as [_ Hg]. apply good_app in Hg as [Hg _]. apply Hg.
  - pose proof image_size as Hz. rewrite (data_bytes_split opt bs i b Hi), !blen_app, blen_stored in Hz.
    unfold kBlockTrailerSize in Hz. fold (raw_block opt b).
    pose proof (blen_nonneg (data_bytes opt (take i bs))). pose proof (blen_nonneg (data_bytes opt (drop (S i) bs))).
    pose proof (blen_nonneg (filter_part opt bs)). pose proof (blen_nonneg (meta_raw opt bs)).
    pose proof (blen_nonneg (index_raw opt bs seps)). lia.
Qed.

Lemma length_index_entries : length (TableBuilder.index_entries opt bs seps) = length bs.
Proof.
  unfold TableBuilder.index_entries. rewrite length_zip_with, length_fmap, length_handles.
  rewrite (tb_seps _ _ _ _ _ (tf_blocks _ _ _ _ _ Htf)). lia.
Qed.

Lemma index_entry_lookup i b : bs !! i = Some b -> exists sep, seps !! i = Some sep /\
  TableBuilder.index_entries opt bs seps !! i = Some (sep, BlockHandle_EncodeTo (data_handle opt bs i b) []).
Proof.
  intros Hi. destruct (lookup_lt_is_Some_2 seps i) as [sep Hs].
  { rewrite (tb_seps _ _ _ _ _ (tf_blocks _ _ _ _ _ Htf)). by eapply lookup_lt_Some. }
  exists sep. split; [done|]. unfold TableBuilder.index_entries.
  by rewrite lookup_zip_with, Hs, list_lookup_fmap, (handles_lookup opt bs i b Hi).
Qed.

Lemma index_entry_inv i e : TableBuilder.index_entries opt bs seps !! i = Some e -> exists b sep,
  bs !! i = Some b /\ seps !! i = Some sep /\ e = (sep, BlockHandle_EncodeTo (data_handle opt bs i b) []).
Proof.
  intros He. pose proof (lookup_lt_Some _ _ _ He) as Hlt. rewrite length_index_entries in Hlt.
  destruct (lookup_lt_is_Some_2 bs i Hlt) as [b Hb]. destruct (index_entry_lookup i b Hb) as (sep & Hs & He').
  exists b, sep. split_and!; try done. congruence.
Qed.

Lemma seps_valid i sep : seps !! i = Some sep -> valid sep.
Proof.
  intros Hs. pose proof (sp_valid _ _ _ _ _ (tb_separators _ _ _ _ _ (tf_blocks _ _ _ _ _ Htf))) as Hv.
  by apply (Forall_lookup_1 _ _ _ _ Hv Hs).
Qed.

(** Separators of different blocks, with a key of the later block between. *)
Lemma seps_lt i j a b : (i < j)%nat -> seps !! i = Some a -> seps !! j = Some b -> Compare cmp a b < 0.
Proof.
  intros Hij Ha Hb. pose proof (tf_blocks _ _ _ _ _ Htf) as [_ Hne Hl Hs].
  destruct (lookup_lt_is_Some_2 bs j) as [blk Hj]; [rewrite <- Hl; by eapply lookup_lt_Some|].
  pose proof (Forall_lookup_1 _ _ _ _ Hne Hj) as Hnil. destruct blk as [|kv blk]; [done|].
  assert (kv ∈ kv :: blk) as Hkv by (by left).
  assert (valid kv.1) as Hvk.
  { destruct (tf_good _ _ _ _ _ Htf) as [_ Hv]. rewrite Forall_forall in Hv. apply Hv. by eapply block_in. }
  eapply (Compare_lt_le_trans (valid := valid) a kv.1); [by eapply seps_valid|done|by eapply seps_valid| |].
  - eapply (sp_above _ _ _ _ _ Hs i j); [done| |done|done]. by apply lookup_app_l_Some.
  - by eapply (sp_below _ _ _ _ _ Hs j).
Qed.

Lemma index_buildable :
  buildable (cmp := cmp) (valid := valid) (index_options opt) (TableBuilder.index_entries opt bs seps).
Proof.
  assert (Hsize : blen (raw_block (index_options opt) (TableBuilder.index_entries opt bs seps)) < 2 ^ 32).
  { pose proof image_size as Hz. unfold index_raw in Hz. pose proof (blen_nonneg (data_bytes opt bs)).
    pose proof (blen_nonneg (filter_part opt bs)). pose proof (blen_nonneg (meta_raw opt bs)). lia. }
  split; [done| | | |done].
  - pose proof (AddAll_unshared_le (index_options opt) BlockBuilder_new (TableBuilder.index_entries opt bs seps) eq_refl
      ltac:(done) ltac:(done)) as Hle.
    pose proof (Finish_buffer_le (AddAll (index_options opt) BlockBuilder_new (TableBuilder.index_entries opt bs seps))) as Hf.
    unfold raw_block in Hsize. eapply Forall_impl; [exact Hle|]. intros [k v] Hkv. cbn [fst snd] in Hkv.
    pose proof (blen_nonneg k). pose proof (blen_nonneg v).
    match type of Hf with context [blen (BlockBuilder.restarts_ ?b)] => pose proof (blen_nonneg (BlockBuilder.restarts_ b)) end.
    split; cbn [fst snd]; lia.
  - apply Forall_lookup. intros i e He. destruct (index_entry_inv i e He) as (b & sep & _ & Hs & ->). by eapply seps_valid.
  - apply StronglySorted_lookup. intros i j x y Hij Hx Hy.
    destruct (index_entry_inv i x Hx) as (b & sep & _ & Hs & ->). destruct (index_entry_inv j y Hy) as (b' & sep' & _ & Hs' & ->).
    by apply (seps_lt i j).
Qed.

Lemma meta_buildable :
  buildable (cmp := BytewiseComparator) (valid := fun _ => True) opt (meta_entries opt bs).
Proof.
  assert (Hsize : blen (raw_block opt (meta_entries opt bs)) < 2 ^ 32).
  { pose proof image_size as Hz. unfold meta_raw in Hz. pose proof (blen_nonneg (data_bytes opt bs)).
    pose proof (blen_nonneg (filter_part opt bs)). pose proof (blen_nonneg (index_raw opt bs seps)). lia. }
  split; [apply Htf| | | |done].
  - revert Hsize. unfold meta_entries. destruct (filter_raw opt bs) as [raw|]; [|constructor].
    set (v := BlockHandle_EncodeTo _ []). set (k := filter_key opt). intros Hsize.
    pose proof (Add_unshared_le opt BlockBuilder_new k v ltac:(done)) as Hle.
    pose proof (Finish_buffer_le (AddAll opt BlockBuilder_new [(k, v)])) as Hf. unfold raw_block in Hsize.
    change (AddAll opt BlockBuilder_new [(k, v)]) with (Add opt BlockBuilder_new k v) in *.
    pose proof (blen_nonneg k). pose proof (blen_nonneg v).
    match type of Hf with context [blen (BlockBuilder.restarts_ ?b)] => pose proof (blen_nonneg (BlockBuilder.restarts_ b)) end.
    apply Forall_cons. split; [split; cbn [fst snd]; lia|constructor].
  - apply Forall_true. by intros.
  - unfold meta_entries. destruct (filter_raw opt bs); repeat constructor.
Qed.
End file_facts.

(** * Opening *)

Section open_facts.
Context {port : Port} `{!PortCrcOk port} {H S : Type} {rops : RandomAccessFileOps H S} {reads : H -> S -> bytes -> Prop}.
Context `{!RandomAccessFileOk H S reads} {C Hd : Type} {cops : CacheOps C Block Hd} (buf : Z) (fresh : Z -> bytes).
Context {opt ropt : Options} {valid : bytes -> Prop} `{!ComparatorOk (comparator opt) valid}.
Context {kvs : list (bytes * bytes)} {bs : list (list (bytes * bytes))} {seps : list bytes}.
Context (Htf : table_on_disk opt valid kvs bs seps) (file : H).
(** The table is read with the comparator and the filter policy it was written
    with; the other options are free. *)
Context (Hcmp : comparator ropt = comparator opt) (Hpol : filter_policy ropt = filter_policy opt).
Notation image := (table_image opt bs seps).

Definition filter_ok (f : option FilterBlockReader) : Prop :=
  match f with
  | None => True
  | Some f => exists p raw, filter_policy opt = Some p /\ filter_raw opt bs = Some raw /\ f = FilterBlockReader_new p raw
  end.

Record opened (t : Table (H := H)) (bc : bool) (id : Z) : Prop := {
  op_options : table_options t = ropt;
  op_file : table_file t = file;
  op_index : table_index_block t = Block_new (index_raw opt bs seps);
  op_meta : metaindex_handle t = meta_handle opt bs;
  op_filter : filter_ok (table_filter t);
  op_cache : table_block_cache t = bc;
  op_cache_id : cache_id t = id;
}.

Lemma filter_key_same : filter_key ropt = filter_key opt.
Proof. unfold filter_key. by rewrite Hpol. Qed.

Lemma image_small : blen image < 2 ^ 32.
Proof. apply Htf. Qed.

(** The handles in the file are in range. *)
Lemma handle_ok_small pre raw post : image = pre ++ stored raw ++ post ->
  handle_ok {| offset_ := blen pre; size_ := blen raw |}.
Proof.
  intros E. pose proof image_small as Hz. rewrite E, !blen_app, blen_stored in Hz. unfold kBlockTrailerSize in Hz.
  pose proof (blen_nonneg pre). pose proof (blen_nonneg raw). pose proof (blen_nonneg post). split; cbn; lia.
Qed.

Lemma image_filter raw : filter_raw opt bs = Some raw ->
  exists post, image = data_bytes opt bs ++ stored raw ++ post.
Proof. intros Hr. unfold table_image, filter_part. rewrite Hr. by eexists. Qed.

Lemma image_meta : exists post, image = (data_bytes opt bs ++ filter_part opt bs) ++ stored (meta_raw opt bs) ++ post.
Proof. unfold table_image. eexists. by rewrite <- app_assoc. Qed.

Lemma image_index : exists post, image =
  (data_bytes opt bs ++ filter_part opt bs ++ stored (meta_raw opt bs)) ++ stored (index_raw opt bs seps) ++ post.
Proof. unfold table_image. eexists. by rewrite <- !app_assoc. Qed.

Lemma image_data i b : bs !! i = Some b ->
  exists post, image = data_bytes opt (take i bs) ++ stored (raw_block opt b) ++ post.
Proof.
  intros Hi. unfold table_image. eexists. rewrite (data_bytes_split opt bs i b Hi) at 1. by rewrite <- !app_assoc.
Qed.

Lemma ReadFilter_spec t bc id raw s : opened t bc id -> reads file s image -> filter_raw opt bs = Some raw ->
  let '(t', s') := ReadFilter buf fresh t
    (BlockHandle_EncodeTo {| offset_ := blen (data_bytes opt bs); size_ := blen raw |} []) s in
  opened t' bc id /\ reads file s' image.
Proof.
  intros Ht Hc Hr. unfold ReadFilter. rewrite (op_options _ _ _ Ht), Hpol.
  destruct (filter_policy opt) as [p|] eqn:Ep; [|done].
  destruct (image_filter raw Hr) as [post Hi]. rewrite <- (app_nil_r (BlockHandle_EncodeTo _ [])).
  rewrite BlockHandle_DecodeFrom_Encode by (by eapply handle_ok_small). cbn [ok OK negb].
  change (ok OK) with true. cbn [negb]. rewrite (op_file _ _ _ Ht).
  pose proof (ReadBlock_back file (meta_read_options ropt) _ buf fresh s _ raw _ _ Hc Hi eq_refl image_small) as Hrd.
  destruct (ReadBlock file _ _ buf fresh s) as [[st c] s']. destruct Hrd as (Hc' & Hdat & _).
  destruct (ok st); cbn [negb]; (split; [|done]); [|done].
  destruct Ht. split; try done. cbn. exists p, raw. by rewrite Hdat.
Qed.

Lemma ReadMeta_spec t bc id footer s : opened t bc id -> reads file s image ->
  metaindex_handle_ footer = meta_handle opt bs ->
  let '(t', s') := ReadMeta buf fresh t footer s in opened t' bc id /\ reads file s' image.
Proof.
  intros Ht Hc Hf. unfold ReadMeta. pose proof filter_key_same as Hkey.
  pose proof (fun t s raw => ReadFilter_spec t bc id raw s) as Hrf. rewrite (op_options _ _ _ Ht), Hpol, Hf.
  destruct (filter_policy opt) as [p|] eqn:Ep; [|done]. rewrite (op_file _ _ _ Ht).
  destruct image_meta as [post Hi].
  pose proof (ReadBlock_back file (meta_read_options ropt) (meta_handle opt bs) buf fresh s _ _ _ _ Hc Hi eq_refl image_small) as Hrd.
  destruct (ReadBlock file _ _ buf fresh s) as [[st c] s']. destruct Hrd as (Hc' & Hdat & _).
  destruct (ok st); cbn [negb]; [|done]. rewrite Hdat by done.
  destruct (built_iterator (valid := fun _ => True) opt (meta_entries opt bs) (meta_buildable Htf)) as (it & Hit & Hinv).
  fold (raw_block opt (meta_entries opt bs)) in Hit. fold (meta_raw opt bs) in Hit. rewrite Hit.
  cbn [sum_ops Valid Seek iter_key iter_value]. rewrite Hkey.
  pose proof (Seek_at it (filter_key opt) Hinv Logic.I) as Ha.
  destruct (Valid (Seek (filter_key opt) it)) eqn:Hv; cbn [andb]; [|done].
  apply (Valid_at _ _ Ha) in Hv. destruct (lookup_lt_is_Some_2 _ _ Hv) as [[k v] Hkv].
  destruct (entry_at _ _ _ _ Ha Hkv) as [-> ->]. unfold meta_entries in Hkv.
  destruct (filter_raw opt bs) as [raw|] eqn:Er; [|done].
  set (n := seek_index _ _ _) in Hkv. destruct n; [|done]. injection Hkv as <- <-.
  destruct (Slice_eq _ _); [|done]. by apply Hrf.
Qed.

Lemma Footer_handles_ok : handle_ok (meta_handle opt bs) /\ handle_ok (index_handle opt bs seps).
Proof.
  destruct image_meta as [p1 H1], image_index as [p2 H2]. split; by eapply handle_ok_small.
Qed.

(** The footer is the last 48 bytes. *)
Lemma footer_read d : d = take (Z.to_nat kEncodedLength) (drop (Z.to_nat (blen image - kEncodedLength)) image) ->
  kEncodedLength <= blen image /\
  Footer_DecodeFrom Footer_new d =
    (OK, {| metaindex_handle_ := meta_handle opt bs; index_handle_ := index_handle opt bs seps |}, []).
Proof.
  destruct Footer_handles_ok as [Hm Hi].
  set (f := {| metaindex_handle_ := meta_handle opt bs; index_handle_ := index_handle opt bs seps |}).
  destruct (Footer_Decode_Encode f Footer_new [] Hm Hi) as [Hl Hdec]. rewrite app_nil_r in Hdec.
  assert (exists pre, image = pre ++ Footer_EncodeTo f []) as [pre E] by (unfold table_image; eexists; by rewrite !(app_assoc _ _ (Footer_EncodeTo f []))).
  rewrite E. rewrite blen_app, Hl. intros ->. split; [pose proof (blen_nonneg pre); lia|].
  rewrite drop_app_length' by (unfold blen; lia). rewrite take_ge; [done|]. unfold blen in Hl. lia.
Qed.

Lemma Open_spec bc s c : reads file s image ->
  let '(st, ot, w) := Table_Open buf fresh ropt bc file (blen image) (s, c) in
  reads file w.1 image /\
  (w.2 = c \/ w.2 = (Cache_NewId c).2) /\
  (ok st = true -> exists t id, ot = Some t /\ opened t bc id /\ (bc = true -> (id, w.2) = Cache_NewId c)) /\
  (RandomAccessFileReliable H S reads -> ok st = true).
Proof.
  intros Hc. unfold Table_Open. destruct (footer_read _ eq_refl) as [Hlen Hfoot].
  rewrite (proj2 (Z.ltb_ge _ _)) by done.
  pose proof image_small as Hsmall.
  assert (Hb : 0 <= blen image - kEncodedLength /\ 0 <= kEncodedLength /\ blen image - kEncodedLength + kEncodedLength < 2 ^ 64)
    by (assert (kEncodedLength = 48) by done; lia).
  destruct Hb as (Hb1 & Hb2 & Hb3). pose proof (ReadAt_reads file image _ kEncodedLength buf s Hc Hb1 Hb2 Hb3) as Hc1.
  destruct (ReadAt file _ kEncodedLength buf s) as [[st [a d]] s1] eqn:E1. cbn [snd] in Hc1.
  destruct (ok st) eqn:Hok1; cbn [negb].
  2:{ split_and!; [done|by left|congruence|]. intros Hrel.
      pose proof (Hrel file image _ kEncodedLength buf s Hc Hb1 Hb2 ltac:(lia)) as Hok. rewrite E1 in Hok. cbn in Hok. congruence. }
  apply (ReadAt_ok file image _ _ _ _ _ _ _ _ Hc) in E1 as ->; [|done..]. rewrite Hfoot. change (ok OK) with true. cbn [negb].
  destruct image_index as [post Hi]. cbn [index_handle_].
  pose proof (ReadBlock_back file (meta_read_options ropt) (index_handle opt bs seps) buf fresh s1 _ _ _ _ Hc1 Hi eq_refl image_small) as Hrd.
  destruct (ReadBlock file _ _ buf fresh s1) as [[st2 c2] s2]. destruct Hrd as (Hc2 & Hdat & Hrel).
  destruct (ok st2) eqn:Hok2; [|split_and!; [done|by left|congruence|]; by intros ?%Hrel].
  rewrite Hdat by done. destruct (if bc then Cache_NewId c else (0, c)) as [id c'] eqn:Eid.
  set (t0 := mkTable _ _ _ _ _ _ _).
  assert (opened t0 bc id) as Ht0 by done.
  pose proof (ReadMeta_spec t0 bc id {| metaindex_handle_ := meta_handle opt bs; index_handle_ := index_handle opt bs seps |}
    s2 Ht0 Hc2 eq_refl) as Hmeta.
  destruct (ReadMeta buf fresh t0 _ s2) as [t s3]. destruct Hmeta as [Ht Hc3]. cbn [fst snd]. split_and!; [done| | |done].
  - destruct bc; [|left; congruence]. right. by rewrite Eid.
  - intros _. exists t, id. split_and!; [done|done|]. by intros ->.
Qed.
End open_facts.

(** * Reading data blocks through the cache *)

Section use_facts.
Context {port : Port} `{!PortCrcOk port} {H S : Type} {rops : RandomAccessFileOps H S} {reads : H -> S -> bytes -> Prop}.
Context `{!RandomAccessFileOk H S reads} {C Hd : Type} {cops : CacheOps C Block Hd}.
Context {pinned : C -> list (Hd * Block) -> Prop} {holds : C -> bytes -> Block -> Prop} `{!CacheOk C Block Hd pinned holds}.
Context (buf : Z) (fresh : Z -> bytes) {opt ropt : Options} {valid : bytes -> Prop} `{!ComparatorOk (comparator opt) valid}.
Context {kvs : list (bytes * bytes)} {bs : list (list (bytes * bytes))} {seps : list bytes}.
Context (Htf : table_on_disk opt valid kvs bs seps) (file : H).
Context (Hcmp : comparator ropt = comparator opt).
Context (t : Table (H := H)) (bc : bool) (id : Z).
Context (Hop : opened (opt := opt) (ropt := ropt) (bs := bs) (seps := seps) file t bc id).
Notation image := (table_image opt bs seps).
Notation cmp := (comparator opt).

Lemma data_handle_ok i b : bs !! i = Some b -> handle_ok (data_handle opt bs i b).
Proof. intros Hi. destruct (image_data (opt := opt) (seps := seps) i b Hi) as [post E]. by eapply (handle_ok_small Htf). Qed.

Lemma cache_key_inj i j b b' : bs !! i = Some b -> bs !! j = Some b' ->
  block_cache_key t (data_handle opt bs i b) = block_cache_key t (data_handle opt bs j b') -> i = j.
Proof.
  intros Hi Hj E. apply (data_offset_inj opt bs i j b b' Hi Hj). unfold block_cache_key in E. apply app_inv_head in E.
  destruct (data_handle_ok i b Hi) as [Ho _], (data_handle_ok j b' Hj) as [Ho' _].
  rewrite <- (DecodeFixed64_Encode _ [] Ho), <- (DecodeFixed64_Encode _ [] Ho'). by rewrite E.
Qed.

Lemma Block_size_range i b : bs !! i = Some b -> 0 < Block.size_ (Block_new (raw_block opt b)) < 2 ^ 32.
Proof. intros Hi. exact (block_size_range opt b (data_buildable Htf i b Hi)). Qed.

(** What one table asks of the entries of the block cache: under its keys, its
    blocks. *)
Definition own_blocks (k : bytes) (v : Block) : Prop := table_block_cache t = true ->
  forall i b, bs !! i = Some b -> k = block_cache_key t (data_handle opt bs i b) -> v = Block_new (raw_block opt b).

Definition allows_blocks (allowed : bytes -> Block -> Prop) : Prop := table_block_cache t = true ->
  forall i b v, bs !! i = Some b ->
    allowed (block_cache_key t (data_handle opt bs i b)) v <-> v = Block_new (raw_block opt b).

Lemma own_blocks_allows : allows_blocks own_blocks.
Proof.
  intros Ht i b v Hi. split; [intros Ho; by eapply Ho|]. intros -> _ j b' Hj E. apply cache_key_inj in E as ->; [|done..]. by simplify_eq.
Qed.

(** All that clients of the cache rely on: every entry is allowed, and a
    property of the cache that tables do not disturb. *)
Context (allowed : bytes -> Block -> Prop) (Hallowed : allows_blocks allowed).
Context (kept : C -> Prop) `{!CacheKeeps C Block Hd pinned kept}.

Definition cache_good (c : C) : Prop := (forall k v, holds c k v -> allowed k v) /\ kept c.

(** The state of the world while [p] is pinned. *)
Definition world_ok (w : S * C) (p : list (Hd * Block)) : Prop :=
  reads file w.1 image /\ pinned w.2 p /\ cache_good w.2.

Lemma cache_good_sub c c' : cache_good c -> (forall k v, holds c' k v -> holds c k v) -> kept c' -> cache_good c'.
Proof. intros [Hg _] Hs Hk. split; [|done]. intros k v Hh. by apply Hg, Hs. Qed.

Definition pin (ch : option Hd) (blk : Block) (p : list (Hd * Block)) : list (Hd * Block) :=
  match ch with Some h => (h, blk) :: p | None => p end.

Lemma world_ok_perm w p q : p ≡ₚ q -> world_ok w p -> world_ok w q.
Proof. intros Hpq (Hc & Hp & Hg). split_and!; [done|by eapply pinned_perm|done]. Qed.

(** The pins that the cleanups of a block iterator give back. *)
Definition token_pins (c : Cleanups (cleanup (Hd := Hd))) (q : list (Hd * Block)) : Prop :=
  match Iterator_destroy c with
  | [ReleaseBlock h] => exists blk, q = [(h, blk)]
  | [] | [DeleteBlock] => q = []
  | _ => False
  end.

Lemma token_pins_length c q : token_pins c q -> (length q <= 1)%nat.
Proof. unfold token_pins. destruct (Iterator_destroy c) as [|[|h] [|]]; [intros ->; cbn; lia..|done|intros [? ->]; cbn; lia|done]. Qed.

Lemma delete_world it w p q : token_pins (bi_cleanups it) q -> world_ok w (q ++ p) -> world_ok (delete_BlockIter it w) p.
Proof.
  unfold token_pins, delete_BlockIter. destruct (Iterator_destroy (bi_cleanups it)) as [|[|h] [|]]; cbn; [by intros ->..|done| |done].
  intros [blk ->] (Hc & Hp & Hg). split_and!; [done|by eapply Release_pinned|].
  eapply cache_good_sub; [done| |by eapply Release_keeps, Hg]. intros k v. by eapply Release_holds.
Qed.

Lemma read_data_block_spec o i b w p : bs !! i = Some b -> world_ok w p -> blen p + 2 < 2 ^ 32 ->
  let '(st, blk, ch, w') := read_data_block buf fresh t o (data_handle opt bs i b) w in
  (if ok st then blk = Some (Block_new (raw_block opt b)) else blk = None /\ ch = None) /\
  world_ok w' (pin ch (Block_new (raw_block opt b)) p) /\ (RandomAccessFileReliable H S reads -> ok st = true).
Proof.
  intros Hi (Hc & Hp & Hg) Hn. destruct w as [s c]. cbn [fst snd] in *. unfold read_data_block.
  destruct (image_data (opt := opt) (seps := seps) i b Hi) as [post E].
  assert (Hrd : let '(st, ct, s') := ReadBlock file o (data_handle opt bs i b) buf fresh s in
    reads file s' image /\ (ok st = true -> contents_data ct = raw_block opt b) /\
    (RandomAccessFileReliable H S reads -> ok st = true)).
  { by apply (ReadBlock_back file o (data_handle opt bs i b) buf fresh s _ _ _ _ Hc E eq_refl), (image_small Htf). }
  rewrite (op_file _ _ _ _ Hop). destruct (table_block_cache t) eqn:Ebc.
  - destruct (Cache_Lookup _ c) as [ch c'] eqn:El.
    assert (cache_good c') as Hg'.
    { pose proof (Lookup_keeps c p (block_cache_key t (data_handle opt bs i b)) Hp Hn (proj2 Hg)) as Hk. rewrite El in Hk.
      eapply cache_good_sub; [done| |done]. intros k' v' Hh. eapply (Lookup_holds _ _ _ _ _ Hp Hn). by rewrite El. }
    destruct ch as [h|].
    + destruct (Lookup_Some _ _ _ _ _ Hp Hn El) as (v & Hv & Hp'). apply Hg, (Hallowed Ebc i b v Hi) in Hv as ->.
      change (ok OK) with true. split; [by eapply Value_pinned; [|left]|]. split; [|done]. by split_and!.
    + destruct (Lookup_None _ _ _ _ Hp Hn El) as [Hp' _].
      destruct (ReadBlock file o _ buf fresh s) as [[st ct] s']. destruct Hrd as (Hc' & Hdat & Hrel).
      destruct (ok st) eqn:Hok; [|by rewrite Hok]. rewrite Hdat by done. destruct (cacheable ct && fill_cache o).
      * destruct (Cache_Insert _ _ _ c') as [h c''] eqn:Ei. rewrite Hok. split; [done|]. split; [|done]. cbn [pin].
        set (k := block_cache_key t (data_handle opt bs i b)) in *. set (blk := Block_new (raw_block opt b)) in *.
        pose proof (Insert_pinned _ _ k blk (Block.size_ blk) Hp' Hn (Block_size_range i b Hi)) as Hp''. rewrite Ei in Hp''.
        pose proof (Insert_keeps c' p k blk (Block.size_ blk) Hp' Hn (Block_size_range i b Hi) (proj2 Hg')) as Hk. rewrite Ei in Hk.
        split_and!; [done|done|split; [|done]]. intros k' v Hh.
        destruct (Insert_holds c' p k blk (Block.size_ blk) k' v Hp' Hn (Block_size_range i b Hi)) as [[-> ->]|[_ Hh']];
          [by rewrite Ei|by apply (Hallowed Ebc i b)|by apply Hg'].
      * rewrite Hok. by split.
  - destruct (ReadBlock file o _ buf fresh s) as [[st ct] s']. destruct Hrd as (Hc' & Hdat & Hrel).
    destruct (ok st) eqn:Hok; rewrite Hok; [rewrite Hdat by done|]; by split.
Qed.

(** Opening a data block: its iterator, or an error iterator when the read
    failed. *)
Lemma BlockReader_spec o i b w p : bs !! i = Some b -> world_ok w p -> blen p + 2 < 2 ^ 32 ->
  let '(it, w') := BlockReader buf fresh t o (BlockHandle_EncodeTo (data_handle opt bs i b) []) w in
  ((exists j, bi_iter it = inr j /\ built_inv (cmp := cmp) (valid := valid) opt b j) \/
   (exists st, bi_iter it = inl (NewErrorIterator st) /\ ok st = false)) /\
  (exists q, token_pins (bi_cleanups it) q /\ world_ok w' (q ++ p)) /\
  (RandomAccessFileReliable H S reads -> exists j, bi_iter it = inr j /\ built_inv (cmp := cmp) (valid := valid) opt b j).
Proof.
  intros Hi Hw Hn. unfold BlockReader. rewrite <- (app_nil_r (BlockHandle_EncodeTo _ [])).
  rewrite BlockHandle_DecodeFrom_Encode by (by apply data_handle_ok). change (ok OK) with true. cbn iota.
  pose proof (read_data_block_spec o i b w p Hi Hw Hn) as Hrd.
  destruct (read_data_block buf fresh t o (data_handle opt bs i b) w) as [[[st blk] ch] w']. destruct Hrd as (Hb & Hw' & Hrel).
  destruct (ok st) eqn:Hok.
  - subst blk. rewrite (op_options _ _ _ _ Hop), Hcmp.
    destruct (built_iterator (valid := valid) opt b (data_buildable Htf i b Hi)) as (j & Hj & Hinv).
    fold (raw_block opt b) in Hj. rewrite Hj. split_and!; [left; by exists j| |intros _; by exists j].
    destruct ch as [h|]; cbn [pin] in Hw'; [|by exists []].
    exists [(h, Block_new (raw_block opt b))]. split; [by eexists|done].
  - destruct Hb as [-> ->]. cbn [pin] in Hw'. split_and!; [right; by exists st|by exists []|].
    intros Hr. specialize (Hrel Hr). congruence.
Qed.

(** ** The table's iterator *)

Definition holds_iter (it : BlockIter (Hd := Hd)) (j : Iter) : Prop := bi_iter it = inr j.

#[local] Instance holds_iter_dispatches : Dispatches holds_iter.
Proof. split; unfold holds_iter; cbn; by intros * ->. Qed.

Definition table_data_block (e : bytes * bytes) (b : list (bytes * bytes)) : DataBlock (D := BlockIter (Hd := Hd)) cmp valid :=
  {| bk_sep := e.1; bk_handle := e.2;
     bk_ok := dispatch_ok holds_iter _ _ _ _ _ (built_ok (cmp := cmp) (valid := valid) opt b) |}.

Definition table_data_blocks : list (DataBlock (D := BlockIter (Hd := Hd)) cmp valid) :=
  zip_with table_data_block (TableBuilder.index_entries opt bs seps) bs.

Lemma table_data_blocks_lookup i d : table_data_blocks !! i = Some d -> exists b sep,
  bs !! i = Some b /\ seps !! i = Some sep /\
  d = table_data_block (sep, BlockHandle_EncodeTo (data_handle opt bs i b) []) b.
Proof.
  unfold table_data_blocks. rewrite lookup_zip_with_Some. intros (e & b & -> & He & Hb).
  destruct (index_entry_inv Htf i e He) as (b' & sep & Hb' & Hs & ->). simplify_eq. by exists b, sep.
Qed.

Lemma length_table_data_blocks : length table_data_blocks = length bs.
Proof. unfold table_data_blocks. rewrite length_zip_with, (length_index_entries Htf). lia. Qed.

Lemma table_index_entries : TwoLevelIterator.index_entries cmp valid table_data_blocks = TableBuilder.index_entries opt bs seps.
Proof.
  unfold TwoLevelIterator.index_entries, table_data_blocks. rewrite fmap_zip_with_l; [done| |].
  - by intros [??] ?.
  - rewrite (length_index_entries Htf). lia.
Qed.

Lemma table_all_entries : all_entries cmp valid table_data_blocks = kvs.
Proof.
  unfold all_entries, table_data_blocks. rewrite fmap_zip_with_r; [|done|rewrite (length_index_entries Htf); lia].
  apply (tb_entries _ _ _ _ _ (tf_blocks _ _ _ _ _ Htf)).
Qed.

Lemma table_separated : separated cmp valid valid table_data_blocks.
Proof.
  pose proof (tb_separators _ _ _ _ _ (tf_blocks _ _ _ _ _ Htf)) as Hs. split.
  - intros i d kv (b & sep & Hb & Hsep & ->)%table_data_blocks_lookup Hkv. by eapply (sp_below _ _ _ _ _ Hs i).
  - intros i j d d' kv Hij (b & sep & Hb & Hsep & ->)%table_data_blocks_lookup (b' & sep' & Hb' & Hsep' & ->)%table_data_blocks_lookup Hkv.
    eapply (sp_above _ _ _ _ _ Hs i j); [done| |done|exact Hkv]. by apply lookup_app_l_Some.
  - apply Forall_lookup. intros i d (b & sep & Hb & Hsep & ->)%table_data_blocks_lookup.
    split; [by eapply (seps_valid Htf)|]. by apply (data_buildable Htf i b).
Qed.

Lemma handle_encoding_inj h h' : handle_ok h -> handle_ok h' -> BlockHandle_EncodeTo h [] = BlockHandle_EncodeTo h' [] -> h = h'.
Proof.
  intros Hh Hh' E. pose proof (BlockHandle_DecodeFrom_Encode h BlockHandle_new [] Hh) as D.
  rewrite E, BlockHandle_DecodeFrom_Encode in D by done. congruence.
Qed.

Lemma table_handles : NoDup (bk_handle cmp valid <$> table_data_blocks).
Proof.
  apply NoDup_alt. intros i j x Hi Hj.
  apply list_lookup_fmap_Some in Hi as (d & -> & (b & sep & Hb & _ & ->)%table_data_blocks_lookup).
  apply list_lookup_fmap_Some in Hj as (d' & E & (b' & sep' & Hb' & _ & ->)%table_data_blocks_lookup).
  cbn [bk_handle table_data_block snd] in E. apply handle_encoding_inj in E; [|by apply data_handle_ok..].
  apply (data_offset_inj opt bs i j b b' Hb Hb'). by rewrite E.
Qed.

Definition index_inv : EmptyIterator + Iter -> Prop :=
  lift_inv (fun it j => it = inr j)
    (built_inv (cmp := cmp) (valid := valid) (index_options opt) (TableBuilder.index_entries opt bs seps)).
Definition index_at : EmptyIterator + Iter -> nat -> Prop :=
  lift_at (fun it j => it = inr j)
    (built_at (cmp := cmp) (valid := valid) (index_options opt) (TableBuilder.index_entries opt bs seps)).

#[local] Instance index_ok : IteratorOk (Compare cmp) valid (TableBuilder.index_entries opt bs seps) index_inv index_at.
Proof. apply dispatch_ok; apply _. Qed.

Lemma index_iterator_inv : index_inv (index_iterator t).
Proof.
  unfold index_iterator. rewrite (op_index _ _ _ _ Hop), (op_options _ _ _ _ Hop), Hcmp.
  destruct (built_iterator (valid := valid) (index_options opt) (TableBuilder.index_entries opt bs seps) (index_buildable Htf))
    as (j & Hj & Hinv). unfold index_raw, raw_block. exists j. by rewrite Hj.
Qed.

#[local] Instance cleanups_held : Holds (bi_cleanups (Hd := Hd)).
Proof. by split. Qed.

(** The state while data iterators hold [ts] and the client holds [p]. *)
Definition iterating (p : list (Hd * Block)) (ts : list (Cleanups (cleanup (Hd := Hd)))) (w : S * C) : Prop :=
  exists qs, Forall2 token_pins ts qs /\ world_ok w (concat qs ++ p).

Lemma table_two_level o p `{!RandomAccessFileReliable H S reads} : blen p + 3 < 2 ^ 32 ->
  two_level_ok cmp valid valid table_data_blocks bi_cleanups (BlockReader buf fresh t) o index_inv index_at (iterating p).
Proof.
  intros Hn. split.
  - rewrite table_index_entries. apply index_ok.
  - intros i d w ts (b & sep & Hb & _ & ->)%table_data_blocks_lookup Hts (qs & Hqs & Hw).
    assert (Hlen : blen (concat qs ++ p) + 2 < 2 ^ 32).
    { rewrite blen_app. enough (blen (concat qs) <= 1) by lia.
      destruct Hqs as [|c q ts qs Hq Hqs]; [done|]. destruct Hqs; [|cbn in Hts; lia]. cbn. rewrite app_nil_r.
      pose proof (token_pins_length c q Hq). unfold blen. lia. }
    pose proof (BlockReader_spec o i b w _ Hb Hw Hlen) as Hbr. cbn [bk_handle table_data_block snd].
    destruct (BlockReader buf fresh t o _ w) as [it w']. destruct Hbr as (_ & (q & Hq & Hw') & Hrel). cbn [fst snd].
    split; [destruct (Hrel _) as (j & Hj & Hinv); by exists j|].
    exists (q :: qs). split; [by constructor|]. cbn [concat]. by rewrite <- app_assoc.
  - intros a b w (qs & Hqs & Hw). apply Forall2_cons_inv_l in Hqs as (qa & ? & Ha & Hqs & ->).
    apply Forall2_cons_inv_l in Hqs as (qb & ? & Hb & ->%Forall2_nil_inv_l & ->).
    exists [qb; qa]. split; [by repeat constructor|]. eapply world_ok_perm; [|exact Hw]. cbn. rewrite !app_nil_r.
    apply Permutation_app_tail, Permutation_app_comm.
  - intros d ts w (qs & Hqs & Hw). destruct qs as [|q qs]; [by inversion Hqs|]. apply Forall2_cons in Hqs as [Hq Hqs].
    exists qs. split; [done|]. cbn [concat] in Hw. rewrite <- app_assoc in Hw. by eapply delete_world.
  - apply table_handles.
  - apply table_separated.
  - done.
Qed.

Lemma table_iterator_ok o w p `{!RandomAccessFileReliable H S reads} : world_ok w p -> blen p + 3 < 2 ^ 32 ->
  exists inv at_, inv (Table_NewIterator buf fresh t o w) /\
    IteratorOk (IteratorOps0 := Table_iterator_ops t) (Compare cmp) valid kvs inv at_ /\
    (forall it, inv it -> world_ok (TwoLevel_destroy it) p).
Proof.
  intros Hw Hn. rewrite <- table_all_entries.
  assert (Hit : iterating p [] w) by (by exists []).
  eexists _, _. split; [|split].
  - apply (NewTwoLevelIterator_inv cmp valid table_data_blocks bi_cleanups (BlockReader buf fresh t) o index_inv (iterating p)); [|done].
    apply index_iterator_inv.
  - apply (TwoLevelIterator_ok cmp valid valid table_data_blocks bi_cleanups _ _ _ _ _ (table_two_level o p Hn)).
    rewrite length_table_data_blocks, <- (length_index_entries Htf), (op_index _ _ _ _ Hop).
    pose proof (block_entries_le (cmp := cmp) (valid := valid) _ _ (index_buildable Htf)) as Hle. unfold index_raw, raw_block, blen in *. lia.
  - intros it Hinv.
    destruct (TwoLevel_destroy_ok cmp valid valid _ bi_cleanups _ _ _ _ _ (table_two_level o p Hn) it Hinv) as (qs & Hqs & Hw'); [done|].
    inversion Hqs; subst. apply Hw'.
Qed.

(** ** Point lookups *)

Lemma good_refl l a : good opt valid l -> a ∈ l -> Compare cmp a.1 a.1 = 0.
Proof.
  intros [_ Hv] Ha. rewrite Forall_forall in Hv. apply (Compare_refl (cmp := cmp) (valid := valid)). by apply Hv.
Qed.

(** The block an entry is in is the one the index finds for its key. *)
Lemma index_finds k v : valid k -> (k, v) ∈ kvs -> exists b,
  bs !! seek_index (Compare cmp) k (TableBuilder.index_entries opt bs seps) = Some b /\ (k, v) ∈ b.
Proof.
  intros Hk Hin. pose proof (tb_separators _ _ _ _ _ (tf_blocks _ _ _ _ _ Htf)) as Hs.
  rewrite <- (tb_entries _ _ _ _ _ (tf_blocks _ _ _ _ _ Htf)) in Hin.
  apply list_elem_of_In, in_concat in Hin as (b & [i Hi]%list_elem_of_In%list_elem_of_lookup & Hb%list_elem_of_In).
  set (idx := TableBuilder.index_entries opt bs seps). set (n := seek_index (Compare cmp) k idx).
  destruct (seek_index_spec (Compare cmp) k idx) as [Hbef Haft]. fold n in Hbef, Haft.
  destruct (index_entry_lookup Htf i b Hi) as (sep & Hsep & He). fold idx in He.
  pose proof (sp_below _ _ _ _ _ Hs i b sep (k, v) Hi Hsep Hb) as Hle. cbn in Hle.
  enough (i = n) as <- by (by exists b). destruct (Nat.lt_trichotomy i n) as [Hlt|[->|Hlt]]; [|done|]; exfalso.
  - rewrite Forall_lookup in Hbef. specialize (Hbef i _ ltac:(by apply lookup_take_Some; split)). cbn in Hbef.
    apply (Compare_antisym (cmp := cmp) (valid := valid)) in Hbef; [lia|by eapply (seps_valid Htf)|done].
  - destruct (lookup_lt_is_Some_2 bs n) as [b' Hb']; [apply lookup_lt_Some in Hi; lia|].
    destruct (index_entry_lookup Htf n b' Hb') as (sep' & Hsep' & He'). fold idx in He'. apply (Haft _ He'). cbn.
    apply (sp_above _ _ _ _ _ Hs n i b sep' (k, v)); [done| |done|done]. by apply lookup_app_l_Some.
Qed.

(** What is found in the block is what is found in the table. *)
Lemma block_finds k b e : valid k ->
  bs !! seek_index (Compare cmp) k (TableBuilder.index_entries opt bs seps) = Some b ->
  b !! seek_index (Compare cmp) k b = Some e -> kvs !! seek_index (Compare cmp) k kvs = Some e.
Proof.
  intros Hk Hb He. rewrite <- table_all_entries. set (n := seek_index _ k (TableBuilder.index_entries opt bs seps)) in *.
  assert (exists d, table_data_blocks !! n = Some d /\ bk_entries cmp valid d = b) as (d & Hd' & Hent).
  { destruct (lookup_lt_is_Some_2 table_data_blocks n) as [d Hd'].
    { rewrite length_table_data_blocks. by eapply lookup_lt_Some. }
    exists d. split; [done|]. apply table_data_blocks_lookup in Hd' as (b' & sep & Hb' & _ & ->). cbn. congruence. }
  rewrite (seek_index_all cmp valid valid table_data_blocks table_separated k Hk), table_index_entries. fold n.
  rewrite Hd', Hent. rewrite (lookup_all cmp valid table_data_blocks n d); [by rewrite Hent|done|].
  rewrite Hent. by eapply lookup_lt_Some.
Qed.

(** *** The filter *)

Context (Hpol : forall p, filter_policy opt = Some p -> FilterPolicyOk p) (Hcount : blen kvs < 2 ^ 31).

Lemma filter_input_sorted : StronglySorted (fun x y => x.1 <= y.1) (filter_input opt bs []).
Proof.
  assert (Hoff : forall i x, filter_input opt bs [] !! i = Some x -> x.1 = blen (data_bytes opt (take i bs)) /\ (i <= length bs)%nat).
  { intros i x Hx. unfold filter_input in Hx. apply lookup_app_Some in Hx as [Hx|[Hle Hx]].
    - apply lookup_zip_with_Some in Hx as (o & ks & -> & Ho & Hks). apply list_lookup_fmap_Some in Hks as (b & _ & Hb).
      pose proof (running_lookup 0 (data_blocks opt bs) i _ ltac:(unfold data_blocks; rewrite list_lookup_fmap, Hb; done)) as Hr.
      unfold offsets in Ho. rewrite Hr in Ho. injection Ho as <-. cbn. unfold data_bytes, data_blocks. rewrite fmap_take.
      apply lookup_lt_Some in Hb. split; [done|lia].
    - apply list_lookup_singleton_Some in Hx as [Hi <-]. rewrite length_zip_with, length_fmap, length_offsets in *.
      rewrite take_ge by lia. split; [done|lia]. }
  apply StronglySorted_lookup. intros i j x y Hij Hx Hy. destruct (Hoff i x Hx) as [-> _], (Hoff j y Hy) as [-> Hj].
  destruct (lookup_lt_is_Some_2 bs i) as [b Hb]; [lia|]. pose proof (data_offset_lt opt bs i j b Hij Hb). lia.
Qed.

Lemma filter_input_count : key_count (filter_input opt bs []) = blen kvs.
Proof.
  unfold key_count, filter_input. rewrite fmap_app, concat_app. cbn. rewrite app_nil_r.
  rewrite fmap_zip_with_r; [|done|rewrite length_fmap, length_offsets; lia].
  rewrite <- (tb_entries _ _ _ _ _ (tf_blocks _ _ _ _ _ Htf)). unfold blen. f_equal.
  clear; induction bs as [|b bs' IH]; [done|]. cbn. rewrite !length_app, length_fmap. f_equal. exact IH.
Qed.

Lemma filter_accepts f i b k v : table_filter t = Some f -> bs !! i = Some b -> (k, v) ∈ b ->
  FilterBlock_KeyMayMatch f (offset_ (data_handle opt bs i b)) k = true.
Proof.
  intros Hf Hi Hin. pose proof (op_filter _ _ _ _ Hop) as Hfo. rewrite Hf in Hfo.
  destruct Hfo as (p & raw & Hp & Hraw & ->). pose proof (Hpol p Hp) as Hpok.
  assert (raw = FilterBlock.Finish (fold_left add_block (filter_input opt bs []) (FilterBlockBuilder_new p))) as ->.
  { unfold filter_raw, filter_state in Hraw. rewrite Hp in Hraw. cbn in Hraw. congruence. }
  apply (FilterBlock_accepts (filter_input opt bs []) _ (b.*1)).
  - apply filter_input_sorted.
  - apply Forall_forall. intros x Hx. unfold filter_input in Hx. apply elem_of_app in Hx as [Hx|Hx%list_elem_of_singleton].
    + destruct x as [o ks]. apply elem_of_zip_l in Hx. apply list_elem_of_lookup in Hx as [j Hj]. unfold offsets in Hj.
      apply running_range in Hj. cbn. lia.
    + subst x. cbn. apply blen_nonneg.
  - rewrite filter_input_count. done.
  - pose proof (image_size Htf) as Hz. unfold filter_part in Hz. rewrite Hraw, blen_stored in Hz. unfold kBlockTrailerSize in Hz.
    pose proof (blen_nonneg (data_bytes opt bs)). pose proof (blen_nonneg (meta_raw opt bs)). pose proof (blen_nonneg (index_raw opt bs seps)). lia.
  - unfold filter_input. apply elem_of_app. left. apply list_elem_of_lookup. exists i. apply lookup_zip_with_Some.
    eexists _, _. split; [reflexivity|]. split; [|by rewrite list_lookup_fmap, Hi].
    unfold offsets. rewrite (running_lookup 0 _ i (stored (raw_block opt b))) by (unfold data_blocks; by rewrite list_lookup_fmap, Hi).
    cbn. unfold data_bytes, data_blocks. by rewrite fmap_take.
  - by apply (list_elem_of_fmap_2 fst b (k, v)).
Qed.

(** *** [InternalGet] *)

(** The index entry that [Seek] finds. *)
Lemma index_seek k : valid k -> let it := Seek k (index_iterator t) in
  let n := seek_index (Compare cmp) k (TableBuilder.index_entries opt bs seps) in
  ok (status it) = true /\
  match bs !! n with
  | Some b => Valid it = true /\ iter_value it = BlockHandle_EncodeTo (data_handle opt bs n b) []
  | None => Valid it = false
  end.
Proof.
  intros Hk it n. pose proof (Seek_at _ k index_iterator_inv Hk) as Ha. fold it in Ha. fold n in Ha.
  split; [by eapply status_at|]. destruct (bs !! n) as [b|] eqn:E.
  - destruct (index_entry_lookup Htf n b E) as (sep & _ & He). split.
    + apply (Valid_at _ _ Ha). by eapply lookup_lt_Some.
    + by apply (entry_at _ _ _ _ Ha He).
  - apply lookup_ge_None in E. pose proof (at_range _ _ Ha) as Hr. rewrite (length_index_entries Htf) in Hr.
    apply (Valid_at_false (entries := TableBuilder.index_entries opt bs seps) (at_ := index_at)). rewrite (length_index_entries Htf).
    by replace (length bs) with n by lia.
Qed.

(** The lookup in one block. *)
Lemma block_lookup (it : BlockIter (Hd := Hd)) b k : valid k ->
  ((exists j, bi_iter it = inr j /\ built_inv (cmp := cmp) (valid := valid) opt b j) \/
   (exists st, bi_iter it = inl (NewErrorIterator st) /\ ok st = false)) ->
  ok (status (Seek k it)) = true ->
  (if Valid (Seek k it) then Some (iter_key (Seek k it), iter_value (Seek k it)) else None) =
  b !! seek_index (Compare cmp) k b.
Proof.
  intros Hk [(j & Hj & Hinv)|(st & Hj & Hst)] Hok.
  2:{ cbn in Hok. rewrite Hj in Hok. cbn in Hok. congruence. }
  assert (Ha : lift_at holds_iter (built_at (cmp := cmp) (valid := valid) opt b) (Seek k it) (seek_index (Compare cmp) k b)).
  { pose proof (dispatch_ok holds_iter _ _ _ _ _ (built_ok (cmp := cmp) (valid := valid) opt b)) as Hok'.
    apply Seek_at; [|done]. by exists j. }
  pose proof (dispatch_ok holds_iter _ _ _ _ _ (built_ok (cmp := cmp) (valid := valid) opt b)) as Hok'.
  destruct (b !! seek_index (Compare cmp) k b) as [[k' v']|] eqn:E.
  - rewrite (proj2 (Valid_at _ _ Ha)) by (by eapply lookup_lt_Some). by destruct (entry_at _ _ _ _ Ha E) as [-> ->].
  - apply lookup_ge_None in E. destruct (Valid (Seek k it)) eqn:Hv; [|done]. apply (Valid_at _ _ Ha) in Hv. lia.
Qed.

Lemma InternalGet_spec o k w p : valid k -> world_ok w p -> blen p + 2 < 2 ^ 32 ->
  let '(st, saved, w') := InternalGet buf fresh t o k w in
  world_ok w' p /\ (RandomAccessFileReliable H S reads -> ok st = true) /\
  (ok st = true ->
    (forall e, saved = Some e -> kvs !! seek_index (Compare cmp) k kvs = Some e) /\
    (forall v, (k, v) ∈ kvs -> saved = Some (k, v))).
Proof.
  intros Hk Hw Hn. unfold InternalGet. destruct (index_seek k Hk) as [Hst Hi].
  set (iiter := Seek k (index_iterator t)) in *. set (n := seek_index _ k (TableBuilder.index_entries opt bs seps)) in *.
  destruct (bs !! n) as [b|] eqn:Eb.
  2:{ rewrite Hi. cbn iota. change (ok OK) with true. cbn iota. split_and!; [done|done|]. intros _. split; [done|].
      intros v Hin. destruct (index_finds k v Hk Hin) as (b & Hb & _). fold n in Hb. congruence. }
  destruct Hi as [Hv Hval]. rewrite Hv, Hval. cbn iota.
  rewrite <- (app_nil_r (BlockHandle_EncodeTo _ [])), BlockHandle_DecodeFrom_Encode by (by apply data_handle_ok).
  rewrite app_nil_r. change (ok OK) with true. cbn [andb].
  assert (Hfound : forall v, (k, v) ∈ kvs -> (k, v) ∈ b).
  { intros v Hin. destruct (index_finds k v Hk Hin) as (b' & Hb' & Hin'). fold n in Hb'. by simplify_eq. }
  destruct (match table_filter t with Some f => negb (FilterBlock_KeyMayMatch f _ k) | None => false end) eqn:Ef.
  - change (ok OK) with true. cbn iota. split_and!; [done|done|]. intros _. split; [done|]. intros v Hin.
    destruct (table_filter t) as [f|] eqn:Et; [|done]. apply negb_true_iff in Ef.
    rewrite (filter_accepts f n b k v Et Eb (Hfound v Hin)) in Ef. done.
  - pose proof (BlockReader_spec o n b w p Eb Hw Hn) as Hbr.
    destruct (BlockReader buf fresh t o _ w) as [it w']. destruct Hbr as (Hit & (q & Hq & Hw') & Hrel).
    split_and!; [by eapply (delete_world (Seek k it))| |].
    + intros Hr. destruct (Hrel Hr) as (j & Hj & Hinv).
      assert (ok (status (Seek k it)) = true) as ->; [|done]. cbn. rewrite Hj. cbn.
      pose proof (Seek_at (Compare := Compare cmp) j k Hinv Hk) as Ha. exact (status_at _ _ Ha).
    + destruct (ok (status (Seek k it))) eqn:Hok; [|congruence]. intros _.
      rewrite (block_lookup it b k Hk Hit Hok). split; [intros e He; by eapply block_finds|]. intros v Hin.
      assert (Hgb : good opt valid b).
      { split; apply (data_buildable Htf n b Eb). }
      apply seek_index_found; [|apply Hgb|by apply Hfound]. intros a. by apply good_refl.
Qed.

Lemma ApproximateOffsetOf_spec k : valid k -> ApproximateOffsetOf t k =
  let n := seek_index (Compare cmp) k (TableBuilder.index_entries opt bs seps) in
  if decide (n < length bs)%nat then blen (data_bytes opt (take n bs)) else offset_ (meta_handle opt bs).
Proof.
  intros Hk. unfold ApproximateOffsetOf. destruct (index_seek k Hk) as [_ Hi]. set (n := seek_index _ k _) in *. cbn zeta.
  destruct (decide (n < length bs)%nat) as [Hn|Hn].
  - destruct (lookup_lt_is_Some_2 bs n Hn) as [b Hb]. rewrite Hb in Hi. destruct Hi as [-> ->].
    rewrite <- (app_nil_r (BlockHandle_EncodeTo _ [])), BlockHandle_DecodeFrom_Encode by (by apply data_handle_ok). done.
  - rewrite (lookup_ge_None_2 bs n) in Hi by lia. rewrite Hi. by rewrite (op_meta _ _ _ _ Hop).
Qed.

Lemma ApproximateOffsetOf_bounds k k' : valid k -> valid k' -> Compare cmp k k' <= 0 ->
  0 <= ApproximateOffsetOf t k <= ApproximateOffsetOf t k' /\ ApproximateOffsetOf t k' < blen image.
Proof.
  intros Hk Hk' Hle. rewrite !ApproximateOffsetOf_spec by done. cbn zeta.
  set (idx := TableBuilder.index_entries opt bs seps).
  assert (Hn : (seek_index (Compare cmp) k idx <= seek_index (Compare cmp) k' idx)%nat).
  { apply seek_index_mono. intros e [i He]%list_elem_of_lookup Hlt.
    destruct (index_entry_inv Htf i e He) as (b & sep & _ & Hs & ->). cbn [fst] in *.
    eapply (Compare_lt_le_trans (valid := valid) sep k); [by eapply (seps_valid Htf)|done..]. }
  set (n := seek_index (Compare cmp) k idx) in *. set (n' := seek_index (Compare cmp) k' idx) in *.
  assert (Hmeta : offset_ (meta_handle opt bs) = blen (data_bytes opt bs) + blen (filter_part opt bs)) by (cbn; by rewrite blen_app).
  assert (Hdata : forall m, (m < length bs)%nat -> blen (data_bytes opt (take m bs)) < blen (data_bytes opt bs)).
  { intros m Hm. destruct (lookup_lt_is_Some_2 bs m Hm) as [b Hb].
    pose proof (data_offset_lt opt bs m (length bs) b Hm Hb) as Hlt. by rewrite (take_ge bs (length bs)) in Hlt. }
  assert (Hmono : (n < n')%nat -> (n' < length bs)%nat -> blen (data_bytes opt (take n bs)) < blen (data_bytes opt (take n' bs))).
  { intros Hlt Hn'. destruct (lookup_lt_is_Some_2 bs n) as [b Hb]; [lia|]. by eapply data_offset_lt. }
  pose proof (blen_nonneg (filter_part opt bs)). pose proof (blen_nonneg (data_bytes opt (take n bs))).
  assert (blen (data_bytes opt bs) + blen (filter_part opt bs) < blen image).
  { unfold table_image. rewrite !blen_app, !blen_stored. unfold kBlockTrailerSize.
    match goal with |- context [blen (Footer_EncodeTo ?f [])] => pose proof (blen_nonneg (Footer_EncodeTo f [])) end.
    pose proof (blen_nonneg (meta_raw opt bs)). pose proof (blen_nonneg (index_raw opt bs seps)). lia. }
  destruct (decide (n < length bs)%nat) as [Hd1|Hd1], (decide (n' < length bs)%nat) as [Hd2|Hd2]; try lia.
  - pose proof (Hdata n' Hd2). destruct (decide (n = n')) as [<-|]; [lia|]. specialize (Hmono ltac:(lia) Hd2). lia.
  - pose proof (Hdata n Hd1). lia.
  - pose proof (blen_nonneg (data_bytes opt bs)). lia.
Qed.
End use_facts.


(** * From builder to reader *)

Section roundtrip.
Context {port : Port} `{!PortCrcOk port}.
(** The file the table is written to, and the one it is read from. *)
Context {H S : Type} {wops : WritableFileOps H S} {written : H -> S -> bytes} `{!WritableFileOk H S written}.
Context {H' S' : Type} {rops : RandomAccessFileOps H' S'} {reads : H' -> S' -> bytes -> Prop} `{!RandomAccessFileOk H' S' reads}.
Context {C Hd : Type} {cops : CacheOps C Block Hd} {pinned : C -> list (Hd * Block) -> Prop}.
Context {holds : C -> bytes -> Block -> Prop} `{!CacheOk C Block Hd pinned holds}.
Context (wfile : H) (contents_ptr trailer_ptr : Z) (rfile : H') (buf : Z) (fresh : Z -> bytes).
Context (opt ropt : Options) (valid : bytes -> Prop) `{!ComparatorOk (comparator opt) valid}.

(** The life of a table file: built by [calls] with [opt] to the bytes [image],
    and opened with [ropt] in the state [w], where [p] is pinned in the
    cache. *)
Record table_life (calls : list call) (image : bytes) (w : S' * C) (p : list (Hd * Block)) : Prop := {
  tl_calls : good opt valid (added calls) /\ Forall small_kv (added calls) /\ blen (added calls) < 2 ^ 31;
  tl_options : 1 <= block_restart_interval opt /\ (compression opt = kNoCompression \/ HAVE_SNAPPY = None);
  tl_policy : forall q, filter_policy opt = Some q -> FilterPolicyOk q;
  tl_built : exists s st r s', written wfile s = [] /\
    build wfile contents_ptr trailer_ptr opt calls s = (st, r, s') /\ ok st = true /\
    written wfile s' = image;
  tl_size : blen image < 2 ^ 32;
  tl_reads : reads rfile w.1 image;
  tl_same : comparator ropt = comparator opt /\ filter_policy ropt = filter_policy opt;
  tl_pinned : pinned w.2 p /\ blen p + 3 < 2 ^ 32;
  (* ids partition the keys of the cache, and the next one is unused *)
  tl_fresh : forall k v, holds w.2 k v -> take 8 k <> EncodeFixed64 (Cache_NewId w.2).1;
}.

Lemma table_life_file calls image w p : table_life calls image w p ->
  exists bs seps, table_on_disk opt valid (added calls) bs seps /\ image = table_image opt bs seps.
Proof.
  intros [(Hg & Hs & _) [Hi Hplain] _ (s & st & r & s' & Hw0 & Hb & Hok & <-) Hsz _ _ _ _].
  destruct (build_image wfile contents_ptr trailer_ptr opt valid Hplain calls s st r s' Hw0 Hb Hok Hsz Hg)
    as (bs & seps & Himg & Ht). exists bs, seps. split; [|done]. split; try done. by rewrite <- Himg.
Qed.

(** After [Open]. *)
Lemma table_life_open calls bc image w p : table_life calls image w p ->
  let '(st, ot, w') := Table_Open buf fresh ropt bc rfile (blen image) w in
  (ok st = true -> exists t id bs seps, ot = Some t /\ image = table_image opt bs seps /\
    table_on_disk opt valid (added calls) bs seps /\
    opened (opt := opt) (ropt := ropt) (bs := bs) (seps := seps) rfile t bc id /\
    world_ok (opt := opt) (bs := bs) (seps := seps) (reads := reads) (pinned := pinned) (holds := holds) rfile
      (own_blocks (opt := opt) (bs := bs) t) (fun _ => True) w' p) /\
  (RandomAccessFileReliable H' S' reads -> ok st = true).
Proof.
  intros Hl. destruct (table_life_file _ _ _ _ Hl) as (bs & seps & Htf & ->). destruct w as [s c].
  destruct (tl_same _ _ _ _ Hl) as [Hcmp Hpol].
  pose proof (Open_spec (seps := seps) buf fresh Htf rfile Hpol bc s c (tl_reads _ _ _ _ Hl)) as Ho.
  destruct (Table_Open buf fresh ropt bc rfile _ (s, c)) as [[st ot] w']. destruct Ho as (Hc & Hcache & Hok & Hrel).
  split; [|done]. intros Hst. destruct (Hok Hst) as (t & id & -> & Hop & Hid). exists t, id, bs, seps. split_and!; try done.
  destruct (tl_pinned _ _ _ _ Hl) as [Hp _]. cbn in Hp. split; [done|]. split.
  - destruct Hcache as [-> | ->]; [done|]. by apply NewId_pinned.
  - split; [|done]. intros k v Hh Hbc i b Hi ->. rewrite (op_cache _ _ _ _ Hop) in Hbc. specialize (Hid Hbc).
    exfalso. apply (tl_fresh _ _ _ _ Hl (block_cache_key t (data_handle opt bs i b)) v); cbn [snd].
    + destruct Hcache as [Hc' | Hc']; rewrite Hc' in Hh; [done|]. by eapply NewId_holds.
    + rewrite <- Hid. cbn [fst]. unfold block_cache_key. rewrite take_app_length' by (by rewrite length_EncodeFixed64).
      by rewrite (op_cache_id _ _ _ _ Hop).
Qed.

(** C3: tables round trip.  Whatever was added to a table builder, in whatever
    blocks it was flushed: when [Finish] succeeded and the file is read without
    failures, [Open] succeeds, and the iterator of the opened table implements
    the iterator interface over exactly the added entries, whatever the block
    cache holds, keeps or drops; and deleting the iterator, in any state it can
    reach, leaves pinned in the cache what was pinned before. *)
Theorem Table_roundtrip (calls : list call) (bc : bool) (image : bytes) (w : S' * C) (p : list (Hd * Block)) (o : ReadOptions) :
  table_life calls image w p -> RandomAccessFileReliable H' S' reads ->
  exists st t w' inv at_, Table_Open buf fresh ropt bc rfile (blen image) w = (st, Some t, w') /\
    ok st = true /\ inv (Table_NewIterator buf fresh t o w') /\
    IteratorOk (IteratorOps0 := Table_iterator_ops t) (Compare (comparator opt)) valid (added calls) inv at_ /\
    (forall it, inv it -> pinned (TwoLevel_destroy it).2 p).
Proof.
  intros Hl Hrel. pose proof (table_life_open calls bc image w p Hl) as Ho.
  destruct (Table_Open buf fresh ropt bc rfile _ w) as [[st ot] w']. destruct Ho as [Hok Hst]. specialize (Hst Hrel).
  destruct (Hok Hst) as (t & id & bs & seps & -> & Himg & Htf & Hop & Hw).
  destruct (table_iterator_ok buf fresh Htf rfile (proj1 (tl_same _ _ _ _ Hl)) t bc id Hop _ (own_blocks_allows Htf t) _ o w' p Hw (proj2 (tl_pinned _ _ _ _ Hl)))
    as (inv & at_ & Hi & Hit & Hdel).
  exists st, t, w', inv, at_. split_and!; [done..|]. intros it Hinv. apply (Hdel it Hinv).
Qed.

(** C8: a point lookup finds what was added.  On a file any of whose reads may
    fail: when [Open] and [InternalGet] report success, an entry passed to the
    callback is the first one at or past the key, and for a key that was added
    the callback gets that key with its value, through filter and block cache;
    the lookup leaves nothing pinned in the cache; and it does succeed on a
    file that does not fail. *)
Theorem InternalGet_correct (calls : list call) (bc : bool) (image : bytes) (w : S' * C) (p : list (Hd * Block)) (o : ReadOptions) (k : bytes) :
  table_life calls image w p -> valid k ->
  let kvs := added calls in
  let '(st, ot, w') := Table_Open buf fresh ropt bc rfile (blen image) w in
  (RandomAccessFileReliable H' S' reads -> ok st = true) /\
  (ok st = true -> exists t, ot = Some t /\
    let '(st', saved, w'') := InternalGet buf fresh t o k w' in
    (ok st' = true ->
      (forall e, saved = Some e -> kvs !! seek_index (Compare (comparator opt)) k kvs = Some e) /\
      (forall v, (k, v) ∈ kvs -> saved = Some (k, v))) /\
    pinned w''.2 p /\ (RandomAccessFileReliable H' S' reads -> ok st' = true)).
Proof.
  intros Hl Hk kvs. pose proof (table_life_open calls bc image w p Hl) as Ho.
  destruct (Table_Open buf fresh ropt bc rfile _ w) as [[st ot] w']. destruct Ho as [Hok Hst]. split; [done|]. intros Hok1.
  destruct (Hok Hok1) as (t & id & bs & seps & -> & Himg & Htf & Hop & Hw). exists t. split; [done|].
  pose proof (InternalGet_spec buf fresh Htf rfile (proj1 (tl_same _ _ _ _ Hl)) t bc id Hop _ (own_blocks_allows Htf t) _ (tl_policy _ _ _ _ Hl)
    (proj2 (proj2 (tl_calls _ _ _ _ Hl))) o k w' p Hk Hw ltac:(pose proof (proj2 (tl_pinned _ _ _ _ Hl)); lia)) as Hget.
  destruct (InternalGet buf fresh t o k w') as [[st' saved] w'']. destruct Hget as (Hw'' & Hrel & Hres). split_and!; [done|apply Hw''|done].
Qed.

(** [ApproximateOffsetOf] is an offset into the file and is monotone in the
    key. *)
Theorem ApproximateOffsetOf_monotone (calls : list call) (bc : bool) (image : bytes) (w : S' * C) (p : list (Hd * Block)) (k k' : bytes) :
  table_life calls image w p -> valid k -> valid k' -> Compare (comparator opt) k k' <= 0 ->
  let '(st, ot, w') := Table_Open buf fresh ropt bc rfile (blen image) w in
  ok st = true -> exists t, ot = Some t /\
    0 <= ApproximateOffsetOf t k <= ApproximateOffsetOf t k' /\ ApproximateOffsetOf t k' < blen image.
Proof.
  intros Hl Hk Hk' Hle. pose proof (table_life_open calls bc image w p Hl) as Ho.
  destruct (Table_Open buf fresh ropt bc rfile _ w) as [[st ot] w']. destruct Ho as [Hok _]. intros Hok1.
  destruct (Hok Hok1) as (t & id & bs & seps & -> & Himg & Htf & Hop & Hw). exists t. split; [done|].
  rewrite Himg. by apply (ApproximateOffsetOf_bounds Htf rfile (proj1 (tl_same _ _ _ _ Hl)) t bc id Hop).
Qed.
End roundtrip.

(** * An instance *)

(** Small blocks, a bloom filter, a [Flush] in between. *)
Module TestTable.
#[local] Existing Instance little_endian_port.

Definition opt : Options := {|
  comparator := BytewiseComparator; create_if_missing := false; error_if_exists := false;
  paranoid_checks := true; write_buffer_size := 0; max_open_files := 0; block_size := 40;
  block_restart_interval := 2; max_file_size := 0; compression := kSnappyCompression;
  reuse_logs := false; filter_policy := Some (NewBloomFilterPolicy 10) |}.

Definition kv (k v : string) : call := CallAdd (bytes_of_string k) (bytes_of_string v).

Definition calls : list call :=
  [kv "apple" "1"; kv "applesauce" "2"; kv "apply" "3"; kv "banana" "4"; CallFlush; kv "band" "5"].

Definition built_file : bytes := Eval vm_compute in (build tt 0 0 opt calls []).2.

Lemma life : table_life (written := fun _ s => s) (reads := fun _ s c => s = c) (pinned := NullCache.pinned)
  (holds := fun _ _ _ => False) tt 0 0 tt opt opt (fun _ => True) calls built_file (built_file, @nil Block) [].
Proof.
  split; try done.
  - split_and!; [|by repeat constructor|done]. split; [|by apply Forall_true].
    unfold sorted_by, added, calls, kv. cbn [omap list_omap].
    repeat (constructor; [|repeat (constructor; [vm_compute; reflexivity|]); by constructor]); constructor.
  - split; [done|by right].
  - intros q [= <-]. by apply NewBloomFilterPolicy_ok.
  - exists [], (build tt 0 0 opt calls []).1.1, (build tt 0 0 opt calls []).1.2, (build tt 0 0 opt calls []).2.
    split_and!; [done|by destruct (build _ _ _ _ _ _) as [[??]?]|by vm_compute|by vm_compute].
  - split; [constructor|done].
Qed.
End TestTable.

Lemma TableBuilder_writes_table_witness :
  let P := little_endian_port in
  exists bs seps, TestTable.built_file = table_image TestTable.opt bs seps /\
    table_blocks TestTable.opt (fun _ => True) (added TestTable.calls) bs seps.
Proof.
  intros P. pose proof (TableBuilder_writes_table (written := fun _ s => s) tt 0 0 TestTable.opt (fun _ => True) TestTable.calls []
    ltac:(by right) eq_refl (proj1 (tl_calls _ _ _ _ _ _ _ _ _ _ _ TestTable.life))) as Ht.
  destruct (build tt 0 0 TestTable.opt TestTable.calls []) as [[st r] s'] eqn:E. destruct Ht as [Ht Hok].
  assert (s' = TestTable.built_file) as -> by (change s' with (st, r, s').2; rewrite <- E; vm_compute; reflexivity).
  apply Ht; [apply Hok; split; done|vm_compute; reflexivity].
Defined.

Lemma Table_roundtrip_witness :
  let P := little_endian_port in
  exists st t w', Table_Open 1000 (fun _ => []) TestTable.opt true tt (blen TestTable.built_file) (TestTable.built_file, @nil Block) =
      (st, Some t, w') /\ ok st = true /\
    collect (IteratorOps0 := Table_iterator_ops t) 6
      (SeekToFirst (IteratorOps := Table_iterator_ops t) (Table_NewIterator 1000 (fun _ => []) t ReadOptions_new w')) =
    added TestTable.calls.
Proof.
  intros P. destruct (Table_roundtrip tt 0 0 tt 1000 (fun _ => []) _ _ _ TestTable.calls true TestTable.built_file (TestTable.built_file, @nil Block) []
    ReadOptions_new TestTable.life MemFile.random_reliable) as (st & t & w' & inv & at_ & Ho & Hst & Hi & Hit & _).
  exists st, t, w'. split; [exact Ho|]. split; [exact Hst|].
  pose proof (SeekToFirst_at (IteratorOps0 := Table_iterator_ops t) _ Hi) as Ha.
  pose proof (collect_at (IteratorOps0 := Table_iterator_ops t) (IteratorOk0 := Hit) 6 _ _ Ha) as Hc.
  etransitivity; [apply Hc; vm_compute; lia|done].
Defined.

Lemma InternalGet_correct_witness :
  let P := little_endian_port in
  exists t w', (Table_Open 1000 (fun _ => []) TestTable.opt true tt (blen TestTable.built_file)
      (TestTable.built_file, @nil Block)).1.2 = Some t /\
    (InternalGet 1000 (fun _ => []) t ReadOptions_new (bytes_of_string "banana") w').1.2 =
    Some (bytes_of_string "banana", bytes_of_string "4").
Proof.
  intros P. pose proof (InternalGet_correct tt 0 0 tt 1000 (fun _ => []) _ _ _ TestTable.calls true TestTable.built_file (TestTable.built_file, @nil Block) []
    ReadOptions_new (bytes_of_string "banana") TestTable.life Logic.I) as Hget. cbn zeta in Hget. cbn [fst] in Hget.
  destruct (Table_Open 1000 (fun _ => []) TestTable.opt true tt (blen TestTable.built_file) (TestTable.built_file, [])) as [[st ot] w'].
  destruct Hget as [Hok Hget]. destruct (Hget (Hok MemFile.random_reliable)) as (t & -> & Ht). exists t, w'. split; [done|].
  destruct (InternalGet 1000 (fun _ => []) t ReadOptions_new (bytes_of_string "banana") w') as [[st' saved] w''].
  destruct Ht as (Hres & _ & Hok'). destruct (Hres (Hok' MemFile.random_reliable)) as [_ Hfind].
  apply Hfind. apply (bool_decide_eq_true_1 (_ ∈ added TestTable.calls)). vm_compute. reflexivity.
Defined.

Lemma ApproximateOffsetOf_monotone_witness :
  let P := little_endian_port in
  exists t, (Table_Open 1000 (fun _ => []) TestTable.opt true tt (blen TestTable.built_file)
      (TestTable.built_file, @nil Block)).1.2 = Some t /\
    ApproximateOffsetOf t (bytes_of_string "b") <= ApproximateOffsetOf t (bytes_of_string "c").
Proof.
  intros P. pose proof (ApproximateOffsetOf_monotone tt 0 0 tt 1000 (fun _ => []) _ _ _ TestTable.calls true TestTable.built_file
    (TestTable.built_file, @nil Block) [] (bytes_of_string "b") (bytes_of_string "c") TestTable.life Logic.I Logic.I
    ltac:(vm_compute; discriminate)) as Ha. cbn [fst] in Ha.
  assert (ok (Table_Open 1000 (fun _ => []) TestTable.opt true tt (blen TestTable.built_file) (TestTable.built_file, @nil Block)).1.1 = true)
    as Hok by (vm_compute; reflexivity).
  destruct (Table_Open 1000 (fun _ => []) TestTable.opt true tt (blen TestTable.built_file) (TestTable.built_file, [])) as [[st ot] w'].
  destruct (Ha Hok) as (t & -> & Hle & _). exists t. split; [done|]. apply Hle.
Defined.
