(* ===== verification/TableCache.v ===== *)
(** The table cache of [db/table_cache.h] and [db/table_cache.cpp]: open
    tables, by file number, in an LRU cache.

    Proved, against the interfaces of the environment and of the two caches:
    lookups and iterators read the entries of the file with the given number,
    whatever either cache holds or evicts in between; errors are not cached;
    and files are closed exactly when the cache lets go of their tables. *)

From S2P Require Import Prelude Port Coding Crc32c Status Comparator Bloom Env FileName Options BlockBuilder Iterator IteratorWrapper TwoLevelIterator Cache Block FilterBlock TableFormat TableBuilder LRUCache LRUShard ShardedCache ShardedOwner Table.

(** * The code *)

Section code.
Context {port : Port} {H S : Type} `{!RandomAccessEnv H S} {C Hd : Type} `{!CacheOps C Block Hd}.
(** The address of the read buffers and the initial content of new ones. *)
Context (buf : Z) (fresh : Z -> bytes).

Record TableAndFile := { tf_file : H; tf_table : Table (H := H) }.

Context {CT HT : Type} `{!CacheOps CT TableAndFile HT} `{!CacheDeletions CT TableAndFile}.

(** The state of the environment and the block cache, which tables use, is
    threaded next to the table cache.  [block_cache] tells whether
    [options->block_cache] is set. *)
Record TableCache := mkTableCache {
  dbname_ : bytes;
  tc_options : Options;
  block_cache : bool;
  cache_ : CT;
}.

Definition set_cache (tc : TableCache) (c : CT) : TableCache := mkTableCache (dbname_ tc) (tc_options tc) (block_cache tc) c.

(** The table only owns memory. *)
Definition DeleteEntry (w : S * C) (kv : bytes * TableAndFile) : S * C :=
  ((delete_random_access (tf_file kv.2) w.1).2, w.2).

(** The calls of the deleter within an operation of the cache, which they do
    not touch. *)
Definition run_deleter (c c' : CT) (w : S * C) : S * C := fold_left DeleteEntry (Cache_deletions c c') w.

Definition Release (h : HT) (tc : TableCache) (w : S * C) : TableCache * (S * C) :=
  let c := Cache_Release h (cache_ tc) in
  (set_cache tc c, run_deleter (cache_ tc) c w).

(** [delete file], of a pointer that may be [NULL]. *)
Definition delete_file (file : option H) (e : S) : S :=
  match file with Some f => (delete_random_access f e).2 | None => e end.

(** The handle, [NULL] when there is none.  A success without a file or a table
    would be a null pointer; the environment and [Open] give one. *)
Definition FindTable (file_number file_size : Z) (tc : TableCache) (w : S * C)
    : Status * option HT * TableCache * (S * C) :=
  let key := EncodeFixed64 file_number in
  let '(handle, c) := Cache_Lookup key (cache_ tc) in
  let tc := set_cache tc c in
  match handle with
  | Some h => (OK, Some h, tc, w)
  | None =>
    let fname := TableFileName (dbname_ tc) file_number in
    let '((s, file), e) := NewRandomAccessFile fname w.1 in
    let '(s, file, e) :=
      if negb (ok s) then
        let old_fname := SSTTableFileName (dbname_ tc) file_number in
        let '((s', file), e) := NewRandomAccessFile old_fname e in
        (if ok s' then OK else s, file, e)
      else (s, file, e) in
    let '(s, table, w) :=
      match file with
      | Some f => if ok s then Table_Open buf fresh (tc_options tc) (block_cache tc) f file_size (e, w.2) else (s, None, (e, w.2))
      | None => (s, None, (e, w.2))
      end in
    if negb (ok s) then (s, None, tc, (delete_file file w.1, w.2))
    else
      match file, table with
      | Some f, Some table =>
        let tf := {| tf_file := f; tf_table := table |} in
        let '(h, c') := Cache_Insert key tf 1 c in
        (s, Some h, set_cache tc c', run_deleter c c' w)
      | _, _ => (s, None, tc, w)
      end
  end.

(** [cache_->Value(handle)] *)
Definition table_of (handle : option HT) (tc : TableCache) : option TableAndFile := h ← handle; Cache_Value h (cache_ tc).

(** The result is the status and the arguments of the call to [saver], if
    there is one. *)
Definition Get (options : ReadOptions) (file_number file_size : Z) (k : bytes) (tc : TableCache) (w : S * C)
    : Status * option (bytes * bytes) * TableCache * (S * C) :=
  let '(s, handle, tc, w) := FindTable file_number file_size tc w in
  if ok s then
    match handle, table_of handle tc with
    | Some h, Some tf =>
      let '(s, saved, w) := InternalGet buf fresh (tf_table tf) options k w in
      let '(tc, w) := Release h tc w in
      (s, saved, tc, w)
    | _, _ => (s, None, tc, w)
    end
  else (s, None, tc, w).

(** An error iterator, or the iterator of a table with the table, whose destructor makes the
    call [UnrefEntry(cache_, handle)].  The iterator of a table carries the
    environment and the block cache until it is deleted. *)
Record TableIterator := mkTableIterator {
  ti_iter : EmptyIterator + Table (H := H) * TwoLevelIterator (EmptyIterator + Iter) (BlockIter (Hd := Hd)) (S * C);
  ti_cleanups : Cleanups HT;
}.

Definition NewIterator (options : ReadOptions) (file_number file_size : Z) (tc : TableCache) (w : S * C)
    : TableIterator * option (Table (H := H)) * TableCache * (S * C) :=
  let '(s, handle, tc, w) := FindTable file_number file_size tc w in
  if negb (ok s) then (mkTableIterator (inl (NewErrorIterator s)) Iterator_new, None, tc, w)
  else
    match handle, table_of handle tc with
    | Some h, Some tf =>
      let table := tf_table tf in
      let result := Table_NewIterator buf fresh table options w in
      (mkTableIterator (inr (table, result)) (RegisterCleanup Iterator_new h), Some table, tc, w)
    | _, _ => (mkTableIterator (inl (NewErrorIterator s)) Iterator_new, None, tc, w)
    end.

(** The destructors: of the derived class, then of the base class. *)
Definition delete_TableIterator (it : TableIterator) (tc : TableCache) (w : S * C) : TableCache * (S * C) :=
  let w := match ti_iter it with inl _ => w | inr (_, result) => TwoLevel_destroy result end in
  fold_left (fun '(tc, w) h => Release h tc w) (Iterator_destroy (ti_cleanups it)) (tc, w).

Definition moved (it : TableIterator) (f : forall I, IteratorOps I -> I -> I) : TableIterator :=
  mkTableIterator
    match ti_iter it with
    | inl e => inl (f _ _ e)
    | inr (t, i) => inr (t, f _ (Table_iterator_ops t) i)
    end (ti_cleanups it).

Definition seen {X : Type} (it : TableIterator) (f : forall I, IteratorOps I -> I -> X) : X :=
  match ti_iter it with
  | inl e => f _ _ e
  | inr (t, i) => f _ (Table_iterator_ops t) i
  end.

#[export] Instance TableIterator_ops : IteratorOps TableIterator := {
  Valid it := seen it (@Valid);
  SeekToFirst it := moved it (@SeekToFirst);
  SeekToLast it := moved it (@SeekToLast);
  Seek t it := moved it (fun I o => @Seek I o t);
  Next it := moved it (@Next);
  Prev it := moved it (@Prev);
  iter_key it := seen it (@iter_key);
  iter_value it := seen it (@iter_value);
  status it := seen it (@status);
}.

(** The destructor; [None] when the behaviour is undefined. *)
Definition TableCache_destroy (tc : TableCache) (w : S * C) : option (S * C) :=
  log ← Cache_destroy (cache_ tc);
  Some (fold_left DeleteEntry log w).
End code.

(** A client that looks keys up in files of given numbers and sizes. *)
Record get_call := { gc_options : ReadOptions; gc_number : Z; gc_size : Z; gc_key : bytes }.

Section client.
Context {port : Port} {H S : Type} `{!RandomAccessEnv H S} {C Hd : Type} `{!CacheOps C Block Hd} (buf : Z) (fresh : Z -> bytes).
Context {CT HT : Type} `{!CacheOps CT (TableAndFile (H := H)) HT} `{!CacheDeletions CT (TableAndFile (H := H))}.

Fixpoint run_gets (calls : list get_call) (tc : TableCache (CT := CT)) (w : S * C)
    : list (Status * option (bytes * bytes)) * TableCache (CT := CT) * (S * C) :=
  match calls with
  | [] => ([], tc, w)
  | g :: calls =>
    let '(s, saved, tc, w) := Get buf fresh (gc_options g) (gc_number g) (gc_size g) (gc_key g) tc w in
    let '(results, tc, w) := run_gets calls tc w in
    ((s, saved) :: results, tc, w)
  end.
End client.

(** The constructor; [entries] is an [int]. *)
Definition TableCache_new {H Heap : Type} `{!Malloc Heap} (dbname : bytes) (options : Options) (bc : bool) (entries : Z) (h : Heap)
    : TableCache (CT := option (ShardedLRUCache (TableAndFile (H := H)) * Heap)) :=
  mkTableCache dbname options bc (NewLRUCache (u64 entries) h).

(** * The tables of a database *)

(** A table file: its entries, how they were cut into blocks, and the keys that
    separate these. *)
Record table_data := mkData {
  td_entries : list (bytes * bytes);
  td_blocks : list (list (bytes * bytes));
  td_seps : list bytes;
}.

Section facts.
Context {port : Port} `{!PortCrcOk port}.
Context {H S : Type} {rops : RandomAccessEnv H S} {names : bytes -> Prop}.
Context {opens : (bytes -> option bytes) -> S -> list (H * bytes) -> Prop} {Henv : RandomAccessEnvOk H S names opens}.
Context {C Hd : Type} {cops : CacheOps C Block Hd} {pinned : C -> list (Hd * Block) -> Prop} {holds : C -> bytes -> Block -> Prop}.
Context {Hcache : CacheOk C Block Hd pinned holds} {last_id : C -> Z} {Hids : CacheIds C Block Hd pinned last_id}.
Notation TableAndFile := (TableAndFile (H := H)).
Context {CT HT : Type} {tops : CacheOps CT TableAndFile HT} {tdel : CacheDeletions CT TableAndFile}.
Context {tpinned : CT -> list (HT * TableAndFile) -> Prop} {tholds : CT -> bytes -> TableAndFile -> Prop}.
Context {owned : CT -> list (bytes * TableAndFile)}.
Context {Htcache : CacheOk CT TableAndFile HT tpinned tholds} {Howner : CacheOwner CT TableAndFile HT tpinned tholds owned}.
Context (buf : Z) (fresh : Z -> bytes) (opt ropt : Options) (valid : bytes -> Prop) {Hvalid : ComparatorOk (comparator opt) valid}.
(** The files, the name of the database, and whether there is a block cache. *)
Context (fs : bytes -> option bytes) (dbname : bytes) (bc : bool) (tables : Z -> option table_data).
Implicit Types (tc : TableCache (CT := CT)) (w : S * C) (tf : TableAndFile) (T : table_data).

Definition image (T : table_data) : bytes := table_image opt (td_blocks T) (td_seps T).

(** The files of the database: table [n] is there under one of the two names
    or both, as [TableBuilder] writes it, and is read with the comparator and
    the filter policy it was written with. *)
Record database_ok : Prop := {
  db_same : comparator ropt = comparator opt /\ filter_policy ropt = filter_policy opt;
  db_policy q : filter_policy opt = Some q -> FilterPolicyOk q;
  db_table n T : tables n = Some T -> 0 <= n < 2 ^ 64 /\ blen (td_entries T) < 2 ^ 31 /\
    table_on_disk opt valid (td_entries T) (td_blocks T) (td_seps T);
  db_names n T : tables n = Some T -> names (TableFileName dbname n) /\ names (SSTTableFileName dbname n);
  db_files n T f : tables n = Some T -> f = TableFileName dbname n \/ f = SSTTableFileName dbname n ->
    forall c, fs f = Some c -> c = image T;
  db_present n T : tables n = Some T -> is_Some (fs (TableFileName dbname n)) \/ is_Some (fs (SSTTableFileName dbname n));
}.

(** ** The state *)

(** [G] records the blocks of the table that was opened with each id. *)
Definition allowed (G : gmap Z (list (list (bytes * bytes)))) (k : bytes) (v : Block) : Prop :=
  exists id bs i b, G !! id = Some bs /\ bs !! i = Some b /\
    k = EncodeFixed64 id ++ EncodeFixed64 (offset_ (data_handle opt bs i b)) /\ v = Block_new (raw_block opt b).

(** What a cached table reads. *)
Definition entry_file (kv : bytes * TableAndFile) : H * bytes :=
  (tf_file kv.2, from_option image [] (tables (DecodeFixed64 kv.1))).

Definition is_table (G : gmap Z (list (list (bytes * bytes)))) T tf : Prop :=
  exists id, opened (opt := opt) (ropt := ropt) (bs := td_blocks T) (seps := td_seps T) (tf_file tf) (tf_table tf) bc id /\
    (bc = true -> G !! id = Some (td_blocks T)).

Definition entry_ok G (kv : bytes * TableAndFile) : Prop :=
  exists n T, kv.1 = EncodeFixed64 n /\ tables n = Some T /\ is_table G T kv.2.

Record blocks_ok G (N : Z) (c : C) (p : list (Hd * Block)) : Prop := {
  bo_pinned : pinned c p;
  bo_good : cache_good (holds := holds) (allowed G) (fun c => last_id c = N) c;
  bo_last : 0 <= N < 2 ^ 64;
  bo_ids id : is_Some (G !! id) -> 0 < id <= N;
}.

(** Clients hold [p] in the block cache and [q] in the table cache, and the
    last id was [N].  The open files are those of the tables that the cache
    owns. *)
Record tc_inv G N tc w (p : list (Hd * Block)) (q : list (HT * TableAndFile)) : Prop := {
  ti_config : dbname_ tc = dbname /\ tc_options tc = ropt /\ block_cache tc = bc;
  ti_pinned : tpinned (cache_ tc) q;
  ti_entries : Forall (entry_ok G) (owned (cache_ tc));
  ti_files : opens fs w.1 (entry_file <$> owned (cache_ tc));
  ti_blocks : blocks_ok G N w.2 p;
}.

Context (Hdb : database_ok).

Lemma entry_file_eq n T tf : tables n = Some T -> entry_file (EncodeFixed64 n, tf) = (tf_file tf, image T).
Proof.
  intros HT'. destruct (db_table Hdb n T HT') as (Hn & _). unfold entry_file. cbn.
  rewrite <- (app_nil_r (EncodeFixed64 n)), DecodeFixed64_Encode by done. by rewrite HT'.
Qed.

Lemma EncodeFixed64_inj n m : 0 <= n < 2 ^ 64 -> 0 <= m < 2 ^ 64 -> EncodeFixed64 n = EncodeFixed64 m -> n = m.
Proof. intros Hn Hm E. by rewrite <- (DecodeFixed64_Encode n [] Hn), <- (DecodeFixed64_Encode m [] Hm), E. Qed.

Lemma is_table_mono G G' T tf : G ⊆ G' -> is_table G T tf -> is_table G' T tf.
Proof. intros HG (id & Ho & Hid). exists id. split; [done|]. intros Hbc. by eapply lookup_weaken; [apply Hid|]. Qed.

Lemma entry_ok_mono G G' kv : G ⊆ G' -> entry_ok G kv -> entry_ok G' kv.
Proof. intros HG (n & T & Hk & HT' & Ht). exists n, T. split_and!; [done|done|by eapply is_table_mono]. Qed.

Lemma allowed_mono G G' k v : G ⊆ G' -> allowed G k v -> allowed G' k v.
Proof. intros HG (id & bs & i & b & Hid & Hrest). exists id, bs, i, b. split; [by eapply lookup_weaken|done]. Qed.

(** The ids keep the tables apart. *)
Lemma allowed_blocks G N T tf : (forall id, is_Some (G !! id) -> 0 < id <= N) -> N < 2 ^ 64 ->
  table_on_disk opt valid (td_entries T) (td_blocks T) (td_seps T) -> is_table G T tf ->
  allows_blocks (opt := opt) (bs := td_blocks T) (tf_table tf) (allowed G).
Proof.
  intros HG HN Htf (id & Ho & Hid) Hbc i b v Hi. rewrite (op_cache _ _ _ _ Ho) in Hbc. specialize (Hid Hbc).
  unfold block_cache_key. rewrite (op_cache_id _ _ _ _ Ho). split.
  - intros (id' & bs & j & b' & Hid' & Hj & E & ->). apply app_inj_1 in E as [E1 E2]; [|by rewrite !length_EncodeFixed64].
    pose proof (HG id ltac:(by eexists)). pose proof (HG id' ltac:(by eexists)).
    apply EncodeFixed64_inj in E1 as ->; [|lia..]. simplify_eq.
    destruct (data_handle_ok Htf i b Hi) as [Hoi _], (data_handle_ok Htf j b' Hj) as [Hoj _].
    apply EncodeFixed64_inj in E2; [|done..]. apply (data_offset_inj opt (td_blocks T) i j b b' Hi Hj) in E2 as ->. by simplify_eq.
  - intros ->. by exists id, (td_blocks T), i, b.
Qed.

(** ** The parts of a call *)

Lemma run_deleter_opens l L w : opens fs w.1 (entry_file <$> l ++ L) ->
  opens fs (fold_left DeleteEntry l w).1 (entry_file <$> L) /\ (fold_left DeleteEntry l w).2 = w.2.
Proof.
  revert w. induction l as [|kv l IH]; intros w Ho; [done|]. cbn [fold_left].
  destruct (IH (DeleteEntry w kv)) as [Ho' ->]; [|done]. cbn. exact (delete_opens (names := names) fs _ _ _ _ Ho).
Qed.

Lemma blocks_next G N c c' p : blocks_ok G N c p -> c' = c \/ c' = (Cache_NewId c).2 -> N + 1 < 2 ^ 64 ->
  exists N', N <= N' <= N + 1 /\ blocks_ok G N' c' p.
Proof.
  intros [Hp [Ha Hl] HN HG] [-> | ->] Hn; [exists N; split; [lia|by split]|]. cbn in Hl.
  destruct (NewId_next c p Hp) as [_ Hid]. rewrite Hl in Hid. unfold u64 in Hid. rewrite Z.mod_small in Hid by lia.
  exists (N + 1). split; [lia|]. split; [by apply NewId_pinned|split; [|done]|lia|].
  - intros k v Hh. by eapply Ha, NewId_holds.
  - intros id Hi. specialize (HG id Hi). lia.
Qed.

(** Taking an id for the blocks of a table. *)
Lemma blocks_new G N c p bs : blocks_ok G N c p -> N + 1 < 2 ^ 64 -> (Cache_NewId c).1 = N + 1 /\
  blocks_ok (<[N + 1 := bs]> G) (N + 1) (Cache_NewId c).2 p /\ G ⊆ <[N + 1 := bs]> G.
Proof.
  intros [Hp [Ha Hl] HN HG] Hn. cbn in Hl. destruct (NewId_next c p Hp) as [Hid Hid']. rewrite Hl in Hid, Hid'.
  unfold u64 in Hid, Hid'. rewrite Z.mod_small in Hid, Hid' by lia.
  assert (Hsub : G ⊆ <[N + 1 := bs]> G).
  { apply insert_subseteq. destruct (G !! (N + 1)) eqn:E; [|done]. specialize (HG (N + 1) ltac:(by eexists)). lia. }
  split; [done|]. split; [|done]. split; [by apply NewId_pinned|split; [|done]|lia|].
  - intros k v Hh. eapply allowed_mono; [done|]. by eapply Ha, NewId_holds.
  - intros id. destruct (decide (id = N + 1)) as [->|Hne]; [lia|]. rewrite lookup_insert_ne by done. intros Hi. specialize (HG id Hi). lia.
Qed.

(** What [FindTable] opens: the file of the table, under either name. *)
Lemma find_file n T e p : tables n = Some T -> opens fs e p ->
  let '(s, file, e') :=
    let '((s, file), e) := NewRandomAccessFile (TableFileName dbname n) e in
    if negb (ok s) then
      let '((s', file), e) := NewRandomAccessFile (SSTTableFileName dbname n) e in
      (if ok s' then OK else s, file, e)
    else (s, file, e) in
  match file with
  | Some f => ok s = true /\ opens fs e' ((f, image T) :: p)
  | None => ok s = false /\ opens fs e' p /\ ~ RandomAccessEnvReliable H S names opens
  end.
Proof.
  intros HT' Ho. destruct (db_names Hdb n T HT') as [Hn1 Hn2].
  pose proof (NewRandomAccessFile_opens fs e p _ Hn1 Ho) as H1.
  pose proof (fun R : RandomAccessEnvReliable H S names opens => NewRandomAccessFile_reliable fs e p _ Hn1 Ho) as R1.
  destruct (NewRandomAccessFile (TableFileName dbname n) e) as [[s1 [f|]] e1]; destruct H1 as [Hok1 H1]; rewrite Hok1 in *; cbn [negb].
  { destruct H1 as (c & Hc & H1). rewrite (db_files Hdb n T _ HT' (or_introl eq_refl) c Hc) in H1. done. }
  pose proof (NewRandomAccessFile_opens fs e1 p _ Hn2 H1) as H2.
  pose proof (fun R : RandomAccessEnvReliable H S names opens => NewRandomAccessFile_reliable fs e1 p _ Hn2 H1) as R2.
  destruct (NewRandomAccessFile (SSTTableFileName dbname n) e1) as [[s2 [f|]] e2]; destruct H2 as [Hok2 H2]; rewrite Hok2.
  { destruct H2 as (c & Hc & H2). rewrite (db_files Hdb n T _ HT' (or_intror eq_refl) c Hc) in H2. done. }
  split_and!; [done|done|]. intros R. cbn in R1, R2. rewrite Hok1 in R1. rewrite Hok2 in R2.
  destruct (db_present Hdb n T HT') as [Hp|Hp]; [by specialize (R1 R Hp)|by specialize (R2 R Hp)].
Qed.

(** Opening the table on it. *)
Lemma open_table G N n T f p w pB : tables n = Some T -> opens fs w.1 ((f, image T) :: p) -> blocks_ok G N w.2 pB -> N + 1 < 2 ^ 64 ->
  let '(s, table, w') := Table_Open buf fresh ropt bc f (blen (image T)) w in
  opens fs w'.1 ((f, image T) :: p) /\ exists G' N', G ⊆ G' /\ N <= N' <= N + 1 /\ blocks_ok G' N' w'.2 pB /\
    (ok s = true -> exists t, table = Some t /\ is_table G' T {| tf_file := f; tf_table := t |}) /\
    (RandomAccessEnvReliable H S names opens -> ok s = true).
Proof.
  intros HT' Ho Hb HN. destruct (db_table Hdb n T HT') as (_ & _ & Htf). destruct (db_same Hdb) as [_ Hpol]. destruct w as [s c].
  pose proof (Open_spec (reads := opened_file opens fs ((f, image T) :: p)) (seps := td_seps T) buf fresh Htf f Hpol bc s c
    ltac:(split; [done|by left])) as Hopen.
  fold (image T) in Hopen. destruct (Table_Open buf fresh ropt bc f (blen (image T)) (s, c)) as [[st table] w'].
  destruct Hopen as ([Ho' _] & Hc' & Hok & Hrel). split; [done|].
  assert (Hr : RandomAccessEnvReliable H S names opens -> ok st = true) by (intros R; apply Hrel, _).
  destruct (ok st) eqn:Est.
  2:{ destruct (blocks_next G N c w'.2 pB Hb Hc' HN) as (N' & HN' & Hb'). exists G, N'. split_and!; [done|lia|lia|done..]. }
  destruct (Hok eq_refl) as (t & id & -> & Hop & Hid). destruct bc eqn:Ebc.
  - specialize (Hid eq_refl). destruct (blocks_new G N c pB (td_blocks T) Hb HN) as (Hid' & Hb' & Hsub).
    rewrite <- Hid in Hid', Hb'. cbn in Hid', Hb'. subst id.
    exists (<[N + 1 := td_blocks T]> G), (N + 1). split_and!; [done|lia|lia|done| |done].
    intros _. exists t. split; [done|]. exists (N + 1). split; [by rewrite Ebc|]. intros _. apply lookup_insert_eq.
  - destruct (blocks_next G N c w'.2 pB Hb Hc' HN) as (N' & HN' & Hb'). exists G, N'. split_and!; [done|lia|lia|done| |done].
    intros _. exists t. split; [done|]. exists id. split; [by rewrite Ebc|]. by rewrite Ebc.
Qed.

(** ** The operations *)

(** The table of a pinned handle: the cache owns its file. *)
Definition found G tc T tf : Prop :=
  is_table G T tf /\ (tf_file tf, image T) ∈ entry_file <$> owned (cache_ tc).

Lemma owned_opens_same L w k tf c : opens fs w.1 (entry_file <$> L) -> (k, tf) ∈ L -> (tf_file tf, c) ∈ entry_file <$> L ->
  entry_file (k, tf) = (tf_file tf, c).
Proof.
  intros Ho Hin Hc. apply (list_elem_of_fmap_2 entry_file) in Hin. unfold entry_file in Hin at 1. unfold entry_file at 1. f_equal.
  by eapply (opens_same (names := names)).
Qed.

Lemma hit_ok G N tc w pB pT n T h c' : tc_inv G N tc w pB pT -> tables n = Some T -> blen pT + 2 < 2 ^ 32 ->
  Cache_Lookup (EncodeFixed64 n) (cache_ tc) = (Some h, c') ->
  exists tf, tc_inv G N (set_cache tc c') w pB ((h, tf) :: pT) /\ found G (set_cache tc c') T tf.
Proof.
  intros [Hcfg Hp He Hf Hb] HT' Hn El. destruct (Lookup_Some _ _ _ _ _ Hp Hn El) as (tf & Hh & Hp').
  pose proof (Lookup_owned _ _ (EncodeFixed64 n) Hp Hn) as Hown. rewrite El in Hown. cbn in Hown.
  pose proof (holds_owned _ _ _ _ Hp Hh) as Hin. exists tf. split.
  - split; [done|done|by rewrite Hown| |done]. cbn. eapply (opens_perm (names := names)); [|exact Hf]. by rewrite Hown.
  - rewrite Forall_forall in He. destruct (He _ Hin) as (m & T' & E & HT'' & Ht). cbn in E, Ht.
    apply EncodeFixed64_inj in E as <-; [|by eapply (db_table Hdb)..]. simplify_eq. split; [done|]. cbn. rewrite Hown.
    rewrite <- (entry_file_eq n T tf HT'). by apply list_elem_of_fmap_2.
Qed.

Lemma miss_ok G N tc w pB pT k c' : tc_inv G N tc w pB pT -> blen pT + 2 < 2 ^ 32 ->
  Cache_Lookup k (cache_ tc) = (None, c') -> tc_inv G N (set_cache tc c') w pB pT.
Proof.
  intros [Hcfg Hp He Hf Hb] Hn El. destruct (Lookup_None _ _ _ _ Hp Hn El) as [Hp' _].
  pose proof (Lookup_owned _ _ k Hp Hn) as Hown. rewrite El in Hown. cbn in Hown.
  split; [done|done|by rewrite Hown| |done]. cbn. eapply (opens_perm (names := names)); [|exact Hf]. by rewrite Hown.
Qed.

(** Giving a new table to the cache. *)
Lemma insert_ok G N tc w pB pT n T tf : tc_inv G N tc w pB pT -> tables n = Some T -> blen pT + 2 < 2 ^ 32 -> is_table G T tf ->
  forall w', opens fs w'.1 ((tf_file tf, image T) :: (entry_file <$> owned (cache_ tc))) -> blocks_ok G N w'.2 pB ->
  let '(h, c') := Cache_Insert (EncodeFixed64 n) tf 1 (cache_ tc) in
  tc_inv G N (set_cache tc c') (run_deleter (cache_ tc) c' w') pB ((h, tf) :: pT) /\ found G (set_cache tc c') T tf.
Proof.
  intros [Hcfg Hp He Hf Hb] HT' Hn Ht w' Ho Hb'.
  pose proof (Insert_pinned _ _ (EncodeFixed64 n) tf 1 Hp Hn ltac:(lia)) as Hp'.
  pose proof (Insert_owned _ _ (EncodeFixed64 n) tf 1 Hp Hn ltac:(lia)) as Hown. cbn zeta in Hown.
  destruct (Cache_Insert (EncodeFixed64 n) tf 1 (cache_ tc)) as [h c']. cbn [fst snd] in *.
  set (l := Cache_deletions (cache_ tc) c') in *.
  assert (Hall : opens fs w'.1 (entry_file <$> l ++ owned c')).
  { eapply (opens_perm (names := names)); [|exact Ho]. rewrite <- Hown. cbn. by rewrite (entry_file_eq n T tf HT'). }
  destruct (run_deleter_opens l (owned c') w' Hall) as [Ho' Hw2]. unfold run_deleter. fold l. split.
  - split; [done|done| |done|by rewrite Hw2]. cbn. apply Forall_forall. intros kv Hkv.
    assert (kv ∈ (EncodeFixed64 n, tf) :: owned (cache_ tc)) as Hin by (rewrite Hown; set_solver).
    apply elem_of_cons in Hin as [->|Hin]; [by exists n, T|]. rewrite Forall_forall in He. by apply He.
  - split; [done|]. cbn. destruct (pinned_owned _ _ _ _ Hp' ltac:(by left)) as [k Hk].
    rewrite <- (owned_opens_same (l ++ owned c') w' k tf (image T) Hall); [by apply list_elem_of_fmap_2|set_solver|].
    rewrite <- Hown. cbn. rewrite (entry_file_eq n T tf HT'). by left.
Qed.

(** [FindTable] pins the table of the file; when it fails it has neither
    cached nor left open anything. *)
Lemma FindTable_ok G N tc w pB pT n T : tc_inv G N tc w pB pT -> tables n = Some T -> blen pT + 2 < 2 ^ 32 -> N + 1 < 2 ^ 64 ->
  let '(s, handle, tc', w') := FindTable buf fresh n (blen (image T)) tc w in
  exists G' N', N <= N' <= N + 1 /\
    (if ok s then exists h tf, handle = Some h /\ tc_inv G' N' tc' w' pB ((h, tf) :: pT) /\ found G' tc' T tf
     else handle = None /\ tc_inv G' N' tc' w' pB pT) /\
    (RandomAccessEnvReliable H S names opens -> ok s = true).
Proof.
  intros Hinv HT' Hn HN. unfold FindTable. destruct (Cache_Lookup _ (cache_ tc)) as [[h|] c'] eqn:El.
  { destruct (hit_ok _ _ _ _ _ _ _ _ _ _ Hinv HT' Hn El) as (tf & Hinv' & Hf). exists G, N. split; [lia|]. split; [by exists h, tf|done]. }
  pose proof (miss_ok _ _ _ _ _ _ _ _ Hinv Hn El) as Hm. set (tc1 := set_cache tc c') in *.
  destruct (ti_config _ _ _ _ _ _ Hm) as (Hdn & Hopt & Hbc). rewrite Hdn, Hopt, Hbc.
  pose proof (find_file n T w.1 _ HT' (ti_files _ _ _ _ _ _ Hm)) as Hfile.
  destruct (NewRandomAccessFile (TableFileName dbname n) w.1) as [[s1 file1] e1].
  destruct (if negb (ok s1) then _ else _) as [[s2 file] e2]. destruct file as [f|]; cycle 1.
  { destruct Hfile as (Hs & Ho & Hr). rewrite Hs. cbn [negb]. exists G, N. split; [lia|]. rewrite Hs. split; [|done].
    split; [done|]. destruct Hm. by split. }
  destruct Hfile as [Hs Ho]. rewrite Hs.
  pose proof (open_table G N n T f _ (e2, w.2) pB HT' Ho (ti_blocks _ _ _ _ _ _ Hm) HN) as Hopen.
  destruct (Table_Open buf fresh ropt bc f (blen (image T)) (e2, w.2)) as [[s3 table] w3].
  destruct Hopen as (Ho3 & G' & N' & HG & HN' & Hb & Hok & Hrel).
  assert (He : Forall (entry_ok G') (owned (cache_ tc1))).
  { eapply Forall_impl; [apply (ti_entries _ _ _ _ _ _ Hm)|]. intros kv. by apply entry_ok_mono. }
  destruct (ok s3) eqn:Hs3; cbn [negb]; cycle 1.
  { exists G', N'. rewrite Hs3. split; [lia|]. split; [|done]. split; [done|]. destruct Hm. split; [done|done|done| |done]. cbn.
    exact (delete_opens (names := names) fs _ _ _ _ Ho3). }
  destruct (Hok eq_refl) as (t & -> & Ht). set (tf := {| tf_file := f; tf_table := t |}) in *.
  assert (Hm' : tc_inv G' N' tc1 ((delete_random_access f w3.1).2, w3.2) pB pT).
  { destruct Hm. split; [done|done|done| |done]. exact (delete_opens (names := names) fs _ _ _ _ Ho3). }
  pose proof (insert_ok _ _ _ _ _ _ n T tf Hm' HT' Hn Ht w3 Ho3 Hb) as Hins. change (cache_ tc1) with c' in Hins.
  destruct (Cache_Insert (EncodeFixed64 n) tf 1 c') as [h c'']. destruct Hins as [Hinv' Hf']. exists G', N'. rewrite Hs3.
  split; [lia|]. split; [|done]. by exists h, tf.
Qed.

Lemma TableCache_Release_ok G N tc w pB pT h tf : tc_inv G N tc w pB ((h, tf) :: pT) ->
  let '(tc', w') := Release h tc w in tc_inv G N tc' w' pB pT.
Proof.
  intros [Hcfg Hp He Hf Hb]. unfold Release. pose proof (Release_owned _ _ _ _ Hp) as Hown. cbn zeta in Hown.
  set (c' := Cache_Release h (cache_ tc)) in *.
  assert (Hall : opens fs w.1 (entry_file <$> Cache_deletions (cache_ tc) c' ++ owned c')).
  { eapply (opens_perm (names := names)); [|exact Hf]. by rewrite <- Hown. }
  destruct (run_deleter_opens _ _ w Hall) as [Ho' Hw2]. fold (run_deleter (cache_ tc) c' w) in Ho', Hw2.
  split; [done|by eapply Release_pinned| |done|by rewrite Hw2]. cbn. rewrite Hown in He. by apply Forall_app in He as [_ He].
Qed.

(** A found table is used as [Table] proves it may be. *)
Lemma found_world G N tc w pB pT T tf : tc_inv G N tc w pB pT -> found G tc T tf ->
  forall w' pB', world_ok (reads := opened_file opens fs (entry_file <$> owned (cache_ tc))) (pinned := pinned) (holds := holds)
    (opt := opt) (bs := td_blocks T) (seps := td_seps T) (tf_file tf) (allowed G) (fun c => last_id c = N) w' pB' <->
  tc_inv G N tc w' pB' pT.
Proof.
  intros [Hcfg Hp He Hf Hb] [Ht Hin] w' pB'. split.
  - intros ([Ho _] & Hp' & Hg). destruct Hb. split; [done|done|done|done|]. by split.
  - intros [_ _ _ Ho [Hp' Hg _ _]]. split; [|done]. by split.
Qed.

Lemma table_of_pinned G N tc w pB pT h tf : tc_inv G N tc w pB ((h, tf) :: pT) -> table_of (Some h) tc = Some tf.
Proof. intros Hinv. apply (Value_pinned _ _ _ _ (ti_pinned _ _ _ _ _ _ Hinv)). by left. Qed.

Lemma TableCache_Get_ok G N tc w pB pT n T o k : tc_inv G N tc w pB pT -> tables n = Some T -> valid k ->
  blen pT + 2 < 2 ^ 32 -> blen pB + 2 < 2 ^ 32 -> N + 1 < 2 ^ 64 ->
  let '(s, saved, tc', w') := Get buf fresh o n (blen (image T)) k tc w in
  (exists G' N', N <= N' <= N + 1 /\ tc_inv G' N' tc' w' pB pT) /\
  (RandomAccessEnvReliable H S names opens -> ok s = true) /\
  (ok s = true ->
    (forall e, saved = Some e -> td_entries T !! seek_index (Compare (comparator opt)) k (td_entries T) = Some e) /\
    (forall v, (k, v) ∈ td_entries T -> saved = Some (k, v))).
Proof.
  intros Hinv HT' Hk Hn HnB HN. unfold Get. pose proof (FindTable_ok _ _ _ _ _ _ _ _ Hinv HT' Hn HN) as Hfind.
  destruct (FindTable buf fresh n (blen (image T)) tc w) as [[[s handle] tc1] w1].
  destruct Hfind as (G' & N' & HN' & Hres & Hrel). destruct (ok s) eqn:Hs; cycle 1.
  { destruct Hres as [-> Hinv']. rewrite Hs. split_and!; [by exists G', N'|done|congruence]. }
  destruct Hres as (h & tf & -> & Hinv' & Hf). rewrite (table_of_pinned _ _ _ _ _ _ _ _ Hinv').
  destruct (db_table Hdb n T HT') as (_ & Hcount & Htf). destruct Hf as [Ht Hin]. pose proof Ht as (id & Hop & Hid).
  pose proof (bo_ids _ _ _ _ (ti_blocks _ _ _ _ _ _ Hinv')) as HG. pose proof (bo_last _ _ _ _ (ti_blocks _ _ _ _ _ _ Hinv')) as HlN.
  pose proof (InternalGet_spec buf fresh Htf (tf_file tf) (proj1 (db_same Hdb)) (tf_table tf) bc id Hop (allowed G')
    (allowed_blocks G' N' T tf HG (proj2 HlN) Htf Ht) (fun c => last_id c = N') (db_policy Hdb) Hcount o k w1 pB Hk
    (proj2 (found_world _ _ _ _ _ _ _ _ Hinv' (conj Ht Hin) w1 pB) Hinv') HnB) as Hget.
  destruct (InternalGet buf fresh (tf_table tf) o k w1) as [[s' saved] w2]. destruct Hget as (Hw & Hrel' & Hres).
  apply (found_world _ _ _ _ _ _ _ _ Hinv' (conj Ht Hin)) in Hw. pose proof (TableCache_Release_ok _ _ _ _ _ _ _ _ Hw) as Hr.
  destruct (Release h tc1 w2) as [tc2 w3]. split_and!; [by exists G', N'| |done]. intros R. apply Hrel', _.
Qed.

(** ** Iterators *)

(** The iterator of the table [t], pinned by [h]. *)
Definition iterates (t : Table (H := H)) (h : HT) (it : TableIterator (H := H) (S := S) (C := C) (Hd := Hd) (HT := HT)) j : Prop :=
  ti_iter it = inr (t, j) /\ ti_cleanups it = RegisterCleanup Iterator_new h.

Lemma iterates_dispatches t h : Dispatches (IteratorOps0 := Table_iterator_ops t) (iterates t h).
Proof. split; intros; unfold iterates in *; destruct_and?; cbn; unfold seen, moved; repeat match goal with E : ti_iter _ = _ |- _ => rewrite E end; done. Qed.

Lemma delete_TableIterator_ok G N tc w pB pT t h tf it j : tc_inv G N tc (TwoLevel_destroy j) pB ((h, tf) :: pT) -> iterates t h it j ->
  let '(tc', w') := delete_TableIterator it tc w in tc_inv G N tc' w' pB pT.
Proof. intros Hinv [Hi Hc]. unfold delete_TableIterator. rewrite Hi, Hc. by apply (TableCache_Release_ok _ _ _ _ _ _ _ tf). Qed.

Lemma TableCache_NewIterator_ok G N tc w pB pT n T o : tc_inv G N tc w pB pT -> tables n = Some T ->
  blen pT + 2 < 2 ^ 32 -> blen pB + 3 < 2 ^ 32 -> N + 1 < 2 ^ 64 ->
  let '(it, tableptr, tc', w') := NewIterator buf fresh o n (blen (image T)) tc w in
  match ti_iter it with
  | inl e => ok (empty_status e) = false /\ tableptr = None /\ ~ RandomAccessEnvReliable H S names opens /\
      exists G' N', N <= N' <= N + 1 /\ tc_inv G' N' tc' w' pB pT
  | inr (t, _) => tableptr = Some t /\ (RandomAccessEnvReliable H S names opens ->
      exists inv at_, inv it /\ IteratorOk (Compare (comparator opt)) valid (td_entries T) inv at_ /\
        forall it', inv it' -> exists G' N', N <= N' <= N + 1 /\
          let '(tc'', w'') := delete_TableIterator it' tc' w' in tc_inv G' N' tc'' w'' pB pT)
  end.
Proof.
  intros Hinv HT' Hn HnB HN. unfold NewIterator. pose proof (FindTable_ok _ _ _ _ _ _ _ _ Hinv HT' Hn HN) as Hfind.
  destruct (FindTable buf fresh n (blen (image T)) tc w) as [[[s handle] tc1] w1].
  destruct Hfind as (G' & N' & HN' & Hres & Hrel). destruct (ok s) eqn:Hs; cbn [negb]; cycle 1.
  { destruct Hres as [-> Hinv']. cbn [ti_iter]. split_and!; [done|done|intros R; by specialize (Hrel R)|by exists G', N']. }
  destruct Hres as (h & tf & -> & Hinv' & Hf). rewrite (table_of_pinned _ _ _ _ _ _ _ _ Hinv'). cbn [ti_iter]. split; [done|]. intros R.
  destruct (db_table Hdb n T HT') as (_ & Hcount & Htf). pose proof (proj1 Hf) as Ht. pose proof Ht as (id & Hop & Hid).
  pose proof (bo_ids _ _ _ _ (ti_blocks _ _ _ _ _ _ Hinv')) as HG. pose proof (bo_last _ _ _ _ (ti_blocks _ _ _ _ _ _ Hinv')) as HlN.
  destruct (table_iterator_ok buf fresh Htf (tf_file tf) (proj1 (db_same Hdb)) (tf_table tf) bc id Hop (allowed G')
    (allowed_blocks G' N' T tf HG (proj2 HlN) Htf Ht) (fun c => last_id c = N') o w1 pB
    (proj2 (found_world _ _ _ _ _ _ _ _ Hinv' Hf w1 pB) Hinv') HnB) as (inv & at_ & Hi & Hit & Hdel).
  exists (lift_inv (iterates (tf_table tf) h) inv), (lift_at (iterates (tf_table tf) h) at_). split_and!.
  - eexists. by split.
  - pose proof (iterates_dispatches (tf_table tf) h) as Hd'. by apply (dispatch_ok (IteratorOps0 := Table_iterator_ops (tf_table tf)) _).
  - intros it (j & Hj & Hinvj). exists G', N'. split; [done|]. eapply delete_TableIterator_ok; [|exact Hj].
    apply (found_world _ _ _ _ _ _ _ _ Hinv' Hf). by apply Hdel.
Qed.

(** ** Sequences of lookups *)

Definition call_ok (g : get_call) : Prop :=
  exists T, tables (gc_number g) = Some T /\ gc_size g = blen (image T) /\ valid (gc_key g).

(** What a lookup promises: on success, an entry that is passed to [saver] is
    the first at or past the key in the file, and a key of the file is found
    with its value. *)
Definition result_ok (g : get_call) (r : Status * option (bytes * bytes)) : Prop :=
  forall T, tables (gc_number g) = Some T -> ok r.1 = true ->
    (forall e, r.2 = Some e -> td_entries T !! seek_index (Compare (comparator opt)) (gc_key g) (td_entries T) = Some e) /\
    (forall v, (gc_key g, v) ∈ td_entries T -> r.2 = Some (gc_key g, v)).

Lemma run_gets_ok calls : forall G N tc w pB pT, tc_inv G N tc w pB pT -> Forall call_ok calls ->
  blen pT + 2 < 2 ^ 32 -> blen pB + 2 < 2 ^ 32 -> N + blen calls < 2 ^ 64 ->
  let '(results, tc', w') := run_gets buf fresh calls tc w in
  (exists G' N', N <= N' <= N + blen calls /\ tc_inv G' N' tc' w' pB pT) /\ Forall2 result_ok calls results /\
  (RandomAccessEnvReliable H S names opens -> Forall (fun r => ok r.1 = true) results).
Proof.
  induction calls as [|g calls IH]; intros G N tc w pB pT Hinv Hok Hn HnB HN; cbn [run_gets].
  { split_and!; [|by constructor|by constructor]. exists G, N. rewrite blen_nil. split; [lia|done]. }
  apply Forall_cons in Hok as [(T & HT' & Hsz & Hk) Hok]. rewrite blen_cons in *. pose proof (blen_nonneg calls).
  pose proof (TableCache_Get_ok _ _ _ _ _ _ _ _ (gc_options g) (gc_key g) Hinv HT' Hk Hn HnB ltac:(lia)) as Hget. rewrite <- Hsz in Hget.
  destruct (Get buf fresh _ _ _ _ tc w) as [[[s saved] tc1] w1]. destruct Hget as ((G1 & N1 & HN1 & Hinv1) & Hrel & Hres).
  specialize (IH G1 N1 tc1 w1 pB pT Hinv1 Hok Hn HnB ltac:(lia)). destruct (run_gets buf fresh calls tc1 w1) as [[results tc2] w2].
  destruct IH as ((G2 & N2 & HN2 & Hinv2) & Hall & Hrels). split_and!.
  - exists G2, N2. split; [lia|done].
  - constructor; [|done]. intros T' HT'' Hs. simplify_eq. by apply Hres.
  - intros R. constructor; [by apply Hrel|by apply Hrels].
Qed.

(** ** The destructor *)

Lemma TableCache_destroy_ok G N tc w pB : tc_inv G N tc w pB [] ->
  exists w', TableCache_destroy tc w = Some w' /\ opens fs w'.1 [] /\ w'.2 = w.2.
Proof.
  intros [_ Hp _ Hf _]. unfold TableCache_destroy. destruct (destroy_owned _ Hp) as (log & -> & Hlog). eexists. split; [done|].
  apply (run_deleter_opens log []). rewrite app_nil_r. eapply (opens_perm (names := names)); [|exact Hf]. by rewrite Hlog.
Qed.
End facts.

(** * The table cache over the LRU cache *)

Section correctness.
Context {port : Port} `{!PortCrcOk port}.
Context {H S : Type} {rops : RandomAccessEnv H S} {names : bytes -> Prop}.
Context {opens : (bytes -> option bytes) -> S -> list (H * bytes) -> Prop} `{!RandomAccessEnvOk H S names opens}.
Context {C Hd : Type} {cops : CacheOps C Block Hd} {pinned : C -> list (Hd * Block) -> Prop} {holds : C -> bytes -> Block -> Prop}.
Context `{!CacheOk C Block Hd pinned holds} {last_id : C -> Z} `{!CacheIds C Block Hd pinned last_id}.
Context {Heap : Type} `{!Malloc Heap} {allocated : Heap -> Z -> Prop} `{!MallocOk Heap allocated}.
Context (buf : Z) (fresh : Z -> bytes) (opt ropt : Options) (valid : bytes -> Prop) `{!ComparatorOk (comparator opt) valid}.
Context (fs : bytes -> option bytes) (dbname : bytes) (bc : bool) (tables : Z -> option table_data).
Notation CT := (option (ShardedLRUCache (TableAndFile (H := H)) * Heap)).
Notation result_ok := (result_ok opt tables).
Notation call_ok := (call_ok opt valid tables).

(** A database none of whose files is open, and a new block cache. *)
Record start (e : S) (c : C) (entries : Z) : Prop := {
  st_database : database_ok (names := names) opt ropt valid fs dbname tables;
  st_closed : opens fs e [];
  st_cache : pinned c [] /\ (forall k v, ~ holds c k v) /\ last_id c = 0;
  st_entries : 0 <= entries < 2 ^ 31;
}.

Lemma start_inv e c entries h : start e c entries ->
  tc_inv (opens := opens) (pinned := pinned) (holds := holds) (last_id := last_id)
    (tpinned := sharded_pinned (allocated := allocated)) (owned := sharded_owned)
    opt ropt fs dbname bc tables ∅ 0 (TableCache_new dbname ropt bc entries h) (e, c) [] [].
Proof.
  intros [_ Ho (Hp & Hh & Hl) He].
  assert (Hcap : 0 <= u64 entries <= 15 * 2 ^ 31) by (unfold u64; rewrite Z.mod_small; lia).
  destruct (NewLRUCache_pinned (allocated := allocated) (V := TableAndFile (H := H)) (u64 entries) h Hcap) as [Hp' _].
  pose proof (NewLRUCache_owned (allocated := allocated) (V := TableAndFile (H := H)) (u64 entries) h Hcap) as Hown.
  split; [done|done| | |].
  - cbn [cache_ TableCache_new]. by rewrite Hown.
  - cbn [cache_ TableCache_new]. by rewrite Hown.
  - split; [done| |done|]; [|intros id [bs Hid]; by rewrite lookup_empty in Hid].
    split; [|done]. intros k v Hkv. by apply Hh in Hkv.
Qed.

(** After any lookups. *)
Lemma run_gets_start e c entries h calls : start e c entries -> Forall call_ok calls -> blen calls < 2 ^ 64 ->
  let '(results, tc, w) := run_gets buf fresh calls (TableCache_new (H := H) dbname ropt bc entries h) (e, c) in
  (exists G N, 0 <= N <= blen calls /\ tc_inv (opens := opens) (pinned := pinned) (holds := holds) (last_id := last_id)
    (tpinned := sharded_pinned (allocated := allocated)) (owned := sharded_owned) opt ropt fs dbname bc tables G N tc w [] []) /\
  Forall2 result_ok calls results /\
  (RandomAccessEnvReliable H S names opens -> Forall (fun r => ok r.1 = true) results).
Proof.
  intros Hst Hok Hn. by apply (run_gets_ok buf fresh opt ropt valid fs dbname bc tables (st_database _ _ _ Hst) calls _ 0 _ _ _ _
    (start_inv e c entries h Hst)).
Qed.

(** At the end nothing is pinned, and destroying the cache closes every file. *)
Lemma all_closed G N tc w : tc_inv (opens := opens) (pinned := pinned) (holds := holds) (last_id := last_id)
    (tpinned := sharded_pinned (allocated := allocated)) (owned := sharded_owned) opt ropt fs dbname bc tables G N tc w [] [] ->
  pinned w.2 [] /\ exists w', TableCache_destroy tc w = Some w' /\ opens fs w'.1 [].
Proof.
  intros Hinv. split; [apply (bo_pinned _ _ _ _ _ (ti_blocks _ _ _ _ _ _ _ _ _ _ _ _ Hinv))|].
  destruct (TableCache_destroy_ok opt ropt fs dbname bc tables _ _ _ _ _ Hinv) as (w' & Hdes & Ho & _). by exists w'.
Qed.

(** C4: lookups through the table cache are right.  Over any number of table
    files that share the table cache and the block cache, for any sequence of
    lookups and any capacity of the cache, with failures of the environment at
    any time: every lookup that reports success finds what the file with its
    number holds, and a failure is not remembered; on an environment that does
    not fail every lookup succeeds.  At the end nothing is pinned, and
    destroying the cache closes every file. *)
Theorem TableCache_Get_correct (e : S) (c : C) (entries : Z) (h : Heap) (calls : list get_call) :
  start e c entries -> Forall call_ok calls -> blen calls < 2 ^ 64 ->
  let '(results, tc, w) := run_gets buf fresh calls (TableCache_new (H := H) dbname ropt bc entries h) (e, c) in
  Forall2 result_ok calls results /\
  (RandomAccessEnvReliable H S names opens -> Forall (fun r => ok r.1 = true) results) /\
  pinned w.2 [] /\
  exists w', TableCache_destroy tc w = Some w' /\ opens fs w'.1 [].
Proof.
  intros Hst Hok Hn. pose proof (run_gets_start e c entries h calls Hst Hok Hn) as Hrun.
  destruct (run_gets buf fresh calls _ _) as [[results tc] w]. destruct Hrun as ((G & N & _ & Hinv) & Hres & Hrel).
  split_and!; [done|done|by eapply all_closed..].
Qed.

(** C5: iterators through the table cache.  After any lookups, [NewIterator] for
    a file gives, on an environment that does not fail, an iterator that
    implements the iterator interface over exactly the entries of the file,
    while the table stays pinned; and deleting it, in any state it can reach,
    unpins the table and the block it stood in, so that the cache can be
    destroyed and leaves no file open. *)
Theorem TableCache_NewIterator_correct (e : S) (c : C) (entries : Z) (h : Heap) (calls : list get_call)
    (n : Z) (T : table_data) (o : ReadOptions) :
  start e c entries -> Forall call_ok calls -> blen calls + 1 < 2 ^ 64 ->
  RandomAccessEnvReliable H S names opens -> tables n = Some T ->
  let '(_, tc, w) := run_gets buf fresh calls (TableCache_new (H := H) dbname ropt bc entries h) (e, c) in
  let '(it, tableptr, tc', w') := NewIterator buf fresh o n (blen (image opt T)) tc w in
  is_Some tableptr /\ exists inv at_, inv it /\ IteratorOk (Compare (comparator opt)) valid (td_entries T) inv at_ /\
    forall it', inv it' -> let '(tc'', w'') := delete_TableIterator it' tc' w' in
      pinned w''.2 [] /\ exists w''', TableCache_destroy tc'' w'' = Some w''' /\ opens fs w'''.1 [].
Proof.
  intros Hst Hok Hn R HT. pose proof (run_gets_start e c entries h calls Hst Hok ltac:(lia)) as Hrun.
  destruct (run_gets buf fresh calls _ _) as [[results tc] w]. destruct Hrun as ((G & N & HN & Hinv) & _).
  pose proof (TableCache_NewIterator_ok buf fresh opt ropt valid fs dbname bc tables (st_database _ _ _ Hst) _ _ _ _ _ _ n T o
    Hinv HT ltac:(done) ltac:(done) ltac:(lia)) as Hnew.
  destruct (NewIterator buf fresh o n (blen (image opt T)) tc w) as [[[it tableptr] tc'] w'].
  destruct (ti_iter it) as [err|[t j]]; [by destruct Hnew as (_ & _ & [] & _)|]. destruct Hnew as [-> Hit].
  split; [done|]. destruct (Hit R) as (inv & at_ & Hi & Hok' & Hdel). exists inv, at_. split_and!; [done|done|].
  intros it' Hi'. destruct (Hdel it' Hi') as (G' & N' & _ & Hinv'). destruct (delete_TableIterator it' tc' w') as [tc'' w''].
  by eapply all_closed.
Qed.
End correctness.

(** * An instance *)

(** Files in memory; open files are numbered. *)
Module MemDisk.
Record Disk := mkDisk { disk : gmap bytes bytes; open_files : gmap nat bytes }.

#[global] Instance disk_files : RandomAccessFileOps nat Disk := {
  ReadAt h offset n scratch s :=
    (match open_files s !! h with
     | Some c => (OK, (scratch, take (Z.to_nat n) (drop (Z.to_nat offset) c)))
     | None => (IOError (str "not open") [], (scratch, []))
     end, s);
}.

#[global] Instance disk_env : RandomAccessEnv nat Disk := {
  NewRandomAccessFile f s :=
    match disk s !! f with
    | Some c => let h := fresh (dom (open_files s)) in ((OK, Some h), mkDisk (disk s) (<[h := c]> (open_files s)))
    | None => ((IOError f [], None), s)
    end;
  delete_random_access h s := (tt, mkDisk (disk s) (delete h (open_files s)));
}.

Definition opens (fs : bytes -> option bytes) (s : Disk) (p : list (nat * bytes)) : Prop :=
  (forall f, disk s !! f = fs f) /\ map_to_list (open_files s) ≡ₚ p.

Lemma opens_lookup fs s p h c : opens fs s p -> (h, c) ∈ p <-> open_files s !! h = Some c.
Proof. intros [_ Hp]. by rewrite <- Hp, elem_of_map_to_list. Qed.

#[global] Instance disk_ok : RandomAccessEnvOk nat Disk (fun _ => True) opens.
Proof.
  split.
  - intros fs s p q Hpq [Hd Hp]. split; [done|]. by rewrite Hp.
  - intros fs s p h c c' Ho Hc Hc'. apply (opens_lookup _ _ _ _ _ Ho) in Hc, Hc'. congruence.
  - intros fs s p f _ [Hd Hp]. cbn. destruct (disk s !! f) as [c|] eqn:E; [|by split].
    split; [done|]. exists c. split; [by rewrite <- Hd|]. split; [done|]. cbn.
    rewrite map_to_list_insert, Hp; [done|]. apply not_elem_of_dom, is_fresh.
  - intros fs s p h c [Hd Hp]. split; [done|]. cbn. apply (Permutation_cons_inv (a := (h, c))). rewrite <- Hp.
    assert (open_files s !! h = Some c) as Hh by (apply elem_of_map_to_list; rewrite Hp; by left).
    by rewrite map_to_list_delete.
  - intros fs s p h c offset n scratch Ho Hin _ _ _. cbn. rewrite (opens_lookup _ _ _ _ _ Ho) in Hin. by rewrite Hin.
Qed.

#[global] Instance disk_reliable : RandomAccessEnvReliable nat Disk (fun _ => True) opens.
Proof.
  split.
  - intros fs s p f _ [Hd _] Hf. rewrite <- Hd in Hf. destruct Hf as [c Hf]. cbn. by rewrite Hf.
  - intros fs s p h c offset n scratch Ho Hin _ _ _. rewrite (opens_lookup _ _ _ _ _ Ho) in Hin. cbn. by rewrite Hin.
Qed.
End MemDisk.

(** A database with the table of [TestTable] under the old name, and under the
    new one; the table cache has room for one table per shard. *)
Module TestTableCache.
#[local] Existing Instance little_endian_port.

Definition dbname : bytes := str "db".

Definition files : gmap bytes bytes :=
  {[ TableFileName dbname 5 := TestTable.built_file; SSTTableFileName dbname 6 := TestTable.built_file ]}.

Definition disk : MemDisk.Disk := MemDisk.mkDisk files ∅.
Definition blocks : option (ShardedLRUCache Block * SetHeap) := NewLRUCache 1000 (∅ : SetHeap).
Definition cache := TableCache_new (H := nat) dbname TestTable.opt true 16 (∅ : SetHeap).

Definition get (n : Z) (k : string) : get_call :=
  {| gc_options := ReadOptions_new; gc_number := n; gc_size := blen TestTable.built_file; gc_key := str k |}.

Definition calls : list get_call := [get 5 "banana"; get 6 "apple"; get 5 "band"; get 6 "zzz"].

Definition tables (bs : list (list (bytes * bytes))) (seps : list bytes) (n : Z) : option table_data :=
  if (n =? 5) || (n =? 6) then Some (mkData (added TestTable.calls) bs seps) else None.

Lemma tables_inv bs seps n T : tables bs seps n = Some T -> (n = 5 \/ n = 6) /\ T = mkData (added TestTable.calls) bs seps.
Proof. unfold tables. destruct (Z.eqb_spec n 5), (Z.eqb_spec n 6); cbn; intros [= <-]; auto. Qed.

Lemma starts bs seps : table_on_disk TestTable.opt (fun _ => True) (added TestTable.calls) bs seps ->
  TestTable.built_file = table_image TestTable.opt bs seps ->
  start (names := fun _ => True) (opens := MemDisk.opens) (pinned := sharded_pinned (allocated := set_allocated))
    (holds := sharded_holds) (last_id := sharded_last_id) TestTable.opt TestTable.opt (fun _ => True)
    (fun f => files !! f) dbname (tables bs seps) disk blocks 16.
Proof.
  intros Htf Himg. pose proof (fun n T => tables_inv bs seps n T) as Hinv.
  split; [split| | |lia].
  - done.
  - intros q [= <-]. by apply NewBloomFilterPolicy_ok.
  - intros n T [Hn ->]%Hinv. split_and!; [destruct Hn; lia..|done|done].
  - done.
  - intros n T f [Hn ->]%Hinv _ c Hc. unfold image. cbn [td_blocks td_seps]. rewrite <- Himg. unfold files in Hc.
    apply lookup_insert_Some in Hc as [[_ <-]|[_ Hc]]; [done|]. by apply lookup_singleton_Some in Hc as [_ <-].
  - intros n T [[-> | ->] ->]%Hinv; [left|right]; vm_compute; by eexists.
  - split; [done|]. cbn. by rewrite map_to_list_empty.
  - destruct (NewLRUCache_pinned (allocated := set_allocated) (V := Block) 1000 (∅ : SetHeap)) as [Hp Hh]; [lia|]. by split_and!.
Qed.

(** Reading the results of the calls off [result_ok]. *)
Lemma result_present bs seps n k v r : result_ok TestTable.opt (tables bs seps) (get n k) r -> ok r.1 = true ->
  (n =? 5) || (n =? 6) = true -> bool_decide ((str k, v) ∈ added TestTable.calls) = true -> r.2 = Some (str k, v).
Proof.
  intros Hr Hok Hn Hin. apply bool_decide_eq_true_1 in Hin.
  apply (Hr (mkData (added TestTable.calls) bs seps)); [|done|done]. unfold tables. cbn [gc_number get]. by rewrite Hn.
Qed.

Lemma result_absent bs seps n k r : result_ok TestTable.opt (tables bs seps) (get n k) r -> ok r.1 = true ->
  (n =? 5) || (n =? 6) = true ->
  added TestTable.calls !! seek_index (Compare BytewiseComparator) (str k) (added TestTable.calls) = None -> r.2 = None.
Proof.
  intros Hr Hok Hn Hnone. destruct r as [s [e|]]; [|done]. cbn [fst snd] in *.
  destruct (Hr (mkData (added TestTable.calls) bs seps)) as [He _]; [unfold tables; cbn [gc_number get]; by rewrite Hn|done|].
  specialize (He e eq_refl). cbn in He. cbn in Hnone. congruence.
Qed.
End TestTableCache.

Lemma TestTableCache_calls_ok bs seps : TestTable.built_file = table_image (port := little_endian_port) TestTable.opt bs seps ->
  Forall (call_ok (port := little_endian_port) TestTable.opt (fun _ => True) (TestTableCache.tables bs seps)) TestTableCache.calls.
Proof.
  intros Himg. repeat constructor; eexists; (split; [reflexivity|]); (split; [|done]); cbn [gc_size TestTableCache.get]; by rewrite Himg.
Qed.

Lemma TableCache_Get_correct_witness :
  let P := little_endian_port in
  let '(results, tc, w) := run_gets 1000 (fun _ => []) TestTableCache.calls TestTableCache.cache (TestTableCache.disk, TestTableCache.blocks) in
  Forall (fun r => ok r.1 = true) results /\
  results.*2 = [Some (str "banana", str "4"); Some (str "apple", str "1"); Some (str "band", str "5"); None] /\
  exists w', TableCache_destroy tc w = Some w' /\ MemDisk.open_files w'.1 = ∅.
Proof.
  intros P. destruct (table_life_file _ _ _ _ _ _ _ _ _ _ _ TestTable.life) as (bs & seps & Htf & Himg).
  pose proof (TableCache_Get_correct 1000 (fun _ => []) TestTable.opt TestTable.opt (fun _ => True) (fun f => TestTableCache.files !! f)
    TestTableCache.dbname true (TestTableCache.tables bs seps) TestTableCache.disk TestTableCache.blocks 16 (∅ : SetHeap)
    TestTableCache.calls (TestTableCache.starts bs seps Htf Himg) (TestTableCache_calls_ok bs seps Himg) eq_refl) as Hget. unfold TestTableCache.cache.
  destruct (run_gets 1000 (fun _ => []) TestTableCache.calls _ (TestTableCache.disk, TestTableCache.blocks)) as [[results tc] w].
  destruct Hget as (Hres & Hok & _ & w' & Hd & _ & Hclosed). specialize (Hok _). split; [done|]. split.
  - repeat match goal with H : Forall2 _ _ _ |- _ => apply Forall2_cons_inv_l in H as ([? ?] & ? & ? & ? & ->) end.
    match goal with H : Forall2 _ _ _ |- _ => apply Forall2_nil_inv_l in H as -> end.
    repeat match goal with H : Forall _ (_ :: _) |- _ => apply Forall_cons in H as [? H] end.
    cbn [fmap list_fmap]. repeat f_equal;
      first [by eapply TestTableCache.result_present; [eassumption|eassumption|done|vm_compute; reflexivity]
            |by eapply TestTableCache.result_absent; [eassumption|eassumption|done|vm_compute; reflexivity]].
  - exists w'. split; [done|]. apply map_to_list_empty_iff. by apply Permutation_nil.
Defined.

Lemma TableCache_NewIterator_correct_witness :
  let P := little_endian_port in
  let '(_, tc, w) := run_gets 1000 (fun _ => []) TestTableCache.calls TestTableCache.cache (TestTableCache.disk, TestTableCache.blocks) in
  let '(it, tableptr, tc', w') := NewIterator 1000 (fun _ => []) ReadOptions_new 6 (blen TestTable.built_file) tc w in
  is_Some tableptr /\ collect 6 (SeekToFirst it) = added TestTable.calls /\
  let '(tc'', w'') := delete_TableIterator (SeekToFirst it) tc' w' in
  exists w3, TableCache_destroy tc'' w'' = Some w3 /\ MemDisk.open_files w3.1 = ∅.
Proof.
  intros P. destruct (table_life_file _ _ _ _ _ _ _ _ _ _ _ TestTable.life) as (bs & seps & Htf & Himg).
  pose proof (TableCache_NewIterator_correct 1000 (fun _ => []) TestTable.opt TestTable.opt (fun _ => True)
    (fun f => TestTableCache.files !! f) TestTableCache.dbname true (TestTableCache.tables bs seps) TestTableCache.disk
    TestTableCache.blocks 16 (∅ : SetHeap) TestTableCache.calls 6 (mkData (added TestTable.calls) bs seps) ReadOptions_new
    (TestTableCache.starts bs seps Htf Himg) (TestTableCache_calls_ok bs seps Himg) eq_refl _ eq_refl) as Hit.
  unfold image in Hit. cbn [td_blocks td_seps] in Hit. rewrite <- Himg in Hit. unfold TestTableCache.cache.
  destruct (run_gets 1000 (fun _ => []) TestTableCache.calls _ (TestTableCache.disk, TestTableCache.blocks)) as [[results tc] w].
  destruct (NewIterator 1000 (fun _ => []) ReadOptions_new 6 (blen TestTable.built_file) tc w) as [[[it tableptr] tc'] w'].
  destruct Hit as (Hp & inv & at_ & Hi & Hok & Hdel). split; [exact Hp|]. pose proof (SeekToFirst_at it Hi) as Ha. split.
  - pose proof (collect_at (IteratorOk0 := Hok) 6 _ _ Ha) as Hc. etransitivity; [apply Hc; vm_compute; lia|done].
  - specialize (Hdel _ (at_inv _ _ Ha)). destruct (delete_TableIterator (SeekToFirst it) tc' w') as [tc'' w''].
    destruct Hdel as (_ & w3 & Hd & _ & Hclosed). exists w3. split; [exact Hd|]. apply map_to_list_empty_iff. by apply Permutation_nil.
Defined.
