(* ===== verification/FileSystem.v ===== *)
(** The file system as the two operating systems show it to the process: the
    names, the contents of the files, the open descriptors (handles on
    Windows), the mappings and the locks.  The system calls of [Kernel] and
    [Win32] are specified by what they do to this view; the facts here are
    those that both environments use: what a writer has put into its file, what
    a reader has left, and which files an operation can touch. *)

From S2P Require Import Prelude.

(** [std::string::c_str()] as a C string: it ends at the first NUL. *)
Fixpoint c_str (s : bytes) : bytes :=
  match s with
  | [] => []
  | c :: s => if decide (c = Byte.x00) then [] else c :: c_str s
  end.

(** * The view of the file system *)

(** An open file description. *)
Record FileDesc := mkDesc { fd_node : Z; fd_pos : Z; fd_append : bool }.

Record FsView := mkView {
  dir : gmap bytes Z;          (* paths *)
  node : gmap Z bytes;         (* contents of the regular files *)
  fds : gmap Z FileDesc;
  maps : gmap Z (Z * Z);       (* mappings: the file and the length *)
  locks : gset Z;              (* the files (on Windows the handles) with a lock *)
}.

Definition set_desc (fd : Z) (d : FileDesc) (v : FsView) : FsView :=
  mkView (dir v) (node v) (<[fd := d]> (fds v)) (maps v) (locks v).
Definition set_node (i : Z) (c : bytes) (v : FsView) : FsView :=
  mkView (dir v) (<[i := c]> (node v)) (fds v) (maps v) (locks v).
Definition set_dir (m : gmap bytes Z) (v : FsView) : FsView :=
  mkView m (node v) (fds v) (maps v) (locks v).
Definition set_maps (m : gmap Z (Z * Z)) (v : FsView) : FsView :=
  mkView (dir v) (node v) (fds v) m (locks v).
Definition set_locks (l : gset Z) (v : FsView) : FsView :=
  mkView (dir v) (node v) (fds v) (maps v) l.

(** Closing a descriptor drops the process's record locks on its file,
    whichever descriptor they were taken through. *)
Definition close_desc (fd : Z) (v : FsView) : FsView :=
  mkView (dir v) (node v) (delete fd (fds v)) (maps v)
    (match fds v !! fd with Some d => locks v ∖ {[ fd_node d ]} | None => locks v end).

Definition unused (i : Z) (v : FsView) : Prop :=
  (forall p, dir v !! p <> Some i) /\ node v !! i = None /\
  forall fd d, fds v !! fd = Some d -> fd_node d <> i.

(** The content before a position; a gap past the end reads as zeros. *)
Definition before (n : nat) (c : bytes) : bytes :=
  take n c ++ replicate (n - length c) Byte.x00.

Definition write_at (start : nat) (d c : bytes) : bytes :=
  before start c ++ d ++ drop (start + length d) c.

(** Where a write to the descriptor starts. *)
Definition write_start (ds : FileDesc) (c : bytes) : Z :=
  if fd_append ds then blen c else fd_pos ds.

Definition write_desc (fd : Z) (ds : FileDesc) (c d : bytes) (v : FsView) : FsView :=
  let start := write_start ds c in
  set_desc fd (mkDesc (fd_node ds) (start + blen d) (fd_append ds))
    (set_node (fd_node ds) (write_at (Z.to_nat start) d c) v).

Definition seek_desc (fd : Z) (ds : FileDesc) (pos : Z) (v : FsView) : FsView :=
  set_desc fd (mkDesc (fd_node ds) pos (fd_append ds)) v.

(** What is left to read at a descriptor. *)
Definition rest_of (ds : FileDesc) (c : bytes) : bytes := drop (Z.to_nat (fd_pos ds)) c.

(** The descriptor is open on a regular file. *)
Definition open_on (v : FsView) (fd : Z) (ds : FileDesc) (c : bytes) : Prop :=
  fds v !! fd = Some ds /\ node v !! fd_node ds = Some c.

(** * What writes do to the view *)

(** Everything in the file before the descriptor's next write. *)
Definition fd_written (fd : Z) (v : FsView) : bytes :=
  match fds v !! fd with
  | Some ds =>
    match node v !! fd_node ds with
    | Some c => before (Z.to_nat (write_start ds c)) c
    | None => []
    end
  | None => []
  end.

(** The bytes [d] went to the file at the descriptor; locks aside, nothing
    else changed. *)
Definition wrote (fd : Z) (d : bytes) (v v' : FsView) : Prop :=
  dir v' = dir v /\ maps v' = maps v /\
  (d = [] /\ node v' = node v /\ fds v' = fds v \/
   exists ds c, open_on v fd ds c /\ 0 <= fd_pos ds /\
     node v' = node (write_desc fd ds c d v) /\ fds v' = fds (write_desc fd ds c d v)).

Lemma length_before n c : length (before n c) = n.
Proof. unfold before. rewrite length_app, length_take, length_replicate. lia. Qed.

Lemma before_write n d c : before (n + length d) (write_at n d c) = before n c ++ d.
Proof.
  unfold before at 1, write_at. rewrite (app_assoc (before n c)).
  rewrite take_app_length' by (rewrite length_app, length_before; lia).
  rewrite !length_app, length_before.
  replace (n + length d - _)%nat with 0%nat by lia. apply app_nil_r.
Qed.

Lemma before_full c : before (length c) c = c.
Proof. unfold before. rewrite take_ge, Nat.sub_diag by lia. apply app_nil_r. Qed.

Lemma length_write_at (n : nat) (d c : bytes) :
  length (write_at n d c) = Nat.max (n + length d) (length c).
Proof. unfold write_at. rewrite !length_app, length_before, length_drop. lia. Qed.

Lemma write_at_app (n : nat) (d1 d2 c : bytes) :
  write_at (n + length d1) d2 (write_at n d1 c) = write_at n (d1 ++ d2) c.
Proof.
  unfold write_at at 1. rewrite before_write. unfold write_at. rewrite <- !app_assoc. do 3 f_equal.
  rewrite (app_assoc (before n c)), drop_app, drop_ge by (rewrite length_app, length_before; lia).
  cbn [app]. rewrite !length_app, length_before, drop_drop. f_equal. lia.
Qed.

Lemma write_at_end (d c : bytes) : write_at (length c) d c = c ++ d.
Proof. unfold write_at. rewrite before_full, drop_ge by lia. by rewrite app_nil_r. Qed.

Lemma wrote_nil fd v v' : dir v' = dir v -> maps v' = maps v -> node v' = node v -> fds v' = fds v ->
  wrote fd [] v v'.
Proof. unfold wrote. intuition auto. Qed.

Lemma wrote_refl fd v : wrote fd [] v v.
Proof. by apply wrote_nil. Qed.

Lemma write_start_after ds c d : 0 <= fd_pos ds ->
  write_start (mkDesc (fd_node ds) (write_start ds c + blen d) (fd_append ds))
    (write_at (Z.to_nat (write_start ds c)) d c) = write_start ds c + blen d.
Proof.
  intros Hp. unfold write_start. cbn [fd_append fd_pos]. destruct (fd_append ds); [|done].
  unfold blen. rewrite length_write_at. lia.
Qed.

Lemma write_start_nonneg ds c : 0 <= fd_pos ds -> 0 <= write_start ds c.
Proof. unfold write_start. destruct (fd_append ds); [|done]. intros _. apply blen_nonneg. Qed.

Lemma wrote_app fd d1 d2 v v' v'' : wrote fd d1 v v' -> wrote fd d2 v' v'' -> wrote fd (d1 ++ d2) v v''.
Proof.
  intros (Hd & Hm & H1) (Hd' & Hm' & H2). split_and!; [congruence..|].
  destruct H1 as [(-> & Hn & Hf)|(ds & c & [Ho Hc] & Hp & Hn & Hf)].
  - destruct H2 as [(-> & Hn' & Hf')|(ds & c & [Ho Hc] & Hp & Hn' & Hf')]; [left; split_and!; [done|congruence..]|].
    right. exists ds, c. unfold open_on. rewrite <- Hf, <- Hn. split_and!; try done.
    + rewrite Hn'. cbn. by rewrite Hn.
    + rewrite Hf'. cbn. by rewrite Hf.
  - destruct H2 as [(-> & Hn' & Hf')|(ds' & c' & [Ho' Hc'] & Hp' & Hn' & Hf')].
    { rewrite app_nil_r. right. exists ds, c. split_and!; [done|done|congruence..]. }
    right. exists ds, c. split_and!; [done|done|..].
    all: rewrite Hf in Ho'; cbn in Ho'; rewrite lookup_insert_eq in Ho'; injection Ho' as <-.
    all: rewrite Hn in Hc'; cbn in Hc'; rewrite lookup_insert_eq in Hc'; injection Hc' as <-.
    + rewrite Hn'. cbn. rewrite Hn, write_start_after by done. cbn. rewrite insert_insert_eq. f_equal.
      pose proof (write_start_nonneg ds c Hp).
      rewrite <- write_at_app. f_equal. unfold blen. lia.
    + rewrite Hf'. cbn. rewrite Hf, write_start_after by done. cbn. rewrite insert_insert_eq, blen_app. do 2 f_equal. lia.
Qed.

Lemma fd_written_wrote fd d v v' : wrote fd d v v' -> fd_written fd v' = fd_written fd v ++ d.
Proof.
  intros (_ & _ & [(-> & Hn & Hf)|(ds & c & [Ho Hc] & Hp & Hn & Hf)]); unfold fd_written; rewrite Hf, Hn.
  { by rewrite app_nil_r. }
  cbn. rewrite lookup_insert_eq. cbn. rewrite lookup_insert_eq, Ho, Hc, write_start_after by done.
  pose proof (write_start_nonneg ds c Hp).
  replace (Z.to_nat (write_start ds c + blen d)) with (Z.to_nat (write_start ds c) + length d)%nat by (unfold blen; lia).
  apply before_write.
Qed.

(** * What reads see *)

(** What is left to read at a descriptor. *)
Definition fd_remaining (fd : Z) (v : FsView) : bytes :=
  match fds v !! fd with
  | Some ds => match node v !! fd_node ds with Some c => rest_of ds c | None => [] end
  | None => []
  end.

Lemma open_on_remaining v fd ds c : open_on v fd ds c -> fd_remaining fd v = rest_of ds c.
Proof. intros [Ho Hc]. unfold fd_remaining. by rewrite Ho, Hc. Qed.

Lemma seek_remaining v fd ds c pos : open_on v fd ds c -> 0 <= fd_pos ds <= pos ->
  fd_remaining fd (seek_desc fd ds pos v) = drop (Z.to_nat (pos - fd_pos ds)) (fd_remaining fd v).
Proof.
  intros [Ho Hc] Hp. unfold fd_remaining. cbn. rewrite lookup_insert_eq. cbn. rewrite Ho, Hc. unfold rest_of. cbn.
  rewrite drop_drop. f_equal. lia.
Qed.

(** Equal but for the locks. *)
Definition same_files (v v' : FsView) : Prop :=
  dir v' = dir v /\ maps v' = maps v /\ node v' = node v /\ fds v' = fds v.

Lemma same_files_eq v v' : v' = v -> same_files v v'.
Proof. by intros ->. Qed.

(** A region of memory that shows a file. *)
Lemma load_region (ld : Z -> byte) base c off n :
  (forall j b, 0 <= j < blen c -> c !! Z.to_nat j = Some b -> ld (base + j) = b) ->
  0 <= off -> 0 <= n -> off + n <= blen c ->
  (fun i => ld (base + off + i)) <$> seqZ 0 n = take (Z.to_nat n) (drop (Z.to_nat off) c).
Proof.
  intros Hld Ho Hn Hon. apply list_eq. intros j. rewrite list_lookup_fmap.
  destruct (decide (j < Z.to_nat n)%nat) as [Hj|Hj].
  - rewrite lookup_seqZ_lt, lookup_take_lt, lookup_drop by lia. cbn.
    destruct (lookup_lt_is_Some_2 c (Z.to_nat off + j)) as [b Hb]; [len|]. rewrite Hb. f_equal.
    rewrite <- Z.add_assoc. apply Hld; [lia|]. rewrite <- Hb. f_equal. lia.
  - rewrite lookup_seqZ_ge, lookup_take_ge by lia. done.
Qed.

(** * Names and contents *)

Definition path_ok (f : bytes) : Prop := c_str f = f.

Definition vfiles (v : FsView) : gmap bytes bytes := omap (fun i => node v !! i) (dir v).

(** No regular file has two names, and -1 is no descriptor. *)
Definition view_ok (v : FsView) : Prop :=
  fds v !! (-1) = None /\
  forall p q i, dir v !! p = Some i -> dir v !! q = Some i -> is_Some (node v !! i) -> p = q.

(** Closed, or open at the end of the file of that name. *)
Definition live_at (name : bytes) (fd : Z) (v : FsView) : Prop :=
  fd = -1 \/
  exists ds c, open_on v fd ds c /\ dir v !! name = Some (fd_node ds) /\
    0 <= fd_pos ds /\ write_start ds c = blen c.

Section view_facts.
Implicit Types v : FsView.

Lemma vfiles_lookup v p : vfiles v !! p = dir v !! p ≫= fun i => node v !! i.
Proof. apply lookup_omap. Qed.

Lemma vfiles_same v v' : dir v' = dir v -> node v' = node v -> vfiles v' = vfiles v.
Proof. unfold vfiles. by intros -> ->. Qed.

Lemma view_ok_close fd v : view_ok v -> view_ok (close_desc fd v).
Proof.
  intros [Hf Hi]. split; [|exact Hi]. cbn. destruct (decide (fd = -1)) as [->|]; [apply lookup_delete_eq|by rewrite lookup_delete_ne].
Qed.

(** The two cases of [wrote], for the descriptor of a live file. *)
Lemma wrote_cases name fd d v v' : view_ok v -> live_at name fd v -> wrote fd d v v' ->
  dir v' = dir v /\
  ((d = [] \/ fd <> -1) /\ node v' = node v /\ fds v' = fds v /\ d = [] \/
   fd <> -1 /\ exists ds c, open_on v fd ds c /\ dir v !! name = Some (fd_node ds) /\
     0 <= fd_pos ds /\ write_start ds c = blen c /\
     node v' = <[fd_node ds := c ++ d]> (node v) /\
     fds v' = <[fd := mkDesc (fd_node ds) (blen c + blen d) (fd_append ds)]> (fds v)).
Proof.
  intros [Hm _] Hl (Hd & _ & [(-> & Hn & Hf)|(ds & c & [Ho Hc] & Hp & Hn & Hf)]); (split; [done|]).
  { left. split_and!; auto. }
  destruct Hl as [Hl|(ds' & c' & [Ho' Hc'] & Hdir & Hp' & Hs)]; [rewrite Hl in Ho; congruence|].
  rewrite Ho in Ho'. injection Ho' as <-. rewrite Hc in Hc'. injection Hc' as <-.
  right. split; [intros Hx; rewrite Hx in Ho; congruence|]. exists ds, c.
  cbn in Hn, Hf. rewrite Hs in Hn, Hf. unfold blen in Hn at 1. rewrite Nat2Z.id, write_at_end in Hn. done.
Qed.

Lemma wrote_view_ok name fd d v v' : view_ok v -> live_at name fd v -> wrote fd d v v' -> view_ok v'.
Proof.
  intros Hv Hl Hw. destruct (wrote_cases _ _ _ _ _ Hv Hl Hw) as (Hd & [(_ & Hn & Hf & _)|(Hne & ds & c & [Ho Hc] & Hdir & Hp & Hs & Hn & Hf)]);
    destruct Hv as [Hm Hi]; split.
  - by rewrite Hf.
  - by rewrite Hd, Hn.
  - by rewrite Hf, lookup_insert_ne.
  - intros p q i. rewrite Hd, Hn. intros Hp1 Hq Hs'. apply (Hi p q i); [done..|].
    apply lookup_insert_is_Some in Hs' as [<-|[_ ?]]; [by eexists|done].
Qed.

Lemma wrote_live name fd d v v' : view_ok v -> live_at name fd v -> wrote fd d v v' ->
  live_at name fd v'.
Proof.
  intros Hv Hl Hw. destruct (wrote_cases _ _ _ _ _ Hv Hl Hw) as (Hd & [(_ & Hn & Hf & _)|(Hne & ds & c & [Ho Hc] & Hdir & Hp & Hs & Hn & Hf)]).
  - unfold live_at, open_on. by rewrite Hd, Hn, Hf.
  - right. exists (mkDesc (fd_node ds) (blen c + blen d) (fd_append ds)), (c ++ d). unfold open_on. cbn.
    rewrite Hd, Hn, Hf, !lookup_insert_eq. pose proof (blen_nonneg c). pose proof (blen_nonneg d). split_and!; [done..|lia|].
    unfold write_start in *. cbn. rewrite blen_app. by destruct (fd_append ds).
Qed.

Lemma wrote_frame name fd d v v' g : view_ok v -> live_at name fd v -> wrote fd d v v' ->
  g <> name -> vfiles v' !! g = vfiles v !! g.
Proof.
  intros Hv Hl Hw Hg. destruct (wrote_cases _ _ _ _ _ Hv Hl Hw) as (Hd & [(_ & Hn & Hf & _)|(Hne & ds & c & [Ho Hc] & Hdir & Hp & Hs & Hn & Hf)]).
  - by rewrite (vfiles_same v v').
  - rewrite !vfiles_lookup, Hd, Hn. destruct (dir v !! g) as [j|] eqn:Hj; [|done]. cbn.
    destruct (decide (j = fd_node ds)) as [->|]; [|by rewrite lookup_insert_ne].
    destruct Hg. by apply (proj2 Hv _ _ _ Hj Hdir).
Qed.

(** An open live file holds what is written before its position. *)
Lemma live_content name fd v : live_at name fd v -> fd <> -1 ->
  vfiles v !! name = Some (fd_written fd v).
Proof.
  intros [?|(ds & c & [Ho Hc] & Hdir & Hp & Hs)] Hne; [done|].
  rewrite vfiles_lookup, Hdir. cbn. rewrite Hc. unfold fd_written. rewrite Ho, Hc, Hs.
  unfold blen. by rewrite Nat2Z.id, before_full.
Qed.

(** A file opened, and made when there is none. *)
Lemma creat_view p r i c c' app v : view_ok v -> r <> -1 ->
  (dir v !! p = Some i /\ node v !! i = Some c \/ dir v !! p = None /\ unused i v /\ c = []) ->
  let v' := set_desc r (mkDesc i 0 app) (set_node i c' (set_dir (<[p := i]> (dir v)) v)) in
  view_ok v' /\ forall g, g <> p -> vfiles v' !! g = vfiles v !! g.
Proof.
  intros [Hm Hi] Hr Hc v'. assert (forall q, dir v !! q = Some i -> q = p) as Hq.
  { intros q Hq. destruct Hc as [[Hd Hn]|(_ & [Hu _] & _)]; [by apply (Hi _ _ _ Hq Hd)|by destruct (Hu q)]. }
  split.
  - split; cbn; [rewrite lookup_insert_ne by lia; done|].
    intros p1 p2 j H1 H2 Hj. apply lookup_insert_Some in H1 as [[? ?]|[? H1]], H2 as [[? ?]|[? H2]]; subst;
      [done|symmetry; auto|auto|]. apply (Hi _ _ _ H1 H2). apply lookup_insert_is_Some in Hj as [<-|[_ ?]]; [|done].
      apply Hq in H1. congruence.
  - intros g Hg. rewrite !vfiles_lookup. cbn. rewrite lookup_insert_ne by done.
    destruct (dir v !! g) as [j|] eqn:Hj; [|done]. cbn. rewrite lookup_insert_ne; [done|]. intros <-. auto.
Qed.

Lemma unlink_view p v : let v' := set_dir (delete p (dir v)) v in
  (view_ok v -> view_ok v') /\ forall g, g <> p -> vfiles v' !! g = vfiles v !! g.
Proof.
  split.
  - intros [Hm Hi]. split; [done|]. cbn. intros q q' i [_ ?]%lookup_delete_Some [_ ?]%lookup_delete_Some. by apply Hi.
  - intros g Hg. rewrite !vfiles_lookup. cbn. by rewrite lookup_delete_ne.
Qed.

Lemma rename_view src target i d v : view_ok v -> dir v !! src = Some i -> node v !! i = Some d ->
  let v' := set_dir (<[target := i]> (delete src (dir v))) v in
  vfiles v' = <[target := d]> (delete src (vfiles v)) /\ view_ok v'.
Proof.
  intros [Hm Hi] Hsrc Hd. assert (forall q, dir v !! q = Some i -> q = src) as Hq by (intros q Hq; apply (Hi _ _ _ Hq Hsrc); by eexists).
  split.
  - unfold vfiles. cbn. by rewrite (omap_insert_Some _ _ _ _ d), omap_delete.
  - split; [done|]. cbn. intros p q j Hp Hq'. apply lookup_insert_Some in Hp as [[<- <-]|[? [? Hp]%lookup_delete_Some]];
      apply lookup_insert_Some in Hq' as [[? ?]|[? [? Hq']%lookup_delete_Some]]; subst.
    + done.
    + apply Hq in Hq'. congruence.
    + apply Hq in Hp. congruence.
    + by apply Hi.
Qed.

End view_facts.
