(* ===== verification/Kernel.v ===== *)
(** The operating system under [util/env_posix.cpp].

    [Kernel] lists the calls the file makes, as functions on a kernel state;
    [KernelOk] and the classes after it state what the manual pages promise
    about them, over the view of [FileSystem].  Every call may fail, writes may be short and signals may
    interrupt; the number of signals still to come is finite.  [MemKernel] is a
    kernel with a schedule of such outcomes that keeps all the laws. *)

From S2P Require Import Prelude Status Env FileSystem.

(** * Constants *)

Definition ENOENT : Z := 2.
Definition EINTR : Z := 4.
Definition EINVAL : Z := 22.

Definition O_RDONLY : Z := 0.
Definition O_WRONLY : Z := 1.
Definition O_RDWR : Z := 2.
Definition O_CREAT : Z := Z.shiftl 1 6.
Definition O_TRUNC : Z := Z.shiftl 1 9.
Definition O_APPEND : Z := Z.shiftl 1 10.
Definition O_CLOEXEC : Z := Z.shiftl 1 19.

Definition MAP_FAILED : Z := -1.
Definition RLIM_INFINITY : Z := 2 ^ 64 - 1.

(** * The calls *)

Class PosixConfig := {
  HAVE_O_CLOEXEC : bool;
  HAVE_FULLFSYNC : bool;
  HAVE_FDATASYNC : bool;
}.

(** [signals] is not a call: it bounds the signals that will still interrupt
    one, and so the turns of the loops that retry. *)
Class Kernel (K : Type) := {
  signals : K -> nat;
  errno : K -> Z;
  set_errno : Z -> K -> K;
  strerror : Z -> bytes;
  sys_open : bytes -> Z -> Z -> State K Z;
  sys_close : Z -> State K Z;
  (** The count, and the bytes put into the buffer. *)
  sys_read : Z -> Z -> State K (Z * bytes);
  sys_pread : Z -> Z -> Z -> State K (Z * bytes);
  sys_write : Z -> bytes -> State K Z;
  (** [lseek(fd, off, SEEK_CUR)] *)
  sys_lseek : Z -> Z -> State K Z;
  sys_fullfsync : Z -> State K Z;
  sys_fdatasync : Z -> State K Z;
  sys_fsync : Z -> State K Z;
  (** [mmap(nullptr, length, PROT_READ, MAP_SHARED, fd, 0)] *)
  sys_mmap : Z -> Z -> State K Z;
  sys_munmap : Z -> Z -> State K Z;
  (** The byte a load at an address sees. *)
  load : K -> Z -> byte;
  sys_access : bytes -> State K Z;
  sys_unlink : bytes -> State K Z;
  sys_mkdir : bytes -> Z -> State K Z;
  sys_rmdir : bytes -> State K Z;
  (** The result, and [st_size]. *)
  sys_stat : bytes -> State K (Z * Z);
  sys_rename : bytes -> bytes -> State K Z;
  (** [fcntl(fd, F_SETLK, ...)] on the whole file: write lock, or unlock *)
  sys_setlk : Z -> bool -> State K Z;
  sys_opendir : bytes -> State K (option Z);
  sys_readdir : Z -> State K (option bytes);
  sys_closedir : Z -> State K Z;
  (** [fdopen(fd, "w")] *)
  sys_fdopen : Z -> State K (option Z);
  getenv : bytes -> K -> option bytes;
  geteuid : K -> Z;
  (** [tv_sec] and [tv_usec] *)
  sys_gettimeofday : State K (Z * Z);
  (** The result, and [rlim_cur] for [RLIMIT_NOFILE]. *)
  sys_getrlimit : State K (Z * Z);
}.

(** The [n] bytes at an address. *)
Definition memory {K : Type} `{!Kernel K} (k : K) (a n : Z) : bytes :=
  (fun i => load k (a + i)) <$> seqZ 0 n.

(** * What the manual pages promise *)

(** Paths are taken to be canonical: two strings name two entries, and the
    process is the only one at work. *)
Class KernelOk (K : Type) `{!Kernel K} (view : K -> FsView) : Prop := {
  set_errno_view e k : view (set_errno e k) = view k;
  open_fail p fl m k r k' : sys_open p fl m k = (r, k') -> r < 0 -> view k' = view k;
  open_ok p fl m k r k' : sys_open p fl m k = (r, k') -> 0 <= r ->
    Z.testbit fl 6 = false -> Z.testbit fl 9 = false ->
    fds (view k) !! r = None /\
    exists i, dir (view k) !! p = Some i /\
      view k' = set_desc r (mkDesc i 0 (Z.testbit fl 10)) (view k);
  (** [O_CREAT] on a path in use, or on a new one *)
  open_creat p fl m k r k' : sys_open p fl m k = (r, k') -> 0 <= r -> Z.testbit fl 6 = true ->
    fds (view k) !! r = None /\
    exists i c, (dir (view k) !! p = Some i /\ node (view k) !! i = Some c \/
                 dir (view k) !! p = None /\ unused i (view k) /\ c = []) /\
      view k' = set_desc r (mkDesc i 0 (Z.testbit fl 10))
                  (set_node i (if Z.testbit fl 9 then [] else c)
                    (set_dir (<[p := i]> (dir (view k))) (view k)));
  close_view fd k r k' : sys_close fd k = (r, k') -> view k' = close_desc fd (view k);
  close_open fd k k' : sys_close fd k = (0, k') -> is_Some (fds (view k) !! fd);
  close_result fd k : (sys_close fd k).1 = 0 \/ (sys_close fd k).1 = -1;
  read_fail fd n k r d k' : sys_read fd n k = (r, d, k') -> r < 0 ->
    view k' = view k /\ (errno k' = EINTR -> (signals k' < signals k)%nat);
  (** A read may be short, but not empty before the end of the file. *)
  read_ok fd n k r d k' : sys_read fd n k = (r, d, k') -> 0 <= r ->
    exists ds c, open_on (view k) fd ds c /\ 0 <= fd_pos ds /\ blen d = r /\ r <= n /\
      d `prefix_of` rest_of ds c /\ (0 < n -> rest_of ds c <> [] -> d <> []) /\
      view k' = seek_desc fd ds (fd_pos ds + r) (view k);
  pread_view fd n off k : view (sys_pread fd n off k).2 = view k;
  pread_ok fd n off k r d k' : sys_pread fd n off k = (r, d, k') -> 0 <= r ->
    0 <= off /\ exists ds c, open_on (view k) fd ds c /\ blen d = r /\ r <= n /\
      d `prefix_of` drop (Z.to_nat off) c;
  write_fail fd d k r k' : sys_write fd d k = (r, k') -> r < 0 ->
    view k' = view k /\ (signals k' <= signals k)%nat /\
    (errno k' = EINTR -> (signals k' < signals k)%nat);
  (** A write may be short; of a nonempty buffer it writes something. *)
  write_ok fd d k r k' : sys_write fd d k = (r, k') -> 0 <= r ->
    exists ds c, open_on (view k) fd ds c /\ 0 <= fd_pos ds /\ r <= blen d /\ (d <> [] -> 0 < r) /\
      (signals k' <= signals k)%nat /\
      view k' = write_desc fd ds c (take (Z.to_nat r) d) (view k);
  lseek_fail fd off k r k' : sys_lseek fd off k = (r, k') -> r = -1 -> view k' = view k;
  lseek_ok fd off k r k' : sys_lseek fd off k = (r, k') -> r <> -1 ->
    exists ds, fds (view k) !! fd = Some ds /\ r = fd_pos ds + off /\ 0 <= r /\ 0 <= fd_pos ds /\
      view k' = seek_desc fd ds r (view k);
  fullfsync_view fd k : view (sys_fullfsync fd k).2 = view k;
  fdatasync_view fd k : view (sys_fdatasync fd k).2 = view k;
  fsync_view fd k : view (sys_fsync fd k).2 = view k;
  unlink_ok p k k' : sys_unlink p k = (0, k') -> view k' = set_dir (delete p (dir (view k))) (view k);
  unlink_fail p k r k' : sys_unlink p k = (r, k') -> r <> 0 -> view k' = view k;
  (** Renaming a regular file; between two links to it nothing happens. *)
  rename_ok p q i k k' : sys_rename p q k = (0, k') -> dir (view k) !! p = Some i ->
    is_Some (node (view k) !! i) -> (dir (view k) !! q = Some i -> q = p) ->
    view k' = set_dir (<[q := i]> (delete p (dir (view k)))) (view k);
  rename_fail p q k r k' : sys_rename p q k = (r, k') -> r <> 0 -> view k' = view k;
  stat_view p k : view (sys_stat p k).2 = view k;
  stat_ok p k size k' i c : sys_stat p k = (0, size, k') -> dir (view k) !! p = Some i ->
    node (view k) !! i = Some c -> size = blen c;
  setlk_fail fd b k r k' : sys_setlk fd b k = (r, k') -> r = -1 -> view k' = view k;
  setlk_ok fd b k r k' : sys_setlk fd b k = (r, k') -> r <> -1 ->
    exists ds, fds (view k) !! fd = Some ds /\
      view k' = set_locks (if b then {[ fd_node ds ]} ∪ locks (view k)
                           else locks (view k) ∖ {[ fd_node ds ]}) (view k);
  mmap_fail len fd k k' : sys_mmap len fd k = (MAP_FAILED, k') -> view k' = view k;
  (** A mapping lies in the address space. *)
  mmap_ok len fd k base k' : sys_mmap len fd k = (base, k') -> base <> MAP_FAILED ->
    0 < len /\ 0 <= base /\ base + len <= 2 ^ 64 /\ maps (view k) !! base = None /\
    exists ds, fds (view k) !! fd = Some ds /\
      view k' = set_maps (<[base := (fd_node ds, len)]> (maps (view k))) (view k);
  (** Unmapping the whole of a mapping. *)
  munmap_view base i len k : maps (view k) !! base = Some (i, len) ->
    view (sys_munmap base len k).2 = set_maps (delete base (maps (view k))) (view k);
  (** Loads within a mapping, and within the file, see the file. *)
  load_ok k base i len c off b : maps (view k) !! base = Some (i, len) ->
    node (view k) !! i = Some c -> 0 <= off < len -> c !! Z.to_nat off = Some b ->
    load k (base + off) = b;
}.

Section memory.
Context {K : Type} `{!Kernel K} {view : K -> FsView} `{!KernelOk K view}.

(** A region of a mapping holds that part of the file. *)
Lemma memory_mapped k base i len c off n : maps (view k) !! base = Some (i, len) ->
  node (view k) !! i = Some c -> len <= blen c -> 0 <= off -> 0 <= n -> off + n <= len ->
  memory k (base + off) n = take (Z.to_nat n) (drop (Z.to_nat off) c).
Proof.
  intros Hm Hc Hl Ho Hn Hon. unfold memory.
  rewrite (load_region (load k) base (take (Z.to_nat len) c)); [|intros j b Hj Hb|done|done|rewrite blen_take; lia].
  - rewrite <- (take_drop (Z.to_nat len) c) at 2. rewrite drop_app_le, take_app_le; [done|..]; rewrite ?length_drop, length_take; unfold blen in Hl; lia.
  - rewrite blen_take in Hj. apply lookup_take_Some in Hb as [Hb _]. by apply (load_ok k base i len c); [|done|lia|].
Qed.

End memory.

(** Reads of regular files are only short at the end of the file: the signals
    of the process do not cut them short.  The manual page allows short reads
    in general; this is how disk files are read, and what the log reader and
    [ReadBlock], which do not read on after a short read, count on.  The law for
    [pread] sets no bound on [n]: a system that transfers at most 0x7ffff000
    bytes per call keeps it only for files whose blocks are smaller than that. *)
Class FullReads (K : Type) `{!Kernel K} (view : K -> FsView) : Prop := {
  read_full fd n k r d k' ds c : sys_read fd n k = (r, d, k') -> 0 <= r -> 0 <= n <= 0x7ffff000 ->
    open_on (view k) fd ds c -> d = take (Z.to_nat n) (rest_of ds c);
  pread_full fd n off k r d k' ds c : sys_pread fd n off k = (r, d, k') -> 0 <= r -> 0 <= n ->
    open_on (view k) fd ds c -> d = take (Z.to_nat n) (drop (Z.to_nat off) c);
}.

(** * A kernel in memory *)

Module MemKernel.

(** How the next call ends: as asked, with an error, or, for a write, after
    some bytes. *)
Inductive outcome := Normal | Fails (e : Z) | Short (n : Z).

Definition is_signal (o : outcome) : bool :=
  match o with Fails e => e =? EINTR | _ => false end.

(** One mapping at a time, at [map_base]. *)
Record Mem := {
  mdir : gmap bytes Z;
  mnode : gmap Z bytes;
  mfds : gmap Z FileDesc;
  mmapped : option (Z * Z);
  mlocks : gset Z;
  merrno : Z;
  plan : list outcome;
}.

Definition map_base : Z := 2 ^ 40.

Definition view (k : Mem) : FsView :=
  mkView (mdir k) (mnode k) (mfds k)
    (match mmapped k with Some m => {[ map_base := m ]} | None => ∅ end) (mlocks k).

(** Install a view; the mapping stays. *)
Definition put (v : FsView) (k : Mem) : Mem :=
  {| mdir := dir v; mnode := node v; mfds := fds v; mmapped := mmapped k; mlocks := locks v;
     merrno := merrno k; plan := plan k |}.
Definition put_map (m : option (Z * Z)) (k : Mem) : Mem :=
  {| mdir := mdir k; mnode := mnode k; mfds := mfds k; mmapped := m; mlocks := mlocks k;
     merrno := merrno k; plan := plan k |}.
Definition set_merrno (e : Z) (k : Mem) : Mem :=
  {| mdir := mdir k; mnode := mnode k; mfds := mfds k; mmapped := mmapped k; mlocks := mlocks k;
     merrno := e; plan := plan k |}.
Definition tick (k : Mem) : Mem :=
  {| mdir := mdir k; mnode := mnode k; mfds := mfds k; mmapped := mmapped k; mlocks := mlocks k;
     merrno := merrno k; plan := tail (plan k) |}.

Definition msignals (k : Mem) : nat := length (List.filter is_signal (plan k)).

Definition EBADF : Z := 9.
Definition EEXIST : Z := 17.
Definition EISDIR : Z := 21.
Definition ENOMEM : Z := 12.

(** Run a call, or fail as planned; [Short] only matters to writes. *)
Definition call {A} (failed : A) (op : Z -> State Mem (option Z * A)) : State Mem A := fun k =>
  match plan k with
  | Fails e :: _ => (failed, set_merrno e (tick k))
  | _ =>
    let limit := match plan k with Short n :: _ => n | _ => 2 ^ 64 end in
    let '(e, a, k') := op limit (tick k) in
    match e with
    | Some e => (failed, set_merrno e (tick k))
    | None => (a, k')
    end
  end.

(** A number above all the keys of a map. *)
Definition above {A} (m : gmap Z A) : Z := 1 + foldr Z.max 2 (map_to_list m).*1.

Definition new_node (k : Mem) : Z :=
  1 + foldr Z.max 2 ((map_to_list (mdir k)).*2 ++ (map_to_list (mnode k)).*1 ++
                     (fd_node <$> (map_to_list (mfds k)).*2)).

Definition open_file (p : bytes) (fl i : Z) (c : bytes) (k : Mem) : option Z * Z * Mem :=
  let r := above (mfds k) in
  (None, r, put (set_desc r (mkDesc i 0 (Z.testbit fl 10))
                  (set_node i (if Z.testbit fl 9 then [] else c)
                    (set_dir (<[p := i]> (mdir k)) (view k)))) k).

#[global] Instance mem_kernel : Kernel Mem := {
  signals := msignals;
  errno := merrno;
  set_errno := set_merrno;
  strerror e := bytes_of_string "error";
  sys_open p fl m := call (-1) (fun _ k =>
    match mdir k !! p with
    | Some i =>
      match mnode k !! i with
      | Some c =>
        if Z.testbit fl 6 then open_file p fl i c k
        else (None, above (mfds k), put (set_desc (above (mfds k)) (mkDesc i 0 (Z.testbit fl 10)) (view k)) k)
      | None =>
        if Z.testbit fl 6 then (Some EISDIR, -1, k)
        else (None, above (mfds k), put (set_desc (above (mfds k)) (mkDesc i 0 (Z.testbit fl 10)) (view k)) k)
      end
    | None => if Z.testbit fl 6 then open_file p fl (new_node k) [] k else (Some ENOENT, -1, k)
    end);
  sys_close fd k :=
    let k' := put (close_desc fd (view k)) (tick k) in
    match plan k, mfds k !! fd with
    | Fails e :: _, _ => (-1, set_merrno e k')
    | _, None => (-1, set_merrno EBADF k')
    | _, Some _ => (0, k')
    end;
  sys_read fd n := call (-1, []) (fun _ k =>
    match mfds k !! fd with
    | Some ds =>
      match mnode k !! fd_node ds with
      | Some c =>
        if (n <? 0) || (fd_pos ds <? 0) then (Some EINVAL, (-1, []), k)
        else
          let d := take (Z.to_nat n) (rest_of ds c) in
          (None, (blen d, d), put (seek_desc fd ds (fd_pos ds + blen d) (view k)) k)
      | None => (Some EISDIR, (-1, []), k)
      end
    | None => (Some EBADF, (-1, []), k)
    end);
  sys_pread fd n off := call (-1, []) (fun _ k =>
    match mfds k !! fd with
    | Some ds =>
      match mnode k !! fd_node ds with
      | Some c =>
        if (n <? 0) || (off <? 0) then (Some EINVAL, (-1, []), k)
        else let d := take (Z.to_nat n) (drop (Z.to_nat off) c) in (None, (blen d, d), k)
      | None => (Some EISDIR, (-1, []), k)
      end
    | None => (Some EBADF, (-1, []), k)
    end);
  sys_write fd d := call (-1) (fun limit k =>
    match mfds k !! fd with
    | Some ds =>
      match mnode k !! fd_node ds with
      | Some c =>
        if fd_pos ds <? 0 then (Some EINVAL, -1, k)
        else
          let r := Z.min (blen d) (Z.max 1 limit) in
          (None, r, put (write_desc fd ds c (take (Z.to_nat r) d) (view k)) k)
      | None => (Some EBADF, -1, k)
      end
    | None => (Some EBADF, -1, k)
    end);
  sys_lseek fd off := call (-1) (fun _ k =>
    match mfds k !! fd with
    | Some ds =>
      if (fd_pos ds <? 0) || (fd_pos ds + off <? 0) then (Some EINVAL, -1, k)
      else (None, fd_pos ds + off, put (seek_desc fd ds (fd_pos ds + off) (view k)) k)
    | None => (Some EBADF, -1, k)
    end);
  sys_fullfsync fd := call (-1) (fun _ k => (None, 0, k));
  sys_fdatasync fd := call (-1) (fun _ k => (None, 0, k));
  sys_fsync fd := call (-1) (fun _ k => (None, 0, k));
  sys_mmap len fd := call MAP_FAILED (fun _ k =>
    match mfds k !! fd, mmapped k with
    | Some ds, None =>
      if len <=? 0 then (Some EINVAL, MAP_FAILED, k)
      else if 2 ^ 64 <? map_base + len then (Some ENOMEM, MAP_FAILED, k)
      else (None, map_base, put_map (Some (fd_node ds, len)) k)
    | Some ds, Some _ => (Some ENOMEM, MAP_FAILED, k)
    | None, _ => (Some EBADF, MAP_FAILED, k)
    end);
  sys_munmap base len k :=
    (0, match mmapped k with
        | Some (_, l) => if (base =? map_base) && (len =? l) then put_map None k else k
        | None => k
        end);
  load k a :=
    match mmapped k with
    | Some (i, _) => default Byte.x00 (default [] (mnode k !! i) !! Z.to_nat (a - map_base))
    | None => Byte.x00
    end;
  sys_access p := call (-1) (fun _ k =>
    match mdir k !! p with Some _ => (None, 0, k) | None => (Some ENOENT, -1, k) end);
  sys_unlink p := call (-1) (fun _ k =>
    match mdir k !! p with
    | Some _ => (None, 0, put (set_dir (delete p (mdir k)) (view k)) k)
    | None => (Some ENOENT, -1, k)
    end);
  sys_mkdir p m := call (-1) (fun _ k =>
    match mdir k !! p with
    | Some _ => (Some EEXIST, -1, k)
    | None => (None, 0, put (set_dir (<[p := new_node k]> (mdir k)) (view k)) k)
    end);
  sys_rmdir p := call (-1) (fun _ k =>
    match mdir k !! p with
    | Some i =>
      match mnode k !! i with
      | Some _ => (Some EINVAL, -1, k)
      | None => (None, 0, put (set_dir (delete p (mdir k)) (view k)) k)
      end
    | None => (Some ENOENT, -1, k)
    end);
  sys_stat p := call (-1, 0) (fun _ k =>
    match mdir k !! p with
    | Some i => (None, (0, blen (default [] (mnode k !! i))), k)
    | None => (Some ENOENT, (-1, 0), k)
    end);
  sys_rename p q := call (-1) (fun _ k =>
    match mdir k !! p with
    | Some i => (None, 0, put (set_dir (<[q := i]> (delete p (mdir k))) (view k)) k)
    | None => (Some ENOENT, -1, k)
    end);
  sys_setlk fd b := call (-1) (fun _ k =>
    match mfds k !! fd with
    | Some ds =>
      (None, 0, put (set_locks (if b then {[ fd_node ds ]} ∪ mlocks k else mlocks k ∖ {[ fd_node ds ]})
                       (view k)) k)
    | None => (Some EBADF, -1, k)
    end);
  sys_opendir p := call None (fun _ k => (Some ENOENT, None, k));
  sys_readdir d k := (None, k);
  sys_closedir d k := (0, k);
  sys_fdopen fd := call None (fun _ k => (None, Some fd, k));
  getenv name k := None;
  geteuid k := 0;
  sys_gettimeofday k := (0, 0, k);
  sys_getrlimit k := (0, 1024, k);
}.

(** ** It keeps the laws *)

Lemma call_cases {A} (failed : A) op k a k' : call failed op k = (a, k') ->
  (exists e, a = failed /\ k' = set_merrno e (tick k) /\ head (plan k) = Some (Fails e)) \/
  (exists e l a0 k0, a = failed /\ k' = set_merrno e (tick k) /\ op l (tick k) = (Some e, a0, k0)) \/
  (exists l, op l (tick k) = (None, a, k')).
Proof.
  unfold call. destruct (plan k) as [|[|e|n] pl] eqn:Ep; cbn [head].
  2:{ destruct (op (2 ^ 64) (tick k)) as [[[e|] a0] k0] eqn:E; intros [= <- <-]; eauto 10. }
  1:{ destruct (op (2 ^ 64) (tick k)) as [[[e|] a0] k0] eqn:E; intros [= <- <-]; eauto 10. }
  1:{ intros [= <- <-]. left. eauto. }
  destruct (op n (tick k)) as [[[e|] a0] k0] eqn:E; intros [= <- <-]; eauto 10.
Qed.

(** Consider the outcomes of the call in sight. *)
Ltac called H :=
  let Hf := fresh in
  apply call_cases in H as [(? & Hf & -> & ?)|[(? & ? & ? & ? & Hf & -> & H)|(? & H)]];
  try first [discriminate Hf | injection Hf as -> -> | subst]; try done.

Lemma view_put v k : view (put v k) =
  mkView (dir v) (node v) (fds v) (maps (view k)) (locks v).
Proof. done. Qed.

Lemma signals_tick k : (signals (tick k) <= signals k)%nat.
Proof. cbn. unfold msignals, tick. cbn. destruct (plan k) as [|o l]; cbn; [done|]. destruct (is_signal o); cbn; lia. Qed.

Lemma signals_planned e k : head (plan k) = Some (Fails e) -> e = EINTR -> (signals (tick k) < signals k)%nat.
Proof. cbn. unfold msignals, tick. cbn. destruct (plan k) as [|o l]; cbn; [done|]. intros [= ->] ->. cbn. lia. Qed.

Lemma foldr_max_le (l : list Z) x : x ∈ l -> x <= foldr Z.max 2 l.
Proof. induction 1; cbn; lia. Qed.

Lemma above_fresh {A} (m : gmap Z A) : m !! above m = None.
Proof.
  destruct (m !! above m) as [a|] eqn:E; [|done].
  apply elem_of_map_to_list in E. apply (list_elem_of_fmap_2 fst), foldr_max_le in E. cbn in E.
  unfold above in E. lia.
Qed.

Lemma above_pos {A} (m : gmap Z A) : 0 <= above m.
Proof.
  unfold above. assert (2 <= foldr Z.max 2 (map_to_list m).*1); [|lia].
  generalize ((map_to_list m).*1). intros l. induction l; cbn; lia.
Qed.

Lemma new_node_unused k : unused (new_node k) (view k).
Proof.
  unfold unused, view, new_node. cbn.
  assert (forall x l, x = 1 + foldr Z.max 2 l -> x ∉ l) as Hf
    by (intros x l -> Hx%foldr_max_le; lia).
  match goal with |- context [1 + foldr Z.max 2 ?l] => set (L := l) end.
  specialize (Hf _ L eq_refl). split_and!.
  - intros p Hp%elem_of_map_to_list. apply Hf, elem_of_app. left. apply (list_elem_of_fmap_2 snd) in Hp. done.
  - destruct (mnode k !! _) eqn:E; [|done]. destruct Hf. apply elem_of_app. right. apply elem_of_app. left.
    apply elem_of_map_to_list, (list_elem_of_fmap_2 fst) in E. done.
  - intros fd d Hd%elem_of_map_to_list Hn. apply Hf. apply elem_of_app. right. apply elem_of_app. right.
    rewrite <- Hn. apply list_elem_of_fmap_2. by apply (list_elem_of_fmap_2 snd) in Hd.
Qed.

Lemma view_eq v w : dir v = dir w -> node v = node w -> fds v = fds w -> maps v = maps w ->
  locks v = locks w -> v = w.
Proof. destruct v, w. cbn. by intros -> -> -> -> ->. Qed.

Lemma mem_open_ok p fl m k r k' : sys_open p fl m k = (r, k') -> 0 <= r ->
  Z.testbit fl 6 = false -> Z.testbit fl 9 = false ->
  fds (view k) !! r = None /\
  exists i, dir (view k) !! p = Some i /\
    view k' = set_desc r (mkDesc i 0 (Z.testbit fl 10)) (view k).
Proof.
  cbn [sys_open mem_kernel]. intros H Hr H6 H9. called H; [lia..|]. rewrite H6 in H. cbn [tick mdir mnode mfds] in H.
  destruct (mdir k !! p) as [i|] eqn:Ei; [|done].
  destruct (mnode k !! i); injection H as <- <-; (split; [apply above_fresh|by exists i]).
Qed.

Lemma mem_open_creat p fl m k r k' : sys_open p fl m k = (r, k') -> 0 <= r -> Z.testbit fl 6 = true ->
  fds (view k) !! r = None /\
  exists i c, (dir (view k) !! p = Some i /\ node (view k) !! i = Some c \/
               dir (view k) !! p = None /\ unused i (view k) /\ c = []) /\
    view k' = set_desc r (mkDesc i 0 (Z.testbit fl 10))
                (set_node i (if Z.testbit fl 9 then [] else c)
                  (set_dir (<[p := i]> (dir (view k))) (view k))).
Proof.
  cbn [sys_open mem_kernel]. intros H Hr H6. called H; [lia..|]. rewrite H6 in H. cbn [tick mdir mnode mfds] in H.
  destruct (mdir k !! p) as [i|] eqn:Ei.
  - destruct (mnode k !! i) as [c|] eqn:Ec; [|done]. injection H as <- <-.
    split; [apply above_fresh|]. exists i, c. split; [by left|done].
  - injection H as <- <-. split; [apply above_fresh|]. exists (new_node (tick k)), [].
    split; [right; split_and!; [done|apply (new_node_unused (tick k))|done]|done].
Qed.

Lemma mem_read_ok fd n k r d k' : sys_read fd n k = (r, d, k') -> 0 <= r ->
  exists ds c, open_on (view k) fd ds c /\ 0 <= fd_pos ds /\ 0 <= n /\ blen d = r /\
    d = take (Z.to_nat n) (rest_of ds c) /\
    view k' = seek_desc fd ds (fd_pos ds + r) (view k).
Proof.
  cbn [sys_read mem_kernel]. intros H Hr. called H; [lia..|].
  cbn [tick mnode mfds] in H. destruct (mfds k !! fd) as [ds|] eqn:Ed; [|done].
  destruct (mnode k !! fd_node ds) as [c|] eqn:Ec; [|done].
  destruct ((n <? 0) || (fd_pos ds <? 0)) eqn:Eb; [done|]. apply orb_false_iff in Eb as [?%Z.ltb_ge ?%Z.ltb_ge].
  injection H as <- <- <-. exists ds, c. done.
Qed.

Lemma mem_pread_ok fd n off k r d k' : sys_pread fd n off k = (r, d, k') -> 0 <= r ->
  0 <= off /\ exists ds c, open_on (view k) fd ds c /\ 0 <= n /\ blen d = r /\
    d = take (Z.to_nat n) (drop (Z.to_nat off) c).
Proof.
  cbn [sys_pread mem_kernel]. intros H Hr. called H; [lia..|].
  cbn [tick mnode mfds] in H. destruct (mfds k !! fd) as [ds|] eqn:Ed; [|done].
  destruct (mnode k !! fd_node ds) as [c|] eqn:Ec; [|done].
  destruct ((n <? 0) || (off <? 0)) eqn:Eb; [done|]. apply orb_false_iff in Eb as [?%Z.ltb_ge ?%Z.ltb_ge].
  injection H as <- <- <-. split; [done|]. exists ds, c. done.
Qed.

Lemma mem_write_ok fd d k r k' : sys_write fd d k = (r, k') -> 0 <= r ->
  exists ds c, open_on (view k) fd ds c /\ 0 <= fd_pos ds /\ r <= blen d /\ (d <> [] -> 0 < r) /\
    (signals k' <= signals k)%nat /\ view k' = write_desc fd ds c (take (Z.to_nat r) d) (view k).
Proof.
  cbn [sys_write mem_kernel]. intros H Hr. called H; [lia..|].
  cbn [tick mnode mfds] in H. destruct (mfds k !! fd) as [ds|] eqn:Ed; [|done].
  destruct (mnode k !! fd_node ds) as [c|] eqn:Ec; [|done].
  destruct (Z.ltb_spec (fd_pos ds) 0); [done|]. injection H as <- <-. exists ds, c.
  split_and!; [done|done|lia| |apply signals_tick|done].
  intros Hd. destruct d; [done|]. rewrite blen_cons. pose proof (blen_nonneg d). lia.
Qed.

(** Calls that only look. *)
Lemma call_view {A} (failed : A) op k : (forall l k, view (op l k).2 = view k) ->
  view (call failed op k).2 = view k.
Proof.
  intros Ho. destruct (call failed op k) as [a k'] eqn:E. apply call_cases in E as [(?&->&->&?)|[(?&?&?&?&->&->&?)|(l&E)]]; [done|done|].
  specialize (Ho l (tick k)). by rewrite E in Ho.
Qed.

#[global] Instance mem_kernel_ok : KernelOk Mem view.
Proof.
  split.
  - done.
  - cbn [sys_open mem_kernel]. intros p fl m k r k' H Hr. called H.
    unfold open_file in H. repeat case_match; simplify_eq; pose proof (above_pos (mfds k)); cbn [tick mfds] in *; lia.
  - exact mem_open_ok.
  - exact mem_open_creat.
  - cbn [sys_close mem_kernel]. intros fd k r k' H. repeat case_match; by simplify_eq.
  - cbn [sys_close mem_kernel]. intros fd k k' H. cbn [view fds]. repeat case_match; simplify_eq; eauto.
  - cbn [sys_close mem_kernel]. intros fd k. repeat case_match; auto.
  - intros fd n k r d k' H Hr. destruct (Z.ltb_spec r 0); [|lia]. cbn [sys_read mem_kernel] in H.
    apply call_cases in H as [(e&?&->&Hp)|[(e&?&?&?&?&->&H)|(l & H)]].
    + split; [done|]. by apply signals_planned.
    + split; [done|]. cbn. intros ->. cbn [tick mnode mfds] in H. repeat case_match; naive_solver.
    + cbn [tick mnode mfds] in H. repeat case_match; simplify_eq. 
      match goal with H : blen ?x < 0 |- _ => pose proof (blen_nonneg x) end; lia.
  - intros fd n k r d k' H Hr. apply mem_read_ok in H as (ds & c & Ho & Hp & Hn & Hl & Hd & Hv); [|done].
    exists ds, c. split_and!; try done.
    + rewrite <- Hl, Hd, blen_take. lia.
    + rewrite Hd. apply prefix_take.
    + intros Hn0 Hne ->. destruct (rest_of ds c); [done|]. by destruct (Z.to_nat n) eqn:?; [lia|].
  - intros fd n off k. apply call_view. intros. repeat case_match; done.
  - intros fd n off k r d k' H Hr. apply mem_pread_ok in H as (Ho & ds & c & Hop & Hn & Hl & Hd); [|done].
    split; [done|]. exists ds, c. split_and!; try done; rewrite <- Hl || idtac; rewrite Hd; [rewrite blen_take; lia|apply prefix_take].
  - intros fd d k r k' H Hr. cbn [sys_write mem_kernel] in H. called H.
    + split_and!; [done|apply signals_tick|by apply signals_planned].
    + split_and!; [done|apply signals_tick|]. cbn. intros ->. repeat case_match; naive_solver.
    + cbn [tick mnode mfds] in H. repeat case_match; simplify_eq. pose proof (blen_nonneg d). lia.
  - exact mem_write_ok.
  - cbn [sys_lseek mem_kernel]. intros fd off k r k' H Hr. called H.
    repeat case_match; simplify_eq. match goal with H : _ || _ = false |- _ => apply orb_false_iff in H as [?%Z.ltb_ge ?%Z.ltb_ge] end. lia.
  - cbn [sys_lseek mem_kernel]. intros fd off k r k' H Hr. called H. cbn [tick mfds] in H.
    destruct (mfds k !! fd) as [ds|] eqn:Ed; [|done]. case_match eqn:Eb; [done|]. injection H as <- <-.
    apply orb_false_iff in Eb as [?%Z.ltb_ge ?%Z.ltb_ge]. by exists ds.
  - intros fd k. by apply call_view.
  - intros fd k. by apply call_view.
  - intros fd k. by apply call_view.
  - cbn [sys_unlink mem_kernel]. intros p k k' H. called H. repeat case_match; by simplify_eq.
  - cbn [sys_unlink mem_kernel]. intros p k r k' H Hr. called H. repeat case_match; by simplify_eq.
  - cbn [sys_rename mem_kernel]. intros p q i k k' H Hi _ _. called H. cbn [view dir tick mdir] in *.
    rewrite Hi in H. by simplify_eq.
  - cbn [sys_rename mem_kernel]. intros p q k r k' H Hr. called H. repeat case_match; by simplify_eq.
  - intros p k. apply call_view. intros. by repeat case_match.
  - cbn [sys_stat mem_kernel]. intros p k size k' i c H Hi Hc.
    called H.
    cbn [tick mdir mnode view dir node] in *. rewrite Hi, Hc in H. by simplify_eq.
  - cbn [sys_setlk mem_kernel]. intros fd b k r k' H Hr. called H. repeat case_match; by simplify_eq.
  - cbn [sys_setlk mem_kernel]. intros fd b k r k' H Hr. called H. cbn [tick mfds] in H.
    destruct (mfds k !! fd) as [ds|] eqn:Ed; [|done]. injection H as <- <-. by exists ds.
  - cbn [sys_mmap mem_kernel]. intros len fd k k' H. called H. repeat case_match; by simplify_eq.
  - cbn [sys_mmap mem_kernel]. intros len fd k base k' H Hb. called H. cbn [tick mfds mmapped] in H.
    destruct (mfds k !! fd) as [ds|] eqn:Ed; [|done]. destruct (mmapped k) eqn:Em; [done|].
    destruct (Z.leb_spec len 0); [done|]. destruct (Z.ltb_spec (2 ^ 64) (map_base + len)); [done|].
    injection H as <- <-. unfold view at 1. cbn [maps]. rewrite Em. split_and!; [done..|]. exists ds. split; [done|]. unfold view, set_maps. cbn. by rewrite Em.
  - intros base i len k. cbn [sys_munmap mem_kernel snd view maps]. destruct (mmapped k) as [[j l]|] eqn:Em; [|done].
    intros [<- [= -> ->]]%lookup_singleton_Some. rewrite !Z.eqb_refl. cbn. unfold view, set_maps. cbn. by rewrite delete_singleton_eq.
  - intros k base i len c off b Hm Hc Ho Hb. cbn [load mem_kernel]. cbn [view maps node] in Hm, Hc.
    destruct (mmapped k) as [[j l]|]; [|done]. apply lookup_singleton_Some in Hm as [<- [= -> ->]].
    rewrite Hc. replace (map_base + off - map_base) with off by lia. cbn [default option_bind from_option]. unfold id. by rewrite Hb.
Qed.

#[global] Instance mem_full_reads : FullReads Mem view.
Proof.
  split.
  - intros fd n k r d k' ds c H Hr Hn [Ho Hc]. apply mem_read_ok in H as (ds' & c' & [Ho' Hc'] & _ & _ & _ & Hd & _); [|done].
    by simplify_eq.
  - intros fd n off k r d k' ds c H Hr Hn [Ho Hc]. apply mem_pread_ok in H as (_ & ds' & c' & [Ho' Hc'] & _ & _ & Hd); [|done].
    by simplify_eq.
Qed.

(** Nothing on disk, and nothing planned. *)
Definition empty (pl : list outcome) : Mem :=
  {| mdir := ∅; mnode := ∅; mfds := ∅; mmapped := None; mlocks := ∅; merrno := 0; plan := pl |}.

End MemKernel.
