(* ===== verification/PosixFile.v ===== *)
(** The files of [util/env_posix.cpp]: [PosixError], [Limiter],
    [PosixSequentialFile], [PosixRandomAccessFile], [PosixMmapReadableFile] and
    [PosixWritableFile], over any kernel.

    A writable file's contract is that what was appended is, in this order, in
    the file before the descriptor's position and in the buffer. *)

From S2P Require Import Prelude Status Comparator Env FileSystem Kernel.

(** * Errors *)

Definition kWritableFileBufferSize : Z := 65536.

Section files.
Context {cfg : PosixConfig} {K : Type} `{!Kernel K}.

Definition kOpenBaseFlags : Z := if HAVE_O_CLOEXEC then O_CLOEXEC else 0.

Definition PosixError (context : bytes) (error_number : Z) : Status :=
  if error_number =? ENOENT then NotFound context (strerror error_number)
  else IOError context (strerror error_number).

(** * [Limiter] *)

(** [acquires_allowed_], an atomic [int]; [fetch_sub] and [fetch_add] return
    the old value.  Their interleavings are in [PosixThreads]. *)
Definition Limiter_Acquire (acquires_allowed : Z) : bool * Z :=
  let old_acquires_allowed := acquires_allowed in
  let acquires_allowed := s32 (acquires_allowed - 1) in
  if 0 <? old_acquires_allowed then (true, acquires_allowed)
  else (false, s32 (acquires_allowed + 1)).

Definition Limiter_Release (acquires_allowed : Z) : Z := s32 (acquires_allowed + 1).

(** * [PosixSequentialFile] *)

Record PosixSequentialFile := { sf_fd : Z; sf_filename : bytes }.

(** The [while (true)] loop of [Read].  An error leaves [*result] alone:
    [result] is what the caller passed. *)
Fixpoint SequentialFile_Read_loop (fuel : nat) (f : PosixSequentialFile) (n scratch : Z)
    (result : Z * bytes) (k : K) : option (Status * (Z * bytes) * K) :=
  match fuel with
  | O => None
  | S fuel =>
    let '((read_size, d), k) := sys_read (sf_fd f) n k in
    if read_size <? 0 then
      if errno k =? EINTR then SequentialFile_Read_loop fuel f n scratch result k
      else Some (PosixError (sf_filename f) (errno k), result, k)
    else Some (OK, (scratch, d), k)
  end.

(** Every turn but the last takes a signal. *)
Definition SequentialFile_Read (f : PosixSequentialFile) (n scratch : Z) (result : Z * bytes) (k : K)
    : Status * (Z * bytes) * K :=
  default (PosixError (sf_filename f) EINTR, result, k)
    (SequentialFile_Read_loop (S (signals k)) f n scratch result k).

Definition SequentialFile_Skip (f : PosixSequentialFile) (n : Z) (k : K) : Status * K :=
  let '(r, k) := sys_lseek (sf_fd f) (s64 n) k in
  if r =? -1 then (PosixError (sf_filename f) (errno k), k) else (OK, k).

Definition SequentialFile_delete (f : PosixSequentialFile) (k : K) : K :=
  (sys_close (sf_fd f) k).2.

(** * Random access *)

Inductive PosixRandomFile :=
  | PosixRandomAccessFile (has_permanent_fd : bool) (fd : Z) (filename : bytes)
  | PosixMmapReadableFile (mmap_base length : Z) (filename : bytes).

(** The constructor: take [fd] over, or close it when no permanent descriptor
    may be kept. *)
Definition PosixRandomAccessFile_new (filename : bytes) (fd : Z) (fd_limiter : Z) (k : K)
    : PosixRandomFile * Z * K :=
  let '(has_permanent_fd, fd_limiter) := Limiter_Acquire fd_limiter in
  let fd_ := if has_permanent_fd then fd else -1 in
  let k := if has_permanent_fd then k else (sys_close fd k).2 in
  (PosixRandomAccessFile has_permanent_fd fd_ filename, fd_limiter, k).

(** The destructors; the limiters are those for descriptors and mappings. *)
Definition RandomFile_delete (f : PosixRandomFile) (fd_limiter mmap_limiter : Z) (k : K)
    : Z * Z * K :=
  match f with
  | PosixRandomAccessFile has_permanent_fd fd _ =>
    if has_permanent_fd then (Limiter_Release fd_limiter, mmap_limiter, (sys_close fd k).2)
    else (fd_limiter, mmap_limiter, k)
  | PosixMmapReadableFile base length _ =>
    (fd_limiter, Limiter_Release mmap_limiter, (sys_munmap base length k).2)
  end.

Definition RandomAccessFile_Read (has_permanent_fd : bool) (fd_ : Z) (filename : bytes)
    (offset n scratch : Z) (result : Z * bytes) (k : K) : Status * (Z * bytes) * K :=
  let '(fd, k) :=
    if has_permanent_fd then (fd_, k) else sys_open (c_str filename) (Z.lor O_RDONLY kOpenBaseFlags) 0 k in
  if negb has_permanent_fd && (fd <? 0) then (PosixError filename (errno k), result, k)
  else
    let '((read_size, d), k) := sys_pread fd n (s64 offset) k in
    let result := (scratch, if read_size <? 0 then [] else d) in
    let status := if read_size <? 0 then PosixError filename (errno k) else OK in
    let k := if has_permanent_fd then k else (sys_close fd k).2 in
    (status, result, k).

Definition MmapReadableFile_Read (mmap_base length : Z) (filename : bytes) (offset n : Z) (k : K)
    : Status * (Z * bytes) * K :=
  if length <? u64 (offset + n) then (PosixError filename EINVAL, (0, []), k)
  else (OK, (u64 (mmap_base + offset), memory k (u64 (mmap_base + offset)) n), k).

Definition RandomFile_Read (f : PosixRandomFile) (offset n scratch : Z) (result : Z * bytes) (k : K)
    : Status * (Z * bytes) * K :=
  match f with
  | PosixRandomAccessFile p fd name => RandomAccessFile_Read p fd name offset n scratch result k
  | PosixMmapReadableFile base length name => MmapReadableFile_Read base length name offset n k
  end.

(** * [PosixWritableFile] *)

(** [rfind('/')] *)
Fixpoint rfind_slash (s : bytes) : option nat :=
  match s with
  | [] => None
  | c :: s =>
    match rfind_slash s with
    | Some i => Some (S i)
    | None => if decide (c = bz 47) then Some 0%nat else None
    end
  end.

Definition Dirname (filename : bytes) : bytes :=
  match rfind_slash filename with
  | None => bytes_of_string "."
  | Some separator_pos => take separator_pos filename
  end.

Definition Basename (filename : bytes) : bytes :=
  match rfind_slash filename with
  | None => filename
  | Some separator_pos => drop (separator_pos + 1) filename
  end.

Definition IsManifest (filename : bytes) : bool :=
  Slice_starts_with (Basename filename) (bytes_of_string "MANIFEST").

(** [buf] is [buf_[0, pos_ - 1]]. *)
Record PosixWritableFile := mkWritable {
  buf : bytes;
  fd_ : Z;
  is_manifest_ : bool;
  filename_ : bytes;
  dirname_ : bytes;
}.

Definition pos_ (f : PosixWritableFile) : Z := blen (buf f).

Definition set_buf (b : bytes) (f : PosixWritableFile) : PosixWritableFile :=
  mkWritable b (fd_ f) (is_manifest_ f) (filename_ f) (dirname_ f).

Definition PosixWritableFile_new (filename : bytes) (fd : Z) : PosixWritableFile :=
  mkWritable [] fd (IsManifest filename) filename (Dirname filename).

(** The loop of [WriteUnbuffered]; [None] when the turns run out. *)
Fixpoint WriteUnbuffered_loop (fuel : nat) (f : PosixWritableFile) (data : bytes) (k : K)
    : option (Status * K) :=
  match data with
  | [] => Some (OK, k)
  | _ =>
    match fuel with
    | O => None
    | S fuel =>
      let '(write_result, k) := sys_write (fd_ f) data k in
      if write_result <? 0 then
        if errno k =? EINTR then WriteUnbuffered_loop fuel f data k
        else Some (PosixError (filename_ f) (errno k), k)
      else WriteUnbuffered_loop fuel f (drop (Z.to_nat write_result) data) k
    end
  end.

(** Every turn writes a byte or takes a signal. *)
Definition WriteUnbuffered (f : PosixWritableFile) (data : bytes) (k : K) : Status * K :=
  default (PosixError (filename_ f) EINTR, k)
    (WriteUnbuffered_loop (length data + signals k) f data k).

Definition FlushBuffer (f : PosixWritableFile) (k : K) : Status * PosixWritableFile * K :=
  let '(status, k) := WriteUnbuffered f (buf f) k in
  (status, set_buf [] f, k).

Definition WritableFile_Append (f : PosixWritableFile) (data : bytes) (k : K)
    : Status * PosixWritableFile * K :=
  let write_size := blen data in
  let copy_size := Z.min write_size (kWritableFileBufferSize - pos_ f) in
  let f := set_buf (buf f ++ take (Z.to_nat copy_size) data) f in
  let write_data := drop (Z.to_nat copy_size) data in
  let write_size := write_size - copy_size in
  if write_size =? 0 then (OK, f, k)
  else
    let '(status, f, k) := FlushBuffer f k in
    if negb (ok status) then (status, f, k)
    else if write_size <? kWritableFileBufferSize then (OK, set_buf write_data f, k)
    else let '(status, k) := WriteUnbuffered f write_data k in (status, f, k).

Definition WritableFile_Close (f : PosixWritableFile) (k : K) : Status * PosixWritableFile * K :=
  let '(status, f, k) := FlushBuffer f k in
  let '(close_result, k) := sys_close (fd_ f) k in
  let status := if (close_result <? 0) && ok status then PosixError (filename_ f) (errno k) else status in
  (status, mkWritable (buf f) (-1) (is_manifest_ f) (filename_ f) (dirname_ f), k).

Definition WritableFile_Flush (f : PosixWritableFile) (k : K) : Status * PosixWritableFile * K :=
  FlushBuffer f k.

Definition SyncFd (fd : Z) (fd_path : bytes) (k : K) : Status * K :=
  let '(full, k) := if HAVE_FULLFSYNC then sys_fullfsync fd k else (-1, k) in
  if full =? 0 then (OK, k)
  else
    let '(r, k) := if HAVE_FDATASYNC then sys_fdatasync fd k else sys_fsync fd k in
    if r =? 0 then (OK, k) else (PosixError fd_path (errno k), k).

Definition SyncDirIfManifest (f : PosixWritableFile) (k : K) : Status * K :=
  if negb (is_manifest_ f) then (OK, k)
  else
    let '(fd, k) := sys_open (c_str (dirname_ f)) (Z.lor O_RDONLY kOpenBaseFlags) 0 k in
    if fd <? 0 then (PosixError (dirname_ f) (errno k), k)
    else
      let '(status, k) := SyncFd fd (dirname_ f) k in
      (status, (sys_close fd k).2).

Definition WritableFile_Sync (f : PosixWritableFile) (k : K) : Status * PosixWritableFile * K :=
  let '(status, k) := SyncDirIfManifest f k in
  if negb (ok status) then (status, f, k)
  else
    let '(status, f, k) := FlushBuffer f k in
    if negb (ok status) then (status, f, k)
    else let '(status, k) := SyncFd (fd_ f) (filename_ f) k in (status, f, k).

(** [~PosixWritableFile] *)
Definition WritableFile_delete (f : PosixWritableFile) (k : K) : K :=
  if 0 <=? fd_ f then (WritableFile_Close f k).2 else k.

End files.

(** * The writable file *)

Section writable_facts.
Context {cfg : PosixConfig} {K : Type} `{!Kernel K} {view : K -> FsView} `{!KernelOk K view}.

Lemma PosixError_not_ok context e : ok (PosixError context e) = false.
Proof. unfold PosixError. by case_match. Qed.

(** The write loop returns within its turns, and then what it wrote is a
    prefix of the data, all of it on success. *)
Lemma WriteUnbuffered_loop_spec fuel f data k : (length data + signals k <= fuel)%nat ->
  exists st d k', WriteUnbuffered_loop fuel f data k = Some (st, k') /\
    wrote (fd_ f) d (view k) (view k') /\ d `prefix_of` data /\ (ok st = true -> d = data).
Proof.
  revert data k. induction fuel as [|fuel IH]; intros data k Hf; destruct data as [|b data'] eqn:Ed.
  1,3: exists OK, [], k; (split; [done|]; split; [apply wrote_refl|done]).
  { simpl in Hf. lia. }
  rewrite <- Ed in *. assert (WriteUnbuffered_loop (S fuel) f data k =
    let '(write_result, k) := sys_write (fd_ f) data k in
    if write_result <? 0 then
      if errno k =? EINTR then WriteUnbuffered_loop fuel f data k
      else Some (PosixError (filename_ f) (errno k), k)
    else WriteUnbuffered_loop fuel f (drop (Z.to_nat write_result) data) k) as -> by (by rewrite Ed).
  assert (data <> []) as Hne by (by rewrite Ed). clear Ed.
  destruct (sys_write (fd_ f) data k) as [r k1] eqn:E. destruct (Z.ltb_spec r 0) as [Hr|Hr].
  - destruct (write_fail _ _ _ _ _ E Hr) as (Hv & Hs & Hi). destruct (Z.eqb_spec (errno k1) EINTR) as [He|He].
    + rewrite <- Hv. apply IH. specialize (Hi He). lia.
    + eexists _, [], _. split; [done|]. rewrite Hv. split_and!; [apply wrote_refl|by exists data|].
      by rewrite PosixError_not_ok.
  - destruct (write_ok _ _ _ _ _ E Hr) as (ds & c & Ho & Hp & Hle & Hpos & Hs & Hv). specialize (Hpos Hne).
    destruct (IH (drop (Z.to_nat r) data) k1) as (st & d & k' & -> & Hw & Hpre & Hok).
    { rewrite length_drop. unfold blen in Hle. lia. }
    exists st, (take (Z.to_nat r) data ++ d), k'. split; [done|]. split_and!.
    + apply wrote_app with (view k1); [|done]. rewrite Hv. split_and!; [done|done|]. right. by exists ds, c.
    + rewrite <- (take_drop (Z.to_nat r) data) at 2. by apply prefix_app.
    + intros ->%Hok. apply take_drop.
Qed.

Lemma WriteUnbuffered_spec f data k st k' : WriteUnbuffered f data k = (st, k') ->
  exists d, wrote (fd_ f) d (view k) (view k') /\ d `prefix_of` data /\ (ok st = true -> d = data).
Proof.
  unfold WriteUnbuffered. intros E.
  destruct (WriteUnbuffered_loop_spec (length data + signals k) f data k) as (st1 & d & k1 & El & H); [done|].
  rewrite El in E. injection E as <- <-. eauto.
Qed.

Lemma FlushBuffer_spec f k st f' k' : FlushBuffer f k = (st, f', k') ->
  f' = set_buf [] f /\
  exists d, wrote (fd_ f) d (view k) (view k') /\ d `prefix_of` buf f /\ (ok st = true -> d = buf f).
Proof.
  unfold FlushBuffer. destruct (WriteUnbuffered f (buf f) k) as [s k1] eqn:E.
  intros [= <- <- <-]. split; [done|]. by apply (WriteUnbuffered_spec _ _ _ _ _ E).
Qed.

(** What reaches the file and what stays in the buffer, in every case. *)
Lemma WritableFile_Append_spec f data k st f' k' : WritableFile_Append f data k = (st, f', k') ->
  exists d b, wrote (fd_ f) d (view k) (view k') /\ f' = set_buf b f /\
    blen b <= kWritableFileBufferSize /\ d ++ b `prefix_of` buf f ++ data /\
    (ok st = true -> d ++ b = buf f ++ data).
Proof.
  unfold WritableFile_Append. set (copy := Z.min (blen data) _). intros E.
  destruct (Z.eqb_spec (blen data - copy) 0) as [Hz|Hz].
  { injection E as <- <- <-. exists [], (buf f ++ data). split_and!; [apply wrote_refl| | |done|done].
    - rewrite take_ge; [done|]. unfold blen in *. lia.
    - rewrite blen_app. unfold copy, pos_ in *. lia. }
  destruct (FlushBuffer _ k) as [[s1 f1] k1] eqn:E1.
  apply FlushBuffer_spec in E1 as (-> & d1 & Hw1 & Hp1 & Hok1). cbn [set_buf buf fd_] in *.
  assert (forall x, x `prefix_of` buf f ++ take (Z.to_nat copy) data -> x `prefix_of` buf f ++ data) as Hpre.
  { intros x Hx. etrans; [exact Hx|]. apply prefix_app, prefix_take. }
  destruct (ok s1) eqn:Hs1; cbn [negb] in E.
  2:{ injection E as <- <- <-. exists d1, []. rewrite app_nil_r. split_and!; [done|done|done|auto|congruence]. }
  specialize (Hok1 eq_refl). subst d1.
  destruct (Z.ltb_spec (blen data - copy) kWritableFileBufferSize) as [Hl|Hl].
  - injection E as <- <- <-. exists (buf f ++ take (Z.to_nat copy) data), (drop (Z.to_nat copy) data).
    rewrite <- app_assoc, take_drop. split_and!; [exact Hw1|done| |done|done].
    rewrite blen_drop. unfold copy in *. pose proof (blen_nonneg data). unfold kWritableFileBufferSize in *. lia.
  - destruct (WriteUnbuffered _ _ k1) as [s2 k2] eqn:E2.
    apply WriteUnbuffered_spec in E2 as (d2 & Hw2 & Hp2 & Hok2). cbn [set_buf fd_] in Hw2. injection E as <- <- <-.
    eexists _, []. rewrite app_nil_r. split_and!; [exact (wrote_app _ _ _ _ _ _ Hw1 Hw2)|done|done| |].
    + rewrite <- app_assoc. apply prefix_app. rewrite <- (take_drop (Z.to_nat copy) data) at 2. by apply prefix_app.
    + intros ->%Hok2. by rewrite <- app_assoc, take_drop.
Qed.

Lemma SyncFd_view fd path k : view (SyncFd fd path k).2 = view k.
Proof.
  assert (view (if HAVE_FULLFSYNC then sys_fullfsync fd k else (-1, k)).2 = view k) as H1
    by (destruct HAVE_FULLFSYNC; [apply fullfsync_view|done]).
  unfold SyncFd. destruct (if HAVE_FULLFSYNC then _ else _) as [r1 k1]. cbn [snd] in H1. rewrite <- H1.
  destruct (r1 =? 0); [done|].
  assert (view (if HAVE_FDATASYNC then sys_fdatasync fd k1 else sys_fsync fd k1).2 = view k1) as H2
    by (destruct HAVE_FDATASYNC; [apply fdatasync_view|apply fsync_view]).
  destruct (if HAVE_FDATASYNC then _ else _) as [r2 k2]. by destruct (r2 =? 0).
Qed.

(** A descriptor opened for the occasion and closed again. *)
Lemma close_opened fd d v v' : fds v !! fd = None ->
  v' = close_desc fd (set_desc fd d v) -> dir v' = dir v /\ maps v' = maps v /\ node v' = node v /\ fds v' = fds v.
Proof. intros Hn ->. cbn. by rewrite delete_insert_id. Qed.

Lemma rdonly_flags i : Z.testbit (Z.lor O_RDONLY kOpenBaseFlags) i = HAVE_O_CLOEXEC && (i =? 19).
Proof.
  unfold kOpenBaseFlags, O_RDONLY, O_CLOEXEC. rewrite Z.lor_0_l. destruct HAVE_O_CLOEXEC; cbn [andb]; [|apply Z.bits_0].
  destruct (Z.eqb_spec i 19) as [->|Hi]; [done|]. change (Z.shiftl 1 19) with (2 ^ 19).
  apply Z.pow2_bits_false. done.
Qed.

Lemma SyncDirIfManifest_wrote f k fd : wrote fd [] (view k) (view (SyncDirIfManifest f k).2).
Proof.
  unfold SyncDirIfManifest. destruct (is_manifest_ f); cbn [negb]; [|apply wrote_refl].
  destruct (sys_open _ _ _ k) as [r k1] eqn:E. destruct (Z.ltb_spec r 0) as [Hr|Hr]; cbn [snd].
  { rewrite (open_fail (view := view) _ _ _ _ _ _ E Hr). apply wrote_refl. }
  apply open_ok in E as (Hn & i & Hi & Hv); [|done|by rewrite rdonly_flags, andb_false_r..].
  pose proof (SyncFd_view r (dirname_ f) k1) as Hs. destruct (SyncFd r (dirname_ f) k1) as [st k2].
  cbn [snd] in Hs |- *. destruct (sys_close r k2) as [x k3] eqn:E3. apply close_view in E3. cbn [snd].
  rewrite Hs, Hv in E3. apply close_opened in E3 as (?&?&?&?); [by apply wrote_nil|done].
Qed.

Lemma Sync_spec f k st f' k' : WritableFile_Sync f k = (st, f', k') ->
  exists d b, wrote (fd_ f) d (view k) (view k') /\ f' = set_buf b f /\ d ++ b `prefix_of` buf f /\
    (ok st = true -> d ++ b = buf f).
Proof.
  unfold WritableFile_Sync. pose proof (SyncDirIfManifest_wrote f k (fd_ f)) as Hd.
  destruct (SyncDirIfManifest f k) as [s1 k1]. cbn [snd] in Hd.
  destruct (ok s1) eqn:Hs1; cbn [negb].
  2:{ intros [= <- <- <-]. exists [], (buf f). split_and!; [done|by destruct f|done|done]. }
  destruct (FlushBuffer f k1) as [[s2 f2] k2] eqn:E2. apply FlushBuffer_spec in E2 as (-> & d & Hw & Hp & Hok).
  pose proof (wrote_app _ _ _ _ _ _ Hd Hw) as Hw'. cbn [app] in Hw'.
  destruct (ok s2) eqn:Hs2; cbn [negb].
  2:{ intros [= <- <- <-]. exists d, []. rewrite app_nil_r. split_and!; [done|done|done|congruence]. }
  pose proof (SyncFd_view (fd_ f) (filename_ f) k2) as Hv. cbn [set_buf fd_ filename_].
  destruct (SyncFd _ _ k2) as [s3 k3]. cbn [snd] in Hv. intros [= <- <- <-]. exists d, [].
  rewrite Hv, app_nil_r. split_and!; [done|done|done|]. auto.
Qed.

(** [Close]: a flush, and the descriptor is gone. *)
Lemma Close_spec f k st f' k' : WritableFile_Close f k = (st, f', k') ->
  buf f' = [] /\ fd_ f' = -1 /\ filename_ f' = filename_ f /\
  exists d v, wrote (fd_ f) d (view k) v /\ view k' = close_desc (fd_ f) v /\ d `prefix_of` buf f /\
    (ok st = true -> d = buf f /\ is_Some (fds (view k) !! fd_ f)).
Proof.
  unfold WritableFile_Close. destruct (FlushBuffer f k) as [[s1 f1] k1] eqn:E1.
  apply FlushBuffer_spec in E1 as (-> & d & Hw & Hp & Hok). cbn [set_buf fd_ buf filename_].
  destruct (sys_close (fd_ f) k1) as [r k2] eqn:E2. intros [= <- <- <-]. cbn [buf fd_ filename_].
  split_and!; [done..|]. exists d, (view k1). split_and!; [done|by apply (close_view _ _ _ _ E2)|done|].
  destruct (close_result (fd_ f) k1) as [Hr|Hr]; rewrite E2 in Hr; cbn [fst] in Hr; subst r; cbn [andb].
  - change (0 <? 0) with false. cbn [andb]. intros Hs. split; [auto|]. apply close_open in E2.
    destruct Hw as (_ & _ & [(_ & _ & <-)|(ds & c & [Ho _] & _)]); [done|by eexists].
  - change (-1 <? 0) with true. cbn [andb]. destruct (ok s1) eqn:Hs1; [by rewrite PosixError_not_ok|congruence].
Qed.

(** ** Sequences of calls *)

Inductive writable_call := CAppend (data : bytes) | CFlush | CSync.

Definition appended (c : writable_call) : bytes :=
  match c with CAppend data => data | _ => [] end.

Definition do_call (c : writable_call) (f : PosixWritableFile) (k : K)
    : Status * PosixWritableFile * K :=
  match c with
  | CAppend data => WritableFile_Append f data k
  | CFlush => WritableFile_Flush f k
  | CSync => WritableFile_Sync f k
  end.

Fixpoint do_calls (cs : list writable_call) (f : PosixWritableFile) (k : K)
    : list Status * PosixWritableFile * K :=
  match cs with
  | [] => ([], f, k)
  | c :: cs =>
    let '(st, f, k) := do_call c f k in
    let '(sts, f, k) := do_calls cs f k in
    (st :: sts, f, k)
  end.

Lemma do_call_spec c f k st f' k' : do_call c f k = (st, f', k') ->
  pos_ f <= kWritableFileBufferSize ->
  exists d b, wrote (fd_ f) d (view k) (view k') /\ f' = set_buf b f /\
    blen b <= kWritableFileBufferSize /\ d ++ b `prefix_of` buf f ++ appended c /\
    (ok st = true -> d ++ b = buf f ++ appended c).
Proof.
  intros E Hp. destruct c as [data| |]; cbn [do_call appended] in *; rewrite ?app_nil_r.
  - by eapply WritableFile_Append_spec.
  - apply FlushBuffer_spec in E as (-> & d & Hw & Hd & Hok). exists d, []. by rewrite app_nil_r.
  - apply Sync_spec in E as (d & b & Hw & -> & Hpre & Hok). exists d, b. split_and!; [done|done| |done|done].
    apply prefix_length in Hpre. rewrite length_app in Hpre. unfold pos_, blen in *. lia.
Qed.

Lemma do_calls_spec cs f k sts f' k' : do_calls cs f k = (sts, f', k') ->
  pos_ f <= kWritableFileBufferSize ->
  exists d b, wrote (fd_ f) d (view k) (view k') /\ f' = set_buf b f /\
    blen b <= kWritableFileBufferSize /\ d ++ b `sublist_of` buf f ++ concat (appended <$> cs) /\
    (Forall (fun st => ok st = true) sts -> d ++ b = buf f ++ concat (appended <$> cs)).
Proof.
  revert f k sts f' k'. induction cs as [|c cs IH]; intros f k sts f' k' E Hp; cbn [do_calls] in E.
  { injection E as <- <- <-. exists [], (buf f). cbn. rewrite app_nil_r.
    split_and!; [apply wrote_refl|by destruct f|done|done|done]. }
  destruct (do_call c f k) as [[st f1] k1] eqn:E1.
  apply do_call_spec in E1 as (d1 & b1 & Hw1 & -> & Hb1 & Hpre1 & Hok1); [|done].
  destruct (do_calls cs _ k1) as [[sts' f2] k2] eqn:E2.
  apply IH in E2 as (d2 & b2 & Hw2 & -> & Hb2 & Hsub2 & Hok2); [|done]. cbn [set_buf fd_ buf] in Hw2, Hsub2, Hok2.
  injection E as <- <- <-. exists (d1 ++ d2), b2. split_and!.
  - by apply wrote_app with (view k1).
  - done.
  - done.
  - cbn [fmap list_fmap concat]. rewrite <- app_assoc. etrans; [apply sublist_app; [reflexivity|exact Hsub2]|].
    rewrite !app_assoc. apply sublist_app; [|done]. destruct Hpre1 as [x ->]. by apply sublist_inserts_r.
  - intros [Hst Hsts]%Forall_cons. cbn [fmap list_fmap concat].
    rewrite <- app_assoc, Hok2, !app_assoc, Hok1 by done. done.
Qed.

(** C20: whatever the kernel does to the writes (short writes, signals, errors
    at any point), a [PosixWritableFile] under any sequence of [Append],
    [Flush] and [Sync] calls keeps at most 64 KB back, changes no other file,
    and what it put into the file followed by what it still holds are the
    bytes appended, each at most once and in order; when no call failed they
    are exactly the bytes appended. *)
Theorem PosixWritableFile_ordered (calls : list writable_call) (f : PosixWritableFile) (k : K) :
  pos_ f <= kWritableFileBufferSize ->
  let '(sts, f', k') := do_calls calls f k in
  pos_ f' <= kWritableFileBufferSize /\
  exists d, wrote (fd_ f) d (view k) (view k') /\
    d ++ buf f' `sublist_of` buf f ++ concat (appended <$> calls) /\
    (Forall (fun st => ok st = true) sts -> d ++ buf f' = buf f ++ concat (appended <$> calls)).
Proof.
  intros Hp. destruct (do_calls calls f k) as [[sts f'] k'] eqn:E.
  apply do_calls_spec in E as (d & b & Hw & -> & Hb & Hsub & Hok); [|done]. split; [done|]. by exists d.
Qed.

End writable_facts.

(** * The sequential file *)

Lemma s64_nonneg n : 0 <= n < 2 ^ 64 -> 0 <= s64 n -> s64 n = n.
Proof.
  intros Hn. destruct (Z.ltb_spec n (2 ^ 63)); [by rewrite s64_small by lia|]. unfold s64.
  replace (n + 2 ^ 63) with (n - 2 ^ 63 + 1 * 2 ^ 64) by lia. rewrite Z.mod_add, Z.mod_small by lia. lia.
Qed.

Section read_facts.
Context {cfg : PosixConfig} {K : Type} `{!Kernel K} {view : K -> FsView} `{!KernelOk K view}.

(** The read loop returns within its turns: with an error and nothing read, or
    with what one [read] gave. *)
Lemma SequentialFile_Read_loop_spec fuel f n scratch result k : (signals k < fuel)%nat ->
  exists st res k', SequentialFile_Read_loop fuel f n scratch result k = Some (st, res, k') /\
    ((ok st = false /\ res = result /\ view k' = view k) \/
     (st = OK /\ exists r d k0, view k0 = view k /\ sys_read (sf_fd f) n k0 = (r, d, k') /\ 0 <= r /\ res = (scratch, d))).
Proof.
  revert k. induction fuel as [|fuel IH]; intros k Hf; [lia|]. cbn [SequentialFile_Read_loop].
  destruct (sys_read (sf_fd f) n k) as [[r d] k1] eqn:E. destruct (Z.ltb_spec r 0) as [Hr|Hr].
  - destruct (read_fail _ _ _ _ _ _ E Hr) as [Hv Hi]. destruct (Z.eqb_spec (errno k1) EINTR) as [He|He].
    + specialize (Hi He). destruct (IH k1) as (st & res & k' & El & [H|(-> & r' & d' & k0 & Hk0 & H)]); [lia|..]; exists st || exists OK; exists res, k'.
      * split; [done|]. left. by rewrite <- Hv.
      * split; [done|]. right. split; [done|]. exists r', d', k0. split; [congruence|done].
    + eexists _, _, _. split; [done|]. left. by rewrite PosixError_not_ok.
  - eexists _, _, _. split; [done|]. right. split; [done|]. by exists r, d, k.
Qed.

Lemma SequentialFile_Read_spec f n scratch result k st res k' :
  SequentialFile_Read f n scratch result k = (st, res, k') ->
  (ok st = false /\ res = result /\ view k' = view k) \/
  (st = OK /\ exists r d k0, view k0 = view k /\ sys_read (sf_fd f) n k0 = (r, d, k') /\ 0 <= r /\ res = (scratch, d)).
Proof.
  unfold SequentialFile_Read. intros E.
  destruct (SequentialFile_Read_loop_spec (S (signals k)) f n scratch result k) as (st1 & res1 & k1 & El & H); [lia|].
  rewrite El in E. injection E as <- <- <-. done.
Qed.

Lemma SequentialFile_Read_full `{!FullReads K view} f n scratch result k st a d k' : 0 <= n <= 0x7ffff000 ->
  SequentialFile_Read f n scratch result k = (st, (a, d), k') -> ok st = true ->
  is_Some (fds (view k) !! sf_fd f ≫= fun ds => node (view k) !! fd_node ds) /\
  d = take (Z.to_nat n) (fd_remaining (sf_fd f) (view k)) /\
  fd_remaining (sf_fd f) (view k') = drop (Z.to_nat n) (fd_remaining (sf_fd f) (view k)).
Proof.
  intros Hn E Hok. apply SequentialFile_Read_spec in E as [(?&_)|(-> & r & d' & k0 & Hk0 & E & Hr & [= -> ->])]; [congruence|].
  destruct (read_ok _ _ _ _ _ _ E Hr) as (ds & c & Ho & Hp & Hl & Hle & _ & _ & Hv).
  pose proof (read_full _ _ _ _ _ _ _ _ E Hr Hn Ho) as Hd. rewrite Hk0 in *.
  rewrite Hv, (seek_remaining _ _ _ _ _ Ho), (open_on_remaining _ _ _ _ Ho) by lia.
  split_and!; [destruct Ho as [-> Hc]; by eexists|done|]. rewrite Hd, blen_take in Hl.
  replace (fd_pos ds + r - fd_pos ds) with r by lia. unfold blen in Hl.
  destruct (Z.leb_spec n (blen (rest_of ds c))); [f_equal; unfold blen in *; lia|].
  rewrite !drop_ge by (unfold blen in *; lia). done.
Qed.

Lemma SequentialFile_Skip_spec f n k st k' : 0 <= n < 2 ^ 63 ->
  SequentialFile_Skip f n k = (st, k') -> ok st = true ->
  fd_remaining (sf_fd f) (view k') = drop (Z.to_nat n) (fd_remaining (sf_fd f) (view k)).
Proof.
  intros Hn. unfold SequentialFile_Skip. rewrite s64_small by done. destruct (sys_lseek _ _ k) as [r k1] eqn:E.
  destruct (Z.eqb_spec r (-1)) as [Hr|Hr]; intros [= <- <-]; [by rewrite PosixError_not_ok|]. intros _.
  destruct (lseek_ok _ _ _ _ _ E Hr) as (ds & Ho & -> & Hp & Hp' & Hv). rewrite Hv.
  destruct (node (view k) !! fd_node ds) as [c|] eqn:Hc.
  - rewrite (seek_remaining _ _ ds c) by (done || lia). f_equal. lia.
  - unfold fd_remaining. cbn. rewrite lookup_insert_eq. cbn. rewrite Hc, Ho, Hc. by rewrite drop_nil.
Qed.

(** * Random access files *)

(** The object reads a file with content [c]. *)
Definition random_ok (f : PosixRandomFile) (c : bytes) (v : FsView) : Prop :=
  match f with
  | PosixRandomAccessFile true fd _ => exists ds, open_on v fd ds c
  | PosixRandomAccessFile false _ filename =>
    exists i, dir v !! c_str filename = Some i /\ node v !! i = Some c
  | PosixMmapReadableFile base length _ =>
    0 <= base /\ base + length <= 2 ^ 64 /\
    exists i, maps v !! base = Some (i, length) /\ node v !! i = Some c /\ length = blen c
  end.

Lemma random_ok_same f c v v' : same_files v v' -> random_ok f c v -> random_ok f c v'.
Proof.
  intros (Hd & Hm & Hn & Hf). unfold random_ok, open_on. rewrite Hd, Hm, Hn, Hf. done.
Qed.

Lemma RandomAccessFile_Read_spec `{!FullReads K view} p fd name c offset n scratch result k st a d k' :
  random_ok (PosixRandomAccessFile p fd name) c (view k) -> 0 <= offset < 2 ^ 64 -> 0 <= n ->
  RandomAccessFile_Read p fd name offset n scratch result k = (st, (a, d), k') ->
  same_files (view k) (view k') /\ (ok st = true -> d = take (Z.to_nat n) (drop (Z.to_nat offset) c)).
Proof.
  intros Hr Ho Hn. unfold RandomAccessFile_Read. destruct p; cbn [negb andb].
  - destruct Hr as [ds Hop]. pose proof (pread_view fd n (s64 offset) k) as Hv.
    destruct (sys_pread fd n (s64 offset) k) as [[r d1] k1] eqn:E. cbn [snd] in Hv.
    destruct (Z.ltb_spec r 0) as [Hr|Hr]; intros [= <- <- <- <-]; (split; [by apply same_files_eq|]).
    { by rewrite PosixError_not_ok. } intros _.
    destruct (pread_ok _ _ _ _ _ _ _ E Hr) as [Hs _]. rewrite s64_nonneg in E by done.
    by apply (pread_full _ _ _ _ _ _ _ _ _ E Hr Hn Hop).
  - destruct Hr as (i & Hi & Hc). destruct (sys_open _ _ _ k) as [r k1] eqn:E1.
    destruct (Z.ltb_spec r 0) as [Hr|Hr].
    { apply (open_fail (view := view)) in E1; [|done]. intros E; simplify_eq. split; [by apply same_files_eq|].
      by rewrite PosixError_not_ok. }
    apply (open_ok (view := view)) in E1 as (Hnew & j & Hj & Hv1); [|done|by rewrite rdonly_flags, andb_false_r..].
    rewrite Hi in Hj. injection Hj as <-.
    pose proof (pread_view r n (s64 offset) k1) as Hv. destruct (sys_pread r n (s64 offset) k1) as [[x d1] k2] eqn:E2.
    cbn [snd] in Hv. destruct (sys_close r k2) as [y k3] eqn:E3. apply (close_view (view := view)) in E3. cbn [snd].
    rewrite Hv, Hv1 in E3. apply close_opened in E3; [|done].
    destruct (Z.ltb_spec x 0) as [Hx|Hx]; intros [= <- <- <- <-]; (split; [done|]); [by rewrite PosixError_not_ok|].
    intros _. destruct (pread_ok _ _ _ _ _ _ _ E2 Hx) as [Hs _]. rewrite s64_nonneg in E2 by done.
    apply (pread_full (view := view) _ _ _ _ _ _ _ (mkDesc i 0 (Z.testbit (Z.lor O_RDONLY kOpenBaseFlags) 10)) c) in E2; [done..|].
    split; [rewrite Hv1; cbn; by rewrite lookup_insert_eq|by rewrite Hv1].
Qed.

Lemma MmapReadableFile_Read_spec base len name c offset n k st a d k' :
  random_ok (PosixMmapReadableFile base len name) c (view k) -> 0 <= offset -> 0 <= n -> offset + n < 2 ^ 64 ->
  MmapReadableFile_Read base len name offset n k = (st, (a, d), k') ->
  k' = k /\ ok st = bool_decide (offset + n <= blen c) /\
  (ok st = true -> d = take (Z.to_nat n) (drop (Z.to_nat offset) c)).
Proof.
  intros (Hb & Hbl & i & Hm & Hc & ->) Ho Hn Hs. unfold MmapReadableFile_Read. unfold u64 at 1. rewrite Z.mod_small by lia.
  destruct (Z.ltb_spec (blen c) (offset + n)); intros [= <- <- <- <-].
  - rewrite bool_decide_false by lia. split_and!; [done|apply PosixError_not_ok|by rewrite PosixError_not_ok].
  - rewrite bool_decide_true by lia. split_and!; [done..|]. intros _.
    destruct (decide (n = 0)) as [->|]; [done|]. unfold u64. rewrite Z.mod_small by lia. by apply (memory_mapped k base i (blen c)).
Qed.


(** C38: [PosixMmapReadableFile::Read] adds offset and length in 64 bits: an
    offset close to 2^64, such as a corrupted block handle holds, wraps around
    the end of the file, and the call reports success with a slice that starts
    outside the mapping: as many bytes before it as the offset is below 2^64. *)
Theorem MmapReadableFile_Read_wraps (base len : Z) (name : bytes) (offset n : Z) (k : K) :
  0 <= base -> base + len <= 2 ^ 64 -> 0 <= len < 2 ^ 63 -> 2 ^ 64 - n <= offset < 2 ^ 64 -> 0 <= n <= len ->
  exists a d, MmapReadableFile_Read base len name offset n k = (OK, (a, d), k) /\
    len < offset + n /\ (a < base \/ base + len < a) /\ (n <= base -> a = base - (2 ^ 64 - offset)).
Proof.
  intros Hb Hbl Hl Ho Hn. unfold MmapReadableFile_Read.
  assert (forall x, 2 ^ 64 <= x < 2 * 2 ^ 64 -> u64 x = x - 2 ^ 64) as Hu.
  { intros x Hx. unfold u64. replace x with (x - 2 ^ 64 + 1 * 2 ^ 64) at 1 by lia. rewrite Z.mod_add, Z.mod_small; lia. }
  rewrite (Hu (offset + n)), (proj2 (Z.ltb_ge _ _)) by lia. eexists _, _. split; [done|]. split; [lia|].
  destruct (Z.ltb_spec (base + offset) (2 ^ 64)); [|rewrite Hu by lia; lia]. unfold u64. rewrite Z.mod_small by lia. lia.
Qed.

End read_facts.

(** * Witnesses *)

Module TestFiles.

#[local] Instance config : PosixConfig :=
  {| HAVE_O_CLOEXEC := true; HAVE_FULLFSYNC := false; HAVE_FDATASYNC := true |}.

Definition name : bytes := bytes_of_string "a".

(** A kernel with one file, open for writing at 3 and mapped. *)
Definition kernel (content : bytes) (pl : list MemKernel.outcome) : MemKernel.Mem :=
  {| MemKernel.mdir := {[ name := 1 ]}; MemKernel.mnode := {[ 1 := content ]};
     MemKernel.mfds := {[ 3 := mkDesc 1 0 false ]}; MemKernel.mmapped := Some (1, blen content);
     MemKernel.mlocks := ∅; MemKernel.merrno := 0; MemKernel.plan := pl |}.

Definition file : PosixWritableFile := PosixWritableFile_new name 3.

Definition calls : list writable_call :=
  [CAppend (bytes_of_string "hello"); CFlush; CAppend (bytes_of_string "!"); CSync].

(** The first write is interrupted, the second is short. *)
Definition rough : list MemKernel.outcome :=
  [MemKernel.Fails EINTR; MemKernel.Short 2].

Lemma PosixWritableFile_ordered_witness :
  (do_calls calls file (kernel [] rough)).1.1 = [OK; OK; OK; OK] /\
  MemKernel.mnode (do_calls calls file (kernel [] rough)).2 !! 1 = Some (bytes_of_string "hello!") /\
  let '(sts, f', k') := do_calls calls file (kernel [] rough) in
  pos_ f' <= kWritableFileBufferSize /\
  exists d, wrote (fd_ file) d (MemKernel.view (kernel [] rough)) (MemKernel.view k') /\
    d ++ buf f' `sublist_of` buf file ++ concat (appended <$> calls) /\
    (Forall (fun st => ok st = true) sts -> d ++ buf f' = buf file ++ concat (appended <$> calls)).
Proof.
  split; [vm_compute; reflexivity|]. split; [vm_compute; reflexivity|].
  exact (PosixWritableFile_ordered (view := MemKernel.view) calls file (kernel [] rough) ltac:(vm_compute; discriminate)).
Defined.

Definition text : bytes := bytes_of_string "abcdef".


Lemma MmapReadableFile_Read_wraps_witness :
  let base := MemKernel.map_base in
  exists a d, MmapReadableFile_Read base 6 name (2 ^ 64 - 1) 2 (kernel text []) = (OK, (a, d), kernel text []) /\
    6 < 2 ^ 64 - 1 + 2 /\ (a < base \/ base + 6 < a) /\ (2 <= base -> a = base - (2 ^ 64 - (2 ^ 64 - 1))).
Proof. intros base. apply (MmapReadableFile_Read_wraps base 6 name (2 ^ 64 - 1) 2); unfold base, MemKernel.map_base; lia. Defined.

End TestFiles.
