(* ===== verification/PosixEnv.v ===== *)
(** [PosixEnv] of [util/env_posix.cpp]: the file system operations, the lock
    table and the constructor's limits.  [posix_env] is the environment that
    clients see; it keeps the contract [EnvOk] over any kernel. *)

From S2P Require Import Prelude Status Logging Env FileName FileSystem Kernel PosixFile.

(** * The object *)

(** [kernel] is the system under it and [writables] the heap of
    [PosixWritableFile] objects; [locks_] is the set of [PosixLockTable]. *)
Record PosixEnv (K : Type) := mkPosixEnv {
  kernel : K;
  writables : gmap nat PosixWritableFile;
  locks_ : gset bytes;
  mmap_limiter_ : Z;
  fd_limiter_ : Z;
}.
Arguments mkPosixEnv {_}.
Arguments kernel {_}.
Arguments writables {_}.
Arguments locks_ {_}.
Arguments mmap_limiter_ {_}.
Arguments fd_limiter_ {_}.

Definition set_kernel {K : Type} (k : K) (e : PosixEnv K) : PosixEnv K :=
  mkPosixEnv k (writables e) (locks_ e) (mmap_limiter_ e) (fd_limiter_ e).
Definition set_writables {K : Type} (m : gmap nat PosixWritableFile) (e : PosixEnv K) : PosixEnv K :=
  mkPosixEnv (kernel e) m (locks_ e) (mmap_limiter_ e) (fd_limiter_ e).
Definition set_locked {K : Type} (l : gset bytes) (e : PosixEnv K) : PosixEnv K :=
  mkPosixEnv (kernel e) (writables e) l (mmap_limiter_ e) (fd_limiter_ e).
Definition set_limits {K : Type} (mmap fd : Z) (e : PosixEnv K) : PosixEnv K :=
  mkPosixEnv (kernel e) (writables e) (locks_ e) mmap fd.

Section env.
Context {cfg : PosixConfig} {K : Type} `{!Kernel K}.
Implicit Types e : PosixEnv K.

(** Run a system call. *)
Definition sys {A} (call : State K A) (e : PosixEnv K) : A * PosixEnv K :=
  let '(a, k) := call (kernel e) in (a, set_kernel k e).

Definition env_errno (e : PosixEnv K) : Z := errno (kernel e).

(** * Opening files *)

Definition PosixEnv_NewSequentialFile (filename : bytes) e
    : Status * option PosixSequentialFile * PosixEnv K :=
  let '(fd, e) := sys (sys_open (c_str filename) (Z.lor O_RDONLY kOpenBaseFlags) 0) e in
  if fd <? 0 then (PosixError filename (env_errno e), None, e)
  else (OK, Some {| sf_fd := fd; sf_filename := filename |}, e).

Definition PosixEnv_GetFileSize (filename : bytes) e : Status * Z * PosixEnv K :=
  let '((r, st_size), e) := sys (sys_stat (c_str filename)) e in
  if negb (r =? 0) then (PosixError filename (env_errno e), 0, e)
  else (OK, u64 st_size, e).

Definition PosixEnv_NewRandomAccessFile (filename : bytes) e
    : Status * option PosixRandomFile * PosixEnv K :=
  let '(fd, e) := sys (sys_open (c_str filename) (Z.lor O_RDONLY kOpenBaseFlags) 0) e in
  if fd <? 0 then (PosixError filename (env_errno e), None, e)
  else
    let '(acquired, mmap_limiter) := Limiter_Acquire (mmap_limiter_ e) in
    let e := set_limits mmap_limiter (fd_limiter_ e) e in
    if negb acquired then
      let '(f, fd_limiter, k) := PosixRandomAccessFile_new filename fd (fd_limiter_ e) (kernel e) in
      (OK, Some f, set_limits (mmap_limiter_ e) fd_limiter (set_kernel k e))
    else
      let '(status, file_size, e) := PosixEnv_GetFileSize filename e in
      let '(status, result, e) :=
        if ok status then
          let '(mmap_base, e) := sys (sys_mmap file_size fd) e in
          if negb (mmap_base =? MAP_FAILED)
          then (status, Some (PosixMmapReadableFile mmap_base file_size filename), e)
          else (PosixError filename (env_errno e), None, e)
        else (status, None, e) in
      let '(_, e) := sys (sys_close fd) e in
      let e := if negb (ok status)
               then set_limits (Limiter_Release (mmap_limiter_ e)) (fd_limiter_ e) e else e in
      (status, result, e).

(** [delete] of a random access file. *)
Definition delete_random (f : PosixRandomFile) e : PosixEnv K :=
  let '(fd_limiter, mmap_limiter, k) :=
    RandomFile_delete f (fd_limiter_ e) (mmap_limiter_ e) (kernel e) in
  set_limits mmap_limiter fd_limiter (set_kernel k e).

(** A handle is the address of its object and, for the specification, the name
    the object was opened with. *)
Record WritableHandle := { wh_id : nat; wh_name : bytes }.

Definition open_writable (filename : bytes) (flags : Z) e
    : Status * option WritableHandle * PosixEnv K :=
  let '(fd, e) := sys (sys_open (c_str filename) flags 420) e in
  if fd <? 0 then (PosixError filename (env_errno e), None, e)
  else
    let id := fresh (dom (writables e)) in
    (OK, Some {| wh_id := id; wh_name := filename |},
     set_writables (<[id := PosixWritableFile_new filename fd]> (writables e)) e).

Definition PosixEnv_NewWritableFile (filename : bytes) e
    : Status * option WritableHandle * PosixEnv K :=
  open_writable filename (Z.lor (Z.lor (Z.lor O_TRUNC O_WRONLY) O_CREAT) kOpenBaseFlags) e.

Definition PosixEnv_NewAppendableFile (filename : bytes) e
    : Status * option WritableHandle * PosixEnv K :=
  open_writable filename (Z.lor (Z.lor (Z.lor O_APPEND O_WRONLY) O_CREAT) kOpenBaseFlags) e.

(** * Names *)

Definition PosixEnv_FileExists (filename : bytes) e : bool * PosixEnv K :=
  let '(r, e) := sys (sys_access (c_str filename)) e in (r =? 0, e).

(** A call that reports success with 0. *)
Definition status_of (context : bytes) (call : State K Z) e : Status * PosixEnv K :=
  let '(r, e) := sys call e in
  if negb (r =? 0) then (PosixError context (env_errno e), e) else (OK, e).

Definition PosixEnv_DeleteFile (filename : bytes) e : Status * PosixEnv K :=
  status_of filename (sys_unlink (c_str filename)) e.

Definition PosixEnv_CreateDir (dirname : bytes) e : Status * PosixEnv K :=
  status_of dirname (sys_mkdir (c_str dirname) 493) e.

Definition PosixEnv_DeleteDir (dirname : bytes) e : Status * PosixEnv K :=
  status_of dirname (sys_rmdir (c_str dirname)) e.

Definition PosixEnv_RenameFile (src target : bytes) e : Status * PosixEnv K :=
  status_of src (sys_rename (c_str src) (c_str target)) e.

(** The [readdir] loop; [None] when the turns run out. *)
Fixpoint GetChildren_loop (fuel : nat) (d : Z) (result : list bytes) e
    : option (list bytes * PosixEnv K) :=
  match fuel with
  | O => None
  | S fuel =>
    let '(entry, e) := sys (sys_readdir d) e in
    match entry with
    | Some d_name => GetChildren_loop fuel d (result ++ [d_name]) e
    | None => Some (result, e)
    end
  end.

Definition PosixEnv_GetChildren (fuel : nat) (directory_path : bytes) e
    : option (Status * list bytes * PosixEnv K) :=
  let '(d, e) := sys (sys_opendir (c_str directory_path)) e in
  match d with
  | None => Some (PosixError directory_path (env_errno e), [], e)
  | Some d =>
    match GetChildren_loop fuel d [] e with
    | Some (result, e) => let '(_, e) := sys (sys_closedir d) e in Some (OK, result, e)
    | None => None
    end
  end.

(** * Locks *)

(** [PosixLockTable]; the mutex makes each operation one step. *)
Definition LockTable_Insert (fname : bytes) e : bool * PosixEnv K :=
  if decide (fname ∈ locks_ e) then (false, e) else (true, set_locked ({[ fname ]} ∪ locks_ e) e).

Definition LockTable_Remove (fname : bytes) e : PosixEnv K := set_locked (locks_ e ∖ {[ fname ]}) e.

Record PosixFileLock := { lk_fd : Z; lk_filename : bytes }.

Definition LockOrUnlock (fd : Z) (lock : bool) e : Z * PosixEnv K :=
  sys (sys_setlk fd lock) (set_kernel (set_errno 0 (kernel e)) e).

Definition PosixEnv_LockFile (filename : bytes) e : Status * option PosixFileLock * PosixEnv K :=
  let '(fd, e) := sys (sys_open (c_str filename) (Z.lor (Z.lor O_RDWR O_CREAT) kOpenBaseFlags) 420) e in
  if fd <? 0 then (PosixError filename (env_errno e), None, e)
  else
    let '(inserted, e) := LockTable_Insert filename e in
    if negb inserted then
      let '(_, e) := sys (sys_close fd) e in
      (IOError (bytes_of_string "lock " ++ filename) (bytes_of_string "already held by process"), None, e)
    else
      let '(r, e) := LockOrUnlock fd true e in
      if r =? -1 then
        let lock_errno := env_errno e in
        let '(_, e) := sys (sys_close fd) e in
        let e := LockTable_Remove filename e in
        (PosixError (bytes_of_string "lock " ++ filename) lock_errno, None, e)
      else (OK, Some {| lk_fd := fd; lk_filename := filename |}, e).

(** The lock object is freed on success only. *)
Definition PosixEnv_UnlockFile (lock : PosixFileLock) e : Status * PosixEnv K :=
  let '(r, e) := LockOrUnlock (lk_fd lock) false e in
  if r =? -1 then (PosixError (bytes_of_string "unlock " ++ lk_filename lock) (env_errno e), e)
  else
    let e := LockTable_Remove (lk_filename lock) e in
    let '(_, e) := sys (sys_close (lk_fd lock)) e in
    (OK, e).

(** * The rest *)

Definition PosixEnv_GetTestDirectory e : Status * bytes * PosixEnv K :=
  let dflt := bytes_of_string "/tmp/leveldbtest-" ++ print_int (s32 (geteuid (kernel e))) in
  let result :=
    match getenv (bytes_of_string "TEST_TMPDIR") (kernel e) with
    | Some (c :: env) => c :: env
    | _ => dflt
    end in
  let '(_, e) := PosixEnv_CreateDir result e in
  (OK, result, e).

(** The logger is made on the [FILE] that [fdopen] returns. *)
Definition PosixEnv_NewLogger (filename : bytes) e : Status * option Z * PosixEnv K :=
  let '(fd, e) := sys (sys_open (c_str filename)
                    (Z.lor (Z.lor (Z.lor O_APPEND O_WRONLY) O_CREAT) kOpenBaseFlags) 420) e in
  if fd <? 0 then (PosixError filename (env_errno e), None, e)
  else
    let '(fp, e) := sys (sys_fdopen fd) e in
    match fp with
    | None => let '(_, e) := sys (sys_close fd) e in (PosixError filename (env_errno e), None, e)
    | Some fp => (OK, Some fp, e)
    end.

Definition PosixEnv_NowMicros e : Z * PosixEnv K :=
  let '((tv_sec, tv_usec), e) := sys sys_gettimeofday e in
  (u64 (u64 (u64 tv_sec * 1000000) + u64 tv_usec), e).

(** The globals, and the setters of [EnvPosixTestHelper]. *)
Record Globals := { g_open_read_only_file_limit : Z; g_mmap_limit : Z }.

Definition kDefaultMmapLimit : Z := 1000.

Definition initial_globals : Globals :=
  {| g_open_read_only_file_limit := -1; g_mmap_limit := kDefaultMmapLimit |}.

Definition SetReadOnlyFDLimit (limit : Z) (g : Globals) : Globals :=
  {| g_open_read_only_file_limit := limit; g_mmap_limit := g_mmap_limit g |}.

Definition SetReadOnlyMMapLimit (limit : Z) (g : Globals) : Globals :=
  {| g_open_read_only_file_limit := g_open_read_only_file_limit g; g_mmap_limit := limit |}.

Definition MaxMmaps (g : Globals) : Z := g_mmap_limit g.

Definition MaxOpenFiles (g : Globals) (k : K) : Z * Globals * K :=
  if 0 <=? g_open_read_only_file_limit g then (g_open_read_only_file_limit g, g, k)
  else
    let '((r, rlim_cur), k) := sys_getrlimit k in
    let limit :=
      if negb (r =? 0) then 50
      else if rlim_cur =? RLIM_INFINITY then 2 ^ 31 - 1
      else s32 (rlim_cur / 5) in
    (limit, SetReadOnlyFDLimit limit g, k).

(** [PosixEnv::PosixEnv()] *)
Definition PosixEnv_new (g : Globals) (k : K) : PosixEnv K * Globals :=
  let '(max_open, g', k) := MaxOpenFiles g k in
  (mkPosixEnv k ∅ ∅ (MaxMmaps g) max_open, g').

(** * The interface *)

(** Call a method of the object behind a handle. *)
Definition with_object (h : WritableHandle)
    (m : PosixWritableFile -> K -> Status * PosixWritableFile * K) e : Status * PosixEnv K :=
  match writables e !! wh_id h with
  | Some f =>
    let '(st, f, k) := m f (kernel e) in
    (st, set_writables (<[wh_id h := f]> (writables e)) (set_kernel k e))
  | None => (IOError (bytes_of_string "no such object") [], e)
  end.

#[export] Instance posix_writable : WritableFileOps WritableHandle (PosixEnv K) := {
  Append h d := with_object h (fun f => WritableFile_Append f d);
  Close h := with_object h WritableFile_Close;
  Flush h := with_object h WritableFile_Flush;
  Sync h := with_object h WritableFile_Sync;
}.

(** Callers pass an empty slice for the result. *)
#[export] Instance posix_sequential : SequentialFileOps PosixSequentialFile (PosixEnv K) := {
  Read f n scratch := sys (SequentialFile_Read f n scratch (0, []));
  Skip f n := sys (SequentialFile_Skip f n);
}.

Definition delete_object (h : WritableHandle) e : unit * PosixEnv K :=
  match writables e !! wh_id h with
  | Some f => (tt, set_writables (delete (wh_id h) (writables e)) (set_kernel (WritableFile_delete f (kernel e)) e))
  | None => (tt, e)
  end.

#[export] Instance posix_env : Env (PosixEnv K) := {
  WritableFile := WritableHandle;
  SequentialFile := PosixSequentialFile;
  NewWritableFile := PosixEnv_NewWritableFile;
  NewSequentialFile := PosixEnv_NewSequentialFile;
  delete_writable := delete_object;
  delete_sequential f e := (tt, set_kernel (SequentialFile_delete f (kernel e)) e);
  DeleteFile := PosixEnv_DeleteFile;
  RenameFile := PosixEnv_RenameFile;
}.

End env.

(** * The contract *)

(** Closed, or open at the end of the file of that name. *)
Definition live_file (name : bytes) (f : PosixWritableFile) (v : FsView) : Prop := live_at name (fd_ f) v.

Section env_facts.
Context {cfg : PosixConfig} {K : Type} `{!Kernel K} {view : K -> FsView} `{!KernelOk K view}.
Implicit Types e : PosixEnv K.

Definition eview (e : PosixEnv K) : FsView := view (kernel e).

Definition env_files (e : PosixEnv K) : gmap bytes bytes := vfiles (eview e).

Definition env_inv (e : PosixEnv K) : Prop := view_ok (eview e).

Definition env_live (h : WritableHandle) (e : PosixEnv K) : Prop :=
  path_ok (wh_name h) /\ view_ok (eview e) /\
  exists f, writables e !! wh_id h = Some f /\ live_file (wh_name h) f (eview e).

(** Everything appended: in the file, then in the buffer. *)
Definition env_written (h : WritableHandle) (e : PosixEnv K) : bytes :=
  match writables e !! wh_id h with
  | Some f => fd_written (fd_ f) (eview e) ++ buf f
  | None => []
  end.

Definition env_remaining (f : PosixSequentialFile) (e : PosixEnv K) : bytes :=
  fd_remaining (sf_fd f) (eview e).

(** A method that writes [d] and leaves [b] in the buffer. *)
Definition writes_through (m : PosixWritableFile -> K -> Status * PosixWritableFile * K) (data : bytes) : Prop :=
  forall f k st f' k', m f k = (st, f', k') ->
  exists d b, wrote (fd_ f) d (view k) (view k') /\ f' = set_buf b f /\ (ok st = true -> d ++ b = buf f ++ data).

Lemma Append_writes d : writes_through (fun f => WritableFile_Append f d) d.
Proof. intros f k st f' k' E. apply WritableFile_Append_spec in E as (x & b & ? & -> & _ & _ & ?). eauto. Qed.

Lemma Flush_writes : writes_through WritableFile_Flush [].
Proof.
  intros f k st f' k' E. apply FlushBuffer_spec in E as (-> & d & ? & _ & ?).
  exists d, []. by rewrite !app_nil_r.
Qed.

Lemma Sync_writes : writes_through WritableFile_Sync [].
Proof.
  intros f k st f' k' E. apply Sync_spec in E as (d & b & ? & -> & _ & ?).
  exists d, b. by rewrite app_nil_r.
Qed.

Lemma with_object_ok m data h e st e' : writes_through m data -> with_object h m e = (st, e') -> ok st = true ->
  env_written h e' = env_written h e ++ data.
Proof.
  intros Hm. unfold with_object, env_written. destruct (writables e !! wh_id h) as [f|] eqn:Ef; [|by intros [= <- <-]].
  destruct (m f (kernel e)) as [[st1 f'] k'] eqn:E. intros [= <- <-] Hok. apply Hm in E as (d & b & Hw & -> & Hd).
  unfold eview. cbn. rewrite lookup_insert_eq. cbn. rewrite (fd_written_wrote _ _ _ _ Hw), <- !app_assoc. f_equal. auto.
Qed.

Lemma with_object_live m data h e : writes_through m data -> env_live h e ->
  env_live h (with_object h m e).2 /\
  forall g, g <> wh_name h -> env_files (with_object h m e).2 !! g = env_files e !! g.
Proof.
  intros Hm (Hp & Hv & f & Hf & Hl). unfold with_object. rewrite Hf.
  destruct (m f (kernel e)) as [[st f'] k'] eqn:E. apply Hm in E as (d & b & Hw & -> & _). cbn [snd].
  split; [|intros g Hg; by apply (wrote_frame _ _ _ _ _ _ Hv Hl Hw)].
  split_and!; [done|by apply (wrote_view_ok _ _ _ _ _ Hv Hl Hw)|]. exists (set_buf b f). cbn. rewrite lookup_insert_eq.
  split; [done|]. by apply (wrote_live _ _ _ _ _ Hv Hl Hw).
Qed.

(** [Close] on a live file. *)
Lemma Close_live_spec h e st e' : env_live h e -> with_object h WritableFile_Close e = (st, e') ->
  env_live h e' /\ (exists f', writables e' !! wh_id h = Some f' /\ fd_ f' = -1) /\
  (forall g, g <> wh_name h -> env_files e' !! g = env_files e !! g) /\
  (ok st = true -> env_files e' !! wh_name h = Some (env_written h e)).
Proof.
  intros (Hp & Hv & f & Hf & Hl). unfold with_object, env_written. rewrite Hf.
  destruct (WritableFile_Close f (kernel e)) as [[st1 f'] k'] eqn:E. intros [= <- <-].
  apply Close_spec in E as (Hb & Hfd & Hn & d & v & Hw & Hk & Hpre & Hok).
  assert (view_ok v) as Hv' by (by apply (wrote_view_ok _ _ _ _ _ Hv Hl Hw)).
  assert (env_files (set_writables (<[wh_id h:=f']> (writables e)) (set_kernel k' e)) = vfiles v) as Hfs.
  { unfold env_files, eview. cbn. rewrite Hk. done. }
  split_and!.
  - split_and!; [done|unfold eview; cbn; rewrite Hk; by apply view_ok_close|]. exists f'. cbn. rewrite lookup_insert_eq. split; [done|by left].
  - exists f'. cbn. by rewrite lookup_insert_eq.
  - intros g Hg. rewrite Hfs. by apply (wrote_frame _ _ _ _ _ _ Hv Hl Hw).
  - intros [-> [ds Hds]]%Hok. rewrite Hfs. unfold eview. rewrite <- (fd_written_wrote _ _ _ _ Hw).
    apply (live_content _ (fd_ f)); [|intros Hx; rewrite Hx in Hds; destruct Hv as [Hm _]; unfold eview in Hm; congruence].
    by apply (wrote_live _ _ _ _ _ Hv Hl Hw).
Qed.

Lemma delete_object_spec h e : env_live h e ->
  env_inv (delete_object h e).2 /\
  (forall g, g <> wh_name h -> env_files (delete_object h e).2 !! g = env_files e !! g) /\
  (forall f, writables e !! wh_id h = Some f -> fd_ f = -1 -> env_files (delete_object h e).2 = env_files e).
Proof.
  intros (Hp & Hv & f & Hf & Hl). unfold delete_object. rewrite Hf. cbn [snd]. unfold WritableFile_delete.
  destruct (Z.leb_spec 0 (fd_ f)) as [Hfd|Hfd].
  2:{ split_and!; [done|done|done]. }
  destruct (WritableFile_Close f (kernel e)) as [[st1 f'] k'] eqn:E. cbn [snd].
  apply Close_spec in E as (Hb & _ & Hn & d & v & Hw & Hk & Hpre & Hok).
  assert (view_ok v) as Hv' by (by apply (wrote_view_ok _ _ _ _ _ Hv Hl Hw)).
  split_and!.
  - unfold env_inv, eview. cbn. rewrite Hk. by apply view_ok_close.
  - intros g Hg. unfold env_files, eview. cbn. rewrite Hk. by apply (wrote_frame _ _ _ _ _ _ Hv Hl Hw).
  - intros f0 Hf0 Hm. assert (f0 = f) as -> by congruence. lia.
Qed.

Lemma trunc_flags : let fl := Z.lor (Z.lor (Z.lor O_TRUNC O_WRONLY) O_CREAT) kOpenBaseFlags in
  Z.testbit fl 6 = true /\ Z.testbit fl 9 = true /\ Z.testbit fl 10 = false.
Proof. unfold kOpenBaseFlags. by destruct HAVE_O_CLOEXEC. Qed.

Lemma NewWritableFile_spec f e st r e' : path_ok f -> env_inv e ->
  PosixEnv_NewWritableFile f e = (st, r, e') ->
  env_inv e' /\ (forall g, g <> f -> env_files e' !! g = env_files e !! g) /\
  (ok st = true -> exists h, r = Some h /\ wh_name h = f /\ env_live h e' /\ env_written h e' = []).
Proof.
  intros Hf Hi. destruct trunc_flags as (H6 & H9 & H10). unfold PosixEnv_NewWritableFile, open_writable, sys.
  rewrite Hf. destruct (sys_open _ _ _ (kernel e)) as [fd k'] eqn:E. destruct (Z.ltb_spec fd 0) as [Hr|Hr].
  - intros [= <- <- <-]. apply (open_fail (view := view)) in E; [|done]. unfold env_inv, env_files, eview. cbn.
    rewrite E, PosixError_not_ok. done.
  - intros [= <- <- <-]. apply (open_creat (view := view)) in E as (Hn & i & c & Hc & Hv); [|done..]. rewrite H9, H10 in Hv.
    destruct (creat_view f fd i c [] false _ Hi ltac:(lia) Hc) as [Hok Hfr]. split_and!.
    + unfold env_inv, eview. cbn. by rewrite Hv.
    + intros g Hg. unfold env_files, eview. cbn. rewrite Hv. by apply Hfr.
    + intros _. eexists. split; [done|]. split; [done|].
      unfold env_live, env_written, eview. cbn. rewrite lookup_insert_eq, Hv. cbn. split_and!; [done|done| |].
      * eexists. split; [done|]. right. exists (mkDesc i 0 false), []. unfold open_on. cbn.
        by rewrite !lookup_insert_eq.
      * unfold fd_written. cbn. rewrite lookup_insert_eq. cbn. by rewrite lookup_insert_eq.
Qed.

Lemma status_of_fail ctx (call : State K Z) e st e' : status_of ctx call e = (st, e') ->
  exists r k', call (kernel e) = (r, k') /\ e' = set_kernel k' e /\ ok st = (r =? 0).
Proof.
  unfold status_of, sys. destruct (call (kernel e)) as [r k'] eqn:E.
  destruct (r =? 0) eqn:Hr; cbn [negb]; intros [= <- <-]; exists r, k'; rewrite Hr; [done|].
  by rewrite PosixError_not_ok.
Qed.

Lemma DeleteFile_spec f e : path_ok f ->
  (env_inv e -> env_inv (PosixEnv_DeleteFile f e).2) /\
  forall g, g <> f -> env_files (PosixEnv_DeleteFile f e).2 !! g = env_files e !! g.
Proof.
  intros Hf. destruct (PosixEnv_DeleteFile f e) as [st e'] eqn:E. apply status_of_fail in E as (r & k' & E & -> & _).
  rewrite Hf in E. cbn [snd]. unfold env_inv, env_files, eview. cbn. destruct (decide (r = 0)) as [->|Hr].
  - rewrite (unlink_ok (view := view) _ _ _ E). apply unlink_view.
  - by rewrite (unlink_fail (view := view) _ _ _ _ E Hr).
Qed.

Lemma RenameFile_ok_spec src target d e st e' : path_ok src -> path_ok target -> env_inv e ->
  env_files e !! src = Some d -> PosixEnv_RenameFile src target e = (st, e') -> ok st = true ->
  env_files e' = <[target := d]> (delete src (env_files e)) /\ env_inv e'.
Proof.
  intros Hs Ht Hv Hd E Hok. pose proof Hv as [Hm Hi]. apply status_of_fail in E as (r & k' & E & -> & Hr). rewrite Hok in Hr.
  symmetry in Hr. apply Z.eqb_eq in Hr as ->. rewrite Hs, Ht in E.
  unfold env_files in Hd. rewrite vfiles_lookup in Hd. destruct (dir (eview e) !! src) as [i|] eqn:Hsrc; [|done]. cbn in Hd.
  assert (forall q, dir (eview e) !! q = Some i -> q = src) as Hq by (intros q Hq; apply (Hi _ _ _ Hq Hsrc); by eexists).
  apply (rename_ok (view := view) _ _ i) in E; [|done|by eexists|by apply Hq]. unfold env_inv, env_files, eview in *. cbn. rewrite E.
  by apply rename_view.
Qed.

#[export] Instance posix_writable_ok : WritableFileOk WritableHandle (PosixEnv K) env_written.
Proof.
  split.
  - intros h d s st s'. apply with_object_ok, Append_writes.
  - intros h s st s' E Hok. rewrite (with_object_ok _ [] h s st s' Flush_writes E Hok). apply app_nil_r.
Qed.

#[export] Instance posix_sequential_ok `{!FullReads K view} :
  SequentialFileOk PosixSequentialFile (PosixEnv K) env_remaining.
Proof.
  split; cbn [Read Skip posix_sequential]; unfold sys.
  - intros f n scratch e st a d e' Hn E Hok. destruct (SequentialFile_Read f n scratch _ (kernel e)) as [[st1 [a1 d1]] k'] eqn:Er.
    injection E as <- <- <- <-. apply (SequentialFile_Read_full (view := view)) in Er as (_ & ? & ?); done.
  - intros f n e st e' Hn E Hok. destruct (SequentialFile_Skip f n (kernel e)) as [st1 k'] eqn:Er.
    injection E as <- <-. by apply (SequentialFile_Skip_spec (view := view)) in Er.
Qed.

Lemma NewSequentialFile_spec f e st file e' : path_ok f ->
  PosixEnv_NewSequentialFile f e = (st, file, e') -> ok st = true ->
  exists h, file = Some h /\
    (env_files e !! f = Some (env_remaining h e') \/ forall n scratch, ok (Read h n scratch e').1.1 = false).
Proof.
  intros Hf. unfold PosixEnv_NewSequentialFile, sys. rewrite Hf. destruct (sys_open _ _ _ (kernel e)) as [fd k'] eqn:E.
  destruct (Z.ltb_spec fd 0) as [Hr|Hr]; intros [= <- <- <-]; [by rewrite PosixError_not_ok|]. intros _.
  apply (open_ok (view := view)) in E as (Hn & i & Hi & Hv); [|done|by rewrite rdonly_flags, andb_false_r..].
  eexists. split; [done|]. destruct (node (eview e) !! i) as [c|] eqn:Hc.
  - left. unfold env_files, env_remaining, fd_remaining, eview in *. rewrite vfiles_lookup, Hi. cbn. rewrite Hc, Hv. cbn.
    rewrite lookup_insert_eq. cbn. by rewrite Hc.
  - right. intros n scratch. cbn [Read posix_sequential]. unfold sys.
    destruct (SequentialFile_Read _ n scratch _ _) as [[st1 res] k1] eqn:Er. cbn [fst].
    apply (SequentialFile_Read_spec (view := view)) in Er as [(?&_)|(-> & r & d & k0 & Hk0 & E & Hr' & _)]; [done|].
    apply (read_ok (view := view)) in E as (ds & c & [Ho Hc'] & _); [|done]. cbn in Hk0. rewrite Hk0, Hv in Ho, Hc'.
    cbn in Ho. rewrite lookup_insert_eq in Ho. injection Ho as <-. cbn in Hc'. unfold eview in Hc. congruence.
Qed.

(** [PosixEnv] is the environment that the storage layers assume. *)
#[export] Instance posix_env_ok :
  EnvOk (PosixEnv K) path_ok (fun _ => True) False env_files env_inv wh_name env_live env_written env_remaining.
Proof.
  split; try apply _; cbn [NewWritableFile NewSequentialFile delete_writable DeleteFile RenameFile posix_env Append Sync Close posix_writable].
  - intros h d e s e' _ _ E Hok. exact (Append_ok h d e s e' E Hok).
  - by intros h e (_ & ? & _).
  - intros f e s file e' Hf Hi E Hok. apply NewWritableFile_spec in E as (_ & _ & Hh); auto.
  - intros f e Hf Hi. destruct (PosixEnv_NewWritableFile f e) as [[st r] e'] eqn:E. apply NewWritableFile_spec in E as (? & _); done.
  - intros h d e Hl. apply (with_object_live _ d); [apply Append_writes|done].
  - intros h e Hl. apply (with_object_live _ []); [apply Sync_writes|done].
  - intros h e Hl. change (Close h e) with (with_object h WritableFile_Close e). destruct (with_object h WritableFile_Close e) as [st e'] eqn:E. apply Close_live_spec in E as (? & _); done.
  - intros h e Hl. by apply delete_object_spec.
  - intros f e Hf. by apply DeleteFile_spec.
  - intros f e g Hf Hi Hg. destruct (PosixEnv_NewWritableFile f e) as [[st r] e'] eqn:E. apply NewWritableFile_spec in E as (_ & ? & _); auto.
  - intros h d e g Hl. by apply (with_object_live _ d); [apply Append_writes|].
  - intros h e g Hl. by apply (with_object_live _ []); [apply Sync_writes|].
  - intros h e g Hl. change (Close h e) with (with_object h WritableFile_Close e). destruct (with_object h WritableFile_Close e) as [st e'] eqn:E. apply Close_live_spec in E as (_ & _ & ? & _); auto.
  - intros h e g Hl. by apply delete_object_spec.
  - intros f e g Hf. by apply DeleteFile_spec.
  - intros h e st e' _ E Hok. rewrite (with_object_ok _ [] h e st e' Sync_writes E Hok). apply app_nil_r.
  - intros h e st e' Hl E. apply Close_live_spec in E as (_ & _ & _ & ?); done.
  - intros h e st e' Hl E _. apply Close_live_spec in E as (Hl' & (f & Hf & Hfd) & _); [|done].
    by apply (delete_object_spec h e' Hl') with f.
  - exact RenameFile_ok_spec.
  - intros src target e st e' _ _ E Hok. apply status_of_fail in E as (r & k' & E & -> & Hr). rewrite Hok in Hr.
    symmetry in Hr. apply Z.eqb_neq in Hr. unfold env_inv, env_files, eview. cbn. rewrite (rename_fail (view := view) _ _ _ _ _ E Hr). auto.
  - intros f e st file e'. apply NewSequentialFile_spec.
Qed.

End env_facts.

(** * Random access files *)

Lemma Limiter_Acquire_spec n : - 2 ^ 31 < n < 2 ^ 31 ->
  Limiter_Acquire n = if 0 <? n then (true, n - 1) else (false, n).
Proof.
  intros Hn. unfold Limiter_Acquire. rewrite (s32_small (n - 1)) by lia. destruct (0 <? n); [done|].
  rewrite s32_small by lia. f_equal. lia.
Qed.

Lemma Limiter_Release_spec n : - 2 ^ 31 <= n < 2 ^ 31 - 1 -> Limiter_Release n = n + 1.
Proof. intros Hn. unfold Limiter_Release. apply s32_small. lia. Qed.

Section random_facts.
Context {cfg : PosixConfig} {K : Type} `{!Kernel K} {view : K -> FsView} `{!KernelOk K view}.
Implicit Types e : PosixEnv K.
Notation eview := (eview (view := view)).

(** The same files, descriptors, mappings and free slots. *)
Definition same_resources (e e' : PosixEnv K) : Prop :=
  same_files (eview e) (eview e') /\
  mmap_limiter_ e' = mmap_limiter_ e /\ fd_limiter_ e' = fd_limiter_ e.

Lemma same_resources_intro e e' : same_files (eview e) (eview e') -> mmap_limiter_ e' = mmap_limiter_ e ->
  fd_limiter_ e' = fd_limiter_ e -> same_resources e e'.
Proof. done. Qed.

Lemma GetFileSize_spec f e st size e' : PosixEnv_GetFileSize f e = (st, size, e') ->
  eview e' = eview e /\ mmap_limiter_ e' = mmap_limiter_ e /\ fd_limiter_ e' = fd_limiter_ e /\
  forall i c, path_ok f -> dir (eview e) !! f = Some i -> node (eview e) !! i = Some c -> blen c < 2 ^ 64 ->
    ok st = true -> size = blen c.
Proof.
  unfold PosixEnv_GetFileSize, sys. pose proof (stat_view (c_str f) (kernel e)) as Hv.
  destruct (sys_stat (c_str f) (kernel e)) as [[r size0] k'] eqn:E. cbn [snd] in Hv.
  destruct (Z.eqb_spec r 0) as [->|Hr]; cbn [negb]; intros [= <- <- <-]; (split_and!; [done..|]).
  - intros i c Hf Hi Hc Hl _. rewrite Hf in E. rewrite (stat_ok (view := view) _ _ _ _ _ _ E Hi Hc).
    unfold u64. rewrite Z.mod_small; [done|]. pose proof (blen_nonneg c). lia.
  - intros. by rewrite PosixError_not_ok in *.
Qed.

(** The slots of the limiters that an object takes. *)
Definition fd_slots (h : PosixRandomFile) : Z := match h with PosixRandomAccessFile true _ _ => 1 | _ => 0 end.
Definition mmap_slots (h : PosixRandomFile) : Z := match h with PosixMmapReadableFile _ _ _ => 1 | _ => 0 end.

Definition slots_taken (h : PosixRandomFile) (e e' : PosixEnv K) : Prop :=
  fd_limiter_ e' = fd_limiter_ e - fd_slots h /\ (fd_slots h = 1 -> 0 < fd_limiter_ e) /\
  mmap_limiter_ e' = mmap_limiter_ e - mmap_slots h /\ (mmap_slots h = 1 -> 0 < mmap_limiter_ e).

(** Opening without a mapping: the descriptor is kept, or closed at once. *)
Lemma RandomAccessFile_new_spec f fd i c e fl k : path_ok f -> node (eview e) !! i = Some c ->
  dir (eview e) !! f = Some i -> fds (eview e) !! fd = None -> -2 ^ 31 < fl < 2 ^ 31 ->
  view k = set_desc fd (mkDesc i 0 false) (eview e) ->
  let '(file, fl', k') := PosixRandomAccessFile_new f fd fl k in
  random_ok file c (view k') /\
  (fl' = fl - fd_slots file /\ (fd_slots file = 1 -> 0 < fl) /\ mmap_slots file = 0) /\
  let '(fl'', ml'', k'') := RandomFile_delete file fl' (mmap_limiter_ e) k' in
  same_files (eview e) (view k'') /\ fl'' = fl /\ ml'' = mmap_limiter_ e.
Proof.
  intros Hf Hc Hi Hn Hl Hv. unfold PosixRandomAccessFile_new. rewrite Limiter_Acquire_spec by done.
  pose proof (close_view (view := view) fd k) as Hcl. destruct (sys_close fd k) as [r k1]. specialize (Hcl r k1 eq_refl).
  rewrite Hv in Hcl. apply close_opened in Hcl; [|done]. destruct (Z.ltb_spec 0 fl).
  - cbn [RandomFile_delete]. split.
    { exists (mkDesc i 0 false). rewrite Hv. unfold open_on. cbn. by rewrite lookup_insert_eq. }
    split; [done|]. rewrite Limiter_Release_spec by lia. pose proof (close_view (view := view) fd k) as Hcl'.
    destruct (sys_close fd k) as [r' k2]. cbn [snd]. specialize (Hcl' r' k2 eq_refl). rewrite Hv in Hcl'.
    apply close_opened in Hcl'; [|done]. split_and!; [apply Hcl'|lia|done].
  - cbn [RandomFile_delete snd fd_slots mmap_slots]. split_and!; [|lia|lia|done|apply Hcl|done|done].
    destruct Hcl as (Hd & _ & Hnd & _). exists i. by rewrite Hf, Hd, Hnd.
Qed.

(** Giving the descriptor and the slot of a failed mapping back. *)
Lemma close_and_release fd i e e3 st : fds (eview e) !! fd = None -> 0 < mmap_limiter_ e < 2 ^ 31 ->
  eview e3 = set_desc fd (mkDesc i 0 false) (eview e) -> mmap_limiter_ e3 = mmap_limiter_ e - 1 ->
  fd_limiter_ e3 = fd_limiter_ e -> ok st = false ->
  let '(_, e4) := sys (sys_close fd) e3 in
  same_resources e (if negb (ok st) then set_limits (Limiter_Release (mmap_limiter_ e4)) (fd_limiter_ e4) e4 else e4).
Proof.
  intros Hn Hpos Hv3 Hm3 Hf3 Hst. unfold sys. destruct (sys_close fd (kernel e3)) as [r k4] eqn:E4.
  apply (close_view (view := view)) in E4. fold (eview e3) in E4. rewrite Hv3 in E4. apply close_opened in E4; [|done].
  rewrite Hst. cbn [negb set_limits set_kernel mmap_limiter_ fd_limiter_]. apply same_resources_intro; [done| |done].
  cbn. rewrite Hm3, Limiter_Release_spec by lia. lia.
Qed.

(** Closing the descriptor of a mapping that was made; the mapping stays, until
    it is deleted. *)
Lemma mapped_file fd i c f base k3 e e2 : fds (eview e) !! fd = None -> node (eview e) !! i = Some c ->
  0 < mmap_limiter_ e < 2 ^ 31 -> 0 <= base -> base + blen c <= 2 ^ 64 -> maps (eview e) !! base = None ->
  eview e2 = set_desc fd (mkDesc i 0 false) (eview e) -> mmap_limiter_ e2 = mmap_limiter_ e - 1 ->
  fd_limiter_ e2 = fd_limiter_ e ->
  view k3 = set_maps (<[base := (i, blen c)]> (maps (eview e2))) (eview e2) ->
  let '(_, e4) := sys (sys_close fd) (set_kernel k3 e2) in
  let h := PosixMmapReadableFile base (blen c) f in
  random_ok h c (eview e4) /\ same_resources e (delete_random h e4) /\ slots_taken h e e4.
Proof.
  intros Hn Hc Hpos Hb0 Hbl Hb Hv2 Hm2 Hf2 Hv3. rewrite Hv2 in Hv3. unfold sys. cbn [kernel set_kernel].
  destruct (sys_close fd k3) as [r k4] eqn:E4. apply (close_view (view := view)) in E4. rewrite Hv3 in E4. split.
  - split_and!; [done..|]. exists i. unfold PosixEnv.eview. cbn. rewrite E4. cbn. by rewrite lookup_insert_eq.
  - split; [|unfold slots_taken; cbn; rewrite Hm2, Hf2; lia]. unfold delete_random. cbn. rewrite Hm2, Hf2, Limiter_Release_spec by lia.
    apply same_resources_intro; cbn; [|lia|done]. unfold PosixEnv.eview at 2. cbn.
    rewrite (munmap_view (view := view) _ i), E4 by (rewrite E4; cbn; by rewrite lookup_insert_eq). unfold same_files. cbn. by rewrite !delete_insert_id by done.
Qed.

(** [NewRandomAccessFile] on an existing file. *)
Lemma NewRandomAccessFile_spec (f c : bytes) (e : PosixEnv K) :
  path_ok f -> vfiles (eview e) !! f = Some c -> blen c < 2 ^ 64 ->
  -2 ^ 31 < mmap_limiter_ e < 2 ^ 31 -> -2 ^ 31 < fd_limiter_ e < 2 ^ 31 ->
  let '(st, file, e') := PosixEnv_NewRandomAccessFile f e in
  (ok st = true -> exists h, file = Some h /\ random_ok h c (eview e') /\ same_resources e (delete_random h e') /\ slots_taken h e e') /\
  (ok st = false -> file = None /\ same_resources e e').
Proof.
  intros Hf Hfc Hlen Hml Hfl. rewrite vfiles_lookup in Hfc. destruct (dir (eview e) !! f) as [i|] eqn:Hi; [|done]. cbn in Hfc.
  unfold PosixEnv_NewRandomAccessFile, sys at 1. rewrite Hf.
  destruct (sys_open f _ 0 (kernel e)) as [fd k1] eqn:E1. destruct (Z.ltb_spec fd 0) as [Hr|Hr].
  { apply (open_fail (view := view)) in E1; [|done]. rewrite PosixError_not_ok. split; [done|]. intros _. split; [done|].
    apply same_resources_intro; [by apply same_files_eq|done..]. }
  apply (open_ok (view := view)) in E1 as (Hn & j & Hj & Hv1); [|done|by rewrite rdonly_flags, andb_false_r..].
  fold (eview e) in Hn, Hj, Hv1. rewrite Hi in Hj. injection Hj as <-. rewrite rdonly_flags, andb_false_r in Hv1.
  cbn [mmap_limiter_ set_kernel fd_limiter_]. rewrite Limiter_Acquire_spec by done.
  destruct (Z.ltb_spec 0 (mmap_limiter_ e)) as [Hpos|Hpos]; cbn [negb].
  2:{ cbn [set_limits set_kernel kernel fd_limiter_ mmap_limiter_].
      pose proof (RandomAccessFile_new_spec f fd i c e (fd_limiter_ e) k1 Hf Hfc Hi Hn Hfl Hv1) as Hnew.
      destruct (PosixRandomAccessFile_new f fd (fd_limiter_ e) k1) as [[h fl'] k'] eqn:Eh.
      split; [|done]. intros _. exists h. destruct Hnew as (Hok & (Hsl1 & Hsl2 & Hsl3) & Hdel).
      split; [done|]. split; [done|]. split; [|unfold slots_taken; cbn; rewrite Hsl3; split_and!; [done|done|lia|lia]]. unfold delete_random.
      cbn [set_limits set_kernel kernel fd_limiter_ mmap_limiter_].
      destruct (RandomFile_delete h fl' (mmap_limiter_ e) k') as [[fl'' ml''] k'']. destruct Hdel as (Hs & -> & ->).
      by apply same_resources_intro. }
  set (e1 := set_limits (mmap_limiter_ e - 1) (fd_limiter_ e) (set_kernel k1 e)).
  assert (eview e1 = set_desc fd (mkDesc i 0 false) (eview e)) as Hve1 by exact Hv1.
  destruct (PosixEnv_GetFileSize f e1) as [[st2 size] e2] eqn:E2.
  apply GetFileSize_spec in E2 as (Hv2 & Hm2 & Hf2 & Hsize). rewrite Hve1 in Hv2, Hsize. cbn in Hm2, Hf2.
  specialize (Hsize i c Hf Hi Hfc Hlen).
  destruct (ok st2) eqn:Hst2.
  2:{ pose proof (close_and_release fd i e e2 st2 Hn ltac:(lia) Hv2 Hm2 Hf2 Hst2) as Hback.
      destruct (sys (sys_close fd) e2) as [r e4]. split; [congruence|done]. }
  specialize (Hsize eq_refl). subst size. unfold sys at 1. destruct (sys_mmap (blen c) fd (kernel e2)) as [base k3] eqn:E3.
  destruct (Z.eqb_spec base MAP_FAILED) as [->|Hb]; cbn [negb].
  - apply (mmap_fail (view := view)) in E3. set (st := PosixError f (env_errno (set_kernel k3 e2))).
    pose proof (close_and_release fd i e (set_kernel k3 e2) st Hn ltac:(lia) ltac:(by rewrite <- Hv2) Hm2 Hf2 (PosixError_not_ok _ _)) as Hback.
    destruct (sys (sys_close fd) (set_kernel k3 e2)) as [r e4]. unfold st in *. rewrite PosixError_not_ok in *. split; [congruence|done].
  - apply (mmap_ok (view := view)) in E3 as (_ & Hb0 & Hbl & Hbase & ds & Hds & Hv3); [|done]. fold (eview e2) in Hbase, Hds, Hv3.
    rewrite Hv2 in Hbase, Hds. cbn in Hbase, Hds. rewrite lookup_insert_eq in Hds. injection Hds as <-.
    pose proof (mapped_file fd i c f base k3 e e2 Hn Hfc ltac:(lia) Hb0 Hbl Hbase Hv2 Hm2 Hf2 Hv3) as Hm.
    destruct (sys (sys_close fd) (set_kernel k3 e2)) as [r e4]. rewrite Hst2. cbn [negb]. split; [|congruence]. intros _. by eexists.
Qed.

(** C25: [NewRandomAccessFile] on an existing file gives an object that reads
    exactly that file, whether it maps the file, keeps a descriptor or will
    reopen it, and deleting the object gives everything back: descriptors,
    mappings and slots of both limiters are as before.  When it fails it has
    taken nothing. *)
Theorem NewRandomAccessFile_correct (f c : bytes) (e : PosixEnv K) :
  path_ok f -> vfiles (eview e) !! f = Some c -> blen c < 2 ^ 64 ->
  -2 ^ 31 < mmap_limiter_ e < 2 ^ 31 -> -2 ^ 31 < fd_limiter_ e < 2 ^ 31 ->
  let '(st, file, e') := PosixEnv_NewRandomAccessFile f e in
  (ok st = true -> exists h, file = Some h /\ random_ok h c (eview e') /\ same_resources e (delete_random h e')) /\
  (ok st = false -> file = None /\ same_resources e e').
Proof.
  intros Hf Hfc Hlen Hml Hfl. pose proof (NewRandomAccessFile_spec f c e Hf Hfc Hlen Hml Hfl) as Hnew.
  destruct (PosixEnv_NewRandomAccessFile f e) as [[st file] e']. destruct Hnew as [Hok Hfail]. split; [|done].
  intros Hst. destruct (Hok Hst) as (h & Hh & Hr & Hs & _). by exists h.
Qed.

(** A name that does not exist. *)
Lemma NewRandomAccessFile_absent f e : path_ok f -> dir (eview e) !! f = None ->
  let '(st, file, e') := PosixEnv_NewRandomAccessFile f e in ok st = false /\ file = None /\ same_resources e e'.
Proof.
  intros Hf Hd. unfold PosixEnv_NewRandomAccessFile, sys at 1. rewrite Hf.
  destruct (sys_open f _ 0 (kernel e)) as [fd k1] eqn:E1. destruct (Z.ltb_spec fd 0) as [Hr|Hr].
  - apply (open_fail (view := view)) in E1; [|done]. split_and!; [apply PosixError_not_ok|done|].
    apply same_resources_intro; [by apply same_files_eq|done..].
  - apply (open_ok (view := view)) in E1 as (_ & j & Hj & _); [|done|by rewrite rdonly_flags, andb_false_r..].
    fold (eview e) in Hj. congruence.
Qed.

End random_facts.

(** * Locks *)

Section lock_facts.
Context {cfg : PosixConfig} {K : Type} `{!Kernel K} {view : K -> FsView} `{!KernelOk K view}.
Implicit Types e : PosixEnv K.
Notation eview := (eview (view := view)).

Lemma lock_flags : let fl := Z.lor (Z.lor O_RDWR O_CREAT) kOpenBaseFlags in
  Z.testbit fl 6 = true /\ Z.testbit fl 9 = false /\ Z.testbit fl 10 = false.
Proof. unfold kOpenBaseFlags. by destruct HAVE_O_CLOEXEC. Qed.

(** The descriptors after [LockFile]: one more exactly on success. *)
Lemma LockFile_spec f e st l e' : PosixEnv_LockFile f e = (st, l, e') ->
  match l with
  | Some lk => ok st = true /\ lk_filename lk = f /\ f ∉ locks_ e /\ locks_ e' = {[ f ]} ∪ locks_ e /\
      fds (eview e) !! lk_fd lk = None /\
      exists d, fds (eview e') = <[lk_fd lk := d]> (fds (eview e)) /\ fd_node d ∈ locks (eview e')
  | None => ok st = false /\ locks_ e' = locks_ e /\ fds (eview e') = fds (eview e)
  end.
Proof.
  destruct lock_flags as (H6 & H9 & H10). unfold PosixEnv_LockFile, sys at 1.
  destruct (sys_open _ _ _ (kernel e)) as [fd k1] eqn:E1. destruct (Z.ltb_spec fd 0) as [Hr|Hr].
  { apply (open_fail (view := view)) in E1; [|done]. intros [= <- <- <-]. rewrite PosixError_not_ok.
    unfold PosixEnv.eview. cbn. by rewrite E1. }
  apply (open_creat (view := view)) in E1 as (Hn & i & c & _ & Hv1); [|done..]. fold (eview e) in Hn, Hv1.
  assert (forall k r k', fds (view k) = fds (view k1) -> sys_close fd k = (r, k') -> fds (view k') = fds (eview e)) as Hclose.
  { intros k r k' Hk Hc. apply (close_view (view := view)) in Hc. rewrite Hc. cbn. rewrite Hk, Hv1. cbn. by rewrite delete_insert_id. }
  unfold LockTable_Insert. cbn [locks_ set_kernel]. destruct (decide (f ∈ locks_ e)) as [Hin|Hin]; cbn [negb].
  { unfold sys. cbn [kernel set_kernel]. destruct (sys_close fd k1) as [r k2] eqn:E2. intros [= <- <- <-].
    split_and!; [done|done|]. by apply (Hclose _ _ _ eq_refl) in E2. }
  unfold LockOrUnlock, sys. cbn [kernel set_kernel set_locked]. destruct (sys_setlk fd true _) as [r k2] eqn:E2.
  pose proof (set_errno_view (view := view) 0 k1) as He.
  destruct (Z.eqb_spec r (-1)) as [Hr2|Hr2].
  - apply (setlk_fail (view := view)) in E2; [|done]. rewrite He in E2. cbn [kernel set_kernel set_locked].
    destruct (sys_close fd k2) as [x k3] eqn:E3. intros [= <- <- <-].
    rewrite PosixError_not_ok. split_and!; [done|cbn; set_solver|]. apply (Hclose k2) in E3; [done|by rewrite E2].
  - apply (setlk_ok (view := view)) in E2 as (ds & Hds & Hv2); [|done]. rewrite He in Hds, Hv2. intros [= <- <- <-]. cbn [lk_fd lk_filename].
    rewrite Hv1 in Hds. cbn in Hds. rewrite lookup_insert_eq in Hds. injection Hds as <-. split_and!; [done..|].
    eexists. unfold PosixEnv.eview. cbn. rewrite Hv2, Hv1. cbn. split; [done|]. cbn. set_solver.
Qed.

(** [UnlockFile] of a lock whose descriptor is open. *)
Lemma UnlockFile_spec l e st e' : PosixEnv_UnlockFile l e = (st, e') ->
  if ok st then locks_ e' = locks_ e ∖ {[ lk_filename l ]} /\ fds (eview e') = delete (lk_fd l) (fds (eview e))
  else locks_ e' = locks_ e /\ fds (eview e') = fds (eview e).
Proof.
  unfold PosixEnv_UnlockFile, LockOrUnlock, sys. cbn [kernel set_kernel].
  destruct (sys_setlk (lk_fd l) false _) as [r k1] eqn:E1. pose proof (set_errno_view (view := view) 0 (kernel e)) as He.
  destruct (Z.eqb_spec r (-1)) as [Hr|Hr].
  - apply (setlk_fail (view := view)) in E1; [|done]. intros [= <- <-]. rewrite PosixError_not_ok. unfold PosixEnv.eview. cbn. by rewrite E1, He.
  - apply (setlk_ok (view := view)) in E1 as (ds & _ & Hv1); [|done]. unfold LockTable_Remove. cbn [kernel set_kernel set_locked locks_].
    destruct (sys_close (lk_fd l) k1) as [x k2] eqn:E2. apply (close_view (view := view)) in E2. intros [= <- <-].
    change (ok OK) with true. cbn iota. unfold PosixEnv.eview. cbn. rewrite E2. cbn. by rewrite Hv1, He.
Qed.

(** One call on the environment, with the locks the process holds: the lock
    objects given out and not yet released. *)
Inductive lock_step : PosixEnv K * list PosixFileLock -> PosixEnv K * list PosixFileLock -> Prop :=
  | lock_call f e st l e' held : PosixEnv_LockFile f e = (st, l, e') ->
      lock_step (e, held) (e', option_list l ++ held)
  | unlock_call l e st e' held1 held2 : PosixEnv_UnlockFile l e = (st, e') ->
      lock_step (e, held1 ++ l :: held2) (e', held1 ++ (if ok st then [] else [l]) ++ held2).

(** The table lists the held locks, each with a descriptor of its own. *)
Record lock_inv (fds0 : gmap Z FileDesc) (s : PosixEnv K * list PosixFileLock) : Prop := {
  li_names : NoDup (lk_filename <$> s.2);
  li_table : forall f, f ∈ locks_ s.1 <-> f ∈ lk_filename <$> s.2;
  li_fds : NoDup (lk_fd <$> s.2);
  li_new : Forall (fun l => fds0 !! lk_fd l = None) s.2;
  li_open : dom (fds (eview s.1)) = dom fds0 ∪ list_to_set (lk_fd <$> s.2);
}.

Lemma lock_step_inv fds0 s s' : lock_step s s' -> lock_inv fds0 s -> lock_inv fds0 s'.
Proof.
  intros [f e st l e' held E|l e st e' held1 held2 E] [Hn Ht Hf Hnew Ho]; cbn [fst snd] in *.
  - apply LockFile_spec in E. destruct l as [lk|]; cbn [option_list app].
    + destruct E as (_ & <- & Hin & Hl & Hnone & d & Hfd & _). apply not_elem_of_dom in Hnone. rewrite Ho in Hnone.
      split; cbn [fst snd fmap list_fmap].
      * apply NoDup_cons. split; [by rewrite <- Ht|done].
      * intros g. rewrite Hl. set_solver.
      * apply NoDup_cons. split; [set_solver|done].
      * constructor; [apply not_elem_of_dom; set_solver|done].
      * rewrite Hfd, dom_insert_L, Ho. set_solver.
    + destruct E as (_ & Hl & Hfd). split; cbn; [done|by rewrite Hl|done|done|by rewrite Hfd].
  - apply UnlockFile_spec in E. destruct (ok st); cbn [app].
    2:{ destruct E as [Hl Hfd]. split; cbn [fst snd]; [done|by rewrite Hl|done|done|by rewrite Hfd]. }
    destruct E as [Hl Hfd]. rewrite fmap_app in Hn. rewrite fmap_app in Hf. cbn in Hn, Hf.
    apply NoDup_app in Hn as (Hn1 & Hn2 & Hn3). apply NoDup_app in Hf as (Hf1 & Hf2 & Hf3).
    apply NoDup_cons in Hn3 as [Hn3 Hn4], Hf3 as [Hf3 Hf4].
    apply Forall_app in Hnew as [Hw1 [Hw2 Hw3]%Forall_cons]. apply not_elem_of_dom in Hw2.
    setoid_rewrite fmap_app in Ht. rewrite fmap_app in Ho. split; cbn [fst snd]; rewrite ?fmap_app.
    + apply NoDup_app. split_and!; [done| |done]. set_solver.
    + intros g. rewrite Hl. specialize (Ht g). cbn in Ht. set_solver.
    + apply NoDup_app. split_and!; [done| |done]. set_solver.
    + by apply Forall_app.
    + rewrite Hfd, dom_delete_L, Ho. cbn. set_solver.
Qed.

(** C27: within the process file locks exclude each other.  Starting from an
    environment that holds none, after any sequence of [LockFile] and
    [UnlockFile] calls, whichever system calls fail, no file name is locked
    twice, the table holds exactly the names of the locks given out, and
    exactly these locks keep descriptors open. *)
Theorem PosixEnv_locks_exclusive (e0 e : PosixEnv K) (held : list PosixFileLock) :
  locks_ e0 = ∅ -> rtc lock_step (e0, []) (e, held) ->
  NoDup (lk_filename <$> held) /\ (forall f, f ∈ locks_ e <-> f ∈ lk_filename <$> held) /\
  NoDup (lk_fd <$> held) /\ dom (fds (eview e)) = dom (fds (eview e0)) ∪ list_to_set (lk_fd <$> held).
Proof.
  intros H0 Hs. assert (lock_inv (fds (eview e0)) (e, held)) as [Hn Ht Hf _ Ho].
  { assert (lock_inv (fds (eview e0)) (e0, [])) as Hi
      by (split; cbn; [apply NoDup_nil_2|rewrite H0; set_solver|apply NoDup_nil_2|constructor|set_solver]).
    revert Hi. induction Hs as [|s1 s2 s3 Hs _ IH]; [done|]. intros Hi. by apply IH, (lock_step_inv _ s1). }
  done.
Qed.

(** C35: a second [LockFile] of a file the process has locked fails, as it must,
    but the close of its temporary descriptor makes the kernel drop the record
    lock of the first, which still counts as held: other processes are no
    longer kept out. *)
Theorem LockFile_again_drops_lock (f : bytes) (e : PosixEnv K) (i : Z) :
  path_ok f -> f ∈ locks_ e -> dir (eview e) !! f = Some i -> i ∈ locks (eview e) ->
  0 <= (sys_open f (Z.lor (Z.lor O_RDWR O_CREAT) kOpenBaseFlags) 420 (kernel e)).1 ->
  let '(st, l, e') := PosixEnv_LockFile f e in
  ok st = false /\ l = None /\ f ∈ locks_ e' /\ i ∉ locks (eview e').
Proof.
  intros Hf Hin Hd Hi. destruct lock_flags as (H6 & _). unfold PosixEnv_LockFile, sys at 1. rewrite Hf.
  destruct (sys_open _ _ _ (kernel e)) as [fd k1] eqn:E1. cbn [fst]. intros Hr.
  rewrite (proj2 (Z.ltb_ge _ _)) by done. apply (open_creat (view := view)) in E1 as (Hn & j & c & Hj & Hv1); [|done..].
  fold (eview e) in Hj, Hv1. assert (j = i) as -> by (destruct Hj as [[]|[]]; congruence).
  unfold LockTable_Insert. cbn [locks_ set_kernel]. rewrite decide_True by done. cbn [negb]. unfold sys. cbn [kernel set_kernel].
  destruct (sys_close fd k1) as [r k2] eqn:E2. apply (close_view (view := view)) in E2. rewrite Hv1 in E2.
  split_and!; [done..|]. unfold PosixEnv.eview. cbn. rewrite E2. cbn. rewrite lookup_insert_eq. cbn. set_solver.
Qed.

End lock_facts.

(** * Switching CURRENT *)

Section current.
Context {cfg : PosixConfig} {K : Type} `{!Kernel K} {view : K -> FsView} `{!KernelOk K view}.

(** C21: switching CURRENT on [PosixEnv], down to the system calls: whichever of
    the opens, writes, syncs, closes, renames and unlinks fail or are
    interrupted, CURRENT on disk afterwards names the new descriptor (exactly
    when [SetCurrentFile] reports success) or is what it was before, and every
    other file but the temporary one is untouched. *)
Theorem PosixEnv_switches_current (db g : bytes) (n : Z) (e : PosixEnv K) :
  0 <= n < 2 ^ 64 -> path_ok (TempFileName db n) -> path_ok (CurrentFileName db) ->
  view_ok (view (kernel e)) ->
  let '(s, e') := SetCurrentFile db n e in
  let fs := vfiles (view (kernel e)) in
  let fs' := vfiles (view (kernel e')) in
  (ok s = true -> fs' !! CurrentFileName db = Some (str "MANIFEST-" ++ print_u64_06 n ++ newline)) /\
  (ok s = false -> fs' !! CurrentFileName db = fs !! CurrentFileName db) /\
  (g <> CurrentFileName db -> g <> TempFileName db n -> fs' !! g = fs !! g) /\
  view_ok (view (kernel e')).
Proof.
  intros Hn Ht Hc Hv.
  pose proof (SetCurrentFile_spec (files := env_files (view := view)) db g n e Hn Ht Hc I Hv) as H.
  destruct (SetCurrentFile db n e) as [s e']. destruct H as (H1 & H2 & H3 & H4).
  split_and!; [by intros [? _]%H1|intros Hs; destruct (H2 Hs); tauto|intros Ha Hb; destruct (H3 Ha Hb); tauto|done].
Qed.

End current.

(** * Witnesses *)

Module TestEnv.

#[local] Instance config : PosixConfig := TestFiles.config.

Definition db : bytes := bytes_of_string "d".

(** CURRENT exists; the calls end as planned. *)
Definition current_env (pl : list MemKernel.outcome) : PosixEnv MemKernel.Mem :=
  mkPosixEnv
    {| MemKernel.mdir := {[ CurrentFileName db := 1 ]}; MemKernel.mnode := {[ 1 := bytes_of_string "old" ]};
       MemKernel.mfds := ∅; MemKernel.mmapped := None; MemKernel.mlocks := ∅;
       MemKernel.merrno := 0; MemKernel.plan := pl |} ∅ ∅ 1000 50.

Lemma current_view_ok pl : view_ok (MemKernel.view (kernel (current_env pl))).
Proof. split; [done|]. intros p q i; cbn; intros [<- _]%lookup_singleton_Some [<- _]%lookup_singleton_Some _. done. Qed.

(** An interrupted write, and a rename that fails. *)
Definition rename_fails : list MemKernel.outcome :=
  [MemKernel.Normal; MemKernel.Fails EINTR; MemKernel.Short 3; MemKernel.Normal; MemKernel.Normal;
   MemKernel.Normal; MemKernel.Fails 13].

Lemma PosixEnv_switches_current_witness :
  ok (SetCurrentFile db 5 (current_env rename_fails)).1 = false /\
  ok (SetCurrentFile db 5 (current_env [MemKernel.Normal; MemKernel.Fails EINTR; MemKernel.Short 3])).1 = true /\
  let '(s, e') := SetCurrentFile db 5 (current_env rename_fails) in
  let fs := vfiles (MemKernel.view (kernel (current_env rename_fails))) in
  let fs' := vfiles (MemKernel.view (kernel e')) in
  (ok s = true -> fs' !! CurrentFileName db = Some (str "MANIFEST-" ++ print_u64_06 5 ++ newline)) /\
  (ok s = false -> fs' !! CurrentFileName db = fs !! CurrentFileName db) /\
  (db <> CurrentFileName db -> db <> TempFileName db 5 -> fs' !! db = fs !! db) /\
  view_ok (MemKernel.view (kernel e')).
Proof.
  split; [vm_compute; reflexivity|]. split; [vm_compute; reflexivity|].
  exact (PosixEnv_switches_current (view := MemKernel.view) db db 5 (current_env rename_fails) ltac:(lia)
    ltac:(vm_compute; reflexivity) ltac:(vm_compute; reflexivity) (current_view_ok _)).
Defined.

Lemma NewRandomAccessFile_correct_witness :
  let e := current_env [] in
  let c := bytes_of_string "old" in
  let '(st, file, e') := PosixEnv_NewRandomAccessFile (CurrentFileName db) e in
  ok st = true /\ file = Some (PosixMmapReadableFile MemKernel.map_base 3 (CurrentFileName db)) /\
  (ok st = true -> exists h, file = Some h /\ random_ok h c (eview (view := MemKernel.view) e') /\
     same_resources (view := MemKernel.view) e (delete_random h e')) /\
  (ok st = false -> file = None /\ same_resources (view := MemKernel.view) e e').
Proof.
  intros e c. pose proof (NewRandomAccessFile_correct (view := MemKernel.view) (CurrentFileName db) c e eq_refl
    ltac:(vm_compute; reflexivity) ltac:(vm_compute; reflexivity) ltac:(cbn; lia) ltac:(cbn; lia)) as H.
  destruct (PosixEnv_NewRandomAccessFile (CurrentFileName db) e) as [[st file] e'] eqn:E.
  vm_compute in E. injection E as <- <- <-. split; [reflexivity|]. split; [reflexivity|]. exact H.
Defined.

(** Lock CURRENT, and try to lock it again. *)
Definition locked : PosixEnv MemKernel.Mem := (PosixEnv_LockFile (CurrentFileName db) (current_env [])).2.

Lemma PosixEnv_locks_exclusive_witness :
  let held := [{| lk_fd := 3; lk_filename := CurrentFileName db |}] in
  NoDup (lk_filename <$> held) /\ (forall f, f ∈ locks_ locked <-> f ∈ lk_filename <$> held) /\
  NoDup (lk_fd <$> held) /\
  dom (fds (eview (view := MemKernel.view) locked)) =
    dom (fds (eview (view := MemKernel.view) (current_env []))) ∪ list_to_set (lk_fd <$> held).
Proof.
  intros held. apply (PosixEnv_locks_exclusive (view := MemKernel.view) (current_env []) locked held); [reflexivity|].
  apply rtc_once. apply (lock_call (CurrentFileName db) (current_env []) OK
    (Some {| lk_fd := 3; lk_filename := CurrentFileName db |}) locked []). vm_compute. reflexivity.
Defined.

Lemma LockFile_again_drops_lock_witness :
  1 ∈ locks (eview (view := MemKernel.view) locked) /\
  let '(st, l, e') := PosixEnv_LockFile (CurrentFileName db) locked in
  ok st = false /\ l = None /\ CurrentFileName db ∈ locks_ e' /\ 1 ∉ locks (eview (view := MemKernel.view) e').
Proof.
  assert (1 ∈ locks (eview (view := MemKernel.view) locked)) as Hl by (vm_compute; reflexivity).
  split; [exact Hl|].
  apply (LockFile_again_drops_lock (view := MemKernel.view) (CurrentFileName db) locked 1 eq_refl).
  - vm_compute; reflexivity.
  - vm_compute. reflexivity.
  - exact Hl.
  - vm_compute. discriminate.
Defined.

End TestEnv.
