(* ===== verification/PosixRandom.v ===== *)
(** [PosixEnv] as an environment of random access files: any number of them
    open at a time, mapped, with a descriptor of their own or reopened at every
    read, each reading its file until it is deleted, and none disturbing the
    others.  With this instance the table cache runs on [PosixEnv]. *)

From S2P Require Import Prelude Status Env FileSystem Kernel PosixFile PosixEnv.

Section random.
Context {cfg : PosixConfig} {K : Type} `{!Kernel K} {view : K -> FsView} `{!KernelOk K view} `{!FullReads K view}.
(** The names of the files of interest; none of them is a directory. *)
Context (names : bytes -> Prop) (Hnames : forall f, names f -> path_ok f).
(** The descriptors, mappings and free slots without the random access files. *)
Context (fds0 : gmap Z FileDesc) (maps0 : gmap Z (Z * Z)) (fd_free mmap_free : Z) (Hfree : fd_free < 2 ^ 31 /\ mmap_free < 2 ^ 31).
Implicit Types (e : PosixEnv K) (p : list (PosixRandomFile * bytes)) (fs : bytes -> option bytes).
Notation eview := (eview (view := view)).

(** The interface on the operations of [PosixEnv]; callers pass an empty
    [Slice] as the result. *)
#[export] Instance posix_random_files : RandomAccessFileOps PosixRandomFile (PosixEnv K) := {
  ReadAt f offset n scratch e :=
    let '(st, r, k) := RandomFile_Read f offset n scratch (0, []) (kernel e) in ((st, r), set_kernel k e);
}.

#[export] Instance posix_random_env : RandomAccessEnv PosixRandomFile (PosixEnv K) := {
  NewRandomAccessFile f e := PosixEnv_NewRandomAccessFile f e;
  delete_random_access f e := (tt, delete_random f e);
}.

(** ** The state *)

Definition fd_of (hc : PosixRandomFile * bytes) : option Z :=
  match hc.1 with PosixRandomAccessFile true fd _ => Some fd | _ => None end.
Definition base_of (hc : PosixRandomFile * bytes) : option Z :=
  match hc.1 with PosixMmapReadableFile base _ _ => Some base | _ => None end.

(** [m] is [m0] with other values at the keys [ks], which [m0] does not have. *)
Definition adds {V} (m0 : gmap Z V) (ks : list Z) (m : gmap Z V) : Prop :=
  (forall k, k ∉ ks -> m !! k = m0 !! k) /\ forall k, k ∈ ks -> m0 !! k = None.

Record posix_opens fs e p : Prop := {
  po_files f : names f -> vfiles (eview e) !! f = fs f;
  po_plain f i : names f -> dir (eview e) !! f = Some i -> is_Some (node (eview e) !! i);
  po_small f c : names f -> fs f = Some c -> blen c < 2 ^ 64;
  po_reads : Forall (fun hc => random_ok hc.1 hc.2 (eview e)) p;
  po_fds : NoDup (omap fd_of p);
  po_maps : NoDup (omap base_of p);
  po_fd_limit : -2 ^ 31 < fd_limiter_ e /\ fd_limiter_ e + blen (omap fd_of p) = fd_free;
  po_mmap_limit : -2 ^ 31 < mmap_limiter_ e /\ mmap_limiter_ e + blen (omap base_of p) = mmap_free;
  po_all_fds : adds fds0 (omap fd_of p) (fds (eview e));
  po_all_maps : adds maps0 (omap base_of p) (maps (eview e));
}.

#[local] Instance adds_proper {V} (m0 : gmap Z V) : Proper ((≡ₚ) ==> (=) ==> iff) (adds m0).
Proof. intros ks ks' Hk m ? <-. unfold adds. by setoid_rewrite Hk. Qed.

Lemma adds_insert {V} (m0 : gmap Z V) k ks m m' : adds m0 ks m -> m = delete k m' -> k ∉ ks -> adds m0 (k :: ks) m'.
Proof.
  intros [H1 H2] -> Hk. split.
  - intros x [Hne Hx]%not_elem_of_cons. rewrite <- (H1 x Hx). by rewrite lookup_delete_ne.
  - intros x [->|Hx]%elem_of_cons; [|by apply H2]. by rewrite <- (H1 k Hk), lookup_delete_eq.
Qed.

Lemma adds_delete {V} (m0 : gmap Z V) k ks m : adds m0 (k :: ks) m -> adds m0 ks (delete k m).
Proof.
  intros [H1 H2]. split; [|intros x Hx; apply H2; by right]. intros x Hx. destruct (decide (x = k)) as [->|Hne].
  - rewrite lookup_delete_eq. symmetry. apply H2. by left.
  - rewrite lookup_delete_ne by done. apply H1. by apply not_elem_of_cons.
Qed.

Lemma adds_nil {V} (m0 m : gmap Z V) : adds m0 [] m -> m = m0.
Proof. intros [H1 _]. apply map_eq. intros k. apply H1, not_elem_of_nil. Qed.

Lemma random_ok_same_content h c c' v : random_ok h c v -> random_ok h c' v -> c = c'.
Proof.
  unfold random_ok, open_on. destruct h as [[] fd name|base len name].
  - intros (ds & Hd & Hc) (ds' & Hd' & Hc'). congruence.
  - intros (i & Hd & Hc) (i' & Hd' & Hc'). congruence.
  - intros (_ & _ & i & Hd & Hc & _) (_ & _ & i' & Hd' & Hc' & _). congruence.
Qed.

(** Nothing depends on more than the files, the descriptors, the mappings and
    the limiters. *)
Lemma posix_opens_same fs e e' p : same_resources (view := view) e e' -> posix_opens fs e p -> posix_opens fs e' p.
Proof.
  intros (Hs & Hm & Hf) [H1 H2 H3 H4 H5 H6 H7 H8 H9 H10]. pose proof Hs as (Hd & Hma & Hn & Hfd).
  split; rewrite ?Hm, ?Hf, ?Hfd, ?Hma; try done.
  - intros f Hf'. rewrite <- (H1 f Hf'). by rewrite (vfiles_same (eview e) (eview e')).
  - intros f i. rewrite Hd, Hn. apply H2.
  - eapply Forall_impl; [exact H4|]. intros hc. by apply random_ok_same.
Qed.

(** ** Opening and deleting *)

Ltac side := first [by right|by left].

(** Another object is not affected by the resources that [h] takes. *)
Lemma random_ok_other h c e e' h' c' : random_ok h c (eview e') -> same_resources (view := view) e (delete_random h e') ->
  random_ok h' c' (eview e) -> random_ok h' c' (eview e') /\
  (fd_of (h', c') <> fd_of (h, c) \/ fd_of (h', c') = None) /\ (base_of (h', c') <> base_of (h, c) \/ base_of (h', c') = None).
Proof.
  intros Hh [(Hd & Hm & Hn & Hf) _]. unfold delete_random, RandomFile_delete in *. destruct h as [[] fd name|base len name].
  - destruct (sys_close fd (kernel e')) as [r k] eqn:E. apply (close_view (view := view)) in E. unfold PosixEnv.eview in *.
    cbn in *. rewrite E in *. cbn in *. destruct h' as [[] fd' name'|base' len' name']; cbn.
    + intros (ds & Hds & Hc'). rewrite <- Hf in Hds. rewrite lookup_delete_Some in Hds. destruct Hds as [Hne Hds].
      split_and!; [|left; congruence|side]. exists ds. split; [done|]. by rewrite Hn.
    + intros (i & Hi & Hc'). split_and!; [|side|side]. exists i. by rewrite Hd, Hn.
    + intros (Hb & Hbl & i & Hi & Hc' & ->). split_and!; [done|done| |side|side]. exists i. by rewrite Hm, Hn.
  - cbn in *. unfold PosixEnv.eview in *. cbn in *. intros Hok. split_and!; [|destruct h' as [[] ??|]; side..].
    eapply random_ok_same; [|exact Hok]. done.
  - destruct Hh as (_ & _ & j & Hj & _). cbn in *. unfold PosixEnv.eview in *. cbn in *.
    rewrite (munmap_view (view := view) _ j) in * by done. cbn in *.
    destruct h' as [[] fd' name'|base' len' name']; cbn.
    + intros (ds & Hds & Hc'). split_and!; [|side|side]. exists ds. split; [by rewrite Hf|by rewrite Hn].
    + intros (i & Hi & Hc'). split_and!; [|side|side]. exists i. by rewrite Hd, Hn.
    + intros (Hb & Hbl & i & Hi & Hc' & ->). rewrite <- Hm in Hi. apply lookup_delete_Some in Hi as [Hne Hi].
      split_and!; [done|done| |side|left; congruence]. exists i. by rewrite Hn.
Qed.

(** What deleting [h] does to the kernel's tables. *)
Definition without {V} (k : option Z) (m : gmap Z V) : gmap Z V := match k with Some k => delete k m | None => m end.

Lemma delete_random_view h c e : random_ok h c (eview e) -> let v := eview (delete_random h e) in
  dir v = dir (eview e) /\ node v = node (eview e) /\
  fds v = without (fd_of (h, c)) (fds (eview e)) /\ maps v = without (base_of (h, c)) (maps (eview e)).
Proof.
  intros Hh. cbn zeta. unfold delete_random, RandomFile_delete, PosixEnv.eview in *.
  destruct h as [[] fd name|base len name]; cbn; [|done|].
  2:{ destruct Hh as (_ & _ & j & Hj & _). by rewrite (munmap_view (view := view) _ j). }
  destruct (sys_close fd (kernel e)) as [r k] eqn:E. apply (close_view (view := view)) in E. cbn. by rewrite E.
Qed.

Lemma adds_cons {V} (m0 : gmap Z V) (g : PosixRandomFile * bytes -> option Z) hc p m m' : adds m0 (omap g p) m ->
  m = without (g hc) m' -> (forall hc', hc' ∈ p -> g hc' <> g hc \/ g hc' = None) -> adds m0 (omap g (hc :: p)) m'.
Proof.
  intros Ha Hm Hp. cbn. destruct (g hc) as [k|] eqn:E; cbn in Hm; [|by subst]. apply (adds_insert _ _ _ m); [done|done|].
  rewrite list_elem_of_omap. intros (hc' & Hin & Hx). destruct (Hp hc' Hin); congruence.
Qed.

Lemma adds_tail {V} (m0 : gmap Z V) (g : PosixRandomFile * bytes -> option Z) hc p m : adds m0 (omap g (hc :: p)) m ->
  adds m0 (omap g p) (without (g hc) m).
Proof. cbn. destruct (g hc); cbn; [apply adds_delete|done]. Qed.

Lemma NoDup_omap_cons {X} (g : PosixRandomFile * bytes -> option X) hc p : NoDup (omap g p) ->
  (forall hc', hc' ∈ p -> g hc' <> g hc \/ g hc' = None) -> NoDup (omap g (hc :: p)).
Proof.
  intros Hnd Hp. cbn. destruct (g hc) as [x|] eqn:E; [|done]. constructor; [|done]. rewrite list_elem_of_omap.
  intros (hc' & Hin & Hx). destruct (Hp hc' Hin); congruence.
Qed.

Lemma blen_omap_cons {X} (g : PosixRandomFile * bytes -> option X) hc p n :
  n = (match g hc with Some _ => 1 | None => 0 end) -> blen (omap g (hc :: p)) = n + blen (omap g p).
Proof. intros ->. cbn. destruct (g hc); [by rewrite blen_cons|done]. Qed.

Lemma posix_open fs e p f : names f -> posix_opens fs e p ->
  let '((st, r), e') := NewRandomAccessFile f e in
  match r with
  | Some h => ok st = true /\ exists c, fs f = Some c /\ posix_opens fs e' ((h, c) :: p)
  | None => ok st = false /\ posix_opens fs e' p
  end.
Proof.
  intros Hf Ho. pose proof Ho as [H1 H2 H3 H4 H5 H6 H7 H8 H9 H10]. cbn. destruct (fs f) as [c|] eqn:Hc.
  - pose proof (NewRandomAccessFile_spec (view := view) f c e (Hnames f Hf) ltac:(by rewrite H1) (H3 f c Hf Hc)
      ltac:(pose proof (blen_nonneg (omap base_of p)); lia) ltac:(pose proof (blen_nonneg (omap fd_of p)); lia)) as Hnew.
    destruct (PosixEnv_NewRandomAccessFile f e) as [[st r] e']. destruct Hnew as [Hok Hfail].
    destruct (ok st); [|destruct (Hfail eq_refl) as [-> Hs]; split; [done|by apply (posix_opens_same fs e)]].
    destruct (Hok eq_refl) as (h & -> & Hr & Hs & (Hs1 & Hs2 & Hs3 & Hs4)). split; [done|]. exists c. split; [done|].
    assert (forall hc, hc ∈ p -> random_ok hc.1 hc.2 (eview e') /\
      (fd_of hc <> fd_of (h, c) \/ fd_of hc = None) /\ (base_of hc <> base_of (h, c) \/ base_of hc = None)) as Hother.
    { intros [h' c'] Hin. apply (random_ok_other h c e); [done|done|]. rewrite Forall_forall in H4. by apply (H4 (h', c')). }
    destruct (delete_random_view h c e' Hr) as (Hd & Hn & Hfd & Hma). destruct Hs as [(Hd0 & Hma0 & Hn0 & Hfd0) _].
    rewrite Hd0 in Hd. rewrite Hn0 in Hn. rewrite Hfd0 in Hfd. rewrite Hma0 in Hma. split.
    + intros g Hg. rewrite <- (H1 g Hg). by rewrite (vfiles_same (eview e) (eview e')).
    + intros g i. rewrite <- Hd, <- Hn. apply H2.
    + done.
    + constructor; [done|]. apply Forall_forall. intros hc Hin. by apply Hother.
    + apply NoDup_omap_cons; [done|]. intros hc Hin. by apply Hother.
    + apply NoDup_omap_cons; [done|]. intros hc Hin. by apply Hother.
    + rewrite (blen_omap_cons fd_of (h, c) p (fd_slots h)) by (by destruct h as [[] ??|]). rewrite Hs1. split; [|lia].
      destruct h as [[] ??|]; cbn [fd_slots] in *; lia.
    + rewrite (blen_omap_cons base_of (h, c) p (mmap_slots h)) by (by destruct h as [[] ??|]). rewrite Hs3. split; [|lia].
      destruct h as [[] ??|]; cbn [mmap_slots] in *; lia.
    + apply (adds_cons _ _ (h, c) p (fds (eview e))); [done|done|]. intros hc Hin. by apply Hother.
    + apply (adds_cons _ _ (h, c) p (maps (eview e))); [done|done|]. intros hc Hin. by apply Hother.
  - assert (dir (eview e) !! f = None) as Hd.
    { destruct (dir (eview e) !! f) as [i|] eqn:Hi; [|done]. destruct (H2 f i Hf Hi) as [c Hn]. rewrite <- (H1 f Hf), vfiles_lookup, Hi in Hc.
      cbn in Hc. congruence. }
    pose proof (NewRandomAccessFile_absent (view := view) f e (Hnames f Hf) Hd) as Hnew.
    destruct (PosixEnv_NewRandomAccessFile f e) as [[st r] e']. destruct Hnew as (Hok & -> & Hs). split; [done|]. by apply (posix_opens_same fs e).
Qed.

(** What deleting [h] leaves to the others. *)
Lemma random_ok_delete h c e h' c' : random_ok h c (eview e) -> random_ok h' c' (eview e) ->
  (fd_of (h', c') <> fd_of (h, c) \/ fd_of (h', c') = None) -> (base_of (h', c') <> base_of (h, c) \/ base_of (h', c') = None) ->
  random_ok h' c' (eview (delete_random h e)).
Proof.
  intros Hh Hok Hfd Hb. unfold delete_random, RandomFile_delete, PosixEnv.eview in *.
  destruct h as [[] fd name|base len name]; cbn; [|done|].
  - destruct (sys_close fd (kernel e)) as [r k] eqn:E. apply (close_view (view := view)) in E. cbn. rewrite E.
    destruct h' as [[] fd' name'|base' len' name']; cbn in *; try done. destruct Hok as (ds & Hds & Hc').
    exists ds. split; [|done]. cbn. rewrite lookup_delete_ne; [done|]. destruct Hfd; congruence.
  - destruct Hh as (_ & _ & j & Hj & _). rewrite (munmap_view (view := view) _ j) by done. destruct h' as [[] fd' name'|base' len' name']; cbn in *; try done.
    destruct Hok as (Hb0 & Hbl & i & Hi & Hrest). split_and!; [done..|]. exists i. split; [|done]. rewrite lookup_delete_ne; [done|]. destruct Hb; congruence.
Qed.

Lemma NoDup_omap_head {X} (g : PosixRandomFile * bytes -> option X) hc p hc' : NoDup (omap g (hc :: p)) -> hc' ∈ p ->
  g hc' <> g hc \/ g hc' = None.
Proof.
  cbn. destruct (g hc') as [x|] eqn:E; [|by right]. intros Hnd Hin. left. intros Hx. rewrite <- Hx in Hnd.
  apply NoDup_cons in Hnd as [Hno _]. apply Hno. apply list_elem_of_omap. by exists hc'.
Qed.

Lemma NoDup_omap_tail {X} (g : PosixRandomFile * bytes -> option X) hc p : NoDup (omap g (hc :: p)) -> NoDup (omap g p).
Proof. cbn. destruct (g hc); [by intros [_ ?]%NoDup_cons|done]. Qed.

Lemma posix_delete fs e p h c : posix_opens fs e ((h, c) :: p) -> posix_opens fs (delete_random h e) p.
Proof.
  intros [H1 H2 H3 H4 H5 H6 H7 H8 H9 H10]. apply Forall_cons in H4 as [Hh H4].
  rewrite (blen_omap_cons fd_of (h, c) p (fd_slots h)) in H7 by (by destruct h as [[] ??|]).
  rewrite (blen_omap_cons base_of (h, c) p (mmap_slots h)) in H8 by (by destruct h as [[] ??|]).
  pose proof (blen_nonneg (omap fd_of p)). pose proof (blen_nonneg (omap base_of p)).
  destruct (delete_random_view h c e Hh) as (Hd & Hn & Hfd & Hma).
  assert (Hlim : fd_limiter_ (delete_random h e) = fd_limiter_ e + fd_slots h /\
    mmap_limiter_ (delete_random h e) = mmap_limiter_ e + mmap_slots h).
  { unfold delete_random, RandomFile_delete. destruct h as [[] fd name|base len name]; cbn [fd_slots mmap_slots] in *; cbn;
      rewrite ?Limiter_Release_spec by lia; lia. }
  destruct Hlim as [Hl1 Hl2]. split.
  - intros g Hg. rewrite <- (H1 g Hg). by rewrite (vfiles_same (eview e) (eview (delete_random h e))).
  - intros g i. rewrite Hd, Hn. apply H2.
  - done.
  - apply Forall_forall. intros [h' c'] Hin. rewrite Forall_forall in H4. apply (random_ok_delete h c); [done|..].
    + by apply (H4 (h', c')).
    + by eapply NoDup_omap_head.
    + by eapply NoDup_omap_head.
  - by eapply NoDup_omap_tail.
  - by eapply NoDup_omap_tail.
  - rewrite Hl1. destruct h as [[] ??|]; cbn [fd_slots] in *; lia.
  - rewrite Hl2. destruct h as [[] ??|]; cbn [mmap_slots] in *; lia.
  - rewrite Hfd. by apply adds_tail.
  - rewrite Hma. by apply adds_tail.
Qed.

(** [PosixEnv] keeps the promise of the interface. *)
#[export] Instance posix_random_ok : RandomAccessEnvOk PosixRandomFile (PosixEnv K) names posix_opens.
Proof.
  split.
  - intros fs e p q Hpq [H1 H2 H3 H4 H5 H6 H7 H8 H9 H10].
    assert (forall X (g : PosixRandomFile * bytes -> option X), omap g p ≡ₚ omap g q) as Ho by (intros X g; by rewrite Hpq).
    split; try done; [by rewrite <- Hpq|by rewrite <- Ho|by rewrite <- Ho|unfold blen in *; by rewrite <- Ho..|by rewrite <- Ho|by rewrite <- Ho].
  - intros fs e p h c c' Ho Hc Hc'. pose proof (po_reads _ _ _ Ho) as Hr. rewrite Forall_forall in Hr.
    by apply (random_ok_same_content h c c' (eview e)); [apply (Hr (h, c))|apply (Hr (h, c'))].
  - intros fs e p f. apply posix_open.
  - intros fs e p h c. apply posix_delete.
  - intros fs e p h c offset n scratch Ho Hin H1 H2 H3. cbn. pose proof (po_reads _ _ _ Ho) as Hr. rewrite Forall_forall in Hr.
    specialize (Hr _ Hin). cbn in Hr. destruct (RandomFile_Read h offset n scratch (0, []) (kernel e)) as [[st [a d]] k] eqn:E.
    destruct h as [perm fd name|base len name]; cbn [RandomFile_Read] in E.
    + assert (0 <= offset < 2 ^ 64) as Hoff by lia.
      apply (RandomAccessFile_Read_spec (view := view) _ _ _ c) in E as [Hsame Hd]; [|done..]. split; [|done].
      by apply (posix_opens_same fs e); [apply same_resources_intro|].
    + apply (MmapReadableFile_Read_spec (view := view) _ _ _ c) in E as (-> & _ & Hd); [|done..]. split; [|done].
      apply (posix_opens_same fs e); [|done]. by apply same_resources_intro; [apply same_files_eq|..].
Qed.
End random.
