(* ===== verification/PosixThreads.v ===== *)
(** The concurrent parts of [util/env_posix.cpp], as step relations: the
    [Limiter]'s atomic counter under any interleaving of threads, and
    [PosixEnv]'s background work queue with its mutex and condition variable.
    Every access to shared state is a step of its own. *)

From S2P Require Import Prelude FileSystem Kernel PosixFile PosixEnv.

(** * [Limiter] *)

Module Limiter.

(** A thread: how many slots it holds, and whether it is between the
    [fetch_sub] and the [fetch_add] of an [Acquire] that found none. *)
Record thread := mkThread { holding : nat; backing_out : bool }.

Record limiter_state := mkState { acquires_allowed_ : Z; threads : list thread }.

Definition limiter_init (max_acquires : Z) (n : nat) : limiter_state :=
  mkState max_acquires (replicate n (mkThread 0 false)).

Definition update (s : limiter_state) (allowed : Z) (t : nat) (x : thread) : limiter_state :=
  mkState allowed (<[t := x]> (threads s)).

Inductive limiter_step : limiter_state -> limiter_state -> Prop :=
  (** [fetch_sub] returned a positive value: [Acquire] returns true. *)
  | acquire_true s t h : threads s !! t = Some (mkThread h false) -> 0 < acquires_allowed_ s ->
      limiter_step s (update s (s32 (acquires_allowed_ s - 1)) t (mkThread (S h) false))
  (** [fetch_sub] returned zero or less. *)
  | acquire_sub s t h : threads s !! t = Some (mkThread h false) -> acquires_allowed_ s <= 0 ->
      limiter_step s (update s (s32 (acquires_allowed_ s - 1)) t (mkThread h true))
  (** The [fetch_add], and [Acquire] returns false. *)
  | acquire_false s t h : threads s !! t = Some (mkThread h true) ->
      limiter_step s (update s (s32 (acquires_allowed_ s + 1)) t (mkThread h false))
  | release s t h : threads s !! t = Some (mkThread (S h) false) ->
      limiter_step s (update s (s32 (acquires_allowed_ s + 1)) t (mkThread h false)).

Definition held (s : limiter_state) : Z := Z.of_nat (sum_list_with holding (threads s)).

Definition backs (x : thread) : nat := if backing_out x then 1 else 0.

Definition backing (s : limiter_state) : Z := Z.of_nat (sum_list_with backs (threads s)).

Lemma sum_list_with_insert {A} (f : A -> nat) (l : list A) i x y : l !! i = Some x ->
  (sum_list_with f (<[i := y]> l) + f x = sum_list_with f l + f y)%nat.
Proof.
  revert i. induction l as [|z l IH]; intros [|i] H; [done..|injection H as ->; cbn; lia|].
  change (<[S i := y]> (z :: l)) with (z :: <[i := y]> l). cbn [sum_list_with]. specialize (IH i H). lia.
Qed.

Lemma backing_le s : backing s <= blen (threads s).
Proof.
  unfold backing, blen. induction (threads s) as [|[h []] l IH]; cbn; lia.
Qed.

(** The counter is what is free, less the threads that back out. *)
Record limiter_inv (max : Z) (n : nat) (s : limiter_state) : Prop := {
  inv_threads : length (threads s) = n;
  inv_counter : acquires_allowed_ s = max - held s - backing s;
  inv_held : held s <= Z.max 0 max;
}.

Lemma limiter_step_inv max n s s' : 0 <= max < 2 ^ 31 -> Z.of_nat n < 2 ^ 31 -> limiter_step s s' -> limiter_inv max n s -> limiter_inv max n s'.
Proof.
  intros Hmax Hn Hs [Ht Hc Hh]. pose proof (backing_le s) as Hb.
  assert (forall x, 0 <= held x /\ 0 <= backing x) as H0 by (intros x; unfold held, backing; lia).
  unfold blen in Hb. rewrite Ht in Hb.
  assert (forall t x y z, threads s !! t = Some x ->
    held (update s z t y) = held s - Z.of_nat (holding x) + Z.of_nat (holding y) /\
    backing (update s z t y) = backing s - Z.of_nat (backs x) + Z.of_nat (backs y)) as Hsum.
  { intros t x y z Hx. unfold held, backing, update. cbn [threads].
    pose proof (sum_list_with_insert holding _ _ _ y Hx).
    pose proof (sum_list_with_insert backs _ _ _ y Hx).
    lia. }
  assert (forall t y z, length (threads (update s z t y)) = n) as Hlen by (intros; cbn; by rewrite length_insert).
  destruct Hs as [s t h Hx Hp|s t h Hx Hp|s t h Hx|s t h Hx]; 
    match goal with |- limiter_inv _ _ (update _ ?z _ ?y) => destruct (Hsum _ _ y z Hx) as [H1 H2]; pose proof (H0 s); pose proof (H0 (update s z t y)) end;
    cbn [holding backs backing_out] in H1, H2;
    (split; [apply Hlen| |]); rewrite ?H1, ?H2; cbn [update acquires_allowed_]; rewrite ?s32_small; lia.
Qed.

(** Under any interleaving of the atomic operations of any number of
    threads, a [Limiter] made for [max] resources never has more than [max]
    acquired at once, and its counter is never off by more than the calls in
    progress: when no thread is in the middle of a failing [Acquire], the next
    one succeeds exactly when a resource is free. *)
Theorem Limiter_bounded (max : Z) (n : nat) (s : limiter_state) :
  0 <= max < 2 ^ 31 -> Z.of_nat n < 2 ^ 31 -> rtc limiter_step (limiter_init max n) s ->
  held s <= max /\ acquires_allowed_ s = max - held s - backing s /\
  (backing s = 0 -> (Limiter_Acquire (acquires_allowed_ s)).1 = bool_decide (held s < max)).
Proof.
  intros Hmax Hn Hs. assert (limiter_inv max n (limiter_init max n)) as H0.
  { assert (forall m, sum_list_with holding (replicate m (mkThread 0 false)) = 0%nat /\
      sum_list_with backs (replicate m (mkThread 0 false)) = 0%nat) as Hz
      by (induction m; cbn; lia).
    destruct (Hz n) as [Hz1 Hz2]. split; unfold held, backing, limiter_init; cbn; [apply length_replicate|lia..]. }
  assert (limiter_inv max n s) as [_ Hc Hh].
  { revert H0. induction Hs as [|s1 s2 s3 Hs _ IH]; [done|]. intros H1. by apply IH, (limiter_step_inv _ _ s1). }
  split_and!; [lia|done|]. intros Hb. assert (0 <= held s) by (unfold held; lia).
  rewrite Limiter_Acquire_spec by lia. destruct (Z.ltb_spec 0 (acquires_allowed_ s)); cbn [fst]; symmetry.
  - apply bool_decide_eq_true. lia.
  - apply bool_decide_eq_false. lia.
Qed.

(** Two threads race for one slot. *)
Lemma Limiter_bounded_witness :
  let s := mkState (-1) [mkThread 1 false; mkThread 0 true] in
  rtc limiter_step (limiter_init 1 2) s /\ held s <= 1 /\ acquires_allowed_ s = 1 - held s - backing s /\
  (backing s = 0 -> (Limiter_Acquire (acquires_allowed_ s)).1 = bool_decide (held s < 1)).
Proof.
  intros s. assert (rtc limiter_step (limiter_init 1 2) s) as Hs.
  { apply rtc_l with (update (limiter_init 1 2) (s32 (1 - 1)) 0 (mkThread 1 false)); [by apply acquire_true|].
    apply rtc_once. apply (acquire_sub (update (limiter_init 1 2) (s32 (1 - 1)) 0 (mkThread 1 false)) 1 0); [done|vm_compute; discriminate]. }
  split; [exact Hs|]. apply (Limiter_bounded 1 2 s); [lia|lia|exact Hs].
Defined.

End Limiter.

(** * The background work queue *)

Module BackgroundWork.

Section work.
Context {BackgroundWorkItem : Type}.

(** Where a thread is in [Schedule]: outside, holding the mutex, past the
    thread start, past the signal, past the [emplace]. *)
Inductive client :=
  | Outside | Locked (w : BackgroundWorkItem) | Started (w : BackgroundWorkItem)
  | Signalled (w : BackgroundWorkItem) | Emplaced.

(** Where the background thread is in [BackgroundThreadMain]. *)
Inductive background :=
  | NotStarted
  | ToLock                              (* before [Lock] *)
  | Checking                            (* the inner loop's test *)
  | Waiting                             (* in [Wait], mutex released *)
  | Woken                               (* in [Wait], to take the mutex again *)
  | Popped (w : BackgroundWorkItem)     (* before [Unlock] *)
  | Running (w : BackgroundWorkItem).   (* before and in the work function *)

Inductive owner := Client (t : nat) | Background.

(** [emplaced] and [ran] are histories, and [threads_started] counts the
    background threads that were started; [bg] is where the last of them is. *)
Record work_state := mkState {
  background_work_mutex_ : option owner;
  started_background_thread_ : bool;
  background_work_queue_ : list BackgroundWorkItem;
  bg : background;
  clients : list client;
  emplaced : list BackgroundWorkItem;
  ran : list BackgroundWorkItem;
  threads_started : nat;
}.

Definition work_init (n : nat) : work_state := mkState None false [] NotStarted (replicate n Outside) [] [] 0.

(** [Signal] wakes the background thread if it waits. *)
Definition Signal (b : background) : background :=
  match b with Waiting => Woken | _ => b end.

(** A step of thread [t] in [Schedule]. *)
Inductive client_step (t : nat) : work_state -> work_state -> Prop :=
  | s_lock w st q b c e r k : c !! t = Some Outside ->
      client_step t (mkState None st q b c e r k)
        (mkState (Some (Client t)) st q b (<[t := Locked w]> c) e r k)
  | s_start w m st q b c e r k : c !! t = Some (Locked w) ->
      client_step t (mkState m st q b c e r k)
        (mkState m true q (if st then b else ToLock) (<[t := Started w]> c) e r
          (if st then k else S k))
  | s_signal w m st q b c e r k : c !! t = Some (Started w) ->
      client_step t (mkState m st q b c e r k)
        (mkState m st q (match q with [] => Signal b | _ => b end) (<[t := Signalled w]> c) e r k)
  | s_emplace w m st q b c e r k : c !! t = Some (Signalled w) ->
      client_step t (mkState m st q b c e r k)
        (mkState m st (q ++ [w]) b (<[t := Emplaced]> c) (e ++ [w]) r k)
  | s_unlock m st q b c e r k : c !! t = Some Emplaced ->
      client_step t (mkState m st q b c e r k) (mkState None st q b (<[t := Outside]> c) e r k).

(** A step of [BackgroundThreadMain]. *)
Inductive background_step : work_state -> work_state -> Prop :=
  | b_lock st q c e r k :
      background_step (mkState None st q ToLock c e r k) (mkState (Some Background) st q Checking c e r k)
  | b_wait m st c e r k :
      background_step (mkState m st [] Checking c e r k) (mkState None st [] Waiting c e r k)
  | b_relock st q c e r k :
      background_step (mkState None st q Woken c e r k) (mkState (Some Background) st q Checking c e r k)
  | b_pop m st w q c e r k :
      background_step (mkState m st (w :: q) Checking c e r k) (mkState m st q (Popped w) c e r k)
  | b_unlock m st w q c e r k :
      background_step (mkState m st q (Popped w) c e r k) (mkState None st q (Running w) c e r k)
  | b_run m st w q c e r k :
      background_step (mkState m st q (Running w) c e r k) (mkState m st q ToLock c e (r ++ [w]) k).

Inductive work_step : work_state -> work_state -> Prop :=
  | step_client t s s' : client_step t s s' -> work_step s s'
  | step_background s s' : background_step s s' -> work_step s s'
  (** [Wait] may return without a signal. *)
  | step_spurious m st q c e r k : work_step (mkState m st q Waiting c e r k) (mkState m st q Woken c e r k).

(** ** The invariant *)

Definition in_hand (b : background) : list BackgroundWorkItem :=
  match b with Popped w | Running w => [w] | _ => [] end.

Definition client_critical (c : client) : bool := match c with Outside => false | _ => true end.

Definition background_critical (b : background) : bool :=
  match b with Checking | Popped _ => true | _ => false end.

Definition past_start (c : client) : bool :=
  match c with Started _ | Signalled _ | Emplaced => true | _ => false end.

Definition past_signal (c : client) : bool :=
  match c with Signalled _ | Emplaced => true | _ => false end.

Record work_inv (s : work_state) : Prop := {
  inv_clients : forall t c, clients s !! t = Some c ->
    (client_critical c = true <-> background_work_mutex_ s = Some (Client t));
  inv_owner : forall t, background_work_mutex_ s = Some (Client t) -> is_Some (clients s !! t);
  inv_background : background_critical (bg s) = true <-> background_work_mutex_ s = Some Background;
  inv_started : started_background_thread_ s = true <-> bg s <> NotStarted;
  inv_past : forall t c, clients s !! t = Some c -> past_start c = true -> bg s <> NotStarted;
  inv_order : emplaced s = ran s ++ in_hand (bg s) ++ background_work_queue_ s;
  inv_idle : bg s = NotStarted -> background_work_queue_ s = [];
  inv_threads : threads_started s = if started_background_thread_ s then 1%nat else 0%nat;
  (** No wakeup is lost. *)
  inv_waiting : bg s = Waiting -> background_work_queue_ s = [] /\
    forall t c, clients s !! t = Some c -> past_signal c = false;
}.

Lemma insert_lookup_cases {A} (l : list A) t x y i c : l !! t = Some x -> <[t := y]> l !! i = Some c ->
  i = t /\ c = y \/ i <> t /\ l !! i = Some c.
Proof.
  intros Ht. destruct (decide (t = i)) as [<-|Hne]; [|rewrite list_lookup_insert_ne by done; auto].
  rewrite list_lookup_insert_eq by (by eapply lookup_lt_Some). intros [= <-]. auto.
Qed.

Lemma client_step_inv t s s' : client_step t s s' -> work_inv s -> work_inv s'.
Proof.
  intros Hs [Hc Hown Hb Hst Hp Ho Hi Hk Hw].
  destruct Hs as [w st q b c e r k Ht|w m st q b c e r k Ht|w m st q b c e r k Ht|w m st q b c e r k Ht|m st q b c e r k Ht];
    cbn in *; pose proof (Hc _ _ Ht) as Hct; pose proof (Hp _ _ Ht) as Hpt; cbn in Hct, Hpt;
    assert (forall x i, is_Some (c !! i) -> is_Some (<[t := x]> c !! i)) as Hdom
      by (intros x i; rewrite !lookup_lt_is_Some, length_insert; done).
  - split; cbn; try done.
    + intros i x [[-> ->]|[Hne Hx]]%(insert_lookup_cases _ _ _ _ _ _ Ht); [done|]. rewrite (Hc _ _ Hx). split; congruence.
    + intros i [= <-]. apply Hdom. by eexists.
    + rewrite Hb. split; congruence.
    + intros i x [[-> ->]|[Hne Hx]]%(insert_lookup_cases _ _ _ _ _ _ Ht); [done|by apply (Hp i)].
    + intros Hbw. destruct (Hw Hbw) as [Hq Hx]. split; [done|].
      intros i x [[-> ->]|[Hne Hx']]%(insert_lookup_cases _ _ _ _ _ _ Ht); [done|by apply (Hx i)].
  - assert ((if st then b else ToLock) <> NotStarted) as Hns by (destruct st; [by apply Hst|done]).
    split; cbn; try done.
    + intros i x [[-> ->]|[Hne Hx]]%(insert_lookup_cases _ _ _ _ _ _ Ht); [by rewrite <- Hct|by apply Hc].
    + intros i Hm. apply Hdom. auto.
    + rewrite <- Hb. destruct st; [done|]. destruct b; cbn; naive_solver.
    + rewrite Ho. destruct st; [done|]. assert (b = NotStarted) as -> by (destruct b; naive_solver). done.
    + destruct st; [done|]. by rewrite Hk.
    + destruct st; [|done]. intros Hbw. destruct (Hw Hbw) as [Hq Hx]. split; [done|].
      intros i x [[-> ->]|[Hne Hx']]%(insert_lookup_cases _ _ _ _ _ _ Ht); [done|by apply (Hx i)].
  - assert (forall P : background -> Prop, P b -> (b = Waiting -> P Woken) -> P (match q with [] => Signal b | _ => b end)) as Hsig
      by (intros P H1 H2; destruct q, b; auto).
    split; cbn; try done.
    + intros i x [[-> ->]|[Hne Hx]]%(insert_lookup_cases _ _ _ _ _ _ Ht); [by rewrite <- Hct|by apply Hc].
    + intros i Hm. apply Hdom. auto.
    + apply Hsig; [done|]. by intros ->.
    + apply Hsig; [done|]. intros ->. naive_solver.
    + intros i x Hx Hps. apply Hsig; [|done]. apply (insert_lookup_cases _ _ _ _ _ _ Ht) in Hx as [[-> ->]|[Hne Hx]]; [auto|by apply (Hp i x)].
    + apply Hsig; [done|]. by intros ->.
    + apply Hsig; [done|]. done.
    + intros Hbw. exfalso. destruct q as [|w' q]; [by destruct b|]. by destruct (Hw Hbw).
  - split; cbn; try done.
    + intros i x [[-> ->]|[Hne Hx]]%(insert_lookup_cases _ _ _ _ _ _ Ht); [by rewrite <- Hct|by apply Hc].
    + intros i Hm. apply Hdom. auto.
    + intros i x [[-> ->]|[Hne Hx]]%(insert_lookup_cases _ _ _ _ _ _ Ht); [auto|by apply (Hp i)].
    + by rewrite Ho, <- !app_assoc.
    + intros ->. by destruct Hpt.
    + intros ->. destruct (Hw eq_refl) as [_ Hx]. by specialize (Hx _ _ Ht).
  - split; cbn; try done.
    + intros i x [[-> ->]|[Hne Hx]]%(insert_lookup_cases _ _ _ _ _ _ Ht); [done|]. rewrite (Hc _ _ Hx).
      destruct Hct as [Hm _]. rewrite Hm by done. split; congruence.
    + rewrite Hb. destruct Hct as [Hm _]. rewrite Hm by done. done.
    + intros i x [[-> ->]|[Hne Hx]]%(insert_lookup_cases _ _ _ _ _ _ Ht); [done|by apply (Hp i)].
    + intros Hbw. destruct (Hw Hbw) as [Hq Hx]. split; [done|].
      intros i x [[-> ->]|[Hne Hx']]%(insert_lookup_cases _ _ _ _ _ _ Ht); [done|by apply (Hx i)].
Qed.

Lemma background_step_inv s s' : background_step s s' -> work_inv s -> work_inv s'.
Proof.
  intros Hs [Hc Hown Hb Hst Hp Ho Hi Hk Hw].
  assert (forall t c, clients s !! t = Some c -> background_work_mutex_ s = Some Background -> client_critical c = false) as Hnc.
  { intros t c Ht Hm. destruct (client_critical c) eqn:E; [|done]. apply (Hc t c Ht) in E. congruence. }
  destruct Hs as [st q c e r k|m st c e r k|st q c e r k|m st w q c e r k|m st w q c e r k|m st w q c e r k]; cbn in *;
    (split; cbn; [|try done| | | |try by rewrite Ho, <- ?app_assoc|done|done|try done]);
    try (by split; [done|congruence]); try by split; intros; [done|apply Hst].
  all: try (intros t x Ht Hpx; by specialize (Hp t x Ht Hpx)); try done.
  - intros t x Ht. rewrite (Hc t x Ht). split; congruence.
  - intros t x Ht. rewrite (Hnc t x Ht) by (by apply Hb). split; congruence.
  - intros _. split; [done|]. intros t x Ht. pose proof (Hnc t x Ht (proj1 Hb eq_refl)). by destruct x.
  - intros t x Ht. rewrite (Hc t x Ht). split; congruence.
  - intros t x Ht. rewrite (Hnc t x Ht) by (by apply Hb). split; congruence.
Qed.

Lemma work_step_inv s s' : work_step s s' -> work_inv s -> work_inv s'.
Proof.
  intros [t x y Hs|x y Hs|m st q c e r k]; [by apply (client_step_inv t)|by apply background_step_inv|].
  intros [Hc Hown Hb Hst Hp Ho Hi Hk Hw]. cbn in *. split; cbn; try done. by rewrite Hst.
Qed.

Lemma init_inv n : work_inv (work_init n).
Proof.
  split; cbn; try done.
  - by intros t c [-> _]%lookup_replicate.
  - by intros t c [-> _]%lookup_replicate.
Qed.

Lemma reachable_inv n s : rtc work_step (work_init n) s -> work_inv s.
Proof.
  intros Hs. pose proof (init_inv n) as Hi. induction Hs as [|x y z Hxy _ IH]; [done|].
  by apply IH, (work_step_inv x).
Qed.

(** C23: the background queue under any interleaving of the threads that call
    [Schedule] with the background thread, spurious wakeups included: the work
    items are run in the order in which they were scheduled, each at most
    once; the items not yet run are the one in the thread's hands and those in
    the queue, in this order; the mutex has one owner; the background thread
    is started exactly once, when the first item is scheduled; and it never sleeps on a queue with work in it. *)
Theorem BackgroundWork_fifo (n : nat) (s : work_state) :
  rtc work_step (work_init n) s ->
  emplaced s = ran s ++ in_hand (bg s) ++ background_work_queue_ s /\
  (started_background_thread_ s = true <-> bg s <> NotStarted) /\
  threads_started s = (if started_background_thread_ s then 1%nat else 0%nat) /\
  (forall t c, clients s !! t = Some c -> client_critical c = true ->
     background_critical (bg s) = false /\
     forall t' c', clients s !! t' = Some c' -> client_critical c' = true -> t' = t) /\
  (bg s = Waiting -> background_work_queue_ s = []).
Proof.
  intros [Hc Hown Hb Hst Hp Ho Hi Hk Hw]%reachable_inv. split_and!; [done|done|done| |by apply Hw].
  intros t c Ht Hcr. apply (Hc _ _ Ht) in Hcr. split.
  - destruct (background_critical (bg s)); [|done]. apply proj1 in Hb. rewrite Hb in Hcr; congruence.
  - intros t' c' Ht' Hcr'. apply (Hc _ _ Ht') in Hcr'. congruence.
Qed.

(** ** The queue drains *)

Lemma drain_checking st q c e r k : exists s', rtc background_step (mkState (Some Background) st q Checking c e r k) s' /\
  background_work_queue_ s' = [] /\ in_hand (bg s') = [] /\ ran s' = r ++ q /\ emplaced s' = e.
Proof.
  revert r. induction q as [|w q IH]; intros r.
  - eexists. split; [apply rtc_once, b_wait|]. cbn. by rewrite app_nil_r.
  - destruct (IH (r ++ [w])) as (s' & Hs & Hq & Hh & Hr & He). exists s'. rewrite <- app_assoc in Hr. split_and!; [|done..].
    eapply rtc_l; [apply b_pop|]. eapply rtc_l; [apply b_unlock|]. eapply rtc_l; [apply b_run|].
    eapply rtc_l; [apply b_lock|]. exact Hs.
Qed.

(** C24: no work is lost: from every reachable state in which no thread is
    inside [Schedule], the background thread, running alone, empties the queue
    and has then run every item that was ever scheduled. *)
Theorem BackgroundWork_drains (n : nat) (s : work_state) :
  rtc work_step (work_init n) s -> Forall (fun c => c = Outside) (clients s) ->
  exists s', rtc background_step s s' /\ background_work_queue_ s' = [] /\
    ran s' = emplaced s /\ emplaced s' = emplaced s.
Proof.
  intros [Hc Hown Hb Hst Hp Ho Hi Hk Hw]%reachable_inv Hout. destruct s as [m st q b c e r k]. cbn in *.
  assert (m = None \/ m = Some Background) as Hm.
  { destruct m as [[t|]|]; auto. exfalso. destruct (Hown t eq_refl) as [x Hx].
    rewrite Forall_lookup in Hout. pose proof (Hc t x Hx) as [_ Hcr]. rewrite (Hout t x Hx) in Hcr. by specialize (Hcr eq_refl). }
  assert (background_critical b = false -> m = None) as Hfree.
  { intros Hf. destruct Hm as [->| ->]; [done|]. destruct Hb as [_ Hb]. by rewrite Hb in Hf. }
  assert (forall r', e = r' ++ q -> rtc background_step (mkState m st q b c e r k) (mkState (Some Background) st q Checking c e r' k) ->
    exists s', rtc background_step (mkState m st q b c e r k) s' /\ background_work_queue_ s' = [] /\ ran s' = e /\ emplaced s' = e) as Hend.
  { intros r' He Hs. destruct (drain_checking st q c e r' k) as (s' & Hs' & Hq & _ & Hr & He'). exists s'.
    split_and!; [by etrans|done|congruence|done]. }
  clear Hm. destruct b as [| | | | |w|w]; cbn in *.
  - rewrite (Hi eq_refl) in *. eexists. split; [reflexivity|]. cbn. by rewrite Ho, app_nil_r.
  - apply (Hend r Ho). rewrite (Hfree eq_refl). apply rtc_once, b_lock.
  - apply (Hend r Ho). by rewrite (proj1 Hb eq_refl).
  - destruct (Hw eq_refl) as [-> _]. eexists. split; [reflexivity|]. cbn. by rewrite Ho, app_nil_r.
  - apply (Hend r Ho). rewrite (Hfree eq_refl). apply rtc_once, b_relock.
  - apply (Hend (r ++ [w])); [by rewrite <- app_assoc|].
    eapply rtc_l; [apply b_unlock|]. eapply rtc_l; [apply b_run|]. apply rtc_once, b_lock.
  - apply (Hend (r ++ [w])); [by rewrite <- app_assoc|]. rewrite (Hfree eq_refl).
    eapply rtc_l; [apply b_run|]. apply rtc_once, b_lock.
Qed.
End work.

Arguments client : clear implicits.
Arguments background : clear implicits.
Arguments work_state : clear implicits.

(** Thread 0 schedules 7; the background thread has taken it. *)
Definition scheduled_once : work_state Z :=
  mkState None true [] (Running 7) [Outside; Outside] [7] [] 1.

Lemma scheduled_once_reachable : rtc work_step (work_init 2) scheduled_once.
Proof.
  eapply rtc_l; [apply (step_client 0), (s_lock 0 7); reflexivity|].
  eapply rtc_l; [apply (step_client 0), (s_start 0 7); reflexivity|].
  eapply rtc_l; [apply (step_client 0), (s_signal 0 7); reflexivity|].
  eapply rtc_l; [apply (step_client 0), (s_emplace 0 7); reflexivity|].
  eapply rtc_l; [apply (step_client 0), s_unlock; reflexivity|].
  eapply rtc_l; [apply step_background, b_lock|].
  eapply rtc_l; [apply step_background, b_pop|].
  eapply rtc_l; [apply step_background, b_unlock|]. reflexivity.
Qed.

Lemma BackgroundWork_fifo_witness :
  let s := scheduled_once in
  emplaced s = ran s ++ in_hand (bg s) ++ background_work_queue_ s /\
  (started_background_thread_ s = true <-> bg s <> NotStarted) /\
  threads_started s = (if started_background_thread_ s then 1%nat else 0%nat) /\
  (forall t c, clients s !! t = Some c -> client_critical c = true ->
     background_critical (bg s) = false /\
     forall t' c', clients s !! t' = Some c' -> client_critical c' = true -> t' = t) /\
  (bg s = Waiting -> background_work_queue_ s = []).
Proof. exact (BackgroundWork_fifo 2 scheduled_once scheduled_once_reachable). Defined.

Lemma BackgroundWork_drains_witness :
  exists s', rtc background_step scheduled_once s' /\ background_work_queue_ s' = [] /\
    ran s' = [7] /\ emplaced s' = [7].
Proof.
  apply (BackgroundWork_drains 2 scheduled_once scheduled_once_reachable). repeat constructor.
Defined.

End BackgroundWork.
