(* ===== verification/PosixLogger.v ===== *)
(** [PosixLogger::Logv] of [util/posix_logger.h]: the info log line is built in
    a stack buffer, or in a heap buffer when it does not fit.  Writes into the
    buffers are checked: [None] is a write or read out of bounds. *)

From S2P Require Import Prelude Logging Status.

(** * The formatter *)

(** [%0wd] *)
Definition print_0d (w : nat) (n : Z) : bytes :=
  if n <? 0 then bz 45 :: (let s := print_u64 (- n) in replicate (w - 1 - length s) (digit 0) ++ s)
  else let s := print_u64 n in replicate (w - length s) (digit 0) ++ s.

(** [struct tm] and [tv_usec], as far as they are printed. *)
Record log_time := {
  tm_year : Z; tm_mon : Z; tm_mday : Z; tm_hour : Z; tm_min : Z; tm_sec : Z; tv_usec : Z;
}.

Definition kMaxThreadIdSize : nat := 32.
Definition kStackBufferSize : Z := 512.

(** [thread_id.resize(kMaxThreadIdSize)] when it is longer. *)
Definition short_thread_id (thread_id : bytes) : bytes := take kMaxThreadIdSize thread_id.

(** ["%04d/%02d/%02d-%02d:%02d:%02d.%06d %s "] *)
Definition log_header (t : log_time) (thread_id : bytes) : bytes :=
  print_0d 4 (tm_year t + 1900) ++ [bz 47] ++ print_0d 2 (tm_mon t + 1) ++ [bz 47] ++
  print_0d 2 (tm_mday t) ++ [bz 45] ++ print_0d 2 (tm_hour t) ++ [bz 58] ++
  print_0d 2 (tm_min t) ++ [bz 58] ++ print_0d 2 (tm_sec t) ++ [bz 46] ++
  print_0d 6 (tv_usec t) ++ [bz 32] ++ thread_id ++ [bz 32].

(** [snprintf(buffer + offset, size, ...)] of a text: what fits, and a NUL;
    the result is the length of the whole text. *)
Definition snprintf (buffer : bytes) (offset size : Z) (text : bytes) : option (bytes * Z) :=
  if size <=? 0 then Some (buffer, blen text)
  else
    buffer ← array_write buffer (Z.to_nat offset) (take (Z.to_nat (size - 1)) text ++ [Byte.x00]);
    Some (buffer, blen text).

Definition newline_char : byte := bz 10.

(** What one turn of the loop does: start over with a buffer of some size, or
    hand bytes to [fwrite]. *)
Inductive turn := Again (dynamic_buffer_size : Z) | Fwrite (text : bytes).

Definition Logv_turn (iteration : Z) (buffer : bytes) (buffer_size : Z) (hdr message : bytes) : option turn :=
  '(buffer, buffer_offset) ← snprintf buffer 0 buffer_size hdr;
  '(buffer, n) ← snprintf buffer buffer_offset (buffer_size - buffer_offset) message;
  let buffer_offset := s32 (buffer_offset + n) in
  if (buffer_size - 1 <=? buffer_offset) && (iteration =? 0) then Some (Again (s32 (buffer_offset + 2)))
  else
    let buffer_offset :=
      if buffer_size - 1 <=? buffer_offset then buffer_size - 1 else buffer_offset in
    c ← buffer !! Z.to_nat (buffer_offset - 1);
    '(buffer, buffer_offset) ←
      (if decide (c <> newline_char) then
         buffer ← array_write buffer (Z.to_nat buffer_offset) [newline_char];
         Some (buffer, buffer_offset + 1)
       else Some (buffer, buffer_offset));
    Some (Fwrite (take (Z.to_nat buffer_offset) buffer)).

(** The loop of two turns.  [fresh n] is the content of a new array of [n]
    bytes, on the stack or from [new]; [message] is the text that the format
    and its arguments stand for. *)
Definition Logv_loop (fresh : Z -> bytes) (hdr message : bytes) : option bytes :=
  first ← Logv_turn 0 (fresh kStackBufferSize) kStackBufferSize hdr message;
  match first with
  | Fwrite text => Some text
  | Again size =>
    second ← Logv_turn 1 (fresh size) size hdr message;
    match second with Fwrite text => Some text | Again _ => None end
  end.

Definition Logv (fresh : Z -> bytes) (t : log_time) (thread_id message : bytes) : option bytes :=
  Logv_loop fresh (log_header t (short_thread_id thread_id)) message.

(** * Facts *)

(** What a line of the log should be. *)
Definition log_line (hdr message : bytes) : bytes :=
  let text := hdr ++ message in
  if decide (last text = Some newline_char) then text else text ++ [newline_char].

(** A calendar date. *)
Definition calendar (t : log_time) : Prop :=
  0 <= tm_year t + 1900 < 10000 /\ 0 <= tm_mon t < 12 /\ 0 <= tm_mday t < 32 /\
  0 <= tm_hour t < 24 /\ 0 <= tm_min t < 60 /\ 0 <= tm_sec t < 61 /\ 0 <= tv_usec t < 1000000.

Lemma length_print_u64_loop fuel n acc w : 0 <= n < 10 ^ Z.of_nat w -> (0 < w)%nat ->
  (length (print_u64_loop fuel n acc) <= w + length acc)%nat.
Proof.
  revert n acc w. induction fuel as [|fuel IH]; intros n acc w Hn Hw; cbn [print_u64_loop]; [lia|].
  destruct (Z.eqb_spec (n / 10) 0) as [|Hd]; [simpl; lia|]. destruct w as [|w]; [lia|].
  rewrite Nat2Z.inj_succ, Z.pow_succ_r in Hn by lia.
  assert (n / 10 < 10 ^ Z.of_nat w) as Hlt by (apply Z.div_lt_upper_bound; lia).
  assert (0 <= n / 10) by (apply Z.div_pos; lia).
  assert (0 < w)%nat by (destruct w; [simpl in Hlt; lia|lia]).
  etrans; [apply (IH _ _ w); [lia|done]|]. simpl. lia.
Qed.

Lemma length_print_0d w n : 0 <= n < 10 ^ Z.of_nat w -> (0 < w)%nat -> length (print_0d w n) = w.
Proof.
  intros Hn Hw. unfold print_0d. rewrite (proj2 (Z.ltb_ge _ _)) by lia.
  pose proof (length_print_u64_loop 20 n [] w Hn Hw) as Hl. fold (print_u64 n) in Hl.
  rewrite length_app, length_replicate. simpl in Hl. lia.
Qed.

Lemma length_log_header t id : calendar t -> (length id <= kMaxThreadIdSize)%nat ->
  (28 <= length (log_header t id) <= 60)%nat.
Proof.
  intros (?&?&?&?&?&?&?) Hid. unfold log_header. rewrite !length_app, !length_print_0d by (simpl; lia).
  unfold kMaxThreadIdSize in Hid. simpl. lia.
Qed.

(** Printing a text that fits into the rest of the buffer. *)
Lemma snprintf_fits pre garbage text size : 0 < size -> Z.of_nat (length garbage) = size -> blen text < size ->
  exists rest, snprintf (pre ++ garbage) (blen pre) size text = Some (pre ++ text ++ rest, blen text) /\
    (length text + length rest = length garbage)%nat /\ rest <> [].
Proof.
  intros Hs Hg Ht. unfold snprintf. rewrite (proj2 (Z.leb_gt _ _)) by lia.
  rewrite take_ge by (unfold blen in Ht; lia). unfold array_write, blen in *. rewrite Nat2Z.id.
  rewrite (proj2 (Nat.leb_le _ _)) by (rewrite !length_app; simpl; lia). cbn [mbind option_bind].
  exists (Byte.x00 :: drop (length text + 1) garbage). split_and!; [|simpl; rewrite length_drop; lia|done].
  rewrite take_app_length, length_app, drop_app_add. simpl. by rewrite <- app_assoc.
Qed.

(** In general it stays within the buffer. *)
Lemma snprintf_bounded pre garbage text size : 0 < size -> Z.of_nat (length garbage) = size ->
  exists garbage', snprintf (pre ++ garbage) (blen pre) size text = Some (pre ++ garbage', blen text) /\
    length garbage' = length garbage.
Proof.
  intros Hs Hg. unfold snprintf. rewrite (proj2 (Z.leb_gt _ _)) by lia. unfold array_write, blen in *. rewrite Nat2Z.id.
  rewrite (proj2 (Nat.leb_le _ _)) by (rewrite !length_app, length_take; simpl; lia). cbn [mbind option_bind].
  eexists. rewrite take_app_length, drop_app_add. split; [done|].
  rewrite length_app, length_drop, length_app, length_take. simpl. lia.
Qed.

Lemma Logv_turn_fits iteration buffer size hdr message : Z.of_nat (length buffer) = size -> hdr <> [] ->
  blen hdr + blen message < size - 1 -> size < 2 ^ 31 ->
  Logv_turn iteration buffer size hdr message = Some (Fwrite (log_line hdr message)).
Proof.
  intros Hb Hh Hfit Hint. pose proof (blen_nonneg message) as Hm. pose proof (blen_nonneg hdr) as Hhn. unfold Logv_turn.
  destruct (snprintf_fits [] buffer hdr size) as (r1 & E1 & Hl1 & _); [lia..|]. cbn [app blen length] in E1. change (blen []) with 0 in E1.
  rewrite E1. cbn [mbind option_bind].
  destruct (snprintf_fits hdr r1 message (size - blen hdr)) as (r2 & -> & Hl2 & Hne); [lia|unfold blen; lia|lia|]. cbn [mbind option_bind].
  rewrite s32_small, (proj2 (Z.leb_gt _ _)) by lia. cbn [andb]. rewrite app_assoc.
  assert (blen hdr + blen message = blen (hdr ++ message)) as -> by (by rewrite blen_app).
  assert (hdr ++ message <> []) as Htx by (by intros [? _]%app_nil). unfold log_line. set (text := hdr ++ message) in *.
  destruct (exists_last Htx) as (tx & c & Etx). assert (last text = Some c) as Hlast by (rewrite Etx; apply last_snoc).
  assert ((text ++ r2) !! Z.to_nat (blen text - 1) = Some c) as ->.
  { replace (Z.to_nat (blen text - 1)) with (length tx) by (rewrite Etx, blen_app; unfold blen; simpl; lia).
    rewrite Etx, <- app_assoc. by apply list_lookup_middle. }
  cbn [mbind option_bind]. rewrite Hlast. unfold blen at 1 2. rewrite Nat2Z.id. destruct r2 as [|x r2]; [done|].
  destruct (decide (c = newline_char)) as [->|Hc].
  - rewrite decide_False, decide_True by (done || tauto). cbn [mbind option_bind]. unfold blen. by rewrite Nat2Z.id, take_app_length.
  - rewrite decide_True, decide_False by (done || congruence). unfold array_write.
    rewrite (proj2 (Nat.leb_le _ _)) by (rewrite length_app; simpl; lia). cbn [mbind option_bind].
    rewrite take_app_length, drop_app_add. do 2 f_equal. rewrite app_assoc. apply take_app_length'.
    rewrite length_app. unfold blen. simpl. lia.
Qed.

(** For any header of a fitting size, on the stack or on the heap. *)
Lemma Logv_loop_line fresh hdr message : (forall n, 0 <= n -> Z.of_nat (length (fresh n)) = n) ->
  (28 <= length hdr <= 60)%nat -> blen message < 2 ^ 31 - 64 -> Logv_loop fresh hdr message = Some (log_line hdr message).
Proof.
  intros Hf Hh Hint. unfold Logv_loop.
  assert (hdr <> []) as Hne by (intros E; rewrite E in Hh; simpl in Hh; lia).
  pose proof (blen_nonneg message) as Hm. destruct (Z.ltb_spec (blen hdr + blen message) (kStackBufferSize - 1)) as [Hfit|Hbig].
  - rewrite Logv_turn_fits; [done| |done|done|done]. by rewrite Hf.
  - assert (Logv_turn 0 (fresh kStackBufferSize) kStackBufferSize hdr message = Some (Again (blen hdr + blen message + 2))) as ->.
    { unfold Logv_turn. specialize (Hf kStackBufferSize ltac:(done)).
      destruct (snprintf_fits [] (fresh kStackBufferSize) hdr kStackBufferSize) as (r1 & E1 & Hl1 & _);
        [done|done|unfold blen, kStackBufferSize; lia|]. change (blen []) with 0 in E1. cbn [app] in E1.
      rewrite E1. cbn [mbind option_bind].
      destruct (snprintf_bounded hdr r1 message (kStackBufferSize - blen hdr)) as (r2 & -> & _);
        [unfold blen, kStackBufferSize; lia|unfold blen, kStackBufferSize in *; lia|]. cbn [mbind option_bind].
      assert (0 <= blen hdr <= 60) by (unfold blen; lia).
      rewrite (s32_small (blen hdr + blen message)), (proj2 (Z.leb_le _ _)) by lia. cbn [andb Z.eqb].
      by rewrite s32_small by lia. }
    cbn [mbind option_bind]. assert (0 <= blen hdr <= 60) by (unfold blen; lia).
    rewrite Logv_turn_fits; [done|apply Hf; lia|done|lia|lia].
Qed.

(** A log line comes out whole: for any message, the bytes handed to
    [fwrite] are the header, the message and a newline_char unless the message
    brings one; no buffer is overrun, at most two turns are made, and the heap
    buffer of the second, sized from the first, is always large enough.  (Lengths are [int]s.) *)
Theorem Logv_writes_line (fresh : Z -> bytes) (t : log_time) (thread_id message : bytes) :
  (forall n, 0 <= n -> Z.of_nat (length (fresh n)) = n) -> calendar t ->
  blen message < 2 ^ 31 - 64 ->
  Logv fresh t thread_id message = Some (log_line (log_header t (short_thread_id thread_id)) message).
Proof.
  intros Hf Ht Hint. apply Logv_loop_line; [done| |done].
  apply length_log_header; [done|]. unfold short_thread_id. rewrite length_take. lia.
Qed.

(** A message that needs the heap buffer. *)
Lemma Logv_writes_line_witness :
  let t := {| tm_year := 121; tm_mon := 1; tm_mday := 28; tm_hour := 9; tm_min := 5; tm_sec := 7; tv_usec := 42 |} in
  let fresh n := replicate (Z.to_nat n) Byte.xff in
  log_header t (bytes_of_string "7f") = bytes_of_string "2021/02/28-09:05:07.000042 7f " /\
  Logv fresh t (bytes_of_string "7f") (replicate 600 (bz 120)) =
    Some (log_line (log_header t (short_thread_id (bytes_of_string "7f"))) (replicate 600 (bz 120))).
Proof.
  intros t fresh. split; [vm_compute; reflexivity|].
  apply (Logv_writes_line fresh t (bytes_of_string "7f") (replicate 600 (bz 120))).
  - intros n Hn. unfold fresh. rewrite length_replicate. lia.
  - unfold calendar. cbn. lia.
  - vm_compute. reflexivity.
Defined.
