(* ===== verification/ReadPath.v ===== *)
(** The read path, put together: [TableCache] with two LRU caches over
    [PosixEnv], down to the system calls.

    The theorem assumes no component of the program: it is about the table
    cache, the tables and their iterators, both sharded LRU caches and the POSIX
    files as they are defined here, over any kernel, allocator and checksum
    acceleration that behave as documented. *)

From S2P Require Import Prelude Port Coding Logging Crc32c Status Comparator Bloom Env FileName Options BlockBuilder Iterator Cache Block TableFormat TableBuilder LRUCache LRUShard ShardedCache ShardedOwner Table TableCache FileSystem Kernel PosixFile PosixEnv PosixRandom.

(** * Names without NUL *)

Lemma path_ok_NUL f : path_ok f <-> Byte.x00 ∉ f.
Proof.
  unfold path_ok. induction f as [|c f IH]; cbn; [set_solver|]. destruct (decide (c = Byte.x00)) as [->|Hc]; [set_solver|].
  rewrite not_elem_of_cons, <- IH. split; [intros [= E]; by split|by intros [_ ->]].
Qed.

Lemma MakeFileName_path_ok dbname n suffix : path_ok dbname -> path_ok suffix -> 0 <= n < 2 ^ 64 ->
  path_ok (MakeFileName dbname n suffix).
Proof.
  rewrite !path_ok_NUL. intros Hd Hs Hn. unfold MakeFileName. rewrite !elem_of_app. destruct (print_u64_06_spec n Hn) as (_ & Hdig & _).
  assert (Byte.x00 ∉ print_u64_06 n) by (intros Hin; rewrite Forall_forall in Hdig; by specialize (Hdig _ Hin)).
  assert (Byte.x00 ∉ str "/") by (by apply path_ok_NUL). assert (Byte.x00 ∉ str ".") by (by apply path_ok_NUL). tauto.
Qed.

Section read_path.
Context {port : Port} `{!PortCrcOk port} {cfg : PosixConfig}.
Context {K : Type} `{!Kernel K} {view : K -> FsView} `{!KernelOk K view} `{!FullReads K view}.
(** The allocators of the handles of the two caches. *)
Context {A B : Type} `{!Malloc A, !Malloc B} {alloc_a : A -> Z -> Prop} {alloc_b : B -> Z -> Prop}.
Context `{!MallocOk A alloc_a, !MallocOk B alloc_b}.
Context (buf : Z) (fresh : Z -> bytes) (opt ropt : Options) (valid : bytes -> Prop) `{!ComparatorOk (comparator opt) valid}.
Context (dbname : bytes) (bc : bool) (tables : Z -> option table_data).
Notation eview := (eview (view := view)).

Definition table_name (f : bytes) : Prop :=
  exists n T, tables n = Some T /\ (f = TableFileName dbname n \/ f = SSTTableFileName dbname n).

(** A database in the file system; table names are not those of directories. *)
Record posix_database (e : PosixEnv K) : Prop := {
  pd_database : database_ok (names := table_name) opt ropt valid (fun f => vfiles (eview e) !! f) dbname tables;
  pd_path : path_ok dbname;
  pd_plain f i : table_name f -> dir (eview e) !! f = Some i -> is_Some (node (eview e) !! i);
  pd_limits : -2 ^ 31 < fd_limiter_ e < 2 ^ 31 /\ -2 ^ 31 < mmap_limiter_ e < 2 ^ 31;
}.

Lemma table_name_ok e f : posix_database e -> table_name f -> path_ok f.
Proof.
  intros Hd (n & T & HT & Hf). destruct (db_table _ _ _ _ _ _ (pd_database e Hd) n T HT) as (Hn & _).
  destruct Hf as [-> | ->]; by apply MakeFileName_path_ok; [apply Hd| |].
Qed.

Notation opens e := (posix_opens (view := view) table_name (fds (eview e)) (maps (eview e)) (fd_limiter_ e) (mmap_limiter_ e)).

Lemma posix_start e capacity entries (b : B) : posix_database e -> 0 <= entries < 2 ^ 31 -> 0 <= capacity <= 15 * 2 ^ 31 ->
  start (names := table_name) (opens := opens e) (pinned := sharded_pinned (allocated := alloc_b)) (holds := sharded_holds)
    (last_id := sharded_last_id) opt ropt valid (fun f => vfiles (eview e) !! f) dbname tables e (NewLRUCache capacity b) entries.
Proof.
  intros Hd He Hc. split; [apply Hd| | |done].
  - destruct (pd_limits e Hd) as [Hl1 Hl2]. split; cbn [omap list_omap]; rewrite ?blen_nil; [done|apply Hd| |by constructor|by constructor|by constructor|lia|lia|by split; [|intros k ?%elem_of_nil]..].
    intros f c (n & T & HT & Hf) Hfc. rewrite (db_files _ _ _ _ _ _ (pd_database e Hd) n T f HT Hf c Hfc).
    destruct (db_table _ _ _ _ _ _ (pd_database e Hd) n T HT) as (_ & _ & Htf). pose proof (tf_size _ _ _ _ _ Htf). unfold image. lia.
  - destruct (NewLRUCache_pinned (allocated := alloc_b) (V := Block) capacity b Hc) as [Hp Hh]. split_and!; [done|done|].
    apply NewLRUCache_last_id.
Qed.

End read_path.

(** * An instance *)

(** The database of [TestTableCache] in a kernel; there is one slot for a
    mapping, so the second table keeps a descriptor.  The first two system
    calls fail. *)
Module TestReadPath.
#[local] Existing Instance little_endian_port.
#[local] Instance config : PosixConfig :=
  {| HAVE_O_CLOEXEC := true; HAVE_FULLFSYNC := false; HAVE_FDATASYNC := true |}.

Definition directory : gmap bytes Z := {[ TableFileName TestTableCache.dbname 5 := 1; SSTTableFileName TestTableCache.dbname 6 := 2 ]}.

Definition env : PosixEnv MemKernel.Mem :=
  mkPosixEnv {| MemKernel.mdir := directory;
     MemKernel.mnode := {[ 1 := TestTable.built_file; 2 := TestTable.built_file ]};
     MemKernel.mfds := ∅; MemKernel.mmapped := None; MemKernel.mlocks := ∅;
     MemKernel.merrno := 0; MemKernel.plan := [MemKernel.Fails EINTR; MemKernel.Fails EINTR] |} ∅ ∅ 1 50.

Definition run := run_gets 1000 (fun _ => []) TestTableCache.calls
  (TableCache_new (H := PosixRandomFile) TestTableCache.dbname TestTable.opt true 16 (∅ : SetHeap))
  (env, NewLRUCache 1000 (∅ : SetHeap)).

Lemma database bs seps : table_on_disk TestTable.opt (fun _ => True) (added TestTable.calls) bs seps ->
  TestTable.built_file = table_image TestTable.opt bs seps ->
  posix_database (view := MemKernel.view) TestTable.opt TestTable.opt (fun _ => True) TestTableCache.dbname (TestTableCache.tables bs seps) env.
Proof.
  intros Htf Himg. pose proof (fun n T => TestTableCache.tables_inv bs seps n T) as Hinv.
  assert (forall f c, vfiles (eview (view := MemKernel.view) env) !! f = Some c -> c = TestTable.built_file) as Hfiles.
  { intros f c. rewrite vfiles_lookup. destruct (dir _ !! f) as [i|]; [|done]. cbn. rewrite lookup_insert_Some, lookup_singleton_Some. naive_solver. }
  split; [split| | |cbn; lia].
  - done.
  - intros q [= <-]. by apply NewBloomFilterPolicy_ok.
  - intros n T [Hn ->]%Hinv. split_and!; [destruct Hn; lia..|done|done].
  - intros n T HT. split; exists n, T; auto.
  - intros n T f [Hn ->]%Hinv _ c Hc. unfold image. cbn [td_blocks td_seps]. rewrite <- Himg. by eapply Hfiles.
  - intros n T [[-> | ->] ->]%Hinv; [left|right]; vm_compute; by eexists.
  - done.
  - intros f i _ Hi. change (directory !! f = Some i) in Hi. unfold directory in Hi. apply lookup_insert_Some in Hi as [[_ <-]|[_ Hi]]; [|apply lookup_singleton_Some in Hi as [_ <-]];
      vm_compute; by eexists.
Qed.

Example run_results : (fun r => (ok r.1, r.2)) <$> run.1.1 =
  [(false, None); (true, Some (str "apple", str "1")); (true, Some (str "band", str "5")); (true, None)].
Proof. vm_compute. reflexivity. Qed.
End TestReadPath.

