(* ===== verification/Win32.v ===== *)
(** The operating system under [util/env_windows.cpp].

    [Win32] lists the calls the file makes, as functions on a system state;
    [Win32Ok] states what their documentation promises, over the view of
    [FileSystem]: a handle is a descriptor, a file mapping object is one on the
    mapped file, and locks belong to handles.  Every call may fail.
    [MemWin32] keeps all the laws on the memory of [MemKernel]. *)

From S2P Require Import Prelude Status Env FileSystem Kernel.

(** * Constants *)

Definition INVALID_HANDLE_VALUE : Z := -1.
Definition INVALID_FILE_ATTRIBUTES : Z := 2 ^ 32 - 1.
Definition MAXDWORD : Z := 2 ^ 32 - 1.

Definition GENERIC_READ : Z := 0x80000000.
Definition GENERIC_WRITE : Z := 0x40000000.
Definition FILE_APPEND_DATA : Z := 4.
Definition FILE_SHARE_READ : Z := 1.
Definition CREATE_ALWAYS : Z := 2.
Definition OPEN_EXISTING : Z := 3.
Definition OPEN_ALWAYS : Z := 4.
Definition FILE_ATTRIBUTE_READONLY : Z := 1.
Definition FILE_ATTRIBUTE_NORMAL : Z := 0x80.

Definition ERROR_FILE_NOT_FOUND : Z := 2.
Definition ERROR_PATH_NOT_FOUND : Z := 3.
Definition ERROR_INVALID_HANDLE : Z := 6.
Definition ERROR_NO_MORE_FILES : Z := 18.
Definition ERROR_HANDLE_EOF : Z := 38.
Definition ERROR_INVALID_PARAMETER : Z := 87.
Definition ERROR_ALREADY_EXISTS : Z := 183.
Definition ERROR_UNABLE_TO_MOVE_REPLACEMENT : Z := 1176.
Definition ERROR_UNABLE_TO_MOVE_REPLACEMENT_2 : Z := 1177.

(** [ScopedHandle::is_valid] *)
Definition is_valid (handle : Z) : bool :=
  negb (handle =? INVALID_HANDLE_VALUE) && negb (handle =? 0).

(** * The calls *)

(** A [BOOL] result comes first; arguments that are the same in every call of
    the file are left out. *)
Class Win32 (K : Type) := {
  GetLastError : K -> Z;
  (** The text allocated, if any. *)
  FormatMessageA : Z -> option bytes;
  (** Name, access, share mode, disposition and flags. *)
  CreateFileA : bytes -> Z -> Z -> Z -> Z -> State K Z;
  CloseHandle : Z -> State K bool;
  (** With the bytes put into the buffer. *)
  ReadFile : Z -> Z -> State K (bool * bytes);
  (** [ReadFile] with an [OVERLAPPED] of [OffsetHigh] and [Offset]. *)
  ReadFile_overlapped : Z -> Z -> Z -> Z -> State K (bool * bytes);
  (** With the number of bytes written. *)
  WriteFile : Z -> bytes -> State K (bool * Z);
  (** From [FILE_CURRENT]. *)
  SetFilePointerEx : Z -> Z -> State K bool;
  GetFileSizeEx : Z -> State K (bool * Z);
  (** [PAGE_READONLY], of the whole file. *)
  CreateFileMappingA : Z -> State K Z;
  (** [FILE_MAP_READ], of the whole object; 0 for failure. *)
  MapViewOfFile : Z -> State K Z;
  UnmapViewOfFile : Z -> State K bool;
  (** The byte a load at an address sees. *)
  win_load : K -> Z -> byte;
  GetFileAttributesA : bytes -> State K Z;
  (** [nFileSizeHigh] and [nFileSizeLow] *)
  GetFileAttributesExA : bytes -> State K (bool * (Z * Z));
  (** The handle, and [cFileName]. *)
  FindFirstFileA : bytes -> State K (Z * bytes);
  FindNextFileA : Z -> State K (bool * bytes);
  FindClose : Z -> State K bool;
  (** [_splitpath_s]: base name and extension, unless they do not fit. *)
  splitpath : bytes -> option (bytes * bytes);
  DeleteFileA : bytes -> State K bool;
  CreateDirectoryA : bytes -> State K bool;
  RemoveDirectoryA : bytes -> State K bool;
  MoveFileA : bytes -> bytes -> State K bool;
  (** The replaced file first; no backup name, merge errors ignored. *)
  ReplaceFileA : bytes -> bytes -> State K bool;
  (** Offset (low, high) and length (low, high). *)
  win_LockFile : Z -> Z -> Z -> Z -> Z -> State K bool;
  win_UnlockFile : Z -> Z -> Z -> Z -> Z -> State K bool;
  win_getenv : bytes -> K -> option bytes;
  (** The length returned, and the path. *)
  GetTempPathA : Z -> State K (Z * bytes);
  (** [std::this_thread::get_id()], printed *)
  thread_id : K -> bytes;
  (** [fopen(name, "w")] *)
  fopen : bytes -> State K (option Z);
  (** [dwHighDateTime] and [dwLowDateTime] *)
  GetSystemTimeAsFileTime : State K (Z * Z);
}.

(** The [n] bytes at an address. *)
Definition win_memory {K : Type} `{!Win32 K} (k : K) (a n : Z) : bytes :=
  (fun i => win_load k (a + i)) <$> seqZ 0 n.

(** Closing a handle drops the locks taken through it. *)
Definition close_handle (h : Z) (v : FsView) : FsView :=
  mkView (dir v) (node v) (delete h (fds v)) (maps v) (locks v ∖ {[ h ]}).

(** * What the documentation promises *)

(** What a [ReplaceFileA] of [target] that failed with an error can have done:
    without a backup name, error 1176 leaves the replaced file gone, and error
    1177 leaves it under another name. *)
Definition replace_failed (target : bytes) (error : Z) (v v' : FsView) : Prop :=
  v' = v \/
  error = ERROR_UNABLE_TO_MOVE_REPLACEMENT /\ v' = set_dir (delete target (dir v)) v \/
  error = ERROR_UNABLE_TO_MOVE_REPLACEMENT_2 /\
    exists other i, dir v !! target = Some i /\ dir v !! other = None /\
      v' = set_dir (<[other := i]> (delete target (dir v))) v.

(** Paths are taken to be canonical, and the process is the only one at work. *)
Class Win32Ok (K : Type) `{!Win32 K} (view : K -> FsView) : Prop := {
  CreateFile_fail p a s d fl k h k' : CreateFileA p a s d fl k = (h, k') -> is_valid h = false ->
    view k' = view k;
  CreateFile_existing p a s fl k h k' : CreateFileA p a s OPEN_EXISTING fl k = (h, k') -> is_valid h = true ->
    fds (view k) !! h = None /\
    exists i c, dir (view k) !! p = Some i /\ node (view k) !! i = Some c /\
      view k' = set_desc h (mkDesc i 0 (a =? FILE_APPEND_DATA)) (view k);
  CreateFile_always p a s d fl k h k' : CreateFileA p a s d fl k = (h, k') -> is_valid h = true ->
    d = CREATE_ALWAYS \/ d = OPEN_ALWAYS ->
    fds (view k) !! h = None /\
    exists i c, (dir (view k) !! p = Some i /\ node (view k) !! i = Some c \/
                 dir (view k) !! p = None /\ unused i (view k) /\ c = []) /\
      view k' = set_desc h (mkDesc i 0 (a =? FILE_APPEND_DATA))
                  (set_node i (if d =? CREATE_ALWAYS then [] else c)
                    (set_dir (<[p := i]> (dir (view k))) (view k)));
  (** What is passed to [CloseHandle] is closed if it is an open handle: that it
      is none is the one reason to fail that the documentation gives.  Of a
      system that refuses to close an open handle nothing is said here. *)
  CloseHandle_closes h k b k' : CloseHandle h k = (b, k') -> is_Some (fds (view k) !! h) ->
    view k' = close_handle h (view k);
  CloseHandle_closed h k b k' : CloseHandle h k = (b, k') -> fds (view k) !! h = None ->
    b = false /\ view k' = view k;
  ReadFile_fail h n k d k' : ReadFile h n k = (false, d, k') -> view k' = view k;
  (** A synchronous read of a file returns when all of it is there, or the end
      of the file was reached. *)
  ReadFile_ok h n k d k' : ReadFile h n k = (true, d, k') -> 0 <= n ->
    exists ds c, open_on (view k) h ds c /\ 0 <= fd_pos ds /\ d = take (Z.to_nat n) (rest_of ds c) /\
      view k' = seek_desc h ds (fd_pos ds + blen d) (view k);
  (** The file pointer moves, too. *)
  ReadFile_overlapped_view h n hi lo k : let k' := (ReadFile_overlapped h n hi lo k).2 in
    view k' = view k \/ exists ds p, fds (view k) !! h = Some ds /\ view k' = seek_desc h ds p (view k);
  ReadFile_overlapped_ok h n hi lo k d k' : ReadFile_overlapped h n hi lo k = (true, d, k') -> 0 <= n ->
    exists ds c, open_on (view k) h ds c /\ d = take (Z.to_nat n) (drop (Z.to_nat (Z.shiftl hi 32 + lo)) c);
  ReadFile_overlapped_eof h n hi lo k d k' : ReadFile_overlapped h n hi lo k = (false, d, k') ->
    GetLastError k' = ERROR_HANDLE_EOF ->
    d = [] /\ exists ds c, open_on (view k) h ds c /\ blen c <= Z.shiftl hi 32 + lo;
  (** A write that fails may have written part of the data. *)
  WriteFile_wrote h d k b r k' : WriteFile h d k = (b, r, k') ->
    exists x, x `prefix_of` d /\ wrote h x (view k) (view k') /\ locks (view k') = locks (view k) /\
      (b = true -> blen x = r /\ is_Some (fds (view k) !! h));
  SetFilePointer_fail h n k k' : SetFilePointerEx h n k = (false, k') -> view k' = view k;
  SetFilePointer_ok h n k k' : SetFilePointerEx h n k = (true, k') ->
    exists ds, fds (view k) !! h = Some ds /\ 0 <= fd_pos ds /\ 0 <= fd_pos ds + n /\
      view k' = seek_desc h ds (fd_pos ds + n) (view k);
  GetFileSize_view h k : view (GetFileSizeEx h k).2 = view k;
  GetFileSize_ok h k size k' ds c : GetFileSizeEx h k = (true, size, k') -> open_on (view k) h ds c -> size = blen c;
  CreateFileMapping_fail h k m k' : CreateFileMappingA h k = (m, k') -> is_valid m = false -> view k' = view k;
  (** An empty file cannot be mapped. *)
  CreateFileMapping_ok h k m k' : CreateFileMappingA h k = (m, k') -> is_valid m = true ->
    fds (view k) !! m = None /\
    exists ds c, open_on (view k) h ds c /\ 0 < blen c /\ view k' = set_desc m (mkDesc (fd_node ds) 0 false) (view k);
  MapViewOfFile_fail m k k' : MapViewOfFile m k = (0, k') -> view k' = view k;
  MapViewOfFile_ok m k base k' : MapViewOfFile m k = (base, k') -> base <> 0 ->
    maps (view k) !! base = None /\
    exists ds c, open_on (view k) m ds c /\ 0 <= base /\ base + blen c <= 2 ^ 64 /\
      view k' = set_maps (<[base := (fd_node ds, blen c)]> (maps (view k))) (view k);
  (** As for handles, the base address of a view is what is passed. *)
  UnmapViewOfFile_view base k : is_Some (maps (view k) !! base) ->
    view (UnmapViewOfFile base k).2 = set_maps (delete base (maps (view k))) (view k);
  win_load_ok k base i len c off b : maps (view k) !! base = Some (i, len) ->
    node (view k) !! i = Some c -> 0 <= off < len -> c !! Z.to_nat off = Some b ->
    win_load k (base + off) = b;
  GetFileAttributesEx_view p k : view (GetFileAttributesExA p k).2 = view k;
  GetFileAttributesEx_ok p k hi lo k' i c : GetFileAttributesExA p k = (true, (hi, lo), k') ->
    dir (view k) !! p = Some i -> node (view k) !! i = Some c ->
    0 <= lo < 2 ^ 32 /\ 0 <= hi /\ Z.shiftl hi 32 + lo = blen c;
  DeleteFileA_ok p k k' : DeleteFileA p k = (true, k') -> view k' = set_dir (delete p (dir (view k))) (view k);
  DeleteFileA_fail p k k' : DeleteFileA p k = (false, k') -> view k' = view k;
  (** The new name must not be in use. *)
  MoveFileA_ok p q k k' : MoveFileA p q k = (true, k') ->
    (dir (view k) !! q = None \/ q = p) /\
    exists i, dir (view k) !! p = Some i /\
      view k' = set_dir (<[q := i]> (delete p (dir (view k)))) (view k);
  MoveFileA_fail p q k k' : MoveFileA p q k = (false, k') -> view k' = view k;
  ReplaceFileA_ok p q k k' : ReplaceFileA q p k = (true, k') ->
    is_Some (dir (view k) !! q) /\
    exists i, dir (view k) !! p = Some i /\ is_Some (node (view k) !! i) /\
      view k' = set_dir (<[q := i]> (delete p (dir (view k)))) (view k);
  ReplaceFileA_fail p q k k' : ReplaceFileA q p k = (false, k') ->
    replace_failed q (GetLastError k') (view k) (view k');
  (** An exclusive lock does not overlap another. *)
  LockFile_ok h k k' : win_LockFile h 0 0 MAXDWORD MAXDWORD k = (true, k') ->
    exists ds, fds (view k) !! h = Some ds /\
      (forall h' ds', h' ∈ locks (view k) -> fds (view k) !! h' = Some ds' -> fd_node ds' <> fd_node ds) /\
      view k' = set_locks ({[ h ]} ∪ locks (view k)) (view k);
  LockFile_fail h k k' : win_LockFile h 0 0 MAXDWORD MAXDWORD k = (false, k') -> view k' = view k;
  UnlockFile_ok h k k' : win_UnlockFile h 0 0 MAXDWORD MAXDWORD k = (true, k') ->
    h ∈ locks (view k) /\ view k' = set_locks (locks (view k) ∖ {[ h ]}) (view k);
  UnlockFile_fail h k k' : win_UnlockFile h 0 0 MAXDWORD MAXDWORD k = (false, k') -> view k' = view k;
}.

(** Synchronous writes to a disk file that succeed are complete. *)
Class FullWrites (K : Type) `{!Win32 K} : Prop :=
  WriteFile_full h d k r k' : WriteFile h d k = (true, r, k') -> r = blen d.

(** When a [ReplaceFileA] without a backup name ends with
    [ERROR_UNABLE_TO_MOVE_REPLACEMENT], "the replaced file no longer exists". *)
Class ReplaceLoses (K : Type) `{!Win32 K} (view : K -> FsView) : Prop :=
  ReplaceFileA_loses p q k k' : ReplaceFileA q p k = (false, k') ->
    GetLastError k' = ERROR_UNABLE_TO_MOVE_REPLACEMENT -> dir (view k') !! q = None.

Section memory.
Context {K : Type} `{!Win32 K} {view : K -> FsView} `{!Win32Ok K view}.

(** A region of a view holds that part of the file. *)
Lemma win_memory_mapped k base i c off n : maps (view k) !! base = Some (i, blen c) ->
  node (view k) !! i = Some c -> 0 <= off -> 0 <= n -> off + n <= blen c ->
  win_memory k (base + off) n = take (Z.to_nat n) (drop (Z.to_nat off) c).
Proof.
  intros Hm Hc Ho Hn Hon. unfold win_memory. apply (load_region (win_load k) base c); [|done..].
  intros j b Hj Hb. by apply (win_load_ok k base i (blen c) c).
Qed.

End memory.

(** * A system in memory *)

Module MemWin32.

Import MemKernel.

(** A new handle. *)
Definition open_handle (p : bytes) (access disposition i : Z) (c : bytes) (k : Mem) : option Z * Z * Mem :=
  let h := above (mfds k) in
  (None, h, put (set_desc h (mkDesc i 0 (access =? FILE_APPEND_DATA))
                  (set_node i (if disposition =? CREATE_ALWAYS then [] else c)
                    (set_dir (<[p := i]> (mdir k)) (view k)))) k).

(** A call with a [BOOL] result and an action on the view. *)
Definition bool_call (op : Mem -> option FsView) : State Mem bool := call false (fun _ k =>
  match op k with
  | Some v => (None, true, put v k)
  | None => (Some ERROR_FILE_NOT_FOUND, false, k)
  end).

#[global] Instance mem_win32 : Win32 Mem := {
  GetLastError := merrno;
  FormatMessageA e := Some (bytes_of_string "error");
  CreateFileA p a s d fl := call INVALID_HANDLE_VALUE (fun _ k =>
    match mdir k !! p with
    | Some i =>
      match mnode k !! i with
      | Some c =>
        if d =? OPEN_EXISTING
        then (None, above (mfds k), put (set_desc (above (mfds k)) (mkDesc i 0 (a =? FILE_APPEND_DATA)) (view k)) k)
        else open_handle p a d i c k
      | None => (Some ERROR_PATH_NOT_FOUND, INVALID_HANDLE_VALUE, k)
      end
    | None =>
      if d =? OPEN_EXISTING then (Some ERROR_FILE_NOT_FOUND, INVALID_HANDLE_VALUE, k)
      else open_handle p a d (new_node k) [] k
    end);
  CloseHandle h k :=
    let k' := put (close_handle h (view k)) (tick k) in
    match plan k, mfds k !! h with
    | _, None => (false, set_merrno ERROR_INVALID_HANDLE (tick k))
    | Fails e :: _, Some _ => (false, set_merrno e k')
    | _, Some _ => (true, k')
    end;
  ReadFile h n := call (false, []) (fun _ k =>
    match mfds k !! h with
    | Some ds =>
      match mnode k !! fd_node ds with
      | Some c =>
        if fd_pos ds <? 0 then (Some ERROR_INVALID_PARAMETER, (false, []), k)
        else
          let d := take (Z.to_nat n) (rest_of ds c) in
          (None, (true, d), put (seek_desc h ds (fd_pos ds + blen d) (view k)) k)
      | None => (Some ERROR_INVALID_HANDLE, (false, []), k)
      end
    | None => (Some ERROR_INVALID_HANDLE, (false, []), k)
    end);
  ReadFile_overlapped h n hi lo k :=
    let off := Z.shiftl hi 32 + lo in
    match plan k, mfds k !! h ≫= fun ds => mnode k !! fd_node ds with
    | Fails e :: _, _ => ((false, []), set_merrno (if e =? ERROR_HANDLE_EOF then ERROR_INVALID_HANDLE else e) (tick k))
    | _, Some c =>
      if blen c <=? off then ((false, []), set_merrno ERROR_HANDLE_EOF (tick k))
      else ((true, take (Z.to_nat n) (drop (Z.to_nat off) c)), tick k)
    | _, None => ((false, []), set_merrno ERROR_INVALID_HANDLE (tick k))
    end;
  WriteFile h d := call (false, 0) (fun _ k =>
    match mfds k !! h with
    | Some ds =>
      match mnode k !! fd_node ds with
      | Some c =>
        if fd_pos ds <? 0 then (Some ERROR_INVALID_PARAMETER, (false, 0), k)
        else (None, (true, blen d), put (write_desc h ds c d (view k)) k)
      | None => (Some ERROR_INVALID_HANDLE, (false, 0), k)
      end
    | None => (Some ERROR_INVALID_HANDLE, (false, 0), k)
    end);
  SetFilePointerEx h n := bool_call (fun k =>
    ds ← mfds k !! h;
    if (fd_pos ds <? 0) || (fd_pos ds + n <? 0) then None else Some (seek_desc h ds (fd_pos ds + n) (view k)));
  GetFileSizeEx h := call (false, 0) (fun _ k =>
    match mfds k !! h ≫= fun ds => mnode k !! fd_node ds with
    | Some c => (None, (true, blen c), k)
    | None => (Some ERROR_INVALID_HANDLE, (false, 0), k)
    end);
  CreateFileMappingA h := call 0 (fun _ k =>
    match mfds k !! h with
    | Some ds =>
      match mnode k !! fd_node ds with
      | Some (_ :: _) =>
        (None, above (mfds k), put (set_desc (above (mfds k)) (mkDesc (fd_node ds) 0 false) (view k)) k)
      | _ => (Some ERROR_INVALID_PARAMETER, 0, k)
      end
    | None => (Some ERROR_INVALID_HANDLE, 0, k)
    end);
  MapViewOfFile m := call 0 (fun _ k =>
    match mfds k !! m, mmapped k with
    | Some ds, None =>
      match mnode k !! fd_node ds with
      | Some c =>
        if 2 ^ 64 <? map_base + blen c then (Some ERROR_INVALID_PARAMETER, 0, k)
        else (None, map_base, put_map (Some (fd_node ds, blen c)) k)
      | None => (Some ERROR_INVALID_HANDLE, 0, k)
      end
    | _, _ => (Some ERROR_INVALID_HANDLE, 0, k)
    end);
  UnmapViewOfFile base k :=
    match mmapped k with
    | Some _ => if base =? map_base then (true, put_map None k) else (false, set_merrno ERROR_INVALID_PARAMETER k)
    | None => (false, set_merrno ERROR_INVALID_PARAMETER k)
    end;
  win_load k a := load k a;
  GetFileAttributesA p := call INVALID_FILE_ATTRIBUTES (fun _ k =>
    match mdir k !! p with
    | Some _ => (None, FILE_ATTRIBUTE_NORMAL, k)
    | None => (Some ERROR_FILE_NOT_FOUND, INVALID_FILE_ATTRIBUTES, k)
    end);
  GetFileAttributesExA p := call (false, (0, 0)) (fun _ k =>
    match mdir k !! p with
    | Some i =>
      let size := blen (default [] (mnode k !! i)) in
      (None, (true, (Z.shiftr size 32, size mod 2 ^ 32)), k)
    | None => (Some ERROR_FILE_NOT_FOUND, (false, (0, 0)), k)
    end);
  FindFirstFileA p := call (INVALID_HANDLE_VALUE, []) (fun _ k => (Some ERROR_FILE_NOT_FOUND, (INVALID_HANDLE_VALUE, []), k));
  FindNextFileA h := call (false, []) (fun _ k => (Some ERROR_NO_MORE_FILES, (false, []), k));
  FindClose h k := (true, k);
  splitpath s := Some (s, []);
  DeleteFileA p := bool_call (fun k => _ ← mdir k !! p; Some (set_dir (delete p (mdir k)) (view k)));
  CreateDirectoryA p := bool_call (fun k =>
    match mdir k !! p with Some _ => None | None => Some (set_dir (<[p := new_node k]> (mdir k)) (view k)) end);
  RemoveDirectoryA p := bool_call (fun k =>
    i ← mdir k !! p;
    match mnode k !! i with Some _ => None | None => Some (set_dir (delete p (mdir k)) (view k)) end);
  MoveFileA p q := bool_call (fun k =>
    i ← mdir k !! p;
    match mdir k !! q with Some _ => None | None => Some (set_dir (<[q := i]> (delete p (mdir k))) (view k)) end);
  ReplaceFileA q p k :=
    match plan k with
    | Fails e :: _ =>
      let v := if e =? ERROR_UNABLE_TO_MOVE_REPLACEMENT then set_dir (delete q (mdir k)) (view k) else view k in
      (false, set_merrno e (put v (tick k)))
    | _ =>
      bool_call (fun k =>
        i ← mdir k !! p; _ ← mdir k !! q;
        match mnode k !! i with
        | Some _ => Some (set_dir (<[q := i]> (delete p (mdir k))) (view k))
        | None => None
        end) k
    end;
  win_LockFile h _ _ _ _ := bool_call (fun k =>
    ds ← mfds k !! h;
    if decide (set_Forall (fun h' => fd_node <$> mfds k !! h' <> Some (fd_node ds)) (mlocks k))
    then Some (set_locks ({[ h ]} ∪ mlocks k) (view k)) else None);
  win_UnlockFile h _ _ _ _ := bool_call (fun k =>
    if decide (h ∈ mlocks k) then Some (set_locks (mlocks k ∖ {[ h ]}) (view k)) else None);
  win_getenv name k := None;
  GetTempPathA n k := ((4, bytes_of_string "tmp/"), k);
  thread_id k := bytes_of_string "1";
  fopen p := call None (fun _ k => (None, Some 0, k));
  GetSystemTimeAsFileTime k := ((0, 0), k);
}.

(** ** It keeps the laws *)

Lemma bool_call_cases op k b k' : bool_call op k = (b, k') ->
  b = false /\ view k' = view k \/
  b = true /\ exists v, op (tick k) = Some v /\ view k' = mkView (dir v) (node v) (fds v) (maps (view k)) (locks v).
Proof.
  unfold bool_call. intros H. called H; [by left..|]. destruct (op (tick k)) as [v|] eqn:E; simplify_eq.
  right. split; [done|]. by exists v.
Qed.

Lemma above_valid {A} (m : gmap Z A) : is_valid (above m) = true.
Proof.
  pose proof (above_pos m). unfold is_valid, above, INVALID_HANDLE_VALUE in *.
  assert (2 <= foldr Z.max 2 (map_to_list m).*1).
  { generalize ((map_to_list m).*1). intros l. induction l; cbn; lia. }
  destruct (Z.eqb_spec (1 + foldr Z.max 2 (map_to_list m).*1) (-1)); [lia|].
  destruct (Z.eqb_spec (1 + foldr Z.max 2 (map_to_list m).*1) 0); [lia|done].
Qed.

Lemma mem_create_existing p a s fl k h k' : CreateFileA p a s OPEN_EXISTING fl k = (h, k') -> is_valid h = true ->
  fds (view k) !! h = None /\
  exists i c, dir (view k) !! p = Some i /\ node (view k) !! i = Some c /\
    view k' = set_desc h (mkDesc i 0 (a =? FILE_APPEND_DATA)) (view k).
Proof.
  cbn [CreateFileA mem_win32]. intros H Hv. called H. cbn [tick mdir mnode mfds] in H.
  destruct (mdir k !! p) as [i|] eqn:Ei; [|done]. destruct (mnode k !! i) as [c|] eqn:Ec; [|done].
  injection H as <- <-. split; [apply above_fresh|]. by exists i, c.
Qed.

Lemma mem_create_always p a s d fl k h k' : CreateFileA p a s d fl k = (h, k') -> is_valid h = true ->
  d = CREATE_ALWAYS \/ d = OPEN_ALWAYS ->
  fds (view k) !! h = None /\
  exists i c, (dir (view k) !! p = Some i /\ node (view k) !! i = Some c \/
               dir (view k) !! p = None /\ unused i (view k) /\ c = []) /\
    view k' = set_desc h (mkDesc i 0 (a =? FILE_APPEND_DATA))
                (set_node i (if d =? CREATE_ALWAYS then [] else c)
                  (set_dir (<[p := i]> (dir (view k))) (view k))).
Proof.
  cbn [CreateFileA mem_win32]. intros H Hv Hd. called H. cbn [tick mdir mnode mfds] in H.
  assert ((d =? OPEN_EXISTING) = false) as Hex by (by destruct Hd as [->| ->]). rewrite Hex in H. unfold open_handle in H.
  destruct (mdir k !! p) as [i|] eqn:Ei.
  - destruct (mnode k !! i) as [c|] eqn:Ec; [|done]. injection H as <- <-.
    split; [apply above_fresh|]. exists i, c. split; [by left|done].
  - injection H as <- <-. split; [apply above_fresh|]. exists (new_node (tick k)), [].
    split; [right; split_and!; [done|apply (new_node_unused (tick k))|done]|done].
Qed.

Lemma mem_write h d k b r k' : WriteFile h d k = (b, r, k') ->
  (exists x, x `prefix_of` d /\ wrote h x (view k) (view k') /\ locks (view k') = locks (view k) /\
    (b = true -> blen x = r /\ is_Some (fds (view k) !! h))) /\ (b = true -> r = blen d).
Proof.
  cbn [WriteFile mem_win32]. intros H. called H.
  1,2: by split; [exists []; split_and!; [apply prefix_nil|apply wrote_refl|done|done]|done].
  cbn [tick mnode mfds] in H. destruct (mfds k !! h) as [ds|] eqn:Ed; [|done].
  destruct (mnode k !! fd_node ds) as [c|] eqn:Ec; [|done]. destruct (Z.ltb_spec (fd_pos ds) 0); [done|].
  injection H as <- <- <-. split; [|done]. exists d. split_and!; [done| |done|cbn; rewrite Ed; eauto].
  split_and!; [done|done|]. right. by exists ds, c.
Qed.

Lemma mem_overlapped h n hi lo k b d k' : ReadFile_overlapped h n hi lo k = (b, d, k') -> view k' = view k /\
  (b = true -> exists ds c, open_on (view k) h ds c /\ d = take (Z.to_nat n) (drop (Z.to_nat (Z.shiftl hi 32 + lo)) c)) /\
  (b = false -> GetLastError k' = ERROR_HANDLE_EOF -> d = [] /\ exists ds c, open_on (view k) h ds c /\ blen c <= Z.shiftl hi 32 + lo).
Proof.
  cbn [ReadFile_overlapped mem_win32]. unfold open_on. cbn [view fds node].
  destruct (mfds k !! h) as [ds|] eqn:Ed; cbn [mbind option_bind].
  2:{ destruct (plan k) as [|[|e|] ?]; intros [= <- <- <-]; (split_and!; [done|done|]); cbn [GetLastError mem_win32]; try done.
      cbn [set_merrno merrno]. intros _. by destruct (Z.eqb_spec e ERROR_HANDLE_EOF). }
  assert (forall e k, merrno (set_merrno e k) = e) as Hm by done.
  destruct (mnode k !! fd_node ds) as [c|] eqn:Ec; destruct (plan k) as [|[|e|] ?]; try destruct (Z.leb_spec (blen c) (Z.shiftl hi 32 + lo));
    intros [= <- <- <-]; (split_and!; [done|done || by intros _; exists ds, c|]); cbn [GetLastError mem_win32]; rewrite ?Hm;
    try done; try (by intros _ _; split; [done|]; exists ds, c).
  all: intros _; destruct (Z.eqb_spec e ERROR_HANDLE_EOF); done.
Qed.

Lemma mem_mapview m k base k' : MapViewOfFile m k = (base, k') -> base <> 0 ->
  maps (view k) !! base = None /\
  exists ds c, open_on (view k) m ds c /\ 0 <= base /\ base + blen c <= 2 ^ 64 /\
    view k' = set_maps (<[base := (fd_node ds, blen c)]> (maps (view k))) (view k).
Proof.
  cbn [MapViewOfFile mem_win32]. intros H Hb. called H. cbn [tick mfds mmapped mnode] in H.
  destruct (mfds k !! m) as [ds|] eqn:Ed; [|done]. destruct (mmapped k) eqn:Em; [done|].
  destruct (mnode k !! fd_node ds) as [c|] eqn:Ec; [|done]. destruct (Z.ltb_spec (2 ^ 64) (map_base + blen c)); [done|].
  injection H as <- <-. unfold view at 1. cbn [maps]. rewrite Em.
  split; [done|]. exists ds, c. split_and!; [done..|]. unfold view, set_maps. cbn. by rewrite Em.
Qed.

Lemma mem_replace_ok p q k k' : ReplaceFileA q p k = (true, k') ->
  is_Some (dir (view k) !! q) /\
  exists i, dir (view k) !! p = Some i /\ is_Some (node (view k) !! i) /\
    view k' = set_dir (<[q := i]> (delete p (dir (view k)))) (view k).
Proof.
  cbn [ReplaceFileA mem_win32]. intros H. cbn [view dir node] in *.
  assert (forall op, bool_call op k = (true, k') -> (op = fun k => i ← mdir k !! p; _ ← mdir k !! q;
     match mnode k !! i with Some _ => Some (set_dir (<[q := i]> (delete p (mdir k))) (view k)) | None => None end) ->
     is_Some (mdir k !! q) /\ exists i, mdir k !! p = Some i /\ is_Some (mnode k !! i) /\
       view k' = set_dir (<[q := i]> (delete p (mdir k))) (view k)) as Hgo.
  { intros op E ->. apply bool_call_cases in E as [[? _]|(_ & v & Hv & ->)]; [done|]. cbn in Hv.
    destruct (mdir k !! p) as [i|] eqn:Ep; [|done]. cbn in Hv. destruct (mdir k !! q) eqn:Eq; [|done]. cbn in Hv.
    destruct (mnode k !! i) eqn:Ec; [|done]. injection Hv as <-. split; [done|]. exists i. rewrite Ec. auto. }
  destruct (plan k) as [|[] ?] eqn:Ep; try done; by apply (Hgo _ H).
Qed.

Lemma mem_replace_fail p q k k' : ReplaceFileA q p k = (false, k') ->
  replace_failed q (GetLastError k') (view k) (view k').
Proof.
  cbn [ReplaceFileA mem_win32 GetLastError]. intros H.
  destruct (plan k) as [|[|e|] ?] eqn:Ep; try (left; apply bool_call_cases in H as [[_ ?]|[? _]]; done).
  injection H as <-. destruct (Z.eqb_spec e ERROR_UNABLE_TO_MOVE_REPLACEMENT) as [->|]; [|by left].
  right. by left.
Qed.

#[global] Instance mem_win32_ok : Win32Ok Mem view.
Proof.
  split.
  - cbn [CreateFileA mem_win32]. intros p a s d fl k h k' H Hr. called H. pose proof (above_valid (mfds (tick k))) as Hv.
    unfold open_handle in H. repeat case_match; simplify_eq; congruence.
  - exact mem_create_existing.
  - exact mem_create_always.
  - cbn [CloseHandle mem_win32 view fds]. intros h k b k' H [ds Hd]. rewrite Hd in H. repeat case_match; by simplify_eq.
  - cbn [CloseHandle mem_win32 view fds]. intros h k b k' H Hn. rewrite Hn in H. repeat case_match; by simplify_eq.
  - cbn [ReadFile mem_win32]. intros h n k d k' H. called H. repeat case_match; by simplify_eq.
  - cbn [ReadFile mem_win32]. intros h n k d k' H Hn. called H. cbn [tick mfds mnode] in H.
    destruct (mfds k !! h) as [ds|] eqn:Ed; [|done]. destruct (mnode k !! fd_node ds) as [c|] eqn:Ec; [|done].
    destruct (Z.ltb_spec (fd_pos ds) 0); [done|]. injection H as <- <-. by exists ds, c.
  - intros h n hi lo k. left. destruct (ReadFile_overlapped h n hi lo k) as [[b d] k'] eqn:E. by apply mem_overlapped in E as [? _].
  - intros h n hi lo k d k' E _. apply mem_overlapped in E as (_ & ? & _); auto.
  - intros h n hi lo k d k' E. apply mem_overlapped in E as (_ & _ & ?); auto.
  - intros h d k b r k' E. by apply mem_write in E as [? _].
  - intros h n k k' [[_ ?]|[? _]]%bool_call_cases; done.
  - intros h n k k' [[? _]|(_ & v & Hv & ->)]%bool_call_cases; [done|]. cbn in Hv. destruct (mfds k !! h) as [ds|] eqn:Ed; [|done].
    cbn in Hv. case_match eqn:Eb; [done|]. apply orb_false_iff in Eb as [?%Z.ltb_ge ?%Z.ltb_ge]. injection Hv as <-. by exists ds.
  - intros h k. apply call_view. intros. by repeat case_match.
  - cbn [GetFileSizeEx mem_win32]. intros h k size k' ds c H [Ho Hc]. called H. cbn [tick mfds mnode view fds node] in *.
    rewrite Ho in H. cbn in H. rewrite Hc in H. by simplify_eq.
  - cbn [CreateFileMappingA mem_win32]. intros h k m k' H Hr. called H. pose proof (above_valid (mfds (tick k))) as Hv.
    repeat case_match; simplify_eq; congruence.
  - cbn [CreateFileMappingA mem_win32]. intros h k m k' H Hr. called H. cbn [tick mfds mnode] in H.
    destruct (mfds k !! h) as [ds|] eqn:Ed; [|done]. destruct (mnode k !! fd_node ds) as [[|b c]|] eqn:Ec; [done| |done].
    injection H as <- <-. split; [apply above_fresh|]. exists ds, (b :: c). split_and!; [done|rewrite blen_cons; pose proof (blen_nonneg c); lia|done].
  - cbn [MapViewOfFile mem_win32]. intros m k k' H. called H. repeat case_match; by simplify_eq.
  - exact mem_mapview.
  - intros base k. cbn [UnmapViewOfFile mem_win32 view maps]. destruct (mmapped k) as [m|] eqn:Em; [|by intros [? ?]].
    intros [x [<- ->]%lookup_singleton_Some]. rewrite Z.eqb_refl. cbn. unfold view, set_maps. cbn. by rewrite delete_singleton_eq.
  - exact (load_ok (KernelOk := mem_kernel_ok)).
  - intros p k. apply call_view. intros. by repeat case_match.
  - cbn [GetFileAttributesExA mem_win32]. intros p k hi lo k' i c H Hi Hc. called H. cbn [tick mdir mnode view dir node] in *.
    rewrite Hi, Hc in H. injection H as <- <- <-. cbn [default from_option]. unfold id. rewrite Z.shiftl_mul_pow2, Z.shiftr_div_pow2 by lia.
    pose proof (blen_nonneg c). pose proof (Z.mod_pos_bound (blen c) (2 ^ 32) ltac:(lia)). pose proof (Z.div_pos (blen c) (2 ^ 32) ltac:(lia) ltac:(lia)).
    pose proof (Z.div_mod (blen c) (2 ^ 32) ltac:(lia)). lia.
  - intros p k k' [[? _]|(_ & v & Hv & ->)]%bool_call_cases; [done|]. cbn in Hv. destruct (mdir k !! p); cbn in Hv; by simplify_eq.
  - intros p k k' [[_ ?]|[? _]]%bool_call_cases; done.
  - intros p q k k' [[? _]|(_ & v & Hv & ->)]%bool_call_cases; [done|]. cbn in Hv |- *.
    destruct (mdir k !! p) as [i|] eqn:Ep; [|done]. cbn in Hv. destruct (mdir k !! q); simplify_eq. split; [by left|]. by exists i.
  - intros p q k k' [[_ ?]|[? _]]%bool_call_cases; done.
  - exact mem_replace_ok.
  - exact mem_replace_fail.
  - intros h k k' [[? _]|(_ & v & Hv & ->)]%bool_call_cases; [done|]. cbn in Hv. destruct (mfds k !! h) as [ds|] eqn:Ed; [|done].
    cbn in Hv. case_decide as Hl; [|done]. injection Hv as <-. exists ds. split_and!; [done| |done].
    intros h' ds' Hh' Hd' Hn. apply (Hl h' Hh'). cbn in Hd'. rewrite Hd'. cbn. by rewrite Hn.
  - intros h k k' [[_ ?]|[? _]]%bool_call_cases; done.
  - intros h k k' [[? _]|(_ & v & Hv & ->)]%bool_call_cases; [done|]. cbn in Hv. case_decide; by simplify_eq.
  - intros h k k' [[_ ?]|[? _]]%bool_call_cases; done.
Qed.

#[global] Instance mem_replace_loses : ReplaceLoses Mem view.
Proof.
  intros p q k k'. cbn [ReplaceFileA mem_win32 GetLastError]. destruct (plan k) as [|[|e|] l] eqn:Ep.
  3:{ intros [= <-] He. cbn in He. subst e. cbn. apply lookup_delete_eq. }
  all: unfold bool_call, call; rewrite Ep; intros H He; repeat case_match; simplify_eq; done.
Qed.

#[global] Instance mem_full_writes : FullWrites Mem.
Proof. intros h d k r k' E. apply mem_write in E as [_ Hr]. auto. Qed.

End MemWin32.
