(* ===== verification/WindowsFile.v ===== *)
(** The files of [util/env_windows.cpp]: the error helpers, [ScopedHandle],
    [Limiter], [WindowsSequentialFile], [WindowsRandomAccessFile],
    [WindowsMmapReadableFile] and [WindowsWritableFile], over any system that
    keeps the laws of [Win32]. *)

From S2P Require Import Prelude Status Env FileSystem Kernel Win32.

Section files.
Context {K : Type} `{!Win32 K}.

(** * Errors *)

Definition GetWindowsErrorMessage (error_code : Z) : bytes :=
  match FormatMessageA error_code with
  | None => []
  | Some error_text => error_text
  end.

Definition WindowsError (context : bytes) (error_code : Z) : Status :=
  if (error_code =? ERROR_FILE_NOT_FOUND) || (error_code =? ERROR_PATH_NOT_FOUND)
  then NotFound context (GetWindowsErrorMessage error_code)
  else IOError context (GetWindowsErrorMessage error_code).

(** * [ScopedHandle] *)

(** The object is its [handle_]. *)
Definition ScopedHandle_Release (handle_ : Z) : Z * Z := (handle_, INVALID_HANDLE_VALUE).

Definition ScopedHandle_Close (handle_ : Z) (k : K) : bool * Z * K :=
  if negb (is_valid handle_) then (true, handle_, k)
  else let '(b, k) := CloseHandle handle_ k in (b, INVALID_HANDLE_VALUE, k).

(** [~ScopedHandle] *)
Definition ScopedHandle_delete (handle_ : Z) (k : K) : K := (ScopedHandle_Close handle_ k).2.

(** * [Limiter] *)

Definition WindowsLimiter_Acquire (acquires_allowed : Z) : bool * Z :=
  let old_acquires_allowed := acquires_allowed in
  let acquires_allowed := s32 (acquires_allowed - 1) in
  if 0 <? old_acquires_allowed then (true, acquires_allowed)
  else (false, s32 (acquires_allowed + 1)).

Definition WindowsLimiter_Release (acquires_allowed : Z) : Z := s32 (acquires_allowed + 1).

(** * [WindowsSequentialFile] *)

Record WindowsSequentialFile := { wsf_filename : bytes; wsf_file : Z }.

(** An error leaves [*result] alone: [result] is what the caller passed. *)
Definition WindowsSequentialFile_Read (f : WindowsSequentialFile) (n scratch : Z) (result : Z * bytes) (k : K)
    : Status * (Z * bytes) * K :=
  let '((b, d), k) := ReadFile (wsf_file f) (u32 n) k in
  if negb b then (WindowsError (wsf_filename f) (GetLastError k), result, k)
  else (OK, (scratch, d), k).

Definition WindowsSequentialFile_Skip (f : WindowsSequentialFile) (n : Z) (k : K) : Status * K :=
  let '(b, k) := SetFilePointerEx (wsf_file f) (s64 n) k in
  if negb b then (WindowsError (wsf_filename f) (GetLastError k), k) else (OK, k).

(** * Random access *)

Inductive WindowsRandomFile :=
  | WindowsRandomAccessFile (filename : bytes) (handle : Z)
  | WindowsMmapReadableFile (filename : bytes) (mmapped_region length : Z).

Definition WindowsRandomAccessFile_Read (filename : bytes) (handle offset n scratch : Z) (k : K)
    : Status * (Z * bytes) * K :=
  let OffsetHigh := u32 (Z.shiftr offset 32) in
  let Offset := u32 offset in
  let '((b, d), k) := ReadFile_overlapped handle (u32 n) OffsetHigh Offset k in
  if negb b && negb (GetLastError k =? ERROR_HANDLE_EOF)
  then (IOError filename (GetWindowsErrorMessage (GetLastError k)), (scratch, []), k)
  else (OK, (scratch, d), k).

Definition WindowsMmapReadableFile_Read (filename : bytes) (mmapped_region length offset n : Z) (k : K)
    : Status * (Z * bytes) * K :=
  if length <? u64 (offset + n) then (WindowsError filename ERROR_INVALID_PARAMETER, (0, []), k)
  else (OK, (u64 (mmapped_region + offset), win_memory k (u64 (mmapped_region + offset)) n), k).

Definition WindowsRandomFile_Read (f : WindowsRandomFile) (offset n scratch : Z) (k : K)
    : Status * (Z * bytes) * K :=
  match f with
  | WindowsRandomAccessFile name h => WindowsRandomAccessFile_Read name h offset n scratch k
  | WindowsMmapReadableFile name base length => WindowsMmapReadableFile_Read name base length offset n k
  end.

(** The destructors, with the limiter of the mappings. *)
Definition WindowsRandomFile_delete (f : WindowsRandomFile) (mmap_limiter : Z) (k : K) : Z * K :=
  match f with
  | WindowsRandomAccessFile _ h => (mmap_limiter, ScopedHandle_delete h k)
  | WindowsMmapReadableFile _ base _ => (WindowsLimiter_Release mmap_limiter, (UnmapViewOfFile base k).2)
  end.

(** * [WindowsWritableFile] *)

Definition Windows_kWritableFileBufferSize : Z := 65536.

(** [ww_buf] is [buf_[0, pos_ - 1]]. *)
Record WindowsWritableFile := mkWindowsWritable {
  ww_filename : bytes;
  ww_handle : Z;
  ww_buf : bytes;
}.

Definition WindowsWritableFile_new (fname : bytes) (handle : Z) : WindowsWritableFile :=
  mkWindowsWritable fname handle [].

Definition set_ww_buf (b : bytes) (f : WindowsWritableFile) : WindowsWritableFile :=
  mkWindowsWritable (ww_filename f) (ww_handle f) b.

Definition WriteRaw (f : WindowsWritableFile) (p : bytes) (k : K) : Status * K :=
  let n := blen p in
  let '((b, bytes_written), k) := WriteFile (ww_handle f) (take (Z.to_nat (u32 n)) p) k in
  if negb b then (IOError (ww_filename f) (GetWindowsErrorMessage (GetLastError k)), k) else (OK, k).

Definition FlushBuffered (f : WindowsWritableFile) (k : K) : Status * WindowsWritableFile * K :=
  let '(s, k) := WriteRaw f (ww_buf f) k in
  (s, set_ww_buf [] f, k).

Definition WindowsWritableFile_Append (f : WindowsWritableFile) (data : bytes) (k : K)
    : Status * WindowsWritableFile * K :=
  let n := blen data in
  let copy := Z.min n (Windows_kWritableFileBufferSize - blen (ww_buf f)) in
  let f := set_ww_buf (ww_buf f ++ take (Z.to_nat copy) data) f in
  let p := drop (Z.to_nat copy) data in
  let n := n - copy in
  if n =? 0 then (OK, f, k)
  else
    let '(s, f, k) := FlushBuffered f k in
    if negb (ok s) then (s, f, k)
    else if n <? Windows_kWritableFileBufferSize then (OK, set_ww_buf p f, k)
    else let '(s, k) := WriteRaw f p k in (s, f, k).

Definition WindowsWritableFile_Close (f : WindowsWritableFile) (k : K) : Status * WindowsWritableFile * K :=
  let '(result, f, k) := FlushBuffered f k in
  let '(closed, handle, k) := ScopedHandle_Close (ww_handle f) k in
  let result := if negb closed && ok result then WindowsError (ww_filename f) (GetLastError k) else result in
  (result, mkWindowsWritable (ww_filename f) handle (ww_buf f), k).

Definition WindowsWritableFile_Flush (f : WindowsWritableFile) (k : K) : Status * WindowsWritableFile * K :=
  FlushBuffered f k.

Definition WindowsWritableFile_Sync (f : WindowsWritableFile) (k : K) : Status * WindowsWritableFile * K :=
  FlushBuffered f k.

(** [~WindowsWritableFile]: the handle is closed, and the buffer is dropped. *)
Definition WindowsWritableFile_delete (f : WindowsWritableFile) (k : K) : K :=
  ScopedHandle_delete (ww_handle f) k.

(** * Locks *)

Definition WindowsLockOrUnlock (handle : Z) (lock : bool) (k : K) : bool * K :=
  if lock then win_LockFile handle 0 0 MAXDWORD MAXDWORD k
  else win_UnlockFile handle 0 0 MAXDWORD MAXDWORD k.

Record WindowsFileLock := { wlk_handle : Z; wlk_name : bytes }.

End files.

(** * The writable file *)

Section writable_facts.
Context {K : Type} `{!Win32 K} {view : K -> FsView} `{!Win32Ok K view}.

Lemma WindowsError_not_ok context e : ok (WindowsError context e) = false.
Proof. unfold WindowsError. by case_match. Qed.

Lemma u32_id n : 0 <= n < 2 ^ 32 -> u32 n = n.
Proof. intros Hn. unfold u32. by apply Z.mod_small. Qed.

(** What [WriteRaw] writes is a prefix, all of it on success when writes are
    complete and the length is a [DWORD]. *)
Lemma WriteRaw_spec f p k st k' : WriteRaw f p k = (st, k') ->
  exists d, wrote (ww_handle f) d (view k) (view k') /\ locks (view k') = locks (view k) /\ d `prefix_of` p /\
    (ok st = true -> is_Some (fds (view k) !! ww_handle f)) /\
    (FullWrites K -> blen p < 2 ^ 32 -> ok st = true -> d = p).
Proof.
  unfold WriteRaw. destruct (WriteFile _ _ k) as [[b r] k1] eqn:E.
  destruct (WriteFile_wrote _ _ _ _ _ _ E) as (x & Hx & Hw & Hlk & Hr). intros Hst.
  exists x. assert (k' = k1 /\ (ok st = true -> b = true)) as [-> Hb] by (destruct b; by injection Hst as <- <-).
  split_and!; [done|done|etrans; [exact Hx|apply prefix_take]|intros Hok; by apply Hr, Hb|].
  intros Hfw Hl Hok. specialize (Hb Hok). subst b. destruct (Hr eq_refl) as [Hlen _].
  pose proof (WriteFile_full _ _ _ _ _ E) as ->. pose proof (blen_nonneg p). rewrite u32_id, take_ge in * by (unfold blen in *; lia).
  destruct Hx as [y ->]. rewrite blen_app in Hlen. destruct y; [by rewrite app_nil_r|]. rewrite blen_cons in Hlen. pose proof (blen_nonneg y). lia.
Qed.

Lemma FlushBuffered_spec f k st f' k' : FlushBuffered f k = (st, f', k') ->
  f' = set_ww_buf [] f /\
  exists d, wrote (ww_handle f) d (view k) (view k') /\ locks (view k') = locks (view k) /\ d `prefix_of` ww_buf f /\
    (ok st = true -> is_Some (fds (view k) !! ww_handle f)) /\
    (FullWrites K -> blen (ww_buf f) < 2 ^ 32 -> ok st = true -> d = ww_buf f).
Proof.
  unfold FlushBuffered. destruct (WriteRaw f (ww_buf f) k) as [s k1] eqn:E.
  intros [= <- <- <-]. split; [done|]. by apply (WriteRaw_spec _ _ _ _ _ E).
Qed.

(** What reaches the file and what stays in the buffer, in every case. *)
Lemma WindowsWritableFile_Append_spec f data k st f' k' : WindowsWritableFile_Append f data k = (st, f', k') ->
  blen (ww_buf f) <= Windows_kWritableFileBufferSize ->
  exists d b, wrote (ww_handle f) d (view k) (view k') /\ locks (view k') = locks (view k) /\ f' = set_ww_buf b f /\
    blen b <= Windows_kWritableFileBufferSize /\ d ++ b `sublist_of` ww_buf f ++ data /\
    (FullWrites K -> blen data < 2 ^ 32 -> ok st = true -> d ++ b = ww_buf f ++ data).
Proof.
  unfold WindowsWritableFile_Append. set (copy := Z.min (blen data) _). intros E Hbuf.
  destruct (Z.eqb_spec (blen data - copy) 0) as [Hz|Hz].
  { injection E as <- <- <-. exists [], (ww_buf f ++ data). split_and!; [apply wrote_refl|done| | |done|done].
    - rewrite take_ge; [done|]. unfold blen in *. lia.
    - rewrite blen_app. unfold copy in *. lia. }
  destruct (FlushBuffered _ k) as [[s1 f1] k1] eqn:E1.
  apply FlushBuffered_spec in E1 as (-> & d1 & Hw1 & Hlk1 & Hp1 & _ & Hok1). cbn [set_ww_buf ww_buf ww_handle] in *.
  assert (blen (ww_buf f ++ take (Z.to_nat copy) data) < 2 ^ 32) as Hsmall
    by (rewrite blen_app, blen_take; unfold copy, Windows_kWritableFileBufferSize in *; lia).
  assert (d1 `sublist_of` ww_buf f ++ take (Z.to_nat copy) data) as Hs1 by (destruct Hp1 as [x ->]; by apply sublist_inserts_r).
  assert (ww_buf f ++ data = (ww_buf f ++ take (Z.to_nat copy) data) ++ drop (Z.to_nat copy) data) as ->
    by (by rewrite <- app_assoc, take_drop).
  destruct (ok s1) eqn:Hs; cbn [negb] in E.
  2:{ injection E as <- <- <-. exists d1, []. rewrite app_nil_r. split_and!; [done|done|done|done|by apply sublist_inserts_r|congruence]. }
  destruct (Z.ltb_spec (blen data - copy) Windows_kWritableFileBufferSize) as [Hl|Hl].
  - injection E as <- <- <-. exists d1, (drop (Z.to_nat copy) data). split_and!; [done|done|done| |by apply sublist_app|].
    + rewrite blen_drop. unfold copy in *. pose proof (blen_nonneg data). unfold Windows_kWritableFileBufferSize in *. lia.
    + intros Hfw _ _. by rewrite Hok1.
  - destruct (WriteRaw _ _ k1) as [s2 k2] eqn:E2.
    apply WriteRaw_spec in E2 as (d2 & Hw2 & Hlk2 & Hp2 & _ & Hok2). cbn [set_ww_buf ww_handle] in Hw2. injection E as <- <- <-.
    eexists _, []. rewrite app_nil_r. split_and!; [exact (wrote_app _ _ _ _ _ _ Hw1 Hw2)|congruence|done|done| |].
    + apply sublist_app; [done|]. destruct Hp2 as [x ->]. by apply sublist_inserts_r.
    + intros Hfw Hd Hok. rewrite Hok1, Hok2; [done|done| |done|done|done|done]. rewrite blen_drop. unfold copy in *. pose proof (blen_nonneg data). lia.
Qed.

(** ** Sequences of calls *)

Inductive windows_writable_call := WAppend (data : bytes) | WFlush | WSync.

Definition windows_appended (c : windows_writable_call) : bytes :=
  match c with WAppend data => data | _ => [] end.

Definition windows_do_call (c : windows_writable_call) (f : WindowsWritableFile) (k : K)
    : Status * WindowsWritableFile * K :=
  match c with
  | WAppend data => WindowsWritableFile_Append f data k
  | WFlush => WindowsWritableFile_Flush f k
  | WSync => WindowsWritableFile_Sync f k
  end.

Fixpoint windows_do_calls (cs : list windows_writable_call) (f : WindowsWritableFile) (k : K)
    : list Status * WindowsWritableFile * K :=
  match cs with
  | [] => ([], f, k)
  | c :: cs =>
    let '(st, f, k) := windows_do_call c f k in
    let '(sts, f, k) := windows_do_calls cs f k in
    (st :: sts, f, k)
  end.

Lemma windows_do_call_spec c f k st f' k' : windows_do_call c f k = (st, f', k') ->
  blen (ww_buf f) <= Windows_kWritableFileBufferSize ->
  exists d b, wrote (ww_handle f) d (view k) (view k') /\ f' = set_ww_buf b f /\
    blen b <= Windows_kWritableFileBufferSize /\ d ++ b `sublist_of` ww_buf f ++ windows_appended c /\
    (FullWrites K -> blen (windows_appended c) < 2 ^ 32 -> ok st = true -> d ++ b = ww_buf f ++ windows_appended c).
Proof.
  intros E Hp. assert (blen (ww_buf f) < 2 ^ 32) by (unfold Windows_kWritableFileBufferSize in Hp; lia).
  destruct c as [data| |]; cbn [windows_do_call windows_appended] in *; rewrite ?app_nil_r.
  - apply WindowsWritableFile_Append_spec in E as (d & b & ? & _ & ? & ? & ? & ?); [|done]. by exists d, b.
  - apply FlushBuffered_spec in E as (-> & d & Hw & _ & [x Hd] & _ & Hok). exists d, []. rewrite app_nil_r.
    split_and!; [done|done|done|rewrite Hd; by apply sublist_inserts_r|auto].
  - apply FlushBuffered_spec in E as (-> & d & Hw & _ & [x Hd] & _ & Hok). exists d, []. rewrite app_nil_r.
    split_and!; [done|done|done|rewrite Hd; by apply sublist_inserts_r|auto].
Qed.

Lemma windows_do_calls_spec cs f k sts f' k' : windows_do_calls cs f k = (sts, f', k') ->
  blen (ww_buf f) <= Windows_kWritableFileBufferSize ->
  exists d b, wrote (ww_handle f) d (view k) (view k') /\ f' = set_ww_buf b f /\
    blen b <= Windows_kWritableFileBufferSize /\ d ++ b `sublist_of` ww_buf f ++ concat (windows_appended <$> cs) /\
    (FullWrites K -> Forall (fun c => blen (windows_appended c) < 2 ^ 32) cs ->
     Forall (fun st => ok st = true) sts -> d ++ b = ww_buf f ++ concat (windows_appended <$> cs)).
Proof.
  revert f k sts f' k'. induction cs as [|c cs IH]; intros f k sts f' k' E Hp; cbn [windows_do_calls] in E.
  { injection E as <- <- <-. exists [], (ww_buf f). cbn. rewrite app_nil_r.
    split_and!; [apply wrote_refl|by destruct f|done|done|done]. }
  destruct (windows_do_call c f k) as [[st f1] k1] eqn:E1.
  apply windows_do_call_spec in E1 as (d1 & b1 & Hw1 & -> & Hb1 & Hsub1 & Hok1); [|done].
  destruct (windows_do_calls cs _ k1) as [[sts' f2] k2] eqn:E2.
  apply IH in E2 as (d2 & b2 & Hw2 & -> & Hb2 & Hsub2 & Hok2); [|done]. cbn [set_ww_buf ww_handle ww_buf] in Hw2, Hsub2, Hok2.
  injection E as <- <- <-. exists (d1 ++ d2), b2. split_and!.
  - by apply wrote_app with (view k1).
  - done.
  - done.
  - cbn [fmap list_fmap concat]. rewrite <- app_assoc. etrans; [apply sublist_app; [reflexivity|exact Hsub2]|].
    rewrite !app_assoc. by apply sublist_app.
  - intros Hfw [Hd Hds]%Forall_cons [Hst Hsts]%Forall_cons. cbn [fmap list_fmap concat].
    rewrite <- app_assoc, Hok2, !app_assoc, Hok1 by done. done.
Qed.

(** Whatever the system does to the writes (short writes, errors at any
    point), a [WindowsWritableFile] under any sequence of [Append], [Flush] and
    [Sync] calls keeps at most 64 KB back, changes no other file, and what it
    put into the file followed by what it still holds are the bytes appended,
    each at most once and in order.  When no call failed they are exactly the
    bytes appended, provided writes that succeed are complete and no single
    [Append] is of 4 GB or more: the code ignores the count that [WriteFile]
    returns, and cuts the length to 32 bits. *)
Theorem WindowsWritableFile_ordered (calls : list windows_writable_call) (f : WindowsWritableFile) (k : K) :
  blen (ww_buf f) <= Windows_kWritableFileBufferSize ->
  let '(sts, f', k') := windows_do_calls calls f k in
  blen (ww_buf f') <= Windows_kWritableFileBufferSize /\
  exists d, wrote (ww_handle f) d (view k) (view k') /\
    d ++ ww_buf f' `sublist_of` ww_buf f ++ concat (windows_appended <$> calls) /\
    (FullWrites K -> Forall (fun c => blen (windows_appended c) < 2 ^ 32) calls ->
     Forall (fun st => ok st = true) sts -> d ++ ww_buf f' = ww_buf f ++ concat (windows_appended <$> calls)).
Proof.
  intros Hp. destruct (windows_do_calls calls f k) as [[sts f'] k'] eqn:E.
  apply windows_do_calls_spec in E as (d & b & Hw & -> & Hb & Hsub & Hok); [|done]. split; [done|]. by exists d.
Qed.

(** [ScopedHandle::Close] leaves an invalid handle and a closed one. *)
Lemma ScopedHandle_Close_spec h k b h' k' : ScopedHandle_Close h k = (b, h', k') ->
  fds (view k) !! h = None \/ is_valid h = true ->
  is_valid h' = false /\ fds (view k') = delete h (fds (view k)) /\
  dir (view k') = dir (view k) /\ node (view k') = node (view k) /\ maps (view k') = maps (view k) /\
  (locks (view k') = locks (view k) \/ locks (view k') = locks (view k) ∖ {[ h ]}).
Proof.
  unfold ScopedHandle_Close. destruct (is_valid h) eqn:Hv; cbn [negb].
  - destruct (CloseHandle h k) as [b1 k1] eqn:E. intros [= <- <- <-] _. destruct (fds (view k) !! h) eqn:Hd.
    + apply CloseHandle_closes in E; [|by eexists]. rewrite E. cbn. auto 10.
    + apply CloseHandle_closed in E as [_ ->]; [|done]. rewrite delete_id by done. auto 10.
  - intros [= <- <- <-] [Hn|?]; [|done]. rewrite delete_id by done. auto 10.
Qed.

End writable_facts.

(** * Reading *)

Section read_facts.
Context {K : Type} `{!Win32 K} {view : K -> FsView} `{!Win32Ok K view}.

Lemma WindowsSequentialFile_Read_spec f n scratch result k st a d k' : 0 <= n < 2 ^ 32 ->
  WindowsSequentialFile_Read f n scratch result k = (st, (a, d), k') -> ok st = true ->
  d = take (Z.to_nat n) (fd_remaining (wsf_file f) (view k)) /\
  fd_remaining (wsf_file f) (view k') = drop (Z.to_nat n) (fd_remaining (wsf_file f) (view k)).
Proof.
  intros Hn. unfold WindowsSequentialFile_Read. rewrite u32_id by done. destruct (ReadFile _ n k) as [[b d1] k1] eqn:E.
  destruct b; cbn [negb]; intros Hres; simplify_eq; [|by rewrite WindowsError_not_ok]. intros _.
  destruct (ReadFile_ok _ _ _ _ _ E ltac:(lia)) as (ds & c & Ho & Hp & Hd & Hv).
  rewrite Hv, (seek_remaining _ _ _ _ _ Ho), (open_on_remaining _ _ _ _ Ho) by (pose proof (blen_nonneg d); lia).
  split; [done|]. replace (fd_pos ds + blen d - fd_pos ds) with (blen d) by lia. rewrite Hd, blen_take.
  destruct (Z.leb_spec n (blen (rest_of ds c))); [f_equal; unfold blen in *; lia|]. rewrite !drop_ge by (unfold blen in *; lia). done.
Qed.

Lemma WindowsSequentialFile_Skip_spec f n k st k' : 0 <= n < 2 ^ 63 ->
  WindowsSequentialFile_Skip f n k = (st, k') -> ok st = true ->
  fd_remaining (wsf_file f) (view k') = drop (Z.to_nat n) (fd_remaining (wsf_file f) (view k)).
Proof.
  intros Hn. unfold WindowsSequentialFile_Skip. rewrite s64_small by done. destruct (SetFilePointerEx _ _ k) as [b k1] eqn:E.
  destruct b; cbn [negb]; intros [= <- <-]; [|by rewrite WindowsError_not_ok]. intros _.
  destruct (SetFilePointer_ok _ _ _ _ E) as (ds & Ho & Hp & Hp' & Hv). rewrite Hv.
  destruct (node (view k) !! fd_node ds) as [c|] eqn:Hc.
  - rewrite (seek_remaining _ _ ds c) by (done || lia). f_equal. lia.
  - unfold fd_remaining. cbn. rewrite lookup_insert_eq. cbn. rewrite Hc, Ho, Hc. by rewrite drop_nil.
Qed.

(** The object reads a file with content [c]. *)
Definition windows_random_ok (f : WindowsRandomFile) (c : bytes) (v : FsView) : Prop :=
  match f with
  | WindowsRandomAccessFile _ h => exists ds, open_on v h ds c
  | WindowsMmapReadableFile _ base length =>
    0 <= base /\ base + length <= 2 ^ 64 /\
    exists i, maps v !! base = Some (i, length) /\ node v !! i = Some c /\ length = blen c
  end.

(** The names, the contents, the mappings and which handles are open. *)
Definition same_but_positions (v v' : FsView) : Prop :=
  dir v' = dir v /\ node v' = node v /\ maps v' = maps v /\ locks v' = locks v /\
  (fd_node <$> fds v') = (fd_node <$> fds v).

Lemma seek_same_but_positions h ds p v : fds v !! h = Some ds -> same_but_positions v (seek_desc h ds p v).
Proof.
  intros Hd. split_and!; try done. apply map_eq. intros j. cbn. rewrite !lookup_fmap.
  destruct (decide (j = h)) as [->|]; [by rewrite lookup_insert_eq, Hd|by rewrite lookup_insert_ne].
Qed.

Lemma same_but_positions_random f c v v' : same_but_positions v v' -> windows_random_ok f c v -> windows_random_ok f c v'.
Proof.
  intros (_ & Hn & Hm & _ & Hf). destruct f as [name h|name base len]; cbn.
  - intros (ds & Hd & Hc). assert (fd_node <$> fds v' !! h = Some (fd_node ds)) as Hx
      by (rewrite <- lookup_fmap, Hf, lookup_fmap, Hd; done).
    destruct (fds v' !! h) as [ds'|] eqn:Ed; [|done]. injection Hx as Hx. exists ds'. split; [done|]. by rewrite Hn, Hx.
  - by rewrite Hn, Hm.
Qed.

Lemma offset_parts offset : 0 <= offset < 2 ^ 64 ->
  Z.shiftl (u32 (Z.shiftr offset 32)) 32 + u32 offset = offset.
Proof.
  intros Ho. unfold u32. rewrite Z.shiftl_mul_pow2, Z.shiftr_div_pow2 by lia.
  pose proof (Z.div_pos offset (2 ^ 32) ltac:(lia) ltac:(lia)).
  rewrite (Z.mod_small (offset / 2 ^ 32)); [pose proof (Z.div_mod offset (2 ^ 32) ltac:(lia)); lia|].
  split; [done|]. apply Z.div_lt_upper_bound; lia.
Qed.

(** A random access file, with a handle or a view of the file: a successful
    read returns the bytes of the file at the offset, cut short only by the end
    of the file, and changes no more than the handle's position.  A view
    answers exactly the reads within the file. *)
Lemma WindowsRandomFile_reads f c offset n scratch k st a d k' :
  windows_random_ok f c (view k) -> 0 <= offset -> 0 <= n < 2 ^ 32 -> offset + n < 2 ^ 64 ->
  WindowsRandomFile_Read f offset n scratch k = (st, (a, d), k') ->
  same_but_positions (view k) (view k') /\ windows_random_ok f c (view k') /\
  (ok st = true -> d = take (Z.to_nat n) (drop (Z.to_nat offset) c)) /\
  match f with
  | WindowsMmapReadableFile _ _ _ => ok st = bool_decide (offset + n <= blen c)
  | _ => True
  end.
Proof.
  intros Hf Ho Hn Hs E. destruct f as [name h|name base len]; cbn [WindowsRandomFile_Read] in E.
  - revert E. unfold WindowsRandomAccessFile_Read. rewrite (u32_id n) by done. pose proof (offset_parts offset ltac:(lia)) as Hparts.
    pose proof (ReadFile_overlapped_view h n (u32 (Z.shiftr offset 32)) (u32 offset) k) as Hv.
    destruct (ReadFile_overlapped h n _ _ k) as [[b d1] k1] eqn:E. cbn [snd] in Hv.
    assert (same_but_positions (view k) (view k1)) as Hsame
      by (destruct Hv as [->|(ds & p & Hd & ->)]; [done|by apply seek_same_but_positions]).
    intros Hres. assert (k' = k1) as -> by (by destruct (negb b && _); injection Hres).
    split_and!; [done|by apply (same_but_positions_random _ _ (view k))| |done].
    destruct Hf as (ds & Hds & Hc). destruct b; cbn [negb andb] in Hres.
    + simplify_eq. intros _. apply ReadFile_overlapped_ok in E as (ds' & c' & [Hds' Hc'] & ->); [|lia].
      rewrite Hparts. congruence.
    + destruct (Z.eqb_spec (GetLastError k1) ERROR_HANDLE_EOF) as [He|He]; cbn [negb] in Hres; [|by simplify_eq].
      simplify_eq. intros _. apply ReadFile_overlapped_eof in E as (-> & ds' & c' & [Hds' Hc'] & Hl); [|done].
      rewrite Hparts in Hl. assert (c' = c) as -> by congruence. rewrite drop_ge, take_nil; [done|]. unfold blen in Hl. lia.
  - destruct Hf as (Hb & Hbl & i & Hm & Hc & ->). unfold WindowsMmapReadableFile_Read in E. unfold u64 at 1 in E. rewrite Z.mod_small in E by lia.
    destruct (Z.ltb_spec (blen c) (offset + n)); injection E as <- <- <- <-; (split; [done|]; split; [by split_and!; [| |exists i]|]; split).
    + by rewrite WindowsError_not_ok.
    + rewrite bool_decide_false by lia. apply WindowsError_not_ok.
    + intros _. destruct (decide (n = 0)) as [->|]; [done|]. unfold u64. rewrite Z.mod_small by lia. by apply (win_memory_mapped k base i); [..|lia|lia].
    + by rewrite bool_decide_true by lia.
Qed.

End read_facts.
