(* ===== verification/WindowsEnv.v ===== *)
(** [WindowsEnv] of [util/env_windows.cpp]: the file system operations, the
    locks and the constructor's limit.  [windows_env] is the environment that
    clients see; it keeps the contract [EnvOk], but for renames, which may lose
    their target when they fail. *)

From S2P Require Import Prelude Status Logging Env FileName FileSystem Kernel PosixFile PosixEnv PosixThreads Win32 WindowsFile.

(** * The object *)

(** [system] is what lies under it and [w_writables] the heap of
    [WindowsWritableFile] objects. *)
Record WindowsEnv (K : Type) := mkWindowsEnv {
  system : K;
  w_writables : gmap nat WindowsWritableFile;
  w_mmap_limiter : Z;
}.
Arguments mkWindowsEnv {_}.
Arguments system {_}.
Arguments w_writables {_}.
Arguments w_mmap_limiter {_}.

Definition set_system {K : Type} (k : K) (e : WindowsEnv K) : WindowsEnv K :=
  mkWindowsEnv k (w_writables e) (w_mmap_limiter e).
Definition set_w_writables {K : Type} (m : gmap nat WindowsWritableFile) (e : WindowsEnv K) : WindowsEnv K :=
  mkWindowsEnv (system e) m (w_mmap_limiter e).
Definition set_w_limit {K : Type} (l : Z) (e : WindowsEnv K) : WindowsEnv K :=
  mkWindowsEnv (system e) (w_writables e) l.

Section env.
Context {K : Type} `{!Win32 K}.
Implicit Types e : WindowsEnv K.

(** Run a call. *)
Definition win {A} (call : State K A) (e : WindowsEnv K) : A * WindowsEnv K :=
  let '(a, k) := call (system e) in (a, set_system k e).

Definition last_error (e : WindowsEnv K) : Z := GetLastError (system e).

(** The end of a [ScopedHandle]'s scope. *)
Definition leave_scope (handle : Z) (e : WindowsEnv K) : WindowsEnv K :=
  set_system (ScopedHandle_delete handle (system e)) e.

(** A call that reports success with [TRUE]. *)
Definition win_status (context : bytes) (call : State K bool) e : Status * WindowsEnv K :=
  let '(b, e) := win call e in
  if negb b then (WindowsError context (last_error e), e) else (OK, e).

(** * Opening files *)

Definition WindowsEnv_NewSequentialFile (fname : bytes) e
    : Status * option WindowsSequentialFile * WindowsEnv K :=
  let '(handle, e) := win (CreateFileA (c_str fname) GENERIC_READ FILE_SHARE_READ OPEN_EXISTING FILE_ATTRIBUTE_NORMAL) e in
  if negb (is_valid handle) then (WindowsError fname (last_error e), None, e)
  else (OK, Some {| wsf_filename := fname; wsf_file := handle |}, e).

Definition WindowsEnv_NewRandomAccessFile (fname : bytes) e
    : Status * option WindowsRandomFile * WindowsEnv K :=
  let '(handle, e) := win (CreateFileA (c_str fname) GENERIC_READ FILE_SHARE_READ OPEN_EXISTING FILE_ATTRIBUTE_READONLY) e in
  if negb (is_valid handle) then (WindowsError fname (last_error e), None, e)
  else
    let '(acquired, mmap_limiter) := WindowsLimiter_Acquire (w_mmap_limiter e) in
    let e := set_w_limit mmap_limiter e in
    if negb acquired then (OK, Some (WindowsRandomAccessFile fname handle), e)
    else
      let '((sized, file_size), e) := win (GetFileSizeEx handle) e in
      if negb sized then
        let s := WindowsError fname (last_error e) in
        (s, None, leave_scope handle e)
      else
        let '(mapping, e) := win (CreateFileMappingA handle) e in
        let '(base, e) := if is_valid mapping then win (MapViewOfFile mapping) e else (0, e) in
        if negb (base =? 0) then
          (OK, Some (WindowsMmapReadableFile fname base (u64 file_size)), leave_scope handle (leave_scope mapping e))
        else
          let s := WindowsError fname (last_error e) in
          let e := if negb (ok s) then set_w_limit (WindowsLimiter_Release (w_mmap_limiter e)) e else e in
          (s, None, leave_scope handle (leave_scope mapping e)).

(** [delete] of a random access file. *)
Definition delete_windows_random (f : WindowsRandomFile) e : WindowsEnv K :=
  let '(mmap_limiter, k) := WindowsRandomFile_delete f (w_mmap_limiter e) (system e) in
  set_w_limit mmap_limiter (set_system k e).

(** A handle is the address of its object and, for the specification, the name
    the object was opened with. *)
Record WindowsHandle := { wwh_id : nat; wwh_name : bytes }.

(** [new WindowsWritableFile], or the error. *)
Definition new_windows_writable (fname : bytes) (handle : Z) e
    : Status * option WindowsHandle * WindowsEnv K :=
  if negb (is_valid handle) then (WindowsError fname (last_error e), None, e)
  else
    let id := fresh (dom (w_writables e)) in
    (OK, Some {| wwh_id := id; wwh_name := fname |},
     set_w_writables (<[id := WindowsWritableFile_new fname handle]> (w_writables e)) e).

Definition WindowsEnv_NewWritableFile (fname : bytes) e
    : Status * option WindowsHandle * WindowsEnv K :=
  let '(handle, e) := win (CreateFileA (c_str fname) GENERIC_WRITE 0 CREATE_ALWAYS FILE_ATTRIBUTE_NORMAL) e in
  new_windows_writable fname handle e.

Definition WindowsEnv_NewAppendableFile (fname : bytes) e
    : Status * option WindowsHandle * WindowsEnv K :=
  let '(handle, e) := win (CreateFileA (c_str fname) FILE_APPEND_DATA 0 OPEN_ALWAYS FILE_ATTRIBUTE_NORMAL) e in
  new_windows_writable fname handle e.

(** * Names *)

Definition WindowsEnv_FileExists (fname : bytes) e : bool * WindowsEnv K :=
  let '(r, e) := win (GetFileAttributesA (c_str fname)) e in
  (negb (r =? INVALID_FILE_ATTRIBUTES), e).

(** The [do] loop; [None] when the turns run out. *)
Fixpoint WindowsEnv_GetChildren_loop (fuel : nat) (dir_handle : Z) (cFileName : bytes) (result : list bytes) e
    : option (list bytes * WindowsEnv K) :=
  match fuel with
  | O => None
  | S fuel =>
    let result :=
      match splitpath cFileName with
      | Some (base_name, ext) => result ++ [base_name ++ ext]
      | None => result
      end in
    let '((more, cFileName), e) := win (FindNextFileA dir_handle) e in
    if more then WindowsEnv_GetChildren_loop fuel dir_handle cFileName result e
    else Some (result, e)
  end.

(** [result] is what the caller's vector holds: it is not cleared. *)
Definition WindowsEnv_GetChildren (fuel : nat) (dir : bytes) (result : list bytes) e
    : option (Status * list bytes * WindowsEnv K) :=
  let find_pattern := dir ++ [bz 92; bz 42] in
  let '((dir_handle, cFileName), e) := win (FindFirstFileA (c_str find_pattern)) e in
  if dir_handle =? INVALID_HANDLE_VALUE then
    let error := last_error e in
    if error =? ERROR_FILE_NOT_FOUND then Some (OK, result, e)
    else Some (WindowsError dir error, result, e)
  else
    match WindowsEnv_GetChildren_loop fuel dir_handle cFileName result e with
    | Some (result, e) =>
      let error := last_error e in
      let '(_, e) := win (FindClose dir_handle) e in
      if negb (error =? ERROR_NO_MORE_FILES) then Some (WindowsError dir error, result, e)
      else Some (OK, result, e)
    | None => None
    end.

Definition WindowsEnv_DeleteFile (fname : bytes) e : Status * WindowsEnv K :=
  win_status fname (DeleteFileA (c_str fname)) e.

Definition WindowsEnv_CreateDir (name : bytes) e : Status * WindowsEnv K :=
  win_status name (CreateDirectoryA (c_str name)) e.

Definition WindowsEnv_DeleteDir (name : bytes) e : Status * WindowsEnv K :=
  win_status name (RemoveDirectoryA (c_str name)) e.

(** [size] is what the caller's variable holds. *)
Definition WindowsEnv_GetFileSize (fname : bytes) (size : Z) e : Status * Z * WindowsEnv K :=
  let '((b, (nFileSizeHigh, nFileSizeLow)), e) := win (GetFileAttributesExA (c_str fname)) e in
  if negb b then (WindowsError fname (last_error e), size, e)
  else (OK, Z.lor (Z.shiftl (u32 nFileSizeHigh) 32) (u32 nFileSizeLow), e).

Definition WindowsEnv_RenameFile (src target : bytes) e : Status * WindowsEnv K :=
  let '(moved, e) := win (MoveFileA (c_str src) (c_str target)) e in
  if moved then (OK, e)
  else
    let move_error := last_error e in
    let '(replaced, e) := win (ReplaceFileA (c_str target) (c_str src)) e in
    if replaced then (OK, e)
    else
      let replace_error := last_error e in
      if (replace_error =? ERROR_FILE_NOT_FOUND) || (replace_error =? ERROR_PATH_NOT_FOUND)
      then (WindowsError src move_error, e)
      else (WindowsError src replace_error, e).

(** * Locks *)

Definition WindowsEnv_LockFile (fname : bytes) e : Status * option WindowsFileLock * WindowsEnv K :=
  let '(handle, e) := win (CreateFileA (c_str fname) (Z.lor GENERIC_READ GENERIC_WRITE) FILE_SHARE_READ OPEN_ALWAYS
                             FILE_ATTRIBUTE_NORMAL) e in
  if negb (is_valid handle) then (WindowsError fname (last_error e), None, e)
  else
    let '(locked, e) := win (WindowsLockOrUnlock handle true) e in
    if negb locked then
      let result := WindowsError (bytes_of_string "lock " ++ fname) (last_error e) in
      (result, None, leave_scope handle e)
    else (OK, Some {| wlk_handle := handle; wlk_name := fname |}, e).

(** The lock object is freed, and its handle closed, in any case. *)
Definition WindowsEnv_UnlockFile (lock : WindowsFileLock) e : Status * WindowsEnv K :=
  let '(unlocked, e) := win (WindowsLockOrUnlock (wlk_handle lock) false) e in
  let result := if negb unlocked then WindowsError (bytes_of_string "unlock") (last_error e) else OK in
  (result, leave_scope (wlk_handle lock) e).

(** * The rest *)

(** [result] is what the caller's string holds. *)
Definition WindowsEnv_GetTestDirectory (result : bytes) e : Status * bytes * WindowsEnv K :=
  match win_getenv (bytes_of_string "TEST_TMPDIR") (system e) with
  | Some (c :: env) => (OK, c :: env, e)
  | _ =>
    let '((r, tmp_path), e) := win (GetTempPathA 260) e in
    if r =? 0 then (WindowsError (bytes_of_string "GetTempPath") (last_error e), result, e)
    else
      let result := tmp_path ++ bytes_of_string "leveldbtest-" ++ thread_id (system e) in
      let '(_, e) := WindowsEnv_CreateDir result e in
      (OK, result, e)
  end.

(** The logger is made on the [FILE]. *)
Definition WindowsEnv_NewLogger (filename : bytes) e : Status * option Z * WindowsEnv K :=
  let '(fp, e) := win (fopen (c_str filename)) e in
  match fp with
  | None => (WindowsError (bytes_of_string "NewLogger") (last_error e), None, e)
  | Some fp => (OK, Some fp, e)
  end.

Definition WindowsEnv_NowMicros e : Z * WindowsEnv K :=
  let '((dwHighDateTime, dwLowDateTime), e) := win GetSystemTimeAsFileTime e in
  let num_ticks := u64 (u64 (Z.shiftl dwHighDateTime 32) + dwLowDateTime) in
  (num_ticks / 10, e).

(** [g_mmap_limit], and the setter of [EnvWindowsTestHelper]. *)
Definition Windows_kDefaultMmapLimit : Z := 1000.

Definition Windows_SetReadOnlyMMapLimit (limit g_mmap_limit : Z) : Z := limit.

(** The result, and [g_mmap_limit]. *)
Definition Windows_MaxMmaps (g_mmap_limit : Z) : Z * Z :=
  if 0 <=? g_mmap_limit then (g_mmap_limit, g_mmap_limit)
  else let g_mmap_limit := 1000 in (g_mmap_limit, g_mmap_limit).

(** [WindowsEnv::WindowsEnv()] *)
Definition WindowsEnv_new (g_mmap_limit : Z) (k : K) : WindowsEnv K * Z :=
  let '(max, g_mmap_limit) := Windows_MaxMmaps g_mmap_limit in
  (mkWindowsEnv k ∅ max, g_mmap_limit).

(** * The interface *)

(** Call a method of the object behind a handle. *)
Definition with_windows_object (h : WindowsHandle)
    (m : WindowsWritableFile -> K -> Status * WindowsWritableFile * K) e : Status * WindowsEnv K :=
  match w_writables e !! wwh_id h with
  | Some f =>
    let '(st, f, k) := m f (system e) in
    (st, set_w_writables (<[wwh_id h := f]> (w_writables e)) (set_system k e))
  | None => (IOError (bytes_of_string "no such object") [], e)
  end.

Definition delete_windows_object (h : WindowsHandle) e : unit * WindowsEnv K :=
  match w_writables e !! wwh_id h with
  | Some f => (tt, set_w_writables (delete (wwh_id h) (w_writables e))
                     (set_system (WindowsWritableFile_delete f (system e)) e))
  | None => (tt, e)
  end.

#[export] Instance windows_writable : WritableFileOps WindowsHandle (WindowsEnv K) := {
  Append h d := with_windows_object h (fun f => WindowsWritableFile_Append f d);
  Close h := with_windows_object h WindowsWritableFile_Close;
  Flush h := with_windows_object h WindowsWritableFile_Flush;
  Sync h := with_windows_object h WindowsWritableFile_Sync;
}.

(** Callers pass an empty slice for the result. *)
#[export] Instance windows_sequential : SequentialFileOps WindowsSequentialFile (WindowsEnv K) := {
  Read f n scratch := win (WindowsSequentialFile_Read f n scratch (0, []));
  Skip f n := win (WindowsSequentialFile_Skip f n);
}.

#[export] Instance windows_env : Env (WindowsEnv K) := {
  WritableFile := WindowsHandle;
  SequentialFile := WindowsSequentialFile;
  NewWritableFile := WindowsEnv_NewWritableFile;
  NewSequentialFile := WindowsEnv_NewSequentialFile;
  delete_writable := delete_windows_object;
  delete_sequential f e := (tt, leave_scope (wsf_file f) e);
  DeleteFile := WindowsEnv_DeleteFile;
  RenameFile := WindowsEnv_RenameFile;
}.

End env.

(** * The background work *)

(** An entry of [queue_]. *)
Record BGItem (F A : Type) := { bg_function : F; bg_arg : A }.

Section background.
Context {F A : Type}.
Import BackgroundWork.
Notation bg_state := (work_state (BGItem F A)).

(** The state has the fields of the queue of [PosixEnv]: [mu_],
    [started_bgthread_] and [queue_], where the background thread and the
    callers are, and the histories.  A step of thread [t] in [Schedule]: the
    [lock_guard], the start of the thread, the notification, the [push_back]
    with the assignments to the new item, and the end of the guard. *)
Inductive WindowsEnv_Schedule_step (t : nat) : bg_state -> bg_state -> Prop :=
  | w_guard item started queue b c e r k : c !! t = Some Outside ->
      WindowsEnv_Schedule_step t (mkState None started queue b c e r k)
        (mkState (Some (Client t)) started queue b (<[t := Locked item]> c) e r k)
  | w_started item mu queue b c e r k : c !! t = Some (Locked item) ->
      WindowsEnv_Schedule_step t (mkState mu true queue b c e r k)
        (mkState mu true queue b (<[t := Started item]> c) e r k)
  | w_start item mu queue b c e r k : c !! t = Some (Locked item) ->
      WindowsEnv_Schedule_step t (mkState mu false queue b c e r k)
        (mkState mu true queue ToLock (<[t := Started item]> c) e r (S k))
  | w_notify item mu started b c e r k : c !! t = Some (Started item) ->
      WindowsEnv_Schedule_step t (mkState mu started [] b c e r k)
        (mkState mu started [] (Signal b) (<[t := Signalled item]> c) e r k)
  | w_no_notify item mu started i queue b c e r k : c !! t = Some (Started item) ->
      WindowsEnv_Schedule_step t (mkState mu started (i :: queue) b c e r k)
        (mkState mu started (i :: queue) b (<[t := Signalled item]> c) e r k)
  | w_push item mu started queue b c e r k : c !! t = Some (Signalled item) ->
      WindowsEnv_Schedule_step t (mkState mu started queue b c e r k)
        (mkState mu started (queue ++ [item]) b (<[t := Emplaced]> c) (e ++ [item]) r k)
  | w_unguard mu started queue b c e r k : c !! t = Some Emplaced ->
      WindowsEnv_Schedule_step t (mkState mu started queue b c e r k)
        (mkState None started queue b (<[t := Outside]> c) e r k).

(** A step of [BGThread]: the [unique_lock], the predicate of the [wait], the
    wakeup, the pop, the [unlock], the call. *)
Inductive WindowsEnv_BGThread_step : bg_state -> bg_state -> Prop :=
  | w_lock started queue c e r k :
      WindowsEnv_BGThread_step (mkState None started queue ToLock c e r k)
        (mkState (Some Background) started queue Checking c e r k)
  | w_wait mu started c e r k :
      WindowsEnv_BGThread_step (mkState mu started [] Checking c e r k) (mkState None started [] Waiting c e r k)
  | w_woken started queue c e r k :
      WindowsEnv_BGThread_step (mkState None started queue Woken c e r k)
        (mkState (Some Background) started queue Checking c e r k)
  | w_pop mu started item queue c e r k :
      WindowsEnv_BGThread_step (mkState mu started (item :: queue) Checking c e r k)
        (mkState mu started queue (Popped item) c e r k)
  | w_unlock mu started item queue c e r k :
      WindowsEnv_BGThread_step (mkState mu started queue (Popped item) c e r k)
        (mkState None started queue (Running item) c e r k)
  | w_call mu started item queue c e r k :
      WindowsEnv_BGThread_step (mkState mu started queue (Running item) c e r k)
        (mkState mu started queue ToLock c e (r ++ [item]) k).

Inductive WindowsEnv_work_step : bg_state -> bg_state -> Prop :=
  | w_schedule t s s' : WindowsEnv_Schedule_step t s s' -> WindowsEnv_work_step s s'
  | w_background s s' : WindowsEnv_BGThread_step s s' -> WindowsEnv_work_step s s'
  | w_spurious mu started queue c e r k :
      WindowsEnv_work_step (mkState mu started queue Waiting c e r k) (mkState mu started queue Woken c e r k).

(** Both environments take the same steps. *)
Lemma WindowsEnv_work_step_posix s s' : WindowsEnv_work_step s s' <-> BackgroundWork.work_step s s'.
Proof.
  split.
  - intros [t x y Hs|x y Hs|]; [apply (step_client t)|apply step_background|apply step_spurious].
    + destruct Hs; [by constructor|by apply (s_start t _ _ true)|by apply (s_start t _ _ false)
        |by apply (s_signal t _ _ _ [])|by apply (s_signal t _ _ _ (_ :: _))|by constructor|by constructor].
    + destruct Hs; by constructor.
  - intros [t x y Hs|x y Hs|]; [apply (w_schedule t)|apply w_background|apply w_spurious].
    + destruct Hs as [|? ? []|? ? ? []| |]; by constructor.
    + destruct Hs; by constructor.
Qed.

End background.

(** * The contract *)

Section env_facts.
Context {K : Type} `{!Win32 K} {view : K -> FsView} `{!Win32Ok K view}.
Implicit Types e : WindowsEnv K.

Definition wview (e : WindowsEnv K) : FsView := view (system e).

Definition wenv_files (e : WindowsEnv K) : gmap bytes bytes := vfiles (wview e).

Definition wenv_inv (e : WindowsEnv K) : Prop := view_ok (wview e).

(** What one [WriteFile] can be asked to write. *)
Definition dword_long (d : bytes) : Prop := blen d < 2 ^ 32.

Record live_windows_file (name : bytes) (f : WindowsWritableFile) (v : FsView) : Prop := {
  lw_at : live_at name (ww_handle f) v;
  lw_handle : is_valid (ww_handle f) = true \/ ww_handle f = -1;
  lw_buf : blen (ww_buf f) <= Windows_kWritableFileBufferSize;
}.

Definition wenv_live (h : WindowsHandle) (e : WindowsEnv K) : Prop :=
  path_ok (wwh_name h) /\ view_ok (wview e) /\
  exists f, w_writables e !! wwh_id h = Some f /\ live_windows_file (wwh_name h) f (wview e).

(** Everything appended: in the file, then in the buffer. *)
Definition wenv_written (h : WindowsHandle) (e : WindowsEnv K) : bytes :=
  match w_writables e !! wwh_id h with
  | Some f => fd_written (ww_handle f) (wview e) ++ ww_buf f
  | None => []
  end.

Definition wenv_remaining (f : WindowsSequentialFile) (e : WindowsEnv K) : bytes :=
  fd_remaining (wsf_file f) (wview e).

(** A method that writes [d] and leaves [b] in the buffer. *)
Definition windows_writes (m : WindowsWritableFile -> K -> Status * WindowsWritableFile * K) (data : bytes) : Prop :=
  forall f k st f' k', m f k = (st, f', k') -> blen (ww_buf f) <= Windows_kWritableFileBufferSize ->
  exists d b, wrote (ww_handle f) d (view k) (view k') /\ f' = set_ww_buf b f /\ blen b <= Windows_kWritableFileBufferSize /\
    (FullWrites K -> dword_long data -> ok st = true -> d ++ b = ww_buf f ++ data).

Lemma windows_Append_writes d : windows_writes (fun f => WindowsWritableFile_Append f d) d.
Proof.
  intros f k st f' k' E Hb. apply (windows_do_call_spec (WAppend d)) in E as (x & b & ? & -> & ? & _ & ?); [|done]. eauto 10.
Qed.

Lemma windows_Flush_writes : windows_writes FlushBuffered [].
Proof.
  intros f k st f' k' E Hb. apply (windows_do_call_spec WFlush) in E as (x & b & ? & -> & ? & _ & ?); [|done]. eauto 10.
Qed.

Lemma with_windows_object_ok `{!FullWrites K} m data h e st e' : windows_writes m data -> dword_long data -> wenv_live h e ->
  with_windows_object h m e = (st, e') -> ok st = true -> wenv_written h e' = wenv_written h e ++ data.
Proof.
  intros Hm Hd (_ & _ & f & Hf & Hl). unfold with_windows_object, wenv_written. rewrite Hf.
  destruct (m f (system e)) as [[st1 f'] k'] eqn:E. intros [= <- <-] Hok. destruct (Hm _ _ _ _ _ E (lw_buf _ _ _ Hl)) as (d & b & Hw & -> & _ & Hdb).
  unfold wview. cbn. rewrite lookup_insert_eq. cbn. rewrite (fd_written_wrote _ _ _ _ Hw), <- !app_assoc. f_equal. auto.
Qed.

Lemma with_windows_object_live m data h e : windows_writes m data -> wenv_live h e ->
  wenv_live h (with_windows_object h m e).2 /\
  forall g, g <> wwh_name h -> wenv_files (with_windows_object h m e).2 !! g = wenv_files e !! g.
Proof.
  intros Hm (Hp & Hv & f & Hf & [Hl Hh Hb]). unfold with_windows_object. rewrite Hf.
  destruct (m f (system e)) as [[st f'] k'] eqn:E. destruct (Hm _ _ _ _ _ E Hb) as (d & b & Hw & -> & Hb' & _). cbn [snd].
  split; [|intros g Hg; by apply (wrote_frame _ _ _ _ _ _ Hv Hl Hw)].
  split_and!; [done|by apply (wrote_view_ok _ _ _ _ _ Hv Hl Hw)|]. exists (set_ww_buf b f). cbn. rewrite lookup_insert_eq.
  split; [done|]. split; [|done|done]. by apply (wrote_live _ _ _ _ _ Hv Hl Hw).
Qed.

Lemma view_ok_handles v v' : view_ok v -> dir v' = dir v -> node v' = node v -> fds v' !! (-1) = None -> view_ok v'.
Proof. intros [_ Hi] Hd Hn Hf. split; [done|]. by rewrite Hd, Hn. Qed.

Lemma view_ok_delete h v v' : view_ok v -> dir v' = dir v -> node v' = node v -> fds v' = delete h (fds v) -> view_ok v'.
Proof.
  intros Hv Hd Hn Hf. apply (view_ok_handles v); [done..|]. rewrite Hf. apply lookup_delete_None. right. apply Hv.
Qed.

(** [Close] on a live file. *)
Lemma windows_Close_spec h e st e' : wenv_live h e -> with_windows_object h WindowsWritableFile_Close e = (st, e') ->
  wenv_live h e' /\ (exists f', w_writables e' !! wwh_id h = Some f' /\ ww_handle f' = -1) /\
  (forall g, g <> wwh_name h -> wenv_files e' !! g = wenv_files e !! g) /\
  (FullWrites K -> ok st = true -> wenv_files e' !! wwh_name h = Some (wenv_written h e)).
Proof.
  intros (Hp & Hv & f & Hf & [Hl Hh Hb]). unfold with_windows_object, wenv_written. rewrite Hf.
  unfold WindowsWritableFile_Close. destruct (FlushBuffered f (system e)) as [[s1 f1] k1] eqn:E1.
  apply FlushBuffered_spec in E1 as (-> & d & Hw & _ & _ & Hopen & Hok). cbn [set_ww_buf ww_handle ww_filename ww_buf].
  destruct (ScopedHandle_Close (ww_handle f) k1) as [[closed handle] k2] eqn:E2.
  pose proof (wrote_view_ok _ _ _ _ _ Hv Hl Hw) as Hv1. pose proof (wrote_live _ _ _ _ _ Hv Hl Hw) as Hl1.
  assert (handle = -1) as ->.
  { revert E2. unfold ScopedHandle_Close. destruct (is_valid (ww_handle f)) eqn:Hval; cbn [negb].
    - destruct (CloseHandle _ k1). by intros [= <- <- <-].
    - intros [= <- <- <-]. by destruct Hh. }
  apply ScopedHandle_Close_spec in E2 as (_ & Hf2 & Hd2 & Hn2 & _); [|destruct Hh as [?| ->]; [by right|left; apply Hv1]].
  intros [= <- <-]. assert (vfiles (view k2) = vfiles (view k1)) as Hfs by (by apply vfiles_same). split_and!.
  - split_and!; [done| |].
    + by apply (view_ok_delete (ww_handle f) (view k1)).
    + eexists. cbn. rewrite lookup_insert_eq. split; [done|]. split; cbn; [by left|by right|done].
  - eexists. cbn. by rewrite lookup_insert_eq.
  - intros g Hg. unfold wenv_files, wview. cbn. rewrite Hfs. by apply (wrote_frame _ _ _ _ _ _ Hv Hl Hw).
  - intros Hfw Hst. assert (ok s1 = true) as Hs1.
    { destruct (ok s1) eqn:Hx; [done|]. rewrite andb_false_r in Hst. congruence. }
    unfold wenv_files, wview. cbn. rewrite Hfs. unfold Windows_kWritableFileBufferSize in Hb.
    rewrite <- (Hok Hfw ltac:(lia) Hs1), <- (fd_written_wrote _ _ _ _ Hw). apply live_content; [done|].
    intros Hx. destruct (Hopen Hs1) as [ds Hds]. rewrite Hx in Hds. destruct Hv as [Hm _]. unfold wview in Hm. congruence.
Qed.

(** The destructor: whatever the buffer holds, the files stay as they are. *)
Lemma delete_windows_object_spec h e : wenv_live h e ->
  wenv_inv (delete_windows_object h e).2 /\ wenv_files (delete_windows_object h e).2 = wenv_files e.
Proof.
  intros (Hp & Hv & f & Hf & [Hl Hh Hb]). unfold delete_windows_object. rewrite Hf. cbn [snd].
  unfold WindowsWritableFile_delete, ScopedHandle_delete.
  destruct (ScopedHandle_Close (ww_handle f) (system e)) as [[b h'] k'] eqn:E. cbn [snd].
  apply ScopedHandle_Close_spec in E as (_ & Hf2 & Hd2 & Hn2 & _); [|destruct Hh as [?| ->]; [by right|left; apply Hv]].
  split; [by apply (view_ok_delete (ww_handle f) (wview e))|by apply vfiles_same].
Qed.

Lemma valid_handle h : is_valid h = true -> h <> -1 /\ h <> 0.
Proof. unfold is_valid, INVALID_HANDLE_VALUE. destruct (Z.eqb_spec h (-1)), (Z.eqb_spec h 0); done. Qed.

(** A file opened for writing, from its start. *)
Lemma WindowsEnv_NewWritableFile_spec f e st r e' : path_ok f -> wenv_inv e ->
  WindowsEnv_NewWritableFile f e = (st, r, e') ->
  wenv_inv e' /\ (forall g, g <> f -> wenv_files e' !! g = wenv_files e !! g) /\
  (ok st = true -> exists h, r = Some h /\ wwh_name h = f /\ wenv_live h e' /\ wenv_written h e' = []).
Proof.
  intros Hf Hi. unfold WindowsEnv_NewWritableFile, win, new_windows_writable.
  rewrite Hf. destruct (CreateFileA _ _ _ _ _ (system e)) as [h k'] eqn:E. destruct (is_valid h) eqn:Hv; cbn [negb].
  2:{ intros [= <- <- <-]. apply (CreateFile_fail (view := view)) in E; [|done]. unfold wenv_inv, wenv_files, wview. cbn.
      rewrite E, WindowsError_not_ok. done. }
  intros [= <- <- <-]. destruct (valid_handle h Hv) as [Hm1 _].
  apply (CreateFile_always (view := view)) in E as (Hn & i & c & Hc & Hview); [|done|by left]. cbn in Hview.
  destruct (creat_view f h i c [] false _ Hi Hm1 Hc) as [Hok Hfr]. split_and!.
  - unfold wenv_inv, wview. cbn. by rewrite Hview.
  - intros g Hg. unfold wenv_files, wview. cbn. rewrite Hview. by apply Hfr.
  - intros _. eexists. split; [done|]. split; [done|].
    unfold wenv_live, wenv_written, wview. cbn. rewrite lookup_insert_eq, Hview. cbn. split_and!; [done|done| |].
    + eexists. split; [done|]. split; cbn; [|by left|done]. right. exists (mkDesc i 0 false), []. unfold open_on. cbn.
      by rewrite !lookup_insert_eq.
    + unfold fd_written. cbn. rewrite lookup_insert_eq. cbn. by rewrite lookup_insert_eq.
Qed.

Lemma win_status_spec ctx (call : State K bool) e st e' : win_status ctx call e = (st, e') ->
  exists b k', call (system e) = (b, k') /\ e' = set_system k' e /\ ok st = b.
Proof.
  unfold win_status, win. destruct (call (system e)) as [b k'] eqn:E.
  destruct b; cbn [negb]; intros [= <- <-]; eexists _, _; (split; [done|]); [done|]. by rewrite WindowsError_not_ok.
Qed.

Lemma WindowsEnv_DeleteFile_spec f e : path_ok f ->
  (wenv_inv e -> wenv_inv (WindowsEnv_DeleteFile f e).2) /\
  forall g, g <> f -> wenv_files (WindowsEnv_DeleteFile f e).2 !! g = wenv_files e !! g.
Proof.
  intros Hf. destruct (WindowsEnv_DeleteFile f e) as [st e'] eqn:E. apply win_status_spec in E as (b & k' & E & -> & _).
  rewrite Hf in E. cbn [snd]. unfold wenv_inv, wenv_files, wview. cbn. destruct b.
  - rewrite (DeleteFileA_ok (view := view) _ _ _ E). apply unlink_view.
  - by rewrite (DeleteFileA_fail (view := view) _ _ _ E).
Qed.

Lemma WindowsEnv_RenameFile_ok src target d e st e' : path_ok src -> path_ok target -> wenv_inv e ->
  wenv_files e !! src = Some d -> WindowsEnv_RenameFile src target e = (st, e') -> ok st = true ->
  wenv_files e' = <[target := d]> (delete src (wenv_files e)) /\ wenv_inv e'.
Proof.
  intros Hs Ht Hv Hd. unfold WindowsEnv_RenameFile, win. rewrite Hs, Ht.
  unfold wenv_files in Hd. rewrite vfiles_lookup in Hd. destruct (dir (wview e) !! src) as [i|] eqn:Hsrc; [|done]. cbn in Hd.
  destruct (MoveFileA src target (system e)) as [[] k1] eqn:E1.
  { intros [= <- <-] _. destruct (MoveFileA_ok (view := view) _ _ _ _ E1) as (_ & j & Hj & E). assert (j = i) as -> by (unfold wview in Hsrc; congruence).
    unfold wenv_inv, wenv_files, wview in *. cbn. rewrite E. by apply rename_view. }
  apply (MoveFileA_fail (view := view)) in E1. cbn [system set_system].
  destruct (ReplaceFileA target src k1) as [[] k2] eqn:E2.
  - intros [= <- <-] _. unfold wenv_inv, wenv_files, wview in *. cbn. rewrite <- E1 in Hsrc, Hd |- *.
    destruct (ReplaceFileA_ok (view := view) _ _ _ _ E2) as (_ & j & Hj & _ & E). assert (j = i) as -> by congruence. rewrite E. apply rename_view; [|done..]. by rewrite E1.
  - case_match; intros [= <- <-]; by rewrite WindowsError_not_ok.
Qed.

(** What a rename that failed can have done: nothing, or it lost the target. *)
Lemma WindowsEnv_RenameFile_fail src target e st e' : path_ok target -> wenv_inv e ->
  WindowsEnv_RenameFile src target e = (st, e') -> ok st = false ->
  replace_failed target (last_error e') (wview e) (wview e').
Proof.
  intros Ht Hv. unfold WindowsEnv_RenameFile, win. rewrite Ht.
  destruct (MoveFileA _ target (system e)) as [[] k1] eqn:E1; [by intros [= <- <-]|].
  apply (MoveFileA_fail (view := view)) in E1. cbn [system set_system].
  destruct (ReplaceFileA target _ k1) as [[] k2] eqn:E2; [by intros [= <- <-]|].
  apply (ReplaceFileA_fail (view := view)) in E2. rewrite E1 in E2. intros E _.
  assert (e' = set_system k2 (set_system k1 e)) as -> by (by case_match; injection E). exact E2.
Qed.

Lemma replace_failed_files target err v v' : view_ok v -> replace_failed target err v v' ->
  (vfiles v' = vfiles v \/ lost target (vfiles v) (vfiles v')) /\ view_ok v'.
Proof.
  intros Hv [->|[[_ ->]|(_ & other & i & Ht & Ho & ->)]]; [by split; [left|]| |].
  - split; [|by apply unlink_view]. right. left. unfold vfiles. cbn. by rewrite omap_delete.
  - destruct (node v !! i) as [d|] eqn:Hn.
    + destruct (rename_view target other i d v Hv Ht Hn) as [-> ?]. split; [|done]. right. right. exists other, d.
      by rewrite !vfiles_lookup, Ht, Ho.
    + split.
      * left. apply map_eq. intros p. rewrite !vfiles_lookup. cbn.
        destruct (decide (p = other)) as [->|]; [by rewrite lookup_insert_eq, Ho|]. rewrite lookup_insert_ne by done.
        destruct (decide (p = target)) as [->|]; [by rewrite lookup_delete_eq, Ht|by rewrite lookup_delete_ne].
      * destruct Hv as [Hm Hi]. split; [done|]. cbn. intros p q j Hp Hq Hj.
        apply lookup_insert_Some in Hp as [[<- <-]|[? [? Hp]%lookup_delete_Some]]; [by rewrite Hn in Hj; destruct Hj|].
        apply lookup_insert_Some in Hq as [[<- <-]|[? [? Hq]%lookup_delete_Some]]; [by rewrite Hn in Hj; destruct Hj|]. by apply (Hi p q j).
Qed.

#[export] Instance windows_sequential_ok : SequentialFileOk WindowsSequentialFile (WindowsEnv K) wenv_remaining.
Proof.
  split; cbn [Read Skip windows_sequential]; unfold win.
  - intros f n scratch e st a d e' Hn E Hok. destruct (WindowsSequentialFile_Read f n scratch _ (system e)) as [[st1 [a1 d1]] k'] eqn:Er.
    injection E as <- <- <- <-. apply (WindowsSequentialFile_Read_spec (view := view)) in Er; [done|lia|done].
  - intros f n e st e' Hn E Hok. destruct (WindowsSequentialFile_Skip f n (system e)) as [st1 k'] eqn:Er.
    injection E as <- <-. by apply (WindowsSequentialFile_Skip_spec (view := view)) in Er.
Qed.

Lemma WindowsEnv_NewSequentialFile_spec f e st file e' : path_ok f ->
  WindowsEnv_NewSequentialFile f e = (st, file, e') -> ok st = true ->
  exists h, file = Some h /\ wenv_files e !! f = Some (wenv_remaining h e').
Proof.
  intros Hf. unfold WindowsEnv_NewSequentialFile, win. rewrite Hf. destruct (CreateFileA _ _ _ _ _ (system e)) as [h k'] eqn:E.
  destruct (is_valid h) eqn:Hv; cbn [negb]; intros [= <- <- <-]; [|by rewrite WindowsError_not_ok]. intros _.
  apply (CreateFile_existing (view := view)) in E as (Hn & i & c & Hi & Hc & Hview); [|done].
  eexists. split; [done|]. unfold wenv_files, wenv_remaining, fd_remaining, wview. cbn. rewrite vfiles_lookup, Hi, Hview. cbn.
  rewrite lookup_insert_eq. cbn. by rewrite Hc.
Qed.

(** [WindowsEnv] is the environment that the utilities assume, with renames
    that may lose their target. *)
#[export] Instance windows_env_ok `{!FullWrites K} :
  EnvOk (WindowsEnv K) path_ok dword_long True wenv_files wenv_inv wwh_name wenv_live wenv_written wenv_remaining.
Proof.
  split; try apply _; cbn [NewWritableFile NewSequentialFile delete_writable DeleteFile RenameFile windows_env Append Sync Close windows_writable].
  - intros h d e s e' Hl Hd. apply with_windows_object_ok; [apply windows_Append_writes|done..].
  - by intros h e (_ & ? & _).
  - intros f e s file e' Hf Hi E Hok. apply WindowsEnv_NewWritableFile_spec in E as (_ & _ & Hh); auto.
  - intros f e Hf Hi. destruct (WindowsEnv_NewWritableFile f e) as [[st r] e'] eqn:E. apply WindowsEnv_NewWritableFile_spec in E as (? & _); done.
  - intros h d e Hl. apply (with_windows_object_live _ d); [apply windows_Append_writes|done].
  - intros h e Hl. apply (with_windows_object_live _ []); [apply windows_Flush_writes|done].
  - intros h e Hl. change (Close h e) with (with_windows_object h WindowsWritableFile_Close e). destruct (with_windows_object h WindowsWritableFile_Close e) as [st e'] eqn:E. apply windows_Close_spec in E as (? & _); done.
  - intros h e Hl. by apply delete_windows_object_spec.
  - intros f e Hf. by apply WindowsEnv_DeleteFile_spec.
  - intros f e g Hf Hi Hg. destruct (WindowsEnv_NewWritableFile f e) as [[st r] e'] eqn:E. apply WindowsEnv_NewWritableFile_spec in E as (_ & ? & _); auto.
  - intros h d e g Hl. by apply (with_windows_object_live _ d); [apply windows_Append_writes|].
  - intros h e g Hl. by apply (with_windows_object_live _ []); [apply windows_Flush_writes|].
  - intros h e g Hl. change (Close h e) with (with_windows_object h WindowsWritableFile_Close e). destruct (with_windows_object h WindowsWritableFile_Close e) as [st e'] eqn:E. apply windows_Close_spec in E as (_ & _ & ? & _); auto.
  - intros h e g Hl _. by rewrite (proj2 (delete_windows_object_spec h e Hl)).
  - intros f e g Hf. by apply WindowsEnv_DeleteFile_spec.
  - intros h e st e' Hl E Hok. rewrite (with_windows_object_ok _ [] h e st e' windows_Flush_writes eq_refl Hl E Hok). apply app_nil_r.
  - intros h e st e' Hl E. apply windows_Close_spec in E as (_ & _ & _ & ?); auto.
  - intros h e st e' Hl E _. apply windows_Close_spec in E as (Hl' & _); [|done]. by apply delete_windows_object_spec.
  - exact WindowsEnv_RenameFile_ok.
  - intros src target e st e' _ Ht E Hok Hi. apply WindowsEnv_RenameFile_fail in E; [|done..].
    destruct (replace_failed_files _ _ _ _ Hi E) as [[?|?] ?]; auto.
  - intros f e st file e' Hf E Hok. apply WindowsEnv_NewSequentialFile_spec in E as (h & -> & Hh); [|done|done]. eauto.
Qed.

End env_facts.

(** * Switching CURRENT *)

Section current.
Context {K : Type} `{!Win32 K} {view : K -> FsView} `{!Win32Ok K view} `{!FullWrites K}.

Lemma manifest_fits n : 0 <= n < 2 ^ 64 -> dword_long (str "MANIFEST-" ++ print_u64_06 n ++ newline).
Proof.
  intros Hn. unfold dword_long. rewrite !blen_app. pose proof (print_u64_06_length n). unfold blen at 2.
  change (blen (str "MANIFEST-")) with 9. change (blen newline) with 1. lia.
Qed.

(** C22: switching CURRENT on [WindowsEnv], down to the system calls, whichever
    of them fail: CURRENT names the new descriptor exactly when
    [SetCurrentFile] reports success; when it reports an error CURRENT is as it
    was, or it is gone.  No other file that exists is touched but the temporary
    one. *)
Theorem WindowsEnv_switches_current (db g : bytes) (n : Z) (e : WindowsEnv K) :
  0 <= n < 2 ^ 64 -> path_ok (TempFileName db n) -> path_ok (CurrentFileName db) ->
  view_ok (view (system e)) ->
  let '(s, e') := SetCurrentFile db n e in
  let fs := vfiles (view (system e)) in
  let fs' := vfiles (view (system e')) in
  (ok s = true -> fs' !! CurrentFileName db = Some (str "MANIFEST-" ++ print_u64_06 n ++ newline)) /\
  (ok s = false -> fs' !! CurrentFileName db = fs !! CurrentFileName db \/ fs' !! CurrentFileName db = None) /\
  (g <> CurrentFileName db -> g <> TempFileName db n -> is_Some (fs !! g) -> fs' !! g = fs !! g) /\
  view_ok (view (system e')).
Proof.
  intros Hn Ht Hc Hv. pose proof (manifest_fits n Hn) as Hfit.
  pose proof (SetCurrentFile_spec (files := wenv_files (view := view)) db g n e Hn Ht Hc Hfit Hv) as H.
  destruct (SetCurrentFile db n e) as [s e']. destruct H as (H1 & H2 & H3 & H4).
  split_and!; [by intros [? _]%H1|intros Hs; destruct (H2 Hs); tauto| |done].
  intros Ha Hb [c Hg]. destruct (H3 Ha Hb) as [?|[_ Hno]]; [done|]. unfold wenv_files, wview in Hno. congruence.
Qed.

(** C36: a failed switch can lose CURRENT, on every system that keeps the
    documentation of [ReplaceFile].  There is a CURRENT file and the temporary
    file has been written; [RenameFile], since CURRENT exists, ends up in
    [ReplaceFile], which it calls without a backup name.  If that call fails
    with [ERROR_UNABLE_TO_MOVE_REPLACEMENT], [SetCurrentFile] reports an I/O
    error, CURRENT is gone, and when the deletion that follows succeeds the
    temporary file with the new content is gone, too. *)
Theorem WindowsEnv_loses_current `{!ReplaceLoses K view} (db : bytes) (n : Z) (e e1 : WindowsEnv K) (s1 : Status) (k3 : K) :
  0 <= n < 2 ^ 64 -> path_ok (TempFileName db n) -> path_ok (CurrentFileName db) -> view_ok (view (system e)) ->
  let current := CurrentFileName db in
  let tmp := TempFileName db n in
  is_Some (vfiles (view (system e)) !! current) ->
  WriteStringToFileSync (str "MANIFEST-" ++ print_u64_06 n ++ newline) tmp e = (s1, e1) -> ok s1 = true ->
  ReplaceFileA current tmp (MoveFileA tmp current (system e1)).2 = (false, k3) ->
  GetLastError k3 = ERROR_UNABLE_TO_MOVE_REPLACEMENT ->
  let '(s, e') := SetCurrentFile db n e in
  IsIOError s = true /\ vfiles (view (system e')) !! current = None /\
  ((DeleteFileA tmp k3).1 = true -> vfiles (view (system e')) !! tmp = None).
Proof.
  intros Hn Ht Hc Hv current tmp [c Hcur] E1 Hs1 E3 He. pose proof (TempFileName_not_current db n Hn) as Hne.
  unfold SetCurrentFile, mbind, State_bind, mret, State_ret. rewrite SetCurrentFile_contents, <- app_assoc. fold current tmp.
  rewrite E1, Hs1. apply (DoWriteStringToFile_spec (files := wenv_files (view := view))) in E1 as (_ & Hfr & _); [|done|by apply manifest_fits|done].
  specialize (Hfr current ltac:(done)). unfold wenv_files in Hfr. fold (wview (view := view) e) in Hcur.
  rewrite Hcur, !vfiles_lookup in Hfr.
  cbn [RenameFile windows_env]. unfold WindowsEnv_RenameFile, win at 1. unfold path_ok in Ht, Hc. fold current tmp in Ht, Hc. rewrite Ht, Hc.
  destruct (MoveFileA tmp current (system e1)) as [[] k2] eqn:E2.
  { apply (MoveFileA_ok (view := view)) in E2 as [[Hno|]]; [|done]. unfold wview in Hfr. by rewrite Hno in Hfr. }
  cbn [snd] in E3. unfold win. cbn [system set_system]. rewrite E3. unfold last_error. cbn [system set_system]. rewrite He.
  change ((ERROR_UNABLE_TO_MOVE_REPLACEMENT =? ERROR_FILE_NOT_FOUND) || (ERROR_UNABLE_TO_MOVE_REPLACEMENT =? ERROR_PATH_NOT_FOUND)) with false.
  cbv beta iota. change (ok (WindowsError tmp ERROR_UNABLE_TO_MOVE_REPLACEMENT)) with false. cbn [negb DeleteFile windows_env].
  unfold WindowsEnv_DeleteFile, win_status, win. cbn [system set_system]. rewrite Ht.
  apply (ReplaceFileA_loses (view := view)) in E3; [|done].
  destruct (DeleteFileA tmp k3) as [[] k4] eqn:E4; cbn [negb fst system set_system].
  - rewrite (DeleteFileA_ok (view := view) _ _ _ E4), !vfiles_lookup. cbn. rewrite lookup_delete_eq, lookup_delete_ne, E3 by done. done.
  - rewrite (DeleteFileA_fail (view := view) _ _ _ E4), !vfiles_lookup, E3. done.
Qed.

End current.

(** The background work of [WindowsEnv], as that of [PosixEnv]: it runs in the
    order in which it was scheduled, by one thread that is started once and
    never sleeps on work. *)
Lemma WindowsEnv_work_fifo {F A : Type} (n : nat) (s : BackgroundWork.work_state (BGItem F A)) :
  rtc WindowsEnv_work_step (BackgroundWork.work_init n) s ->
  BackgroundWork.emplaced s = BackgroundWork.ran s ++ BackgroundWork.in_hand (BackgroundWork.bg s) ++
    BackgroundWork.background_work_queue_ s /\
  (BackgroundWork.threads_started s <= 1)%nat /\
  (BackgroundWork.bg s = BackgroundWork.Waiting -> BackgroundWork.background_work_queue_ s = []).
Proof.
  intros Hs. assert (rtc BackgroundWork.work_step (BackgroundWork.work_init n) s) as Hi%BackgroundWork.reachable_inv.
  { eapply rtc_subrel; [|exact Hs]. intros x y. apply WindowsEnv_work_step_posix. }
  split_and!; [apply Hi| |by intros Hw; apply (BackgroundWork.inv_waiting _ Hi)].
  rewrite (BackgroundWork.inv_threads _ Hi). case_match; lia.
Qed.

(** * Witnesses *)

Module TestWindows.

Import MemKernel.

Definition db : bytes := bytes_of_string "d".

(** CURRENT exists with some content; the calls end as planned. *)
Definition current_env (old : bytes) (pl : list outcome) : WindowsEnv Mem :=
  mkWindowsEnv
    {| mdir := {[ CurrentFileName db := 1 ]}; mnode := {[ 1 := old ]}; mfds := ∅; mmapped := None;
       mlocks := ∅; merrno := 0; plan := pl |} ∅ 1000.

Lemma windows_current_view_ok old pl : view_ok (MemKernel.view (system (current_env old pl))).
Proof. split; [done|]. intros p q i; cbn; intros [<- _]%lookup_singleton_Some [<- _]%lookup_singleton_Some _. done. Qed.

(** The calls up to [ReplaceFileA], which ends so. *)
Definition replace_ends (o : outcome) : list outcome := [Normal; Normal; Normal; Normal; Normal; o].

Lemma WindowsEnv_switches_current_witness :
  let old := bytes_of_string "old" in
  ok (SetCurrentFile db 5 (current_env old (replace_ends (Fails 5)))).1 = false /\
  ok (SetCurrentFile db 5 (current_env old [])).1 = true /\
  let '(s, e') := SetCurrentFile db 5 (current_env old (replace_ends (Fails 5))) in
  let fs := vfiles (MemKernel.view (system (current_env old (replace_ends (Fails 5))))) in
  let fs' := vfiles (MemKernel.view (system e')) in
  (ok s = true -> fs' !! CurrentFileName db = Some (str "MANIFEST-" ++ print_u64_06 5 ++ newline)) /\
  (ok s = false -> fs' !! CurrentFileName db = fs !! CurrentFileName db \/ fs' !! CurrentFileName db = None) /\
  (db <> CurrentFileName db -> db <> TempFileName db 5 -> is_Some (fs !! db) -> fs' !! db = fs !! db) /\
  view_ok (MemKernel.view (system e')).
Proof.
  intros old. split; [vm_compute; reflexivity|]. split; [vm_compute; reflexivity|].
  exact (WindowsEnv_switches_current (view := MemKernel.view) db db 5 (current_env old (replace_ends (Fails 5))) ltac:(lia)
    ltac:(vm_compute; reflexivity) ltac:(vm_compute; reflexivity) (windows_current_view_ok _ _)).
Defined.

Lemma WindowsEnv_loses_current_witness :
  let e := current_env (bytes_of_string "old") (replace_ends (Fails ERROR_UNABLE_TO_MOVE_REPLACEMENT)) in
  vfiles (MemKernel.view (system e)) !! CurrentFileName db = Some (bytes_of_string "old") /\
  let '(s, e') := SetCurrentFile db 5 e in
  IsIOError s = true /\ vfiles (MemKernel.view (system e')) !! CurrentFileName db = None /\
  vfiles (MemKernel.view (system e')) !! TempFileName db 5 = None.
Proof.
  intros e.
  assert (Hold : vfiles (MemKernel.view (system e)) !! CurrentFileName db = Some (bytes_of_string "old")) by (vm_compute; reflexivity).
  split; [exact Hold|].
  pose (w := WriteStringToFileSync (str "MANIFEST-" ++ print_u64_06 5 ++ newline) (TempFileName db 5) e).
  pose (k2 := (MoveFileA (TempFileName db 5) (CurrentFileName db) (system w.2)).2).
  pose (k3 := (ReplaceFileA (CurrentFileName db) (TempFileName db 5) k2).2).
  assert (Hd : (DeleteFileA (TempFileName db 5) k3).1 = true) by (vm_compute; reflexivity).
  pose proof (WindowsEnv_loses_current (view := MemKernel.view) db 5 e w.2 w.1 k3 ltac:(lia)
    ltac:(vm_compute; reflexivity) ltac:(vm_compute; reflexivity) (windows_current_view_ok _ _)
    (mk_is_Some _ _ Hold) ltac:(vm_compute; reflexivity) ltac:(vm_compute; reflexivity)
    ltac:(vm_compute; reflexivity) ltac:(vm_compute; reflexivity)) as H.
  destruct (SetCurrentFile db 5 e) as [s e']. destruct H as (H1 & H2 & H3). split; [exact H1|]. split; [exact H2|]. exact (H3 Hd).
Defined.

End TestWindows.
