(* ===== verification/WindowsObjects.v ===== *)
(** The objects of [WindowsEnv] and what they own: files opened for reading,
    files opened at random, writable files and locks, made and destroyed in
    any order while any system call may fail.  At every point the open handles
    and views are those of the live objects, each owned by one, and no file is
    locked twice. *)

From S2P Require Import Prelude Status Env FileName FileSystem Kernel PosixFile PosixEnv Win32 WindowsFile WindowsEnv.

(** * The tables of the process *)

(** Which file each handle is open on. *)
Definition nodes (v : FsView) : gmap Z Z := fd_node <$> fds v.

(** Locks are held through open handles. *)
Definition locks_open (v : FsView) : Prop := forall h, h ∈ locks v -> is_Some (nodes v !! h).

Record same_tables (v v' : FsView) : Prop := {
  st_nodes : nodes v' = nodes v;
  st_maps : maps v' = maps v;
  st_locks : locks v' = locks v;
}.

Record opens_handle (h : Z) (v v' : FsView) : Prop := {
  oh_new : nodes v !! h = None;
  oh_nodes : exists i, nodes v' = <[h := i]> (nodes v);
  oh_maps : maps v' = maps v;
  oh_locks : locks v' = locks v;
}.

Record closes_handle (h : Z) (v v' : FsView) : Prop := {
  ch_nodes : nodes v' = delete h (nodes v);
  ch_maps : maps v' = maps v;
  ch_locks : locks v' = locks v ∖ {[ h ]};
}.

#[local] Instance same_tables_refl : Reflexive same_tables.
Proof. by split. Qed.

#[local] Instance same_tables_trans : Transitive same_tables.
Proof. intros u v w [] []. split; congruence. Qed.

Lemma nodes_set_desc h d v : nodes (set_desc h d v) = <[h := fd_node d]> (nodes v).
Proof. unfold nodes. cbn. by rewrite fmap_insert. Qed.

Lemma nodes_lookup v h : nodes v !! h = fd_node <$> fds v !! h.
Proof. apply lookup_fmap. Qed.

Lemma nodes_new v h : fds v !! h = None -> nodes v !! h = None.
Proof. intros Hn. by rewrite nodes_lookup, Hn. Qed.

(** An open handle whose position moves. *)
Lemma seek_tables h ds p v : fds v !! h = Some ds -> same_tables v (seek_desc h ds p v).
Proof.
  intros Hd. split; [|done|done]. unfold seek_desc. rewrite nodes_set_desc. cbn. apply insert_id. by rewrite nodes_lookup, Hd.
Qed.

Lemma wrote_tables h d v v' : wrote h d v v' -> locks v' = locks v -> same_tables v v'.
Proof.
  intros (_ & Hm & Hw) Hl. split; [|done|done]. destruct Hw as [(_ & _ & Hf)|(ds & c & [Ho _] & _ & _ & Hf)].
  - unfold nodes. by rewrite Hf.
  - unfold nodes. rewrite Hf. cbn. rewrite fmap_insert. cbn. apply insert_id. by rewrite lookup_fmap, Ho.
Qed.

Lemma open_tables h d v v0 v' : v' = set_desc h d v0 -> fds v !! h = None -> nodes v0 = nodes v ->
  maps v0 = maps v -> locks v0 = locks v -> opens_handle h v v'.
Proof. intros -> Hn H1 H2 H3. split; [by apply nodes_new| |done|done]. rewrite nodes_set_desc, H1. eauto. Qed.

(** A handle opened for the occasion. *)
Lemma open_close h v v1 v2 v' : locks_open v -> opens_handle h v v1 -> same_tables v1 v2 -> (is_Some (nodes v2 !! h) -> closes_handle h v2 v') ->
  same_tables v v'.
Proof.
  intros Hlo [Hn [i Hi] Hm Hl] [H1 H2 H3] Hc. destruct Hc as [Hn' Hm' Hl']; [rewrite H1, Hi, lookup_insert_eq; by eexists|]. split; [|congruence|].
  - by rewrite Hn', H1, Hi, delete_insert_id.
  - rewrite Hl', H3, Hl. assert (h ∉ locks v); [|set_solver]. intros Hin%Hlo. rewrite Hn in Hin. by destruct Hin.
Qed.

Section tables.
Context {K : Type} `{!Win32 K} {view : K -> FsView} `{!Win32Ok K view}.
Implicit Types e : WindowsEnv K.
Notation wview := (wview (view := view)).

Lemma ScopedHandle_closes h k : is_valid h = true -> is_Some (nodes (view k) !! h) -> closes_handle h (view k) (view (ScopedHandle_delete h k)).
Proof.
  intros Hv Hd. unfold ScopedHandle_delete, ScopedHandle_Close. rewrite Hv. cbn [negb].
  rewrite nodes_lookup, fmap_is_Some in Hd.
  destruct (CloseHandle h k) as [b k1] eqn:E. apply (CloseHandle_closes (view := view)) in E; [|done]. cbn [snd]. rewrite E.
  split; [|done|done]. unfold nodes. cbn. by rewrite fmap_delete.
Qed.

Lemma ScopedHandle_invalid h k : is_valid h = false -> ScopedHandle_delete h k = k.
Proof. intros Hv. unfold ScopedHandle_delete, ScopedHandle_Close. by rewrite Hv. Qed.

(** ** Opening files *)

Lemma CreateFile_opens p a s d fl k h k' : CreateFileA p a s d fl k = (h, k') ->
  d = OPEN_EXISTING \/ d = CREATE_ALWAYS \/ d = OPEN_ALWAYS ->
  if is_valid h then opens_handle h (view k) (view k') else same_tables (view k) (view k').
Proof.
  intros E Hd. destruct (is_valid h) eqn:Hv.
  - destruct Hd as [->|Hd].
    + apply (CreateFile_existing (view := view)) in E as (Hn & i & c & _ & _ & E); [|done]. by apply (open_tables _ _ _ _ _ E).
    + apply (CreateFile_always (view := view)) in E as (Hn & i & c & _ & E); [|done|done]. by apply (open_tables _ _ _ _ _ E).
  - by rewrite (CreateFile_fail (view := view) _ _ _ _ _ _ _ _ E Hv).
Qed.

Lemma NewSequentialFile_tables f e st r e' : WindowsEnv_NewSequentialFile f e = (st, r, e') ->
  w_writables e' = w_writables e /\ w_mmap_limiter e' = w_mmap_limiter e /\
  match r with
  | Some s => is_valid (wsf_file s) = true /\ opens_handle (wsf_file s) (wview e) (wview e')
  | None => same_tables (wview e) (wview e')
  end.
Proof.
  unfold WindowsEnv_NewSequentialFile, win. destruct (CreateFileA _ _ _ _ _ (system e)) as [h k'] eqn:E.
  apply CreateFile_opens in E; [|by left]. destruct (is_valid h) eqn:Hv; cbn [negb]; by intros [= <- <- <-].
Qed.

Lemma LockOrUnlock_lock h k b k' : WindowsLockOrUnlock h true k = (b, k') ->
  if b then exists i, nodes (view k) !! h = Some i /\ (forall h' , h' ∈ locks (view k) -> nodes (view k) !! h' <> Some i) /\
    nodes (view k') = nodes (view k) /\ maps (view k') = maps (view k) /\ locks (view k') = {[ h ]} ∪ locks (view k)
  else same_tables (view k) (view k').
Proof.
  unfold WindowsLockOrUnlock. intros E. destruct b.
  - apply (LockFile_ok (view := view)) in E as (ds & Hd & Hx & Hv). exists (fd_node ds). rewrite Hv. split_and!; try done.
    + by rewrite nodes_lookup, Hd.
    + intros h' Hh'. rewrite nodes_lookup. destruct (fds (view k) !! h') as [ds'|] eqn:Ed; [|done]. cbn.
      intros [= Hn]. by apply (Hx h' ds').
  - by rewrite (LockFile_fail (view := view) _ _ _ E).
Qed.

(** A lock given out is on a file that no other lock is on. *)
Lemma LockFile_tables f e st r e' : locks_open (wview e) -> WindowsEnv_LockFile f e = (st, r, e') ->
  w_writables e' = w_writables e /\ w_mmap_limiter e' = w_mmap_limiter e /\
  match r with
  | Some l => is_valid (wlk_handle l) = true /\ nodes (wview e) !! wlk_handle l = None /\
      maps (wview e') = maps (wview e) /\ locks (wview e') = {[ wlk_handle l ]} ∪ locks (wview e) /\
      exists i, nodes (wview e') = <[wlk_handle l := i]> (nodes (wview e)) /\
        forall h, h ∈ locks (wview e) -> nodes (wview e) !! h <> Some i
  | None => same_tables (wview e) (wview e')
  end.
Proof.
  intros Hlo. unfold WindowsEnv_LockFile, win at 1. destruct (CreateFileA _ _ _ _ _ (system e)) as [h k1] eqn:E1.
  apply CreateFile_opens in E1; [|auto]. destruct (is_valid h) eqn:Hv; cbn [negb]; [|by intros [= <- <- <-]].
  unfold win. cbn [system set_system]. destruct (WindowsLockOrUnlock h true k1) as [b k2] eqn:E2.
  apply LockOrUnlock_lock in E2. destruct b; cbn [negb]; intros [= <- <- <-]; (split; [done|]); (split; [done|]).
  - destruct E1 as [Hn [i Hi] Hm Hl], E2 as (j & Hj & Hx & Hn2 & Hm2 & Hl2). unfold WindowsEnv.wview. cbn [system set_system wlk_handle].
    rewrite Hi, lookup_insert_eq in Hj. injection Hj as <-. split_and!; [done|done|congruence|congruence|].
    exists i. split; [congruence|]. intros h' Hh'. rewrite Hl in Hx. specialize (Hx h' Hh'). rewrite Hi in Hx.
    destruct (decide (h = h')) as [<-|]; [apply Hlo in Hh' as [? Hh']; unfold WindowsEnv.wview in Hh'; congruence|]. by rewrite lookup_insert_ne in Hx.
  - apply (open_close h (wview e) (view k1) (view k2)); [done|done|done|]. by apply ScopedHandle_closes.
Qed.

Lemma UnlockFile_tables l e st e' : is_valid (wlk_handle l) = true -> WindowsEnv_UnlockFile l e = (st, e') ->
  w_writables e' = w_writables e /\ w_mmap_limiter e' = w_mmap_limiter e /\
  (is_Some (nodes (wview e) !! wlk_handle l) -> closes_handle (wlk_handle l) (wview e) (wview e')).
Proof.
  intros Hv. unfold WindowsEnv_UnlockFile, win. destruct (WindowsLockOrUnlock _ false (system e)) as [b k1] eqn:E1.
  intros [= <- <-]. split; [done|]. split; [done|]. intros Hopen.
  assert (nodes (view k1) = nodes (wview e) /\ maps (view k1) = maps (wview e) /\
    locks (view k1) ∖ {[ wlk_handle l ]} = locks (wview e) ∖ {[ wlk_handle l ]}) as (H1 & H2 & H3).
  { unfold WindowsLockOrUnlock in E1. destruct b.
    - apply (UnlockFile_ok (view := view)) in E1 as [_ ->]. split_and!; [done|done|]. cbn. set_solver.
    - by rewrite (UnlockFile_fail (view := view) _ _ _ E1). }
  destruct (ScopedHandle_closes (wlk_handle l) k1 Hv) as [Hn Hm Hl]; [by rewrite H1|].
  split; unfold WindowsEnv.wview, leave_scope; cbn [system set_system]; [by rewrite Hn, H1|by rewrite Hm, H2|by rewrite Hl, H3].
Qed.

(** ** Random access files *)

(** The view of the file stays when the two handles are closed. *)
Lemma map_and_close h m base i len v v1 v2 v3 v4 v' : locks_open v -> opens_handle h v v1 -> opens_handle m v1 v2 ->
  maps v2 !! base = None -> v3 = set_maps (<[base := (i, len)]> (maps v2)) v2 ->
  (is_Some (nodes v3 !! m) -> closes_handle m v3 v4) -> (is_Some (nodes v4 !! h) -> closes_handle h v4 v') ->
  nodes v' = nodes v /\ locks v' = locks v /\ maps v !! base = None /\ maps v' = <[base := (i, len)]> (maps v).
Proof.
  intros Hlo [Hn1 [j Hj] Hm1 Hl1] [Hn2 [j2 Hj2] Hm2 Hl2] Hb -> Hc3 Hc4.
  destruct Hc3 as [Hn3 Hm3 Hl3]; [change (is_Some (nodes v2 !! m)); rewrite Hj2, lookup_insert_eq; by eexists|].
  destruct Hc4 as [Hn4 Hm4 Hl4].
  { rewrite Hn3. change (is_Some (delete m (nodes v2) !! h)). rewrite Hj2, delete_insert_id, Hj, lookup_insert_eq by done. by eexists. }
  cbn [set_maps maps locks] in Hm3, Hl3. split_and!.
  - rewrite Hn4, Hn3. change (delete h (delete m (nodes v2)) = nodes v). rewrite Hj2, delete_insert_id, Hj, delete_insert_id by done. done.
  - rewrite Hl4, Hl3, Hl2, Hl1. assert (h ∉ locks v /\ m ∉ locks v) as [? ?]; [|set_solver]. rewrite Hj in Hn2.
    apply lookup_insert_None in Hn2 as [Hn2 _]. split; intros [? Hx]%Hlo; congruence.
  - congruence.
  - congruence.
Qed.

(** What [NewRandomAccessFile] takes: a handle, or a view and a slot; after a
    failure nothing, but possibly a slot. *)
Lemma NewRandomAccessFile_tables f e st r e' : 0 <= w_mmap_limiter e < 2 ^ 31 -> locks_open (wview e) ->
  WindowsEnv_NewRandomAccessFile f e = (st, r, e') ->
  w_writables e' = w_writables e /\
  match r with
  | Some (WindowsRandomAccessFile _ h) => is_valid h = true /\ opens_handle h (wview e) (wview e') /\
      w_mmap_limiter e' = w_mmap_limiter e
  | Some (WindowsMmapReadableFile _ base _) =>
      nodes (wview e') = nodes (wview e) /\ locks (wview e') = locks (wview e) /\ maps (wview e) !! base = None /\
      (exists x, maps (wview e') = <[base := x]> (maps (wview e))) /\
      0 < w_mmap_limiter e /\ w_mmap_limiter e' = w_mmap_limiter e - 1
  | None => same_tables (wview e) (wview e') /\ 0 <= w_mmap_limiter e' <= w_mmap_limiter e
  end.
Proof.
  intros Hlim Hlo. unfold WindowsEnv_NewRandomAccessFile, win at 1. destruct (CreateFileA _ _ _ _ _ (system e)) as [h k1] eqn:E1.
  apply CreateFile_opens in E1; [|by left]. destruct (is_valid h) eqn:Hv; cbn [negb]; [|by intros [= <- <- <-]; split; [|split; [|cbn; lia]]].
  cbn [w_mmap_limiter set_system]. change (WindowsLimiter_Acquire (w_mmap_limiter e)) with (Limiter_Acquire (w_mmap_limiter e)).
  rewrite Limiter_Acquire_spec by lia. destruct (Z.ltb_spec 0 (w_mmap_limiter e)) as [Hpos|Hpos]; cbn [negb]; [|by intros [= <- <- <-]].
  unfold win at 1. cbn [system set_system set_w_limit]. pose proof (GetFileSize_view (view := view) h k1) as Hs.
  destruct (GetFileSizeEx h k1) as [[sized size] k2]. cbn [snd] in Hs. destruct sized; cbn [negb].
  2:{ intros [= <- <- <-]. split; [done|]. split; [|cbn; lia]. apply (open_close h (wview e) (view k1) (view k2)); [done|done|by rewrite Hs|].
      by apply ScopedHandle_closes. }
  unfold win at 1. cbn [system set_system set_w_limit]. destruct (CreateFileMappingA h k2) as [m k3] eqn:E3.
  destruct (is_valid m) eqn:Hvm.
  2:{ cbn [negb Z.eqb]. rewrite WindowsError_not_ok. cbn [negb]. intros [= <- <- <-]. split; [done|].
      apply (CreateFileMapping_fail (view := view)) in E3; [|done]. unfold leave_scope. cbn [system set_system set_w_limit w_mmap_limiter].
      rewrite (ScopedHandle_invalid m) by done. split.
      - apply (open_close h (wview e) (view k1) (view k3)); [done|done|by rewrite E3, Hs|]. by apply ScopedHandle_closes.
      - change (WindowsLimiter_Release (w_mmap_limiter e - 1)) with (Limiter_Release (w_mmap_limiter e - 1)). rewrite Limiter_Release_spec by lia. lia. }
  apply (CreateFileMapping_ok (view := view)) in E3 as (Hnm & ds & c & [Hds _] & _ & Hv3); [|done]. rewrite Hs in Hnm, Hds, Hv3.
  pose proof (open_tables _ _ _ _ _ Hv3 Hnm eq_refl eq_refl eq_refl) as Hopen.
  unfold win. cbn [system set_system set_w_limit]. destruct (MapViewOfFile m k3) as [base k4] eqn:E4.
  destruct (Z.eqb_spec base 0) as [->|Hb]; cbn [negb].
  - rewrite WindowsError_not_ok. cbn [negb]. intros [= <- <- <-]. split; [done|]. apply (MapViewOfFile_fail (view := view)) in E4. split.
    + unfold leave_scope. cbn [system set_system set_w_limit w_mmap_limiter].
      assert (same_tables (view k1) (view (ScopedHandle_delete m k4))) as Hmid.
      { apply (open_close m (view k1) (view k3) (view k4)); [|done|by rewrite E4|by apply ScopedHandle_closes].
        destruct E1 as [_ [i Hi] _ Hl]. intros x. rewrite Hl, Hi. intros Hx%Hlo. apply lookup_insert_is_Some. destruct (decide (h = x)); auto. }
      apply (open_close h (wview e) (view k1) (view (ScopedHandle_delete m k4))); [done..|]. by apply ScopedHandle_closes.
    + unfold leave_scope. cbn [system set_system set_w_limit w_mmap_limiter].
      change (WindowsLimiter_Release (w_mmap_limiter e - 1)) with (Limiter_Release (w_mmap_limiter e - 1)). rewrite Limiter_Release_spec by lia. lia.
  - intros [= <- <- <-]. split; [done|]. apply (MapViewOfFile_ok (view := view)) in E4 as (Hbase & ds' & c' & _ & _ & _ & Hv4); [|done].
    unfold leave_scope, WindowsEnv.wview. cbn [system set_system set_w_limit w_mmap_limiter].
    destruct (map_and_close h m base (fd_node ds') (blen c') (wview e) (view k1) (view k3) (view k4)
      (view (ScopedHandle_delete m k4)) (view (ScopedHandle_delete h (ScopedHandle_delete m k4)))) as (H1 & H2 & H3 & H4);
      [done|done|done|done|done|by apply ScopedHandle_closes|by apply ScopedHandle_closes|].
    split_and!; [done|done|done|by eexists|done|done].
Qed.
(** ** The other calls *)

Lemma SequentialFile_tables (f : WindowsSequentialFile) n scratch e st r e' : Read f n scratch e = (st, r, e') -> e' = set_system (system e') e /\ same_tables (wview e) (wview e').
Proof.
  cbn [Read windows_sequential]. unfold win, WindowsSequentialFile_Read. destruct (ReadFile _ _ (system e)) as [[b d] k1] eqn:E.
  assert (same_tables (wview e) (view k1)) as Hs.
  { destruct b; [|by rewrite (ReadFile_fail (view := view) _ _ _ _ _ E)].
    apply (ReadFile_ok (view := view)) in E as (ds & c & [Ho _] & _ & _ & ->); [by apply seek_tables|]. unfold u32. apply Z.mod_pos_bound. lia. }
  destruct b; cbn [negb]; by intros [= <- <- <-].
Qed.

Lemma Skip_tables (f : WindowsSequentialFile) n e st e' : Skip f n e = (st, e') -> e' = set_system (system e') e /\ same_tables (wview e) (wview e').
Proof.
  cbn [Skip windows_sequential]. unfold win, WindowsSequentialFile_Skip. destruct (SetFilePointerEx _ _ (system e)) as [b k1] eqn:E.
  assert (same_tables (wview e) (view k1)) as Hs.
  { destruct b; [|by rewrite (SetFilePointer_fail (view := view) _ _ _ _ E)].
    apply (SetFilePointer_ok (view := view)) in E as (ds & Ho & _ & _ & ->). by apply seek_tables. }
  destruct b; cbn [negb]; by intros [= <- <-].
Qed.

Lemma RandomFile_tables f offset n scratch k st r k' : WindowsRandomFile_Read f offset n scratch k = (st, r, k') ->
  same_tables (view k) (view k').
Proof.
  destruct f as [name h|name base len]; cbn [WindowsRandomFile_Read].
  - unfold WindowsRandomAccessFile_Read. pose proof (ReadFile_overlapped_view (view := view) h (u32 n) (u32 (Z.shiftr offset 32)) (u32 offset) k) as Hv.
    destruct (ReadFile_overlapped _ _ _ _ k) as [[b d] k1]. cbn [snd] in Hv. intros E. assert (k' = k1) as -> by (by case_match; simplify_eq).
    destruct Hv as [->|(ds & p & Hd & ->)]; [done|by apply seek_tables].
  - unfold WindowsMmapReadableFile_Read. case_match; intros ?; by simplify_eq.
Qed.

Lemma DeleteFile_tables f e st e' : WindowsEnv_DeleteFile f e = (st, e') -> e' = set_system (system e') e /\ same_tables (wview e) (wview e').
Proof.
  intros E. apply win_status_spec in E as (b & k' & E & -> & _). split; [done|]. unfold WindowsEnv.wview. cbn. destruct b.
  - by rewrite (DeleteFileA_ok (view := view) _ _ _ E).
  - by rewrite (DeleteFileA_fail (view := view) _ _ _ E).
Qed.

Lemma RenameFile_tables src target e st e' : WindowsEnv_RenameFile src target e = (st, e') ->
  e' = set_system (system e') e /\ same_tables (wview e) (wview e').
Proof.
  unfold WindowsEnv_RenameFile, win. destruct (MoveFileA _ _ (system e)) as [[] k1] eqn:E1.
  { intros [= <- <-]. split; [done|]. unfold WindowsEnv.wview. cbn. by apply (MoveFileA_ok (view := view)) in E1 as (_ & i & _ & ->). }
  apply (MoveFileA_fail (view := view)) in E1. cbn [system set_system]. destruct (ReplaceFileA _ _ k1) as [b k2] eqn:E2.
  assert (same_tables (wview e) (view k2)) as Hs.
  { unfold WindowsEnv.wview. rewrite <- E1. destruct b.
    - by apply (ReplaceFileA_ok (view := view)) in E2 as (_ & i & _ & _ & ->).
    - apply (ReplaceFileA_fail (view := view)) in E2 as [->|[[_ ->]|(_ & other & i & _ & _ & ->)]]; done. }
  destruct b; [|case_match]; by intros [= <- <-].
Qed.

(** [Append] and [Flush]: the handle stays. *)
Lemma FlushBuffered_tables f k st f' k' : FlushBuffered f k = (st, f', k') -> f' = set_ww_buf [] f /\ same_tables (view k) (view k').
Proof.
  intros E. apply (FlushBuffered_spec (view := view)) in E as (-> & d & Hw & Hl & _). split; [done|]. by apply (wrote_tables _ _ _ _ Hw).
Qed.

Lemma Append_tables f d k st f' k' : WindowsWritableFile_Append f d k = (st, f', k') -> blen (ww_buf f) <= Windows_kWritableFileBufferSize ->
  (exists b, f' = set_ww_buf b f /\ blen b <= Windows_kWritableFileBufferSize) /\ same_tables (view k) (view k').
Proof.
  intros E Hb. apply (WindowsWritableFile_Append_spec (view := view)) in E as (x & b & Hw & Hl & -> & Hb' & _); [|done].
  split; [by exists b|]. by apply (wrote_tables _ _ _ _ Hw).
Qed.

Lemma Close_tables f k st f' k' : WindowsWritableFile_Close f k = (st, f', k') -> ww_buf f' = [] /\ is_valid (ww_handle f') = false /\
  if is_valid (ww_handle f) then is_Some (nodes (view k) !! ww_handle f) -> closes_handle (ww_handle f) (view k) (view k')
  else same_tables (view k) (view k').
Proof.
  unfold WindowsWritableFile_Close. destruct (FlushBuffered f k) as [[s1 f1] k1] eqn:E1. apply FlushBuffered_tables in E1 as [-> Hs].
  cbn [set_ww_buf ww_handle ww_buf ww_filename]. destruct (ScopedHandle_Close (ww_handle f) k1) as [[b h'] k2] eqn:E2.
  intros [= <- <- <-]. cbn [ww_buf ww_handle]. split; [done|].
  pose proof (ScopedHandle_closes (ww_handle f) k1) as Hc. unfold ScopedHandle_delete in Hc. rewrite E2 in Hc. cbn [snd] in Hc.
  unfold ScopedHandle_Close in E2. destruct (is_valid (ww_handle f)) eqn:Hv; cbn [negb] in E2.
  - destruct (CloseHandle _ k1). injection E2 as <- <- <-. split; [done|]. intros Hd. destruct Hs as [H1 H2 H3].
    destruct (Hc eq_refl) as [Hn Hm Hl]; [by rewrite H1|]. split; congruence.
  - injection E2 as <- <- <-. done.
Qed.
End tables.

(** * The objects *)

Section objects.
Context {K : Type} `{!Win32 K} {view : K -> FsView} `{!Win32Ok K view}.
Implicit Types e : WindowsEnv K.
Notation wview := (wview (view := view)).

(** The environment, with its writable files, and the other objects given out
    and not yet deleted. *)
Record objects := mkObjects {
  o_env : WindowsEnv K;
  o_sequential : list WindowsSequentialFile;
  o_random : list WindowsRandomFile;
  o_locks : list WindowsFileLock;
}.

Definition writable_handle (f : WindowsWritableFile) : option Z :=
  if is_valid (ww_handle f) then Some (ww_handle f) else None.
Definition random_handle (f : WindowsRandomFile) : option Z :=
  match f with WindowsRandomAccessFile _ h => Some h | _ => None end.
Definition random_base (f : WindowsRandomFile) : option Z :=
  match f with WindowsMmapReadableFile _ base _ => Some base | _ => None end.

Definition writable_handles (m : gmap nat WindowsWritableFile) : list Z := omap writable_handle (map_to_list m).*2.

Definition owned_handles (o : objects) : list Z :=
  writable_handles (w_writables (o_env o)) ++ (wsf_file <$> o_sequential o) ++
  omap random_handle (o_random o) ++ (wlk_handle <$> o_locks o).

Definition owned_views (o : objects) : list Z := omap random_base (o_random o).

(** One call on the environment or on one of its objects. *)
Inductive windows_step : objects -> objects -> Prop :=
  | new_sequential f e st r e' sq rs ls : WindowsEnv_NewSequentialFile f e = (st, r, e') ->
      windows_step (mkObjects e sq rs ls) (mkObjects e' (option_list r ++ sq) rs ls)
  | read_sequential f n scratch e st r e' sq rs ls : f ∈ sq -> Read f n scratch e = (st, r, e') ->
      windows_step (mkObjects e sq rs ls) (mkObjects e' sq rs ls)
  | skip_sequential f n e st e' sq rs ls : f ∈ sq -> Skip f n e = (st, e') ->
      windows_step (mkObjects e sq rs ls) (mkObjects e' sq rs ls)
  | del_sequential f e sq1 sq2 rs ls :
      windows_step (mkObjects e (sq1 ++ f :: sq2) rs ls) (mkObjects (leave_scope (wsf_file f) e) (sq1 ++ sq2) rs ls)
  | new_random f e st r e' sq rs ls : WindowsEnv_NewRandomAccessFile f e = (st, r, e') ->
      windows_step (mkObjects e sq rs ls) (mkObjects e' sq (option_list r ++ rs) ls)
  | read_random f offset n scratch e st r k' sq rs ls : f ∈ rs -> WindowsRandomFile_Read f offset n scratch (system e) = (st, r, k') ->
      windows_step (mkObjects e sq rs ls) (mkObjects (set_system k' e) sq rs ls)
  | del_random f e sq rs1 rs2 ls :
      windows_step (mkObjects e sq (rs1 ++ f :: rs2) ls) (mkObjects (delete_windows_random f e) sq (rs1 ++ rs2) ls)
  | new_writable f e st r e' sq rs ls :
      WindowsEnv_NewWritableFile f e = (st, r, e') \/ WindowsEnv_NewAppendableFile f e = (st, r, e') ->
      windows_step (mkObjects e sq rs ls) (mkObjects e' sq rs ls)
  | append h d e st e' sq rs ls : Append h d e = (st, e') ->
      windows_step (mkObjects e sq rs ls) (mkObjects e' sq rs ls)
  | flush h e st e' sq rs ls : Flush h e = (st, e') \/ Sync h e = (st, e') ->
      windows_step (mkObjects e sq rs ls) (mkObjects e' sq rs ls)
  | close h e st e' sq rs ls : Close h e = (st, e') ->
      windows_step (mkObjects e sq rs ls) (mkObjects e' sq rs ls)
  | del_writable h e sq rs ls :
      windows_step (mkObjects e sq rs ls) (mkObjects (delete_windows_object h e).2 sq rs ls)
  | lock f e st r e' sq rs ls : WindowsEnv_LockFile f e = (st, r, e') ->
      windows_step (mkObjects e sq rs ls) (mkObjects e' sq rs (option_list r ++ ls))
  | unlock l e st e' sq rs ls1 ls2 : WindowsEnv_UnlockFile l e = (st, e') ->
      windows_step (mkObjects e sq rs (ls1 ++ l :: ls2)) (mkObjects e' sq rs (ls1 ++ ls2))
  | delete_file f e st e' sq rs ls : WindowsEnv_DeleteFile f e = (st, e') ->
      windows_step (mkObjects e sq rs ls) (mkObjects e' sq rs ls)
  | rename_file src target e st e' sq rs ls : WindowsEnv_RenameFile src target e = (st, e') ->
      windows_step (mkObjects e sq rs ls) (mkObjects e' sq rs ls).

(** ** The invariant *)

(** [d] is [base] and the keys [l], which are different. *)
Record owns (base : gset Z) (l : list Z) (d : gset Z) : Prop := {
  ow_nodup : NoDup l;
  ow_new : forall x, x ∈ l -> x ∉ base;
  ow_all : d = base ∪ list_to_set l;
}.

#[local] Instance owns_perm base : Proper ((≡ₚ) ==> (=) ==> iff) (owns base).
Proof.
  assert (forall l l' d, l ≡ₚ l' -> owns base l d -> owns base l' d) as H.
  { intros l l' d Hl [H1 H2 H3]. split; [by rewrite <- Hl|intros x; rewrite <- Hl; apply H2|by rewrite <- Hl]. }
  intros l l' Hl d ? <-. split; apply H; done.
Qed.

Lemma owns_add base x l d : owns base l d -> x ∉ d -> owns base (x :: l) ({[ x ]} ∪ d).
Proof. intros [H1 H2 ->] Hx. split; [constructor; set_solver|set_solver|cbn; set_solver]. Qed.

Lemma owns_remove base x l d : owns base (x :: l) d -> owns base l (d ∖ {[ x ]}).
Proof. intros [[H0 H1]%NoDup_cons H2 ->]. split; [done|set_solver|]. cbn. specialize (H2 x). set_solver. Qed.

Record objects_inv (handles0 views0 : gset Z) (max : Z) (o : objects) : Prop := {
  oi_handles : owns handles0 (owned_handles o) (dom (nodes (wview (o_env o))));
  oi_views : owns views0 (owned_views o) (dom (maps (wview (o_env o))));
  oi_valid : Forall (fun h => is_valid h = true) (owned_handles o);
  oi_slots : 0 <= w_mmap_limiter (o_env o) /\ w_mmap_limiter (o_env o) + Z.of_nat (length (owned_views o)) <= max;
  oi_locks : locks (wview (o_env o)) = list_to_set (wlk_handle <$> o_locks o);
  oi_exclusive : forall l l', l ∈ o_locks o -> l' ∈ o_locks o ->
    nodes (wview (o_env o)) !! wlk_handle l = nodes (wview (o_env o)) !! wlk_handle l' -> wlk_handle l = wlk_handle l';
  oi_buffers : map_Forall (fun _ f => blen (ww_buf f) <= Windows_kWritableFileBufferSize) (w_writables (o_env o));
}.

Lemma objects_locks_open h0 v0 max o : objects_inv h0 v0 max o -> locks_open (wview (o_env o)).
Proof.
  intros [[_ _ Hd] _ _ _ Hl _ _] h. rewrite Hl. intros Hh. apply elem_of_dom. rewrite Hd. unfold owned_handles. set_solver.
Qed.

(** Nothing but the contents, the names and the positions changed. *)
Lemma step_same h0 v0 max o e' : objects_inv h0 v0 max o -> same_tables (wview (o_env o)) (wview e') ->
  0 <= w_mmap_limiter e' <= w_mmap_limiter (o_env o) -> writable_handles (w_writables e') ≡ₚ writable_handles (w_writables (o_env o)) ->
  map_Forall (fun _ f => blen (ww_buf f) <= Windows_kWritableFileBufferSize) (w_writables e') ->
  objects_inv h0 v0 max (mkObjects e' (o_sequential o) (o_random o) (o_locks o)).
Proof.
  intros [H1 H2 H3 H4 H5 H6 H7] [Hn Hm Hl] Hlim Hw Hbuf.
  assert (owned_handles (mkObjects e' (o_sequential o) (o_random o) (o_locks o)) ≡ₚ owned_handles o) as Ho
    by (unfold owned_handles; cbn; by rewrite Hw).
  split; cbn [o_env o_locks]; rewrite ?Hn, ?Hm, ?Hl; try done; rewrite ?Ho; try done.
  change (owned_views _) with (owned_views o). lia.
Qed.

(** One more handle, owned by a new object. *)
Lemma step_opened h0 v0 max o o' h : objects_inv h0 v0 max o -> opens_handle h (wview (o_env o)) (wview (o_env o')) -> is_valid h = true ->
  owned_handles o' ≡ₚ h :: owned_handles o -> owned_views o' = owned_views o -> o_locks o' = o_locks o ->
  w_mmap_limiter (o_env o') = w_mmap_limiter (o_env o) ->
  map_Forall (fun _ f => blen (ww_buf f) <= Windows_kWritableFileBufferSize) (w_writables (o_env o')) ->
  objects_inv h0 v0 max o'.
Proof.
  intros Hinv [Hn [i Hi] Hm Hl] Hv Ho Hov Hlk Hlim Hbuf. pose proof (objects_locks_open _ _ _ _ Hinv) as Hlo. destruct Hinv as [H1 H2 H3 H4 H5 H6 H7].
  split; rewrite ?Hm, ?Hl, ?Hlk, ?Hov, ?Hlim; try done.
  - rewrite Ho, Hi, dom_insert_L. apply owns_add; [done|]. by apply not_elem_of_dom.
  - rewrite Ho. by constructor.
  - intros l l' Hin Hin'. rewrite Hi. assert (forall x, x ∈ o_locks o -> wlk_handle x <> h) as Hne.
    { intros x Hx <-. assert (wlk_handle x ∈ locks (wview (o_env o))) as Hx' by (rewrite H5; set_solver). apply Hlo in Hx' as [? ?]. congruence. }
    rewrite !lookup_insert_ne by (symmetry; by apply Hne). by apply H6.
Qed.

(** An object gone, and its handle. *)
Lemma step_closed h0 v0 max o o' h : objects_inv h0 v0 max o ->
  (is_Some (nodes (wview (o_env o)) !! h) -> closes_handle h (wview (o_env o)) (wview (o_env o'))) ->
  owned_handles o ≡ₚ h :: owned_handles o' -> owned_views o' = owned_views o ->
  (wlk_handle <$> o_locks o') = (wlk_handle <$> o_locks o) \/ (wlk_handle <$> o_locks o) ≡ₚ h :: (wlk_handle <$> o_locks o') ->
  w_mmap_limiter (o_env o') = w_mmap_limiter (o_env o) ->
  map_Forall (fun _ f => blen (ww_buf f) <= Windows_kWritableFileBufferSize) (w_writables (o_env o')) ->
  objects_inv h0 v0 max o'.
Proof.
  intros Hinv Hc Ho Hov Hlk Hlim Hbuf. destruct Hinv as [H1 H2 H3 H4 H5 H6 H7]. rewrite Ho in H1, H3.
  destruct Hc as [Hn Hm Hl]; [apply elem_of_dom; rewrite (ow_all _ _ _ H1); set_solver|].
  assert (forall x, x ∈ wlk_handle <$> o_locks o' -> x <> h /\ x ∈ wlk_handle <$> o_locks o) as Hsub.
  { intros x Hx. destruct H1 as [[Hno _]%NoDup_cons _ _]. split.
    - intros ->. apply Hno. unfold owned_handles. set_solver.
    - destruct Hlk as [Hlk|Hlk]; [by rewrite <- Hlk|rewrite Hlk; by right]. }
  split; rewrite ?Hm, ?Hov, ?Hlim; try done.
  - rewrite Hn, dom_delete_L. by apply owns_remove.
  - by apply Forall_cons in H3 as [_ H3].
  - rewrite Hl, H5. apply set_eq. intros x. rewrite elem_of_difference, !elem_of_list_to_set, elem_of_singleton. split.
    + intros [Hx Hne]. destruct Hlk as [Hlk|Hlk]; [by rewrite Hlk|]. rewrite Hlk in Hx. apply elem_of_cons in Hx as [?|?]; done.
    + intros Hx. destruct (Hsub x Hx). done.
  - intros l l' Hin Hin'. rewrite Hn. assert (forall x, x ∈ o_locks o' -> wlk_handle x <> h /\ exists y, y ∈ o_locks o /\ wlk_handle y = wlk_handle x) as Hx.
    { intros x Hx. destruct (Hsub (wlk_handle x)) as [? Hy]; [by apply list_elem_of_fmap_2|]. split; [done|].
      apply list_elem_of_fmap in Hy as (y & ? & ?). by exists y. }
    destruct (Hx l Hin) as (Hne & y & Hy & Ey), (Hx l' Hin') as (Hne' & y' & Hy' & Ey'). rewrite !lookup_delete_ne, <- Ey, <- Ey' by done. by apply H6.
Qed.

(** ** The heap of writable files *)

Lemma writable_handles_insert id f m : m !! id = None ->
  writable_handles (<[id := f]> m) ≡ₚ option_list (writable_handle f) ++ writable_handles m.
Proof.
  intros Hn. unfold writable_handles. rewrite map_to_list_insert by done. cbn. by destruct (writable_handle f).
Qed.

Lemma writable_handles_delete id f m : m !! id = Some f ->
  writable_handles m ≡ₚ option_list (writable_handle f) ++ writable_handles (delete id m).
Proof. intros Hf. rewrite <- writable_handles_insert by apply lookup_delete_eq. by rewrite insert_delete_id. Qed.

Lemma writable_handles_update id f f' m : m !! id = Some f ->
  option_list (writable_handle f) ++ writable_handles (<[id := f']> m) ≡ₚ option_list (writable_handle f') ++ writable_handles m.
Proof.
  intros Hf. rewrite (writable_handles_delete id f m) by done. rewrite <- insert_delete_eq, writable_handles_insert by apply lookup_delete_eq.
  rewrite !app_assoc. by rewrite (Permutation_app_comm (option_list (writable_handle f))).
Qed.

Lemma step_system h0 v0 max o e' : objects_inv h0 v0 max o -> e' = set_system (system e') (o_env o) -> same_tables (wview (o_env o)) (wview e') ->
  objects_inv h0 v0 max (mkObjects e' (o_sequential o) (o_random o) (o_locks o)).
Proof.
  intros Hi He Hs. pose proof (oi_slots _ _ _ _ Hi). apply step_same; [done|done|rewrite He; cbn; lia|by rewrite He|rewrite He; apply Hi].
Qed.

(** ** Every call keeps it *)

(** The handle of one object among those of all. *)
Ltac owned_perm := unfold owned_handles; cbn [o_env o_sequential o_random o_locks option_list app];
  rewrite ?fmap_app, ?omap_app; cbn [fmap list_fmap omap list_omap random_handle]; solve_Permutation.

Lemma new_sequential_inv h0 v0 max f e st r e' sq rs ls : WindowsEnv_NewSequentialFile f e = (st, r, e') ->
  objects_inv h0 v0 max (mkObjects e sq rs ls) -> objects_inv h0 v0 max (mkObjects e' (option_list r ++ sq) rs ls).
Proof.
  intros E Hi. apply NewSequentialFile_tables in E as (Hw & Hl & Hr). pose proof (oi_slots _ _ _ _ Hi) as Hsl. cbn in Hsl.
  destruct r as [s|].
  - destruct Hr as [Hv Ho]. apply (step_opened h0 v0 max (mkObjects e sq rs ls) _ (wsf_file s)); try done.
    + unfold owned_handles. cbn [o_env]. rewrite Hw. owned_perm.
    + cbn. rewrite Hw. apply Hi.
  - apply (step_same h0 v0 max (mkObjects e sq rs ls)); [done|done|cbn; lia|by rewrite Hw|rewrite Hw; apply Hi].
Qed.

Lemma owned_valid h0 v0 max o h : objects_inv h0 v0 max o -> h ∈ owned_handles o -> is_valid h = true.
Proof. intros Hi. pose proof (oi_valid _ _ _ _ Hi) as Hv. rewrite Forall_forall in Hv. apply Hv. Qed.

Lemma del_sequential_inv h0 v0 max f e sq1 sq2 rs ls : objects_inv h0 v0 max (mkObjects e (sq1 ++ f :: sq2) rs ls) ->
  objects_inv h0 v0 max (mkObjects (leave_scope (wsf_file f) e) (sq1 ++ sq2) rs ls).
Proof.
  intros Hi. apply (step_closed h0 v0 max _ _ (wsf_file f) Hi); try done.
  - apply (ScopedHandle_closes (wsf_file f) (system e)), (owned_valid _ _ _ _ _ Hi). unfold owned_handles. cbn. set_solver.
  - owned_perm.
  - by left.
  - apply Hi.
Qed.

Lemma new_random_inv h0 v0 max f e st r e' sq rs ls : max < 2 ^ 31 -> WindowsEnv_NewRandomAccessFile f e = (st, r, e') ->
  objects_inv h0 v0 max (mkObjects e sq rs ls) -> objects_inv h0 v0 max (mkObjects e' sq (option_list r ++ rs) ls).
Proof.
  intros Hmax E Hi. pose proof (oi_slots _ _ _ _ Hi) as Hsl. pose proof (objects_locks_open _ _ _ _ Hi) as Hlo. cbn in Hsl, Hlo.
  apply NewRandomAccessFile_tables in E as (Hw & Hr); [|lia|done]. destruct r as [[name h|name base len]|].
  - destruct Hr as (Hv & Ho & Hl). apply (step_opened h0 v0 max (mkObjects e sq rs ls) _ h); try done.
    + unfold owned_handles. cbn [o_env]. rewrite Hw. owned_perm.
    + cbn. rewrite Hw. apply Hi.
  - destruct Hr as (Hn & Hlk & Hb & [x Hm] & Hpos & Hl). destruct Hi as [H1 H2 H3 H4 H5 H6 H7]. cbn in *.
    unfold owned_handles, owned_views in *. cbn in *. split; unfold owned_handles, owned_views; cbn; rewrite ?Hw, ?Hn, ?Hlk, ?Hl; try done.
    + rewrite Hm, dom_insert_L. apply owns_add; [done|]. by apply not_elem_of_dom.
    + lia.
  - destruct Hr as [Hs Hl]. apply (step_same h0 v0 max (mkObjects e sq rs ls)); [done|done|cbn; lia|by rewrite Hw|rewrite Hw; apply Hi].
Qed.

Lemma del_random_inv h0 v0 max f e sq rs1 rs2 ls : max < 2 ^ 31 -> objects_inv h0 v0 max (mkObjects e sq (rs1 ++ f :: rs2) ls) ->
  objects_inv h0 v0 max (mkObjects (delete_windows_random f e) sq (rs1 ++ rs2) ls).
Proof.
  intros Hmax Hi. destruct f as [name h|name base len]; unfold delete_windows_random, WindowsRandomFile_delete.
  - apply (step_closed h0 v0 max _ _ h Hi); cbn [o_env]; try done.
    + apply (ScopedHandle_closes h (system e)), (owned_valid _ _ _ _ _ Hi). unfold owned_handles. cbn. rewrite omap_app. set_solver.
    + owned_perm.
    + unfold owned_views. cbn. by rewrite !omap_app.
    + by left.
    + apply Hi.
  - destruct Hi as [H1 H2 H3 H4 H5 H6 H7]. unfold owned_handles, owned_views in *. cbn [o_env o_sequential o_random o_locks] in *.
    rewrite omap_app in H1, H2, H3, H4. cbn [omap list_omap random_handle random_base] in H1, H2, H3, H4. rewrite <- omap_app in H1, H3.
    rewrite length_app in H4. cbn [length] in H4.
    assert (view (UnmapViewOfFile base (system e)).2 = set_maps (delete base (maps (wview e))) (wview e)) as Hv.
    { apply (UnmapViewOfFile_view (view := view)), elem_of_dom. fold (wview e). rewrite (ow_all _ _ _ H2). set_solver. }
    split; unfold owned_handles, owned_views; cbn [o_env o_sequential o_random o_locks w_writables set_w_limit set_system w_mmap_limiter];
      unfold WindowsEnv.wview; cbn [system set_system set_w_limit]; rewrite ?Hv; try done.
    + cbn [set_maps maps]. rewrite dom_delete_L. apply owns_remove. rewrite omap_app. by rewrite Permutation_middle.
    + rewrite omap_app, length_app. change (WindowsLimiter_Release (w_mmap_limiter e)) with (Limiter_Release (w_mmap_limiter e)).
      rewrite Limiter_Release_spec by lia. lia.
Qed.

Lemma new_writable_inv h0 v0 max f a s d fl e e1 st r e' sq rs ls h : (h, e1) = win (CreateFileA f a s d fl) e -> 
  d = CREATE_ALWAYS \/ d = OPEN_ALWAYS -> forall name, new_windows_writable name h e1 = (st, r, e') ->
  objects_inv h0 v0 max (mkObjects e sq rs ls) -> objects_inv h0 v0 max (mkObjects e' sq rs ls).
Proof.
  unfold win. destruct (CreateFileA f a s d fl (system e)) as [h1 k1] eqn:E. intros [= -> ->] Hd name. unfold new_windows_writable.
  apply CreateFile_opens in E; [|tauto]. destruct (is_valid h1) eqn:Hv; cbn [negb]; intros [= <- <- <-] Hi.
  - apply (step_opened h0 v0 max (mkObjects e sq rs ls) _ h1); cbn [o_env w_writables set_w_writables set_system]; try done.
    + unfold owned_handles. cbn [o_env w_writables set_w_writables]. rewrite writable_handles_insert by (apply not_elem_of_dom, is_fresh).
      unfold writable_handle. cbn [WindowsWritableFile_new ww_handle]. rewrite Hv. owned_perm.
    + apply map_Forall_insert_2; [done|apply Hi].
  - by apply (step_system h0 v0 max (mkObjects e sq rs ls)).
Qed.

(** A method that keeps the handle. *)
Lemma object_call_inv h0 v0 max h m e st e' sq rs ls : with_windows_object h m e = (st, e') ->
  (forall f k st f' k', m f k = (st, f', k') -> blen (ww_buf f) <= Windows_kWritableFileBufferSize ->
     (exists b, f' = set_ww_buf b f /\ blen b <= Windows_kWritableFileBufferSize) /\ same_tables (view k) (view k')) ->
  objects_inv h0 v0 max (mkObjects e sq rs ls) -> objects_inv h0 v0 max (mkObjects e' sq rs ls).
Proof.
  intros E Hm Hi. pose proof (oi_slots _ _ _ _ Hi) as Hsl. pose proof (oi_buffers _ _ _ _ Hi) as Hb. cbn in Hsl, Hb.
  unfold with_windows_object in E. destruct (w_writables e !! wwh_id h) as [f|] eqn:Hf; [|by injection E as <- <-].
  destruct (m f (system e)) as [[st1 f'] k'] eqn:Em. injection E as <- <-.
  destruct (Hm _ _ _ _ _ Em (Hb _ _ Hf)) as [(b & -> & Hb') Hs].
  apply (step_same h0 v0 max (mkObjects e sq rs ls)); [done|done|cbn; lia| |apply map_Forall_insert_2; done].
  cbn. apply (Permutation_app_inv_l (option_list (writable_handle f))). by rewrite (writable_handles_update _ _ _ _ Hf).
Qed.

Lemma close_file_inv h0 v0 max h e st e' sq rs ls : with_windows_object h WindowsWritableFile_Close e = (st, e') ->
  objects_inv h0 v0 max (mkObjects e sq rs ls) -> objects_inv h0 v0 max (mkObjects e' sq rs ls).
Proof.
  intros E Hi. pose proof (oi_slots _ _ _ _ Hi) as Hsl. pose proof (oi_buffers _ _ _ _ Hi) as Hb. cbn in Hsl, Hb.
  unfold with_windows_object in E. destruct (w_writables e !! wwh_id h) as [f|] eqn:Hf; [|by injection E as <- <-].
  destruct (WindowsWritableFile_Close f (system e)) as [[st1 f'] k'] eqn:Em. injection E as <- <-.
  apply Close_tables in Em as (Hb' & Hv' & Hs). pose proof (writable_handles_update (wwh_id h) f f' _ Hf) as Hp. unfold writable_handle in Hp. rewrite Hv' in Hp.
  assert (map_Forall (fun _ f => blen (ww_buf f) <= Windows_kWritableFileBufferSize) (<[wwh_id h := f']> (w_writables e))) as Hbuf
    by (apply map_Forall_insert_2; [by rewrite Hb'|done]).
  destruct (is_valid (ww_handle f)); cbn in Hp.
  - apply (step_closed h0 v0 max (mkObjects e sq rs ls) _ (ww_handle f)); try done; [|by left].
    unfold owned_handles. cbn [o_env w_writables set_w_writables]. rewrite <- Hp. owned_perm.
  - apply (step_same h0 v0 max (mkObjects e sq rs ls)); [done|done|cbn; lia|done|done].
Qed.

Lemma del_writable_inv h0 v0 max h e sq rs ls : objects_inv h0 v0 max (mkObjects e sq rs ls) ->
  objects_inv h0 v0 max (mkObjects (delete_windows_object h e).2 sq rs ls).
Proof.
  intros Hi. pose proof (oi_slots _ _ _ _ Hi) as Hsl. pose proof (oi_buffers _ _ _ _ Hi) as Hb. cbn in Hsl, Hb.
  unfold delete_windows_object. destruct (w_writables e !! wwh_id h) as [f|] eqn:Hf; [|done]. cbn [snd].
  pose proof (writable_handles_delete _ _ _ Hf) as Hp. unfold writable_handle, WindowsWritableFile_delete in *.
  assert (map_Forall (fun _ f => blen (ww_buf f) <= Windows_kWritableFileBufferSize) (delete (wwh_id h) (w_writables e))) as Hbuf
    by (by apply map_Forall_delete).
  destruct (is_valid (ww_handle f)) eqn:Hv; cbn in Hp.
  - apply (step_closed h0 v0 max (mkObjects e sq rs ls) _ (ww_handle f)); try done; [by apply (ScopedHandle_closes (ww_handle f) (system e))| |by left].
    unfold owned_handles. cbn [o_env w_writables set_w_writables]. rewrite Hp. owned_perm.
  - rewrite ScopedHandle_invalid by done. apply (step_same h0 v0 max (mkObjects e sq rs ls)); [done|done|cbn; lia|by cbn; rewrite Hp|done].
Qed.

Lemma lock_file_inv h0 v0 max f e st r e' sq rs ls : WindowsEnv_LockFile f e = (st, r, e') ->
  objects_inv h0 v0 max (mkObjects e sq rs ls) -> objects_inv h0 v0 max (mkObjects e' sq rs (option_list r ++ ls)).
Proof.
  intros E Hi. pose proof (oi_slots _ _ _ _ Hi) as Hsl. pose proof (objects_locks_open _ _ _ _ Hi) as Hlo. cbn in Hsl, Hlo.
  apply LockFile_tables in E as (Hw & Hl & Hr); [|done]. destruct r as [l|].
  2:{ apply (step_same h0 v0 max (mkObjects e sq rs ls)); [done|done|cbn; lia|by rewrite Hw|rewrite Hw; apply Hi]. }
  destruct Hr as (Hv & Hn & Hm & Hlk & i & Hi' & Hx). pose proof Hi as [H1 H2 H3 H4 H5 H6 H7]. cbn in *.
  assert (owned_handles (mkObjects e' sq rs (l :: ls)) ≡ₚ wlk_handle l :: owned_handles (mkObjects e sq rs ls)) as Ho
    by (unfold owned_handles; cbn [o_env]; rewrite Hw; owned_perm).
  assert (forall x, x ∈ ls -> wlk_handle x ∈ locks (wview e)) as Hls by (intros x Hx'; rewrite H5; set_solver).
  split; cbn; rewrite ?Hm, ?Hl, ?Hw; try done.
  - rewrite Ho, Hi', dom_insert_L. apply owns_add; [done|]. by apply not_elem_of_dom.
  - rewrite Ho. by constructor.
  - rewrite Hlk, H5. done.
  - assert (forall x, x ∈ ls -> <[wlk_handle l := i]> (nodes (wview e)) !! wlk_handle x = nodes (wview e) !! wlk_handle x /\
      nodes (wview e) !! wlk_handle x <> Some i) as Hold.
    { intros x Hx'. split; [|by apply Hx, Hls]. rewrite lookup_insert_ne; [done|]. intros Heq. destruct (Hlo _ (Hls x Hx')). congruence. }
    rewrite Hi'. intros x y [->|Hx']%elem_of_cons [->|Hy']%elem_of_cons; [done|..].
    + rewrite lookup_insert_eq. destruct (Hold y Hy') as [-> ?]. congruence.
    + rewrite lookup_insert_eq. destruct (Hold x Hx') as [-> ?]. congruence.
    + destruct (Hold x Hx') as [-> _], (Hold y Hy') as [-> _]. by apply H6.
Qed.

Lemma unlock_file_inv h0 v0 max l e st e' sq rs ls1 ls2 : WindowsEnv_UnlockFile l e = (st, e') ->
  objects_inv h0 v0 max (mkObjects e sq rs (ls1 ++ l :: ls2)) -> objects_inv h0 v0 max (mkObjects e' sq rs (ls1 ++ ls2)).
Proof.
  intros E Hi. apply UnlockFile_tables in E as (Hw & Hl & Hc).
  2:{ apply (owned_valid _ _ _ _ _ Hi). unfold owned_handles. cbn. set_solver. }
  apply (step_closed h0 v0 max _ _ (wlk_handle l) Hi); cbn [o_env o_locks]; try done.
  - unfold owned_handles. cbn [o_env]. rewrite Hw. owned_perm.
  - right. rewrite !fmap_app. cbn. by rewrite Permutation_middle.
  - rewrite Hw. apply Hi.
Qed.

Lemma windows_step_inv h0 v0 max o o' : max < 2 ^ 31 -> windows_step o o' -> objects_inv h0 v0 max o -> objects_inv h0 v0 max o'.
Proof.
  intros Hmax Hs. destruct Hs as [f e st r e' sq rs ls E|f n scratch e st r e' sq rs ls Hin E|f n e st e' sq rs ls Hin E|f e sq1 sq2 rs ls
    |f e st r e' sq rs ls E|f offset n scratch e st r k' sq rs ls Hin E|f e sq rs1 rs2 ls|f e st r e' sq rs ls E|h d e st e' sq rs ls E
    |h e st e' sq rs ls E|h e st e' sq rs ls E|h e sq rs ls|f e st r e' sq rs ls E|l e st e' sq rs ls1 ls2 E|f e st e' sq rs ls E
    |src target e st e' sq rs ls E]; intros Hi.
  - by apply (new_sequential_inv _ _ _ _ _ _ _ _ _ _ _ E).
  - apply SequentialFile_tables in E as [He Hs]. by apply (step_system h0 v0 max (mkObjects e sq rs ls)).
  - apply Skip_tables in E as [He Hs]. by apply (step_system h0 v0 max (mkObjects e sq rs ls)).
  - by apply del_sequential_inv.
  - by apply (new_random_inv _ _ _ _ _ _ _ _ _ _ _ Hmax E).
  - apply RandomFile_tables in E. by apply (step_system h0 v0 max (mkObjects e sq rs ls)).
  - by apply del_random_inv.
  - unfold WindowsEnv_NewWritableFile, WindowsEnv_NewAppendableFile in E.
    destruct E as [E|E]; destruct (win _ e) as [h e1] eqn:Ew in E; symmetry in Ew.
    + by apply (new_writable_inv h0 v0 max _ _ _ _ _ _ _ _ _ _ _ _ _ _ Ew (or_introl eq_refl) f E).
    + by apply (new_writable_inv h0 v0 max _ _ _ _ _ _ _ _ _ _ _ _ _ _ Ew (or_intror eq_refl) f E).
  - apply (object_call_inv _ _ _ _ _ _ _ _ _ _ _ E); [|done]. intros f k st' f' k' Ea Hb. by apply (Append_tables _ d _ st').
  - assert (with_windows_object h FlushBuffered e = (st, e')) as E' by (by destruct E).
    apply (object_call_inv _ _ _ _ _ _ _ _ _ _ _ E'); [|done]. intros f k st' f' k' Ea _.
    apply FlushBuffered_tables in Ea as [-> ?]. split; [by exists []|done].
  - by apply (close_file_inv _ _ _ _ _ _ _ _ _ _ E).
  - by apply del_writable_inv.
  - by apply (lock_file_inv _ _ _ _ _ _ _ _ _ _ _ E).
  - by apply (unlock_file_inv _ _ _ _ _ _ _ _ _ _ _ E).
  - apply DeleteFile_tables in E as [He Hs]. by apply (step_system h0 v0 max (mkObjects e sq rs ls)).
  - apply RenameFile_tables in E as [He Hs]. by apply (step_system h0 v0 max (mkObjects e sq rs ls)).
Qed.

Lemma dom_nodes v : dom (nodes v) = dom (fds v).
Proof. apply dom_fmap_L. Qed.

(** C26: no handle is lost and none is closed twice.  From an environment without
    objects, after any sequence of calls that open, read, write, close, lock,
    rename and delete files and delete the objects, whichever system calls
    fail: the handles open are those from before and exactly one for every
    object that has one; the same for the mapped views, of which there are
    never more than the limit; every writable file holds back at most its
    buffer; and the locks held are those of the lock objects, on pairwise
    different files. *)
Theorem WindowsEnv_no_leaks (e0 : WindowsEnv K) (o : objects) :
  w_writables e0 = ∅ -> locks (wview e0) = ∅ -> 0 <= w_mmap_limiter e0 < 2 ^ 31 ->
  rtc windows_step (mkObjects e0 [] [] []) o ->
  let v := wview (o_env o) in
  (NoDup (owned_handles o) /\ dom (fds v) = dom (fds (wview e0)) ∪ list_to_set (owned_handles o)) /\
  (NoDup (owned_views o) /\ dom (maps v) = dom (maps (wview e0)) ∪ list_to_set (owned_views o) /\
   Z.of_nat (length (owned_views o)) <= w_mmap_limiter e0) /\
  map_Forall (fun _ f => blen (ww_buf f) <= Windows_kWritableFileBufferSize) (w_writables (o_env o)) /\
  (locks v = list_to_set (wlk_handle <$> o_locks o) /\ NoDup ((fun l => nodes v !! wlk_handle l) <$> o_locks o)).
Proof.
  intros Hw Hlk Hlim Hs. assert (objects_inv (dom (nodes (wview e0))) (dom (maps (wview e0))) (w_mmap_limiter e0) o) as Hi.
  { assert (objects_inv (dom (nodes (wview e0))) (dom (maps (wview e0))) (w_mmap_limiter e0) (mkObjects e0 [] [] [])) as H0.
    { split; cbn; unfold owned_handles, owned_views; cbn; rewrite ?Hw; try done.
      - split; [apply NoDup_nil_2|set_solver|set_solver].
      - split; [apply NoDup_nil_2|set_solver|set_solver].
      - lia.
      - set_solver. }
    revert H0. induction Hs as [|o1 o2 o3 Hs _ IH]; [done|]. intros H1. apply IH, (windows_step_inv _ _ _ o1); [lia|done|done]. }
  destruct Hi as [[H1 _ H1'] [H2 _ H2'] _ H4 H5 H6 H7]. rewrite !dom_nodes in H1'. split_and!; try done; [lia|].
  assert (NoDup (wlk_handle <$> o_locks o)) as Hnd by (unfold owned_handles in H1; rewrite !app_assoc in H1; by apply NoDup_app in H1 as (_ & _ & ?)).
  clear -H6 Hnd. induction (o_locks o) as [|l ls IH]; [apply NoDup_nil_2|]. cbn in *. apply NoDup_cons in Hnd as [Hno Hnd].
  apply NoDup_cons. split; [|apply IH; [intros x y Hx Hy; apply H6; by right|done]].
  intros (x & Heq & Hx)%list_elem_of_fmap. apply Hno. rewrite (H6 l x); [by apply list_elem_of_fmap_2|by left|by right|done].
Qed.

(** C37: a limiter slot is lost when the size of a file cannot be read.
    [NewRandomAccessFile] then returns the error without releasing the slot it
    has acquired: no object holds it, and the process can map one file less
    for the rest of its life. *)
Theorem WindowsEnv_leaks_slot (f : bytes) (e : WindowsEnv K) (h size : Z) (k1 k2 : K) :
  CreateFileA (c_str f) GENERIC_READ FILE_SHARE_READ OPEN_EXISTING FILE_ATTRIBUTE_READONLY (system e) = (h, k1) ->
  is_valid h = true -> GetFileSizeEx h k1 = (false, size, k2) ->
  0 < w_mmap_limiter e < 2 ^ 31 -> locks_open (wview e) ->
  let '(st, r, e') := WindowsEnv_NewRandomAccessFile f e in
  ok st = false /\ r = None /\ same_tables (wview e) (wview e') /\ w_mmap_limiter e' = w_mmap_limiter e - 1.
Proof.
  intros E1 Hv E2 Hlim Hlo. destruct (WindowsEnv_NewRandomAccessFile f e) as [[st r] e'] eqn:E. pose proof E as E0.
  apply NewRandomAccessFile_tables in E0 as [_ Ht]; [|lia|done]. revert E. unfold WindowsEnv_NewRandomAccessFile, win at 1. rewrite E1, Hv. cbn [negb].
  cbn [w_mmap_limiter set_system]. change (WindowsLimiter_Acquire (w_mmap_limiter e)) with (Limiter_Acquire (w_mmap_limiter e)).
  rewrite Limiter_Acquire_spec, (proj2 (Z.ltb_lt _ _)) by lia. cbn [negb]. unfold win at 1. cbn [system set_system set_w_limit]. rewrite E2. cbn [negb].
  intros [= <- <- <-]. rewrite WindowsError_not_ok. destruct Ht as [Ht _]. done.
Qed.
End objects.

Arguments objects : clear implicits.

(** * Witnesses *)

Module TestObjects.

Import MemKernel TestWindows.

Definition name : bytes := CurrentFileName db.

(** An environment with one file. *)
Definition env0 (pl : list outcome) : WindowsEnv Mem := current_env (bytes_of_string "old") pl.

Definition env1 : WindowsEnv Mem := (WindowsEnv_NewRandomAccessFile name (env0 [])).2.
Definition env2 : WindowsEnv Mem := (WindowsEnv_LockFile name env1).2.

(** A mapped file and a lock. *)
Definition objects2 : objects Mem :=
  mkObjects env2 [] [WindowsMmapReadableFile name map_base 3] [{| wlk_handle := 3; wlk_name := name |}].

Lemma objects2_reachable : rtc windows_step (mkObjects (env0 []) [] [] []) objects2.
Proof.
  eapply rtc_l; [apply (new_random name (env0 []) OK (Some (WindowsMmapReadableFile name map_base 3)) env1); vm_compute; reflexivity|].
  apply rtc_once. apply (lock name env1 OK (Some {| wlk_handle := 3; wlk_name := name |}) env2). vm_compute. reflexivity.
Qed.

Lemma WindowsEnv_no_leaks_witness :
  owned_handles objects2 = [3] /\ owned_views objects2 = [map_base] /\
  let o := objects2 in
  let e0 := env0 [] in
  let v := wview (view := MemKernel.view) (o_env o) in
  (NoDup (owned_handles o) /\ dom (fds v) = dom (fds (wview (view := MemKernel.view) e0)) ∪ list_to_set (owned_handles o)) /\
  (NoDup (owned_views o) /\ dom (maps v) = dom (maps (wview (view := MemKernel.view) e0)) ∪ list_to_set (owned_views o) /\
   Z.of_nat (length (owned_views o)) <= w_mmap_limiter e0) /\
  map_Forall (fun _ f => blen (ww_buf f) <= Windows_kWritableFileBufferSize) (w_writables (o_env o)) /\
  (locks v = list_to_set (wlk_handle <$> o_locks o) /\ NoDup ((fun l => nodes v !! wlk_handle l) <$> o_locks o)).
Proof.
  split; [vm_compute; reflexivity|]. split; [vm_compute; reflexivity|].
  exact (WindowsEnv_no_leaks (view := MemKernel.view) (env0 []) objects2 eq_refl eq_refl ltac:(cbn; lia) objects2_reachable).
Defined.

(** The file opens, and its size cannot be read. *)
Lemma WindowsEnv_leaks_slot_witness :
  let e := env0 [Normal; Fails 5] in
  let '(st, r, e') := WindowsEnv_NewRandomAccessFile name e in
  ok st = false /\ r = None /\
  same_tables (wview (view := MemKernel.view) e) (wview (view := MemKernel.view) e') /\ w_mmap_limiter e' = 1000 - 1.
Proof.
  intros e. pose (c := CreateFileA (c_str name) GENERIC_READ FILE_SHARE_READ OPEN_EXISTING FILE_ATTRIBUTE_READONLY (system e)).
  apply (WindowsEnv_leaks_slot (view := MemKernel.view) name e c.1 0 c.2 (GetFileSizeEx c.1 c.2).2).
  - apply surjective_pairing.
  - vm_compute. reflexivity.
  - vm_compute. reflexivity.
  - cbn. lia.
  - intros h Hh. exfalso. revert Hh. apply not_elem_of_empty.
Defined.

End TestObjects.
