(* ===== verification/WindowsLogger.v ===== *)
(** [WindowsLogger::Logv] of [util/windows_logger.h]: the buffers and the loop
    are those of [PosixLogger], the time comes from [GetLocalTime]. *)

From S2P Require Import Prelude Logging Status PosixLogger.

(** [SYSTEMTIME], as far as it is printed. *)
Record system_time := {
  wYear : Z; wMonth : Z; wDay : Z; wHour : Z; wMinute : Z; wSecond : Z; wMilliseconds : Z;
}.

(** ["%04d/%02d/%02d-%02d:%02d:%02d.%06d %s "] *)
Definition Windows_log_header (t : system_time) (thread_id : bytes) : bytes :=
  print_0d 4 (wYear t) ++ [bz 47] ++ print_0d 2 (wMonth t) ++ [bz 47] ++
  print_0d 2 (wDay t) ++ [bz 45] ++ print_0d 2 (wHour t) ++ [bz 58] ++
  print_0d 2 (wMinute t) ++ [bz 58] ++ print_0d 2 (wSecond t) ++ [bz 46] ++
  print_0d 6 (s32 (wMilliseconds t * 1000)) ++ [bz 32] ++ thread_id ++ [bz 32].

(** The two turns of the loop are those of [PosixLogger::Logv]. *)
Definition Windows_Logv (fresh : Z -> bytes) (t : system_time) (thread_id message : bytes) : option bytes :=
  Logv_loop fresh (Windows_log_header t (short_thread_id thread_id)) message.

(** What [GetLocalTime] returns. *)
Definition local_time (t : system_time) : Prop :=
  1601 <= wYear t < 10000 /\ 1 <= wMonth t <= 12 /\ 1 <= wDay t <= 31 /\
  0 <= wHour t < 24 /\ 0 <= wMinute t < 60 /\ 0 <= wSecond t < 60 /\ 0 <= wMilliseconds t < 1000.

Lemma length_Windows_log_header t id : local_time t -> (length id <= kMaxThreadIdSize)%nat ->
  (28 <= length (Windows_log_header t id) <= 60)%nat.
Proof.
  intros (?&?&?&?&?&?&?) Hid. unfold Windows_log_header. rewrite s32_small by lia. rewrite !length_app, !length_print_0d by (simpl; lia).
  unfold kMaxThreadIdSize in Hid. simpl. lia.
Qed.

(** A log line comes out whole, as in [PosixLogger]. *)
Lemma Windows_Logv_writes_line fresh t thread_id message :
  (forall n, 0 <= n -> Z.of_nat (length (fresh n)) = n) -> local_time t -> blen message < 2 ^ 31 - 64 ->
  Windows_Logv fresh t thread_id message = Some (log_line (Windows_log_header t (short_thread_id thread_id)) message).
Proof.
  intros Hf Ht Hint. apply Logv_loop_line; [done| |done]. apply length_Windows_log_header; [done|].
  unfold short_thread_id. rewrite length_take. lia.
Qed.

(** The header of a line. *)
Example Windows_log_header_example :
  Windows_log_header {| wYear := 2021; wMonth := 2; wDay := 28; wHour := 9; wMinute := 5; wSecond := 7; wMilliseconds := 42 |}
    (bytes_of_string "7f") = bytes_of_string "2021/02/28-09:05:07.042000 7f ".
Proof. vm_compute. reflexivity. Qed.
